(* ===== verification/_CoqProject ===== *)
-Q . S2P
Prelude.v
GoTime.v
GoBytes.v
GoStrings.v
GoFormat.v
Ident.v
Value.v
Span.v
Codec.v
Otlp.v
Frame.v
Query.v
Memory.v
MemorySpec.v
Assembly.v
Forest.v
AssemblySpec.v
BuildProps.v
Timing.v
GoFloat.v
Policy.v
Os.v
Disk.v
DiskSpec.v
DiskProps.v
DiskCrash.v
Store.v
Sampler.v
SamplerSpec.v
SamplerProps.v
SamplerFlow.v
SamplerLedger.v
SamplerRun.v
Ingest.v
Daemon.v
DaemonProps.v
DaemonRun.v
Serve.v
Delivery.v
