(* ===== verification/Prelude.v ===== *)
(** * Spandrel: a verified model of the tracing backend

    Spandrel accepts OpenTelemetry spans over gRPC and HTTP, buffers each trace
    until it goes quiet, decides whether to keep it, and stores the ones it
    keeps in memory or on disk.  This library models its Go code under
    [src/internal] and [src/cmd/spandreld] and proves what makes each part
    correct, and that the parts composed into the daemon keep what they promise.

    ** The parts and their files

    A span travels through the files in this order: [Otlp], [Ingest], [Sampler]
    (with [Assembly] and [Policy]), then [Memory], or [Disk] over [Codec],
    [Frame] and [Os]; [Daemon] ties them together.

    - This file: results, machine integers, stable sorting, orders, and small facts
      on lists.  [GoTime], [GoBytes], [GoStrings], [GoFormat] and [GoFloat] are
      what the program uses of the Go packages time, encoding/binary, strings
      and strconv, and of float64 arithmetic.
    - [Ident] (trace/id.go), [Value] (trace/value.go), [Span] (trace/span.go):
      the data.  An identifier is a vector of bytes, an attribute value a tagged
      union with the code's one word for the scalars.
    - [Codec] (storage/codec.go): the binary form of a span; the sticky decoder
      is a state transformer.
    - [Otlp] (otlp/translate.go): from wire messages to spans.  The generated
      protobuf types are the class [Proto]; [ProtoTypes] is what Go's types say
      of them.
    - [Query] (storage/storage.go), [Memory] (storage/memory.go): the store with
      its four indexes; [MemorySpec] has its reference, the store that looks at
      every trace.
    - [Assembly] (assembly/assembly.go): building a tree out of spans.  Nodes
      are objects of a heap, linked by pointers, since the code mutates them
      through aliases.  [Forest] is about such heaps, [AssemblySpec] the tree
      described without loops, [BuildProps] the properties, [Timing]
      (assembly/timing.go) self time and the critical path.
    - [Policy] (sampler/policy.go): the policies; [SafePolicy] is the promise the
      sampler needs of one.
    - [Os], [Frame], [Disk] (storage/disk.go): the durable store.  [DiskSpec] is
      the invariant that ties a store to its directory, [DiskProps] the store
      through writes, failures, crashes and restarts, [DiskCrash] what a killed
      process leaves, said of the files alone.
    - [Store] (the interface of storage/storage.go): the class [Store] of
      implementations, an abstract store without indexes, files or failures,
      and the class [StoreLaws] of what an implementation promises in its terms.
      The in-memory store, the disk store and the daemon's choice of them are
      instances; [store_refinement] is what a client sees of each of the two.
    - [Sampler] (sampler/sampler.go): the sampler's state, the pieces of its
      methods that run under its lock, and the methods.  [SamplerSpec] is their
      interleaving; [SamplerProps], [SamplerFlow] and [SamplerRun] are what
      holds; [SamplerLedger] follows every span through it.
    - [Ingest] (ingest/sink.go, grpc.go, http.go): the two transports over the
      class [Sink], of which the sampler is an instance.
    - [Daemon], [DaemonProps] (cmd/spandreld/main.go): flags, start, and the
      policy chain.  [DaemonRun] is the sampler and the store together, as one
      state machine, with its shutdown, and what its log of writes says of the
      segments ([segments_hold]).
    - [Serve] (serve, serveSampled, evictLoop, run and main): the process around
      it, from the connections to the exit code; until the store is closed
      every step of the process is one of the daemon or none
      ([process_refines]).  [Delivery] follows the
      spans of an acknowledged export to the exit, or to a crash.

    ** What the theorems show

    - Assembly: [Build] never fails but on no spans or on mixed traces, returns
      the one tree of its specification ([build_spec]) whatever order spans
      arrive in and maps are iterated in ([build_deterministic]); the walk, the
      completeness test, self time and the critical path.
    - Sampling: in every interleaving the buffer is bounded and exact, the
      counters agree with the log of writes, and the accepted spans are exactly
      those held, in hand, written or dropped ([spans_conserved]); only accepted
      spans are written, a sweep always comes to its end, and a flush leaves
      nothing; what a batch, a sweep and each policy decide.
    - Storage: the codec and the record framing are inverted by their readers,
      and a changed byte is noticed; searching through the indexes is scanning
      every trace; whichever calls of the operating system fail, segments hold
      exactly what was acknowledged, and once calls succeed again so do writes
      ([disk_heals]); a crash loses nothing acknowledged as long as the clock
      does not run backwards; retention removes only what is old enough.
    - Ingest: what a request translates to and what each span carries over, that
      the transports agree, and every answer of the HTTP endpoint.
    - Stores: the in-memory and the disk store answer like the abstract one
      ([store_refinement]).
    - Values: the text of a value tells it from the others of its kind; finite
      floats are printed with as few digits as read back as them.
    - The daemon: what it accepts and when it starts; the decision of its policy
      chain; kept spans are served in their last copy ([last_copy]) until they
      expire, are on disk when the process has exited, and are served again
      after a restart or a kill ([restart_after_exit],
      [killed_keeps_written]); set to keep everything it loses no acknowledged
      span silently ([acknowledged_on_disk]); the process can always come to
      its exit.

    Some theorems state behaviour that the code's comments do not lead one to
    expect: [find_misses_long_running_trace], [failed_close_sticks],
    [clock_step_refuses], [odd_name_refuses], [late_export_lost] and
    [acknowledged_lost_in_crash].

    ** Modelling decisions

    Go's panics are [None] or the error [Fault]; totality theorems rule them
    out.  Recursions that follow pointers take fuel, the size of the heap and a
    little more, which the theorems show to be enough for every heap [Build]
    makes; varints take ten rounds, the most 64 bits need; the decimal of a float
    is looked for in 700 powers of ten and 17 digits, which
    [decimal_point_spec] and [seventeen] show to be enough.  A method that holds
    a lock throughout is one step; where the sampler releases its lock, a
    method is several steps with [Accept] in between.  The order in which Go
    ranges over a map is an argument, or every order is quantified over.  The
    disk store's eviction is two steps, memory before its lock is taken and the
    segments under it ([evict_memory], [evict_disk]), with anything in between.
    The clock is arbitrary.  Integers wrap where the code's width matters; the
    sampler's counters and the hour after a segment's are unbounded, since 64
    bits do not overflow within reach.

    Faults: [Os] carries the outcomes of the calls to come, any of which may
    fail, a write after any first part of its bytes.  A crash leaves segments as
    they were acknowledged, except that the one being written, or the one left
    to repair, may have lost or kept any part of what was not acknowledged
    ([crash_leaves]).  Of a killed process this is exact.  Of a loss of power it
    assumes that what [Sync] returned for is durable, and also what the code
    does not sync: that a file was created or removed, and that a rollback, a
    repair or a replay has cut one back.

    ** Not modelled

    The texts of errors and logging.  The network: [Serve] keeps of the gRPC and
    HTTP servers whether exports may still come in and which they are
    handling, and of [GracefulStop], [Shutdown] and [Stop] what their
    documentation says; the health service is one flag, signals are a step.
    Contexts other than those of [Run] and of the drain are not consulted by the
    code.  Parameters: the protobuf, JSON, gzip and media-type decoders, the
    value parsers of the flag package, and the random source of identifiers.
    The constructors that only store their arguments (NewTraceService,
    NewHTTPHandler) are the handlers' arguments here. *)

From Stdlib Require Export ZArith Lia.
From Stdlib Require Export Strings.Byte.
From Stdlib Require Export Strings.String.
From stdpp Require Export base tactics option list list_numbers sorting numbers.
From stdpp Require Export strings gmap vector relations.

#[export] Set Default Goal Selector "!".
#[export] Set Warnings "-clear-no-such-hyp".

Open Scope Z_scope.

(** ** Results: Go's [(value, error)] pairs *)

(** A call that either returns a value or an error. *)
Inductive result (E A : Type) : Type :=
| Ok (a : A)
| Err (e : E).
Arguments Ok {E A} a.
Arguments Err {E A} e.

Declare Scope go_scope.
Delimit Scope go_scope with go.
Open Scope go_scope.

(** [let? x := e in k] is [x, err := e; if err != nil { return err }; k]. *)
Notation "'let?' x := e 'in' k" :=
  (match e with Ok x => k | Err err => Err err end)
  (at level 10, x pattern, e at level 200, k at level 200) : go_scope.

Definition is_ok {E A} (r : result E A) : bool :=
  match r with Ok _ => true | Err _ => false end.

Lemma is_ok_inv {E A} (r : result E A) : is_ok r = true -> exists a, r = Ok a.
Proof. destruct r as [a|]; [by exists a|done]. Qed.

(** ** Bytes *)

(** The integer value of a byte, and the truncating conversion [byte(x)]. *)
Definition byteZ (b : byte) : Z := Z.of_N (Byte.to_N b).

Definition byte_of_Z (z : Z) : byte :=
  match Byte.of_N (Z.to_N (z mod 256)) with
  | Some b => b
  | None => x00
  end.

#[export] Instance byte_eq_dec : EqDecision byte := Byte.byte_eq_dec.

Lemma byteZ_range b : 0 <= byteZ b < 256.
Proof. unfold byteZ. pose proof (Byte.to_N_bounded b). lia. Qed.

Lemma byteZ_of_Z z : byteZ (byte_of_Z z) = z mod 256.
Proof.
  unfold byteZ, byte_of_Z.
  assert (0 <= z mod 256 < 256) as Hz by (apply Z.mod_pos_bound; lia).
  destruct (Byte.of_N (Z.to_N (z mod 256))) as [b|] eqn:E.
  - apply Byte.to_of_N in E. rewrite E. lia.
  - apply Byte.of_N_None_iff in E. lia.
Qed.

#[export] Instance byteZ_inj : Inj (=) (=) byteZ.
Proof.
  intros a b H. unfold byteZ in H. apply N2Z.inj in H.
  pose proof (Byte.of_to_N a). pose proof (Byte.of_to_N b). congruence.
Qed.

Lemma byte_of_byteZ b : byte_of_Z (byteZ b) = b.
Proof.
  apply (inj byteZ). rewrite byteZ_of_Z. apply Z.mod_small, byteZ_range.
Qed.

Lemma byteZ_of_Z_small z : 0 <= z < 256 -> byteZ (byte_of_Z z) = z.
Proof. intros. rewrite byteZ_of_Z. by apply Z.mod_small. Qed.

#[export] Program Instance byte_countable : Countable byte := {|
  encode b := encode (Byte.to_N b);
  decode p := n ← decode p; Byte.of_N n
|}.
Next Obligation. intros b; simpl; rewrite decode_encode; simpl. apply Byte.of_to_N. Qed.

(** ** Machine integers *)

(** [int64(x)] and [uint64(x)]: reduction modulo [2^64] into the signed and
    the unsigned range. *)
Definition two64 : Z := 2 ^ 64.
Definition minInt64 : Z := - 2 ^ 63.
Definition maxInt64 : Z := 2 ^ 63 - 1.

Definition uint64 (z : Z) : Z := z mod two64.
Definition int64 (z : Z) : Z := (z + 2 ^ 63) mod two64 - 2 ^ 63.

Definition in_int64 (z : Z) : Prop := minInt64 <= z <= maxInt64.
Definition in_uint64 (z : Z) : Prop := 0 <= z < two64.

#[export] Instance in_int64_dec z : Decision (in_int64 z).
Proof. unfold in_int64. apply _. Defined.
#[export] Instance in_uint64_dec z : Decision (in_uint64 z).
Proof. unfold in_uint64. apply _. Defined.

(** Decides a closed proposition by evaluation. *)
Ltac vm_decide := apply (bool_decide_unpack _); vm_compute; exact I.

Ltac unfold_int := unfold in_int64, in_uint64, int64, uint64, minInt64, maxInt64, two64 in *.

Lemma int64_id z : in_int64 z -> int64 z = z.
Proof. unfold_int. intros. rewrite Z.mod_small; lia. Qed.

Lemma uint64_id z : in_uint64 z -> uint64 z = z.
Proof. unfold_int. intros. by apply Z.mod_small. Qed.

Lemma int64_range z : in_int64 (int64 z).
Proof. unfold_int. pose proof (Z.mod_pos_bound (z + 2^63) (2^64)). lia. Qed.

Lemma uint64_range z : in_uint64 (uint64 z).
Proof. unfold_int. apply Z.mod_pos_bound. lia. Qed.

Lemma int64_uint64 z : int64 (uint64 z) = int64 z.
Proof. unfold_int. by rewrite Zplus_mod_idemp_l. Qed.

Lemma int64_of_uint64_of_int64 z : in_int64 z -> int64 (uint64 z) = z.
Proof. intros. rewrite int64_uint64. by apply int64_id. Qed.

(** ** Comparison functions

    Go's three-way comparison functions return an [int] whose sign matters;
    here they return [comparison].  [CmpLaws] is what the callers of
    [slices.SortFunc] promise: a total preorder. *)

Class CmpLaws {A} (cmp : A -> A -> comparison) : Prop := {
  cmp_refl x : cmp x x = Eq;
  cmp_flip x y : cmp y x = CompOpp (cmp x y);
  cmp_trans x y z : cmp x y <> Gt -> cmp y z <> Gt -> cmp x z <> Gt;
}.

Arguments cmp_refl {A} cmp {_} x.
Arguments cmp_flip {A} cmp {_} x y.
Arguments cmp_trans {A} cmp {_} x y z.

(** [if c := cmp1(a, b); c != 0 { return c }; return cmp2(a, b)]. *)
Definition cmp_then (c d : comparison) : comparison :=
  match c with Eq => d | _ => c end.

Definition cmp_on {A B} (f : A -> B) (cmp : B -> B -> comparison) (x y : A) : comparison :=
  cmp (f x) (f y).

Definition cmp_rev {A} (cmp : A -> A -> comparison) (x y : A) : comparison := cmp y x.

#[export] Typeclasses Opaque cmp_on cmp_rev.

Section cmp_facts.
Context {A : Type} (cmp : A -> A -> comparison) `{!CmpLaws cmp}.

Lemma cmp_gt_lt x y : cmp x y = Gt <-> cmp y x = Lt.
Proof. rewrite (cmp_flip cmp x y). by destruct (cmp x y). Qed.

Lemma cmp_eq_sym x y : cmp x y = Eq <-> cmp y x = Eq.
Proof. rewrite (cmp_flip cmp x y). by destruct (cmp x y). Qed.

Lemma cmp_lt_trans_r x y z : cmp x y = Lt -> cmp y z <> Gt -> cmp x z = Lt.
Proof.
  intros Hxy Hyz.
  assert (cmp x z <> Gt) by (apply (cmp_trans cmp x y z); [by rewrite Hxy|done]).
  destruct (cmp x z) eqn:E; [|done..]. exfalso.
  apply (cmp_trans cmp y z x); [done| |by apply cmp_gt_lt].
  rewrite (cmp_flip cmp x z), E. done.
Qed.

Lemma cmp_lt_trans_l x y z : cmp x y <> Gt -> cmp y z = Lt -> cmp x z = Lt.
Proof.
  intros Hxy Hyz.
  assert (cmp x z <> Gt) by (apply (cmp_trans cmp x y z); [done|by rewrite Hyz]).
  destruct (cmp x z) eqn:E; [|done..]. exfalso.
  apply (cmp_trans cmp z x y); [|done|by apply cmp_gt_lt].
  rewrite (cmp_flip cmp x z), E. done.
Qed.

Lemma cmp_eq_trans x y z : cmp x y = Eq -> cmp y z = Eq -> cmp x z = Eq.
Proof.
  intros Hxy Hyz.
  assert (cmp x z <> Gt) as H1 by (apply (cmp_trans cmp x y z); congruence).
  assert (cmp z x <> Gt) as H2.
  { apply (cmp_trans cmp z y x); rewrite (cmp_flip cmp).
    - by rewrite Hyz.
    - by rewrite Hxy. }
  rewrite (cmp_flip cmp x z) in H2. by destruct (cmp x z).
Qed.
End cmp_facts.

#[export] Instance Z_compare_laws : CmpLaws Z.compare.
Proof.
  split.
  - apply Z.compare_refl.
  - intros. apply Z.compare_antisym.
  - intros x y z. change (x <= y -> y <= z -> x <= z). lia.
Qed.

#[export] Instance cmp_on_laws {A B} (f : A -> B) cmp : CmpLaws cmp -> CmpLaws (cmp_on f cmp).
Proof.
  intros H. unfold cmp_on. split; intros.
  - apply (cmp_refl cmp).
  - apply (cmp_flip cmp).
  - by eapply (cmp_trans cmp (f x) (f y)).
Qed.

#[export] Instance cmp_rev_laws {A} (cmp : A -> A -> comparison) : CmpLaws cmp -> CmpLaws (cmp_rev cmp).
Proof.
  intros H. unfold cmp_rev. split; intros.
  - apply (cmp_refl cmp).
  - apply (cmp_flip cmp).
  - by eapply (cmp_trans cmp z y).
Qed.

Lemma cmp_then_laws {A} (c d : A -> A -> comparison) :
  CmpLaws c -> CmpLaws d -> CmpLaws (fun x y => cmp_then (c x y) (d x y)).
Proof.
  intros Hc Hd. split.
  - intros x. rewrite (cmp_refl c). simpl. apply (cmp_refl d).
  - intros x y. rewrite (cmp_flip c x y), (cmp_flip d x y).
    by destruct (c x y).
  - intros x y z Hxy Hyz.
    destruct (c x y) eqn:Exy, (c y z) eqn:Eyz; simpl in *; try done.
    + rewrite (cmp_eq_trans c x y z) by done. simpl. by apply (cmp_trans d x y z).
    + by rewrite (cmp_lt_trans_l c x y z); [|rewrite Exy|].
    + by rewrite (cmp_lt_trans_r c x y z); [|done|rewrite Eyz].
    + by rewrite (cmp_lt_trans_r c x y z); [|done|rewrite Eyz].
Qed.

(** [slices.Compare] on byte slices: lexicographic, a prefix first. *)
Fixpoint compare_bytes (a b : list byte) : comparison :=
  match a, b with
  | [], [] => Eq
  | [], _ :: _ => Lt
  | _ :: _, [] => Gt
  | x :: a, y :: b => cmp_then (byteZ x ?= byteZ y) (compare_bytes a b)
  end.

Lemma compare_bytes_eq a b : compare_bytes a b = Eq <-> a = b.
Proof.
  revert b. induction a as [|x a IH]; intros [|y b]; simpl; try done.
  destruct (Z.compare_spec (byteZ x) (byteZ y)) as [E|E|E]; simpl.
  - apply (inj byteZ) in E. subst y. rewrite IH. split; [by intros ->|congruence].
  - split; [done|]. intros [= -> _]. lia.
  - split; [done|]. intros [= -> _]. lia.
Qed.

#[export] Instance compare_bytes_laws : CmpLaws compare_bytes.
Proof.
  split.
  - intros x. by apply compare_bytes_eq.
  - induction x as [|x a IH]; intros [|y b]; simpl; try done.
    rewrite (Z.compare_antisym (byteZ x) (byteZ y)), IH.
    by destruct (byteZ x ?= byteZ y).
  - induction x as [|x a IH]; intros [|y b] [|z c]; simpl; try done.
    specialize (IH b c).
    destruct (Z.compare_spec (byteZ x) (byteZ y)) as [E1|E1|E1];
    destruct (Z.compare_spec (byteZ y) (byteZ z)) as [E2|E2|E2]; simpl; try done;
    intros; destruct (Z.compare_spec (byteZ x) (byteZ z)) as [E3|E3|E3];
      simpl; try done; try lia; auto.
Qed.

(** ** Sorting

    [sort_func cmp] models [slices.SortStableFunc]: a stable sort.  It also
    models [slices.SortFunc] wherever the comparison separates the elements,
    because then a sorted permutation is unique ([sort_func_unique]). *)
Section sorting.
Context {A : Type} (cmp : A -> A -> comparison).

Fixpoint insert_sorted (x : A) (l : list A) : list A :=
  match l with
  | [] => [x]
  | y :: l' => match cmp x y with
               | Gt => y :: insert_sorted x l'
               | _ => x :: l
               end
  end.

Definition sort_func (l : list A) : list A := foldr insert_sorted [] l.

Definition cmp_le (x y : A) : Prop := cmp x y <> Gt.

Lemma insert_sorted_perm x l : insert_sorted x l ≡ₚ x :: l.
Proof.
  induction l as [|y l IH]; simpl; [done|].
  destruct (cmp x y); [done..|]. rewrite IH. apply Permutation_swap.
Qed.

Lemma sort_func_perm l : sort_func l ≡ₚ l.
Proof. induction l as [|x l IH]; simpl; [done|]. by rewrite insert_sorted_perm, IH. Qed.

Lemma sort_func_length l : length (sort_func l) = length l.
Proof. by rewrite sort_func_perm. Qed.

Lemma elem_of_sort_func x l : x ∈ sort_func l <-> x ∈ l.
Proof. by rewrite sort_func_perm. Qed.

Context `{!CmpLaws cmp}.

#[export] Instance cmp_le_transitive : Transitive cmp_le.
Proof. intros x y z. apply (cmp_trans cmp). Qed.

Lemma insert_sorted_sorted x l :
  StronglySorted cmp_le l -> StronglySorted cmp_le (insert_sorted x l).
Proof.
  induction 1 as [|y l Hl IH Hy]; simpl.
  - repeat constructor.
  - destruct (cmp x y) eqn:E.
    + constructor; [by constructor|]. constructor; [by unfold cmp_le; rewrite E|].
      eapply Forall_impl; [done|]. intros z Hz. eapply (cmp_trans cmp); [by rewrite E|done].
    + constructor; [by constructor|]. constructor; [by unfold cmp_le; rewrite E|].
      eapply Forall_impl; [done|]. intros z Hz. eapply (cmp_trans cmp); [by rewrite E|done].
    + constructor; [done|]. rewrite insert_sorted_perm. constructor; [|done].
      unfold cmp_le. by rewrite (cmp_flip cmp), E.
Qed.

Lemma sort_func_sorted l : StronglySorted cmp_le (sort_func l).
Proof. induction l; simpl; [constructor|by apply insert_sorted_sorted]. Qed.

(** Any sorted permutation of a list the comparison separates is the one
    [sort_func] returns. *)
Lemma sorted_perm_unique l1 l2 :
  (forall x y, x ∈ l1 -> y ∈ l1 -> cmp x y = Eq -> x = y) ->
  StronglySorted cmp_le l1 -> StronglySorted cmp_le l2 -> l1 ≡ₚ l2 -> l1 = l2.
Proof.
  intros Hsep H1 H2 Hp. apply (StronglySorted_unique_strong cmp_le); [|done..].
  intros x y Hx Hy Hxy Hyx. apply Hsep; [done| by rewrite Hp |].
  unfold cmp_le in *. rewrite (cmp_flip cmp x y) in Hyx. by destruct (cmp x y).
Qed.

Lemma sort_func_unique l1 l2 :
  (forall x y, x ∈ l1 -> y ∈ l1 -> cmp x y = Eq -> x = y) ->
  l1 ≡ₚ l2 -> sort_func l1 = sort_func l2.
Proof.
  intros Hsep Hp. apply sorted_perm_unique.
  - intros x y. rewrite !elem_of_sort_func. apply Hsep.
  - apply sort_func_sorted.
  - apply sort_func_sorted.
  - by rewrite !sort_func_perm.
Qed.

(** A list that is already sorted is left alone. *)
Lemma sort_func_id l : StronglySorted cmp_le l -> sort_func l = l.
Proof.
  induction 1 as [|x l Hl IH Hx]; simpl; [done|]. rewrite IH.
  destruct l as [|y l]; simpl; [done|].
  inversion Hx as [|? ? Hxy]; subst. unfold cmp_le in Hxy. by destruct (cmp x y).
Qed.
End sorting.

Lemma sort_func_ext {A} (c d : A -> A -> comparison) l :
  (forall x y, x ∈ l -> y ∈ l -> c x y = d x y) -> sort_func c l = sort_func d l.
Proof.
  induction l as [|x l IH]; intros H; simpl; [done|].
  rewrite IH; [|intros; apply H; by right].
  assert (forall y, y ∈ sort_func d l -> c x y = d x y) as Hx.
  { intros y. rewrite elem_of_sort_func. intros. apply H; [left|by right]. }
  clear IH. induction (sort_func d l) as [|y l' IHl]; simpl; [done|].
  rewrite (Hx y) by left. destruct (d x y); [done..|].
  f_equal. apply IHl. intros z Hz. apply Hx. by right.
Qed.

(** ** Lists *)

(** [len(l)], as an [int]. *)
Definition zlen {A} (l : list A) : Z := Z.of_nat (length l).

Lemma zlen_app {A} (l1 l2 : list A) : zlen (l1 ++ l2) = zlen l1 + zlen l2.
Proof. unfold zlen. rewrite length_app. lia. Qed.

Lemma zlen_one {A} (x : A) : zlen [x] = 1.
Proof. done. Qed.

Lemma zlen_nonneg {A} (l : list A) : 0 <= zlen l.
Proof. unfold zlen. lia. Qed.

(** Two duplicate-free lists that agree on the support of [g] give the same
    results up to order. *)
Lemma omap_perm_support {A B} (g : A -> option B) (l1 l2 : list A) :
  NoDup l1 -> NoDup l2 ->
  (forall x, is_Some (g x) -> x ∈ l1 <-> x ∈ l2) ->
  omap g l1 ≡ₚ omap g l2.
Proof.
  intros H1 H2 Hg.
  assert (forall l : list A, omap g l = omap g (filter (fun x => is_Some (g x)) l)) as Hf.
  { induction l as [|x l IH]; [done|]. cbn [omap list_omap]. rewrite filter_cons.
    destruct (g x) eqn:E; case_decide as Hd.
    - cbn [omap list_omap]. rewrite E. f_equal. exact IH.
    - by destruct Hd.
    - by destruct Hd.
    - exact IH. }
  rewrite (Hf l1), (Hf l2). apply omap_Permutation, NoDup_Permutation.
  - by apply NoDup_filter.
  - by apply NoDup_filter.
  - intros x. rewrite !list_elem_of_filter. split; intros [Hx ?]; (split; [done|by apply Hg]).
Qed.
