(* ===== verification/GoTime.v ===== *)
(** * Go's [time] package, as far as the program uses it

    A [time.Time] is an instant, held as the exact number of nanoseconds since
    the Unix epoch; the zero [time.Time] is January 1 of year 1.  A
    [time.Duration] is an [int64] number of nanoseconds, so [Sub] saturates
    and [UnixNano] wraps, as the package documents. *)

From S2P Require Import Prelude.

Abbreviation Time := Z (only parsing).
Abbreviation Duration := Z (only parsing).

Module Time.
(** [time.Time{}]. *)
Definition zero : Time := -62135596800 * 10 ^ 9.

Definition IsZero (t : Time) : bool := t =? zero.
Definition Before (t u : Time) : bool := t <? u.
Definition After (t u : Time) : bool := u <? t.
Definition Compare (t u : Time) : comparison := t ?= u.
Definition Equal (t u : Time) : bool := t =? u.
Definition Add (t : Time) (d : Duration) : Time := t + d.

(** [t.Sub(u)]: the difference, or the nearest duration when it does not
    fit in 64 bits. *)
Definition Sub (t u : Time) : Duration :=
  if t - u <? minInt64 then minInt64
  else if maxInt64 <? t - u then maxInt64
  else t - u.

(** [t.Unix()] rounds towards the past; [t.UnixNano()] wraps. *)
Definition Unix (t : Time) : Z := t / 10 ^ 9.
Definition UnixNano (t : Time) : Z := int64 t.

(** [time.Unix(0, n).UTC()]. *)
Definition ofUnixNano (n : Z) : Time := n.
End Time.

(** Go's [/] on integers truncates towards zero. *)
Definition go_div (a b : Z) : Z := Z.quot a b.

Definition Second : Duration := 10 ^ 9.

#[export] Instance time_compare_laws : CmpLaws Time.Compare := Z_compare_laws.

Lemma sub_range t u : in_int64 (Time.Sub t u).
Proof.
  unfold Time.Sub, in_int64.
  destruct (Z.ltb_spec (t - u) minInt64); [unfold_int; lia|].
  destruct (Z.ltb_spec maxInt64 (t - u)); unfold_int; lia.
Qed.

(** [Sub] is exact when the difference fits. *)
Lemma sub_exact t u : in_int64 (t - u) -> Time.Sub t u = t - u.
Proof.
  unfold Time.Sub, in_int64. intros.
  destruct (Z.ltb_spec (t - u) minInt64); [lia|].
  destruct (Z.ltb_spec maxInt64 (t - u)); lia.
Qed.

Lemma sub_nonneg t u : u <= t -> 0 <= Time.Sub t u.
Proof.
  unfold Time.Sub. intros.
  destruct (Z.ltb_spec (t - u) minInt64); [unfold_int; lia|].
  destruct (Z.ltb_spec maxInt64 (t - u)); unfold_int; lia.
Qed.

(** [Sub] is monotone: saturation never reorders differences. *)
Lemma sub_mono t t' u u' : t - u <= t' - u' -> Time.Sub t u <= Time.Sub t' u'.
Proof.
  unfold Time.Sub. intros.
  destruct (Z.ltb_spec (t - u) minInt64), (Z.ltb_spec (t' - u') minInt64),
    (Z.ltb_spec maxInt64 (t - u)), (Z.ltb_spec maxInt64 (t' - u')); unfold_int; lia.
Qed.

Lemma unix_mono t u : t <= u -> Time.Unix t <= Time.Unix u.
Proof. intros. unfold Time.Unix. apply Z.div_le_mono; lia. Qed.

Lemma go_div_mono a b c : 0 < c -> a <= b -> go_div a c <= go_div b c.
Proof. intros. unfold go_div. by apply Z.quot_le_mono. Qed.

(** Rewriting a time comparison into an integer fact. *)
Lemma Before_spec t u : Bool.reflect (t < u) (Time.Before t u).
Proof. unfold Time.Before. apply Z.ltb_spec0. Qed.
Lemma After_spec t u : Bool.reflect (u < t) (Time.After t u).
Proof. unfold Time.After. apply Z.ltb_spec0. Qed.
Lemma IsZero_spec t : Bool.reflect (t = Time.zero) (Time.IsZero t).
Proof. unfold Time.IsZero. apply Z.eqb_spec. Qed.

(** Case analysis on every time comparison in the goal. *)
Ltac time_cases :=
  repeat match goal with
  | |- context [Time.Before ?t ?u] => destruct (Before_spec t u)
  | |- context [Time.After ?t ?u] => destruct (After_spec t u)
  | |- context [Time.IsZero ?t] => destruct (IsZero_spec t)
  end.
