(* ===== verification/GoBytes.v ===== *)
(** * Go's [encoding/binary], as far as the program uses it

    Variable-length integers, zig-zag integers and fixed-width little- and
    big-endian integers, with their inverses. *)

From S2P Require Import Prelude.

(** ** Unsigned varints *)

(** The bytes [binary.AppendUvarint] appends.  Each round consumes seven bits,
    so ten rounds are enough for 64. *)
Definition MaxVarintLen64 : nat := 10.

Fixpoint uvarint_bytes (fuel : nat) (x : Z) : list byte :=
  match fuel with
  | O => []
  | S fuel => if 0x80 <=? x
              then byte_of_Z (Z.lor (x mod 256) 0x80) :: uvarint_bytes fuel (Z.shiftr x 7)
              else [byte_of_Z x]
  end.

Definition AppendUvarint (b : list byte) (x : Z) : list byte :=
  b ++ uvarint_bytes MaxVarintLen64 x.

(** The loop of [binary.Uvarint], at index [i] with accumulator [x] and shift
    [s]: the value and the number of bytes read, which is not positive when
    the buffer is too short or the value too long. *)
Fixpoint uvarint_loop (i : nat) (x s : Z) (buf : list byte) : Z * Z :=
  match buf with
  | [] => (0, 0)
  | b :: buf' =>
      if bool_decide (i = MaxVarintLen64) then (0, - (Z.of_nat i + 1))
      else if byteZ b <? 0x80 then
        if bool_decide (i = (MaxVarintLen64 - 1)%nat) && (1 <? byteZ b)
        then (0, - (Z.of_nat i + 1))
        else (Z.lor x (uint64 (Z.shiftl (byteZ b) s)), Z.of_nat i + 1)
      else uvarint_loop (S i) (Z.lor x (uint64 (Z.shiftl (Z.land (byteZ b) 0x7f) s))) (s + 7) buf'
  end.

Definition Uvarint (buf : list byte) : Z * Z := uvarint_loop 0 0 0 buf.

(** ** Signed varints *)

Definition zigzag (x : Z) : Z :=
  let ux := uint64 (Z.shiftl (uint64 x) 1) in
  if x <? 0 then two64 - 1 - ux else ux.

Definition unzigzag (ux : Z) : Z :=
  let x := int64 (Z.shiftr ux 1) in
  if Z.odd ux then - x - 1 else x.

Definition AppendVarint (b : list byte) (x : Z) : list byte := AppendUvarint b (zigzag x).

Definition Varint (buf : list byte) : Z * Z :=
  let '(ux, n) := Uvarint buf in (unzigzag ux, n).

(** ** Fixed width *)

Fixpoint le_bytes (n : nat) (x : Z) : list byte :=
  match n with
  | O => []
  | S n => byte_of_Z x :: le_bytes n (Z.shiftr x 8)
  end.

Fixpoint le_value (bs : list byte) : Z :=
  match bs with
  | [] => 0
  | b :: bs => Z.lor (byteZ b) (Z.shiftl (le_value bs) 8)
  end.

Fixpoint be_value_from (acc : Z) (bs : list byte) : Z :=
  match bs with
  | [] => acc
  | b :: bs => be_value_from (Z.lor (Z.shiftl acc 8) (byteZ b)) bs
  end.
Definition be_value : list byte -> Z := be_value_from 0.

(** ** Lemmas *)

Lemma testbit_above x s n : 0 <= x < 2 ^ s -> s <= n -> Z.testbit x n = false.
Proof.
  intros Hx Hn. destruct (Z.lt_ge_cases s 0).
  - rewrite Z.pow_neg_r in Hx by done. lia.
  - rewrite <- (Z.mod_small x (2 ^ s)) by done. apply Z.mod_pow2_bits_high. lia.
Qed.

(** A bitwise or of disjoint parts is a sum. *)
Lemma lor_disjoint x y s : 0 <= s -> 0 <= x < 2 ^ s -> Z.lor x (Z.shiftl y s) = x + y * 2 ^ s.
Proof.
  intros Hs Hx. rewrite Z.shiftl_mul_pow2 by done.
  apply Z.bits_inj'. intros n Hn. rewrite Z.lor_spec.
  destruct (Z.lt_ge_cases n s).
  - rewrite (Z.mul_pow2_bits_low y), orb_false_r by lia.
    rewrite <- (Z.mod_pow2_bits_low (x + y * 2 ^ s) s n) by lia.
    by rewrite Z_mod_plus_full, Z.mod_small.
  - rewrite (testbit_above x s n) by done. simpl. rewrite Z.mul_pow2_bits by lia.
    transitivity (Z.testbit ((x + y * 2 ^ s) / 2 ^ s) (n - s)).
    + by rewrite Z.div_add, (Z.div_small x), Z.add_0_l by lia.
    + rewrite Z.div_pow2_bits by lia. f_equal. lia.
Qed.

Lemma land_127 b : 0 <= b < 256 -> 128 <= b -> Z.land b 127 = b - 128.
Proof.
  intros. change 127 with (Z.ones 7). rewrite Z.land_ones by lia.
  rewrite Z.mod_eq by lia. change (2 ^ 7) with 128.
  assert (b / 128 = 1) as -> by (symmetry; apply Z.div_unique with (b - 128); lia). lia.
Qed.

Lemma lor_128_byte b : Z.lor (byteZ b) 128 = byteZ b mod 128 + 128.
Proof. by destruct b. Qed.

Lemma lor_128 x : byteZ (byte_of_Z (Z.lor (x mod 256) 128)) = x mod 128 + 128.
Proof.
  rewrite <- (byteZ_of_Z x), lor_128_byte, (byteZ_of_Z x).
  rewrite Z.mod_mod_divide by (by exists 2).
  apply byteZ_of_Z_small. pose proof (Z.mod_pos_bound x 128). lia.
Qed.

(** The reader undoes the writer, from any point of the loop. *)
Lemma uvarint_loop_bytes fuel i x s y rest :
  (i + fuel = MaxVarintLen64)%nat -> s = 7 * Z.of_nat i ->
  0 <= x < 2 ^ s -> 0 <= y < 2 ^ (64 - s) -> (0 < fuel)%nat ->
  uvarint_loop i x s (uvarint_bytes fuel y ++ rest) =
    (x + y * 2 ^ s, Z.of_nat i + Z.of_nat (length (uvarint_bytes fuel y))).
Proof.
  unfold MaxVarintLen64.
  revert i x s y. induction fuel as [|fuel IH]; intros i x s y Hi Hs Hx Hy Hf; [lia|].
  assert (2 ^ (64 - s) * 2 ^ s = two64) as Hpow by (rewrite <- Z.pow_add_r by lia; unfold two64; f_equal; lia).
  cbn [uvarint_bytes]. destruct (Z.leb_spec 0x80 y) as [Hge|Hlt]; cbn [app uvarint_loop length].
  - rewrite bool_decide_false by (unfold MaxVarintLen64; lia).
    rewrite lor_128. pose proof (Z.mod_pos_bound y 128) as Hm.
    destruct (Z.ltb_spec (y mod 128 + 128) 0x80); [lia|].
    rewrite land_127 by lia. replace (y mod 128 + 128 - 128) with (y mod 128) by lia.
    assert (Hf' : (0 < fuel)%nat).
    { destruct fuel; [|lia]. assert (s = 63) as Es by lia. rewrite Es in Hy.
      change (2 ^ (64 - 63)) with 2 in Hy. lia. }
    assert (y mod 128 * 2 ^ s + 2 ^ s <= two64) as Hfit.
    { assert (s <= 56) by lia. assert (2 ^ s <= 2 ^ 56) by (apply Z.pow_le_mono_r; lia).
      unfold two64. nia. }
    rewrite uint64_id by (rewrite Z.shiftl_mul_pow2 by lia; unfold in_uint64; nia).
    rewrite lor_disjoint by lia.
    rewrite Z.shiftr_div_pow2 by lia. change (2 ^ 7) with 128.
    pose proof (Z.div_mod y 128).
    assert (2 ^ (s + 7) = 2 ^ s * 128) as Hs7 by (rewrite Z.pow_add_r by lia; lia).
    assert (2 ^ (64 - s) = 2 ^ (64 - (s + 7)) * 128) as Hs8.
    { change 128 with (2 ^ 7). rewrite <- Z.pow_add_r by lia. f_equal. lia. }
    rewrite IH; [|lia|lia|nia|split; [apply Z.div_pos; lia|apply Z.div_lt_upper_bound; lia]|done].
    f_equal; [nia|lia].
  - rewrite bool_decide_false by (unfold MaxVarintLen64; lia).
    rewrite byteZ_of_Z_small by lia. destruct (Z.ltb_spec y 0x80); [|lia].
    assert (bool_decide (i = (MaxVarintLen64 - 1)%nat) && (1 <? y) = false) as ->.
    { apply andb_false_iff. case_bool_decide as Hi9; [|by left]. right.
      unfold MaxVarintLen64 in Hi9. assert (s = 63) as Es by lia. rewrite Es in Hy.
      change (2 ^ (64 - 63)) with 2 in Hy. apply Z.ltb_ge. lia. }
    rewrite uint64_id by (rewrite Z.shiftl_mul_pow2 by lia; unfold in_uint64; nia).
    by rewrite lor_disjoint by lia.
Qed.

Lemma Uvarint_bytes x rest :
  in_uint64 x ->
  Uvarint (uvarint_bytes MaxVarintLen64 x ++ rest) =
    (x, Z.of_nat (length (uvarint_bytes MaxVarintLen64 x))).
Proof.
  intros Hx. unfold Uvarint. rewrite uvarint_loop_bytes; [|done|done|lia| |unfold MaxVarintLen64; lia].
  - f_equal; lia.
  - unfold in_uint64, two64 in Hx. lia.
Qed.

Lemma uvarint_bytes_nonempty x : uvarint_bytes MaxVarintLen64 x <> [].
Proof. unfold MaxVarintLen64. cbn [uvarint_bytes]. by destruct (_ <=? _). Qed.

(** A successful read consumes at least one byte, no more than there are, and
    does not depend on what follows. *)
Lemma uvarint_loop_read i x s buf v n :
  uvarint_loop i x s buf = (v, n) -> 0 < n ->
  Z.of_nat i < n <= Z.of_nat i + Z.of_nat (length buf) /\ forall ext, uvarint_loop i x s (buf ++ ext) = (v, n).
Proof.
  revert i x s. induction buf as [|b buf IH]; intros i x s; cbn [uvarint_loop app length].
  { intros [= <- <-]. lia. }
  case_bool_decide; [intros [= <- <-]; lia|].
  destruct (byteZ b <? 0x80).
  - destruct (_ && _); intros [= <- <-]; [lia|]. split; [lia|done].
  - intros Hl Hn. destruct (IH _ _ _ Hl Hn) as [? ?]. split; [lia|done].
Qed.

Lemma Uvarint_read buf v n :
  Uvarint buf = (v, n) -> 0 < n ->
  n <= Z.of_nat (length buf) /\ forall ext, Uvarint (buf ++ ext) = (v, n).
Proof. intros H Hn. apply uvarint_loop_read in H; [|done]. split; [lia|apply H]. Qed.

Lemma zigzag_range x : in_uint64 (zigzag x).
Proof.
  unfold zigzag. pose proof (uint64_range (Z.shiftl (uint64 x) 1)) as H.
  unfold in_uint64, two64 in *. destruct (_ <? _); lia.
Qed.

Lemma zigzag_value x : in_int64 x -> zigzag x = if x <? 0 then - 2 * x - 1 else 2 * x.
Proof.
  intros Hx. unfold zigzag, uint64. rewrite Z.shiftl_mul_pow2 by lia. change (2 ^ 1) with 2.
  rewrite Zmult_mod_idemp_l. unfold_int. destruct (Z.ltb_spec x 0).
  - replace (x * 2) with (2 * x + 2 ^ 64 + (-1) * 2 ^ 64) by lia.
    rewrite Z_mod_plus_full, Z.mod_small by lia. lia.
  - rewrite Z.mod_small by lia. lia.
Qed.

Lemma unzigzag_zigzag x : in_int64 x -> unzigzag (zigzag x) = x.
Proof.
  intros Hx. rewrite zigzag_value by done. unfold unzigzag.
  rewrite Z.shiftr_div_pow2 by lia. change (2 ^ 1) with 2.
  destruct (Z.ltb_spec x 0).
  - replace (-2 * x - 1) with (1 + 2 * (- x - 1)) by lia.
    rewrite Z.odd_add_mul_2. cbn [Z.odd].
    rewrite (Z.mul_comm 2), Z.div_add, Z.div_small, Z.add_0_l by lia.
    rewrite int64_id by (unfold_int; lia). lia.
  - replace (2 * x) with (0 + 2 * x) by lia. rewrite Z.odd_add_mul_2. cbn [Z.odd].
    rewrite Z.add_0_l, Z.mul_comm, Z.div_mul by lia. by apply int64_id.
Qed.

Lemma length_le_bytes n x : length (le_bytes n x) = n.
Proof. revert x. induction n; intros; simpl; auto. Qed.

Lemma le_value_bound bs : 0 <= le_value bs < 2 ^ (8 * Z.of_nat (length bs)).
Proof.
  induction bs as [|b bs IH]; cbn [le_value length]; [lia|].
  pose proof (byteZ_range b). rewrite (lor_disjoint _ _ 8) by lia.
  replace (8 * Z.of_nat (S (length bs))) with (8 + 8 * Z.of_nat (length bs)) by lia.
  rewrite Z.pow_add_r by lia. lia.
Qed.

Lemma le_value_bytes n x : le_value (le_bytes n x) = x mod 2 ^ (8 * Z.of_nat n).
Proof.
  revert x. induction n as [|n IH]; intros x; cbn [le_value le_bytes]; [by rewrite Z.mod_1_r|].
  rewrite byteZ_of_Z, IH, Z.shiftr_div_pow2 by lia.
  pose proof (Z.mod_pos_bound x 256). rewrite (lor_disjoint _ _ 8) by lia.
  replace (8 * Z.of_nat (S n)) with (8 + 8 * Z.of_nat n) by lia.
  rewrite Z.pow_add_r by lia. change (2 ^ 8) with 256.
  rewrite Z.rem_mul_r by lia. lia.
Qed.

Lemma le_value_bytes_id n x : 0 <= x < 2 ^ (8 * Z.of_nat n) -> le_value (le_bytes n x) = x.
Proof. intros. by rewrite le_value_bytes, Z.mod_small. Qed.

Lemma le_value_inj a b : length a = length b -> le_value a = le_value b -> a = b.
Proof.
  revert b. induction a as [|x a IH]; intros [|y b]; try done. cbn [length le_value]. intros [= Hl].
  pose proof (byteZ_range x). pose proof (byteZ_range y). rewrite !(lor_disjoint _ _ 8) by lia. intros E.
  assert (byteZ x = byteZ y) as Hx by lia. rewrite (inj byteZ _ _ Hx). f_equal. apply IH; [done|lia].
Qed.

Lemma lor_range a b n : 0 <= n -> 0 <= a < 2 ^ n -> 0 <= b < 2 ^ n -> 0 <= Z.lor a b < 2 ^ n.
Proof.
  intros Hn Ha Hb. assert (Z.lor a b mod 2 ^ n = Z.lor a b) as <-; [|apply Z.mod_pos_bound; lia].
  apply Z.bits_inj'. intros i Hi. destruct (Z.lt_ge_cases i n).
  - by rewrite Z.mod_pow2_bits_low.
  - rewrite Z.mod_pow2_bits_high by lia. by rewrite Z.lor_spec, !(testbit_above _ n).
Qed.

Lemma uvarint_loop_range i x s buf : in_uint64 x -> in_uint64 (uvarint_loop i x s buf).1.
Proof.
  revert i x s. induction buf as [|b buf IH]; intros i x s Hx; cbn [uvarint_loop]; [done|].
  assert (forall z, in_uint64 (Z.lor x (uint64 z))) as Hl.
  { intros z. apply lor_range; [lia|apply Hx|apply uint64_range]. }
  repeat case_match; simpl; auto; done.
Qed.

Lemma Uvarint_range buf : in_uint64 (Uvarint buf).1.
Proof. by apply uvarint_loop_range. Qed.

Lemma unzigzag_range ux : in_int64 (unzigzag ux).
Proof.
  unfold unzigzag. pose proof (int64_range (Z.shiftr ux 1)) as H.
  destruct (Z.odd ux); unfold_int; lia.
Qed.

#[global] Arguments uvarint_bytes : simpl never.
#[global] Arguments le_bytes : simpl never.
#[global] Arguments byte_of_Z : simpl never.
