(* ===== verification/GoStrings.v ===== *)
(** * Go's [strings] and [strconv] packages, as far as the program uses them

    A string is its bytes. *)

From Stdlib Require Import Decimal DecimalString DecimalPos DecimalZ.
From S2P Require Import Prelude.

(** ** [strings] *)

Definition HasPrefix (s p : list byte) : bool := bool_decide (take (length p) s = p).
Definition TrimPrefix (s p : list byte) : list byte := if HasPrefix s p then drop (length p) s else s.
Definition HasSuffix (s p : list byte) : bool :=
  (length p <=? length s)%nat && bool_decide (drop (length s - length p) s = p).
Definition TrimSuffix (s p : list byte) : list byte := if HasSuffix s p then take (length s - length p) s else s.

(** ** [strconv] *)

(** [strconv.FormatInt(i, 10)]. *)
Definition FormatInt (i : Z) : list byte := list_byte_of_string (NilZero.string_of_int (Z.to_int i)).

(** [strconv.ParseInt(s, 10, 64)], [None] for an error. *)
Definition ParseInt (s : list byte) : option Z :=
  let int64_of d := let i := Z.of_int d in if bool_decide (in_int64 i) then Some i else None in
  match s with
  | x2d :: r => u ← NilZero.uint_of_string (string_of_list_byte r); int64_of (Neg u)
  | x2b :: r => u ← NilZero.uint_of_string (string_of_list_byte r); int64_of (Pos u)
  | _ => u ← NilZero.uint_of_string (string_of_list_byte s); int64_of (Pos u)
  end.

(** ** Lemmas *)

Lemma trim_prefix p s : HasPrefix (p ++ s) p = true /\ TrimPrefix (p ++ s) p = s.
Proof.
  assert (HasPrefix (p ++ s) p = true) as H by (unfold HasPrefix; by rewrite take_app_length, bool_decide_true).
  split; [done|]. unfold TrimPrefix. by rewrite H, drop_app_length.
Qed.

Lemma trim_suffix p s : HasSuffix (s ++ p) p = true /\ TrimSuffix (s ++ p) p = s.
Proof.
  assert (length (s ++ p) - length p = length s)%nat as Hl by (rewrite length_app; lia).
  assert (HasSuffix (s ++ p) p = true) as H.
  { unfold HasSuffix. rewrite Hl, drop_app_length, bool_decide_true by done.
    rewrite andb_true_r. apply Nat.leb_le. rewrite length_app. lia. }
  split; [done|]. unfold TrimSuffix. by rewrite H, Hl, take_app_length.
Qed.

(** Digits do not start with a sign. *)
Lemma digits_no_sign d : d <> Nil ->
  match list_byte_of_string (NilZero.string_of_uint d) with x2d :: _ | x2b :: _ => False | _ => True end.
Proof. by destruct d. Qed.

Lemma ParseInt_digits d : d <> Nil ->
  ParseInt (list_byte_of_string (NilZero.string_of_uint d)) =
    let i := Z.of_int (Pos d) in if bool_decide (in_int64 i) then Some i else None.
Proof.
  intros Hd. pose proof (digits_no_sign d Hd) as Hs. unfold ParseInt.
  rewrite string_of_list_byte_of_string, (NilZero.usu d Hd). by destruct (list_byte_of_string _) as [|[] ?].
Qed.

Lemma ParseInt_FormatInt i : in_int64 i -> ParseInt (FormatInt i) = Some i.
Proof.
  intros Hi. unfold FormatInt. pose proof (of_to i) as E. destruct i as [|p|p]; cbn [Z.to_int NilZero.string_of_int] in *.
  - done.
  - rewrite ParseInt_digits by apply DecimalPos.Unsigned.to_uint_nonnil. cbv zeta. rewrite E.
    by rewrite bool_decide_true.
  - set (d := Pos.to_uint p) in *. change (list_byte_of_string (String.String _ (NilZero.string_of_uint d)))
      with (x2d :: list_byte_of_string (NilZero.string_of_uint d)).
    unfold ParseInt. rewrite string_of_list_byte_of_string, (NilZero.usu d) by apply DecimalPos.Unsigned.to_uint_nonnil.
    cbn [mbind option_bind]. cbv zeta. rewrite E. by rewrite bool_decide_true.
Qed.
