(* ===== verification/GoFormat.v ===== *)
(** * [strconv.FormatFloat(x, 'g', -1, 64)]

    The shortest decimal that reads back as the same float64, over its bits.
    A positive float [m * 2^e] and a decimal [k * 10^q] are compared by cross
    multiplication, so everything is exact.  [format_shortest] is why the
    search is right: it ends, what it finds lies in the rounding interval of
    this float and of no other, and no decimal of fewer digits does. *)

From S2P Require Import Prelude GoStrings.

#[local] Abbreviation bytes_of := list_byte_of_string.

(** ** The bits *)

Definition fraction (bits : Z) : Z := bits mod 2 ^ 52.
Definition biased (bits : Z) : Z := (bits / 2 ^ 52) mod 2 ^ 11.
Definition negative (bits : Z) : bool := Z.odd (bits / 2 ^ 63).

(** The magnitude is [mantissa * 2^exponent]. *)
Definition mantissa (bits : Z) : Z := if biased bits =? 0 then fraction bits else fraction bits + 2 ^ 52.
Definition exponent (bits : Z) : Z := Z.max 1 (biased bits) - 1075.

(** The mantissas and exponents the format has, zero apart. *)
Definition canonical (m e : Z) : Prop := 1 <= m < 2 ^ 53 /\ -1074 <= e <= 971 /\ (e = -1074 \/ 2 ^ 52 <= m).

(** ** Rounding intervals *)

(** The halfway points to the neighbours, in quarters of the last place. *)
Definition lower (m e : Z) : Z := if (2 ^ 52 <? m) || (e =? -1074) then 4 * m - 2 else 4 * m - 1.
Definition upper (m : Z) : Z := 4 * m + 2.

(** [k * 10^q] against [a * 2^(e-2)] is [k * tens e q] against [a * twos e q]. *)
Definition tens (e q : Z) : Z := 10 ^ Z.max q 0 * 2 ^ Z.max (2 - e) 0.
Definition twos (e q : Z) : Z := 10 ^ Z.max (- q) 0 * 2 ^ Z.max (e - 2) 0.

(** Whether [k * 10^q] rounds to the float; the ends do when it is even. *)
Definition reads_back (m e k q : Z) : bool :=
  if Z.even m then (lower m e * twos e q <=? k * tens e q) && (k * tens e q <=? upper m * twos e q)
  else (lower m e * twos e q <? k * tens e q) && (k * tens e q <? upper m * twos e q).

(** ** The shortest digits *)

(** The first number from [i] on that passes a test. *)
Fixpoint search (fuel : nat) (test : Z -> bool) (i : Z) : Z :=
  match fuel with
  | O => i
  | S fuel => if test i then i else search fuel test (i + 1)
  end.

(** The decimal point: the least power of ten above the float; [a] and [p] are
    the float and [10^q], from [10^(-330)] on. *)
Fixpoint point_from (fuel : nat) (a p q : Z) : Z :=
  match fuel with
  | O => q
  | S fuel => if a <? p then q else point_from fuel a (10 * p) (q + 1)
  end.

Definition decimal_point (m e : Z) : Z := point_from 700 (4 * m * twos e (-330)) (tens e (-330)) (-330).

(** The decimals of the exponent [q] on either side, and whether either reads
    back. *)
Definition round_down (m e q : Z) : Z := 4 * m * twos e q / tens e q.
Definition enough (m e q : Z) : bool :=
  reads_back m e (round_down m e q) q || reads_back m e (round_down m e q + 1) q.

(** Of two that do, the nearer; of two as near, the even. *)
Definition pick (m e q : Z) : Z :=
  let k := round_down m e q in
  if negb (reads_back m e (k + 1) q) then k
  else if negb (reads_back m e k q) then k + 1
  else
    match Z.compare (2 * (4 * m * twos e q - k * tens e q)) (tens e q) with
    | Lt => k
    | Gt => k + 1
    | Eq => if Z.even k then k else k + 1
    end.

(** The number of digits, and the decimal. *)
Definition digit_count (m e : Z) : Z := search 17 (fun n => enough m e (decimal_point m e - n)) 1.
Definition shortest (m e : Z) : Z * Z :=
  let q := decimal_point m e - digit_count m e in (pick m e q, q).

(** ** The text *)

Fixpoint drop_zeros (l : list byte) : list byte :=
  match l with x30 :: l => drop_zeros l | _ => l end.
Definition zeros (n : Z) : list byte := replicate (Z.to_nat n) x30.

(** The digits of [k]; none for zero. *)
Definition digit (d : Z) : byte := default x30 (Byte.of_N (48 + Z.to_N d)).
Fixpoint decimal (fuel : nat) (k : Z) : list byte :=
  match fuel with
  | O => []
  | S fuel => if k =? 0 then [] else decimal fuel (k / 10) ++ [digit (k mod 10)]
  end.
Definition decimal_of (k : Z) : list byte := decimal (S (Z.to_nat (Z.log2 k))) k.

(** ... without zeros at the end. *)
Definition trimmed (l : list byte) : list byte := rev (drop_zeros (rev l)).

(** [%e]: one digit, the others after the point, and two digits of exponent at
    least. *)
Definition fmtE (digs : list byte) (dp : Z) : list byte :=
  let exp := if bool_decide (digs = []) then 0 else dp - 1 in
  take 1 (digs ++ [x30]) ++ (if (1 <? zlen digs) then x2e :: drop 1 digs else []) ++
  [x65; if exp <? 0 then x2d else x2b] ++ zeros (2 - zlen (decimal_of (Z.abs exp))) ++ decimal_of (Z.abs exp).

(** [%f], with the digits there are. *)
Definition fmtF (digs : list byte) (dp : Z) : list byte :=
  (if 0 <? dp then take (Z.to_nat dp) digs ++ zeros (dp - zlen digs) else [x30]) ++
  (if dp <? zlen digs then x2e :: zeros (- dp) ++ drop (Z.to_nat dp) digs else []).

(** [%g]: the exponent decides, and six digits count as the precision. *)
Definition fmtG (digs : list byte) (dp : Z) : list byte :=
  if (dp - 1 <? -4) || (6 <=? dp - 1) then fmtE digs dp else fmtF digs dp.

Definition FormatFloat (bits : Z) : list byte :=
  let m := mantissa bits in
  let sign := if negative bits then [x2d] else [] in
  if biased bits =? 2047 then
    if fraction bits =? 0 then (if negative bits then [x2d] else [x2b]) ++ bytes_of "Inf" else bytes_of "NaN"
  else if m =? 0 then sign ++ fmtG [] 0
  else
    let '(k, q) := shortest m (exponent bits) in
    sign ++ fmtG (trimmed (decimal_of k)) (zlen (decimal_of k) + q).

(** [strconv.FormatBool]. *)
Definition FormatBool (b : bool) : list byte := bytes_of (if b then "true" else "false").

(** ** Scaling *)

Lemma tens_pos e q : 0 < tens e q.
Proof. unfold tens. apply Z.mul_pos_pos; apply Z.pow_pos_nonneg; lia. Qed.
Lemma twos_pos e q : 0 < twos e q.
Proof. unfold twos. apply Z.mul_pos_pos; apply Z.pow_pos_nonneg; lia. Qed.

Lemma tens_scale e q j : 0 <= j -> tens e (q + j) * twos e q = 10 ^ j * tens e q * twos e (q + j).
Proof.
  intros Hj. unfold tens, twos.
  assert (10 ^ Z.max (q + j) 0 * 10 ^ Z.max (- q) 0 = 10 ^ j * 10 ^ Z.max q 0 * 10 ^ Z.max (- (q + j)) 0) as E
    by (rewrite <-!Z.pow_add_r by lia; f_equal; lia).
  transitivity (10 ^ Z.max (q + j) 0 * 10 ^ Z.max (- q) 0 * (2 ^ Z.max (2 - e) 0 * 2 ^ Z.max (e - 2) 0));
    [ring|rewrite E; ring].
Qed.

Lemma twos_scale e t q : 0 <= t -> tens e q * twos (e + t) q = 2 ^ t * tens (e + t) q * twos e q.
Proof.
  intros Ht. unfold tens, twos.
  assert (2 ^ Z.max (2 - e) 0 * 2 ^ Z.max (e + t - 2) 0 = 2 ^ t * 2 ^ Z.max (2 - (e + t)) 0 * 2 ^ Z.max (e - 2) 0) as E
    by (rewrite <-!Z.pow_add_r by lia; f_equal; lia).
  transitivity (2 ^ Z.max (2 - e) 0 * 2 ^ Z.max (e + t - 2) 0 * (10 ^ Z.max q 0 * 10 ^ Z.max (- q) 0));
    [ring|rewrite E; ring].
Qed.

(** Multiples of the two sides of a scaled comparison compare alike. *)
Lemma cross_le a b w t w' t' c : 0 < w -> 0 < w' -> t' * w = c * t * w' -> a * w' <= b * t' <-> a * w <= b * c * t.
Proof.
  intros Hw Hw' E. rewrite (Z.mul_le_mono_pos_r (a * w') (b * t') w) by done.
  rewrite (Z.mul_le_mono_pos_r (a * w) (b * c * t) w') by done.
  assert (b * t' * w = b * c * t * w') as -> by (rewrite <-!Z.mul_assoc; f_equal; lia).
  assert (a * w' * w = a * w * w') as -> by lia. done.
Qed.

Lemma cross_ge a b w t w' t' c : 0 < w -> 0 < w' -> t' * w = c * t * w' -> b * t' <= a * w' <-> b * c * t <= a * w.
Proof.
  intros Hw Hw' E. rewrite (Z.mul_le_mono_pos_r (b * t') (a * w') w) by done.
  rewrite (Z.mul_le_mono_pos_r (b * c * t) (a * w) w') by done.
  assert (b * t' * w = b * c * t * w') as -> by (rewrite <-!Z.mul_assoc; f_equal; lia).
  assert (a * w' * w = a * w * w') as -> by lia. done.
Qed.

(** [lo] and [hi] are the ends of the interval. *)
Definition within (m e k q : Z) : Prop :=
  lower m e * twos e q <= k * tens e q /\ k * tens e q <= upper m * twos e q /\
  (Z.even m = false -> lower m e * twos e q <> k * tens e q /\ k * tens e q <> upper m * twos e q).

Lemma reads_back_within m e k q : reads_back m e k q = true <-> within m e k q.
Proof.
  unfold reads_back, within. destruct (Z.even m); rewrite andb_true_iff, ?Z.leb_le, ?Z.ltb_lt.
  - split; [intros []; split_and!; done|tauto].
  - split; [intros []; split_and!; lia|]. intros (H1 & H2 & H3). specialize (H3 eq_refl). lia.
Qed.

Lemma within_scale m e k q j : 0 <= j -> within m e k (q + j) <-> within m e (k * 10 ^ j) q.
Proof.
  intros Hj. pose proof (twos_pos e q) as Hw. pose proof (twos_pos e (q + j)) as Hw'.
  pose proof (tens_scale e q j Hj) as E. unfold within.
  pose proof (cross_le (lower m e) k _ _ _ _ _ Hw Hw' E) as L1. pose proof (cross_ge (lower m e) k _ _ _ _ _ Hw Hw' E) as L2.
  pose proof (cross_le (upper m) k _ _ _ _ _ Hw Hw' E) as U1. pose proof (cross_ge (upper m) k _ _ _ _ _ Hw Hw' E) as U2.
  destruct (Z.even m); intuition lia.
Qed.

(** ** The search *)

(** The float is below [10^q]. *)
Definition below (m e q : Z) : Prop := 4 * m * twos e q < tens e q.

Lemma below_scale m e q j : 0 <= j -> below m e (q + j) <-> 4 * m * twos e q < 10 ^ j * tens e q.
Proof.
  intros Hj. unfold below.
  pose proof (cross_ge (4 * m) 1 _ _ _ _ _ (twos_pos e q) (twos_pos e (q + j)) (tens_scale e q j Hj)) as H. lia.
Qed.

Lemma search_spec fuel test : forall i, let r := search fuel test i in
  i <= r <= i + Z.of_nat fuel /\ (forall j, i <= j < r -> test j = false) /\ (r < i + Z.of_nat fuel -> test r = true).
Proof.
  induction fuel as [|fuel IH]; intros i; simpl; [split_and!; [lia..| |lia]; intros; lia|].
  destruct (test i) eqn:E; [split_and!; [lia..| |done]; intros; lia|].
  destruct (IH (i + 1)) as (H1 & H2 & H3). split_and!; [lia..| |intros; apply H3; lia].
  intros j Hj. destruct (decide (j = i)) as [->|]; [done|]. apply H2. lia.
Qed.

Lemma point_from_spec fuel a : forall p q, 0 < p -> let d := point_from fuel a p q in
  q <= d <= q + Z.of_nat fuel /\ (forall i, 0 <= i < d - q -> 10 ^ i * p <= a) /\
  (d < q + Z.of_nat fuel -> a < 10 ^ (d - q) * p).
Proof.
  induction fuel as [|fuel IH]; intros p q Hp; cbn [point_from]; [split_and!; [lia..| |lia]; intros; lia|].
  destruct (Z.ltb_spec a p) as [Hl|Hl].
  { split_and!; [lia..| |]; [intros; lia|]. intros _. rewrite Z.sub_diag. lia. }
  destruct (IH (10 * p) (q + 1)) as (H1 & H2 & H3); [lia|]. split_and!; [lia..| |].
  - intros i Hi. destruct (decide (i = 0)) as [->|]; [lia|]. specialize (H2 (i - 1) ltac:(lia)).
    replace i with (Z.succ (i - 1)) by lia. rewrite Z.pow_succ_r by lia. lia.
  - intros Hd. specialize (H3 ltac:(lia)).
    replace (point_from fuel a (10 * p) (q + 1) - q) with (Z.succ (point_from fuel a (10 * p) (q + 1) - (q + 1))) by lia.
    rewrite Z.pow_succ_r by lia. lia.
Qed.

(** ** The decimal point *)

Lemma pow_le b i j : 0 < b -> i <= j -> b ^ i <= b ^ j.
Proof. intros. by apply Z.pow_le_mono_r. Qed.

(** Floats lie between [10^(-330)] and [10^320]. *)
Lemma not_below_low m e : canonical m e -> tens e (-330) <= 4 * m * twos e (-330).
Proof.
  intros (Hm & He & _). unfold tens, twos.
  change (10 ^ Z.max (-330) 0) with 1. change (10 ^ Z.max (- -330) 0) with (10 ^ 330).
  assert (2 ^ Z.max (2 - e) 0 <= 2 ^ 1076) as H1 by (apply pow_le; lia).
  assert (1 <= 2 ^ Z.max (e - 2) 0) as H2 by (change 1 with (2 ^ 0); apply pow_le; lia).
  assert (0 < 10 ^ 330 /\ 2 ^ 1076 < 10 ^ 330) as [H0 H3] by (by vm_compute).
  generalize dependent (2 ^ Z.max (e - 2) 0). generalize dependent (2 ^ Z.max (2 - e) 0).
  generalize dependent (2 ^ 1076). generalize dependent (10 ^ 330). intros a Ha b Hab x Hx y Hy.
  assert (a <= a * y) by nia. assert (a * y <= 4 * m * (a * y)) by nia. lia.
Qed.

Lemma below_high m e : canonical m e -> below m e 320.
Proof.
  intros (Hm & He & _). unfold below, tens, twos.
  change (10 ^ Z.max 320 0) with (10 ^ 320). change (10 ^ Z.max (-(320)) 0) with 1.
  assert (2 ^ Z.max (e - 2) 0 <= 2 ^ 969) as H1 by (apply pow_le; lia).
  assert (1 <= 2 ^ Z.max (2 - e) 0) as H2 by (change 1 with (2 ^ 0); apply pow_le; lia).
  assert (0 <= 2 ^ 969 /\ 2 ^ 55 * 2 ^ 969 < 10 ^ 320) as [H0 H3] by (by vm_compute).
  assert (4 * m < 2 ^ 55) as H4 by lia. assert (0 <= 2 ^ Z.max (e - 2) 0) as H5 by (apply Z.pow_nonneg; lia).
  generalize dependent (2 ^ Z.max (e - 2) 0). generalize dependent (2 ^ Z.max (2 - e) 0).
  generalize dependent (2 ^ 969). generalize dependent (2 ^ 55). generalize dependent (10 ^ 320).
  intros a b Hb c Hc Hab x Hx y Hy Hy0.
  assert (4 * m * (1 * y) <= b * c) by nia. assert (a <= a * x) by nia. lia.
Qed.

Lemma decimal_point_spec m e : canonical m e ->
  let d := decimal_point m e in below m e d /\ ~ below m e (d - 1).
Proof.
  intros Hc d. pose proof (point_from_spec 700 (4 * m * twos e (-330)) (tens e (-330)) (-330) (tens_pos _ _)) as H.
  fold (decimal_point m e) in H. fold d in H. cbv zeta in H. destruct H as (H1 & H2 & H3).
  pose proof (not_below_low m e Hc) as Hlow.
  assert (d < 370) as Hd.
  { destruct (Z.lt_ge_cases d 370) as [|Hge]; [done|]. specialize (H2 650 ltac:(lia)).
    pose proof (below_high m e Hc) as Hh. change 320 with (-330 + 650) in Hh. rewrite below_scale in Hh by lia. lia. }
  specialize (H3 ltac:(lia)).
  assert (d <> -330) as Hne by (intros E; rewrite E in H3; change (-330 - -330) with 0 in H3; lia). split.
  - replace d with (-330 + (d - -330)) by lia. rewrite below_scale by lia. exact H3.
  - replace (d - 1) with (-330 + (d - 1 - -330)) by lia. rewrite below_scale by lia. specialize (H2 (d - 1 - -330) ltac:(lia)). lia.
Qed.

(** ** Enough digits *)

Lemma lower_bounds m e : 4 * m - 2 <= lower m e <= 4 * m - 1.
Proof. unfold lower. destruct (_ || _); lia. Qed.

(** Anything between a decimal that reads back and the float reads back. *)
Lemma within_up m e k k1 q : within m e k q -> k <= k1 -> k1 * tens e q <= 4 * m * twos e q -> within m e k1 q.
Proof.
  intros (H1 & H2 & H3) Hk Hle. pose proof (tens_pos e q) as Ht. pose proof (twos_pos e q) as Hw.
  assert (k * tens e q <= k1 * tens e q) as Hkk by (apply Z.mul_le_mono_nonneg_r; lia).
  assert (4 * m * twos e q < upper m * twos e q) as Hu by (apply Z.mul_lt_mono_pos_r; unfold upper; lia).
  unfold within. split_and!; [lia..|]. intros E. specialize (H3 E). lia.
Qed.

Lemma within_down m e k k1 q : within m e k q -> k1 <= k -> 4 * m * twos e q <= k1 * tens e q -> within m e k1 q.
Proof.
  intros (H1 & H2 & H3) Hk Hle. pose proof (tens_pos e q) as Ht. pose proof (twos_pos e q) as Hw.
  assert (k1 * tens e q <= k * tens e q) as Hkk by (apply Z.mul_le_mono_nonneg_r; lia).
  assert (lower m e * twos e q < 4 * m * twos e q) as Hu by (apply Z.mul_lt_mono_pos_r; [done|]; pose proof (lower_bounds m e); lia).
  unfold within. split_and!; [lia..|]. intros E. specialize (H3 E). lia.
Qed.

(** The float is between the decimals on its sides. *)
Lemma round_down_spec m e q : let k := round_down m e q in
  k * tens e q <= 4 * m * twos e q < (k + 1) * tens e q.
Proof.
  unfold round_down. pose proof (tens_pos e q) as Ht. pose proof (Z.div_mod (4 * m * twos e q) (tens e q) ltac:(lia)) as E.
  pose proof (Z.mod_pos_bound (4 * m * twos e q) (tens e q) Ht). lia.
Qed.

(** If any decimal of an exponent reads back, one next to the float does. *)
Lemma within_enough m e k q : within m e k q -> enough m e q = true.
Proof.
  intros Hk. unfold enough. rewrite orb_true_iff, !reads_back_within. destruct (round_down_spec m e q) as [H1 H2].
  destruct (Z.le_gt_cases k (round_down m e q)) as [Hl|Hl].
  - left. by apply (within_up _ _ k).
  - right. apply (within_down _ _ k); [done|lia|lia].
Qed.

Lemma within_strict m e k q : lower m e * twos e q < k * tens e q < upper m * twos e q -> within m e k q.
Proof. unfold within. lia. Qed.

(** The gap between decimals is smaller than the interval. *)
Lemma near_enough x w t y lo hi : 0 < w -> 0 < t -> y <= 4 * x < y + t -> lo <= 4 * x - w -> hi = 4 * x + 2 * w ->
  10 ^ 16 * t <= 4 * x -> x <= (2 ^ 53 - 1) * w -> lo = 4 * x - 2 * w \/ x <= 2 ^ 52 * w ->
  lo < y < hi \/ lo < y + t < hi.
Proof.
  change (10 ^ 16) with 10000000000000000. change (2 ^ 53 - 1) with 9007199254740991. change (2 ^ 52) with 4503599627370496.
  intros. lia.
Qed.

(** Seventeen digits are always enough. *)
Lemma seventeen m e q : canonical m e -> 10 ^ 16 * tens e q <= 4 * m * twos e q -> enough m e q = true.
Proof.
  intros (Hm & _ & _) Hq. unfold enough. rewrite orb_true_iff, !reads_back_within.
  destruct (round_down_spec m e q) as [H1 H2]. pose proof (tens_pos e q) as Ht. pose proof (twos_pos e q) as Hw.
  pose proof (lower_bounds m e) as Hlb.
  destruct (near_enough (m * twos e q) (twos e q) (tens e q) (round_down m e q * tens e q) (lower m e * twos e q)
              (upper m * twos e q)) as [Hs|Hs]; [done|done|lia| |unfold upper; lia|lia|apply Z.mul_le_mono_nonneg_r; lia| | |].
  - transitivity ((4 * m - 1) * twos e q); [apply Z.mul_le_mono_nonneg_r; lia|lia].
  - unfold lower. destruct (Z.ltb_spec (2 ^ 52) m); cbn [orb]; [left; lia|right]. apply Z.mul_le_mono_nonneg_r; lia.
  - left. by apply within_strict.
  - right. apply within_strict. lia.
Qed.

(** ** What the search finds *)

Lemma digit_count_spec m e : canonical m e -> let n := digit_count m e in
  1 <= n <= 17 /\ enough m e (decimal_point m e - n) = true /\
  forall n', 1 <= n' < n -> enough m e (decimal_point m e - n') = false.
Proof.
  intros Hc n. destruct (search_spec 17 (fun n => enough m e (decimal_point m e - n)) 1) as (H1 & H2 & H3).
  fold (digit_count m e) in H1, H2, H3. fold n in H1, H2, H3.
  assert (n <> 18) as Hn.
  { intros E. specialize (H2 17 ltac:(lia)). cbv beta in H2. rewrite seventeen in H2; [done|done|].
    destruct (decimal_point_spec m e Hc) as [_ Hd].
    replace (decimal_point m e - 1) with (decimal_point m e - 17 + 16) in Hd by lia. rewrite below_scale in Hd by lia. lia. }
  split_and!; [lia..| |exact H2]. apply H3. lia.
Qed.

Lemma pick_within m e q : enough m e q = true -> within m e (pick m e q) q.
Proof.
  unfold enough, pick. rewrite orb_true_iff. rewrite <-reads_back_within.
  destruct (reads_back m e (round_down m e q) q) eqn:E1, (reads_back m e (round_down m e q + 1) q) eqn:E2; cbn [negb]; intros [H|H];
    try done; destruct (Z.compare _ _); try done; by destruct (Z.even _).
Qed.

Lemma within_pos m e k q : 1 <= m -> within m e k q -> 0 < k.
Proof.
  intros Hm (H & _ & _). pose proof (tens_pos e q). pose proof (twos_pos e q). pose proof (lower_bounds m e).
  assert (0 < lower m e * twos e q) by (apply Z.mul_pos_pos; lia).
  destruct (Z.lt_ge_cases 0 k); [done|]. assert (k * tens e q <= 0) by (apply Z.mul_nonpos_nonneg; lia). lia.
Qed.

(** No decimal of fewer digits reads back. *)
Lemma fewest_digits m e k q : canonical m e -> within m e k q -> 10 ^ (digit_count m e - 1) <= k.
Proof.
  intros Hc Hk. destruct (digit_count_spec m e Hc) as (Hn & _ & Hless).
  pose proof (within_pos m e k q ltac:(by destruct Hc as [[? _] _]) Hk) as Hpos.
  destruct (Z.le_gt_cases (10 ^ (digit_count m e - 1)) k) as [|Hlt]; [done|exfalso].
  destruct (decide (digit_count m e = 1)) as [E|Hn1].
  { rewrite E in Hlt. change (10 ^ (1 - 1)) with 1 in Hlt. lia. }
  set (d := decimal_point m e) in *. set (n := digit_count m e - 1) in *.
  specialize (Hless n ltac:(lia)). destruct (Z.le_gt_cases (d - n) q) as [Hq|Hq].
  - replace q with (d - n + (q - (d - n))) in Hk by lia. rewrite within_scale in Hk by lia.
    apply within_enough in Hk. congruence.
  - destruct (decimal_point_spec m e Hc) as [_ Hb]. fold d in Hb.
    assert (10 ^ (d - 1 - q) * tens e q <= 4 * m * twos e q) as Hle.
    { replace (d - 1) with (q + (d - 1 - q)) in Hb at 1 by lia. rewrite below_scale in Hb by lia. lia. }
    assert (within m e (10 ^ (d - 1 - q)) q) as Hten.
    { apply (within_up _ _ k); [done| |done]. transitivity (10 ^ n); [lia|]. apply pow_le; lia. }
    replace (10 ^ (d - 1 - q)) with (10 ^ (n - 1) * 10 ^ (d - n - q)) in Hten
      by (rewrite <-Z.pow_add_r by lia; f_equal; lia).
    rewrite <-within_scale in Hten by lia. replace (q + (d - n - q)) with (d - n) in Hten by lia.
    apply within_enough in Hten. congruence.
Qed.

(** What the search finds has that many digits, a carry into one more apart. *)
Lemma pick_bound m e : canonical m e -> pick m e (decimal_point m e - digit_count m e) <= 10 ^ digit_count m e.
Proof.
  intros Hc. destruct (digit_count_spec m e Hc) as (Hn & _ & _). set (q := decimal_point m e - digit_count m e).
  assert (round_down m e q < 10 ^ digit_count m e) as Hk.
  { destruct (decimal_point_spec m e Hc) as [Hb _].
    replace (decimal_point m e) with (q + digit_count m e) in Hb by (unfold q; lia). rewrite below_scale in Hb by lia.
    destruct (round_down_spec m e q) as [H1 _]. pose proof (tens_pos e q). nia. }
  unfold pick. destruct (negb _); [lia|]. destruct (negb _); [lia|]. destruct (Z.compare _ _); [|lia..].
  destruct (Z.even _); lia.
Qed.

(** ** No decimal reads back as two floats *)

(** The interval of a smaller float ends where that of a greater one begins,
    at the earliest; and where they meet, one of the two is odd. *)
Lemma neighbours m e m' t : canonical m e -> canonical m' (e + t) -> 0 <= t -> (t = 0 -> m < m') ->
  lower m' (e + t) * 2 ^ t <= upper m ->
  (Z.even m = false \/ Z.even m' = false) /\ lower m' (e + t) * 2 ^ t = upper m.
Proof.
  intros (Hm & He & Hn) (Hm' & He' & Hn') Ht Hmm Hle. unfold lower, upper in *.
  change (2 ^ 53) with 9007199254740992 in *. change (2 ^ 52) with 4503599627370496 in *.
  assert (t = 0 \/ t = 1 \/ 2 <= t) as [-> |[-> |Ht2]] by lia.
  - rewrite Z.add_0_r in *. rewrite Z.mul_1_r in *. specialize (Hmm eq_refl).
    assert (m' = m + 1) as -> by (destruct (_ || _); lia).
    split; [rewrite Z.add_1_r, Z.even_succ, <-Z.negb_even; destruct (Z.even m); auto|]. destruct (_ || _); lia.
  - change (2 ^ 1) with 2 in *. destruct (Z.ltb_spec 4503599627370496 m'); cbn [orb] in *; [lia|].
    assert (m' = 4503599627370496) as -> by lia. destruct (Z.eqb_spec (e + 1) (-1074)); [lia|].
    assert (m = 9007199254740991) as -> by lia. split; [by left|lia].
  - assert (2 ^ 2 <= 2 ^ t) as Hp by (apply pow_le; lia). change (2 ^ 2) with 4 in Hp.
    assert (4 * (if (4503599627370496 <? m') || (e + t =? -1074) then 4 * m' - 2 else 4 * m' - 1) <=
            (if (4503599627370496 <? m') || (e + t =? -1074) then 4 * m' - 2 else 4 * m' - 1) * 2 ^ t) as Hx
      by (rewrite (Z.mul_comm 4); apply Z.mul_le_mono_nonneg_l; [destruct (_ || _); lia|done]).
    destruct (_ || _); lia.
Qed.

Lemma apart m e m' t k q : canonical m e -> canonical m' (e + t) -> 0 <= t -> (t = 0 -> m < m') ->
  within m e k q -> within m' (e + t) k q -> False.
Proof.
  intros Hc Hc' Ht Hmm (_ & Hu & Ho) (Hl & _ & Ho').
  pose proof (twos_scale e t q Ht) as E. pose proof (twos_pos e q) as Hw. pose proof (twos_pos (e + t) q) as Hw'.
  pose proof (tens_pos (e + t) q) as Ht'.
  assert (lower m' (e + t) * 2 ^ t <= upper m) as Hle.
  { apply (Z.mul_le_mono_pos_r _ _ (twos e q * twos (e + t) q)); [by apply Z.mul_pos_pos|].
    transitivity (2 ^ t * twos e q * (k * tens (e + t) q)).
    - assert (0 < 2 ^ t) as Hp by (apply Z.pow_pos_nonneg; lia).
      assert (0 <= 2 ^ t * twos e q) as Hz by (apply Z.mul_nonneg_nonneg; lia).
      pose proof (Z.mul_le_mono_nonneg_l _ _ _ Hz Hl). lia.
    - assert (2 ^ t * twos e q * (k * tens (e + t) q) = k * tens e q * twos (e + t) q) as ->
        by (rewrite <-(Z.mul_assoc k), E; ring).
      assert (k * tens e q * twos (e + t) q <= upper m * twos e q * twos (e + t) q) by (apply Z.mul_le_mono_nonneg_r; lia). lia. }
  destruct (neighbours m e m' t Hc Hc' Ht Hmm Hle) as [Hpar Heq].
  assert (k * tens e q = upper m * twos e q) as Hku.
  { apply (Z.mul_reg_r _ _ (twos (e + t) q)); [lia|]. apply Z.le_antisymm.
    - apply Z.mul_le_mono_nonneg_r; lia.
    - rewrite <-(Z.mul_assoc k), E, <-Heq.
      assert (0 <= 2 ^ t * twos e q) as Hz by (apply Z.mul_nonneg_nonneg; [apply Z.pow_nonneg|]; lia).
      pose proof (Z.mul_le_mono_nonneg_l _ _ _ Hz Hl). lia. }
  assert (k * tens (e + t) q = lower m' (e + t) * twos (e + t) q) as Hkl.
  { assert (0 < 2 ^ t) as Hp by (apply Z.pow_pos_nonneg; lia).
    apply (Z.mul_reg_l _ _ (2 ^ t * twos e q)); [assert (0 < 2 ^ t * twos e q) by (by apply Z.mul_pos_pos); lia|].
    assert (2 ^ t * twos e q * (k * tens (e + t) q) = k * (tens e q * twos (e + t) q)) as -> by (rewrite E; ring).
    rewrite Z.mul_assoc, Hku, <-Heq. ring. }
  destruct Hpar as [Hp|Hp]; [by apply (proj2 (Ho Hp))|by apply (proj1 (Ho' Hp))].
Qed.

(** So the decimal decides the float. *)
Lemma within_unique m e m' e' k q : canonical m e -> canonical m' e' ->
  within m e k q -> within m' e' k q -> m = m' /\ e = e'.
Proof.
  intros Hc Hc' Hk Hk'. destruct (Z.lt_trichotomy e e') as [He|[<-|He]].
  - replace e' with (e + (e' - e)) in * by lia. destruct (apart m e m' (e' - e) k q); try done; lia.
  - destruct (Z.lt_trichotomy m m') as [Hm|[<-|Hm]]; [| |]; [|done|].
    + rewrite <-(Z.add_0_r e) in Hc', Hk'. destruct (apart m e m' 0 k q); done.
    + rewrite <-(Z.add_0_r e) in Hc, Hk. destruct (apart m' e m 0 k q); done.
  - replace e with (e' + (e - e')) in * by lia. destruct (apart m' e' m (e - e') k q); try done; lia.
Qed.

(** The bits of a finite float are canonical. *)
Lemma finite_canonical bits : biased bits <> 2047 -> mantissa bits <> 0 -> canonical (mantissa bits) (exponent bits).
Proof.
  intros Hb Hm. unfold canonical, exponent, mantissa in *.
  assert (0 <= biased bits < 2 ^ 11) as Hbb by (apply Z.mod_pos_bound; lia). change (2 ^ 11) with 2048 in Hbb.
  assert (0 <= fraction bits < 2 ^ 52) as Hf by (apply Z.mod_pos_bound; lia).
  destruct (Z.eqb_spec (biased bits) 0); lia.
Qed.

(** ** Reading the text *)

Definition is_digit (b : byte) : Prop := (48 <= Z.of_N (Byte.to_N b) <= 57).
Definition digit_value (b : byte) : Z := Z.of_N (Byte.to_N b) - 48.
Definition number (l : list byte) : Z := foldl (fun a b => 10 * a + digit_value b) 0 l.

(** Up to the first [c], and what follows it. *)
Fixpoint cut (c : byte) (l : list byte) : list byte * option (list byte) :=
  match l with
  | [] => ([], None)
  | b :: l => if decide (b = c) then ([], Some l) else let '(h, t) := cut c l in (b :: h, t)
  end.

(** A number after its sign. *)
Definition signed (l : list byte) : Z :=
  match l with x2d :: l => - number l | _ :: l => number l | [] => 0 end.

(** The sign, and the number and the exponent of ten that a text denotes. *)
Definition read (l : list byte) : bool * Z * Z :=
  let '(neg, l) := match l with x2d :: l => (true, l) | _ => (false, l) end in
  let '(man, ex) := cut x65 l in
  let '(ip, fp) := cut x2e man in
  let ex := match ex with Some x => signed x | None => 0 end in
  (neg, number (ip ++ default [] fp), ex - zlen (default [] fp)).

Lemma digit_ok d : 0 <= d < 10 -> is_digit (digit d) /\ digit_value (digit d) = d.
Proof.
  intros Hd. assert (d = 0 \/ d = 1 \/ d = 2 \/ d = 3 \/ d = 4 \/ d = 5 \/ d = 6 \/ d = 7 \/ d = 8 \/ d = 9) as Hc by lia.
  unfold is_digit. repeat (destruct Hc as [->|Hc]; [by vm_compute|]). subst. by vm_compute.
Qed.

Lemma number_acc l a : foldl (fun a b => 10 * a + digit_value b) a l = a * 10 ^ zlen l + number l.
Proof.
  unfold number. revert a. induction l as [|b l IH]; intros a; cbn [foldl]; [change (zlen []) with 0; lia|].
  rewrite IH, (IH (10 * 0 + digit_value b)). assert (zlen (b :: l) = Z.succ (zlen l)) as -> by (unfold zlen; simpl; lia).
  rewrite Z.pow_succ_r by apply zlen_nonneg. lia.
Qed.

Lemma number_app l r : number (l ++ r) = number l * 10 ^ zlen r + number r.
Proof. unfold number. by rewrite foldl_app, number_acc. Qed.

Lemma number_zeros n : number (zeros n) = 0.
Proof. unfold zeros. induction (Z.to_nat n) as [|k IH]; [done|]. exact IH. Qed.

Lemma zeros_digits n : Forall is_digit (zeros n).
Proof. apply Forall_replicate. by vm_compute. Qed.

Lemma decimal_spec fuel : forall k, 0 <= k < 2 ^ Z.of_nat fuel ->
  number (decimal fuel k) = k /\ Forall is_digit (decimal fuel k) /\ (1 <= k -> 10 ^ (zlen (decimal fuel k) - 1) <= k).
Proof.
  induction fuel as [|fuel IH]; intros k Hk; cbn [decimal].
  { assert (k = 0) as -> by (simpl in Hk; lia). split_and!; [done|constructor|lia]. }
  destruct (Z.eqb_spec k 0) as [->|Hk0]; [split_and!; [done|constructor|lia]|].
  rewrite Nat2Z.inj_succ, Z.pow_succ_r in Hk by lia.
  assert (0 <= k / 10 < 2 ^ Z.of_nat fuel) as Hd by (split; [apply Z.div_pos; lia|apply Z.div_lt_upper_bound; lia]).
  destruct (IH _ Hd) as (H1 & H2 & H3). destruct (digit_ok (k mod 10)) as [D1 D2]; [by apply Z.mod_pos_bound|].
  pose proof (Z.div_mod k 10 ltac:(lia)) as E. pose proof (Z.mod_pos_bound k 10 ltac:(lia)) as Hmod. split_and!.
  - rewrite number_app, H1. unfold number, zlen. simpl. rewrite D2. lia.
  - apply Forall_app. split; [done|by apply Forall_singleton].
  - intros _. assert (zlen (decimal fuel (k / 10) ++ [digit (k mod 10)]) - 1 = zlen (decimal fuel (k / 10))) as ->
      by (unfold zlen; rewrite length_app; simpl; lia).
    destruct (decide (k / 10 = 0)) as [Ez|Ez].
    + rewrite Ez. assert (decimal fuel 0 = []) as -> by by destruct fuel. change (10 ^ zlen []) with 1. lia.
    + specialize (H3 ltac:(lia)). pose proof (zlen_nonneg (decimal fuel (k / 10))) as Hz.
      generalize dependent (zlen (decimal fuel (k / 10))). intros n Hn Hz. destruct (decide (n = 0)) as [->|]; [change (10 ^ 0) with 1; lia|].
      assert (10 ^ n = 10 * 10 ^ (n - 1)) by (rewrite <-Z.pow_succ_r by lia; f_equal; lia). lia.
Qed.

Lemma decimal_of_spec k : 0 <= k ->
  number (decimal_of k) = k /\ Forall is_digit (decimal_of k) /\ (1 <= k -> 10 ^ (zlen (decimal_of k) - 1) <= k).
Proof.
  intros Hk. apply decimal_spec. split; [done|]. rewrite Nat2Z.inj_succ, Z2Nat.id by apply Z.log2_nonneg.
  destruct (decide (k = 0)) as [->|]; [by vm_compute|]. apply Z.log2_spec; lia.
Qed.

Lemma drop_zeros_spec l : exists n, 0 <= n /\ l = zeros n ++ drop_zeros l.
Proof.
  induction l as [|b l (n & Hn & IH)]; [by exists 0|].
  destruct (decide (b = x30)) as [->|Hb]; [|exists 0; split; [lia|by destruct b]].
  exists (n + 1). split; [lia|]. cbn [drop_zeros]. unfold zeros in *.
  replace (Z.to_nat (n + 1)) with (S (Z.to_nat n)) by lia. cbn [replicate app]. congruence.
Qed.

Lemma trimmed_spec l : exists n, 0 <= n /\ l = trimmed l ++ zeros n.
Proof.
  destruct (drop_zeros_spec (rev l)) as (n & Hn & E). exists n. split; [done|]. unfold trimmed.
  apply (f_equal (@rev byte)) in E. rewrite rev_involutive, rev_app_distr in E. rewrite E at 1. f_equal.
  unfold zeros. rewrite rev_alt. apply reverse_replicate.
Qed.

Lemma trimmed_facts l : Forall is_digit l -> exists n, 0 <= n /\ Forall is_digit (trimmed l) /\
  zlen l = zlen (trimmed l) + n /\ number l = number (trimmed l) * 10 ^ n.
Proof.
  intros Hl. destruct (trimmed_spec l) as (n & Hn & E). exists n. generalize dependent (trimmed l). intros t ->.
  apply Forall_app in Hl as [Ht _]. assert (zlen (zeros n) = n) as Ez by (unfold zlen, zeros; rewrite length_replicate; lia).
  split_and!; [done|done| |].
  - rewrite <-Ez at 2. unfold zlen. rewrite length_app. lia.
  - rewrite number_app, number_zeros, Ez. lia.
Qed.

(** ** The text denotes the decimal *)

Lemma cut_digits c l r : Forall is_digit l -> ~ is_digit c ->
  cut c (l ++ r) = (let '(h, t) := cut c r in (l ++ h, t)).
Proof.
  intros Hl Hc. induction Hl as [|b l Hb _ IH]; cbn [app cut]; [by destruct (cut c r)|].
  rewrite decide_False by congruence. rewrite IH. by destruct (cut c r).
Qed.

Lemma cut_all_digits c l : Forall is_digit l -> ~ is_digit c -> cut c l = (l, None).
Proof. intros Hl Hc. rewrite <-(app_nil_r l), (cut_digits c l []) by done. simpl. by rewrite !app_nil_r. Qed.

Lemma not_digits : ~ is_digit x65 /\ ~ is_digit x2e /\ ~ is_digit x2d.
Proof. unfold is_digit. split_and!; vm_compute; by intros []. Qed.

(** Reading past a sign that is printed. *)
Definition unsigned (l : list byte) : Z * Z :=
  let '(man, ex) := cut x65 l in
  let '(ip, fp) := cut x2e man in
  let ex := match ex with Some x => signed x | None => 0 end in
  (number (ip ++ default [] fp), ex - zlen (default [] fp)).

Lemma read_signed (neg : bool) l : match l with x2d :: _ => False | _ => True end ->
  read ((if neg then [x2d] else []) ++ l) = (neg, (unsigned l).1, (unsigned l).2).
Proof.
  intros Hl. destruct neg; unfold read, unsigned; cbn [app].
  - destruct (cut x65 l) as [man ex]. by destruct (cut x2e man).
  - destruct l as [|b l]; [done|]. destruct (decide (b = x2d)) as [->|Hb]; [done|].
    assert (match b :: l with x2d :: l => (true, l) | _ => (false, b :: l) end = (false, b :: l)) as -> by (by destruct b).
    destruct (cut x65 (b :: l)) as [man ex]. by destruct (cut x2e man).
Qed.

(** Reads as [number digs], with a point before digit [dp], up to zeros. *)
Definition reads_as (digs : list byte) (dp : Z) (l : list byte) : Prop :=
  exists j, 0 <= j /\ unsigned l = (number digs * 10 ^ j, dp - zlen digs - j).

Lemma fmtF_reads digs dp : Forall is_digit digs -> digs <> [] \/ dp = 0 -> reads_as digs dp (fmtF digs dp).
Proof.
  intros Hd Hne. destruct not_digits as (He & Hp & _). unfold fmtF, reads_as.
  assert (forall a r, Forall is_digit a -> Forall is_digit r -> unsigned (a ++ x2e :: r) = (number (a ++ r), - zlen r)) as Hpoint.
  { intros a r Ha Hr. unfold unsigned. rewrite cut_digits by done. cbn [cut]. rewrite decide_False by done.
    rewrite (cut_all_digits x65 r) by done. rewrite cut_digits by done. cbn [cut]. rewrite decide_True by done.
    rewrite app_nil_r. simpl. f_equal. }
  assert (forall a, Forall is_digit a -> unsigned a = (number a, 0)) as Hint.
  { intros a Ha. unfold unsigned. rewrite !cut_all_digits by done. simpl. by rewrite app_nil_r. }
  pose proof (zeros_digits (- dp)) as Hz1. pose proof (zeros_digits (dp - zlen digs)) as Hz2.
  assert (Forall is_digit [x30]) as H0 by (by apply Forall_singleton; vm_compute).
  destruct (Z.ltb_spec 0 dp) as [H1|H1], (Z.ltb_spec dp (zlen digs)) as [H2|H2].
  - exists 0. split; [lia|]. unfold zeros. rewrite (Z2Nat.nonpos (dp - zlen digs)) by lia.
    rewrite (Z2Nat.nonpos (- dp)) by lia. cbn [replicate app]. rewrite app_nil_r.
    rewrite Hpoint by (by apply Forall_take || by apply Forall_drop). rewrite take_drop. unfold zlen. rewrite length_drop.
    f_equal; [lia|unfold zlen in H2; lia].
  - exists (dp - zlen digs). split; [lia|]. rewrite take_ge by (unfold zlen in H2; lia). rewrite app_nil_r.
    rewrite Hint by (by apply Forall_app). rewrite number_app, number_zeros.
    assert (zlen (zeros (dp - zlen digs)) = dp - zlen digs) as -> by (unfold zlen, zeros in *; rewrite length_replicate; lia).
    f_equal; lia.
  - exists 0. split; [lia|]. rewrite (Z2Nat.nonpos dp) by lia. rewrite drop_0.
    rewrite Hpoint by (done || by apply Forall_app).
    rewrite !number_app, number_zeros. change (number [x30]) with 0.
    assert (zlen (zeros (- dp) ++ digs) = - dp + zlen digs) as ->
      by (unfold zlen, zeros in *; rewrite length_app, length_replicate; lia).
    f_equal; lia.
  - destruct Hne as [Hne| ->].
    { exfalso. destruct digs; [done|]. unfold zlen in H2. simpl in H2. lia. }
    assert (digs = []) as -> by (destruct digs; [done|unfold zlen in H2; simpl in H2; lia]).
    exists 0. split; [lia|]. reflexivity.
Qed.

Lemma fmtE_reads digs dp : Forall is_digit digs -> digs <> [] -> reads_as digs dp (fmtE digs dp).
Proof.
  intros Hd Hne. destruct not_digits as (He & Hp & _). unfold fmtE, reads_as. rewrite bool_decide_false by done.
  set (n := decimal_of (Z.abs (dp - 1))). destruct (decimal_of_spec (Z.abs (dp - 1)) (Z.abs_nonneg _)) as (Hn & Hnd & _). fold n in Hn, Hnd.
  set (x := (if dp - 1 <? 0 then x2d else x2b) :: zeros (2 - zlen n) ++ n).
  assert (signed x = dp - 1) as Hexp.
  { assert (number (zeros (2 - zlen n) ++ n) = Z.abs (dp - 1)) as Hv by (rewrite number_app, number_zeros, Hn; lia).
    unfold x. destruct (Z.ltb_spec (dp - 1) 0); cbn [signed]; rewrite Hv; lia. }
  assert (forall a r y, Forall is_digit a -> Forall is_digit r -> unsigned (a ++ x2e :: r ++ x65 :: y) =
    (number (a ++ r), signed y - zlen r)) as Hpoint.
  { intros a r y Ha Hr. unfold unsigned. rewrite cut_digits by done. cbn [cut]. rewrite decide_False by done.
    rewrite cut_digits by done. cbn [cut]. rewrite decide_True by done. rewrite app_nil_r, cut_digits by done.
    cbn [cut]. rewrite decide_True by done. by rewrite app_nil_r. }
  assert (forall a y, Forall is_digit a -> unsigned (a ++ x65 :: y) =
    (number a, signed y)) as Hplain.
  { intros a y Ha. unfold unsigned. rewrite cut_digits by done. cbn [cut]. rewrite decide_True by done.
    rewrite app_nil_r, cut_all_digits by done. cbn [default]. rewrite app_nil_r. f_equal. change (zlen []) with 0. lia. }
  destruct digs as [|d digs]; [done|]. apply Forall_cons in Hd as [Hd Hds].
  assert (Forall is_digit [d]) as Hd1 by by apply Forall_singleton.
  exists 0. split; [lia|]. change (10 ^ 0) with 1. rewrite Z.mul_1_r, Z.sub_0_r.
  destruct (Z.ltb_spec 1 (zlen (d :: digs))) as [Hl|Hl].
  - etransitivity; [exact (Hpoint [d] digs x Hd1 Hds)|]. rewrite Hexp. f_equal. unfold zlen. simpl. lia.
  - assert (digs = []) as -> by (destruct digs; [done|unfold zlen in Hl; simpl in Hl; lia]).
    etransitivity; [exact (Hplain [d] x Hd1)|]. by rewrite Hexp.
Qed.

Lemma fmtG_reads digs dp : Forall is_digit digs -> digs <> [] \/ dp = 0 -> reads_as digs dp (fmtG digs dp).
Proof.
  intros Hd Hne. unfold fmtG. destruct (_ || _) eqn:E; [|by apply fmtF_reads].
  destruct Hne as [| ->]; [by apply fmtE_reads|discriminate E].
Qed.

(** ** The text of a float *)

(** The bits of a number: neither an infinity nor a NaN. *)
Definition finite (bits : Z) : Prop := 0 <= bits < 2 ^ 64 /\ biased bits <> 2047.

Lemma fmtF_no_sign digs dp : Forall is_digit digs -> match fmtF digs dp with x2d :: _ => False | _ => True end.
Proof.
  intros Hd. destruct not_digits as (_ & _ & Hm). unfold fmtF. destruct (Z.ltb_spec 0 dp); [|done].
  assert (Forall is_digit (take (Z.to_nat dp) digs ++ zeros (dp - zlen digs))) as Hf
    by (apply Forall_app; split; [by apply Forall_take|apply zeros_digits]).
  destruct (take _ digs ++ zeros _) as [|b l]; [by destruct (_ <? _)|]. apply Forall_cons in Hf as [Hb _]. cbn [app].
  destruct (decide (b = x2d)) as [->|]; [done|by destruct b].
Qed.

Lemma fmtG_no_sign digs dp : Forall is_digit digs -> match fmtG digs dp with x2d :: _ => False | _ => True end.
Proof.
  intros Hd. unfold fmtG. destruct (_ || _); [|by apply fmtF_no_sign]. destruct not_digits as (_ & _ & Hm).
  unfold fmtE. destruct digs as [|b digs]; [done|]. apply Forall_cons in Hd as [Hb _]. cbn [app take].
  destruct (decide (b = x2d)) as [->|]; [done|by destruct b].
Qed.

(** [bits] as a decimal of [n] digits at most, and no decimal of fewer reads
    back as them. *)
Definition shortest_text (bits : Z) (text : list byte) : Prop :=
  exists s j q n, read text = (negative bits, s * 10 ^ j, q) /\ 0 <= j /\ 0 <= s < 10 ^ n /\
    reads_back (mantissa bits) (exponent bits) (s * 10 ^ j) q = true /\
    forall k q', reads_back (mantissa bits) (exponent bits) k q' = true -> 10 ^ (n - 1) <= k.

(** What a carry into one more digit leaves is a power of ten. *)
Lemma significant t z j n : 0 <= z -> 0 <= j -> 0 < t -> 1 <= n -> t * 10 ^ z <= 10 ^ n ->
  exists s i, t * 10 ^ j = s * 10 ^ i /\ 0 <= i /\ 0 <= s < 10 ^ n.
Proof.
  intros Hz Hj Ht Hn Hle. assert (0 < 10 ^ z) as Hp by (apply Z.pow_pos_nonneg; lia).
  assert (1 < 10 ^ n) as H1 by (apply Z.pow_gt_1; lia).
  destruct (Z.eq_dec t (10 ^ n)) as [->|Hne].
  - exists 1, (n + j). rewrite Z.pow_add_r by lia. lia.
  - exists t, j. assert (t <= t * 10 ^ z) by nia. lia.
Qed.

(** What the text of a finite float reads as. *)
Lemma read_shortest bits : finite bits -> exists k q,
  read (FormatFloat bits) = (negative bits, k, q) /\
  (mantissa bits = 0 /\ k = 0 \/
   mantissa bits <> 0 /\ canonical (mantissa bits) (exponent bits) /\ within (mantissa bits) (exponent bits) k q /\
   exists s j, k = s * 10 ^ j /\ 0 <= j /\ 0 <= s < 10 ^ digit_count (mantissa bits) (exponent bits)).
Proof.
  intros [Hb Hn]. unfold FormatFloat. apply Z.eqb_neq in Hn as Hn'. rewrite Hn'.
  destruct (Z.eqb_spec (mantissa bits) 0) as [Hm|Hm].
  { destruct (fmtG_reads [] 0) as (j & Hj & E); [done|by right|]. rewrite read_signed by by apply fmtG_no_sign.
    rewrite E. do 2 eexists. split; [reflexivity|]. by left. }
  pose proof (finite_canonical bits Hn Hm) as Hc. unfold shortest. set (m := mantissa bits) in *. set (e := exponent bits) in *.
  destruct (digit_count_spec m e Hc) as (Hcount & He & _). apply pick_within in He. cbv beta iota.
  pose proof (pick_bound m e Hc) as Hpick.
  set (q := decimal_point m e - digit_count m e) in *. set (k := pick m e q) in *.
  pose proof (within_pos m e k q ltac:(by destruct Hc as [[? _] _]) He) as Hk.
  destruct (decimal_of_spec k ltac:(lia)) as (Hv & Hd & _).
  destruct (trimmed_facts _ Hd) as (z & Hz & Hdt & El & Ev). set (t := trimmed (decimal_of k)) in *.
  assert (t <> []) as Ht by (intros E; rewrite E in Ev; change (number []) with 0 in Ev; lia).
  assert (0 < number t) as Hpos by (assert (0 < 10 ^ z) by (apply Z.pow_pos_nonneg; lia); nia).
  destruct (fmtG_reads t (zlen (decimal_of k) + q) Hdt (or_introl Ht)) as (j & Hj & E).
  rewrite read_signed by by apply fmtG_no_sign. rewrite E. do 2 eexists. split; [reflexivity|]. right. split_and!; [done|done| |].
  - cbn [fst snd]. rewrite <-within_scale by done. replace (zlen (decimal_of k) + q - zlen t - j + j) with (q + z) by lia.
    rewrite within_scale by done. by rewrite <-Ev, Hv.
  - cbn [fst snd]. apply (significant _ z); [done..|lia|]. by rewrite <-Ev, Hv.
Qed.

Lemma read_FormatFloat bits : finite bits -> exists k q,
  read (FormatFloat bits) = (negative bits, k, q) /\
  (mantissa bits = 0 /\ k = 0 \/
   mantissa bits <> 0 /\ canonical (mantissa bits) (exponent bits) /\ within (mantissa bits) (exponent bits) k q).
Proof. intros (k & q & E & H)%read_shortest. exists k, q. naive_solver. Qed.

(** The text of a float that is not zero is as short as can be. *)
Lemma FormatFloat_shortest bits : finite bits -> mantissa bits <> 0 -> shortest_text bits (FormatFloat bits).
Proof.
  intros Hf Hm. destruct (read_shortest bits Hf) as (k & q & E & [[? _]|(_ & Hc & Hw & s & j & -> & Hj & Hs)]); [congruence|].
  exists s, j, q, (digit_count (mantissa bits) (exponent bits)). rewrite reads_back_within. split_and!; [exact E|exact Hj|apply Hs|apply Hs|exact Hw|].
  intros k q'. rewrite reads_back_within. by apply fewest_digits.
Qed.

(** The bits from their parts. *)
Lemma bits_parts b b' : 0 <= b < 2 ^ 64 -> 0 <= b' < 2 ^ 64 -> negative b = negative b' -> mantissa b = mantissa b' ->
  exponent b = exponent b' \/ mantissa b = 0 -> b = b'.
Proof.
  assert (forall b, 0 <= b < 2 ^ 64 -> b = fraction b + 2 ^ 52 * biased b + 2 ^ 63 * (if negative b then 1 else 0) /\
            0 <= fraction b < 2 ^ 52 /\ 0 <= biased b < 2048) as Hp.
  { intros x Hx. unfold fraction, biased, negative.
    pose proof (Z.div_mod x (2 ^ 52) ltac:(lia)) as E1. pose proof (Z.mod_pos_bound x (2 ^ 52) ltac:(lia)).
    pose proof (Z.div_mod (x / 2 ^ 52) (2 ^ 11) ltac:(lia)) as E2. pose proof (Z.mod_pos_bound (x / 2 ^ 52) (2 ^ 11) ltac:(lia)).
    rewrite Z.div_div in E2 by lia. change (2 ^ 52 * 2 ^ 11) with (2 ^ 63) in E2.
    assert (0 <= x / 2 ^ 63 < 2) as Hs by (split; [apply Z.div_pos; lia|apply Z.div_lt_upper_bound; lia]).
    assert ((if Z.odd (x / 2 ^ 63) then 1 else 0) = x / 2 ^ 63) as ->
      by (assert (x / 2 ^ 63 = 0 \/ x / 2 ^ 63 = 1) as [->| ->] by lia; done).
    change (2 ^ 11) with 2048 in *. split_and!; lia. }
  intros Hb Hb' Hn Hm He. destruct (Hp b Hb) as (E & Hf & Hbi). destruct (Hp b' Hb') as (E' & Hf' & Hbi'). rewrite E, E', Hn.
  unfold mantissa, exponent in *. destruct (Z.eqb_spec (biased b) 0), (Z.eqb_spec (biased b') 0); lia.
Qed.

(** The text tells a finite float from every other, and no decimal of fewer
    digits would: reading it gives a decimal that rounds to this float only. *)
Theorem float_text_roundtrip (b b' : Z) :
  finite b -> finite b' ->
  (FormatFloat b = FormatFloat b' -> b = b') /\
  exists k q, read (FormatFloat b) = (negative b, k, q) /\ (mantissa b = 0 <-> k = 0) /\
    (mantissa b <> 0 -> reads_back (mantissa b) (exponent b) k q = true /\
     (forall m e, canonical m e -> reads_back m e k q = true -> m = mantissa b /\ e = exponent b) /\
     forall k' q', reads_back (mantissa b) (exponent b) k' q' = true -> 10 ^ (digit_count (mantissa b) (exponent b) - 1) <= k').
Proof.
  intros Hb Hb'. destruct (read_FormatFloat b Hb) as (k & q & E & Hk). split.
  - intros Ht. destruct (read_FormatFloat b' Hb') as (k' & q' & E' & Hk'). rewrite Ht, E' in E. injection E as En <- <-.
    destruct Hk as [[Hm ->]|(Hm & Hc & Hw)], Hk' as [[Hm' Hz]|(Hm' & Hc' & Hw')].
    + apply bits_parts; [apply Hb|apply Hb'|done|congruence|by right].
    + apply within_pos in Hw'; [lia|apply Hc'].
    + subst k'. apply within_pos in Hw; [lia|apply Hc].
    + destruct (within_unique _ _ _ _ _ _ Hc Hc' Hw Hw') as [Em Ee].
      apply bits_parts; [apply Hb|apply Hb'|done|done|by left].
  - exists k, q. split; [done|]. destruct Hk as [[Hm ->]|(Hm & Hc & Hw)]; [done|].
    assert (0 < k) as Hpos by (apply within_pos in Hw; [done|apply Hc]). split; [lia|]. intros _.
    rewrite reads_back_within. split_and!; [done| |].
    + intros m e Hcm. rewrite reads_back_within. intros Hm'. destruct (within_unique _ _ _ _ _ _ Hcm Hc Hm' Hw). done.
    + intros k' q'. rewrite reads_back_within. by apply fewest_digits.
Qed.

(** One tenth. *)
Example float_text_roundtrip_witness :
  string_of_list_byte (FormatFloat 4591870180066957722) = "0.1"%string /\
  forall b, finite b -> FormatFloat 4591870180066957722 = FormatFloat b -> 4591870180066957722 = b.
Proof.
  split; [vm_compute; reflexivity|]. intros b Hb.
  apply (float_text_roundtrip 4591870180066957722 b); [split; [lia|vm_compute; discriminate]|exact Hb].
Defined.
