(* ===== verification/Ident.v ===== *)
(** * Identifiers: [internal/trace/id.go]

    Trace and span identifiers, their hexadecimal form, and the parser that
    refuses a wrong length, a bad digit and the reserved all-zero value.  The
    hexadecimal codec is Go's [encoding/hex], written out here. *)

From S2P Require Import Prelude.

(** ** Arrays and [copy] *)

(** [copy(dst, src)] for a destination of fixed length: it overwrites as many
    bytes as both have. *)
Fixpoint copy_bytes {n} (dst : vec byte n) (src : list byte) : vec byte n :=
  match dst with
  | [#] => [#]
  | x ::: dst' => match src with
                  | [] => x ::: dst'
                  | b :: src' => b ::: copy_bytes dst' src'
                  end
  end.

Lemma copy_bytes_list {n} (dst : vec byte n) (src : list byte) :
  length src = n -> vec_to_list (copy_bytes dst src) = src.
Proof.
  revert src. induction dst as [|x n dst IH]; intros [|b src]; simpl; try done.
  intros [= H]. by rewrite IH.
Qed.

Lemma copy_bytes_vec {n} (dst v : vec byte n) : copy_bytes dst (vec_to_list v) = v.
Proof. apply vec_to_list_inj2, copy_bytes_list, length_vec_to_list. Qed.

(** Arrays as map keys, with an encoding that computes. *)
#[export] Program Instance array_countable n : Countable (vec byte n) | 0 :=
  inj_countable vec_to_list (fun l => Some (copy_bytes (vreplicate n x00) l)) _.
Next Obligation. intros n v; simpl. by rewrite copy_bytes_vec. Qed.

(** ** [encoding/hex] *)
Module Hex.
Definition digit (n : Z) : byte :=
  if n <? 10 then byte_of_Z (48 + n) else byte_of_Z (87 + n).

Definition encode_byte (b : byte) : list byte :=
  [digit (byteZ b / 16); digit (byteZ b mod 16)].

Definition EncodeToString (bs : list byte) : list byte := bs ≫= encode_byte.

(** [reverseHexTable]: either case is accepted. *)
Definition value (c : byte) : option Z :=
  let z := byteZ c in
  if (48 <=? z) && (z <=? 57) then Some (z - 48)
  else if (97 <=? z) && (z <=? 102) then Some (z - 87)
  else if (65 <=? z) && (z <=? 70) then Some (z - 55)
  else None.

Inductive error := InvalidByte (c : byte) | ErrLength.

(** [hex.Decode]. *)
Fixpoint Decode (src : list byte) : result error (list byte) :=
  match src with
  | [] => Ok []
  | [p] => match value p with None => Err (InvalidByte p) | Some _ => Err ErrLength end
  | p :: q :: src' =>
      match value p with
      | None => Err (InvalidByte p)
      | Some a => match value q with
                  | None => Err (InvalidByte q)
                  | Some b => let? l := Decode src' in Ok (byte_of_Z (a * 16 + b) :: l)
                  end
      end
  end.

(** The lowercase form of a hexadecimal digit. *)
Definition lower (c : byte) : byte :=
  let z := byteZ c in
  if (65 <=? z) && (z <=? 90) then byte_of_Z (z + 32) else c.
End Hex.

(** ** The types *)

(** [type TraceID [16]byte], [type SpanID [8]byte]. *)
Abbreviation TraceID := (vec byte 16).
Abbreviation SpanID := (vec byte 8).

(** The three ways a caller can hand over a bad identifier. *)
Inductive id_error :=
| ErrIDLength (got want : Z)
| ErrIDHex (e : Hex.error)
| ErrIDZero.

(** [func allZero(b []byte) bool]. *)
Fixpoint allZero (b : list byte) : bool :=
  match b with
  | [] => true
  | c :: b' => if negb (byteZ c =? 0) then false else allZero b'
  end.

(** [func parseID(s string, out []byte) error]: the new contents of [out]
    and the error. *)
Definition parseID {n} (s : list byte) (out : vec byte n) : vec byte n * option id_error :=
  let want := Z.of_nat n * 2 in
  if negb (Z.of_nat (length s) =? want) then
    (out, Some (ErrIDLength (Z.of_nat (length s)) want))
  else match Hex.Decode s with
       | Err e => (out, Some (ErrIDHex e))
       | Ok buf => if allZero buf then (out, Some ErrIDZero)
                   else (copy_bytes out buf, None)
       end.

(** [var id TraceID]. *)
Definition zeroID {n} : vec byte n := vreplicate n x00.

Definition ParseTraceID (s : string) : TraceID * option id_error :=
  parseID (list_byte_of_string s) zeroID.
Definition ParseSpanID (s : string) : SpanID * option id_error :=
  parseID (list_byte_of_string s) zeroID.

(** The methods of the two types, one body for both lengths. *)
Module ID.
Definition IsValid {n} (id : vec byte n) : bool := negb (allZero id).

Definition String {n} (id : vec byte n) : string :=
  string_of_list_byte (Hex.EncodeToString id).

Definition MarshalText {n} (id : vec byte n) : list byte := list_byte_of_string (String id).

Definition UnmarshalText {n} (id : vec byte n) (b : list byte) : vec byte n * option id_error :=
  parseID b id.

(** [slices.Compare(a[:], b[:])]. *)
Definition compare {n} (a b : vec byte n) : comparison := compare_bytes a b.
End ID.

(** [func randomID(out []byte) error], given what successive calls of
    [rand.Read] deliver; [None] is a failed read.  The result is [None] while
    the loop is still running when the draws end. *)
Inductive random_error := ErrRandom.

Fixpoint randomID {n} (reads : list (option (vec byte n))) : option (result random_error (vec byte n)) :=
  match reads with
  | [] => None
  | None :: _ => Some (Err ErrRandom)
  | Some out :: reads' => if negb (allZero out) then Some (Ok out) else randomID reads'
  end.

Definition NewTraceID (reads : list (option TraceID)) := randomID reads.
Definition NewSpanID (reads : list (option SpanID)) := randomID reads.

(** ** Lemmas *)

Lemma compare_id_eq {n} (a b : vec byte n) : ID.compare a b = Eq <-> a = b.
Proof.
  unfold ID.compare. rewrite compare_bytes_eq. split; [|by intros ->].
  apply vec_to_list_inj2.
Qed.

#[export] Instance compare_id_laws {n} : CmpLaws (ID.compare (n:=n)) :=
  cmp_on_laws vec_to_list compare_bytes _.

Lemma allZero_spec b : allZero b = true <-> Forall (.= x00) b.
Proof.
  induction b as [|c b IH]; simpl; [by split|].
  rewrite Forall_cons, <- IH.
  destruct (Z.eqb_spec (byteZ c) 0) as [E|E]; simpl.
  - change 0 with (byteZ x00) in E. apply (inj byteZ) in E. subst c. tauto.
  - split; [done|]. intros [-> _]. done.
Qed.

Lemma hex_value_digit_byte b : byteZ b < 16 -> Hex.value (Hex.digit (byteZ b)) = Some (byteZ b).
Proof. destruct b; intros H; try (vm_compute in H; discriminate H); reflexivity. Qed.

Lemma hex_value_digit n : 0 <= n < 16 -> Hex.value (Hex.digit n) = Some n.
Proof.
  intros Hn. rewrite <- (byteZ_of_Z_small n) by lia.
  apply hex_value_digit_byte. rewrite byteZ_of_Z_small; lia.
Qed.

Lemma hex_value_range c a : Hex.value c = Some a -> 0 <= a < 16.
Proof. destruct c; intros H; vm_compute in H; simplify_eq; lia. Qed.

(** The parser cannot tell a digit from its lowercase form, and the printer
    undoes it up to case. *)
Lemma hex_value_lower c : Hex.value (Hex.lower c) = Hex.value c.
Proof. by destruct c. Qed.

Lemma hex_digit_value c a : Hex.value c = Some a -> Hex.digit a = Hex.lower c.
Proof. destruct c; intros H; vm_compute in H; simplify_eq; reflexivity. Qed.

Lemma hex_lower_digit n : 0 <= n < 16 -> Hex.lower (Hex.digit n) = Hex.digit n.
Proof. intros Hn. symmetry. by apply hex_digit_value, hex_value_digit. Qed.

Lemma nibbles_recombine b : byte_of_Z (byteZ b / 16 * 16 + byteZ b mod 16) = b.
Proof.
  rewrite <- (byte_of_byteZ b) at 3. f_equal.
  pose proof (Z.div_mod (byteZ b) 16). lia.
Qed.

Lemma nibble_bounds b : 0 <= byteZ b / 16 < 16 /\ 0 <= byteZ b mod 16 < 16.
Proof.
  pose proof (byteZ_range b). split; [|apply Z.mod_pos_bound; lia].
  split; [apply Z.div_pos; lia|apply Z.div_lt_upper_bound; lia].
Qed.

Lemma encode_byte_of_nibbles a b :
  0 <= a < 16 -> 0 <= b < 16 -> Hex.encode_byte (byte_of_Z (a * 16 + b)) = [Hex.digit a; Hex.digit b].
Proof.
  intros Ha Hb. unfold Hex.encode_byte. rewrite byteZ_of_Z_small by lia.
  rewrite Z.div_add_l, (Z.div_small b 16), Z.add_0_r by lia.
  by rewrite Z.add_comm, Z_mod_plus_full, Z.mod_small by lia.
Qed.

Lemma hex_decode_encode bs : Hex.Decode (Hex.EncodeToString bs) = Ok bs.
Proof.
  induction bs as [|b bs IH]; [done|]. simpl.
  destruct (nibble_bounds b). rewrite !hex_value_digit by done.
  fold (Hex.EncodeToString bs). rewrite IH. by rewrite nibbles_recombine.
Qed.

(** Induction two elements at a time, as the decoder reads. *)
Lemma pair_list_ind {A} (P : list A -> Prop) :
  P [] -> (forall x, P [x]) -> (forall x y l, P l -> P (x :: y :: l)) -> forall l, P l.
Proof.
  intros H0 H1 H2. fix IH 1. intros [|x [|y l]]; [done|apply H1|]. apply H2, IH.
Qed.

Lemma hex_encode_cons b bs :
  Hex.EncodeToString (b :: bs) = Hex.encode_byte b ++ Hex.EncodeToString bs.
Proof. done. Qed.

(** What the decoder accepts is, up to case, what the encoder prints. *)
Lemma hex_decode_ok s bs : Hex.Decode s = Ok bs <-> Hex.EncodeToString bs = Hex.lower <$> s.
Proof.
  revert bs. induction s as [|p|p q s IH] using pair_list_ind; intros bs; simpl.
  - split; [by intros [= <-]|]. by destruct bs.
  - split; [by destruct (Hex.value p)|]. by destruct bs as [|b [|b' bs]].
  - destruct (Hex.value p) as [a|] eqn:Ea.
    2: { split; [done|]. destruct bs as [|b bs]; [done|]. intros [= Hp _ _].
         rewrite <- hex_value_lower, <- Hp, hex_value_digit in Ea by apply nibble_bounds. done. }
    destruct (Hex.value q) as [b|] eqn:Eb.
    2: { split; [done|]. destruct bs as [|b bs]; [done|]. intros [= _ Hq _].
         rewrite <- hex_value_lower, <- Hq, hex_value_digit in Eb by apply nibble_bounds. done. }
    pose proof (hex_value_range _ _ Ea). pose proof (hex_value_range _ _ Eb).
    rewrite <- (hex_digit_value _ _ Ea), <- (hex_digit_value _ _ Eb).
    destruct bs as [|c bs]; [by destruct (Hex.Decode s)|].
    transitivity (c = byte_of_Z (a * 16 + b) /\ Hex.Decode s = Ok bs).
    { destruct (Hex.Decode s); [|by split; [|intros [_ ?]]].
      split; [by intros [= <- <-]|by intros [-> [= ->]]]. }
    rewrite IH, hex_encode_cons. split.
    + intros [-> ->]. by rewrite encode_byte_of_nibbles.
    + unfold Hex.encode_byte. intros [= H1 H2 H3]. split; [|done].
      apply (f_equal Hex.value) in H1, H2. destruct (nibble_bounds c).
      rewrite !hex_value_digit in H1, H2 by done. injection H1 as <-. injection H2 as <-.
      symmetry. apply nibbles_recombine.
Qed.

Lemma hex_encode_length bs : length (Hex.EncodeToString bs) = (2 * length bs)%nat.
Proof. induction bs as [|b bs IH]; simpl; [done|]. fold (Hex.EncodeToString bs). lia. Qed.

Lemma bytes_of_String {n} (id : vec byte n) :
  list_byte_of_string (ID.String id) = Hex.EncodeToString id.
Proof. apply list_byte_of_string_of_list_byte. Qed.

(** The parser, in one equivalence: it accepts exactly the hexadecimal forms,
    in either case, of valid identifiers. *)
Lemma parseID_ok_iff {n} (s : list byte) (out id : vec byte n) :
  parseID s out = (id, None) <->
  Hex.EncodeToString id = Hex.lower <$> s /\ ID.IsValid id = true.
Proof.
  unfold parseID, ID.IsValid.
  destruct (Z.eqb_spec (Z.of_nat (length s)) (Z.of_nat n * 2)) as [E|E]; simpl.
  2: { split; [done|]. intros [H _]. apply (f_equal length) in H.
       rewrite hex_encode_length, length_fmap, length_vec_to_list in H. lia. }
  destruct (Hex.Decode s) as [buf|e] eqn:Ed.
  - pose proof Ed as Hb. apply hex_decode_ok in Hb.
    assert (length buf = n) as Hlen.
    { apply (f_equal length) in Hb. rewrite hex_encode_length, length_fmap in Hb. lia. }
    assert (Hex.EncodeToString id = Hex.lower <$> s <-> buf = vec_to_list id) as ->.
    { rewrite <- hex_decode_ok, Ed. split; [by intros [= ->]|by intros ->]. }
    destruct (allZero buf) eqn:Ez; simpl.
    + split; [done|]. intros [-> Hv]. by rewrite Ez in Hv.
    + split.
      * intros [= <-]. by rewrite copy_bytes_list, Ez.
      * intros [-> _]. by rewrite copy_bytes_vec.
  - split; [done|]. intros [H _]. apply hex_decode_ok in H. congruence.
Qed.

Lemma hex_encode_lower (bs : list byte) : Hex.lower <$> Hex.EncodeToString bs = Hex.EncodeToString bs.
Proof. symmetry. apply hex_decode_ok, hex_decode_encode. Qed.

Lemma parse_String {n} (id out : vec byte n) :
  ID.IsValid id = true -> parseID (list_byte_of_string (ID.String id)) out = (id, None).
Proof.
  intros Hv. apply parseID_ok_iff. split; [|done].
  by rewrite bytes_of_String, hex_encode_lower.
Qed.

(** A rejected input leaves the destination as it was. *)
Lemma parseID_err {n} (s : list byte) (out out' : vec byte n) e :
  parseID s out = (out', Some e) -> out' = out.
Proof.
  unfold parseID. destruct (negb _); [congruence|].
  destruct (Hex.Decode s) as [buf|]; [|congruence]. destruct (allZero buf); congruence.
Qed.

(** The loop of [randomID] ends at the first draw that is not all zero, or at
    the first failed read, whichever comes first. *)
Lemma randomID_skip_zero {n} (zs : list (vec byte n)) rest :
  Forall (fun d => ID.IsValid d = false) zs ->
  randomID ((Some <$> zs) ++ rest) = randomID rest.
Proof.
  unfold ID.IsValid. induction 1 as [|d zs Hd Hzs IH]; simpl; [done|]. by rewrite Hd.
Qed.

(** ** Properties *)

(** An identifier that is valid survives the round trip through its text
    form: [String] or [MarshalText] followed by the parser, whatever the
    destination held before. *)
Theorem id_text_roundtrip {n} (id out : vec byte n) :
  ID.IsValid id = true ->
  parseID (list_byte_of_string (ID.String id)) out = (id, None) /\
  ID.UnmarshalText out (ID.MarshalText id) = (id, None).
Proof. intros. split; by apply parse_String. Qed.

Example id_text_roundtrip_witness :
  ID.IsValid ([# x00; x00; x00; x00; x00; x00; xab; x01] : SpanID) = true /\
  ParseSpanID "000000000000ab01" = ([# x00; x00; x00; x00; x00; x00; xab; x01], None).
Proof.
  split; [reflexivity|].
  exact (proj1 (id_text_roundtrip ([# x00; x00; x00; x00; x00; x00; xab; x01] : SpanID) zeroID eq_refl)).
Defined.

(** [parseID] is decided by its input alone and never half-writes: it
    accepts exactly the hexadecimal forms (either case) of valid identifiers;
    a wrong length, a bad digit and the all-zero value each give their own
    error; and on every error the destination is left as it was. *)
Theorem parseID_spec {n} (s : list byte) (out : vec byte n) :
  match parseID s out with
  | (id, None) => Hex.EncodeToString id = Hex.lower <$> s /\ ID.IsValid id = true
  | (id, Some e) =>
      id = out /\
      match e with
      | ErrIDLength got want => got = Z.of_nat (length s) /\ want = 2 * Z.of_nat n /\ got <> want
      | ErrIDHex h => length s = (2 * n)%nat /\ Hex.Decode s = Err h
      | ErrIDZero => exists buf, Hex.Decode s = Ok buf /\ length buf = n /\ Forall (.= x00) buf
      end
  end.
Proof.
  destruct (parseID s out) as [id [e|]] eqn:E; [|by apply parseID_ok_iff in E].
  split; [by eapply parseID_err|]. revert E. unfold parseID.
  destruct (Z.eqb_spec (Z.of_nat (length s)) (Z.of_nat n * 2)) as [El|El]; simpl.
  2: { intros [= _ <-]. lia. }
  destruct (Hex.Decode s) as [buf|h] eqn:Ed; [|intros [= _ <-]; split; [lia|done]].
  destruct (allZero buf) eqn:Ez; [|done]. intros [= _ <-]. exists buf.
  apply allZero_spec in Ez. split_and!; [done| |done].
  apply hex_decode_ok, (f_equal length) in Ed.
  rewrite hex_encode_length, length_fmap in Ed. lia.
Qed.

(** [randomID] terminates as soon as a draw is not all zero, and what it
    returns without an error is always a valid identifier. *)
Theorem randomID_valid {n} (zs : list (vec byte n)) (d : vec byte n) rest :
  Forall (fun z => ID.IsValid z = false) zs ->
  ID.IsValid d = true ->
  randomID ((Some <$> zs) ++ Some d :: rest) = Some (Ok d).
Proof.
  intros Hz Hd. rewrite randomID_skip_zero by done. unfold ID.IsValid in Hd. simpl. by rewrite Hd.
Qed.

Example randomID_valid_witness :
  NewSpanID [Some zeroID; Some (vreplicate 8 x07)] = Some (Ok (vreplicate 8 x07)).
Proof.
  refine (randomID_valid [zeroID] (vreplicate 8 x07) [] _ _); [|reflexivity].
  by repeat constructor.
Defined.
