(* ===== verification/Value.v ===== *)
(** * Attribute values: [internal/trace/value.go]

    A [Value] is a tagged union of a string, a bool, an integer and a float;
    the three scalars share one 64-bit word.  Floats are held by their IEEE
    754 bit pattern, which is all this part of the program looks at;
    [GoFormat] turns it into text. *)

From S2P Require Import Prelude GoStrings GoFormat.

(** A [float64] as its bits; [math.Float64bits] and [math.Float64frombits]
    are the two directions of the identity. *)
Record float64 : Type := Float64frombits { Float64bits : Z }.

Module Value.
(** [type ValueKind uint8]. *)
Definition ValueKind := byte.
Definition ValueInvalid : ValueKind := x00.
Definition ValueString : ValueKind := x01.
Definition ValueBool : ValueKind := x02.
Definition ValueInt : ValueKind := x03.
Definition ValueFloat : ValueKind := x04.

Definition kind_String (k : ValueKind) : string :=
  match k with
  | x01 => "string"
  | x02 => "bool"
  | x03 => "int"
  | x04 => "float"
  | _ => "invalid"
  end.

Record Value : Type := MkValue { kind : ValueKind; num : Z; str : string }.

#[export] Instance value_eq_dec : EqDecision Value.
Proof. solve_decision. Defined.

(** [Value{}]. *)
Definition zero : Value := MkValue ValueInvalid 0 "".

Definition StringValue (s : string) : Value := MkValue ValueString 0 s.
Definition BoolValue (b : bool) : Value := MkValue ValueBool (if b then 1 else 0) "".
Definition IntValue (i : Z) : Value := MkValue ValueInt (uint64 i) "".
Definition FloatValue (f : float64) : Value := MkValue ValueFloat (Float64bits f) "".

Definition Kind (v : Value) : ValueKind := kind v.

Definition AsString (v : Value) : string * bool :=
  if negb (bool_decide (kind v = ValueString)) then (""%string, false) else (str v, true).
Definition AsBool (v : Value) : bool * bool :=
  if negb (bool_decide (kind v = ValueBool)) then (false, false) else (num v =? 1, true).
Definition AsInt (v : Value) : Z * bool :=
  if negb (bool_decide (kind v = ValueInt)) then (0, false) else (int64 (num v), true).
Definition AsFloat (v : Value) : float64 * bool :=
  if negb (bool_decide (kind v = ValueFloat)) then (Float64frombits 0, false)
  else (Float64frombits (num v), true).

(** [type KeyValue struct]. *)
Record KeyValue : Type := MkKeyValue { Key : string; Val : Value }.

#[export] Instance keyvalue_eq_dec : EqDecision KeyValue.
Proof. solve_decision. Defined.

(** [func (v Value) String() string] and [func (kv KeyValue) String() string]. *)
Definition String_ (v : Value) : string :=
  match kind v with
  | x01 => str v
  | x02 => string_of_list_byte (FormatBool (num v =? 1))
  | x03 => string_of_list_byte (FormatInt (int64 (num v)))
  | x04 => string_of_list_byte (FormatFloat (num v))
  | _ => "<invalid>"
  end.
Definition KeyValue_String (kv : KeyValue) : string := (Key kv ++ "=" ++ String_ (Val kv))%string.

(** The values a program can hold: the fields are private, so only the zero
    value and the four constructors make one. *)
Inductive wf : Value -> Prop :=
| wf_zero : wf zero
| wf_string s : wf (StringValue s)
| wf_bool b : wf (BoolValue b)
| wf_int i : in_int64 i -> wf (IntValue i)
| wf_float f : in_uint64 (Float64bits f) -> wf (FloatValue f).

Create HintDb value.
#[export] Hint Constructors wf : value.

(** What a caller can observe of a value. *)
Definition observe (v : Value) : ValueKind * (string * bool) * (bool * bool) * (Z * bool) * (float64 * bool) :=
  (Kind v, AsString v, AsBool v, AsInt v, AsFloat v).

(** Decides every kind test in the goal or in [H]. *)
Ltac kind_cases :=
  unfold AsString, AsBool, AsInt, AsFloat, Kind in *; cbn [kind num str zero StringValue BoolValue
    IntValue FloatValue] in *;
  repeat first
    [ rewrite bool_decide_true by reflexivity
    | rewrite bool_decide_false by discriminate
    | rewrite bool_decide_true in * by reflexivity
    | rewrite bool_decide_false in * by discriminate ]; cbn [negb] in *.

(** Each accessor succeeds exactly on its own kind and returns what the
    constructor was given. *)
Lemma as_string_ok v s : wf v -> AsString v = (s, true) <-> v = StringValue s.
Proof. destruct 1; kind_cases; split; intros [=]; by subst. Qed.

Lemma as_bool_ok v b : wf v -> AsBool v = (b, true) <-> v = BoolValue b.
Proof.
  destruct 1 as [| |c| |]; kind_cases; split; try intros [=].
  - by destruct b, c.
  - by destruct b, c.
Qed.

Lemma as_int_ok v i : wf v -> in_int64 i -> AsInt v = (i, true) <-> v = IntValue i.
Proof.
  intros Hv Hi. destruct Hv as [| | |j Hj|]; kind_cases; split; intros E; try discriminate E.
  - injection E as E. rewrite int64_of_uint64_of_int64 in E by done. congruence.
  - injection E as E. apply (f_equal int64) in E.
    rewrite !int64_of_uint64_of_int64 in * by done. congruence.
Qed.

Lemma as_float_ok v f : wf v -> AsFloat v = (f, true) <-> v = FloatValue f.
Proof.
  destruct 1 as [| | | |g ?]; kind_cases; split; destruct f; try intros [=].
  - destruct g; cbn in *. by subst.
  - destruct g; cbn in *. by subst.
Qed.
End Value.
Export (hints, notations) Value.
Abbreviation Value := Value.Value.
Abbreviation KeyValue := Value.KeyValue.
Abbreviation Key := Value.Key.

Import Value.

(** ** Properties *)

(** An accessor answers [true] exactly when the value was built by its
    own constructor, and then returns what that constructor was given: no
    accessor converts between kinds, and integers come back exactly although
    they travel through an unsigned word. *)
Theorem accessors_invert_constructors (v : Value) :
  wf v ->
  (forall s, AsString v = (s, true) <-> v = StringValue s) /\
  (forall b, AsBool v = (b, true) <-> v = BoolValue b) /\
  (forall i, in_int64 i -> AsInt v = (i, true) <-> v = IntValue i) /\
  (forall f, AsFloat v = (f, true) <-> v = FloatValue f).
Proof.
  intros Hv. split_and!; intros.
  - by apply as_string_ok.
  - by apply as_bool_ok.
  - by apply as_int_ok.
  - by apply as_float_ok.
Qed.

Example accessors_invert_constructors_witness :
  AsInt (IntValue (-402)) = (-402, true).
Proof.
  refine (proj2 (proj1 (proj2 (proj2 (accessors_invert_constructors (IntValue (-402)) _))) (-402) _) eq_refl).
  - by apply wf_int.
  - by unfold_int.
Defined.

(** [==] on values is attribute equality: two values are the same struct
    exactly when no accessor tells them apart. *)
Theorem value_equality_is_observational (v w : Value) :
  wf v -> wf w -> v = w <-> observe v = observe w.
Proof.
  intros Hv Hw. split; [by intros ->|]. unfold observe, Kind. intros [= Hk Hs Hb Hi Hf].
  destruct Hv as [|s|b|i ?|f ?]; destruct Hw as [|s'|b'|i' ?|f' ?]; try discriminate Hk;
    kind_cases; try reflexivity.
  - congruence.
  - by destruct b, b'.
  - injection Hi. rewrite !int64_of_uint64_of_int64 by done. congruence.
  - injection Hf. unfold FloatValue. congruence.
Qed.

Example value_equality_is_observational_witness :
  observe (IntValue 1) <> observe (BoolValue true).
Proof.
  intros H. assert (in_int64 1) by by unfold_int.
  apply (value_equality_is_observational (IntValue 1) (BoolValue true)) in H; [discriminate H|..].
  - by apply wf_int.
  - apply wf_bool.
Defined.

(** ** Text *)

(** The texts the tests of the code expect. *)
Example value_texts :
  map String_ [StringValue "checkout"; BoolValue true; BoolValue false; IntValue (-(2 ^ 63)); IntValue (2 ^ 63 - 1);
    FloatValue (Float64frombits 4623226492472524800); FloatValue (Float64frombits 13817043656772681728); zero] =
  ["checkout"; "true"; "false"; "-9223372036854775808"; "9223372036854775807"; "12.5"; "-0.125"; "<invalid>"]%string /\
  KeyValue_String (MkKeyValue "http.status_code" (IntValue 503)) = "http.status_code=503"%string.
Proof. vm_compute. split; reflexivity. Qed.

(** And others that [strconv] is known by. *)
Example float_texts :
  map (fun b => string_of_list_byte (FormatFloat b))
    [4591870180066957722; 4696837146684686336; 4532020583610935537; 4547007122018943789; 4950912855330343670; 0;
     9223372036854775808; 9218868437227405312; 18442240474082181120; 9221120237041090561] =
  ["0.1"; "1e+06"; "1e-05"; "0.0001"; "1e+23"; "0"; "-0"; "+Inf"; "-Inf"; "NaN"]%string.
Proof. vm_compute. reflexivity. Qed.

Lemma text_injective l r : string_of_list_byte l = string_of_list_byte r -> l = r.
Proof.
  intros E. apply (f_equal list_byte_of_string) in E. by rewrite !list_byte_of_string_of_list_byte in E.
Qed.

(** The floats that are numbers. *)
Definition finite_value (v : Value) : Prop := kind v = ValueFloat -> biased (num v) <> 2047.

(** C35: the text of a value tells it from every other of its kind, NaNs and
    infinities apart: integers are printed in full, and a finite float that is
    not zero as a decimal that rounds to it, of as few digits as any decimal
    that does. *)
Theorem text_tells_apart (v w : Value) :
  wf v -> wf w -> finite_value v -> finite_value w -> Kind v = Kind w ->
  (String_ v = String_ w <-> v = w) /\
  (kind v = ValueFloat -> mantissa (num v) <> 0 -> shortest_text (num v) (list_byte_of_string (String_ v))).
Proof.
  intros Hv Hw Hf Hf' Hk. unfold Kind in Hk. split.
  2:{ intros Hkind Hm. destruct Hv as [|s|b|i Hi|f Hfl]; try discriminate Hkind. unfold String_.
      cbn [kind num FloatValue ValueFloat] in *. rewrite list_byte_of_string_of_list_byte.
      apply FormatFloat_shortest; [split; [done|by apply Hf]|done]. }
  split; [|by intros ->].
  destruct Hv as [|s|b|i Hi|f Hfl]; destruct Hw as [|s'|b'|i' Hi'|f' Hfl']; try discriminate Hk; unfold String_; cbn [kind num str zero StringValue BoolValue IntValue FloatValue ValueString ValueBool ValueInt ValueFloat].
  - done.
  - by intros ->.
  - by destruct b, b'.
  - intros E%text_injective. rewrite !int64_of_uint64_of_int64 in E by done.
    apply (f_equal ParseInt) in E. rewrite !ParseInt_FormatInt in E by done. congruence.
  - intros E%text_injective. destruct f as [f], f' as [f']. cbn [Float64bits] in *.
    destruct (float_text_roundtrip f f') as [Heq _]; [split; [done|by apply Hf]|split; [done|by apply Hf']|].
    by rewrite (Heq E).
Qed.

Definition tenth_value : Value := FloatValue (Float64frombits 4591870180066957722).
Definition next_value : Value := FloatValue (Float64frombits 4591870180066957723).

Example text_tells_apart_witness :
  String_ tenth_value = "0.1"%string /\ String_ tenth_value <> String_ next_value /\
  shortest_text (num tenth_value) (list_byte_of_string (String_ tenth_value)).
Proof.
  split; [vm_compute; reflexivity|].
  assert (wf tenth_value /\ wf next_value) as [H1 H2] by (split; apply wf_float; unfold_int; simpl; lia).
  assert (finite_value tenth_value /\ finite_value next_value) as [H3 H4] by (split; intros _; vm_compute; discriminate).
  destruct (text_tells_apart tenth_value next_value H1 H2 H3 H4 eq_refl) as [Heq Hshort]. split.
  - intros E. discriminate (proj1 Heq E).
  - apply Hshort; [reflexivity|vm_compute; discriminate].
Defined.
