(* ===== verification/Span.v ===== *)
(** * Spans: [internal/trace/span.go]

    The span record, the questions the rest of the program asks of a span, and
    [Validate], the gate every stored span has passed. *)

From S2P Require Import Prelude GoTime Ident Value.

(** [type SpanKind uint8]. *)
Definition SpanKind := byte.
Definition SpanUnspecified : SpanKind := x00.
Definition SpanInternal : SpanKind := x01.
Definition SpanServer : SpanKind := x02.
Definition SpanClient : SpanKind := x03.
Definition SpanProducer : SpanKind := x04.
Definition SpanConsumer : SpanKind := x05.

Definition SpanKind_String (k : SpanKind) : string :=
  match k with
  | x01 => "internal"
  | x02 => "server"
  | x03 => "client"
  | x04 => "producer"
  | x05 => "consumer"
  | _ => "unspecified"
  end.

(** [type StatusCode uint8]. *)
Definition StatusCode := byte.
Definition StatusUnset : StatusCode := x00.
Definition StatusOK : StatusCode := x01.
Definition StatusError : StatusCode := x02.

Definition StatusCode_String (c : StatusCode) : string :=
  match c with
  | x01 => "ok"
  | x02 => "error"
  | _ => "unset"
  end.

Record Status : Type := MkStatus { Code : StatusCode; Message : string }.

#[export] Instance status_eq_dec : EqDecision Status.
Proof. solve_decision. Defined.

Record Span : Type := MkSpan {
  TraceID_ : TraceID;
  SpanID_ : SpanID;
  ParentSpanID : SpanID;
  Name : string;
  Kind : SpanKind;
  Service : string;
  Start : Time;
  End_ : Time;
  Status_ : Status;
  Attributes : list KeyValue;
  Resource : list KeyValue;
}.

#[export] Instance span_eq_dec : EqDecision Span.
Proof. solve_decision. Defined.

(** [Span{}]. *)
Definition zeroSpan : Span :=
  MkSpan zeroID zeroID zeroID "" SpanUnspecified "" Time.zero Time.zero
    (MkStatus StatusUnset "") [] [].

(** [func (s Span) Duration() time.Duration]. *)
Definition Span_Duration (s : Span) : Duration := Time.Sub (End_ s) (Start s).

(** [func (s Span) IsRoot() bool]. *)
Definition IsRoot (s : Span) : bool := negb (ID.IsValid (ParentSpanID s)).

(** [func (s Span) Failed() bool]. *)
Definition Failed (s : Span) : bool := bool_decide (Code (Status_ s) = StatusError).

(** [func (s Span) Attribute(key string) (Value, bool)]. *)
Fixpoint find_attribute (kvs : list KeyValue) (key : string) : Value * bool :=
  match kvs with
  | [] => (Value.zero, false)
  | kv :: kvs' => if bool_decide (Key kv = key) then (Value.Val kv, true)
                  else find_attribute kvs' key
  end.
Definition Attribute (s : Span) (key : string) : Value * bool :=
  find_attribute (Attributes s) key.

(** The ways a span can arrive malformed. *)
Inductive span_error :=
| ErrNoTraceID
| ErrNoSpanID
| ErrNoName (id : SpanID)
| ErrNoService (id : SpanID)
| ErrSelfParent (id : SpanID)
| ErrNoStart (id : SpanID)
| ErrNoEnd (id : SpanID)
| ErrEndBeforeStart (id : SpanID) (start end_ : Time).

(** [func (s Span) Validate() error]. *)
Definition Validate (s : Span) : option span_error :=
  if negb (ID.IsValid (TraceID_ s)) then Some ErrNoTraceID
  else if negb (ID.IsValid (SpanID_ s)) then Some ErrNoSpanID
  else if bool_decide (Name s = ""%string) then Some (ErrNoName (SpanID_ s))
  else if bool_decide (Service s = ""%string) then Some (ErrNoService (SpanID_ s))
  else if bool_decide (ParentSpanID s = SpanID_ s) then Some (ErrSelfParent (SpanID_ s))
  else if Time.IsZero (Start s) then Some (ErrNoStart (SpanID_ s))
  else if Time.IsZero (End_ s) then Some (ErrNoEnd (SpanID_ s))
  else if Time.Before (End_ s) (Start s) then
    Some (ErrEndBeforeStart (SpanID_ s) (Start s) (End_ s))
  else None.

(** ** Lemmas *)

(** What a span that passed [Validate] is known to satisfy. *)
Record valid_span (s : Span) : Prop := {
  valid_trace : ID.IsValid (TraceID_ s) = true;
  valid_id : ID.IsValid (SpanID_ s) = true;
  valid_name : Name s <> ""%string;
  valid_service : Service s <> ""%string;
  valid_parent : ParentSpanID s <> SpanID_ s;
  valid_start : Start s <> Time.zero;
  valid_end : End_ s <> Time.zero;
  valid_order : Start s <= End_ s;
}.

Lemma Validate_none s : Validate s = None <-> valid_span s.
Proof.
  unfold Validate.
  destruct (ID.IsValid (TraceID_ s)) eqn:?; simpl; [|by split; [|intros []; congruence]].
  destruct (ID.IsValid (SpanID_ s)) eqn:?; simpl; [|by split; [|intros []; congruence]].
  do 3 (case_bool_decide; [by split; [|intros []]|]).
  time_cases; try by (split; [|intros []]).
  - split; [done|]. intros []. lia.
  - split; [|done]. intros _. split; [done..|lia].
Qed.

Lemma Failed_spec s : Failed s = true <-> Code (Status_ s) = StatusError.
Proof. apply bool_decide_eq_true. Qed.

Lemma find_attribute_spec kvs key :
  find_attribute kvs key =
  match head (filter (fun kv => Key kv = key) kvs) with
  | Some kv => (Value.Val kv, true)
  | None => (Value.zero, false)
  end.
Proof.
  induction kvs as [|kv kvs IH]; simpl; [done|].
  rewrite filter_cons. case_bool_decide; by case_decide.
Qed.

(** ** Properties *)

(** [Validate] accepts a span exactly when it has both identifiers, a
    name, a service, both timestamps, an end not before its start and a parent
    that is not itself; so every accepted span has a non-negative duration and
    no accepted span is a one-node cycle. *)
Theorem Validate_spec (s : Span) :
  (Validate s = None <-> valid_span s) /\
  (Validate s = None -> 0 <= Span_Duration s /\
     (IsRoot s = false -> ParentSpanID s <> SpanID_ s /\ ID.IsValid (ParentSpanID s) = true)).
Proof.
  split; [apply Validate_none|]. intros Hv%Validate_none. split.
  - apply sub_nonneg, Hv.
  - intros Hr. split; [apply Hv|]. unfold IsRoot in Hr. by destruct (ID.IsValid _).
Qed.

Definition sample_span : Span :=
  MkSpan (vreplicate 16 x01) (vreplicate 8 x02) zeroID "POST /pay" SpanServer "checkout"
    1000 251000 (MkStatus StatusError "card declined")
    [Value.MkKeyValue "http.method" (Value.StringValue "POST");
     Value.MkKeyValue "http.status_code" (Value.IntValue (-402));
     Value.MkKeyValue "retried" (Value.BoolValue true)] [].

Example Validate_spec_witness :
  Validate sample_span = None /\ 0 <= Span_Duration sample_span.
Proof.
  assert (Validate sample_span = None) as H by (vm_compute; reflexivity).
  split; [exact H|]. exact (proj1 (proj2 (Validate_spec sample_span) H)).
Defined.

(** [Validate] reports the first failing check in its fixed order: each
    error is returned exactly when its own check fails and every check before
    it passed. *)
Theorem Validate_first_error (s : Span) (e : span_error) :
  Validate s = Some e <->
  match e with
  | ErrNoTraceID => ID.IsValid (TraceID_ s) = false
  | ErrNoSpanID => ID.IsValid (TraceID_ s) = true /\ ID.IsValid (SpanID_ s) = false
  | ErrNoName id => id = SpanID_ s /\ ID.IsValid (TraceID_ s) = true /\ ID.IsValid id = true /\
      Name s = ""%string
  | ErrNoService id => id = SpanID_ s /\ ID.IsValid (TraceID_ s) = true /\ ID.IsValid id = true /\
      Name s <> ""%string /\ Service s = ""%string
  | ErrSelfParent id => id = SpanID_ s /\ ID.IsValid (TraceID_ s) = true /\ ID.IsValid id = true /\
      Name s <> ""%string /\ Service s <> ""%string /\ ParentSpanID s = id
  | ErrNoStart id => id = SpanID_ s /\ ID.IsValid (TraceID_ s) = true /\ ID.IsValid id = true /\
      Name s <> ""%string /\ Service s <> ""%string /\ ParentSpanID s <> id /\ Start s = Time.zero
  | ErrNoEnd id => id = SpanID_ s /\ ID.IsValid (TraceID_ s) = true /\ ID.IsValid id = true /\
      Name s <> ""%string /\ Service s <> ""%string /\ ParentSpanID s <> id /\
      Start s <> Time.zero /\ End_ s = Time.zero
  | ErrEndBeforeStart id a b => id = SpanID_ s /\ a = Start s /\ b = End_ s /\
      ID.IsValid (TraceID_ s) = true /\ ID.IsValid id = true /\
      Name s <> ""%string /\ Service s <> ""%string /\ ParentSpanID s <> id /\
      a <> Time.zero /\ b <> Time.zero /\ b < a
  end.
Proof.
  unfold Validate.
  destruct (ID.IsValid (TraceID_ s)) eqn:?, (ID.IsValid (SpanID_ s)) eqn:?; simpl;
    repeat case_bool_decide; time_cases; destruct e; split;
    intros; simplify_eq; try (repeat split; (done || lia)); destruct_and?; simplify_eq; (done || lia || congruence).
Qed.
