(* ===== verification/Codec.v ===== *)
(** * The span codec: [internal/storage/codec.go]

    The compact binary form of a span.  [encodeSpan] appends it; [decodeSpan]
    reads it through a [decoder] whose first failure sticks.  A decoder method
    is a state transformer [dec A]; [Reads], [Sticky] and [Extends] say what a
    method promises, and their instances compose along the bind. *)

From S2P Require Import Prelude GoTime GoBytes Ident Value Span.

(** Every error here wraps [errCorruptSpan]. *)
Inductive codec_error :=
| ErrTruncated (what : string)
| ErrKind (kind : byte) (what : string)
| ErrVersion (v : byte)
| ErrTrailing (n : Z).

Definition codecVersion : byte := x01.

(** ** The encoder *)

Definition appendString (b : list byte) (s : string) : list byte :=
  AppendUvarint b (Z.of_nat (String.length s)) ++ list_byte_of_string s.

(** The body of the loop of [appendAttributes]. *)
Definition appendAttribute (b : list byte) (kv : KeyValue) : list byte :=
  let b := appendString b (Key kv) in
  let b := b ++ [Value.Kind (Value.Val kv)] in
  match Value.Kind (Value.Val kv) with
  | x01 => appendString b (Value.AsString (Value.Val kv)).1
  | x02 => if (Value.AsBool (Value.Val kv)).1 then b ++ [x01] else b ++ [x00]
  | x03 => AppendVarint b (Value.AsInt (Value.Val kv)).1
  | x04 => b ++ le_bytes 8 (Float64bits (Value.AsFloat (Value.Val kv)).1)
  | _ => b
  end.

Definition appendAttributes (b : list byte) (kvs : list KeyValue) : list byte :=
  foldl appendAttribute (AppendUvarint b (Z.of_nat (length kvs))) kvs.

Definition encodeSpan (b : list byte) (s : Span) : list byte :=
  let b := b ++ [codecVersion] in
  let b := b ++ TraceID_ s in
  let b := b ++ SpanID_ s in
  let b := b ++ ParentSpanID s in
  let b := appendString b (Name s) in
  let b := b ++ [Kind s] in
  let b := appendString b (Service s) in
  let b := AppendVarint b (Time.UnixNano (Start s)) in
  let b := AppendVarint b (Time.UnixNano (End_ s)) in
  let b := b ++ [Code (Status_ s)] in
  let b := appendString b (Message (Status_ s)) in
  let b := appendAttributes b (Attributes s) in
  let b := appendAttributes b (Resource s) in
  b.

(** ** The decoder *)

Record decoder : Type := MkDecoder { buf : list byte; err : option codec_error }.

(** A method of [*decoder]. *)
Definition dec (A : Type) : Type := decoder -> A * decoder.

#[export] Instance dec_ret : MRet dec := fun A x d => (x, d).
#[export] Instance dec_bind : MBind dec := fun A B f m d => let '(x, d') := m d in f x d'.

Definition get_err : dec (option codec_error) := fun d => (err d, d).

Definition fail (what : string) : dec unit := fun d =>
  match err d with
  | None => (tt, MkDecoder (buf d) (Some (ErrTruncated what)))
  | Some _ => (tt, d)
  end.

Definition bytes (n : Z) (what : string) : dec (option (list byte)) := fun d =>
  match err d with
  | Some _ => (None, d)
  | None =>
      if (n <? 0) || (Z.of_nat (length (buf d)) <? n) then (None, (fail what d).2)
      else (Some (take (Z.to_nat n) (buf d)), MkDecoder (drop (Z.to_nat n) (buf d)) None)
  end.

Definition byte_ (what : string) : dec byte :=
  b ← bytes 1 what;
  mret (match b with Some (c :: _) => c | _ => x00 end).

Definition uvarint (what : string) : dec Z := fun d =>
  match err d with
  | Some _ => (0, d)
  | None =>
      let '(v, n) := Uvarint (buf d) in
      if n <=? 0 then (0, (fail what d).2)
      else (v, MkDecoder (drop (Z.to_nat n) (buf d)) None)
  end.

Definition varint (what : string) : dec Z := fun d =>
  match err d with
  | Some _ => (0, d)
  | None =>
      let '(v, n) := Varint (buf d) in
      if n <=? 0 then (0, (fail what d).2)
      else (v, MkDecoder (drop (Z.to_nat n) (buf d)) None)
  end.

(** [if n > uint64(len(d.buf)/k) { d.fail(what) ... }]: whether it fired. *)
Definition exceeds (n k : Z) (what : string) : dec bool := fun d =>
  if Z.of_nat (length (buf d)) / k <? n then (true, (fail what d).2) else (false, d).

Definition string_ (what : string) : dec string :=
  n ← uvarint what;
  too_long ← exceeds n 1 what;
  if too_long : bool then mret ""%string
  else b ← bytes n what; mret (string_of_list_byte (default [] b)).

(** The [switch kind] inside [attributes]. *)
Definition attribute_value (kind : byte) (what : string) : dec Value :=
  match kind with
  | x01 => s ← string_ what; mret (Value.StringValue s)
  | x02 => b ← byte_ what; mret (Value.BoolValue (bool_decide (b = x01)))
  | x03 => i ← varint what; mret (Value.IntValue i)
  | x04 => b ← bytes 8 what;
           mret (match b with
                 | Some b => Value.FloatValue (Float64frombits (le_value b))
                 | None => Value.zero
                 end)
  | x00 => mret Value.zero
  | _ => fun d => match err d with
                  | None => (Value.zero, MkDecoder (buf d) (Some (ErrKind kind what)))
                  | Some _ => (Value.zero, d)
                  end
  end.

(** [for range n], with the early return of [nil] on an error. *)
Fixpoint attributes_loop (n : nat) (what : string) (out : list KeyValue) : dec (list KeyValue) :=
  match n with
  | O => mret out
  | S n =>
      key ← string_ what;
      kind ← byte_ what;
      v ← attribute_value kind what;
      e ← get_err;
      match e with
      | Some _ => mret []
      | None => attributes_loop n what (out ++ [Value.MkKeyValue key v])
      end
  end.

Definition attributes (what : string) : dec (list KeyValue) :=
  n ← uvarint what;
  e ← get_err;
  match e with
  | Some _ => mret []
  | None =>
      if n =? 0 then mret []
      else too_many ← exceeds n 2 what;
           if too_many : bool then mret []
           else attributes_loop (Z.to_nat n) what []
  end.

(** [copy(id[:], d.bytes(len(id), what))] into a fresh array. *)
Definition array_ (n : nat) (what : string) : dec (vec byte n) :=
  b ← bytes (Z.of_nat n) what; mret (copy_bytes zeroID (default [] b)).

(** The field reads of [decodeSpan], after the version byte. *)
Definition decode_fields : dec Span :=
  trace ← array_ 16 "trace id";
  span ← array_ 8 "span id";
  parent ← array_ 8 "parent span id";
  name ← string_ "name";
  kind ← byte_ "kind";
  service ← string_ "service";
  start ← varint "start";
  end_ ← varint "end";
  code ← byte_ "status code";
  message ← string_ "status message";
  attrs ← attributes "attributes";
  resource ← attributes "resource";
  mret (MkSpan trace span parent name kind service
          (Time.ofUnixNano start) (Time.ofUnixNano end_)
          (MkStatus code message) attrs resource).

Definition decodeSpan (p : list byte) : result codec_error Span :=
  let '(v, d) := byte_ "version" (MkDecoder p None) in
  if bool_decide (err d = None) && negb (bool_decide (v = codecVersion)) then Err (ErrVersion v)
  else
    let '(s, d) := decode_fields d in
    match err d with
    | Some e => Err e
    | None => if negb (Z.of_nat (length (buf d)) =? 0)
              then Err (ErrTrailing (Z.of_nat (length (buf d))))
              else Ok s
    end.

(** ** What a decoder method promises *)

Definition dstate (b : list byte) : decoder := MkDecoder b None.

(** [f] consumes exactly [enc], whatever follows, and returns [v]. *)
Definition Reads {A} (f : dec A) (enc : list byte) (v : A) : Prop :=
  forall rest, f (dstate (enc ++ rest)) = (v, dstate rest).

(** Once an error is set, [f] changes nothing. *)
Class Sticky {A} (f : dec A) : Prop :=
  sticky d : err d <> None -> (f d).2 = d.

(** If [f] succeeds, it succeeds the same way on a longer buffer. *)
Class Extends {A} (f : dec A) : Prop :=
  extends b x b' ext : f (dstate b) = (x, dstate b') -> f (dstate (b ++ ext)) = (x, dstate (b' ++ ext)).

Create HintDb codec.

Lemma bind_unfold {A B} (f : dec A) (g : A -> dec B) d : (f ≫= g) d = g (f d).1 (f d).2.
Proof. unfold mbind, dec_bind. by destruct (f d). Qed.

Lemma bind_step {A B} (f : dec A) (g : A -> dec B) d x d' :
  f d = (x, d') -> (f ≫= g) d = g x d'.
Proof. intros E. by rewrite bind_unfold, E. Qed.

(** Runs the first method of the goal's bind, whose result [H] gives. *)
Ltac step H := erewrite bind_step; [|solve [apply H; eauto with codec]]; cbv beta match.

Lemma reads_bind {A B} (f : dec A) (g : A -> dec B) e1 e2 x y :
  Reads f e1 x -> Reads (g x) e2 y -> Reads (f ≫= g) (e1 ++ e2) y.
Proof. intros Hf Hg rest. rewrite bind_unfold, <- app_assoc, Hf. apply Hg. Qed.

Lemma reads_ret {A} (x : A) : Reads (mret x) [] x.
Proof. done. Qed.

(** A method that consumes its whole encoding and then returns. *)
Lemma reads_bind_ret {A B} (f : dec A) (g : A -> B) e x :
  Reads f e x -> Reads (y ← f; mret (g y)) e (g x).
Proof. intros Hf rest. by rewrite bind_unfold, Hf. Qed.

#[export] Instance sticky_ret {A} (x : A) : Sticky (mret x : dec A).
Proof. done. Qed.

#[export] Instance sticky_bind {A B} (f : dec A) (g : A -> dec B) :
  Sticky f -> (forall x, Sticky (g x)) -> Sticky (f ≫= g).
Proof.
  intros Hf Hg d Hd. rewrite bind_unfold, (Hf d Hd). apply Hg, Hd.
Qed.

#[export] Instance extends_ret {A} (x : A) : Extends (mret x : dec A).
Proof. by intros b y b' ext [= <- <-]. Qed.

#[export] Instance extends_bind {A B} (f : dec A) (g : A -> dec B) :
  Extends f -> (forall x, Extends (g x)) -> (forall x, Sticky (g x)) -> Extends (f ≫= g).
Proof.
  intros Hf Hg Hs b y b' ext. rewrite !bind_unfold.
  destruct (f (dstate b)) as [x [b1 [e|]]] eqn:E; simpl.
  - intros Hgx. pose proof (Hs x (MkDecoder b1 (Some e))) as Hx. rewrite Hgx in Hx.
    specialize (Hx ltac:(done)). by inversion Hx.
  - intros Hgx. apply (Hf _ _ _ ext) in E. rewrite E. simpl. by apply Hg.
Qed.

#[export] Instance sticky_get_err : Sticky get_err.
Proof. done. Qed.
#[export] Instance extends_get_err : Extends get_err.
Proof. by intros b x b' ext [= <- <-]. Qed.

#[export] Instance sticky_bytes n what : Sticky (bytes n what).
Proof. intros [b [e|]]; done. Qed.

#[export] Instance extends_bytes n what : Extends (bytes n what).
Proof.
  intros b x b' ext. unfold bytes; simpl.
  destruct (Z.ltb_spec n 0); simpl; [done|].
  destruct (Z.ltb_spec (Z.of_nat (length b)) n); [done|]. intros [= <- <-].
  destruct (Z.ltb_spec (Z.of_nat (length (b ++ ext))) n) as [Hl|].
  { rewrite length_app in Hl. lia. }
  by rewrite take_app_le, drop_app_le by lia.
Qed.

#[export] Instance sticky_uvarint what : Sticky (uvarint what).
Proof. intros [b [e|]]; done. Qed.

#[export] Instance extends_uvarint what : Extends (uvarint what).
Proof.
  intros b x b' ext. unfold uvarint; simpl.
  destruct (Uvarint b) as [v n] eqn:E. destruct (Z.leb_spec n 0); [done|]. intros [= <- <-].
  apply Uvarint_read in E as [? E]; [|done]. rewrite E.
  destruct (Z.leb_spec n 0); [lia|]. by rewrite drop_app_le by lia.
Qed.

#[export] Instance sticky_varint what : Sticky (varint what).
Proof. intros [b [e|]]; done. Qed.

#[export] Instance extends_varint what : Extends (varint what).
Proof.
  intros b x b' ext. unfold varint, Varint; simpl.
  destruct (Uvarint b) as [v n] eqn:E. destruct (Z.leb_spec n 0); [done|]. intros [= <- <-].
  apply Uvarint_read in E as [? E]; [|done]. rewrite E.
  destruct (Z.leb_spec n 0); [lia|]. by rewrite drop_app_le by lia.
Qed.

#[export] Instance sticky_exceeds n k what : Sticky (exceeds n k what).
Proof. intros [b [e|]] Hd; [|done]. unfold exceeds, fail. simpl. by destruct (_ <? _). Qed.

Lemma extends_exceeds n k what : 0 < k -> Extends (exceeds n k what).
Proof.
  intros Hk b x b' ext. unfold exceeds; simpl.
  destruct (Z.ltb_spec (Z.of_nat (length b) / k) n); [done|]. intros [= <- <-].
  assert (Z.of_nat (length b) / k <= Z.of_nat (length (b ++ ext)) / k).
  { apply Z.div_le_mono; [done|]. rewrite length_app. lia. }
  destruct (Z.ltb_spec (Z.of_nat (length (b ++ ext)) / k) n); [lia|done].
Qed.
#[export] Hint Extern 1 (Extends (exceeds _ _ _)) => apply extends_exceeds; lia : typeclass_instances.

(** Every method is built from these by binds, matches and conditionals. *)
Ltac method :=
  repeat first
    [ typeclasses eauto
    | apply sticky_bind; [|intros ?]
    | apply extends_bind; [|intros ?|intros ?]
    | case_match ].

#[export] Instance sticky_byte what : Sticky (byte_ what).
Proof. unfold byte_. method. Qed.
#[export] Instance extends_byte what : Extends (byte_ what).
Proof. unfold byte_. method. Qed.
#[export] Instance sticky_string what : Sticky (string_ what).
Proof. unfold string_. method. Qed.
#[export] Instance extends_string what : Extends (string_ what).
Proof. unfold string_. method. Qed.

#[export] Instance sticky_attribute_value kind what : Sticky (attribute_value kind what).
Proof. destruct kind; simpl; try method; by intros [b [e|]]. Qed.
#[export] Instance extends_attribute_value kind what : Extends (attribute_value kind what).
Proof. destruct kind; simpl; try method; by intros b x b' ext. Qed.

#[export] Instance sticky_attributes_loop n what out : Sticky (attributes_loop n what out).
Proof. revert out. induction n; intros out; simpl; method. Qed.
#[export] Instance extends_attributes_loop n what out : Extends (attributes_loop n what out).
Proof. revert out. induction n; intros out; simpl; method. Qed.
#[export] Instance sticky_attributes what : Sticky (attributes what).
Proof. unfold attributes. method. Qed.
#[export] Instance extends_attributes what : Extends (attributes what).
Proof. unfold attributes. method. Qed.
#[export] Instance sticky_array n what : Sticky (array_ n what).
Proof. unfold array_. method. Qed.
#[export] Instance extends_array n what : Extends (array_ n what).
Proof. unfold array_. method. Qed.
#[export] Instance sticky_fields : Sticky decode_fields.
Proof. unfold decode_fields. method. Qed.
#[export] Instance extends_fields : Extends decode_fields.
Proof. unfold decode_fields. method. Qed.

(** ** Every encoder only appends *)

Lemma appendString_app b s : appendString b s = b ++ appendString [] s.
Proof. unfold appendString, AppendUvarint. simpl. by rewrite <- app_assoc. Qed.

Lemma AppendVarint_app b x : AppendVarint b x = b ++ AppendVarint [] x.
Proof. done. Qed.

Lemma appendAttribute_app b kv : appendAttribute b kv = b ++ appendAttribute [] kv.
Proof.
  unfold appendAttribute. rewrite (appendString_app b).
  destruct (Value.Kind (Value.Val kv)); repeat case_match; rewrite <- ?app_assoc; try done.
  - rewrite (appendString_app (b ++ _)), (appendString_app (appendString [] _ ++ _)).
    by rewrite <- !app_assoc.
  - rewrite (AppendVarint_app (b ++ _)), (AppendVarint_app (appendString [] _ ++ _)).
    by rewrite <- !app_assoc.
Qed.

Definition attribute_list_bytes (kvs : list KeyValue) : list byte :=
  kvs ≫= appendAttribute [].

Lemma appendAttributes_app b kvs :
  appendAttributes b kvs =
  b ++ uvarint_bytes MaxVarintLen64 (Z.of_nat (length kvs)) ++ attribute_list_bytes kvs.
Proof.
  unfold appendAttributes, AppendUvarint. rewrite app_assoc.
  generalize (b ++ uvarint_bytes MaxVarintLen64 (Z.of_nat (length kvs))). clear b.
  induction kvs as [|kv kvs IH]; intros b; simpl; [by rewrite app_nil_r|].
  rewrite IH, appendAttribute_app. by rewrite <- app_assoc.
Qed.

(** ** What is encodable

    The wire lengths are unsigned 64-bit numbers and the wire times signed
    ones; a Go string or slice always satisfies the first two bounds. *)
Definition small_string (s : string) : Prop := in_uint64 (Z.of_nat (String.length s)).

Record encodable_kv (kv : KeyValue) : Prop := {
  enc_key : small_string (Key kv);
  enc_val : Value.wf (Value.Val kv);
  enc_str : small_string (Value.str (Value.Val kv));
}.

Record encodable (s : Span) : Prop := {
  enc_name : small_string (Name s);
  enc_service : small_string (Service s);
  enc_message : small_string (Message (Status_ s));
  enc_start : in_int64 (Start s);
  enc_end : in_int64 (End_ s);
  enc_attrs : Forall encodable_kv (Attributes s);
  enc_nattrs : in_uint64 (Z.of_nat (length (Attributes s)));
  enc_res : Forall encodable_kv (Resource s);
  enc_nres : in_uint64 (Z.of_nat (length (Resource s)));
}.

(** ** Each method reads what its encoder wrote *)

Lemma reads_bytes n l what : Z.of_nat (length l) = n -> Reads (bytes n what) l (Some l).
Proof.
  intros <- rest. unfold bytes, dstate; simpl.
  destruct (Z.ltb_spec (Z.of_nat (length l)) 0); [lia|]. simpl.
  destruct (Z.ltb_spec (Z.of_nat (length (l ++ rest))) (Z.of_nat (length l))) as [Hl|].
  { rewrite length_app in Hl. lia. }
  by rewrite Nat2Z.id, take_app_length, drop_app_length.
Qed.

Lemma reads_byte b what : Reads (byte_ what) [b] b.
Proof. apply reads_bind_ret with (x := Some [b]), reads_bytes. done. Qed.

Lemma reads_array {n} (v : vec byte n) what : Reads (array_ n what) v v.
Proof.
  intros rest. unfold array_.
  erewrite bind_step; [|apply reads_bytes; by rewrite length_vec_to_list].
  simpl. by rewrite copy_bytes_vec.
Qed.

Lemma reads_uvarint x what :
  in_uint64 x -> Reads (uvarint what) (uvarint_bytes MaxVarintLen64 x) x.
Proof.
  intros Hx rest. unfold uvarint, dstate; simpl. rewrite Uvarint_bytes by done.
  pose proof (uvarint_bytes_nonempty x).
  destruct (Z.leb_spec (Z.of_nat (length (uvarint_bytes MaxVarintLen64 x))) 0).
  { destruct (uvarint_bytes MaxVarintLen64 x); simpl in *; [done|lia]. }
  by rewrite Nat2Z.id, drop_app_length.
Qed.

Lemma reads_varint x what : in_int64 x -> Reads (varint what) (AppendVarint [] x) x.
Proof.
  intros Hx rest. pose proof (reads_uvarint (zigzag x) what (zigzag_range x) rest) as H.
  unfold uvarint, varint, Varint, dstate, AppendVarint, AppendUvarint in *. simpl in *.
  destruct (Uvarint _) as [v n]. destruct (n <=? 0).
  - exfalso. unfold fail in H. simpl in H. congruence.
  - injection H as -> H. by rewrite H, unzigzag_zigzag.
Qed.

Lemma length_list_byte_of_string s : length (list_byte_of_string s) = String.length s.
Proof. induction s; simpl; auto. Qed.

(** The guard on a length or a count does not fire when enough is left. *)
Lemma exceeds_false n k what b :
  n <= Z.of_nat (length b) / k -> exceeds n k what (dstate b) = (false, dstate b).
Proof.
  intros Hn. unfold exceeds, dstate; simpl.
  by destruct (Z.ltb_spec (Z.of_nat (length b) / k) n); [lia|].
Qed.

Lemma reads_string s what : small_string s -> Reads (string_ what) (appendString [] s) s.
Proof.
  intros Hs rest. unfold string_, appendString, AppendUvarint.
  cbn [app]. rewrite <- app_assoc. step reads_uvarint.
  erewrite bind_step by (apply exceeds_false;
    rewrite Z.div_1_r, length_app, length_list_byte_of_string; lia).
  cbv match.
  erewrite bind_step; [|apply reads_bytes; by rewrite length_list_byte_of_string].
  cbv [mret dec_ret default from_option id]. by rewrite string_of_list_byte_of_string.
Qed.
#[export] Hint Resolve reads_byte reads_array reads_uvarint reads_varint reads_string : codec.

Lemma reads_attribute_value v what :
  Value.wf v -> small_string (Value.str v) ->
  Reads (attribute_value (Value.Kind v) what)
    (match Value.Kind v with
     | x01 => appendString [] (Value.AsString v).1
     | x02 => if (Value.AsBool v).1 then [x01] else [x00]
     | x03 => AppendVarint [] (Value.AsInt v).1
     | x04 => le_bytes 8 (Float64bits (Value.AsFloat v).1)
     | _ => []
     end) v.
Proof.
  intros Hv Hs rest. pose proof Hv as Hwf. destruct Hv as [|s|b|i Hi|f Hf].
  - done.
  - pose proof (proj2 (Value.as_string_ok _ s Hwf) eq_refl) as E.
    change (Value.Kind (Value.StringValue s)) with x01. cbv match. rewrite E.
    unfold attribute_value. by step reads_string.
  - pose proof (proj2 (Value.as_bool_ok _ b Hwf) eq_refl) as E.
    change (Value.Kind (Value.BoolValue b)) with x02. cbv match. rewrite E.
    unfold attribute_value. destruct b; by step reads_byte.
  - pose proof (proj2 (Value.as_int_ok _ i Hwf Hi) eq_refl) as E.
    change (Value.Kind (Value.IntValue i)) with x03. cbv match. rewrite E.
    unfold attribute_value. by step reads_varint.
  - pose proof (proj2 (Value.as_float_ok _ f Hwf) eq_refl) as E.
    change (Value.Kind (Value.FloatValue f)) with x04. cbv match. rewrite E.
    unfold attribute_value. erewrite bind_step by (apply reads_bytes; by rewrite length_le_bytes).
    cbv match. rewrite le_value_bytes_id; [by destruct f|].
    unfold in_uint64, two64 in Hf. destruct f; simpl in *. lia.
Qed.

Lemma appendAttribute_nil kv :
  appendAttribute [] kv =
  appendString [] (Key kv) ++ [Value.Kind (Value.Val kv)] ++
    (match Value.Kind (Value.Val kv) with
     | x01 => appendString [] (Value.AsString (Value.Val kv)).1
     | x02 => if (Value.AsBool (Value.Val kv)).1 then [x01] else [x00]
     | x03 => AppendVarint [] (Value.AsInt (Value.Val kv)).1
     | x04 => le_bytes 8 (Float64bits (Value.AsFloat (Value.Val kv)).1)
     | _ => []
     end).
Proof.
  unfold appendAttribute. destruct (Value.Kind (Value.Val kv)); repeat case_match;
    rewrite ?(appendString_app (_ ++ [_])), ?(AppendVarint_app (_ ++ [_])), <- ?app_assoc; done.
Qed.

Lemma reads_attributes_loop kvs what out :
  Forall encodable_kv kvs ->
  Reads (attributes_loop (length kvs) what out) (attribute_list_bytes kvs) (out ++ kvs).
Proof.
  intros Hkvs. revert out. induction Hkvs as [|kv kvs [Hk Hv Hs] _ IH]; intros out.
  - rewrite app_nil_r. apply reads_ret.
  - cbn [attributes_loop length attribute_list_bytes mbind list_bind].
    rewrite appendAttribute_nil, <- !app_assoc.
    eapply reads_bind; [by apply reads_string|].
    eapply reads_bind; [by apply reads_byte|].
    eapply reads_bind; [by apply reads_attribute_value|].
    intros rest. erewrite bind_step by done. cbn [dstate err].
    rewrite (IH (out ++ [_]) rest), <- app_assoc. by destruct kv.
Qed.

(** Every attribute takes at least two bytes, which is the bound the decoder
    checks a count against. *)
Lemma attribute_list_bytes_length kvs :
  (2 * length kvs <= length (attribute_list_bytes kvs))%nat.
Proof.
  induction kvs as [|kv kvs IH]; simpl; [lia|].
  fold (attribute_list_bytes kvs). rewrite appendAttribute_nil, !length_app.
  assert (1 <= length (appendString [] (Key kv)))%nat; [|simpl; lia].
  unfold appendString, AppendUvarint. rewrite !length_app.
  pose proof (uvarint_bytes_nonempty (Z.of_nat (String.length (Key kv)))).
  destruct (uvarint_bytes _ _); simpl; [done|lia].
Qed.

Lemma reads_attributes kvs what :
  Forall encodable_kv kvs -> in_uint64 (Z.of_nat (length kvs)) ->
  Reads (attributes what) (appendAttributes [] kvs) kvs.
Proof.
  intros Hkvs Hn rest. rewrite appendAttributes_app. cbn [app]. unfold attributes.
  rewrite <- app_assoc. step reads_uvarint.
  erewrite bind_step by done. cbn [dstate err].
  destruct (Z.eqb_spec (Z.of_nat (length kvs)) 0); [by destruct kvs|].
  pose proof (attribute_list_bytes_length kvs).
  erewrite bind_step by (apply exceeds_false; rewrite length_app; apply Z.div_le_lower_bound; lia).
  cbv match.
  rewrite Nat2Z.id. by apply (reads_attributes_loop kvs what []).
Qed.
#[export] Hint Resolve reads_attributes : codec.

(** The field part of an encoding: everything after the version byte. *)
Definition field_bytes (s : Span) : list byte :=
  TraceID_ s ++ SpanID_ s ++ ParentSpanID s ++ appendString [] (Name s) ++ [Kind s] ++
  appendString [] (Service s) ++ AppendVarint [] (Time.UnixNano (Start s)) ++
  AppendVarint [] (Time.UnixNano (End_ s)) ++ [Code (Status_ s)] ++
  appendString [] (Message (Status_ s)) ++ appendAttributes [] (Attributes s) ++
  appendAttributes [] (Resource s).

Lemma appendAttributes_nil b kvs : appendAttributes b kvs = b ++ appendAttributes [] kvs.
Proof. by rewrite (appendAttributes_app b), (appendAttributes_app []). Qed.

Lemma encodeSpan_app b s : encodeSpan b s = b ++ codecVersion :: field_bytes s.
Proof.
  unfold encodeSpan, field_bytes.
  rewrite (appendAttributes_nil _ (Resource s)), (appendAttributes_nil _ (Attributes s)),
    (appendString_app _ (Message (Status_ s))), (AppendVarint_app _ (Time.UnixNano (End_ s))),
    (AppendVarint_app _ (Time.UnixNano (Start s))), (appendString_app _ (Service s)),
    (appendString_app _ (Name s)).
  by rewrite <- !app_assoc.
Qed.

Lemma reads_fields s : encodable s -> Reads decode_fields (field_bytes s) s.
Proof.
  intros [] rest. unfold field_bytes, decode_fields, Time.UnixNano.
  rewrite <- !app_assoc, !int64_id by done.
  do 3 step (@reads_array).
  do 1 step reads_string. step reads_byte. step reads_string.
  step reads_varint. step reads_varint. step reads_byte. step reads_string.
  step reads_attributes. step reads_attributes. by destruct s as [????????[]??].
Qed.

(** [decodeSpan] on a buffer that starts with the version byte. *)
Lemma decodeSpan_version p :
  decodeSpan (codecVersion :: p) =
  let '(s, d) := decode_fields (dstate p) in
  match err d with
  | Some e => Err e
  | None => if negb (Z.of_nat (length (buf d)) =? 0)
            then Err (ErrTrailing (Z.of_nat (length (buf d)))) else Ok s
  end.
Proof.
  unfold decodeSpan. pose proof (reads_byte codecVersion "version" p) as E.
  unfold dstate in E. cbn [app] in E. by rewrite E.
Qed.

Lemma decode_encode_app s rest :
  encodable s ->
  decodeSpan (encodeSpan [] s ++ rest) =
    if decide (rest = []) then Ok s else Err (ErrTrailing (Z.of_nat (length rest))).
Proof.
  intros Hs. rewrite encodeSpan_app. cbn [app].
  rewrite decodeSpan_version, (reads_fields s Hs rest). cbn [err buf dstate].
  case_decide as Hr; [by subst|]. destruct rest; [done|].
  destruct (Z.eqb_spec (Z.of_nat (length (b :: rest))) 0); [simpl in *; lia|done].
Qed.

(** What a successful decode says about the buffer. *)
Lemma decodeSpan_ok_inv p s :
  decodeSpan p = Ok s ->
  exists p', p = codecVersion :: p' /\ decode_fields (dstate p') = (s, dstate []).
Proof.
  destruct p as [|v p]; [done|].
  unfold decodeSpan. pose proof (reads_byte v "version" p) as E.
  unfold dstate in E. cbn [app] in E. rewrite E. cbn [err].
  rewrite bool_decide_true by done. case_bool_decide as Hv; [|done]. subst v. simpl.
  destruct (decode_fields _) as [s' [b [e|]]] eqn:Ef; simpl; [done|].
  destruct (Z.eqb_spec (Z.of_nat (length b)) 0); [|done]. intros [= ->].
  destruct b; [by exists p|done].
Qed.

Lemma decodeSpan_extension p s ext :
  decodeSpan p = Ok s -> ext <> [] ->
  decodeSpan (p ++ ext) = Err (ErrTrailing (Z.of_nat (length ext))).
Proof.
  intros (p' & -> & Hf)%decodeSpan_ok_inv Hext. cbn [app].
  rewrite decodeSpan_version, (extends_fields _ _ _ ext Hf). cbn [err buf dstate app].
  destruct ext; [done|]. by destruct (Z.eqb_spec (Z.of_nat (length (b :: ext))) 0).
Qed.

(** ** Whatever decodes is well formed *)

(** [f], when it succeeds, returns something that satisfies [P]. *)
Definition Ensures {A} (P : A -> Prop) (f : dec A) : Prop :=
  forall b x b', f (dstate b) = (x, dstate b') -> P x.

Lemma ensures_ret {A} (P : A -> Prop) x : P x -> Ensures P (mret x).
Proof. by intros Hx b y b' [= <- _]. Qed.

Lemma ensures_bind {A B} (Q : A -> Prop) (P : B -> Prop) (f : dec A) (g : A -> dec B) :
  Ensures Q f -> (forall x, Sticky (g x)) -> (forall x, Q x -> Ensures P (g x)) -> Ensures P (f ≫= g).
Proof.
  intros Hf Hs Hg b y b'. rewrite bind_unfold.
  destruct (f (dstate b)) as [x [b1 [e|]]] eqn:E; simpl.
  - intros Hgx. pose proof (Hs x (MkDecoder b1 (Some e))) as Hx. rewrite Hgx in Hx.
    specialize (Hx ltac:(done)). by inversion Hx.
  - apply Hg. by eapply Hf.
Qed.

Lemma ensures_weaken {A} (P Q : A -> Prop) (f : dec A) :
  Ensures P f -> (forall x, P x -> Q x) -> Ensures Q f.
Proof. intros Hf Hpq b x b' E. eapply Hpq, Hf, E. Qed.

Lemma ensures_True {A} (f : dec A) : Ensures (fun _ => True) f.
Proof. done. Qed.

Lemma ensures_uvarint what : Ensures in_uint64 (uvarint what).
Proof.
  intros b x b'. unfold uvarint; simpl. pose proof (Uvarint_range b) as Hr.
  destruct (Uvarint b) as [v n]. destruct (n <=? 0); [done|]. by intros [= <- _].
Qed.

Lemma ensures_varint what : Ensures in_int64 (varint what).
Proof.
  intros b x b'. unfold varint, Varint; simpl.
  destruct (Uvarint b) as [v n]. destruct (n <=? 0); [done|]. intros [= <- _]. apply unzigzag_range.
Qed.

Lemma ensures_bytes n what :
  Ensures (fun o => exists l, o = Some l /\ Z.of_nat (length l) = n) (bytes n what).
Proof.
  intros b x b'. unfold bytes; simpl.
  destruct (Z.ltb_spec n 0); simpl; [done|].
  destruct (Z.ltb_spec (Z.of_nat (length b)) n); [done|]. intros [= <- _].
  eexists. split; [done|]. rewrite length_take. lia.
Qed.

Lemma length_string_of_list_byte l : String.length (string_of_list_byte l) = length l.
Proof. induction l; simpl; auto. Qed.

Lemma ensures_string what : Ensures small_string (string_ what).
Proof.
  unfold string_. eapply ensures_bind; [apply ensures_uvarint|intros; method|].
  intros n Hn. eapply ensures_bind; [apply ensures_True|intros; method|].
  intros [] _; [by apply ensures_ret|].
  eapply ensures_bind; [apply ensures_bytes|intros; method|].
  intros o (l & -> & Hl). apply ensures_ret. unfold small_string. cbn [default from_option id].
  by rewrite length_string_of_list_byte, Hl.
Qed.

Lemma ensures_attribute_value kind what :
  Ensures (fun v => Value.wf v /\ small_string (Value.str v)) (attribute_value kind what).
Proof.
  assert (small_string "") by done.
  destruct kind; try (apply ensures_ret; split; [constructor|done]); try by intros b x b'.
  - eapply ensures_bind; [apply ensures_string|intros; method|].
    intros s Hs. apply ensures_ret. split; [constructor|done].
  - eapply ensures_bind; [apply ensures_True|intros; method|].
    intros s _. apply ensures_ret. split; [constructor|done].
  - eapply ensures_bind; [apply ensures_varint|intros; method|].
    intros i Hi. apply ensures_ret. split; [by constructor|done].
  - eapply ensures_bind; [apply ensures_bytes|intros; method|].
    intros o (l & -> & Hl). apply ensures_ret. split; [constructor|done].
    pose proof (le_value_bound l) as Hb. rewrite Hl in Hb. exact Hb.
Qed.

Lemma ensures_attributes_loop n what out :
  Forall encodable_kv out ->
  Ensures (fun kvs => Forall encodable_kv kvs /\ (length kvs <= length out + n)%nat)
    (attributes_loop n what out).
Proof.
  revert out. induction n as [|n IH]; intros out Hout; simpl.
  { apply ensures_ret. split; [done|lia]. }
  eapply ensures_bind; [apply ensures_string|intros; method|]. intros key Hkey.
  eapply ensures_bind; [apply ensures_True|intros; method|]. intros kind _.
  eapply ensures_bind; [apply ensures_attribute_value|intros; method|]. intros v [Hv Hs].
  eapply ensures_bind; [apply ensures_True|intros; method|]. intros [e|] _.
  { apply ensures_ret. split; [constructor|simpl; lia]. }
  eapply ensures_weaken; [apply IH|].
  - apply Forall_app. split; [done|]. apply Forall_singleton. by split.
  - intros kvs. rewrite length_app. simpl. intros [? ?]. split; [done|lia].
Qed.

Lemma ensures_attributes what :
  Ensures (fun kvs => Forall encodable_kv kvs /\ in_uint64 (Z.of_nat (length kvs))) (attributes what).
Proof.
  assert (Forall encodable_kv [] /\ in_uint64 0) by (split; [constructor|done]).
  unfold attributes. eapply ensures_bind; [apply ensures_uvarint|intros; method|]. intros n Hn.
  eapply ensures_bind; [apply ensures_True|intros; method|]. intros [e|] _; [by apply ensures_ret|].
  destruct (n =? 0); [by apply ensures_ret|].
  eapply ensures_bind; [apply ensures_True|intros; method|]. intros [] _; [by apply ensures_ret|].
  eapply ensures_weaken; [by apply ensures_attributes_loop|].
  intros kvs [? Hl]. split; [done|]. unfold in_uint64 in *. simpl in Hl. lia.
Qed.

Lemma ensures_fields : Ensures encodable decode_fields.
Proof.
  unfold decode_fields.
  do 3 (eapply ensures_bind; [apply ensures_True|intros; method|intros ? _]).
  eapply ensures_bind; [apply ensures_string|intros; method|intros ? ?].
  eapply ensures_bind; [apply ensures_True|intros; method|intros ? _].
  eapply ensures_bind; [apply ensures_string|intros; method|intros ? ?].
  do 2 (eapply ensures_bind; [apply ensures_varint|intros; method|intros ? ?]).
  eapply ensures_bind; [apply ensures_True|intros; method|intros ? _].
  eapply ensures_bind; [apply ensures_string|intros; method|intros ? ?].
  do 2 (eapply ensures_bind; [apply ensures_attributes|intros; method|intros ? [? ?]]).
  apply ensures_ret. by split.
Qed.

Lemma decodeSpan_encodable p s : decodeSpan p = Ok s -> encodable s.
Proof. intros (p' & _ & Hf)%decodeSpan_ok_inv. by eapply ensures_fields. Qed.

Lemma decode_encode s : encodable s -> decodeSpan (encodeSpan [] s) = Ok s.
Proof.
  intros Hs. pose proof (decode_encode_app s [] Hs) as E. by rewrite app_nil_r in E.
Qed.

Lemma sample_encodable : encodable sample_span.
Proof.
  split; try (vm_compute; by split); [|constructor].
  repeat (apply Forall_cons; split); [..|constructor]; (split; [vm_compute; by split| |vm_compute; by split]).
  - apply Value.wf_string.
  - apply Value.wf_int. vm_compute. by split.
  - apply Value.wf_bool.
Qed.

(** ** Properties *)

(** C20: decoding the encoding of a span gives the span back, field by field,
    for every span whose times fit in 64-bit nanoseconds, whose values are
    ones the constructors build, and whose strings and lists have 64-bit
    lengths. *)
Theorem codec_roundtrip (s : Span) :
  encodable s -> decodeSpan (encodeSpan [] s) = Ok s.
Proof. apply decode_encode. Qed.

Example codec_roundtrip_witness :
  encodable sample_span /\ decodeSpan (encodeSpan [] sample_span) = Ok sample_span.
Proof.
  split; [exact sample_encodable|]. exact (codec_roundtrip sample_span sample_encodable).
Defined.

(** No accepted record is a proper prefix of another: cutting an accepted
    record anywhere makes the decoder refuse it, and appending anything to it
    is reported as trailing bytes.  This is what lets replay tell a torn tail
    from a record that happens to end early. *)
Theorem codec_prefix_free (p ext : list byte) (s : Span) :
  ext <> [] ->
  (decodeSpan (p ++ ext) = Ok s -> exists e, decodeSpan p = Err e) /\
  (decodeSpan p = Ok s -> decodeSpan (p ++ ext) = Err (ErrTrailing (Z.of_nat (length ext)))).
Proof.
  intros Hext. split; [|by intros; eapply decodeSpan_extension].
  intros Hfull. destruct (decodeSpan p) as [s'|e] eqn:E; [|by exists e].
  by rewrite (decodeSpan_extension _ _ _ E Hext) in Hfull.
Qed.

Example codec_prefix_free_witness :
  exists e, decodeSpan (take 40 (encodeSpan [] sample_span)) = Err e.
Proof.
  refine (proj1 (codec_prefix_free (take 40 (encodeSpan [] sample_span))
            (drop 40 (encodeSpan [] sample_span)) sample_span _) _).
  - vm_compute. discriminate.
  - rewrite take_drop. vm_compute. reflexivity.
Defined.

(** C21: whatever bytes decode, the span they give is one the encoder can
    write, and writing it and reading it again gives the same span: a record
    that was read once is never lost by being rewritten. *)
Theorem decoded_spans_reencode (p : list byte) (s : Span) :
  decodeSpan p = Ok s -> encodable s /\ decodeSpan (encodeSpan [] s) = Ok s.
Proof.
  intros Hs%decodeSpan_encodable. split; [done|]. by apply decode_encode.
Qed.

Example decoded_spans_reencode_witness :
  encodable sample_span.
Proof.
  refine (proj1 (decoded_spans_reencode (encodeSpan [] sample_span) sample_span _)).
  vm_compute. reflexivity.
Defined.
