(* ===== verification/Otlp.v ===== *)
(** * Translation from the wire: [internal/otlp/translate.go]

    The protobuf messages are generated code outside the repository: a [Proto]
    gives their types, the getters the translation calls, and
    [protojson.Marshal].  The oneof of an attribute value and the two
    enumerations are the cases the translation distinguishes. *)

From S2P Require Import Prelude GoTime GoBytes Ident Value Span Codec.

(** ** The messages *)

Inductive any_value :=
| AnyValue_StringValue (s : string)
| AnyValue_BoolValue (b : bool)
| AnyValue_IntValue (i : Z)
| AnyValue_DoubleValue (f : float64)
| AnyValue_BytesValue (b : list byte)
| AnyValue_ArrayValue
| AnyValue_KvlistValue
| AnyValue_None.

Inductive span_kind :=
| SPAN_KIND_INTERNAL | SPAN_KIND_SERVER | SPAN_KIND_CLIENT | SPAN_KIND_PRODUCER | SPAN_KIND_CONSUMER
| SPAN_KIND_OTHER.

Inductive status_code := STATUS_CODE_OK | STATUS_CODE_ERROR | STATUS_CODE_OTHER.

Class Proto : Type := {
  PResourceSpans : Type;
  PScopeSpans : Type;
  PSpan : Type;
  PKeyValue : Type;
  PAnyValue : Type;
  GetResourceAttributes : PResourceSpans -> list PKeyValue;
  GetScopeSpans : PResourceSpans -> list PScopeSpans;
  GetSpans : PScopeSpans -> list PSpan;
  GetTraceId : PSpan -> list byte;
  GetSpanId : PSpan -> list byte;
  GetParentSpanId : PSpan -> list byte;
  GetName : PSpan -> string;
  GetKind : PSpan -> span_kind;
  GetStartTimeUnixNano : PSpan -> Z;
  GetEndTimeUnixNano : PSpan -> Z;
  GetStatusCode : PSpan -> status_code;
  GetStatusMessage : PSpan -> string;
  GetAttributes : PSpan -> list PKeyValue;
  GetKey : PKeyValue -> string;
  GetValue : PKeyValue -> PAnyValue;
  oneof : PAnyValue -> any_value;
  Marshal : PAnyValue -> option (list byte);
}.

(** Go's types bound what the getters return: strings and slices have an [int]
    length, numbers their width. *)
Definition go_len {A} (l : list A) : Prop := Z.of_nat (length l) < 2 ^ 62.
Definition go_string (s : string) : Prop := Z.of_nat (String.length s) < 2 ^ 63.

Definition go_any_value (v : any_value) : Prop :=
  match v with
  | AnyValue_StringValue s => go_string s
  | AnyValue_IntValue i => in_int64 i
  | AnyValue_DoubleValue f => in_uint64 (Float64bits f)
  | AnyValue_BytesValue b => go_len b
  | _ => True
  end.

Class ProtoTypes `{Proto} : Prop := {
  go_names ps : go_string (GetName ps) /\ go_string (GetStatusMessage ps);
  go_times ps : in_uint64 (GetStartTimeUnixNano ps) /\ in_uint64 (GetEndTimeUnixNano ps);
  go_attributes ps : go_len (GetAttributes ps);
  go_resource rs : go_len (GetResourceAttributes rs);
  go_keys kv : go_string (GetKey kv);
  go_values v : go_any_value (oneof v);
  go_marshal v b : Marshal v = Some b -> go_len b;
}.

(** ** Translation *)

Section translate.
Context `{Proto}.

Definition unknownService : string := "unknown_service".
Definition serviceNameKey : string := "service.name".

Inductive otlp_error :=
| ErrBadIDLength (what : string) (got want : nat)
| ErrInvalid (e : span_error).

(** [type Rejection struct]. *)
Record Rejection : Type := MkRejection { Index : Z; RErr : otlp_error }.

(** [func copyID(dst, src []byte, what string) error], for an identifier of
    [n] bytes. *)
Definition copyID (n : nat) (src : list byte) (what : string) : result otlp_error (vec byte n) :=
  match decide (length src = n) with
  | left e => Ok (eq_rect _ (vec byte) (list_to_vec src) _ e)
  | right _ => Err (ErrBadIDLength what (length src) n)
  end.

(** [func unixNano(n uint64) time.Time]. *)
Definition unixNano (n : Z) : Time := if n =? 0 then Time.zero else Time.ofUnixNano (int64 n).

(** [func serviceName(resource []trace.KeyValue) string]. *)
Fixpoint serviceName (resource : list KeyValue) : string :=
  match resource with
  | [] => unknownService
  | kv :: resource =>
      if negb (bool_decide (Key kv = serviceNameKey)) then serviceName resource
      else
        let '(s, ok) := Value.AsString (Value.Val kv) in
        if (ok : bool) && negb (bool_decide (s = ""%string)) then s else serviceName resource
  end.

(** [func value(v *commonpb.AnyValue) trace.Value]. *)
Definition value (v : PAnyValue) : Value.Value :=
  match oneof v with
  | AnyValue_StringValue s => Value.StringValue s
  | AnyValue_BoolValue b => Value.BoolValue b
  | AnyValue_IntValue i => Value.IntValue i
  | AnyValue_DoubleValue f => Value.FloatValue f
  | AnyValue_BytesValue b => Value.StringValue (string_of_list_byte (Hex.EncodeToString b))
  | AnyValue_ArrayValue | AnyValue_KvlistValue =>
      match Marshal v with
      | None => Value.zero
      | Some b => Value.StringValue (string_of_list_byte b)
      end
  | AnyValue_None => Value.zero
  end.

(** [func keyValues(in []*commonpb.KeyValue) []trace.KeyValue]. *)
Definition keyValues (l : list PKeyValue) : list KeyValue :=
  (fun kv => Value.MkKeyValue (GetKey kv) (value (GetValue kv))) <$> l.

(** [func spanKind] and [func statusCode]. *)
Definition spanKind (k : span_kind) : SpanKind :=
  match k with
  | SPAN_KIND_INTERNAL => SpanInternal
  | SPAN_KIND_SERVER => SpanServer
  | SPAN_KIND_CLIENT => SpanClient
  | SPAN_KIND_PRODUCER => SpanProducer
  | SPAN_KIND_CONSUMER => SpanConsumer
  | SPAN_KIND_OTHER => SpanUnspecified
  end.

Definition statusCode (c : status_code) : StatusCode :=
  match c with
  | STATUS_CODE_OK => StatusOK
  | STATUS_CODE_ERROR => StatusError
  | STATUS_CODE_OTHER => StatusUnset
  end.

(** [func translateSpan(ps, service, resource) (trace.Span, error)]. *)
Definition translateSpan (ps : PSpan) (service : string) (resource : list KeyValue) : result otlp_error Span :=
  match copyID 16 (GetTraceId ps) "trace" with
  | Err e => Err e
  | Ok traceID =>
      match copyID 8 (GetSpanId ps) "span" with
      | Err e => Err e
      | Ok spanID =>
          match (match GetParentSpanId ps with
                 | [] => Ok (ParentSpanID zeroSpan)
                 | parent => copyID 8 parent "parent span"
                 end) with
          | Err e => Err e
          | Ok parentSpanID =>
              Ok (MkSpan traceID spanID parentSpanID (GetName ps) (spanKind (GetKind ps)) service
                    (unixNano (GetStartTimeUnixNano ps)) (unixNano (GetEndTimeUnixNano ps))
                    (MkStatus (statusCode (GetStatusCode ps)) (GetStatusMessage ps))
                    (keyValues (GetAttributes ps)) resource)
          end
      end
  end.

(** The body of the innermost loop of [Translate], on the spans, the
    rejections and the index so far. *)
Definition tstate : Type := list Span * list Rejection * Z.

Definition translate_one (service : string) (resource : list KeyValue) (st : tstate) (ps : PSpan) : tstate :=
  let '(spans, rejections, index) := st in
  let checked :=
    match translateSpan ps service resource with
    | Err e => Err e
    | Ok span => match Validate span with Some e => Err (ErrInvalid e) | None => Ok span end
    end in
  match checked with
  | Err e => (spans, rejections ++ [MkRejection index e], index + 1)
  | Ok span => (spans ++ [span], rejections, index + 1)
  end.

(** The body of the outer loop. *)
Definition translate_resource (st : tstate) (rs : PResourceSpans) : tstate :=
  let resource := keyValues (GetResourceAttributes rs) in
  let service := serviceName resource in
  foldl (fun st ss => foldl (translate_one service resource) st (GetSpans ss)) st (GetScopeSpans rs).

(** [func Translate(resourceSpans) ([]trace.Span, []Rejection)]. *)
Definition Translate (resourceSpans : list PResourceSpans) : list Span * list Rejection :=
  let '(spans, rejections, _) := foldl translate_resource ([], [], 0) resourceSpans in
  (spans, rejections).

(** ** The reference translation *)

(** Every wire span of a request, in order, with its service and resource. *)
Definition wire_spans (resourceSpans : list PResourceSpans) : list (PSpan * string * list KeyValue) :=
  resourceSpans ≫= fun rs =>
    let resource := keyValues (GetResourceAttributes rs) in
    (GetScopeSpans rs ≫= GetSpans) ≫= fun ps => [(ps, serviceName resource, resource)].

(** The same with the resource block each span comes from. *)
Definition wire_blocks (resourceSpans : list PResourceSpans) : list (PResourceSpans * PSpan) :=
  resourceSpans ≫= fun rs => (GetScopeSpans rs ≫= GetSpans) ≫= fun ps => [(rs, ps)].

Definition in_block (w : PResourceSpans * PSpan) : PSpan * string * list KeyValue :=
  let resource := keyValues (GetResourceAttributes w.1) in (w.2, serviceName resource, resource).

Lemma wire_spans_blocks l : wire_spans l = in_block <$> wire_blocks l.
Proof.
  unfold wire_spans, wire_blocks. induction l as [|rs l IH]; [done|]. cbn [mbind list_bind].
  rewrite IH, fmap_app. f_equal. generalize (GetScopeSpans rs ≫= GetSpans). intros pss.
  induction pss as [|ps pss IHs]; [done|]. cbn [mbind list_bind app]. rewrite fmap_cons. f_equal. exact IHs.
Qed.

(** What becomes of a wire span. *)
Definition outcome (w : PSpan * string * list KeyValue) : result otlp_error Span :=
  let '(ps, service, resource) := w in
  match translateSpan ps service resource with
  | Err e => Err e
  | Ok span => match Validate span with Some e => Err (ErrInvalid e) | None => Ok span end
  end.

Definition accepted_span (w : PSpan * string * list KeyValue) : option Span :=
  match outcome w with Ok s => Some s | Err _ => None end.

(** The rejections of a list whose first index is [i]. *)
Fixpoint rejected_from (i : Z) (l : list (PSpan * string * list KeyValue)) : list Rejection :=
  match l with
  | [] => []
  | w :: l => match outcome w with
              | Ok _ => rejected_from (i + 1) l
              | Err e => MkRejection i e :: rejected_from (i + 1) l
              end
  end.

Definition run_from (st : tstate) (l : list (PSpan * string * list KeyValue)) : tstate :=
  let '(spans, rejections, index) := st in
  (spans ++ omap accepted_span l, rejections ++ rejected_from index l, index + zlen l).

Lemma run_from_app st l1 l2 : run_from st (l1 ++ l2) = run_from (run_from st l1) l2.
Proof.
  destruct st as [[spans rejections] index]. unfold run_from. rewrite omap_app, zlen_app, <-!app_assoc.
  f_equal; [do 2 f_equal|lia]. revert index. induction l1 as [|w l1 IH]; intros index; cbn [app rejected_from].
  - by rewrite Z.add_0_r.
  - assert (zlen (w :: l1) = 1 + zlen l1) as E by (unfold zlen; simpl; lia).
    rewrite E, Z.add_assoc. destruct (outcome w); cbn [app]; by rewrite IH.
Qed.

Lemma translate_spans service resource st l :
  foldl (translate_one service resource) st l = run_from st (l ≫= fun ps => [(ps, service, resource)]).
Proof.
  revert st. induction l as [|ps l IH]; intros st; cbn [foldl].
  - destruct st as [[spans rejections] index]. unfold run_from. simpl. by rewrite !app_nil_r, Z.add_0_r.
  - rewrite IH. change ((ps :: l) ≫= _) with ([(ps, service, resource)] ++ (l ≫= fun ps => [(ps, service, resource)])).
    rewrite run_from_app. f_equal. destruct st as [[spans rejections] index].
    unfold run_from, translate_one, accepted_span. cbn [omap list_omap rejected_from outcome].
    destruct (translateSpan ps service resource) as [s|e]; [destruct (Validate s)|]; simpl; by rewrite ?app_nil_r.
Qed.

Lemma translate_resources st l : foldl translate_resource st l = run_from st (wire_spans l).
Proof.
  revert st. induction l as [|rs l IH]; intros st; cbn [foldl].
  { destruct st as [[spans rejections] index]. unfold run_from. simpl. by rewrite !app_nil_r, Z.add_0_r. }
  rewrite IH. unfold wire_spans. cbn [mbind list_bind]. fold (wire_spans l). rewrite run_from_app. f_equal.
  unfold translate_resource. set (resource := keyValues _). set (service := serviceName _).
  generalize (GetScopeSpans rs) as sss. intros sss. revert st. induction sss as [|ss sss IHs]; intros st; cbn [foldl].
  { destruct st as [[spans rejections] index]. unfold run_from. simpl. by rewrite !app_nil_r, Z.add_0_r. }
  rewrite IHs, translate_spans, <-run_from_app. cbn [mbind list_bind]. by rewrite bind_app.
Qed.

Lemma Translate_reference l : Translate l = (omap accepted_span (wire_spans l), rejected_from 0 (wire_spans l)).
Proof. unfold Translate. by rewrite translate_resources. Qed.
End translate.

(** ** What translated spans satisfy *)

Section translated.
Context `{Proto} `{!ProtoTypes}.

Lemma go_string_small s : go_string s -> small_string s.
Proof. unfold go_string, small_string, in_uint64, two64. lia. Qed.

Lemma value_encodable v : Value.wf (value v) /\ small_string (Value.str (value v)).
Proof.
  assert (small_string "") as Hempty by done.
  assert (forall b, go_len b -> small_string (string_of_list_byte b)) as Hb.
  { intros b Hl. unfold go_len, small_string, in_uint64, two64 in *. rewrite length_string_of_list_byte. lia. }
  pose proof (go_values v) as Hv. unfold value. destruct (oneof v) as [s|b|i|f|b| | |] eqn:E; simpl in Hv.
  - split; [constructor|by apply go_string_small].
  - split; [constructor|done].
  - split; [by constructor|done].
  - split; [by constructor|done].
  - split; [constructor|]. unfold go_len, small_string, in_uint64, two64 in *. simpl.
    rewrite length_string_of_list_byte, hex_encode_length. lia.
  - destruct (Marshal v) as [b|] eqn:Em; [|split; [constructor|done]]. split; [constructor|]. by eapply Hb, go_marshal.
  - destruct (Marshal v) as [b|] eqn:Em; [|split; [constructor|done]]. split; [constructor|]. by eapply Hb, go_marshal.
  - split; [constructor|done].
Qed.

Lemma keyValues_encodable l : Forall encodable_kv (keyValues l).
Proof.
  unfold keyValues. rewrite Forall_fmap. apply Forall_true. intros kv. destruct (value_encodable (GetValue kv)).
  split; simpl; [apply go_string_small, go_keys|done|done].
Qed.

Lemma serviceName_small l : Forall encodable_kv l -> small_string (serviceName l).
Proof.
  induction 1 as [|kv l Hkv _ IH]; simpl; [done|]. destruct (negb _); [done|].
  unfold Value.AsString. destruct (negb _); [done|]. destruct (_ && _); [apply Hkv|done].
Qed.

Lemma unixNano_in_int64 n : in_uint64 n -> unixNano n <> Time.zero -> in_int64 (unixNano n).
Proof. unfold unixNano. destruct (n =? 0); [done|]. intros _ _. apply int64_range. Qed.

Lemma keyValues_len l : go_len l -> in_uint64 (Z.of_nat (length (keyValues l))).
Proof. unfold keyValues, go_len, in_uint64, two64. rewrite length_fmap. lia. Qed.

(** ** What a translated span carries *)

(** A value of the wire, and the value that stands for it: scalars as they
    are, bytes in hexadecimal, arrays and maps as their JSON, and nothing for
    no value. *)
Inductive stands_for (v : PAnyValue) : Value.Value -> Prop :=
| sf_string s : oneof v = AnyValue_StringValue s -> stands_for v (Value.StringValue s)
| sf_bool b : oneof v = AnyValue_BoolValue b -> stands_for v (Value.BoolValue b)
| sf_int i : oneof v = AnyValue_IntValue i -> stands_for v (Value.IntValue i)
| sf_float f : oneof v = AnyValue_DoubleValue f -> stands_for v (Value.FloatValue f)
| sf_bytes b : oneof v = AnyValue_BytesValue b ->
    stands_for v (Value.StringValue (string_of_list_byte (Hex.EncodeToString b)))
| sf_nested b : oneof v ∈ [AnyValue_ArrayValue; AnyValue_KvlistValue] -> Marshal v = Some b ->
    stands_for v (Value.StringValue (string_of_list_byte b))
| sf_unprintable : oneof v ∈ [AnyValue_ArrayValue; AnyValue_KvlistValue] -> Marshal v = None -> stands_for v Value.zero
| sf_none : oneof v = AnyValue_None -> stands_for v Value.zero.

Definition attribute_of (pkv : PKeyValue) (kv : KeyValue) : Prop :=
  Key kv = GetKey pkv /\ stands_for (GetValue pkv) (Value.Val kv).

(** An attribute that names the service. *)
Definition names_service (kv : KeyValue) (name : string) : Prop :=
  Key kv = "service.name"%string /\ Value.Val kv = Value.StringValue name /\ name <> ""%string.

(** The first attribute that names it decides. *)
Definition service_of (resource : list KeyValue) (name : string) : Prop :=
  (exists l1 kv l2, resource = l1 ++ kv :: l2 /\ names_service kv name /\
     Forall (fun kv => forall n, ~ names_service kv n) l1) \/
  Forall (fun kv => forall n, ~ names_service kv n) resource /\ name = "unknown_service"%string.

(** [s] carries all that the span [w.2] says in the block of [w.1]. *)
Record carries (w : PResourceSpans * PSpan) (s : Span) : Prop := {
  ca_trace : vec_to_list (TraceID_ s) = GetTraceId w.2;
  ca_span : vec_to_list (SpanID_ s) = GetSpanId w.2;
  ca_parent : vec_to_list (ParentSpanID s) = match GetParentSpanId w.2 with [] => replicate 8 x00 | p => p end;
  ca_name : Name s = GetName w.2;
  ca_kind : (GetKind w.2, Kind s) ∈
    [(SPAN_KIND_INTERNAL, SpanInternal); (SPAN_KIND_SERVER, SpanServer); (SPAN_KIND_CLIENT, SpanClient);
     (SPAN_KIND_PRODUCER, SpanProducer); (SPAN_KIND_CONSUMER, SpanConsumer); (SPAN_KIND_OTHER, SpanUnspecified)];
  ca_start : GetStartTimeUnixNano w.2 <> 0 /\ Start s = Time.ofUnixNano (int64 (GetStartTimeUnixNano w.2));
  ca_end : GetEndTimeUnixNano w.2 <> 0 /\ End_ s = Time.ofUnixNano (int64 (GetEndTimeUnixNano w.2));
  ca_code : (GetStatusCode w.2, Code (Status_ s)) ∈
    [(STATUS_CODE_OK, StatusOK); (STATUS_CODE_ERROR, StatusError); (STATUS_CODE_OTHER, StatusUnset)];
  ca_message : Message (Status_ s) = GetStatusMessage w.2;
  ca_attributes : Forall2 attribute_of (GetAttributes w.2) (Attributes s);
  ca_resource : Forall2 attribute_of (GetResourceAttributes w.1) (Resource s);
  ca_service : service_of (Resource s) (Service s);
}.

Lemma value_stands_for v : stands_for v (value v).
Proof.
  unfold value. destruct (oneof v) eqn:E; try by constructor.
  - destruct (Marshal v) as [b|] eqn:Em; [apply sf_nested|apply sf_unprintable]; rewrite ?E; (done || set_solver).
  - destruct (Marshal v) as [b|] eqn:Em; [apply sf_nested|apply sf_unprintable]; rewrite ?E; (done || set_solver).
Qed.

Lemma keyValues_of l : Forall2 attribute_of l (keyValues l).
Proof. unfold keyValues. apply Forall2_fmap_r, Forall_Forall2_diag, Forall_true. intros kv. split; [done|apply value_stands_for]. Qed.

Lemma serviceName_spec resource : Forall (fun kv => Value.wf (Value.Val kv)) resource ->
  service_of resource (serviceName resource).
Proof.
  unfold service_of. induction 1 as [|kv resource Hkv _ IH]; [by right|]. cbn [serviceName].
  assert (forall name, names_service kv name <-> Key kv = serviceNameKey /\ Value.AsString (Value.Val kv) = (name, true) /\ name <> ""%string)
    as Hnames by (intros name; unfold names_service; by rewrite Value.as_string_ok).
  assert (forall name, (forall n, ~ names_service kv n) ->
    (exists l1 x l2, resource = l1 ++ x :: l2 /\ names_service x name /\ Forall (fun kv => forall n, ~ names_service kv n) l1) \/
      Forall (fun kv => forall n, ~ names_service kv n) resource /\ name = "unknown_service"%string ->
    (exists l1 x l2, kv :: resource = l1 ++ x :: l2 /\ names_service x name /\ Forall (fun kv => forall n, ~ names_service kv n) l1) \/
      Forall (fun kv => forall n, ~ names_service kv n) (kv :: resource) /\ name = "unknown_service"%string) as Hskip.
  { intros name Hn [(l1 & x & l2 & -> & Hx & Hl)|[Hl ->]]; [left|right; split; [by constructor|done]].
    exists (kv :: l1), x, l2. split_and!; [done..|by constructor]. }
  case_bool_decide as Hk; cbn [negb]; [|apply Hskip; [|exact IH]; intros n [? _]%Hnames; done].
  destruct (Value.AsString (Value.Val kv)) as [name ok] eqn:E.
  destruct ok; cbn [andb]; [|apply Hskip; [|exact IH]; intros n (_ & [=] & _)%Hnames].
  case_bool_decide as Hempty; cbn [negb].
  - apply Hskip; [|exact IH]. intros n (_ & [= <-] & ?)%Hnames. done.
  - left. exists [], kv, resource. split_and!; [done| |constructor]. by apply Hnames.
Qed.

Lemma copyID_bytes n src what v : copyID n src what = Ok v -> vec_to_list v = src.
Proof.
  unfold copyID. destruct (decide (length src = n)) as [e|]; [|done].
  intros [= <-]. subst n. simpl. apply vec_to_list_to_vec.
Qed.

Lemma unixNano_time n : unixNano n <> Time.zero -> n <> 0 /\ unixNano n = Time.ofUnixNano (int64 n).
Proof. unfold unixNano. by destruct (Z.eqb_spec n 0). Qed.

Lemma translateSpan_carries w s :
  translateSpan w.2 (in_block w).1.2 (in_block w).2 = Ok s -> valid_span s -> carries w s.
Proof.
  unfold translateSpan, in_block. cbn [fst snd]. destruct (copyID 16 _ _) as [t|] eqn:E1; [|done].
  destruct (copyID 8 (GetSpanId w.2) _) as [i|] eqn:E2; [|done]. apply copyID_bytes in E1, E2.
  set (parent := match GetParentSpanId w.2 with [] => _ | _ => _ end).
  assert (forall q, parent = Ok q -> vec_to_list q = match GetParentSpanId w.2 with [] => replicate 8 x00 | p => p end) as Hp.
  { intros q. unfold parent. destruct (GetParentSpanId w.2) as [|b p]; [by intros [= <-]|apply copyID_bytes]. }
  destruct parent as [q|]; [|done]. intros [= <-] Hv. split; cbn; try done.
  - by apply Hp.
  - destruct (GetKind w.2); set_solver.
  - apply unixNano_time. exact (valid_start _ Hv).
  - apply unixNano_time. exact (valid_end _ Hv).
  - destruct (GetStatusCode w.2); set_solver.
  - apply keyValues_of.
  - apply keyValues_of.
  - apply serviceName_spec. unfold keyValues. rewrite Forall_fmap. apply Forall_true. intros kv. apply value_encodable.
Qed.

Lemma carried_encodable w s : valid_span s -> carries w s -> Resource s = keyValues (GetResourceAttributes w.1) ->
  Attributes s = keyValues (GetAttributes w.2) -> Service s = serviceName (Resource s) -> encodable s.
Proof.
  intros Hv [_ _ _ En _ [_ Est] [_ Een] _ Em _ _ _] Er Ea Es. destruct (go_names w.2).
  split; rewrite ?En, ?Es, ?Er, ?Est, ?Een, ?Ea, ?Em; auto using go_string_small, keyValues_encodable, serviceName_small.
  - apply int64_range.
  - apply int64_range.
  - apply keyValues_len, go_attributes.
  - apply keyValues_len, go_resource.
Qed.

Lemma outcome_storable w s : outcome (in_block w) = Ok s -> valid_span s /\ encodable s /\ carries w s.
Proof.
  unfold outcome. pose proof (translateSpan_carries w) as Hc. unfold in_block in *. cbn [fst snd] in Hc.
  destruct (translateSpan w.2 _ _) as [x|] eqn:E; [|done]. destruct (Validate x) as [|] eqn:Ev; [done|]. intros [= ->].
  apply Validate_none in Ev. pose proof (Hc s eq_refl Ev) as Hs. split_and!; [done| |done].
  unfold translateSpan in E. destruct (copyID 16 _ _); [|done]. destruct (copyID 8 (GetSpanId w.2) _); [|done].
  destruct (match GetParentSpanId w.2 with [] => _ | _ => _ end); [|done]. injection E as <-.
  by apply (carried_encodable w).
Qed.

Lemma Translate_blocks l : (Translate l).1 = omap (fun w => accepted_span (in_block w)) (wire_blocks l).
Proof.
  rewrite Translate_reference, wire_spans_blocks. cbn [fst]. induction (wire_blocks l) as [|w ws IH]; [done|].
  rewrite fmap_cons. cbn [omap list_omap]. by rewrite IH.
Qed.

Lemma Translate_storable l s : s ∈ (Translate l).1 -> valid_span s /\ encodable s.
Proof.
  rewrite Translate_blocks. intros (w & _ & Eo)%list_elem_of_omap. unfold accepted_span in Eo.
  destruct (outcome (in_block w)) as [x|] eqn:E; [|done]. injection Eo as ->. by destruct (outcome_storable _ _ E) as (? & ? & _).
Qed.

Lemma accepted_carried (ws : list (PResourceSpans * PSpan)) :
  exists taken, taken `sublist_of` ws /\ Forall2 carries taken (omap (fun w => accepted_span (in_block w)) ws).
Proof.
  induction ws as [|w ws (taken & Hsub & Hc)]; [by exists []|]. cbn [omap list_omap]. unfold accepted_span at 1.
  destruct (outcome (in_block w)) as [s|e] eqn:E.
  - exists (w :: taken). split; [by constructor|]. constructor; [|done]. by destruct (outcome_storable _ _ E) as (_ & _ & ?).
  - exists taken. split; [by constructor|done].
Qed.
End translated.

(** ** Messages to evaluate

    One resource with one scope of two spans: a good one, and one whose trace
    identifier is too short. *)
#[local] Instance example_proto : Proto := {|
  PResourceSpans := unit; PScopeSpans := unit; PSpan := bool; PKeyValue := unit; PAnyValue := unit;
  GetResourceAttributes _ := [tt]; GetScopeSpans _ := [tt]; GetSpans _ := [false; true];
  GetTraceId good := replicate (if good : bool then 16 else 3) x01;
  GetSpanId _ := replicate 8 x02; GetParentSpanId _ := [];
  GetName _ := "GET /"; GetKind _ := SPAN_KIND_SERVER;
  GetStartTimeUnixNano _ := 10; GetEndTimeUnixNano _ := 20;
  GetStatusCode _ := STATUS_CODE_OK; GetStatusMessage _ := "";
  GetAttributes _ := []; GetKey _ := "service.name"; GetValue _ := tt;
  oneof _ := AnyValue_StringValue "shop"; Marshal _ := None;
|}.

#[local] Instance example_types : ProtoTypes.
Proof. by split. Qed.

Definition example_request : list (@PResourceSpans example_proto) := [tt].

(** ** Properties *)

(** C22: [Translate] gives, for every wire span of the request in order, either
    its translation, if the identifiers have the right lengths and the result
    is valid, or a rejection that names its position in the whole request;
    nothing is lost or reordered, and one bad span costs no other. *)
Theorem translate_spec `{Proto} (l : list PResourceSpans) :
  let '(spans, rejections) := Translate l in
  spans = omap accepted_span (wire_spans l) /\
  StronglySorted Z.lt (Index <$> rejections) /\
  (forall i e, MkRejection i e ∈ rejections <->
     exists n w, i = Z.of_nat n /\ wire_spans l !! n = Some w /\ outcome w = Err e) /\
  zlen spans + zlen rejections = zlen (wire_spans l).
Proof.
  rewrite Translate_reference. generalize (wire_spans l) as ws. clear l. intros ws. split; [done|].
  assert (forall i, StronglySorted Z.lt (Index <$> rejected_from i ws) /\
            (forall j e, MkRejection j e ∈ rejected_from i ws <->
               exists n w, j = i + Z.of_nat n /\ ws !! n = Some w /\ outcome w = Err e) /\
            zlen (omap accepted_span ws) + zlen (rejected_from i ws) = zlen ws) as Hall.
  { induction ws as [|w ws IH]; intros i; cbn [rejected_from omap list_omap].
    { split_and!; [constructor| |done]. intros j e. rewrite elem_of_nil. split; [done|]. by intros (n & w & _ & ? & _). }
    destruct (IH (i + 1)) as (IH1 & IH2 & IH3). unfold accepted_span at 1.
    assert (forall A (x : A) l, zlen (x :: l) = 1 + zlen l) as Hz by (intros; unfold zlen; simpl; lia).
    destruct (outcome w) as [s|e0] eqn:Eo; rewrite ?fmap_cons, !Hz.
    - split_and!; [done| |lia]. intros j e. rewrite IH2. split.
      + intros (n & w' & -> & Hn & Hw). exists (S n), w'. split_and!; [lia|done..].
      + intros ([|n] & w' & -> & Hn & Hw); [simpl in Hn; congruence|]. exists n, w'. split_and!; [lia|done..].
    - split_and!; [|intros j e|lia].
      + constructor; [done|]. apply Forall_forall. intros j (x & -> & Hx)%list_elem_of_fmap. destruct x as [j e].
        apply IH2 in Hx as (n & w' & -> & _). simpl. lia.
      + rewrite elem_of_cons, IH2. split.
        * intros [[= -> ->]|(n & w' & -> & Hn & Hw)].
          -- exists 0%nat, w. split_and!; [lia|done..].
          -- exists (S n), w'. split_and!; [lia|done..].
        * intros ([|n] & w' & -> & Hn & Hw).
          -- left. simpl in Hn. injection Hn as ->. rewrite Z.add_0_r. congruence.
          -- right. exists n, w'. split_and!; [lia|done..]. }
  destruct (Hall 0) as (H1 & H2 & H3). split_and!; [done|exact H2|done].
Qed.

(** C23: every span [Translate] accepts is valid and encodable, so every store
    and the codec take it as it is.  The accepted spans come, in order, from
    distinct spans of the request, and each carries all that its span says:
    identifiers with that of the parent, name, kind, times, status, and the
    attributes of the span and of its own resource, from which its service is
    named. *)
Theorem translated_spans_storable `{Proto} `{!ProtoTypes} (l : list PResourceSpans) :
  Forall (fun s => valid_span s /\ encodable s) (Translate l).1 /\
  exists taken, taken `sublist_of` wire_blocks l /\ Forall2 carries taken (Translate l).1.
Proof.
  split; [apply Forall_forall; apply Translate_storable|]. rewrite Translate_blocks. apply accepted_carried.
Qed.

Example translated_spans_storable_witness :
  exists s, (Translate example_request).1 = [s] /\ Service s = "shop"%string /\ encodable s /\
    carries (H := example_proto) (tt, true) s.
Proof.
  destruct (translated_spans_storable example_request) as (Hs & taken & Hsub & Hc).
  assert (length (Translate example_request).1 = 1%nat /\ (Service <$> (Translate example_request).1) = ["shop"%string])
    as [El Es] by (split; vm_compute; reflexivity).
  destruct ((Translate example_request).1) as [|s [|]]; [discriminate El| |discriminate El]. injection Es as Es.
  apply Forall_singleton in Hs as [_ He]. exists s. split_and!; [reflexivity|exact Es|exact He|].
  destruct taken as [|[[] good] [|]]; [by inversion Hc| |by inversion Hc; match goal with H : Forall2 _ _ [] |- _ => inversion H end].
  apply Forall2_cons in Hc as [Hc _]. destruct good; [exact Hc|]. pose proof (ca_trace _ _ Hc) as Ht.
  apply (f_equal length) in Ht. rewrite length_vec_to_list in Ht. discriminate Ht.
Defined.
