(* ===== verification/Frame.v ===== *)
(** * Segment records: the framing half of [internal/storage/disk.go]

    A record is a length, a CRC-32C and an encoded span.  [record] is the
    record of a span; [frame_all] is how [Write] lays out a batch, [readRecord]
    and [intactPrefix] how a segment is read back.  [good_span] says which
    spans a segment can hold. *)

From S2P Require Import Prelude GoTime GoBytes Ident Value Span Codec.

(** ** CRC-32C

    The reflected Castagnoli polynomial, a bit at a time: [hash/crc32]'s
    [Checksum] with its table. *)
Definition castagnoli : Z := 0x82F63B78.

Definition crc_bit (c : Z) : Z :=
  if Z.odd c then Z.lxor (Z.shiftr c 1) castagnoli else Z.shiftr c 1.

Definition crc_byte (c : Z) (b : byte) : Z := Nat.iter 8 crc_bit (Z.lxor c (byteZ b)).

(** [crc32.Checksum(p, castagnoli)]. *)
Definition Checksum (p : list byte) : Z :=
  Z.lxor (foldl crc_byte 0xFFFFFFFF p) 0xFFFFFFFF.

(** The check value of CRC-32C. *)
Example checksum_check :
  Checksum [x31; x32; x33; x34; x35; x36; x37; x38; x39] = 0xE3069283.
Proof. vm_compute. reflexivity. Qed.

(** ** Records *)

Definition recordHeader : nat := 8.
Definition maxRecord : Z := 16 * 2 ^ 20.

Inductive record_error :=
| UnexpectedEOF
| RecordTooLong (size : Z)
| ChecksumMismatch
| BadSpan (e : codec_error).

(** [func readRecord(data []byte) (trace.Span, int, error)]. *)
Definition readRecord (data : list byte) : result record_error (Span * nat) :=
  if (length data <? recordHeader)%nat then Err UnexpectedEOF
  else
    let size := le_value (take 4 data) in
    let sum := le_value (take 4 (drop 4 data)) in
    if maxRecord <? size then Err (RecordTooLong size)
    else if zlen data <? Z.of_nat recordHeader + size then Err UnexpectedEOF
    else
      let end_ := (recordHeader + Z.to_nat size)%nat in
      let payload := drop recordHeader (take end_ data) in
      if negb (Checksum payload =? sum) then Err ChecksumMismatch
      else match decodeSpan payload with
           | Err e => Err (BadSpan e)
           | Ok span => Ok (span, end_)
           end.

(** [func intactPrefix(data []byte) ([]trace.Span, int, error)], from the
    offset [good] with [fuel] records at most. *)
Fixpoint intact_loop (fuel : nat) (data : list byte) (spans : list Span) (good : nat)
    : option (list Span * nat * option record_error) :=
  if (good <? length data)%nat then
    match fuel with
    | O => None
    | S fuel =>
        match readRecord (drop good data) with
        | Err e => Some (spans, good, Some e)
        | Ok (span, n) => intact_loop fuel data (spans ++ [span]) (good + n)
        end
    end
  else Some (spans, good, None).

Definition intactPrefix (data : list byte) : option (list Span * nat * option record_error) :=
  intact_loop (length data) data [] 0.

(** [binary.LittleEndian.PutUint32(buf[off:], v)]. *)
Definition put32 (buf : list byte) (off : nat) (v : Z) : list byte :=
  take off buf ++ le_bytes 4 v ++ drop (off + 4) buf.

(** The body of [Write]'s loop over the batch, at span [i]; the error is the
    span's index and the size it encodes to. *)
Definition frame_one (i : nat) (buf : list byte) (s : Span) : result (nat * Z) (list byte) :=
  let start := length buf in
  let buf := encodeSpan (buf ++ replicate recordHeader x00) s in
  let payload := drop (start + recordHeader) buf in
  if maxRecord <? zlen payload then Err (i, zlen payload)
  else Ok (put32 (put32 buf start (zlen payload)) (start + 4) (Checksum payload)).

Fixpoint frame_all (i : nat) (buf : list byte) (batch : list Span) : result (nat * Z) (list byte) :=
  match batch with
  | [] => Ok buf
  | s :: batch =>
      match frame_one i buf s with
      | Err e => Err e
      | Ok buf => frame_all (S i) buf batch
      end
  end.

(** ** The record of a span *)

Definition payload (s : Span) : list byte := encodeSpan [] s.

Definition record (s : Span) : list byte :=
  le_bytes 4 (zlen (payload s)) ++ le_bytes 4 (Checksum (payload s)) ++ payload s.

Definition records (l : list Span) : list byte := concat (record <$> l).

Definition fits (s : Span) : bool := zlen (payload s) <=? maxRecord.

(** A span a segment can hold: valid, encodable and not too large. *)
Record good_span (s : Span) : Prop := {
  good_valid : valid_span s;
  good_encodable : encodable s;
  good_fits : fits s = true;
}.

Lemma records_cons s l : records (s :: l) = record s ++ records l.
Proof. done. Qed.

Lemma records_app l1 l2 : records (l1 ++ l2) = records l1 ++ records l2.
Proof. unfold records. by rewrite fmap_app, concat_app. Qed.

Lemma encodeSpan_payload b s : encodeSpan b s = b ++ payload s.
Proof. unfold payload. by rewrite (encodeSpan_app b), (encodeSpan_app []). Qed.

Lemma length_record s : length (record s) = (recordHeader + length (payload s))%nat.
Proof. unfold record. rewrite !length_app, !length_le_bytes. done. Qed.

(** ** The bit step is injective on 32 bits *)

Definition u32 (c : Z) : Prop := 0 <= c < 2 ^ 32.

Lemma u32_lxor a b : u32 a -> u32 b -> u32 (Z.lxor a b).
Proof.
  unfold u32. intros [Ha Ha'] [Hb Hb'].
  assert (0 <= Z.lxor a b) as H by (apply Z.lxor_nonneg; lia). split; [done|].
  destruct (decide (Z.lxor a b = 0)) as [->|Hne]; [lia|].
  apply Z.log2_lt_pow2; [lia|]. eapply Z.le_lt_trans; [by apply Z.log2_lxor|].
  assert (forall x, 0 <= x < 2 ^ 32 -> Z.log2 x < 32) as Hl.
  { intros x Hx. destruct (decide (x = 0)) as [->|]; [done|]. apply Z.log2_lt_pow2; lia. }
  pose proof (Hl a ltac:(lia)). pose proof (Hl b ltac:(lia)). lia.
Qed.

Lemma u32_byte b : u32 (byteZ b).
Proof. unfold u32. pose proof (byteZ_range b). lia. Qed.

Lemma u32_shiftr c : u32 c -> 0 <= Z.shiftr c 1 < 2 ^ 31.
Proof. unfold u32. rewrite Z.shiftr_div_pow2 by lia. intros H. split; [apply Z.div_pos|apply Z.div_lt_upper_bound]; lia. Qed.

Lemma crc_bit_u32 c : u32 c -> u32 (crc_bit c).
Proof.
  intros H. pose proof (u32_shiftr c H) as Hs. unfold crc_bit. destruct (Z.odd c); [|unfold u32; lia].
  apply u32_lxor; unfold u32, castagnoli; lia.
Qed.

Lemma high_bit_clear x : 0 <= x < 2 ^ 31 -> Z.testbit x 31 = false.
Proof. intros Hx. by apply (testbit_above x 31 31). Qed.

(** The bit shifted out is the top bit of the result. *)
Lemma crc_bit_top c : u32 c -> Z.testbit (crc_bit c) 31 = Z.odd c.
Proof.
  intros H%u32_shiftr%high_bit_clear. unfold crc_bit. destruct (Z.odd c); [|done].
  by rewrite Z.lxor_spec, H.
Qed.

Lemma odd_shiftr c d : Z.odd c = Z.odd d -> Z.shiftr c 1 = Z.shiftr d 1 -> c = d.
Proof.
  intros Ho Hs. rewrite <-!Z.div2_spec in Hs. by rewrite (Zdiv2_odd_eqn c), (Zdiv2_odd_eqn d), Ho, Hs.
Qed.

Lemma lxor_cancel a b c : Z.lxor a c = Z.lxor b c -> a = b.
Proof.
  intros H. assert (Z.lxor (Z.lxor a c) c = Z.lxor (Z.lxor b c) c) as E by congruence.
  by rewrite !Z.lxor_assoc, Z.lxor_nilpotent, !Z.lxor_0_r in E.
Qed.

Lemma crc_bit_inj c d : u32 c -> u32 d -> crc_bit c = crc_bit d -> c = d.
Proof.
  intros Hc Hd E. assert (Z.odd c = Z.odd d) as Ho by (by rewrite <-!crc_bit_top, E).
  apply odd_shiftr; [done|]. unfold crc_bit in E. rewrite Ho in E.
  destruct (Z.odd d); [by apply lxor_cancel in E|done].
Qed.

Lemma crc_bits_inj n c d :
  u32 c -> u32 d -> Nat.iter n crc_bit c = Nat.iter n crc_bit d -> c = d.
Proof.
  assert (forall n c, u32 c -> u32 (Nat.iter n crc_bit c)) as Hu.
  { clear. intros n c Hc. induction n as [|n IH]; [done|]. by apply crc_bit_u32. }
  intros Hc Hd. induction n as [|n IH]; [done|]. simpl. intros E. apply IH, crc_bit_inj; auto.
Qed.

Lemma crc_bits_u32 n c : u32 c -> u32 (Nat.iter n crc_bit c).
Proof. intros Hc. induction n as [|n IH]; [done|]. by apply crc_bit_u32. Qed.

Lemma crc_byte_u32 c b : u32 c -> u32 (crc_byte c b).
Proof. intros Hc. apply crc_bits_u32, u32_lxor; [done|apply u32_byte]. Qed.

Lemma crc_byte_lxor c d b b' :
  u32 c -> u32 d -> crc_byte c b = crc_byte d b' -> Z.lxor c (byteZ b) = Z.lxor d (byteZ b').
Proof.
  intros Hc Hd. apply (crc_bits_inj 8); by apply u32_lxor, u32_byte.
Qed.

#[local] Opaque crc_byte.

Lemma crc_fold_u32 p : forall c, u32 c -> u32 (foldl crc_byte c p).
Proof. induction p as [|b p IH]; intros c Hc; simpl; [done|]. by apply IH, crc_byte_u32. Qed.

Lemma crc_fold_inj p : forall c d, u32 c -> u32 d -> foldl crc_byte c p = foldl crc_byte d p -> c = d.
Proof.
  induction p as [|b p IH]; intros c d Hc Hd; simpl; [done|].
  intros E%IH; [|by apply crc_byte_u32..]. by apply crc_byte_lxor, lxor_cancel in E.
Qed.

Lemma Checksum_u32 p : u32 (Checksum p).
Proof. apply u32_lxor; [|unfold u32; lia]. apply crc_fold_u32. unfold u32. lia. Qed.

Lemma crc_fold_one_byte c p q (b b' : byte) :
  u32 c -> foldl crc_byte c (p ++ b :: q) = foldl crc_byte c (p ++ b' :: q) -> b = b'.
Proof.
  rewrite !foldl_app. cbn [foldl]. intros Hc. pose proof (crc_fold_u32 p c Hc) as Hu. intros E.
  apply crc_fold_inj in E; [|by apply crc_byte_u32..].
  apply crc_byte_lxor in E; [|done..].
  rewrite !(Z.lxor_comm (foldl _ _ _)) in E. by apply lxor_cancel, (inj byteZ) in E.
Qed.

(** Changing one byte changes the checksum. *)
Lemma Checksum_one_byte p q (b b' : byte) : b <> b' -> Checksum (p ++ b :: q) <> Checksum (p ++ b' :: q).
Proof.
  assert (u32 0xFFFFFFFF) as Hu by (unfold u32; lia).
  intros Hne E. exact (Hne (crc_fold_one_byte _ p q b b' Hu (lxor_cancel _ _ _ E))).
Qed.

#[global] Arguments Checksum : simpl never.
#[global] Opaque Checksum.

(** ** Laying out a batch *)

Lemma put32_app b h v t : length h = 4%nat -> put32 (b ++ h ++ t) (length b) v = b ++ le_bytes 4 v ++ t.
Proof.
  intros Hh. unfold put32. rewrite take_app_length, <-drop_drop, drop_app_length.
  by rewrite <-Hh, drop_app_length.
Qed.

Lemma frame_one_spec i buf s :
  frame_one i buf s = if fits s then Ok (buf ++ record s) else Err (i, zlen (payload s)).
Proof.
  unfold frame_one, fits. rewrite encodeSpan_payload, <-app_assoc.
  assert (drop (length buf + recordHeader) (buf ++ replicate recordHeader x00 ++ payload s) = payload s) as ->.
  { by rewrite <-drop_drop, drop_app_length. }
  destruct (Z.ltb_spec maxRecord (zlen (payload s))), (Z.leb_spec (zlen (payload s)) maxRecord); try lia; [done|].
  f_equal. change (replicate recordHeader x00 ++ payload s) with (replicate 4 x00 ++ replicate 4 x00 ++ payload s).
  pose proof (put32_app buf (replicate 4 x00) (zlen (payload s)) (replicate 4 x00 ++ payload s) eq_refl) as ->.
  set (l := le_bytes 4 (zlen (payload s))).
  pose proof (put32_app (buf ++ l) (replicate 4 x00) (Checksum (payload s)) (payload s) eq_refl) as E.
  rewrite length_app, <-!app_assoc in E. unfold l in E at 2. rewrite length_le_bytes in E. exact E.
Qed.

Lemma frame_all_spec batch : forall i buf,
  (Forall (fun s => fits s = true) batch /\ frame_all i buf batch = Ok (buf ++ records batch)) \/
  (exists j s, batch !! j = Some s /\ fits s = false /\ Forall (fun s => fits s = true) (take j batch) /\
     frame_all i buf batch = Err ((i + j)%nat, zlen (payload s))).
Proof.
  induction batch as [|s batch IH]; intros i buf.
  { left. split; [constructor|]. unfold records; simpl. by rewrite app_nil_r. }
  cbn [frame_all]. rewrite frame_one_spec. destruct (fits s) eqn:Ef.
  - destruct (IH (S i) (buf ++ record s)) as [[Hf E]|(j & x & Hj & Hx & Ht & E)].
    + left. split; [by constructor|]. rewrite E. by rewrite <-app_assoc.
    + right. exists (S j), x. split_and!; [done..|by constructor|]. rewrite E. do 2 f_equal. lia.
  - right. exists 0%nat, s. split_and!; [done..|constructor|]. by rewrite Nat.add_0_r.
Qed.

(** ** Reading records back *)

Lemma le_bytes_u32 x : u32 x -> le_value (le_bytes 4 x) = x.
Proof. intros Hx. by apply le_value_bytes_id. Qed.

Lemma take_drop_four (a b c : list byte) :
  length a = 4%nat -> length b = 4%nat ->
  take 4 (a ++ b ++ c) = a /\ take 4 (drop 4 (a ++ b ++ c)) = b /\ drop 8 (a ++ b ++ c) = c.
Proof.
  intros Ha Hb. split_and!.
  - by apply take_app_length'.
  - rewrite drop_app_length' by done. by apply take_app_length'.
  - rewrite app_assoc. apply drop_app_length'. by rewrite length_app, Ha, Hb.
Qed.

(** [readRecord] on a header with a length that is right and a payload that
    is there. *)
Lemma readRecord_header (sum : list byte) p rest :
  length sum = 4%nat -> zlen p <= maxRecord ->
  readRecord (le_bytes 4 (zlen p) ++ sum ++ p ++ rest) =
    if Checksum p =? le_value sum then
      match decodeSpan p with
      | Err e => Err (BadSpan e)
      | Ok s => Ok (s, (recordHeader + length p)%nat)
      end
    else Err ChecksumMismatch.
Proof.
  intros Hsum Hp. unfold readRecord.
  destruct (take_drop_four (le_bytes 4 (zlen p)) sum (p ++ rest)) as (E1 & E2 & E3);
    [apply length_le_bytes|done|].
  assert (u32 (zlen p)) as Hu by (unfold u32, maxRecord in *; pose proof (zlen_nonneg p); lia).
  rewrite E1, E2, le_bytes_u32 by done.
  destruct (Nat.ltb_spec (length (le_bytes 4 (zlen p) ++ sum ++ p ++ rest)) recordHeader) as [Hl|_].
  { rewrite !length_app, length_le_bytes in Hl. unfold recordHeader in Hl. lia. }
  destruct (Z.ltb_spec maxRecord (zlen p)); [lia|].
  destruct (Z.ltb_spec (zlen (le_bytes 4 (zlen p) ++ sum ++ p ++ rest)) (Z.of_nat recordHeader + zlen p)) as [Hl|_].
  { rewrite !zlen_app in Hl. pose proof (zlen_nonneg rest).
    assert (zlen (le_bytes 4 (zlen p)) = 4) by (unfold zlen; by rewrite length_le_bytes).
    assert (zlen sum = 4) by (unfold zlen; by rewrite Hsum). unfold recordHeader in Hl. lia. }
  assert (Z.to_nat (zlen p) = length p) as -> by (unfold zlen; lia).
  unfold recordHeader. rewrite skipn_firstn_comm, E3, Nat.add_sub_swap, Nat.sub_diag, Nat.add_0_l, take_app_length by lia.
  by destruct (Checksum p =? le_value sum).
Qed.

Lemma read_record s rest : good_span s -> readRecord (record s ++ rest) = Ok (s, length (record s)).
Proof.
  intros [_ He Hf%Z.leb_le]. unfold record. rewrite <-!app_assoc.
  rewrite readRecord_header by (done || apply length_le_bytes).
  rewrite le_bytes_u32 by apply Checksum_u32. rewrite Z.eqb_refl. unfold payload at 1. rewrite (decode_encode s He).
  by rewrite !length_app, !length_le_bytes.
Qed.

(** What was read is in the data, and data that starts the same reads the
    same. *)
Lemma readRecord_ok data s n : readRecord data = Ok (s, n) ->
  (recordHeader <= n <= length data)%nat /\ encodable s /\
  forall data', (n <= length data')%nat -> take n data' = take n data -> readRecord data' = Ok (s, n).
Proof.
  unfold readRecord. destruct (Nat.ltb_spec (length data) recordHeader); [done|].
  unfold recordHeader in *. remember (le_value (take 4 data)) as size eqn:Hsize.
  assert (0 <= size) as Hs by (subst; apply le_value_bound).
  destruct (Z.ltb_spec maxRecord size); [done|].
  destruct (Z.ltb_spec (zlen data) (Z.of_nat 8 + size)) as [|Hl]; [done|].
  unfold zlen in Hl. remember (8 + Z.to_nat size)%nat as n' eqn:Hn'.
  destruct (Z.eqb_spec (Checksum (drop 8 (take n' data))) (le_value (take 4 (drop 4 data)))) as [Hc|]; [|done].
  cbn [negb]. destruct (decodeSpan _) as [s'|] eqn:Ed; [|done]. intros [= <- <-].
  split_and!; [lia..|by eapply decodeSpan_encodable|]. intros data' Hlen Ht.
  assert (forall k (d : list byte), (k <= n')%nat -> take k (take n' d) = take k d) as Tk
    by (intros; rewrite take_take; f_equal; lia).
  assert (take 4 data' = take 4 data) as T1.
  { rewrite <-(Tk 4%nat data'), Ht, Tk by lia. done. }
  assert (take 4 (drop 4 data') = take 4 (drop 4 data)) as T2.
  { rewrite !take_drop_commute. by rewrite <-(Tk (4 + 4)%nat data'), Ht, Tk by lia. }
  destruct (Nat.ltb_spec (length data') 8) as [Hl'|_]; [lia|]. rewrite T1, T2, <-Hsize, <-Hn'.
  destruct (Z.ltb_spec maxRecord size); [lia|].
  destruct (Z.ltb_spec (zlen data') (Z.of_nat 8 + size)) as [Hl'|_]; [unfold zlen in Hl'; lia|].
  rewrite Ht, Hc, Z.eqb_refl. cbn [negb]. by rewrite Ed.
Qed.

Lemma readRecord_app data ext s n : readRecord data = Ok (s, n) -> readRecord (data ++ ext) = Ok (s, n).
Proof.
  intros (Hn & _ & H)%readRecord_ok. apply H; [rewrite length_app; lia|]. apply take_app_le. lia.
Qed.

Lemma readRecord_nil : readRecord [] = Err UnexpectedEOF.
Proof. done. Qed.

(** Nothing can be read here: the end of the data, or a bad record. *)
Definition unreadable (data : list byte) : Prop := exists e, readRecord data = Err e.

Lemma unreadable_take n data : unreadable data -> unreadable (take n data).
Proof.
  intros [e He]. destruct (readRecord (take n data)) as [[s k]|e'] eqn:E; [|by exists e'].
  apply (readRecord_app _ (drop n data)) in E. rewrite take_drop in E. congruence.
Qed.

Lemma unreadable_record n s : good_span s -> (n < length (record s))%nat -> unreadable (take n (record s)).
Proof.
  intros Hs Hn. destruct (readRecord (take n (record s))) as [[x k]|e] eqn:E; [|by exists e].
  pose proof (readRecord_ok _ _ _ E) as (Hk & _ & _). apply (readRecord_app _ (drop n (record s))) in E.
  pose proof (read_record s [] Hs) as R. rewrite app_nil_r in R. rewrite take_drop, R in E.
  assert (k = length (record s)) as -> by congruence. rewrite length_take in Hk. lia.
Qed.

(** ** The intact prefix *)

(** [data] from [good] to [good'] is records of the spans [l]. *)
Inductive reads_to (data : list byte) : nat -> list Span -> nat -> Prop :=
| reads_nil good : reads_to data good [] good
| reads_cons good s n l good' :
    readRecord (drop good data) = Ok (s, n) -> reads_to data (good + n) l good' ->
    reads_to data good (s :: l) good'.

Lemma intact_loop_spec data : forall fuel spans good,
  (good <= length data)%nat -> (length data - good <= fuel)%nat ->
  exists l good' e, intact_loop fuel data spans good = Some (spans ++ l, good', e) /\
    reads_to data good l good' /\ (good' <= length data)%nat /\ Forall encodable l /\
    match e with
    | None => good' = length data
    | Some e => (good' < length data)%nat /\ readRecord (drop good' data) = Err e
    end.
Proof.
  induction fuel as [|fuel IH]; intros spans good Hg Hf; cbn [intact_loop];
    destruct (Nat.ltb_spec good (length data)) as [Hlt|Hge]; [lia| | |].
  - exists [], good, None. rewrite app_nil_r. split_and!; [done|constructor|done|constructor|lia].
  - destruct (readRecord (drop good data)) as [[s n]|e] eqn:Er.
    + pose proof (readRecord_ok _ _ _ Er) as (Hn & He & _). unfold recordHeader in Hn. rewrite length_drop in Hn.
      destruct (IH (spans ++ [s]) (good + n)%nat) as (l & good' & e & -> & Hr & Hl & Hes & Hend); [lia..|].
      exists (s :: l), good', e. rewrite <-app_assoc. split_and!; [done|by econstructor|done|by constructor|done].
    + exists [], good, (Some e). rewrite app_nil_r. split_and!; [done|constructor|done|constructor|done..].
  - exists [], good, None. rewrite app_nil_r. split_and!; [done|constructor|done|constructor|lia].
Qed.

Lemma intactPrefix_total data :
  exists l good e, intactPrefix data = Some (l, good, e) /\
    reads_to data 0 l good /\ (good <= length data)%nat /\ Forall encodable l /\
    match e with
    | None => good = length data
    | Some e => (good < length data)%nat /\ readRecord (drop good data) = Err e
    end.
Proof. apply (intact_loop_spec data (length data) [] 0); lia. Qed.

Lemma reads_to_det data good l1 g1 l2 g2 :
  reads_to data good l1 g1 -> reads_to data good l2 g2 ->
  (g1 = length data \/ unreadable (drop g1 data)) -> (g2 = length data \/ unreadable (drop g2 data)) ->
  l1 = l2 /\ g1 = g2.
Proof.
  assert (forall g, g = length data \/ unreadable (drop g data) -> unreadable (drop g data)) as Hu.
  { intros g [->|]; [|done]. rewrite drop_all. by eexists. }
  intros H1 H2 Hu1%Hu Hu2%Hu. clear Hu. revert l2 g2 H2 Hu2.
  induction H1 as [g|g s n l g' Er _ IH]; intros l2 g2 H2 Hu2; destruct H2 as [g2|g2 s2 n2 l2 g2' Er2 H2].
  - done.
  - destruct Hu1 as [e ?]. congruence.
  - destruct Hu2 as [e ?]. congruence.
  - rewrite Er in Er2. injection Er2 as <- <-. destruct (IH Hu1 _ _ H2 Hu2) as [<- <-]. done.
Qed.

Lemma reads_to_records pre l rest : Forall good_span l ->
  reads_to (pre ++ records l ++ rest) (length pre) l (length pre + length (records l)).
Proof.
  intros Hl. revert pre. induction Hl as [|s l Hs _ IH]; intros pre.
  { rewrite Nat.add_0_r. constructor. }
  rewrite records_cons, <-app_assoc. apply (reads_cons _ _ s (length (record s))).
  { rewrite drop_app_length. by apply read_record. }
  specialize (IH (pre ++ record s)). rewrite length_app, <-app_assoc in IH.
  rewrite length_app, Nat.add_assoc. exact IH.
Qed.

(** A segment that holds the records of [l] and then nothing readable. *)
Lemma intact_records l rest : Forall good_span l -> rest = [] \/ unreadable rest ->
  exists e, intactPrefix (records l ++ rest) = Some (l, length (records l), e) /\ (e = None <-> rest = []).
Proof.
  intros Hl Hrest. destruct (intactPrefix_total (records l ++ rest)) as (l' & good & e & -> & Hr & Hg & _ & Hend).
  assert (good = length (records l ++ rest) \/ unreadable (drop good (records l ++ rest))) as Hg'.
  { destruct e as [e|]; [right|by left]. destruct Hend. by eexists. }
  destruct (reads_to_det _ _ _ _ _ _ Hr (reads_to_records [] l rest Hl)) as [-> ->]; [done| |].
  { simpl. rewrite drop_app_length. destruct Hrest as [->|]; [left; by rewrite app_nil_r|by right]. }
  exists e. split; [done|]. simpl in Hend. rewrite length_app in Hend. destruct e as [e|].
  - destruct Hend as [Hlt _]. split; [done|]. intros ->. simpl in Hlt. lia.
  - split; [|done]. intros _. apply nil_length_inv. lia.
Qed.

(** [n] bytes of the records of [l] hold the first [j] whole, and no more. *)
Definition whole_records (l : list Span) (n j : nat) : Prop :=
  (j <= length l)%nat /\ (length (records (take j l)) <= n)%nat /\
  ((j < length l)%nat -> (n < length (records (take (S j) l)))%nat).

(** What is left of the records of [l] when they are cut anywhere: the whole
    ones, and a rest that is empty only between two records. *)
Lemma take_records l : Forall good_span l -> forall n,
  exists j rest, take n (records l) = records (take j l) ++ rest /\ (rest = [] \/ unreadable rest) /\
    ((n <= length (records l))%nat -> whole_records l n j).
Proof.
  intros Hl. induction Hl as [|s l Hs _ IH]; intros n.
  { exists 0%nat, []. split; [apply take_nil|]. split; [by left|]. intros Hn. split_and!; [done|simpl; lia|simpl; lia]. }
  rewrite records_cons. destruct (decide (n < length (record s))%nat) as [Hn|Hn].
  - exists 0%nat, (take n (record s)). split; [rewrite take_app_le by lia; done|].
    split; [right; by apply unreadable_record|]. intros _. split_and!; [simpl; lia..|].
    intros _. cbn [take]. rewrite records_cons. change (records []) with (@nil byte). by rewrite app_nil_r.
  - destruct (IH (n - length (record s))%nat) as (j & rest & E & Hrest & Hw). exists (S j), rest.
    split; [rewrite take_app_ge, E by lia; cbn [take]; by rewrite records_cons, <-app_assoc|].
    split; [done|]. rewrite length_app. intros Hlen. destruct Hw as (W1 & W2 & W3); [lia|].
    split_and!; [simpl; lia|cbn [take]; rewrite records_cons, length_app; lia|].
    cbn [length]. intros Hj. change (take (S (S j)) (s :: l)) with (s :: take (S j) l). rewrite records_cons, length_app.
    specialize (W3 ltac:(lia)). lia.
Qed.

Lemma reads_to_bound data good l good' :
  reads_to data good l good' -> (good <= length data)%nat -> (good <= good' <= length data)%nat.
Proof.
  induction 1 as [|g s n l g' Er _ IH]; [lia|]. intros Hg.
  apply readRecord_ok in Er as (Hn & _ & _). rewrite length_drop in Hn. lia.
Qed.

(** Cutting the data where reading stopped loses nothing. *)
Lemma reads_to_take data good l k : (good <= length data)%nat ->
  reads_to data good l k -> reads_to (take k data) good l k.
Proof.
  intros Hg H. induction H as [g|g s n l k Er H IH]; [constructor|].
  pose proof (readRecord_ok _ _ _ Er) as (Hn & _ & Hext). rewrite length_drop in Hn.
  pose proof (reads_to_bound _ _ _ _ H ltac:(lia)) as Hk.
  apply (reads_cons _ _ s n); [|apply IH; lia]. apply Hext.
  - rewrite length_drop, length_take. lia.
  - rewrite skipn_firstn_comm, take_take. f_equal. lia.
Qed.

(** ** The properties of the framing *)

(** C33: [Write] refuses a batch exactly when a span of it encodes to more than
    a record may hold, naming the first; otherwise the bytes it lays out read
    back as the batch.  Cut at any length they read back as exactly the spans
    whose records are whole, with the length of those records, and with an
    error exactly if bytes of a torn record are left over: nothing but the torn
    record is lost. *)
Theorem batch_framing (batch : list Span) :
  Forall valid_span batch -> Forall encodable batch ->
  match frame_all 0 [] batch with
  | Err (i, n) => exists s, batch !! i = Some s /\ n = zlen (payload s) /\ maxRecord < n /\
      Forall (fun x => zlen (payload x) <= maxRecord) (take i batch)
  | Ok b => intactPrefix b = Some (batch, length b, None) /\
      forall k, (k <= length b)%nat -> exists j e, whole_records batch k j /\
        intactPrefix (take k b) = Some (take j batch, length (records (take j batch)), e) /\
        (e = None <-> k = length (records (take j batch)))
  end.
Proof.
  intros Hv He. destruct (frame_all_spec batch 0 []) as [[Hf ->]|(j & s & Hj & Hs & Ht & ->)].
  - assert (Forall good_span batch) as Hg.
    { rewrite Forall_forall in *. intros s Hs. constructor; auto. }
    split.
    + destruct (intact_records batch [] Hg (or_introl eq_refl)) as (e & E & He').
      rewrite app_nil_r in E. simpl. rewrite E. by rewrite (proj2 He').
    + intros k Hk. simpl in *. destruct (take_records batch Hg k) as (j & rest & E & Hr & Hw).
      destruct (intact_records (take j batch) rest) as (e & Ei & Hnone); [by apply Forall_take|done|].
      exists j, e. split; [by apply Hw|]. rewrite E. split; [exact Ei|]. rewrite Hnone.
      apply (f_equal length) in E. rewrite length_take, length_app, Nat.min_l in E by done.
      split; [intros ->; simpl in E; lia|]. intros ->. apply nil_length_inv. lia.
  - exists s. split_and!; [done..|by apply Z.leb_gt|].
    apply (Forall_impl _ _ _ Ht). intros x. apply Z.leb_le.
Qed.

Lemma sample_good : good_span sample_span.
Proof. split; [by apply Validate_none|apply sample_encodable|by vm_compute]. Qed.

Example batch_framing_witness :
  exists b, frame_all 0 [] [sample_span; sample_span] = Ok b /\
    intactPrefix b = Some ([sample_span; sample_span], length b, None).
Proof.
  pose proof (batch_framing [sample_span; sample_span]) as H.
  destruct sample_good as [Hv He _]. specialize (H ltac:(by repeat constructor) ltac:(by repeat constructor)).
  assert (is_ok (frame_all 0 [] [sample_span; sample_span]) = true) as E by (vm_compute; reflexivity).
  apply is_ok_inv in E as [b Hb]. rewrite Hb in H. exists b. split; [exact Hb|]. exact (proj1 H).
Defined.

(** C32: a record in which one byte of the checksum or of the encoded span was
    changed is never read, whatever follows it: the checksum does not match. *)
Theorem corruption_detected (s : Span) (rest : list byte) (i : nat) (b b' : byte) :
  good_span s -> (4 <= i)%nat -> record s !! i = Some b -> b' <> b ->
  readRecord (<[i := b']> (record s) ++ rest) = Err ChecksumMismatch.
Proof.
  intros Hs Hi Hb Hne. assert (length (le_bytes 4 (zlen (payload s))) = 4)%nat as L1 by apply length_le_bytes.
  assert (length (le_bytes 4 (Checksum (payload s))) = 4)%nat as L2 by apply length_le_bytes.
  pose proof (good_fits _ Hs) as Hf%Z.leb_le. unfold record in *.
  rewrite insert_app_r_alt, L1 by lia. rewrite lookup_app_r, L1 in Hb by lia.
  destruct (decide (i - 4 < 4)%nat) as [Hlt|Hge].
  - rewrite insert_app_l by lia. rewrite lookup_app_l in Hb by lia. rewrite <-!app_assoc.
    rewrite readRecord_header by (by rewrite ?length_insert).
    destruct (Z.eqb_spec (Checksum (payload s)) (le_value (<[(i - 4)%nat:=b']> (le_bytes 4 (Checksum (payload s))))))
      as [E|]; [|done].
    exfalso. apply Hne. rewrite <-(le_bytes_u32 (Checksum (payload s))) in E at 1 by apply Checksum_u32.
    apply le_value_inj in E; [|by rewrite length_insert].
    apply (f_equal (.!! (i - 4)%nat)) in E. rewrite Hb, list_lookup_insert_eq in E by lia. congruence.
  - rewrite insert_app_r_alt by lia. rewrite lookup_app_r in Hb by lia. rewrite L2 in *.
    set (k := (i - 4 - 4)%nat) in *. rewrite <-!app_assoc.
    assert (zlen (payload s) = zlen (<[k := b']> (payload s))) as -> by (unfold zlen; by rewrite length_insert).
    rewrite readRecord_header; [|done|unfold zlen; by rewrite length_insert].
    rewrite le_bytes_u32 by apply Checksum_u32.
    destruct (Z.eqb_spec (Checksum (<[k := b']> (payload s))) (Checksum (payload s))) as [E|]; [|done].
    exfalso. pose proof (lookup_lt_Some _ _ _ Hb) as Hk.
    rewrite <-(list_insert_id _ _ _ Hb) in E at 2. rewrite !insert_take_drop in E by done.
    revert E. by apply Checksum_one_byte.
Qed.

Example corruption_detected_witness :
  exists b', readRecord (<[9%nat := b']> (record sample_span)) = Err ChecksumMismatch.
Proof.
  exists x00. rewrite <-(app_nil_r (<[9%nat := x00]> _)).
  assert (record sample_span !! 9%nat = Some x01) as E by (vm_compute; reflexivity).
  apply (corruption_detected sample_span [] 9 x01 x00 sample_good); [lia|exact E|discriminate].
Defined.

(** Reading a segment always ends, with the spans up to the first record
    that cannot be read; all of them are spans that encode and decode
    faithfully, and once the segment is cut there it reads as the same spans
    without an error. *)
Theorem intact_prefix_spec (data : list byte) :
  exists l good e, intactPrefix data = Some (l, good, e) /\ Forall encodable l /\
    (good <= length data)%nat /\
    match e with
    | None => good = length data
    | Some e => readRecord (drop good data) = Err e
    end /\
    intactPrefix (take good data) = Some (l, good, None).
Proof.
  destruct (intactPrefix_total data) as (l & good & e & E & Hr & Hg & He & Hend).
  exists l, good, e. split_and!; [done..| |]. { destruct e; [by destruct Hend|done]. }
  apply reads_to_take in Hr; [|lia]. assert (length (take good data) = good) as Hlen by (rewrite length_take; lia).
  destruct (intactPrefix_total (take good data)) as (l' & good' & e' & -> & Hr' & Hg' & _ & Hend').
  assert (l' = l /\ good' = good) as [-> ->].
  { apply (reads_to_det _ _ _ _ _ _ Hr' Hr); [|by left].
    destruct e' as [e'|]; [right; destruct Hend'; by eexists|by left]. }
  destruct e' as [e'|]; [|done]. destruct Hend' as [Hlt _]. lia.
Qed.
