(* ===== verification/Query.v ===== *)
(** * Queries: [internal/storage/storage.go]

    What a trace search asks for, why one is refused, what a match is, and the
    summary a search returns. *)

From S2P Require Import Prelude GoTime Ident Value Span.

(** The reasons [Query.Validate] gives, all wrapping [ErrBadQuery]. *)
Inductive bad_query :=
| OperationWithoutService
| NegativeDuration
| MaxBelowMin (max min : Duration)
| WindowEndsBeforeStart
| LimitOutOfRange.

Inductive storage_error :=
| ErrNotFound
| ErrClosed
| ErrBadQuery (why : bad_query).

Definition DefaultLimit : Z := 20.
Definition MaxLimit : Z := 1000.

Record Query : Type := MkQuery {
  qService : string;
  qOperation : string;
  qMinDuration : Duration;
  qMaxDuration : Duration;
  qStart : Time;
  qEnd : Time;
  qLimit : Z;
}.

(** [func (q Query) Validate() error]. *)
Definition Query_Validate (q : Query) : option storage_error :=
  if negb (bool_decide (qOperation q = ""%string)) && bool_decide (qService q = ""%string) then
    Some (ErrBadQuery OperationWithoutService)
  else if (qMinDuration q <? 0) || (qMaxDuration q <? 0) then
    Some (ErrBadQuery NegativeDuration)
  else if (0 <? qMaxDuration q) && (qMaxDuration q <? qMinDuration q) then
    Some (ErrBadQuery (MaxBelowMin (qMaxDuration q) (qMinDuration q)))
  else if negb (Time.IsZero (qStart q)) && negb (Time.IsZero (qEnd q)) &&
          Time.Before (qEnd q) (qStart q) then
    Some (ErrBadQuery WindowEndsBeforeStart)
  else if (qLimit q <? 0) || (MaxLimit <? qLimit q) then
    Some (ErrBadQuery LimitOutOfRange)
  else None.

(** [func (q Query) limit() int]. *)
Definition limit (q : Query) : Z := if qLimit q =? 0 then DefaultLimit else qLimit q.

(** [func (q Query) hasSpanPredicate() bool]. *)
Definition hasSpanPredicate (q : Query) : bool :=
  negb (bool_decide (qService q = ""%string)) || (0 <? qMinDuration q) || (0 <? qMaxDuration q).

(** [func (q Query) matchesSpan(s *trace.Span) bool]. *)
Definition matchesSpan (q : Query) (s : Span) : bool :=
  if negb (bool_decide (qService q = ""%string)) && negb (bool_decide (Service s = qService q)) then false
  else if negb (bool_decide (qOperation q = ""%string)) && negb (bool_decide (Name s = qOperation q)) then false
  else
    let d := Span_Duration s in
    if d <? qMinDuration q then false
    else if (0 <? qMaxDuration q) && (qMaxDuration q <? d) then false
    else true.

(** [func (q Query) overlaps(start, end time.Time) bool]. *)
Definition overlaps (q : Query) (start end_ : Time) : bool :=
  if negb (Time.IsZero (qStart q)) && Time.Before end_ (qStart q) then false
  else if negb (Time.IsZero (qEnd q)) && Time.After start (qEnd q) then false
  else true.

Record Summary : Type := MkSummary {
  sTraceID : TraceID;
  RootService : string;
  RootName : string;
  Complete : bool;
  sStart : Time;
  sDuration : Duration;
  Spans : Z;
  sFailed : bool;
}.

#[export] Instance summary_eq_dec : EqDecision Summary.
Proof. solve_decision. Defined.

(** ** Lemmas *)

(** What an accepted query satisfies. *)
Record valid_query (q : Query) : Prop := {
  vq_operation : qOperation q <> ""%string -> qService q <> ""%string;
  vq_min : 0 <= qMinDuration q;
  vq_max : 0 <= qMaxDuration q;
  vq_order : 0 < qMaxDuration q -> qMinDuration q <= qMaxDuration q;
  vq_window : qStart q <> Time.zero -> qEnd q <> Time.zero -> qStart q <= qEnd q;
  vq_limit : 0 <= qLimit q <= MaxLimit;
}.

Lemma operation_guard q :
  negb (bool_decide (qOperation q = ""%string)) && bool_decide (qService q = ""%string) = false <->
  (qOperation q <> ""%string -> qService q <> ""%string).
Proof. repeat case_bool_decide; simpl; split; intros; tauto || congruence. Qed.

Lemma Query_Validate_none q : Query_Validate q = None <-> valid_query q.
Proof.
  unfold Query_Validate.
  destruct (_ && _) eqn:E1.
  { split; [done|]. intros Hv. pose proof (vq_operation q Hv) as H.
    rewrite <- operation_guard in H. congruence. }
  rewrite operation_guard in E1.
  destruct (Z.ltb_spec (qMinDuration q) 0); [split; [done|intros []; lia]|].
  destruct (Z.ltb_spec (qMaxDuration q) 0); [split; [done|intros []; lia]|]. cbn [orb].
  destruct (Z.ltb_spec 0 (qMaxDuration q)), (Z.ltb_spec (qMaxDuration q) (qMinDuration q));
    cbn [andb]; try (split; [done|intros []; lia]).
  all: destruct (IsZero_spec (qStart q)), (IsZero_spec (qEnd q)), (Before_spec (qEnd q) (qStart q));
    cbn [negb andb]; try (split; [done|intros [? ? ? ? Hw ?]; specialize (Hw ltac:(done) ltac:(done)); lia]).
  all: destruct (Z.ltb_spec (qLimit q) 0), (Z.ltb_spec MaxLimit (qLimit q));
    cbn [orb]; (split; [intros ?; try done; split; (done || tauto || lia)|intros []; (done || lia)]).
Qed.

Lemma limit_range q : Query_Validate q = None -> 0 < limit q <= MaxLimit.
Proof.
  intros [? ? ? ? ? Hl]%Query_Validate_none. unfold limit, MaxLimit, DefaultLimit in *.
  destruct (Z.eqb_spec (qLimit q) 0); lia.
Qed.

Lemma validate_operation q :
  Query_Validate q = None -> qOperation q <> ""%string -> qService q <> ""%string.
Proof.
  intros Hq%Query_Validate_none. apply Hq.
Qed.

Lemma matchesSpan_spec q s :
  matchesSpan q s = true <->
  (qService q <> ""%string -> Service s = qService q) /\
  (qOperation q <> ""%string -> Name s = qOperation q) /\
  qMinDuration q <= Span_Duration s /\
  (0 < qMaxDuration q -> Span_Duration s <= qMaxDuration q).
Proof.
  unfold matchesSpan.
  repeat case_bool_decide; simpl; try (split; [done|tauto]);
  destruct (Z.ltb_spec (Span_Duration s) (qMinDuration q)); try (split; [done|lia]);
  destruct (Z.ltb_spec 0 (qMaxDuration q)), (Z.ltb_spec (qMaxDuration q) (Span_Duration s)); simpl;
    (split; [intros ?; try done; split_and!; (tauto || lia)|intros (?&?&?&?); (done || lia)]).
Qed.

Lemma overlaps_spec q a b :
  overlaps q a b = true <->
  (qStart q <> Time.zero -> qStart q <= b) /\ (qEnd q <> Time.zero -> a <= qEnd q).
Proof.
  unfold overlaps. time_cases; simpl; (split; [intros ?; try done; split; (tauto || lia)|intros [??]; (done || lia)]).
Qed.

(** ** Properties *)

(** [Query.Validate] accepts a query exactly when an operation comes with
    a service, durations are not negative and ordered, a two-sided window ends
    no earlier than it starts, and the limit is between 0 and [MaxLimit]; the
    limit an accepted query runs with is always between 1 and [MaxLimit]. *)
Theorem query_validate_spec (q : Query) :
  (Query_Validate q = None <-> valid_query q) /\
  (Query_Validate q = None -> 0 < limit q <= MaxLimit).
Proof. split; [apply Query_Validate_none|apply limit_range]. Qed.

Example query_validate_spec_witness :
  0 < limit (MkQuery "checkout" "" 0 0 Time.zero Time.zero 0) <= MaxLimit.
Proof.
  apply (query_validate_spec (MkQuery "checkout" "" 0 0 Time.zero Time.zero 0)).
  vm_compute. reflexivity.
Defined.
