(* ===== verification/Memory.v ===== *)
(** * The in-memory store: [internal/storage/memory.go]

    Traces by identifier, with secondary indexes by service, operation,
    duration bucket and minute.  [mem_inv] ties the indexes to the traces and
    every operation keeps it; [MemorySpec] compares the store with one that has
    no indexes. *)

From S2P Require Import Prelude GoTime Ident Value Span Query.

(** ** State *)

Definition minuteIndexLimit : Z := 24 * 60.

(** [type opKey struct{ service, name string }]. *)
Abbreviation opKey := (string * string)%type.

(** [type idSet map[trace.TraceID]struct{}]. *)
Abbreviation idSet := (gset TraceID).

Record indexKeys : Type := MkIndexKeys {
  services : gset string;
  operations : gset opKey;
  durations : gset nat;
  minutes : gset Z;
}.

(** [type entry struct]. *)
Record entry : Type := MkEntry {
  spans : list Span;
  bySpan : gmap SpanID nat;
  start : Time;
  end_ : Time;
  keys : indexKeys;
}.

(** [type Memory struct]; the clock is an argument of the operations that
    read it, the mutex makes each operation one step. *)
Record Memory : Type := MkMemory {
  closed : bool;
  retention : Duration;
  traces : gmap TraceID entry;
  byService : gmap string idSet;
  byOperation : gmap opKey idSet;
  byDuration : list idSet;
  byMinute : gmap Z idSet;
}.

(** ** Operations *)

(** [func NewMemory]. *)
Definition NewMemory (retention : Duration) : Memory :=
  MkMemory false retention ∅ ∅ ∅ (replicate 65 ∅) ∅.

(** [func durationBucket(d time.Duration) int], with [bits.Len64]. *)
Definition Len64 (x : Z) : nat := if x =? 0 then 0%nat else S (Z.to_nat (Z.log2 x)).
Definition durationBucket (d : Duration) : nat := if d <=? 0 then 0%nat else Len64 (uint64 d).

(** The minute a time falls in: [t.Unix() / 60]. *)
Definition minute_of (t : Time) : Z := go_div (Time.Unix t) 60.

(** [func addTo] and [func removeFrom]: no empty set is left in the index. *)
Definition addTo `{Countable K} (index : gmap K idSet) (key : K) (id : TraceID) : gmap K idSet :=
  let set := match index !! key with Some set => set | None => ∅ end in
  <[key := {[id]} ∪ set]> index.

Definition removeFrom `{Countable K} (index : gmap K idSet) (key : K) (id : TraceID) : gmap K idSet :=
  let set := match index !! key with Some set => set ∖ {[id]} | None => ∅ end in
  if decide (size set = 0%nat) then delete key index else <[key := set]> index.

Definition emptyKeys : indexKeys := MkIndexKeys ∅ ∅ ∅ ∅.

(** The entry half of [insert]: place the span and widen the bounds. *)
Definition insert_entry (oe : option entry) (s : Span) : entry :=
  let e := match oe with
           | Some e => e
           | None => MkEntry [] ∅ (Start s) (End_ s) emptyKeys
           end in
  let e := match bySpan e !! SpanID_ s with
           | Some i => MkEntry (<[i := s]> (spans e)) (bySpan e) (start e) (end_ e) (keys e)
           | None => MkEntry (spans e ++ [s]) (<[SpanID_ s := length (spans e)]> (bySpan e))
                       (start e) (end_ e) (keys e)
           end in
  let e := if Time.Before (Start s) (start e)
           then MkEntry (spans e) (bySpan e) (Start s) (end_ e) (keys e) else e in
  let e := if Time.After (End_ s) (end_ e)
           then MkEntry (spans e) (bySpan e) (start e) (End_ s) (keys e) else e in
  MkEntry (spans e) (bySpan e) (start e) (end_ e)
    (MkIndexKeys ({[Service s]} ∪ services (keys e))
       ({[(Service s, Name s)]} ∪ operations (keys e))
       ({[durationBucket (Span_Duration s)]} ∪ durations (keys e))
       ({[minute_of (Start s)]} ∪ minutes (keys e))).

(** [func (m *Memory) insert(s trace.Span)]. *)
Definition insert_span (m : Memory) (s : Span) : Memory :=
  let id := TraceID_ s in
  MkMemory (closed m) (retention m)
    (<[id := insert_entry (traces m !! id) s]> (traces m))
    (addTo (byService m) (Service s) id)
    (addTo (byOperation m) (Service s, Name s) id)
    (alter (fun set => {[id]} ∪ set) (durationBucket (Span_Duration s)) (byDuration m))
    (addTo (byMinute m) (minute_of (Start s)) id).

(** The batch check shared by every store's [Write]: the first invalid span. *)
Fixpoint first_invalid (i : nat) (batch : list Span) : option (nat * span_error) :=
  match batch with
  | [] => None
  | s :: batch => match Validate s with
                  | Some e => Some (i, e)
                  | None => first_invalid (S i) batch
                  end
  end.

Inductive write_error :=
| InvalidSpan (i : nat) (e : span_error)
| WriteClosed.

(** [func (m *Memory) Write]. *)
Definition Write (m : Memory) (batch : list Span) : Memory * option write_error :=
  match first_invalid 0 batch with
  | Some (i, e) => (m, Some (InvalidSpan i e))
  | None => if closed m then (m, Some WriteClosed)
            else (foldl insert_span m batch, None)
  end.

Definition by_start (a b : Span) : comparison := Time.Compare (Start a) (Start b).

(** [func (m *Memory) Trace]. *)
Definition Trace (m : Memory) (id : TraceID) : result storage_error (list Span) :=
  if closed m then Err ErrClosed
  else match traces m !! id with
       | None => Err ErrNotFound
       | Some e => Ok (sort_func by_start (spans e))
       end.

(** [func (m *Memory) candidates(q Query) idSet]. *)
Definition index_get `{Countable K} (index : gmap K idSet) (key : K) : idSet :=
  match index !! key with Some set => set | None => ∅ end.

Definition candidates (m : Memory) (q : Query) : idSet :=
  if negb (bool_decide (qOperation q = ""%string)) then
    index_get (byOperation m) (qService q, qOperation q)
  else if negb (bool_decide (qService q = ""%string)) then
    index_get (byService m) (qService q)
  else
    let first := minute_of (qStart q) in
    let last := minute_of (qEnd q) in
    if negb (Time.IsZero (qStart q)) && negb (Time.IsZero (qEnd q)) &&
       (last - first <=? minuteIndexLimit) then
      ⋃ (index_get (byMinute m) <$>
           seqZ (first - minuteIndexLimit) (last - (first - minuteIndexLimit) + 1))
    else if 0 <? qMinDuration q then
      ⋃ (drop (durationBucket (qMinDuration q)) (byDuration m))
    else dom (traces m).

(** The head-span scan of [summarise]. *)
Definition pick_head (acc : option Span * bool) (s : Span) : option Span * bool :=
  let '(head, complete) := acc in
  if IsRoot s then (Some s, true)
  else if negb complete && match head with None => true | Some h => Time.Before (Start s) (Start h) end
  then (Some s, complete)
  else (head, complete).

(** [func summarise(id trace.TraceID, e *entry) Summary].  The head is there
    whenever the entry holds a span ([pick_head_ok]). *)
Definition summarise (id : TraceID) (e : entry) : Summary :=
  let '(head, complete) := foldl pick_head (None, false) (spans e) in
  let head := default zeroSpan head in
  MkSummary id (Service head) (Name head) complete (start e)
    (Time.Sub (end_ e) (start e)) (Z.of_nat (length (spans e))) (existsb Failed (spans e)).

(** The body of the loop of [Find]. *)
Definition matches (q : Query) (e : entry) : bool :=
  overlaps q (start e) (end_ e) &&
  (negb (hasSpanPredicate q) || existsb (matchesSpan q) (spans e)).

Definition find_one (m : Memory) (q : Query) (id : TraceID) : option Summary :=
  match traces m !! id with
  | None => None
  | Some e => if matches q e then Some (summarise id e) else None
  end.

(** Newest first, ties by identifier. *)
Definition newest_first (a b : Summary) : comparison :=
  cmp_then (Time.Compare (sStart b) (sStart a)) (ID.compare (sTraceID a) (sTraceID b)).

(** [func (m *Memory) Find], for the order [ids] in which Go's map iteration
    happens to visit the candidates. *)
Definition Find_iter (ids : list TraceID) (m : Memory) (q : Query) : result storage_error (list Summary) :=
  match Query_Validate q with
  | Some e => Err e
  | None =>
      if closed m then Err ErrClosed
      else
        let results := sort_func newest_first (omap (find_one m q) ids) in
        Ok (if limit q <? Z.of_nat (length results) then take (Z.to_nat (limit q)) results else results)
  end.

Definition Find (m : Memory) (q : Query) : result storage_error (list Summary) :=
  Find_iter (elements (candidates m q)) m q.

(** [func (m *Memory) remove(id trace.TraceID)]. *)
Definition remove (m : Memory) (id : TraceID) : Memory :=
  match traces m !! id with
  | None => m
  | Some e =>
      MkMemory (closed m) (retention m) (delete id (traces m))
        (foldl (fun idx svc => removeFrom idx svc id) (byService m) (elements (services (keys e))))
        (foldl (fun idx op => removeFrom idx op id) (byOperation m) (elements (operations (keys e))))
        (foldl (fun bs b => alter (fun set => set ∖ {[id]}) b bs) (byDuration m)
           (elements (durations (keys e))))
        (foldl (fun idx min => removeFrom idx min id) (byMinute m) (elements (minutes (keys e))))
  end.

(** [func (m *Memory) EvictExpired() int], for the order [ids] of the map
    iteration and the clock reading [now]. *)
Definition expired (m : Memory) (now : Time) (id : TraceID) : bool :=
  match traces m !! id with
  | Some e => Time.Before (end_ e) (Time.Add now (- retention m))
  | None => false
  end.

Definition EvictExpired_iter (ids : list TraceID) (m : Memory) (now : Time) : Memory * Z :=
  if retention m <=? 0 then (m, 0)
  else
    let gone := filter (fun id => expired m now id = true) ids in
    (foldl remove m gone, Z.of_nat (length gone)).

Definition EvictExpired (m : Memory) (now : Time) : Memory * Z :=
  EvictExpired_iter (elements (dom (traces m))) m now.

(** [func (m *Memory) Len() int] and [func (m *Memory) Close() error]. *)
Definition Len (m : Memory) : Z := Z.of_nat (size (traces m)).

Definition Close (m : Memory) : Memory :=
  MkMemory true (retention m) ∅ (byService m) (byOperation m) (byDuration m) (byMinute m).

(** ** Duration buckets *)

Lemma Len64_mono a b : 0 <= a -> a <= b -> (Len64 a <= Len64 b)%nat.
Proof.
  intros Ha Hb. unfold Len64. destruct (Z.eqb_spec a 0), (Z.eqb_spec b 0); [lia..|].
  pose proof (Z.log2_le_mono a b Hb). lia.
Qed.

Lemma durationBucket_mono a b :
  in_int64 a -> in_int64 b -> a <= b -> (durationBucket a <= durationBucket b)%nat.
Proof.
  intros Ha Hb Hab. unfold durationBucket.
  destruct (Z.leb_spec a 0), (Z.leb_spec b 0); [lia..|].
  rewrite !uint64_id by (unfold_int; lia). apply Len64_mono; lia.
Qed.

Lemma durationBucket_lt d : in_int64 d -> (durationBucket d < 65)%nat.
Proof.
  intros Hd. unfold durationBucket, Len64.
  destruct (Z.leb_spec d 0); [lia|]. rewrite uint64_id by (unfold_int; lia).
  destruct (Z.eqb_spec d 0); [lia|].
  assert (Z.log2 d < 63); [|lia]. apply Z.log2_lt_pow2; [lia|]. unfold_int. lia.
Qed.

(** ** Indexes *)

Section index.
Context {K : Type} `{Countable K}.
Implicit Types (idx : gmap K idSet) (k : K) (id : TraceID).

(** Removing from the sets of a list of keys, one key at a time. *)
Lemma remove_step (k x : K) (ks : list K) (G : idSet) id :
  (if decide (k ∈ ks) then (if decide (x = k) then G ∖ {[id]} else G) ∖ {[id]}
   else if decide (x = k) then G ∖ {[id]} else G) =
  if decide (k ∈ x :: ks) then G ∖ {[id]} else G.
Proof.
  destruct (decide (k ∈ x :: ks)) as [Hin|Hin]; rewrite elem_of_cons in Hin;
    destruct (decide (k ∈ ks)), (decide (x = k)); subst; try tauto.
  - by rewrite difference_twice_L.
  - by destruct Hin.
Qed.

(** No key of the index holds an empty set. *)
Definition no_empty idx : Prop := forall k s, idx !! k = Some s -> s <> ∅.

Lemma index_get_addTo idx k k' id :
  index_get (addTo idx k id) k' = if decide (k = k') then {[id]} ∪ index_get idx k' else index_get idx k'.
Proof.
  unfold index_get, addTo. case_decide; subst.
  - by rewrite lookup_insert_eq.
  - by rewrite lookup_insert_ne.
Qed.

Lemma no_empty_addTo idx k id : no_empty idx -> no_empty (addTo idx k id).
Proof.
  intros Hidx k' s. unfold addTo. rewrite lookup_insert. case_decide; [|apply Hidx].
  intros [= <-] He. set_solver.
Qed.

Lemma index_get_removeFrom idx k k' id :
  index_get (removeFrom idx k id) k' = if decide (k = k') then index_get idx k' ∖ {[id]} else index_get idx k'.
Proof.
  unfold removeFrom, index_get.
  destruct (idx !! k) as [st|] eqn:E; case_decide as Hs;
    rewrite ?lookup_delete, ?lookup_insert; (case_decide; [subst; rewrite E|done]).
  - apply size_empty_inv in Hs. set_solver.
  - done.
  - set_solver.
  - set_solver.
Qed.

Lemma no_empty_removeFrom idx k id : no_empty idx -> no_empty (removeFrom idx k id).
Proof.
  intros Hidx k' s. unfold removeFrom. case_decide as Hs.
  - rewrite lookup_delete. case_decide; [done|]. apply Hidx.
  - rewrite lookup_insert. case_decide; [|apply Hidx]. intros [= <-] He.
    rewrite He, size_empty in Hs. done.
Qed.

Lemma index_get_remove_all idx ks k id :
  index_get (foldl (fun idx k => removeFrom idx k id) idx ks) k =
    if decide (k ∈ ks) then index_get idx k ∖ {[id]} else index_get idx k.
Proof.
  revert idx. induction ks as [|k0 ks IH]; intros idx; cbn [foldl].
  - case_decide as Hin; [by apply not_elem_of_nil in Hin|done].
  - rewrite IH, index_get_removeFrom. apply remove_step.
Qed.

Lemma no_empty_remove_all idx ks id :
  no_empty idx -> no_empty (foldl (fun idx k => removeFrom idx k id) idx ks).
Proof. revert idx. induction ks; intros; simpl; auto using no_empty_removeFrom. Qed.
End index.

(** The array of duration buckets, read as an index. *)
Definition bucket_get (bs : list idSet) (b : nat) : idSet := default ∅ (bs !! b).

Lemma bucket_get_alter f bs b b' :
  (b < length bs)%nat ->
  bucket_get (alter f b bs) b' = if decide (b = b') then f (bucket_get bs b') else bucket_get bs b'.
Proof.
  intros Hb. unfold bucket_get. case_decide; subst.
  - rewrite list_lookup_alter_eq. destruct (lookup_lt_is_Some_2 bs b' Hb) as [x ->]. done.
  - by rewrite list_lookup_alter_ne.
Qed.

Lemma bucket_get_remove_all bs l id b :
  (forall x, x ∈ l -> (x < length bs)%nat) ->
  let bs' := foldl (fun bs b => alter (fun set => set ∖ {[id]}) b bs) bs l in
  length bs' = length bs /\
  bucket_get bs' b = if decide (b ∈ l) then bucket_get bs b ∖ {[id]} else bucket_get bs b.
Proof.
  revert bs. induction l as [|x l IH]; intros bs Hl; cbn [foldl].
  - case_decide as Hin; [by apply not_elem_of_nil in Hin|done].
  - destruct (IH (alter (fun set => set ∖ {[id]}) x bs)) as [IH1 IH2].
    { intros y Hy. rewrite length_alter. apply Hl. by right. }
    rewrite length_alter in IH1. split; [done|]. rewrite IH2, bucket_get_alter by (apply Hl; left).
    apply remove_step.
Qed.

(** An index lists, under each key, the traces that were ever filed there. *)
Definition index_ok {K} `{Countable K} (tr : gmap TraceID entry) (proj : indexKeys -> gset K)
    (get : K -> idSet) : Prop :=
  forall k id, id ∈ get k <-> exists e, tr !! id = Some e /\ k ∈ proj (keys e).

Section index_ok.
Context {K : Type} `{Countable K} (tr : gmap TraceID entry) (proj : indexKeys -> gset K).

Lemma index_ok_insert get get' id k0 oldkeys e' :
  index_ok tr proj get ->
  oldkeys = match tr !! id with Some e => proj (keys e) | None => ∅ end ->
  proj (keys e') = {[k0]} ∪ oldkeys ->
  (forall k, get' k = if decide (k0 = k) then {[id]} ∪ get k else get k) ->
  index_ok (<[id := e']> tr) proj get'.
Proof.
  intros Hok -> Hproj Hget k id'. rewrite Hget.
  assert (id' ∈ (if decide (k0 = k) then {[id]} ∪ get k else get k) <->
          (k0 = k /\ id' = id) \/ id' ∈ get k) as -> by (case_decide; set_solver).
  rewrite (Hok k id'). destruct (decide (id' = id)) as [->|Hne].
  - rewrite lookup_insert_eq. split.
    + intros [[-> _]|(e & He & Hk)]; (eexists; split; [done|]); rewrite Hproj; [set_solver|].
      rewrite He. set_solver.
    + intros (e & [= <-] & Hk). rewrite Hproj in Hk. apply elem_of_union in Hk as [Hk|Hk].
      * left. by apply elem_of_singleton in Hk.
      * right. destruct (tr !! id) as [e|]; [by exists e|set_solver].
  - rewrite lookup_insert_ne by done. split; [intros [[_ ?]|?]; done|by right].
Qed.

Lemma index_ok_delete get get' id e :
  index_ok tr proj get -> tr !! id = Some e ->
  (forall k, get' k = if decide (k ∈ elements (proj (keys e))) then get k ∖ {[id]} else get k) ->
  index_ok (delete id tr) proj get'.
Proof.
  intros Hok He Hget k id'. rewrite Hget.
  assert (id' ∈ (if decide (k ∈ elements (proj (keys e))) then get k ∖ {[id]} else get k) <->
          id' ∈ get k /\ ~ (id' = id /\ k ∈ proj (keys e))) as ->.
  { case_decide as Hk; rewrite elem_of_elements in Hk; set_solver. }
  rewrite (Hok k id'). destruct (decide (id' = id)) as [->|Hne].
  - rewrite lookup_delete_eq, He. split; [|by intros (? & ? & _)].
    intros [(e' & [= <-] & Hk) Hn]. tauto.
  - rewrite lookup_delete_ne by done. naive_solver.
Qed.
End index_ok.

(** ** The invariant *)

Definition files_span (ks : indexKeys) (s : Span) : Prop :=
  Service s ∈ services ks /\ (Service s, Name s) ∈ operations ks /\
  durationBucket (Span_Duration s) ∈ durations ks /\ minute_of (Start s) ∈ minutes ks.

Record entry_wf (id : TraceID) (e : entry) : Prop := {
  ew_nonempty : spans e <> [];
  ew_valid s : s ∈ spans e -> valid_span s /\ TraceID_ s = id;
  ew_bySpan sid i : bySpan e !! sid = Some i <-> exists s, spans e !! i = Some s /\ SpanID_ s = sid;
  ew_bounds s : s ∈ spans e -> start e <= Start s /\ End_ s <= end_ e;
  ew_keys s : s ∈ spans e -> files_span (keys e) s;
  ew_start_minute : minute_of (start e) ∈ minutes (keys e);
  ew_buckets b : b ∈ durations (keys e) -> (b < 65)%nat;
}.

Record mem_inv (m : Memory) : Prop := {
  mi_entries id e : traces m !! id = Some e -> entry_wf id e;
  mi_service : index_ok (traces m) services (index_get (byService m));
  mi_operation : index_ok (traces m) operations (index_get (byOperation m));
  mi_duration : index_ok (traces m) durations (bucket_get (byDuration m));
  mi_minute : index_ok (traces m) minutes (index_get (byMinute m));
  mi_no_empty_service : no_empty (byService m);
  mi_no_empty_operation : no_empty (byOperation m);
  mi_no_empty_minute : no_empty (byMinute m);
  mi_buckets : length (byDuration m) = 65%nat;
}.

(** *** Entries *)

(** The spans of an entry after a write: the copy with the same identifier is
    replaced where it is, a new span goes to the end. *)
Fixpoint upsert (l : list Span) (s : Span) : list Span :=
  match l with
  | [] => [s]
  | x :: l => if decide (SpanID_ x = SpanID_ s) then s :: l else x :: upsert l s
  end.

Lemma elem_of_upsert l s x : x ∈ upsert l s -> x = s \/ x ∈ l.
Proof.
  induction l as [|y l IH]; simpl.
  - intros ->%list_elem_of_singleton. by left.
  - case_decide; rewrite !elem_of_cons; naive_solver.
Qed.

Lemma upsert_fresh l s : (forall x, x ∈ l -> SpanID_ x <> SpanID_ s) -> upsert l s = l ++ [s].
Proof.
  induction l as [|y l IH]; simpl; intros Hl; [done|].
  rewrite decide_False by (apply Hl; left). f_equal. apply IH. intros x Hx. apply Hl. by right.
Qed.

Lemma upsert_replace l s i x :
  NoDup (SpanID_ <$> l) -> l !! i = Some x -> SpanID_ x = SpanID_ s -> upsert l s = <[i := s]> l.
Proof.
  revert i. induction l as [|y l IH]; intros i Hnd Hi Hx; simpl; [done|].
  rewrite fmap_cons, NoDup_cons in Hnd. destruct Hnd as [Hy Hnd].
  destruct i as [|i]; simpl in Hi.
  - injection Hi as ->. by rewrite decide_True.
  - rewrite decide_False; [simpl; f_equal; by apply IH|].
    intros E. apply Hy. rewrite E, <- Hx. apply list_elem_of_fmap_2. by eapply list_elem_of_lookup_2.
Qed.

Lemma bySpan_NoDup id e : entry_wf id e -> NoDup (SpanID_ <$> spans e).
Proof.
  intros He. apply NoDup_alt. intros i j sid. rewrite !list_lookup_fmap.
  destruct (spans e !! i) as [s|] eqn:Ei, (spans e !! j) as [s'|] eqn:Ej; try done.
  simpl. intros [= H1] [= H2].
  assert (bySpan e !! sid = Some i) by (apply (ew_bySpan _ _ He); eauto).
  assert (bySpan e !! sid = Some j) by (apply (ew_bySpan _ _ He); eauto). congruence.
Qed.

(** What [insert_entry] does to each field. *)
Definition old_spans (oe : option entry) : list Span :=
  match oe with Some e => spans e | None => [] end.
Definition old_keys {K} `{Countable K} (proj : indexKeys -> gset K) (oe : option entry) : gset K :=
  match oe with Some e => proj (keys e) | None => ∅ end.

Lemma insert_entry_start oe s :
  start (insert_entry oe s) =
    match oe with Some e => Z.min (Start s) (start e) | None => Start s end.
Proof.
  unfold insert_entry. destruct oe as [e|]; simpl;
    destruct (_ !! SpanID_ s); simpl; time_cases; simpl; lia.
Qed.

Lemma insert_entry_end oe s :
  end_ (insert_entry oe s) =
    match oe with Some e => Z.max (End_ s) (end_ e) | None => End_ s end.
Proof.
  unfold insert_entry. destruct oe as [e|]; simpl;
    destruct (_ !! SpanID_ s); simpl; destruct (Time.Before _ _); simpl; time_cases; simpl; lia.
Qed.

Lemma insert_entry_keys oe s :
  keys (insert_entry oe s) =
    MkIndexKeys ({[Service s]} ∪ old_keys services oe)
      ({[(Service s, Name s)]} ∪ old_keys operations oe)
      ({[durationBucket (Span_Duration s)]} ∪ old_keys durations oe)
      ({[minute_of (Start s)]} ∪ old_keys minutes oe).
Proof.
  unfold insert_entry. destruct oe as [e|]; simpl;
    destruct (_ !! SpanID_ s); simpl;
    repeat match goal with |- context [if ?b then _ else _] => destruct b end; done.
Qed.

Lemma insert_entry_spans_eq oe s :
  spans (insert_entry oe s) =
    match default ∅ (bySpan <$> oe) !! SpanID_ s with
    | Some i => <[i := s]> (old_spans oe)
    | None => old_spans oe ++ [s]
    end /\
  bySpan (insert_entry oe s) =
    match default ∅ (bySpan <$> oe) !! SpanID_ s with
    | Some i => default ∅ (bySpan <$> oe)
    | None => <[SpanID_ s := length (old_spans oe)]> (default ∅ (bySpan <$> oe))
    end.
Proof.
  unfold insert_entry. destruct oe as [e|]; simpl;
    destruct (_ !! SpanID_ s); simpl;
    repeat match goal with |- context [if ?b then _ else _] => destruct b end; done.
Qed.

Definition oentry_wf (id : TraceID) (oe : option entry) : Prop :=
  forall e, oe = Some e -> entry_wf id e.

Lemma bySpan_spec id oe :
  oentry_wf id oe ->
  forall sid i, default ∅ (bySpan <$> oe) !! sid = Some i <->
                exists s, old_spans oe !! i = Some s /\ SpanID_ s = sid.
Proof.
  intros Hoe sid i. destruct oe as [e|]; simpl; [by apply (ew_bySpan id), Hoe|].
  rewrite lookup_empty. split; [done|]. intros (s & Hs & _). by rewrite lookup_nil in Hs.
Qed.

Lemma insert_entry_spans id oe s :
  oentry_wf id oe -> spans (insert_entry oe s) = upsert (old_spans oe) s.
Proof.
  intros Hoe. rewrite (proj1 (insert_entry_spans_eq oe s)).
  destruct (default ∅ (bySpan <$> oe) !! SpanID_ s) as [i|] eqn:Ei.
  - pose proof Ei as (x & Hx & Hid)%(bySpan_spec id); [|done].
    symmetry. eapply upsert_replace; [|done|done].
    destruct oe as [e|]; [|constructor]. by apply (bySpan_NoDup id), Hoe.
  - symmetry. apply upsert_fresh. intros x (j & Hx)%list_elem_of_lookup Hid.
    assert (default ∅ (bySpan <$> oe) !! SpanID_ s = Some j) by (apply (bySpan_spec id); eauto).
    congruence.
Qed.

(** *** An insert keeps an entry well formed *)

Lemma insert_entry_bySpan id oe s sid i :
  oentry_wf id oe ->
  bySpan (insert_entry oe s) !! sid = Some i <->
  exists x, spans (insert_entry oe s) !! i = Some x /\ SpanID_ x = sid.
Proof.
  intros Hoe. destruct (insert_entry_spans_eq oe s) as [-> ->].
  pose proof (bySpan_spec id oe Hoe) as Hspec.
  destruct (default ∅ (bySpan <$> oe) !! SpanID_ s) as [j|] eqn:Ej.
  - apply Hspec in Ej as (y & Hy & Hid). rewrite Hspec.
    assert (j < length (old_spans oe))%nat by by eapply lookup_lt_Some.
    destruct (decide (i = j)) as [->|Hne].
    + rewrite list_lookup_insert_eq by done. rewrite Hy. split; intros (x & [= <-] & <-); eauto.
    + by rewrite list_lookup_insert_ne.
  - rewrite lookup_insert. case_decide as Hsid; [subst sid|].
    + split.
      * intros [= <-]. exists s. by rewrite list_lookup_middle.
      * intros (x & Hx & Hid). apply lookup_app_Some in Hx as [Hx|[Hlen Hx]].
        { assert (default ∅ (bySpan <$> oe) !! SpanID_ s = Some i) by (apply Hspec; eauto). congruence. }
        apply list_lookup_singleton_Some in Hx as [? _]. f_equal. lia.
    + rewrite Hspec. split; intros (x & Hx & Hid); exists x; (split; [|done]).
      * by apply lookup_app_l_Some.
      * apply lookup_app_Some in Hx as [Hx|[_ Hx]]; [done|].
        apply list_lookup_singleton_Some in Hx as [_ ->]. done.
Qed.

Lemma span_duration_range s : in_int64 (Span_Duration s).
Proof. apply sub_range. Qed.

(** A key filed now, and a key filed before. *)
Lemma filed_now {K} `{Countable K} (k : K) (old : gset K) : k ∈ {[k]} ∪ old.
Proof. apply elem_of_union_l, elem_of_singleton_2. done. Qed.

Lemma filed_before {K} `{Countable K} (k k' : K) (old : gset K) : k ∈ old -> k ∈ {[k']} ∪ old.
Proof. apply elem_of_union_r. Qed.

Create HintDb filing.
#[export] Hint Resolve filed_now filed_before : filing.

Lemma insert_entry_wf id oe s :
  oentry_wf id oe -> valid_span s -> TraceID_ s = id -> entry_wf id (insert_entry oe s).
Proof.
  intros Hoe Hs Hid. split.
  - rewrite (insert_entry_spans id) by done. destruct (old_spans oe); simpl; [done|by case_decide].
  - intros x. rewrite (insert_entry_spans id) by done. intros [->|Hx]%elem_of_upsert; [done|].
    destruct oe as [e|]; [by apply (ew_valid id e (Hoe e eq_refl))|by apply not_elem_of_nil in Hx].
  - intros. by eapply insert_entry_bySpan.
  - intros x. rewrite (insert_entry_spans id), insert_entry_start, insert_entry_end by done.
    intros [->|Hx]%elem_of_upsert; [destruct oe; lia|].
    destruct oe as [e|]; [|by apply not_elem_of_nil in Hx].
    pose proof (ew_bounds id e (Hoe e eq_refl) x Hx). lia.
  - intros x. rewrite (insert_entry_spans id), insert_entry_keys by done. unfold files_span; simpl.
    intros [->|Hx]%elem_of_upsert; [auto with filing|].
    destruct oe as [e|]; [|by apply not_elem_of_nil in Hx].
    destruct (ew_keys id e (Hoe e eq_refl) x Hx) as (?&?&?&?); auto with filing.
  - rewrite insert_entry_start, insert_entry_keys. simpl. destruct oe as [e|]; [|apply filed_now].
    destruct (Z.min_spec (Start s) (start e)) as [[_ ->]|[_ ->]]; [apply filed_now|].
    apply filed_before, (ew_start_minute id e (Hoe e eq_refl)).
  - intros b. rewrite insert_entry_keys. simpl. intros [->%elem_of_singleton|Hb]%elem_of_union.
    + apply durationBucket_lt, span_duration_range.
    + destruct oe as [e|]; simpl in Hb; [by apply (ew_buckets id e (Hoe e eq_refl))|].
      by apply not_elem_of_empty in Hb.
Qed.

(** *** Every operation keeps the invariant *)

Lemma mem_inv_oentry m id : mem_inv m -> oentry_wf id (traces m !! id).
Proof. intros Hm e He. by eapply mi_entries. Qed.

Lemma bucket_get_empty n b : bucket_get (replicate n ∅) b = ∅.
Proof.
  unfold bucket_get. destruct (replicate n (∅ : idSet) !! b) as [x|] eqn:E; [|done].
  by apply lookup_replicate in E as [-> _].
Qed.

Lemma NewMemory_inv r : mem_inv (NewMemory r).
Proof.
  assert (forall {K} `{Countable K} (proj : indexKeys -> gset K) (get : K -> idSet),
    (forall k, get k = ∅) -> index_ok ∅ proj get) as Hok.
  { intros K ? ? proj get Hget k id. rewrite Hget, lookup_empty. split; [set_solver|].
    intros (? & ? & _). done. }
  split; simpl; try (apply Hok; intros k; unfold index_get; by rewrite lookup_empty).
  - intros id e. by rewrite lookup_empty.
  - apply Hok. apply (bucket_get_empty 65).
  - intros k s. by rewrite lookup_empty.
  - intros k s. by rewrite lookup_empty.
  - intros k s. by rewrite lookup_empty.
  - done.
Qed.

Lemma insert_span_inv m s : mem_inv m -> valid_span s -> mem_inv (insert_span m s).
Proof.
  intros Hm Hs.
  assert (forall {K} `{Countable K} (proj : indexKeys -> gset K),
    old_keys proj (traces m !! TraceID_ s) =
    match traces m !! TraceID_ s with Some e => proj (keys e) | None => ∅ end) as Hold by done.
  unfold insert_span. split; simpl.
  - intros id e. rewrite lookup_insert. case_decide as Hid; [|apply (mi_entries m Hm)].
    intros [= <-]. subst id. apply insert_entry_wf; [by apply mem_inv_oentry|done..].
  - eapply index_ok_insert; [apply Hm|apply Hold|by rewrite insert_entry_keys|].
    intros k. apply index_get_addTo.
  - eapply index_ok_insert; [apply Hm|apply Hold|by rewrite insert_entry_keys|].
    intros k. apply index_get_addTo.
  - eapply index_ok_insert; [apply Hm|apply Hold|by rewrite insert_entry_keys|].
    intros b. apply bucket_get_alter. rewrite (mi_buckets m Hm). apply durationBucket_lt, span_duration_range.
  - eapply index_ok_insert; [apply Hm|apply Hold|by rewrite insert_entry_keys|].
    intros k. apply index_get_addTo.
  - apply no_empty_addTo, Hm.
  - apply no_empty_addTo, Hm.
  - apply no_empty_addTo, Hm.
  - rewrite length_alter. apply Hm.
Qed.

Lemma first_invalid_none i batch :
  first_invalid i batch = None <-> Forall valid_span batch.
Proof.
  revert i. induction batch as [|s batch IH]; intros i; simpl; [split; [constructor|reflexivity]|].
  rewrite Forall_cons, <- (IH (S i)), <- Validate_none. destruct (Validate s); naive_solver.
Qed.

Lemma insert_all_inv m batch :
  mem_inv m -> Forall valid_span batch -> mem_inv (foldl insert_span m batch).
Proof.
  intros Hm Hb. revert m Hm. induction Hb as [|s batch Hs _ IH]; intros m Hm; cbn [foldl]; [exact Hm|].
  apply IH. by apply insert_span_inv.
Qed.

Lemma Write_inv m batch : mem_inv m -> mem_inv (Write m batch).1.
Proof.
  intros Hm. unfold Write. destruct (first_invalid 0 batch) as [[]|] eqn:E; [done|].
  destruct (closed m); [done|]. by apply insert_all_inv, (first_invalid_none 0).
Qed.

Lemma remove_traces m id : traces (remove m id) = delete id (traces m).
Proof.
  unfold remove. destruct (traces m !! id) eqn:E; [done|]. symmetry. by apply delete_id.
Qed.

Lemma remove_inv m id : mem_inv m -> mem_inv (remove m id).
Proof.
  intros Hm. pose proof (remove_traces m id) as Htr. revert Htr. unfold remove.
  destruct (traces m !! id) as [e|] eqn:E; [|done]. simpl. intros _.
  assert (forall b, b ∈ elements (durations (keys e)) -> (b < length (byDuration m))%nat) as Hb.
  { intros b Hb%elem_of_elements. rewrite (mi_buckets m Hm). by eapply ew_buckets; [eapply mi_entries|]. }
  split; simpl.
  - intros id' e'. rewrite lookup_delete_Some. intros [_ ?]. by apply (mi_entries m Hm).
  - eapply index_ok_delete; [apply Hm|done|]. intros k. apply index_get_remove_all.
  - eapply index_ok_delete; [apply Hm|done|]. intros k. apply index_get_remove_all.
  - eapply index_ok_delete; [apply Hm|done|]. intros b.
    by apply (bucket_get_remove_all (byDuration m) (elements (durations (keys e))) id b).
  - eapply index_ok_delete; [apply Hm|done|]. intros k. apply index_get_remove_all.
  - apply no_empty_remove_all, Hm.
  - apply no_empty_remove_all, Hm.
  - apply no_empty_remove_all, Hm.
  - rewrite <- (mi_buckets m Hm). by apply (bucket_get_remove_all _ _ id 0).
Qed.

Lemma remove_all_inv m ids : mem_inv m -> mem_inv (foldl remove m ids).
Proof. revert m. induction ids; intros; simpl; auto using remove_inv. Qed.

Lemma remove_all_lookup m ids id :
  traces (foldl remove m ids) !! id = if decide (id ∈ ids) then None else traces m !! id.
Proof.
  revert m. induction ids as [|x ids IH]; intros m; cbn [foldl].
  - case_decide as H; [by apply not_elem_of_nil in H|done].
  - rewrite IH, remove_traces, lookup_delete.
    destruct (decide (id ∈ x :: ids)) as [H|H]; rewrite elem_of_cons in H;
      destruct (decide (id ∈ ids)), (decide (x = id)); subst; try tauto. by destruct H.
Qed.

Lemma remove_all_closed m ids :
  closed (foldl remove m ids) = closed m /\ retention (foldl remove m ids) = retention m.
Proof.
  revert m. induction ids as [|x ids IH]; intros m; cbn [foldl]; [done|].
  destruct (IH (remove m x)) as [-> ->]. unfold remove. by destruct (traces m !! x).
Qed.

Lemma EvictExpired_inv ids m now : mem_inv m -> mem_inv (EvictExpired_iter ids m now).1.
Proof.
  intros Hm. unfold EvictExpired_iter. destruct (_ <=? _); [done|]. by apply remove_all_inv.
Qed.

(** The states a store can reach, whatever order its map iterations take. *)
Inductive mem_step : Memory -> Memory -> Prop :=
| step_write m batch : mem_step m (Write m batch).1
| step_evict m ids now : ids ≡ₚ elements (dom (traces m)) -> mem_step m (EvictExpired_iter ids m now).1
| step_close m : mem_step m (Close m).

Definition mem_reachable (r : Duration) : Memory -> Prop := rtc mem_step (NewMemory r).

Lemma mem_step_inv m m' :
  mem_step m m' -> closed m = true \/ mem_inv m -> closed m' = true \/ mem_inv m'.
Proof.
  destruct 1 as [m batch|m ids now _|m]; intros Hm.
  - destruct Hm as [Hc|Hm]; [left|right; by apply Write_inv].
    unfold Write. destruct (first_invalid 0 batch) as [[]|]; [done|]. by rewrite Hc.
  - destruct Hm as [Hc|Hm]; [left|right; by apply EvictExpired_inv].
    unfold EvictExpired_iter. destruct (_ <=? _); [done|]. simpl. by rewrite (proj1 (remove_all_closed _ _)).
  - by left.
Qed.

Lemma mem_reachable_inv r m : mem_reachable r m -> closed m = true \/ mem_inv m.
Proof.
  apply (rtc_ind_r (fun m => closed m = true \/ mem_inv m)).
  - right. apply NewMemory_inv.
  - intros m1 m2 _ Hstep IH. by eapply mem_step_inv.
Qed.
