(* ===== verification/MemorySpec.v ===== *)
(** * What the in-memory store promises, and that it keeps it

    The reference is the store without indexes: [full_scan] answers a query by
    looking at every trace, and [upsert] places a written span.  The indexed
    store of [Memory] agrees with it, whatever order Go's map iterations
    take. *)

From S2P Require Import Prelude GoTime Ident Value Span Query Memory.

(** ** The reference search *)

Definition scan_one (q : Query) (p : TraceID * entry) : option Summary :=
  if matches q p.2 then Some (summarise p.1 p.2) else None.

Definition full_scan (m : Memory) (q : Query) : list Summary :=
  take (Z.to_nat (limit q)) (sort_func newest_first (omap (scan_one q) (map_to_list (traces m)))).

(** Whether [candidates] uses the minute index. *)
Definition uses_minute_index (q : Query) : bool :=
  bool_decide (qOperation q = ""%string) && bool_decide (qService q = ""%string) &&
  negb (Time.IsZero (qStart q)) && negb (Time.IsZero (qEnd q)) &&
  (minute_of (qEnd q) - minute_of (qStart q) <=? minuteIndexLimit).

(** No stored trace that touches the window started more than a day before
    it.  Only the minute index needs this. *)
Definition window_covers (m : Memory) (q : Query) : Prop :=
  uses_minute_index q = true ->
  forall id e, traces m !! id = Some e -> overlaps q (start e) (end_ e) = true ->
  minute_of (qStart q) - minuteIndexLimit <= minute_of (start e).

(** ** The candidates cover the matches *)

Lemma minute_mono t u : t <= u -> minute_of t <= minute_of u.
Proof. intros. unfold minute_of. apply go_div_mono; [lia|]. by apply unix_mono. Qed.

Lemma has_predicate_span q e :
  matches q e = true -> hasSpanPredicate q = true ->
  exists s, s ∈ spans e /\ matchesSpan q s = true.
Proof.
  unfold matches. intros [_ Hm]%andb_true_iff Hp. rewrite Hp in Hm. simpl in Hm.
  apply existsb_exists in Hm as (s & Hs & Hms). exists s. split; [|done]. by apply list_elem_of_In.
Qed.

Lemma union_list_get {A} (f : A -> idSet) (l : list A) x id :
  x ∈ l -> id ∈ f x -> id ∈ ⋃ (f <$> l).
Proof.
  intros Hx Hid. apply elem_of_union_list. exists (f x). split; [|done].
  by apply list_elem_of_fmap_2.
Qed.

Section candidates.
Context (m : Memory) (q : Query) (id : TraceID) (e : entry).
Hypothesis Hm : mem_inv m.
Hypothesis Hq : Query_Validate q = None.
Hypothesis He : traces m !! id = Some e.
Hypothesis Hmatch : matches q e = true.

Let Hwf : entry_wf id e := mi_entries m Hm id e He.

Lemma candidates_operation :
  qOperation q <> ""%string -> id ∈ index_get (byOperation m) (qService q, qOperation q).
Proof.
  intros Ho. pose proof (validate_operation q Hq Ho) as Hs.
  destruct (has_predicate_span q e Hmatch) as (s & Hin & Hms).
  { unfold hasSpanPredicate. by rewrite bool_decide_false. }
  apply matchesSpan_spec in Hms as (H1 & H2 & _).
  apply (mi_operation m Hm). exists e. split; [done|].
  rewrite <- (H1 Hs), <- (H2 Ho). apply (ew_keys id e Hwf s Hin).
Qed.

Lemma candidates_service :
  qService q <> ""%string -> id ∈ index_get (byService m) (qService q).
Proof.
  intros Hs. destruct (has_predicate_span q e Hmatch) as (s & Hin & Hms).
  { unfold hasSpanPredicate. by rewrite bool_decide_false. }
  apply matchesSpan_spec in Hms as (H1 & _).
  apply (mi_service m Hm). exists e. split; [done|].
  rewrite <- (H1 Hs). apply (ew_keys id e Hwf s Hin).
Qed.

Lemma candidates_minute first last :
  first <= minute_of (start e) <= last ->
  id ∈ ⋃ (index_get (byMinute m) <$> seqZ first (last - first + 1)).
Proof.
  intros Hr. apply (union_list_get _ _ (minute_of (start e))).
  - apply elem_of_seqZ. lia.
  - apply (mi_minute m Hm). exists e. split; [done|]. apply (ew_start_minute id e Hwf).
Qed.

Lemma candidates_duration :
  0 < qMinDuration q -> id ∈ ⋃ (drop (durationBucket (qMinDuration q)) (byDuration m)).
Proof.
  intros Hmin. destruct (has_predicate_span q e Hmatch) as (s & Hin & Hms).
  { unfold hasSpanPredicate. destruct (Z.ltb_spec 0 (qMinDuration q)); [|lia]. by rewrite orb_true_r. }
  apply matchesSpan_spec in Hms as (_ & _ & Hd & _).
  pose proof (span_duration_range s) as Hr.
  assert (durationBucket (qMinDuration q) <= durationBucket (Span_Duration s))%nat as Hle.
  { apply durationBucket_mono; [unfold_int; lia|done..]. }
  assert (id ∈ bucket_get (byDuration m) (durationBucket (Span_Duration s))) as Hb.
  { apply (mi_duration m Hm). exists e. split; [done|]. apply (ew_keys id e Hwf s Hin). }
  unfold bucket_get in Hb. destruct (byDuration m !! _) as [set|] eqn:Eb; simpl in Hb; [|set_solver].
  apply elem_of_union_list. exists set. split; [|done].
  apply list_elem_of_lookup. exists (durationBucket (Span_Duration s) - durationBucket (qMinDuration q))%nat.
  rewrite lookup_drop. by replace (_ + (_ - _))%nat with (durationBucket (Span_Duration s)) by lia.
Qed.

Lemma matches_overlaps : overlaps q (start e) (end_ e) = true.
Proof. unfold matches in Hmatch. by apply andb_true_iff in Hmatch as [? _]. Qed.

Lemma candidates_complete : window_covers m q -> id ∈ candidates m q.
Proof.
  intros Hw. unfold candidates, window_covers, uses_minute_index in *.
  case_bool_decide as Ho; simpl; [|by apply candidates_operation].
  case_bool_decide as Hs; simpl; [|by apply candidates_service]. simpl in Hw.
  destruct (_ && _ && _) eqn:E.
  - specialize (Hw eq_refl id e He matches_overlaps).
    apply candidates_minute. split; [done|]. apply minute_mono.
    apply andb_true_iff in E as [[_ E]%andb_true_iff _]. apply negb_true_iff in E.
    pose proof matches_overlaps as Hov. apply overlaps_spec in Hov as [_ Hend]. apply Hend.
    intros Hz. unfold Time.IsZero in E. by rewrite Hz, Z.eqb_refl in E.
  - destruct (Z.ltb_spec 0 (qMinDuration q)); [by apply candidates_duration|].
    apply elem_of_dom. by exists e.
Qed.
End candidates.

(** ** Search *)

Lemma find_one_scan m q :
  omap (scan_one q) (map_to_list (traces m)) = omap (find_one m q) (map_to_list (traces m)).*1.
Proof.
  assert (forall l, (forall p, p ∈ l -> traces m !! p.1 = Some p.2) ->
    omap (scan_one q) l = omap (find_one m q) l.*1) as H.
  { induction l as [|p l IH]; [done|]. intros Hl. cbn [omap list_omap fmap list_fmap].
    unfold scan_one at 1, find_one at 1. rewrite (Hl p) by left.
    rewrite <- (IH (fun p' H => Hl p' (list_elem_of_further _ _ _ H))). done. }
  apply H. intros [id e]. apply elem_of_map_to_list.
Qed.

Lemma find_one_id m q id sm : find_one m q id = Some sm -> sTraceID sm = id.
Proof.
  unfold find_one. destruct (traces m !! id); [|done]. destruct (matches q e); [|done].
  intros [= <-]. unfold summarise. by destruct (foldl _ _ _).
Qed.

Lemma find_results_separated m q (ids : list TraceID) a b :
  a ∈ omap (find_one m q) ids -> b ∈ omap (find_one m q) ids -> newest_first a b = Eq -> a = b.
Proof.
  intros (x & Hx & Ha)%list_elem_of_omap (y & Hy & Hb)%list_elem_of_omap.
  unfold newest_first, cmp_then. destruct (Time.Compare _ _); [|done..].
  intros E%compare_id_eq. rewrite (find_one_id _ _ _ _ Ha), (find_one_id _ _ _ _ Hb) in E.
  subst. congruence.
Qed.

#[export] Instance newest_first_laws : CmpLaws newest_first.
Proof.
  exact (cmp_then_laws (cmp_rev (cmp_on sStart Time.Compare)) (cmp_on sTraceID ID.compare) _ _).
Qed.

Lemma Find_iter_scan m q ids :
  mem_inv m -> closed m = false -> Query_Validate q = None -> window_covers m q ->
  ids ≡ₚ elements (candidates m q) ->
  Find_iter ids m q = Ok (full_scan m q).
Proof.
  intros Hm Hc Hq Hw Hids. unfold Find_iter, full_scan. rewrite Hq, Hc.
  assert (sort_func newest_first (omap (find_one m q) ids) =
          sort_func newest_first (omap (scan_one q) (map_to_list (traces m)))) as <-.
  { rewrite find_one_scan. apply sort_func_unique; [apply _|by apply find_results_separated|].
    apply omap_perm_support.
    - rewrite Hids. apply NoDup_elements.
    - apply NoDup_fst_map_to_list.
    - intros id [sm Hsm]. rewrite Hids, elem_of_elements, list_elem_of_fmap.
      unfold find_one in Hsm. destruct (traces m !! id) as [e|] eqn:He; [|done].
      destruct (matches q e) eqn:Hmatch; [|done]. split; [intros _|intros _; by eapply candidates_complete].
      exists (id, e). split; [done|]. by apply elem_of_map_to_list. }
  f_equal. pose proof (limit_range q Hq).
  destruct (Z.ltb_spec (limit q) (Z.of_nat (length (sort_func newest_first (omap (find_one m q) ids))))); [done|].
  symmetry. apply take_ge. lia.
Qed.

(** ** Summaries *)

(** The head kept by the scan: the last root if there was one, otherwise the
    earliest span, the first one on a tie. *)
Definition head_ok (l : list Span) (acc : option Span * bool) : Prop :=
  acc.2 = existsb IsRoot l /\
  (l <> [] -> exists h, acc.1 = Some h /\ h ∈ l /\
     if acc.2 then IsRoot h = true else forall s, s ∈ l -> Start h <= Start s).

Lemma pick_head_step l s acc : l <> [] -> head_ok l acc -> head_ok (l ++ [s]) (pick_head acc s).
Proof.
  destruct acc as [head c]. intros Hne [Hc Hh]. destruct (Hh Hne) as (h & Hhead & Hin & Hcase).
  simpl in *. subst head. unfold pick_head.
  assert (s ∈ l ++ [s]) as Hs by (apply elem_of_app; right; left).
  assert (h ∈ l ++ [s]) as Hhl by (apply elem_of_app; by left).
  unfold head_ok. rewrite existsb_app. cbn [existsb]. rewrite orb_false_r, <- Hc.
  destruct (IsRoot s) eqn:Hr; cbn [fst snd].
  { rewrite orb_true_r. split; [done|]. by exists s. }
  rewrite orb_false_r. destruct c; cbn [negb andb fst snd].
  { split; [done|]. by exists h. }
  destruct (Before_spec (Start s) (Start h)); cbn [fst snd]; (split; [done|intros _]).
  - exists s. split_and!; [done..|]. intros x [Hx| ->%list_elem_of_singleton]%elem_of_app; [|lia].
    specialize (Hcase x Hx). lia.
  - exists h. split_and!; [done..|]. intros x [Hx| ->%list_elem_of_singleton]%elem_of_app; [|lia].
    by apply Hcase.
Qed.

Lemma pick_head_first s : head_ok [s] (pick_head (None, false) s).
Proof.
  unfold pick_head, head_ok. cbn [existsb]. rewrite orb_false_r.
  destruct (IsRoot s) eqn:Hr; cbn [negb andb fst snd]; (split; [done|intros _]); exists s;
    (split; [done|split; [left|]]); [done|].
  by intros x ->%list_elem_of_singleton.
Qed.

Lemma pick_head_ok l : l <> [] -> head_ok l (foldl pick_head (None, false) l).
Proof.
  induction l as [|s l IH] using rev_ind; [done|]. intros _.
  rewrite foldl_app. cbn [foldl]. destruct l as [|x l]; [apply pick_head_first|].
  by apply pick_head_step, IH.
Qed.

Lemma summarise_fields id e :
  spans e <> [] ->
  exists h, h ∈ spans e /\
    summarise id e =
      MkSummary id (Service h) (Name h) (existsb IsRoot (spans e)) (start e)
        (Time.Sub (end_ e) (start e)) (Z.of_nat (length (spans e))) (existsb Failed (spans e)) /\
    (if existsb IsRoot (spans e) then IsRoot h = true
     else forall s, s ∈ spans e -> Start h <= Start s).
Proof.
  intros Hne. unfold summarise. destruct (pick_head_ok (spans e) Hne) as [Hc Hh].
  destruct (foldl pick_head (None, false) (spans e)) as [head c]. simpl in Hc.
  destruct (Hh Hne) as (h & Hhead & Hin & Hcase). simpl in *. subst. by exists h.
Qed.

(** ** Writes *)

Lemma insert_all_spans m batch id :
  mem_inv m -> Forall valid_span batch ->
  old_spans (traces (foldl insert_span m batch) !! id) =
    foldl upsert (old_spans (traces m !! id)) (filter (fun s => TraceID_ s = id) batch).
Proof.
  intros Hm Hb. revert m Hm. induction Hb as [|s batch Hs _ IH]; intros m Hm; [done|].
  cbn [foldl]. rewrite IH by by apply insert_span_inv.
  rewrite filter_cons. unfold insert_span; cbn [traces]. rewrite lookup_insert.
  case_decide as Hid; [|done]. cbn [foldl].
  f_equal. subst id. by eapply insert_entry_spans, mem_inv_oentry.
Qed.

Lemma Write_ok m batch :
  first_invalid 0 batch = None -> closed m = false -> Write m batch = (foldl insert_span m batch, None).
Proof. unfold Write. by intros -> ->. Qed.

Lemma insert_all_closed m batch : closed (foldl insert_span m batch) = closed m.
Proof. revert m. induction batch as [|s batch IH]; intros m; [done|]. cbn [foldl]. by rewrite IH. Qed.

Lemma first_invalid_some i batch j e :
  first_invalid i batch = Some (j, e) ->
  exists pre s post, batch = pre ++ s :: post /\ j = (i + length pre)%nat /\
    Forall valid_span pre /\ Validate s = Some e.
Proof.
  revert i. induction batch as [|s batch IH]; intros i; cbn [first_invalid]; [done|].
  destruct (Validate s) as [e'|] eqn:E.
  - intros [= <- <-]. exists [], s, batch. split_and!; [done|simpl; lia|constructor|done].
  - intros (pre & s' & post & -> & -> & Hpre & He)%IH. exists (s :: pre), s', post.
    split_and!; [done|simpl; lia|constructor; [by apply Validate_none|done]|done].
Qed.

(** *** Retried batches *)

(** [m] already holds this very span. *)
Definition holds (m : Memory) (s : Span) : Prop :=
  exists e, traces m !! TraceID_ s = Some e /\ s ∈ spans e.

Definition span_key (s : Span) : TraceID * SpanID := (TraceID_ s, SpanID_ s).

Lemma elem_of_upsert_l l s : s ∈ upsert l s.
Proof. induction l as [|x l IH]; simpl; [left|]. case_decide; [left|by right]. Qed.

Lemma elem_of_upsert_other l s x : x ∈ l -> SpanID_ x <> SpanID_ s -> x ∈ upsert l s.
Proof.
  induction l as [|y l IH]; simpl; [by intros ?%not_elem_of_nil|].
  intros Hx Hne. apply elem_of_cons in Hx as [->|Hx].
  - rewrite decide_False by done. left.
  - case_decide; right; [done|by apply IH].
Qed.

Lemma insert_holds m s : mem_inv m -> holds (insert_span m s) s.
Proof.
  intros Hm. exists (insert_entry (traces m !! TraceID_ s) s). split.
  - unfold insert_span; simpl. by rewrite lookup_insert_eq.
  - rewrite (insert_entry_spans (TraceID_ s)) by by apply mem_inv_oentry. apply elem_of_upsert_l.
Qed.

Lemma insert_keeps_holds m s x :
  mem_inv m -> holds m x -> span_key x <> span_key s -> holds (insert_span m s) x.
Proof.
  intros Hm (e & He & Hx) Hne. unfold holds, insert_span; simpl.
  rewrite lookup_insert. case_decide as Hid; [|by exists e].
  eexists. split; [done|]. rewrite (insert_entry_spans (TraceID_ s)) by by apply mem_inv_oentry.
  rewrite Hid, He. simpl. apply elem_of_upsert_other; [done|].
  intros E. apply Hne. unfold span_key. by rewrite Hid, E.
Qed.

Lemma addTo_noop `{Countable K} (idx : gmap K idSet) k id :
  id ∈ index_get idx k -> addTo idx k id = idx.
Proof.
  unfold index_get, addTo. destruct (idx !! k) as [set|] eqn:E; [|set_solver].
  intros Hid. rewrite subseteq_union_1_L by set_solver. by apply insert_id.
Qed.

Lemma insert_entry_noop id e s : entry_wf id e -> s ∈ spans e -> insert_entry (Some e) s = e.
Proof.
  intros He Hs.
  pose proof (insert_entry_start (Some e) s) as H1. pose proof (insert_entry_end (Some e) s) as H2.
  pose proof (insert_entry_keys (Some e) s) as H3.
  destruct (insert_entry_spans_eq (Some e) s) as [H4 H5].
  destruct (insert_entry (Some e) s) as [sp by' st en ks]. simpl in *.
  apply list_elem_of_lookup in Hs as [i Hi].
  assert (bySpan e !! SpanID_ s = Some i) as Hby by (apply (ew_bySpan id e He); eauto).
  rewrite Hby in H4, H5. apply list_elem_of_lookup_2 in Hi as Hs.
  destruct (ew_bounds id e He s Hs). destruct (ew_keys id e He s Hs) as (?&?&?&?).
  destruct e as [sp0 by0 st0 en0 [k1 k2 k3 k4]]; simpl in *. subst.
  rewrite list_insert_id by done.
  rewrite !subseteq_union_1_L by (by apply singleton_subseteq_l). f_equal; lia.
Qed.

Lemma list_alter_noop {A} (f : A -> A) i (l : list A) :
  (forall x, l !! i = Some x -> f x = x) -> alter f i l = l.
Proof.
  intros Hf. apply list_eq. intros j. destruct (decide (j = i)) as [->|Hne].
  - rewrite list_lookup_alter_eq. destruct (l !! i) eqn:E; [|done]. simpl. by rewrite Hf.
  - by rewrite list_lookup_alter_ne.
Qed.

Lemma insert_noop m s : mem_inv m -> holds m s -> insert_span m s = m.
Proof.
  intros Hm (e & He & Hs). pose proof (mi_entries m Hm _ _ He) as Hwf.
  destruct (ew_keys _ _ Hwf s Hs) as (H1 & H2 & H3 & H4).
  unfold insert_span. rewrite He, (insert_entry_noop _ e s Hwf Hs), insert_id by done.
  rewrite !addTo_noop.
  - rewrite list_alter_noop; [by destruct m|].
    intros set Hset. apply subseteq_union_1_L, singleton_subseteq_l.
    assert (TraceID_ s ∈ bucket_get (byDuration m) (durationBucket (Span_Duration s))) as Hb.
    { apply (mi_duration m Hm). by exists e. }
    unfold bucket_get in Hb. by rewrite Hset in Hb.
  - apply (mi_minute m Hm). by exists e.
  - apply (mi_operation m Hm). by exists e.
  - apply (mi_service m Hm). by exists e.
Qed.

Lemma insert_all_holds m batch :
  mem_inv m -> Forall valid_span batch -> NoDup (span_key <$> batch) ->
  Forall (holds (foldl insert_span m batch)) batch /\
  forall x, holds m x -> span_key x ∉ span_key <$> batch -> holds (foldl insert_span m batch) x.
Proof.
  intros Hm Hb. revert m Hm. induction Hb as [|s batch Hs _ IH]; intros m Hm Hnd; cbn [foldl].
  { split; [constructor|done]. }
  rewrite fmap_cons, NoDup_cons in Hnd. destruct Hnd as [Hns Hnd].
  destruct (IH (insert_span m s) (insert_span_inv m s Hm Hs) Hnd) as [IH1 IH2]. split.
  - constructor; [|done]. apply IH2; [by apply insert_holds|done].
  - intros x Hx. rewrite fmap_cons, not_elem_of_cons. intros [Hne Hnin].
    apply IH2; [|done]. by apply insert_keeps_holds.
Qed.

Lemma insert_all_noop m batch : mem_inv m -> Forall (holds m) batch -> foldl insert_span m batch = m.
Proof.
  intros Hm. induction 1 as [|s batch Hs _ IH]; [done|]. cbn [foldl]. by rewrite insert_noop.
Qed.

(** ** Eviction *)

Lemma Evict_spec m ids now :
  ids ≡ₚ elements (dom (traces m)) -> 0 < retention m ->
  let '(m', n) := EvictExpired_iter ids m now in
  (forall id, traces m' !! id = if expired m now id then None else traces m !! id) /\
  n = Z.of_nat (length (filter (fun id => expired m now id = true) (elements (dom (traces m))))).
Proof.
  intros Hids Hr. unfold EvictExpired_iter. destruct (Z.leb_spec (retention m) 0); [lia|]. split.
  - intros id. rewrite remove_all_lookup. case_decide as Hin; rewrite list_elem_of_filter in Hin.
    + destruct Hin as [-> _]. done.
    + destruct (expired m now id) eqn:E; [|done]. destruct Hin. split; [done|].
      rewrite Hids, elem_of_elements, elem_of_dom. unfold expired in E.
      destruct (traces m !! id) as [e|]; [by exists e|done].
  - by rewrite Hids.
Qed.

(** ** Properties *)

(** A small span for the concrete examples: all fields not given are zero. *)
Definition example_span (t s p : byte) (svc name : string) (a b : Time) (code : StatusCode) : Span :=
  MkSpan (vreplicate 16 t) (vreplicate 8 s) (vreplicate 8 p) name SpanServer svc a b
    (MkStatus code "") [] [].

Definition example_batch : list Span :=
  [ example_span x01 x01 x00 "web" "GET /" 1000 9000 StatusUnset;
    example_span x01 x02 x01 "db" "query" 2000 5000 StatusError;
    example_span x02 x03 x00 "web" "GET /" 70000000000 70000000100 StatusUnset ].

Definition example_store : Memory := (Write (NewMemory (3600 * Second)) example_batch).1.

Lemma example_store_inv : mem_inv example_store.
Proof. apply Write_inv, NewMemory_inv. Qed.

(** C19: in every state the store can reach by writes and evictions, in any
    order and with any map iteration order, each entry is well formed and
    every index lists exactly the traces filed under each key, with no empty
    set left behind: nothing dangles after a removal and nothing is missing
    after a write. *)
Theorem store_invariant (r : Duration) (m : Memory) :
  mem_reachable r m -> closed m = true \/ mem_inv m.
Proof. apply mem_reachable_inv. Qed.

Example store_invariant_witness : closed example_store = true \/ mem_inv example_store.
Proof. apply (store_invariant (3600 * Second)). apply rtc_once, step_write. Defined.

(** C18: a search through the indexes returns exactly what looking at every
    trace would: the summaries of the matching traces, newest first, cut to
    the limit; and the order in which Go's map iteration visits the candidates
    does not matter.  The one condition is about the minute index: no trace
    that touches the window started more than [minuteIndexLimit] minutes
    before it. *)
Theorem find_is_full_scan (m : Memory) (q : Query) (ids : list TraceID) :
  mem_inv m -> closed m = false -> Query_Validate q = None -> window_covers m q ->
  ids ≡ₚ elements (candidates m q) ->
  Find_iter ids m q = Ok (full_scan m q).
Proof. apply Find_iter_scan. Qed.

Definition example_query : Query := MkQuery "db" "query" 1000 0 Time.zero Time.zero 0.

Example find_is_full_scan_witness :
  Find_iter (elements (candidates example_store example_query)) example_store example_query =
    Ok [MkSummary (vreplicate 16 x01) "web" "GET /" true 1000 8000 2 true].
Proof.
  assert (closed example_store = false) as Hc by (vm_compute; reflexivity).
  assert (Query_Validate example_query = None) as Hq by (vm_compute; reflexivity).
  assert (uses_minute_index example_query = false) as Hu by (vm_compute; reflexivity).
  assert (window_covers example_store example_query) as Hw.
  { intros H. rewrite Hu in H. discriminate H. }
  rewrite (find_is_full_scan example_store example_query _ example_store_inv Hc Hq Hw (Permutation_refl _)).
  vm_compute. reflexivity.
Defined.

(** That condition is needed.  A trace that started more than a day before
    a short window and still runs inside it overlaps the window and matches
    the query, but the search does not return it. *)
Theorem find_misses_long_running_trace :
  exists m q e, mem_reachable 0 m /\ Query_Validate q = None /\
    traces m !! vreplicate 16 x01 = Some e /\ overlaps q (start e) (end_ e) = true /\
    full_scan m q = [summarise (vreplicate 16 x01) e] /\ Find m q = Ok [].
Proof.
  exists (Write (NewMemory 0)
    [example_span x01 x01 x00 "batch" "nightly" 1 (3 * 86400 * Second) StatusUnset]).1.
  exists (MkQuery "" "" 0 0 (2 * 86400 * Second) (2 * 86400 * Second + 3600 * Second) 0).
  eexists. split_and!; [apply rtc_once, step_write|vm_compute; reflexivity..].
Qed.

(** A batch is written whole or not at all.  If some span is invalid, the
    first such span is reported and the store is unchanged; a closed store is
    unchanged too; otherwise every span of the batch is placed, replacing the
    copy with the same identifiers and keeping the others as they were. *)
Theorem write_spec (m : Memory) (batch : list Span) :
  mem_inv m ->
  match Write m batch with
  | (m', Some (InvalidSpan i e)) =>
      m' = m /\ exists pre s post, batch = pre ++ s :: post /\ i = length pre /\
        Forall valid_span pre /\ Validate s = Some e
  | (m', Some WriteClosed) => m' = m /\ closed m = true /\ Forall valid_span batch
  | (m', None) =>
      Forall valid_span batch /\ closed m' = false /\
      forall id, old_spans (traces m' !! id) =
        foldl upsert (old_spans (traces m !! id)) (filter (fun s => TraceID_ s = id) batch)
  end.
Proof.
  intros Hm. unfold Write. destruct (first_invalid 0 batch) as [[i e]|] eqn:E.
  - split; [done|]. apply first_invalid_some in E as (pre & s & post & -> & -> & ? & ?).
    by exists pre, s, post.
  - apply first_invalid_none in E. destruct (closed m) eqn:Hc; [done|].
    rewrite insert_all_closed. split_and!; [done..|]. intros id. by apply insert_all_spans.
Qed.

Example write_spec_witness :
  old_spans (traces example_store !! vreplicate 16 x02) =
    [example_span x02 x03 x00 "web" "GET /" 70000000000 70000000100 StatusUnset].
Proof.
  pose proof (write_spec (NewMemory (3600 * Second)) example_batch (NewMemory_inv _)) as H.
  rewrite (surjective_pairing (Write _ _)) in H.
  assert ((Write (NewMemory (3600 * Second)) example_batch).2 = None) as E by (vm_compute; reflexivity).
  rewrite E in H. unfold example_store. rewrite (proj2 (proj2 H)). vm_compute. reflexivity.
Defined.

(** A retried batch is not new data: writing a batch that names no span
    twice a second time leaves the whole store, indexes and bounds included,
    exactly as it was. *)
Theorem write_retry (m : Memory) (batch : list Span) :
  mem_inv m -> NoDup (span_key <$> batch) ->
  (Write (Write m batch).1 batch).1 = (Write m batch).1.
Proof.
  intros Hm Hnd. unfold Write at 2 3. destruct (first_invalid 0 batch) as [[]|] eqn:E.
  { simpl. unfold Write. by rewrite E. }
  destruct (closed m) eqn:Hc; cbn [fst].
  { unfold Write. by rewrite E, Hc. }
  rewrite Write_ok by (done || by rewrite insert_all_closed). cbn [fst].
  apply first_invalid_none in E. apply insert_all_noop; [by apply insert_all_inv|].
  by apply insert_all_holds.
Qed.

Example write_retry_witness : (Write example_store example_batch).1 = example_store.
Proof.
  refine (write_retry (NewMemory (3600 * Second)) example_batch (NewMemory_inv _) _).
  vm_decide.
Defined.

(** [Trace] returns the stored spans of one trace, each exactly once,
    ordered by start time with ties in stored order, and [ErrNotFound] exactly
    for a trace with no spans. *)
Theorem trace_spec (m : Memory) (id : TraceID) :
  mem_inv m -> closed m = false ->
  match Trace m id with
  | Ok l => l <> [] /\ l ≡ₚ old_spans (traces m !! id) /\ NoDup (SpanID_ <$> l) /\
            StronglySorted (fun a b => Start a <= Start b) l /\
            Forall (fun s => TraceID_ s = id /\ valid_span s) l
  | Err e => e = ErrNotFound /\ old_spans (traces m !! id) = []
  end.
Proof.
  intros Hm Hc. unfold Trace. rewrite Hc. destruct (traces m !! id) as [e|] eqn:He; [|done].
  pose proof (mi_entries m Hm id e He) as Hwf. pose proof (sort_func_perm by_start (spans e)) as Hp.
  split_and!; [|exact Hp| | |].
  - intros Hnil. rewrite Hnil in Hp. apply (ew_nonempty id e Hwf).
    symmetry in Hp. by apply Permutation_nil_r in Hp.
  - rewrite Hp. by apply (bySpan_NoDup id).
  - exact (sort_func_sorted (cmp_on Start Time.Compare) (spans e)).
  - rewrite Hp. apply Forall_forall. intros s Hs. destruct (ew_valid id e Hwf s Hs). done.
Qed.

Definition example_trace : list Span :=
  [ example_span x01 x01 x00 "web" "GET /" 1000 9000 StatusUnset;
    example_span x01 x02 x01 "db" "query" 2000 5000 StatusError ].

Example trace_spec_witness :
  Trace example_store (vreplicate 16 x01) = Ok example_trace /\ NoDup (SpanID_ <$> example_trace).
Proof.
  assert (Trace example_store (vreplicate 16 x01) = Ok example_trace) as E by (vm_compute; reflexivity).
  assert (closed example_store = false) as Hc by (vm_compute; reflexivity).
  pose proof (trace_spec example_store (vreplicate 16 x01) example_store_inv Hc) as H.
  rewrite E in H. split; [exact E|apply H].
Defined.

(** Eviction removes exactly the traces that ended before the retention
    window and reports how many, in any iteration order; every other trace
    keeps all its spans. *)
Theorem evict_spec (m : Memory) (ids : list TraceID) (now : Time) :
  ids ≡ₚ elements (dom (traces m)) -> 0 < retention m ->
  let '(m', n) := EvictExpired_iter ids m now in
  (forall id, traces m' !! id =
     match traces m !! id with
     | Some e => if end_ e <? now - retention m then None else Some e
     | None => None
     end) /\
  n = Z.of_nat (length (filter (fun id => expired m now id = true) (elements (dom (traces m))))).
Proof.
  intros Hids Hr. pose proof (Evict_spec m ids now Hids Hr) as H.
  destruct (EvictExpired_iter ids m now) as [m' n]. destruct H as [H ->]. split; [|done].
  intros id. rewrite H. unfold expired, Time.Before, Time.Add. by destruct (traces m !! id).
Qed.

Example evict_spec_witness :
  traces (EvictExpired example_store (3600 * Second + 1000000000)).1 !! vreplicate 16 x01 = None.
Proof.
  assert (retention example_store = 3600 * Second) as Hr by (vm_compute; reflexivity).
  assert (0 < retention example_store) as Hpos by (rewrite Hr; reflexivity).
  pose proof (evict_spec example_store (elements (dom (traces example_store)))
    (3600 * Second + 1000000000) (Permutation_refl _) Hpos) as H.
  unfold EvictExpired. rewrite (surjective_pairing (EvictExpired_iter _ _ _)) in H.
  rewrite (proj1 H). vm_compute. reflexivity.
Defined.

(** A summary counts every span, is marked failed when some span failed
    and complete when some span is a root, and is headed by a root span when
    there is one and by an earliest span when there is none. *)
Theorem summary_spec (id : TraceID) (e : entry) :
  entry_wf id e ->
  exists h, h ∈ spans e /\
    summarise id e =
      MkSummary id (Service h) (Name h) (existsb IsRoot (spans e)) (start e)
        (Time.Sub (end_ e) (start e)) (Z.of_nat (length (spans e))) (existsb Failed (spans e)) /\
    (if existsb IsRoot (spans e) then IsRoot h = true
     else forall s, s ∈ spans e -> Start h <= Start s).
Proof. intros He. by apply summarise_fields, (ew_nonempty id). Qed.

Example summary_spec_witness :
  exists e h, traces example_store !! vreplicate 16 x01 = Some e /\ h ∈ spans e /\
              RootName (summarise (vreplicate 16 x01) e) = Name h.
Proof.
  assert (exists e, traces example_store !! vreplicate 16 x01 = Some e) as [e He]
    by (eexists; vm_compute; reflexivity).
  destruct (summary_spec (vreplicate 16 x01) e (mi_entries _ example_store_inv _ _ He)) as (h & Hh & E & _).
  exists e, h. split; [exact He|]. split; [exact Hh|]. rewrite E. reflexivity.
Defined.

(** The duration index is never indexed out of range and never separates
    a longer span into a lower bucket, whatever 64-bit duration it is given;
    and an empty duration is in bucket 0. *)
Theorem duration_bucket_bounds (d d' : Duration) :
  in_int64 d -> in_int64 d' ->
  (durationBucket d < length (byDuration (NewMemory 0)))%nat /\
  (d <= d' -> (durationBucket d <= durationBucket d')%nat) /\
  (0 < d -> 2 ^ (Z.of_nat (durationBucket d) - 1) <= d < 2 ^ Z.of_nat (durationBucket d)).
Proof.
  intros Hd Hd'. split_and!; [by apply durationBucket_lt|by apply durationBucket_mono|].
  intros Hpos. unfold durationBucket, Len64. destruct (Z.leb_spec d 0); [lia|].
  rewrite uint64_id by (unfold_int; lia). destruct (Z.eqb_spec d 0); [lia|].
  pose proof (Z.log2_nonneg d). rewrite Nat2Z.inj_succ, Z2Nat.id, Z.sub_1_r, Z.pred_succ by done.
  by apply Z.log2_spec.
Qed.

Example duration_bucket_bounds_witness : (durationBucket maxInt64 < 65)%nat.
Proof.
  exact (proj1 (duration_bucket_bounds maxInt64 0 ltac:(by unfold_int) ltac:(by unfold_int))).
Defined.
