(* ===== verification/Assembly.v ===== *)
(** * Trace assembly: [internal/assembly/assembly.go]

    The nodes of a tree are heap objects that point at each other, so they are
    modelled as a heap from pointers to nodes, and each field assignment of the
    code is an update of that heap.  Go iterates over maps in a random order;
    every such loop takes its order as an argument here, and [AssemblySpec]
    shows that the result does not depend on it. *)

From S2P Require Import Prelude GoTime Ident Value Span.

(** ** Nodes and pointers *)

(** A pointer to a node: [Real id] to the node made for the received span
    [id], [Hold id] to the placeholder made for the missing span [id].  [Build]
    allocates at most one live node of either sort per identifier. *)
Inductive ptr : Type :=
| Real (id : SpanID)
| Hold (id : SpanID).

#[export] Instance ptr_eq_dec : EqDecision ptr.
Proof. solve_decision. Defined.

#[export] Program Instance ptr_countable : Countable ptr | 0 := {|
  encode p := encode (match p with Real id => inl id | Hold id => inr id end : SpanID + SpanID);
  decode q := x ← decode q; Some (match x : SpanID + SpanID with inl id => Real id | inr id => Hold id end)
|}.
Next Obligation. intros [id|id]; simpl; rewrite decode_encode; done. Qed.

(** [type Phase uint8]. *)
Inductive Phase := Open_ | Sealed.

(** [type Presence uint8]. *)
Inductive Presence := Received | Awaited | Lost.

#[export] Instance presence_eq_dec : EqDecision Presence.
Proof. solve_decision. Defined.

Definition Presence_String (p : Presence) : string :=
  match p with
  | Awaited => "awaited"
  | Lost => "lost"
  | _ => "received"
  end.

(** [type Node struct].  A nil [Parent] is [None]. *)
Record Node : Type := MkNode {
  nSpan : Span;
  nPresence : Presence;
  Parent : option ptr;
  Children : list ptr;
  CycleBroken : bool;
}.

Definition Node_Missing (n : Node) : bool := negb (bool_decide (nPresence n = Received)).

(** [type Tree struct], with the heap its pointers live in. *)
Record Tree : Type := MkTree {
  tTraceID : TraceID;
  Roots : list ptr;
  nodes : gmap SpanID ptr;
  missing : list ptr;
  cycles : list ptr;
  heap : gmap ptr Node;
}.

Definition zeroNode : Node := MkNode zeroSpan Received None [] false.

(** [*p].  Every pointer a [Tree] holds is in its heap ([forest]), so the
    default is never seen. *)
Definition deref (h : gmap ptr Node) (p : ptr) : Node := default zeroNode (h !! p).

Abbreviation node t p := (deref (heap t) p).

(** Field assignments. *)
Definition with_heap (t : Tree) (h : gmap ptr Node) : Tree :=
  MkTree (tTraceID t) (Roots t) (nodes t) (missing t) (cycles t) h.
Definition with_roots (t : Tree) (r : list ptr) : Tree :=
  MkTree (tTraceID t) r (nodes t) (missing t) (cycles t) (heap t).
Definition with_missing (t : Tree) (m : list ptr) : Tree :=
  MkTree (tTraceID t) (Roots t) (nodes t) m (cycles t) (heap t).
Definition with_cycles (t : Tree) (c : list ptr) : Tree :=
  MkTree (tTraceID t) (Roots t) (nodes t) (missing t) c (heap t).

Definition set_span (s : Span) (n : Node) : Node :=
  MkNode s (nPresence n) (Parent n) (Children n) (CycleBroken n).
Definition set_parent (p : option ptr) (n : Node) : Node :=
  MkNode (nSpan n) (nPresence n) p (Children n) (CycleBroken n).
Definition set_children (f : list ptr -> list ptr) (n : Node) : Node :=
  MkNode (nSpan n) (nPresence n) (Parent n) (f (Children n)) (CycleBroken n).
Definition set_broken (n : Node) : Node :=
  MkNode (nSpan n) (nPresence n) (Parent n) (Children n) true.

Definition set_times (start end_ : Time) (s : Span) : Span :=
  MkSpan (TraceID_ s) (SpanID_ s) (ParentSpanID s) (Name s) (Kind s) (Service s) start end_
    (Status_ s) (Attributes s) (Resource s).

Definition modify (p : ptr) (f : Node -> Node) (t : Tree) : Tree :=
  with_heap t (alter f p (heap t)).

(** [func byStart(a, b *Node) int]. *)
Definition span_order (a b : Span) : comparison :=
  cmp_then (Time.Compare (Start a) (Start b)) (ID.compare (SpanID_ a) (SpanID_ b)).
Definition byStart (h : gmap ptr Node) (a b : ptr) : comparison :=
  span_order (nSpan (deref h a)) (nSpan (deref h b)).

(** ** Build *)

(** [Fault] is a nil dereference, an index out of range or a loop that has not
    ended within its fuel; [build_spec] shows that no input leads to one. *)
Inductive build_error := ErrNoSpans | ErrMixedTraces | Fault.

(** The first loop: one node per span, the last occurrence of an identifier
    replacing the earlier ones. *)
Fixpoint collect (spans : list Span) (t : Tree) : result build_error Tree :=
  match spans with
  | [] => Ok t
  | s :: spans' =>
      if negb (bool_decide (TraceID_ s = tTraceID t)) then Err ErrMixedTraces
      else collect spans'
             (MkTree (tTraceID t) (Roots t) (<[SpanID_ s := Real (SpanID_ s)]> (nodes t))
                (missing t) (cycles t)
                (<[Real (SpanID_ s) := MkNode s Received None [] false]> (heap t)))
  end.

(** [&Node{Span: trace.Span{TraceID: t.TraceID, SpanID: id}, Presence: absent}]. *)
Definition placeholder (tid : TraceID) (absent : Presence) (id : SpanID) : Node :=
  MkNode (MkSpan tid id zeroID "" SpanUnspecified "" Time.zero Time.zero (MkStatus StatusUnset "") [] [])
    absent None [] false.

(** The body of the linking loop, for the node [n]. *)
Definition link_node (absent : Presence) (n : ptr) (st : Tree * gmap SpanID ptr)
    : Tree * gmap SpanID ptr :=
  let '(t, placeholders) := st in
  let s := nSpan (node t n) in
  if IsRoot s then (with_roots t (Roots t ++ [n]), placeholders)
  else
    let found := match nodes t !! ParentSpanID s with
                 | Some p => Some p
                 | None => placeholders !! ParentSpanID s
                 end in
    let '(parent, t, placeholders) :=
      match found with
      | Some p => (p, t, placeholders)
      | None =>
          let p := Hold (ParentSpanID s) in
          (p,
           MkTree (tTraceID t) (Roots t ++ [p]) (nodes t) (missing t ++ [p]) (cycles t)
             (<[p := placeholder (tTraceID t) absent (ParentSpanID s)]> (heap t)),
           <[ParentSpanID s := p]> placeholders)
      end in
    let t := modify n (set_parent (Some parent)) t in
    let t := modify parent (set_children (fun cs => cs ++ [n])) t in
    (t, placeholders).

(** The linking loop, visiting the nodes in the order [ord]. *)
Definition link (absent : Presence) (ord : list ptr) (t : Tree) : Tree :=
  (foldl (fun st n => link_node absent n st) (t, ∅) ord).1.

(** ** breakCycles *)

(** [mark]: depth-first from a stack whose top is its last element. *)
Fixpoint mark_loop (fuel : nat) (h : gmap ptr Node) (stack : list ptr) (reached : gset ptr)
    : option (gset ptr) :=
  match fuel with
  | O => None
  | S fuel =>
      match last stack with
      | None => Some reached
      | Some n =>
          let stack := take (length stack - 1) stack in
          mark_loop fuel h (stack ++ Children (deref h n)) ({[n]} ∪ reached)
      end
  end.

(** Every iteration takes a different node off the stack, and one more finds
    it empty. *)
Definition mark (h : gmap ptr Node) (from : ptr) (reached : gset ptr) : option (gset ptr) :=
  mark_loop (S (size h)) h [from] reached.

Fixpoint mark_all (h : gmap ptr Node) (roots : list ptr) (reached : gset ptr) : option (gset ptr) :=
  match roots with
  | [] => Some reached
  | r :: roots' => reached ← mark h r reached; mark_all h roots' reached
  end.

(** [for !seen[n] { seen[n] = true; n = n.Parent }], then the [n] it ends at.
    A nil [n] would be dereferenced. *)
Fixpoint find_cycle (fuel : nat) (h : gmap ptr Node) (n : ptr) (seen : gset ptr) : option ptr :=
  match fuel with
  | O => None
  | S fuel =>
      if bool_decide (n ∈ seen) then Some n
      else n' ← Parent (deref h n); find_cycle fuel h n' ({[n]} ∪ seen)
  end.

(** [for m := n.Parent; m != n; m = m.Parent] keeping the earliest in [cut]. *)
Fixpoint earliest (fuel : nat) (h : gmap ptr Node) (n m cut : ptr) : option ptr :=
  match fuel with
  | O => None
  | S fuel =>
      if bool_decide (m = n) then Some cut
      else
        let cut := match byStart h m cut with Lt => m | _ => cut end in
        m' ← Parent (deref h m); earliest fuel h n m' cut
  end.

(** The body of the loop over the stranded nodes. *)
Definition break_one (n : ptr) (t : Tree) (reached : gset ptr) : option (Tree * gset ptr) :=
  if bool_decide (n ∈ reached) then Some (t, reached)
  else
    let fuel := S (S (size (heap t))) in
    n ← find_cycle fuel (heap t) n ∅;
    m ← Parent (node t n);
    cut ← earliest fuel (heap t) n m n;
    parent ← Parent (node t cut);
    let t := modify parent (set_children (filter (fun c => c <> cut))) t in
    let t := modify cut (set_parent None) t in
    let t := modify cut set_broken t in
    let t := with_roots t (Roots t ++ [cut]) in
    let t := with_cycles t (cycles t ++ [cut]) in
    reached ← mark (heap t) cut reached;
    Some (t, reached).

Fixpoint break_all (stranded : list ptr) (t : Tree) (reached : gset ptr) : option (Tree * gset ptr) :=
  match stranded with
  | [] => Some (t, reached)
  | n :: stranded' => '(t, reached) ← break_one n t reached; break_all stranded' t reached
  end.

(** [func (t *Tree) breakCycles()]; [ord] is the order of [range t.nodes]. *)
Definition breakCycles (ord : list ptr) (t : Tree) : option Tree :=
  reached ← mark_all (heap t) (Roots t) ∅;
  if bool_decide (size reached = (size (nodes t) + length (missing t))%nat) then Some t
  else
    let stranded := sort_func (byStart (heap t)) (filter (fun n => n ∉ reached) ord) in
    '(t, _) ← break_all stranded t reached;
    Some (with_cycles t (sort_func (byStart (heap t)) (cycles t))).

(** ** Envelopes and sorting *)

(** The envelope of a placeholder's children. *)
Definition widen (h : gmap ptr Node) (c : ptr) (b : Time * Time) : Time * Time :=
  let '(start, end_) := b in
  (if Time.Before (Start (nSpan (deref h c))) start then Start (nSpan (deref h c)) else start,
   if Time.After (End_ (nSpan (deref h c))) end_ then End_ (nSpan (deref h c)) else end_).

(** [p.Children[0]] panics when there is none. *)
Definition envelope (h : gmap ptr Node) (p : ptr) : option (Time * Time) :=
  match Children (deref h p) with
  | [] => None
  | c :: cs =>
      let s := nSpan (deref h c) in
      Some (foldl (fun b c => widen h c b) (Start s, End_ s) cs)
  end.

Definition set_envelope (b : Time * Time) (n : Node) : Node :=
  set_span (set_times b.1 b.2 (nSpan n)) n.

Fixpoint set_envelopes (ps : list ptr) (t : Tree) : option Tree :=
  match ps with
  | [] => Some t
  | p :: ps' => b ← envelope (heap t) p; set_envelopes ps' (modify p (set_envelope b) t)
  end.

Definition sort_children (ps : list ptr) (t : Tree) : Tree :=
  foldl (fun t p => modify p (set_children (sort_func (byStart (heap t)))) t) t ps.

(** [func Build(spans []trace.Span, phase Phase)]; [o1], [o2]
    and [o3] are the orders of its three loops over [t.nodes]. *)
Definition absent_of (phase : Phase) : Presence :=
  match phase with Sealed => Lost | Open_ => Awaited end.

Definition Build_iter (o1 o2 o3 : list ptr) (spans : list Span) (phase : Phase)
    : result build_error Tree :=
  match spans with
  | [] => Err ErrNoSpans
  | s0 :: _ =>
      let? t := collect spans (MkTree (TraceID_ s0) [] ∅ [] [] ∅) in
      let t := link (absent_of phase) o1 t in
      match (t ← breakCycles o2 t; set_envelopes (missing t) t) with
      | None => Err Fault
      | Some t =>
          let t := with_roots t (sort_func (byStart (heap t)) (Roots t)) in
          let t := with_missing t (sort_func (byStart (heap t)) (missing t)) in
          let t := sort_children o3 t in
          Ok (sort_children (missing t) t)
      end
  end.

(** The pointers [range t.nodes] yields: one per identifier received. *)
Definition received (spans : list Span) : list ptr :=
  Real <$> remove_dups (SpanID_ <$> spans).

Definition Build (spans : list Span) (phase : Phase) : result build_error Tree :=
  Build_iter (received spans) (received spans) (received spans) spans phase.

(** ** Questions about a tree *)

Definition Tree_Len (t : Tree) : nat := size (nodes t).
Definition Tree_Missing (t : Tree) : list ptr := missing t.
Definition Tree_Cycles (t : Tree) : list ptr := cycles t.
Definition Complete_ (t : Tree) : bool :=
  bool_decide (length (missing t) = 0%nat) && bool_decide (length (cycles t) = 0%nat) &&
  bool_decide (length (Roots t) = 1%nat).
Definition Tree_Node (t : Tree) (id : SpanID) : option ptr := nodes t !! id.

(** [func walk]; the
    callback's effects are a state it threads. *)
Section walk.
Context {S : Type} (h : gmap ptr Node) (fn : ptr -> Z -> S -> S * bool).

Fixpoint walk (fuel : nat) (n : ptr) (depth : Z) (s : S) : option (S * bool) :=
  match fuel with
  | O => None
  | Datatypes.S fuel =>
      let '(s, ok) := fn n depth s in
      if negb ok then Some (s, false)
      else
        (fix each (cs : list ptr) (s : S) : option (S * bool) :=
           match cs with
           | [] => Some (s, true)
           | c :: cs' =>
               '(s, ok) ← walk fuel c (depth + 1) s;
               if negb ok then Some (s, false) else each cs' s
           end) (Children (deref h n)) s
  end.

Fixpoint walk_roots (fuel : nat) (rs : list ptr) (s : S) : option S :=
  match rs with
  | [] => Some s
  | r :: rs' =>
      '(s, ok) ← walk fuel r 0 s;
      if negb ok then Some s else walk_roots fuel rs' s
  end.
End walk.

(** [func (t *Tree) Walk(fn func(n *Node, depth int) bool)]; no path is longer
    than there are nodes. *)
Definition Walk {S} (t : Tree) (fn : ptr -> Z -> S -> S * bool) (s : S) : option S :=
  walk_roots (heap t) fn (size (heap t)) (Roots t) s.
