(* ===== verification/Forest.v ===== *)
(** * Heaps of linked nodes

    What [Assembly]'s loops do on a heap whose parent and child links agree:
    [mark] collects exactly the nodes below its start, the parent walk of
    [breakCycles] ends on a cycle, the walk round the cycle finds its earliest
    node, and [Walk] is a preorder traversal. *)

From S2P Require Import Prelude GoTime Ident Value Span Assembly.

(** [c]'s parent link leads to [p]; [x] lies in the subtree of [y]. *)
Definition up (h : gmap ptr Node) (c p : ptr) : Prop := Parent (deref h c) = Some p.
Definition below (h : gmap ptr Node) : ptr -> ptr -> Prop := rtc (up h).

(** The parent and child links agree, and lead nowhere outside the heap. *)
Record links (h : gmap ptr Node) : Prop := {
  links_up : forall c p, up h c p <-> c ∈ Children (deref h p);
  links_nodup : forall p, NoDup (Children (deref h p));
  links_dom : forall c p, up h c p -> p ∈ dom h;
}.

Definition roots_of (h : gmap ptr Node) (roots : list ptr) : Prop :=
  NoDup roots /\ forall p, p ∈ roots <-> p ∈ dom h /\ Parent (deref h p) = None.

(** The nodes a root is above. *)
Definition rooted (h : gmap ptr Node) (x : ptr) : Prop :=
  exists r, r ∈ dom h /\ Parent (deref h r) = None /\ below h x r.

(** ** Generic facts *)

Lemma deref_not_in h p : p ∉ dom h -> deref h p = zeroNode.
Proof. intros H. unfold deref. by rewrite (not_elem_of_dom_1 h p H). Qed.

Lemma up_dom h c p : up h c p -> c ∈ dom h.
Proof.
  intros H. destruct (decide (c ∈ dom h)) as [|Hn]; [done|].
  unfold up in H. by rewrite deref_not_in in H.
Qed.

Lemma up_fun h c p q : up h c p -> up h c q -> p = q.
Proof. unfold up. congruence. Qed.

Lemma length_le_size (h : gmap ptr Node) (l : list ptr) :
  NoDup l -> (forall x, x ∈ l -> x ∈ dom h) -> (length l <= size h)%nat.
Proof.
  intros Hn Hd. rewrite <-size_dom, <-(size_list_to_set (C:=gset ptr) l) by done.
  apply subseteq_size. intros x Hx. apply Hd. by apply elem_of_list_to_set in Hx.
Qed.

Lemma NoDup_snoc {A} (l : list A) x : NoDup (l ++ [x]) <-> NoDup l /\ x ∉ l.
Proof.
  rewrite NoDup_app. split.
  - intros (H1 & H2 & _). split; [done|]. intros Hx. apply (H2 x Hx). by left.
  - intros [H1 H2]. split_and!; [done| |apply NoDup_singleton].
    intros y Hy ->%list_elem_of_singleton. done.
Qed.

(** Two nodes above the same node are comparable. *)
Lemma below_comparable h x a b : below h x a -> below h x b -> below h a b \/ below h b a.
Proof.
  intros Ha. revert b. induction Ha as [x|x y a Hxy Hya IH]; intros b Hb; [by left|].
  inversion Hb as [|? z ? Hz Hzb]; subst.
  - right. by eapply rtc_l.
  - rewrite (up_fun h x y z) in * by done. by apply IH.
Qed.

(** Where every link leads to at most one node, what reaches a node without a
    link is on no cycle. *)
Lemma functional_acyclic {A} (R : relation A) x r :
  (forall a b c, R a b -> R a c -> b = c) -> (forall b, ~ R r b) -> rtc R x r -> ~ tc R x x.
Proof.
  intros HR Hr Hb. induction Hb as [r|x y r Hxy Hyr IH]; intros Hc.
  - assert (exists p, R r p) as [p Hp] by (inversion Hc; eauto). by apply (Hr p).
  - apply (IH Hr). assert (rtc R y x) as Hyx.
    { inversion Hc as [? ? Hxx|? z ? Hxz Hzx]; subst.
      - rewrite (HR x y x) by done. apply rtc_refl.
      - rewrite (HR x y z) by done. by apply tc_rtc. }
    eapply tc_rtc_l; [exact Hyx|]. by apply tc_once.
Qed.

Lemma rooted_acyclic h x : rooted h x -> ~ tc (up h) x x.
Proof.
  intros (r & _ & Hr & Hb). apply (functional_acyclic (up h) x r); [apply up_fun| |done].
  intros b Hrb. unfold up in Hrb. congruence.
Qed.

Lemma rooted_below h x y : rooted h x -> below h y x -> rooted h y.
Proof. intros (r & Hd & Hr & Hb) Hy. exists r. split_and!; [done..|]. by transitivity x. Qed.

Lemma rooted_up h x p : rooted h x -> up h x p -> rooted h p.
Proof.
  intros (r & Hd & Hr & Hb) Hp. exists r. split_and!; [done..|].
  inversion Hb as [|? z ? Hz Hzr]; subst.
  - unfold up in Hp. congruence.
  - by rewrite (up_fun h x p z).
Qed.

(** ** [mark] *)

Lemma mark_loop_spec h r R0 :
  links h -> r ∈ dom h -> Parent (deref h r) = None ->
  forall fuel V St,
    NoDup (V ++ St) -> (forall x, x ∈ V ++ St -> x ∈ dom h) ->
    (forall x, x ∈ V ++ St -> x = r \/ exists p, p ∈ V /\ up h x p) ->
    (forall x, x ∈ V ++ St -> below h x r) ->
    r ∈ V ++ St -> (forall p c, p ∈ V -> up h c p -> c ∈ V ++ St) ->
    (size h < fuel + length V)%nat ->
    exists R, mark_loop fuel h St (R0 ∪ list_to_set V) = Some R /\
              forall x, x ∈ R <-> x ∈ R0 \/ below h x r.
Proof.
  intros Hl Hrd Hr fuel. induction fuel as [|fuel IH];
    intros V St Hnd Hdom Hpar Hbel HrV Hcl Hfuel; cbn [mark_loop].
  { exfalso. assert (length V <= size h)%nat; [|simpl in Hfuel; lia].
    apply length_le_size; [by apply NoDup_app in Hnd as (? & _)|].
    intros x Hx. apply Hdom. apply elem_of_app. by left. }
  destruct (last St) as [n|] eqn:Hlast.
  - apply last_Some in Hlast as [St' ->].
    rewrite length_app, Nat.add_sub, take_app_length.
    assert ({[n]} ∪ (R0 ∪ list_to_set V) = R0 ∪ list_to_set (n :: V)) as -> by set_solver.
    rewrite app_assoc in Hnd. apply NoDup_snoc in Hnd as [Hnd Hn].
    assert (n ∈ V ++ St' ++ [n]) as Hnin by set_solver.
    assert (forall c, up h c n -> c ∉ n :: V ++ St') as Hfresh.
    { intros c Hc Hin. assert (c ∈ V ++ St' ++ [n]) as Hin' by set_solver.
      destruct (Hpar c Hin') as [->|(p & HpV & Hp)].
      - unfold up in Hc. congruence.
      - rewrite (up_fun h c p n) in HpV by done. apply Hn. set_solver. }
    assert (forall x, x ∈ (n :: V) ++ St' ++ Children (deref h n) ->
                      x ∈ V ++ St' ++ [n] \/ up h x n) as Hsplit.
    { intros x. rewrite (links_up h Hl x n). set_solver. }
    apply IH.
    + simpl. rewrite app_assoc. apply NoDup_cons. split.
      * rewrite elem_of_app. intros [?|Hc]; [done|].
        apply (links_up h Hl) in Hc. apply (Hfresh n Hc). by left.
      * apply NoDup_app. split_and!; [done| |by apply links_nodup].
        intros x Hx Hc. apply (links_up h Hl) in Hc. apply (Hfresh x Hc). by right.
    + intros x [Hx|Hx]%Hsplit; [by apply Hdom|by apply up_dom in Hx].
    + intros x [Hx|Hx]%Hsplit.
      * destruct (Hpar x Hx) as [->|(p & ? & ?)]; [by left|right; exists p; set_solver].
      * right. exists n. set_solver.
    + intros x [Hx|Hx]%Hsplit; [by apply Hbel|]. eapply rtc_l; [exact Hx|]. by apply Hbel.
    + set_solver.
    + intros p c [->|Hp]%elem_of_cons Hc.
      * apply (links_up h Hl) in Hc. set_solver.
      * pose proof (Hcl p c Hp Hc). set_solver.
    + simpl. lia.
  - apply last_None in Hlast as ->. rewrite app_nil_r in *.
    exists (R0 ∪ list_to_set V). split; [done|]. intros x.
    rewrite elem_of_union, elem_of_list_to_set. split; [intros [?|?]; eauto|].
    intros [?|Hb]; [by left|right]. induction Hb as [r|x y r Hxy Hyr IHb]; [done|].
    apply (Hcl y x); [by apply IHb|done].
Qed.

Lemma mark_spec h r R0 :
  links h -> r ∈ dom h -> Parent (deref h r) = None ->
  exists R, mark h r R0 = Some R /\ forall x, x ∈ R <-> x ∈ R0 \/ below h x r.
Proof.
  intros Hl Hd Hr.
  destruct (mark_loop_spec h r R0 Hl Hd Hr (S (size h)) [] [r]) as (R & HR & HRx).
  - apply NoDup_singleton.
  - by intros x ->%list_elem_of_singleton.
  - intros x ->%list_elem_of_singleton. by left.
  - intros x ->%list_elem_of_singleton. apply rtc_refl.
  - by apply list_elem_of_singleton.
  - by intros p c ?%elem_of_nil.
  - simpl. lia.
  - exists R. split; [|done]. rewrite <-HR. unfold mark. f_equal. set_solver.
Qed.

Lemma mark_all_spec h roots R0 :
  links h -> (forall r, r ∈ roots -> r ∈ dom h /\ Parent (deref h r) = None) ->
  exists R, mark_all h roots R0 = Some R /\
            forall x, x ∈ R <-> x ∈ R0 \/ exists r, r ∈ roots /\ below h x r.
Proof.
  intros Hl. revert R0. induction roots as [|r roots IH]; intros R0 Hr; cbn [mark_all].
  - exists R0. split; [done|]. intros x. set_solver.
  - destruct (Hr r) as [Hd Hn]; [by left|].
    destruct (mark_spec h r R0 Hl Hd Hn) as (R1 & -> & HR1). cbn [mbind option_bind].
    destruct (IH R1) as (R & -> & HR); [intros; apply Hr; by right|].
    exists R. split; [done|]. intros x. rewrite HR, HR1. set_solver.
Qed.

(** ** The walks of [breakCycles] *)

Lemma find_cycle_spec h (U : gset ptr) :
  (forall x, x ∈ U -> exists p, up h x p /\ p ∈ U) ->
  forall fuel n seen,
    n ∈ U -> seen ⊆ U -> (forall s, s ∈ seen -> tc (up h) s n) ->
    (size U < fuel + size seen)%nat ->
    exists n', find_cycle fuel h n seen = Some n' /\ n' ∈ U /\ below h n n' /\ tc (up h) n' n'.
Proof.
  intros HU fuel. induction fuel as [|fuel IH]; intros n seen Hn Hseen Htc Hf; cbn [find_cycle].
  { exfalso. apply subseteq_size in Hseen. simpl in Hf. lia. }
  case_bool_decide as Hd.
  - exists n. split_and!; [done..|apply rtc_refl|by apply Htc].
  - destruct (HU n Hn) as (p & Hp & HpU). unfold up in Hp. rewrite Hp. cbn [mbind option_bind].
    destruct (IH p ({[n]} ∪ seen)) as (n' & Hn' & HU' & Hb & Hc).
    + done.
    + set_solver.
    + intros s [->%elem_of_singleton|Hs]%elem_of_union; [by apply tc_once|].
      eapply tc_r; [by apply Htc|done].
    + rewrite size_union by set_solver. rewrite size_singleton. lia.
    + exists n'. split_and!; [done..| |done]. by eapply rtc_l.
Qed.

(** The nodes from [m] up to, and without, [n]. *)
Inductive chain (h : gmap ptr Node) (n : ptr) : ptr -> list ptr -> Prop :=
| chain_end : chain h n n []
| chain_up m p l : m <> n -> up h m p -> chain h n p l -> chain h n m (m :: l).

Lemma chain_exists h n m : below h m n -> exists l, chain h n m l.
Proof.
  induction 1 as [n|m p n Hmp Hpn [l Hl]]; [by exists []; constructor|].
  destruct (decide (m = n)) as [->|Hne]; [exists []; constructor|].
  exists (m :: l). by econstructor.
Qed.

Lemma chain_unique h n m l l' : chain h n m l -> chain h n m l' -> l = l'.
Proof.
  intros Hl. revert l'. induction Hl as [|m p l Hne Hp Hl IH]; intros l' Hl'.
  - inversion Hl'; by subst.
  - inversion Hl' as [|? q l2 ? Hq Hl2]; subst; [done|].
    f_equal. apply IH. by rewrite (up_fun h m p q).
Qed.

Lemma chain_suffix h n m l x :
  chain h n m l -> x ∈ l -> exists l', chain h n x l' /\ (length l' <= length l)%nat.
Proof.
  induction 1 as [|m p l Hne Hp Hl IH]; intros Hx; [by apply elem_of_nil in Hx|].
  apply elem_of_cons in Hx as [->|Hx].
  - exists (m :: l). split; [by econstructor|done].
  - destruct (IH Hx) as (l' & ? & ?). exists l'. simpl. split; [done|lia].
Qed.

Lemma chain_nodup h n m l : chain h n m l -> NoDup l.
Proof.
  induction 1 as [|m p l Hne Hp Hl IH]; constructor; [|done].
  intros Hm. destruct (chain_suffix h n p l m Hl Hm) as (l' & Hl' & Hlen).
  assert (l' = m :: l) as -> by (eapply chain_unique; [done|by econstructor]).
  simpl in Hlen. lia.
Qed.

Lemma chain_dom h n m l x : chain h n m l -> x ∈ l -> x ∈ dom h.
Proof.
  induction 1 as [|m p l Hne Hp Hl IH]; intros Hx; [by apply elem_of_nil in Hx|].
  apply elem_of_cons in Hx as [->|Hx]; [by eapply up_dom|by apply IH].
Qed.

Lemma chain_length h n m l : chain h n m l -> (length l <= size h)%nat.
Proof.
  intros H. apply length_le_size; [by eapply chain_nodup|]. intros x. by eapply chain_dom.
Qed.

Lemma chain_below h n m l x : chain h n m l -> x ∈ l -> below h m x /\ below h x n /\ x <> n.
Proof.
  induction 1 as [|m p l Hne Hp Hl IH]; intros Hx; [by apply elem_of_nil in Hx|].
  apply elem_of_cons in Hx as [->|Hx].
  - split_and!; [apply rtc_refl| |done]. eapply rtc_l; [done|].
    clear -Hl. induction Hl; [apply rtc_refl|]. by eapply rtc_l.
  - destruct (IH Hx) as (? & ? & ?). split_and!; [by eapply rtc_l|done..].
Qed.

(** On a cycle the chain goes all the way round. *)
Lemma chain_covers h n m l x :
  up h n m -> chain h n m l -> below h n x -> x = n \/ x ∈ l.
Proof.
  intros Hnm Hl Hx.
  assert (forall a b, a ∈ n :: l -> up h a b -> b ∈ n :: l) as Hcl.
  { assert (forall m l, chain h n m l -> m ∈ n :: l /\
              forall a b, a ∈ l -> up h a b -> b ∈ n :: l) as Hgen.
    { clear. induction 1 as [|m p l Hne Hp Hl [IHm IH]]; [split; [by left|set_solver]|].
      split; [set_solver|]. intros a b [->|Ha]%elem_of_cons Hab.
      - rewrite <-(up_fun h m p b) by done. set_solver.
      - specialize (IH a b Ha Hab). set_solver. }
    destruct (Hgen m l Hl) as [Hm Hrest]. intros a b [->|Ha]%elem_of_cons Hab.
    - by rewrite <-(up_fun h n m b).
    - by eapply Hrest. }
  apply elem_of_cons.
  assert (forall a, below h a x -> a ∈ n :: l -> x ∈ n :: l) as Hgo.
  { intros a Ha. induction Ha as [|a b x Hab Hbx IH]; [done|].
    intros Ha. by apply IH, (Hcl a b). }
  apply (Hgo n Hx). by left.
Qed.

(** ** The order of nodes *)

#[export] Instance span_order_laws : CmpLaws span_order.
Proof.
  exact (cmp_then_laws (cmp_on Start Time.Compare) (cmp_on SpanID_ ID.compare) _ _).
Qed.

#[export] Instance byStart_laws h : CmpLaws (byStart h).
Proof. exact (cmp_on_laws (fun p => nSpan (deref h p)) span_order _). Qed.

Lemma span_order_eq a b : span_order a b = Eq <-> Start a = Start b /\ SpanID_ a = SpanID_ b.
Proof.
  unfold span_order, Time.Compare. destruct (Z.compare_spec (Start a) (Start b)) as [E|E|E]; simpl.
  - rewrite compare_id_eq. naive_solver.
  - split; [done|]. intros [? _]. lia.
  - split; [done|]. intros [? _]. lia.
Qed.

Lemma earliest_spec h n m l :
  chain h n m l ->
  forall fuel cut, (length l < fuel)%nat ->
  exists c, earliest fuel h n m cut = Some c /\ (c = cut \/ c ∈ l) /\
            byStart h c cut <> Gt /\ forall x, x ∈ l -> byStart h c x <> Gt.
Proof.
  induction 1 as [|m p l Hne Hp Hl IH]; intros [|fuel] cut Hf; simpl in Hf; try lia; cbn [earliest].
  - rewrite bool_decide_eq_true_2 by done. exists cut. split_and!; [done|by left| |set_solver].
    by rewrite (cmp_refl (byStart h)).
  - rewrite bool_decide_eq_false_2 by done. rewrite Hp. cbn [mbind option_bind].
    set (cut' := match byStart h m cut with Lt => m | _ => cut end).
    assert (byStart h cut' cut <> Gt /\ byStart h cut' m <> Gt /\ (cut' = cut \/ cut' = m)) as (H1 & H2 & H3).
    { unfold cut'. destruct (byStart h m cut) eqn:E; split_and!; eauto.
      - by rewrite (cmp_refl (byStart h)).
      - rewrite (cmp_flip (byStart h)), E. done.
      - rewrite E. done.
      - by rewrite (cmp_refl (byStart h)).
      - by rewrite (cmp_refl (byStart h)).
      - rewrite (cmp_flip (byStart h)), E. done. }
    destruct (IH fuel cut') as (c & Hc & Hin & Hle & Hall); [lia|].
    exists c. split_and!; [done| | |].
    + destruct Hin as [->|]; [destruct H3 as [->| ->]|]; set_solver.
    + by eapply (cmp_trans (byStart h)).
    + intros x [->|Hx]%elem_of_cons; [by eapply (cmp_trans (byStart h))|by apply Hall].
Qed.

(** The earliest node on the cycle through [n]. *)
Definition earliest_on_cycle (h : gmap ptr Node) (c : ptr) : Prop :=
  tc (up h) c c /\ forall x, below h c x -> below h x c -> byStart h c x <> Gt.

Lemma tc_step h x y : tc (up h) x y -> exists z, up h x z /\ below h z y.
Proof.
  intros Ht. inversion Ht as [|? z ? Hz Hzy]; subst.
  - exists y. split; [done|apply rtc_refl].
  - exists z. split; [done|by apply tc_rtc].
Qed.

Lemma earliest_round h n m :
  tc (up h) n n -> up h n m ->
  exists c, earliest (S (S (size h))) h n m n = Some c /\ below h n c /\ below h c n /\
            earliest_on_cycle h c.
Proof.
  intros Hc Hm. destruct (tc_step h n n Hc) as (z & Hz & Hzn).
  rewrite (up_fun h n z m) in * by done. clear z Hz.
  destruct (chain_exists h n m Hzn) as [l Hl]. pose proof (chain_length h n m l Hl) as Hlen.
  destruct (earliest_spec h n m l Hl (S (S (size h))) n) as (c & Hc' & Hin & Hle & Hall); [lia|].
  assert (below h n c /\ below h c n) as [Hnc Hcn].
  { destruct Hin as [->|Hin]; [by split; apply rtc_refl|].
    destruct (chain_below h n m l c Hl Hin) as (? & ? & ?). split; [by eapply rtc_l|done]. }
  exists c. split_and!; [done..|]. split.
  - eapply tc_rtc_l; [exact Hcn|]. by eapply tc_rtc_r.
  - intros x Hcx Hxc.
    destruct (chain_covers h n m l x Hm Hl) as [->|Hx]; [by transitivity c|done|by apply Hall].
Qed.

(** ** Cutting a link *)

(** The heap after [cut.Parent.Children = slices.DeleteFunc(...)],
    [cut.Parent = nil] and [cut.CycleBroken = true]. *)
Definition cut_heap (h : gmap ptr Node) (parent cut : ptr) : gmap ptr Node :=
  alter set_broken cut (alter (set_parent None) cut
    (alter (set_children (filter (fun c => c <> cut))) parent h)).

Lemma deref_alter h f p x :
  p ∈ dom h -> deref (alter f p h) x = if decide (x = p) then f (deref h x) else deref h x.
Proof.
  intros [n Hn]%elem_of_dom. unfold deref. destruct (decide (x = p)) as [->|Hne].
  - by rewrite lookup_alter_eq, Hn.
  - by rewrite lookup_alter_ne.
Qed.

Lemma dom_cut_heap h parent cut : dom (cut_heap h parent cut) = dom h.
Proof. unfold cut_heap. by rewrite !dom_alter_L. Qed.

Lemma size_dom_eq (h h' : gmap ptr Node) : dom h = dom h' -> size h = size h'.
Proof. intros H. by rewrite <-!size_dom, H. Qed.

Section cutting.
Context (h : gmap ptr Node) (parent cut : ptr).
Hypothesis Hl : links h.
Hypothesis Hcut : up h cut parent.

Let h' := cut_heap h parent cut.

Let Hcd : cut ∈ dom h := up_dom h cut parent Hcut.
Let Hpd : parent ∈ dom h := links_dom h Hl cut parent Hcut.

Lemma deref_cut x :
  nSpan (deref h' x) = nSpan (deref h x) /\
  nPresence (deref h' x) = nPresence (deref h x) /\
  Parent (deref h' x) = (if decide (x = cut) then None else Parent (deref h x)) /\
  Children (deref h' x) =
    (if decide (x = parent) then filter (fun c => c <> cut) (Children (deref h x))
     else Children (deref h x)) /\
  CycleBroken (deref h' x) = (if decide (x = cut) then true else CycleBroken (deref h x)).
Proof.
  unfold h', cut_heap. rewrite !deref_alter by (by rewrite ?dom_alter_L).
  by destruct (decide (x = cut)), (decide (x = parent)).
Qed.

Lemma up_cut x y : up h' x y <-> up h x y /\ x <> cut.
Proof.
  unfold up. destruct (deref_cut x) as (_ & _ & -> & _). case_decide; naive_solver.
Qed.

Lemma links_cut : links h'.
Proof.
  split.
  - intros c p. rewrite up_cut. rewrite (links_up h Hl).
    destruct (deref_cut p) as (_ & _ & _ & -> & _). case_decide as Hp.
    + rewrite list_elem_of_filter. naive_solver.
    + split; [naive_solver|]. intros Hc. split; [done|]. intros ->.
      apply Hp. apply (links_up h Hl) in Hc. by eapply up_fun.
  - intros p. destruct (deref_cut p) as (_ & _ & _ & -> & _).
    case_decide; [apply NoDup_filter|]; by apply links_nodup.
  - intros c p [Hc _]%up_cut. unfold h'. rewrite dom_cut_heap. by eapply links_dom.
Qed.

Lemma roots_cut roots : roots_of h roots -> roots_of h' (roots ++ [cut]).
Proof.
  intros [Hn Hr]. split.
  - apply NoDup_snoc. split; [done|]. intros [_ Hc]%Hr. unfold up in Hcut. congruence.
  - intros p. rewrite elem_of_app, list_elem_of_singleton, Hr. unfold h'.
    destruct (deref_cut p) as (_ & _ & Hp & _). unfold h' in Hp. rewrite Hp, dom_cut_heap.
    case_decide; subst; naive_solver.
Qed.

Lemma below_cut_sub x y : below h' x y -> below h x y.
Proof. apply rtc_subrel. intros a b Hab. by apply up_cut in Hab as [? _]. Qed.

Lemma below_cut_split x y : below h x y -> below h' x y \/ below h' x cut.
Proof.
  induction 1 as [x|x y z Hxy Hyz IH]; [left; apply rtc_refl|].
  destruct (decide (x = cut)) as [->|Hne]; [right; apply rtc_refl|].
  destruct IH as [IH|IH]; [left|right]; (eapply rtc_l; [by apply up_cut|exact IH]).
Qed.

Lemma below_to_cut x : below h x cut -> below h' x cut.
Proof. intros [?|?]%below_cut_split; done. Qed.

Lemma rooted_cut x : rooted h' x <-> rooted h x \/ below h' x cut.
Proof.
  unfold rooted, h'. rewrite dom_cut_heap. split.
  - intros (r & Hd & Hr & Hb). destruct (deref_cut r) as (_ & _ & Hp & _). unfold h' in Hp.
    rewrite Hp in Hr. case_decide as Hrc; [subst; by right|]. left. exists r.
    split_and!; [done..|by apply below_cut_sub].
  - assert (Parent (deref (cut_heap h parent cut) cut) = None) as Hcn.
    { destruct (deref_cut cut) as (_ & _ & Hp & _). unfold h' in Hp. by rewrite Hp, decide_True. }
    intros [(r & Hd & Hr & Hb)|Hb]; [|exists cut; by split_and!].
    destruct (below_cut_split x r Hb) as [Hb'|Hb']; [|exists cut; by split_and!].
    exists r. split_and!; [done| |done].
    destruct (deref_cut r) as (_ & _ & Hp & _). unfold h' in Hp. rewrite Hp. by case_decide.
Qed.
End cutting.

(** ** Walking *)

(** [l] lists the subtrees of [ns] at depth [d]: each node, then the subtrees
    of its children in order. *)
Inductive preorder (h : gmap ptr Node) : list ptr -> Z -> list (ptr * Z) -> Prop :=
| pre_nil d : preorder h [] d []
| pre_cons n ns d l1 l2 :
    preorder h (Children (deref h n)) (d + 1) l1 -> preorder h ns d l2 ->
    preorder h (n :: ns) d ((n, d) :: l1 ++ l2).

(** Calling [fn] on each element until it returns false. *)
Fixpoint visit {S} (fn : ptr -> Z -> S -> S * bool) (l : list (ptr * Z)) (s : S) : S * bool :=
  match l with
  | [] => (s, true)
  | (n, d) :: l' => let '(s, ok) := fn n d s in if negb ok then (s, false) else visit fn l' s
  end.

Lemma visit_app {S} (fn : ptr -> Z -> S -> S * bool) l1 l2 s :
  visit fn (l1 ++ l2) s =
  let '(s, ok) := visit fn l1 s in if negb ok then (s, false) else visit fn l2 s.
Proof.
  revert s. induction l1 as [|[n d] l1 IH]; intros s; simpl; [by destruct (visit fn l2 s)|].
  destruct (fn n d s) as [s' []]; simpl; [apply IH|done].
Qed.

Lemma preorder_below h ns d l x :
  links h -> preorder h ns d l -> x ∈ l.*1 <-> exists n, n ∈ ns /\ below h x n.
Proof.
  intros Hl. induction 1 as [d|n ns d l1 l2 H1 IH1 H2 IH2]; csimpl.
  { set_solver. }
  rewrite fmap_app, elem_of_cons, elem_of_app, IH1, IH2. split.
  - intros [->|[(c & Hc & Hb)|(c & Hc & Hb)]].
    + exists n. split; [by left|apply rtc_refl].
    + exists n. split; [by left|]. eapply rtc_r; [done|]. by apply (links_up h Hl).
    + exists c. split; [by right|done].
  - intros (c & [->|Hc]%elem_of_cons & Hb); [|by eauto].
    apply rtc_inv_r in Hb as [->|(y & Hb & Hy)]; [by left|].
    right. left. exists y. split; [by apply (links_up h Hl)|done].
Qed.

(** Distinct children of a rooted node have disjoint subtrees. *)
Definition apart (h : gmap ptr Node) (ns : list ptr) : Prop :=
  NoDup ns /\ (forall n, n ∈ ns -> rooted h n) /\
  forall a b, a ∈ ns -> b ∈ ns -> a <> b -> ~ below h a b.

Lemma apart_children h n : links h -> rooted h n -> apart h (Children (deref h n)).
Proof.
  intros Hl Hn. split_and!; [by apply links_nodup| |].
  - intros c Hc%(links_up h Hl). eapply rooted_below; [done|]. by apply rtc_once.
  - intros a b Ha%(links_up h Hl) Hb%(links_up h Hl) Hne Hab.
    inversion Hab as [|? z ? Hz Hzb]; subst; [done|].
    rewrite (up_fun h a z n) in * by done.
    apply (rooted_acyclic h n Hn). eapply tc_rtc_l; [exact Hzb|]. by apply tc_once.
Qed.

Lemma apart_roots h roots : roots_of h roots -> apart h roots.
Proof.
  intros [Hn Hr]. split_and!; [done| |].
  - intros n [Hd Hp]%Hr. exists n. split_and!; [done..|apply rtc_refl].
  - intros a b [_ Ha]%Hr _ Hne Hab. inversion Hab as [|? z ? Hz Hzb]; subst; [done|].
    unfold up in Hz. congruence.
Qed.

Lemma preorder_NoDup h ns d l :
  links h -> preorder h ns d l -> apart h ns -> NoDup (l.*1).
Proof.
  intros Hl. induction 1 as [d|n ns d l1 l2 H1 IH1 H2 IH2]; intros (Hn & Hr & Hd); csimpl; [constructor|].
  apply NoDup_cons in Hn as [Hnin Hn].
  assert (rooted h n) as Hrn by (apply Hr; by left).
  assert (apart h ns) as Hns.
  { split_and!; [done|intros; apply Hr; by right|intros; apply Hd; [by right..|done]]. }
  assert (forall x c, c ∈ ns -> below h x n -> below h x c -> False) as Hdisj.
  { intros x c Hc Hxn Hxc. assert (c <> n) by (intros ->; done).
    destruct (below_comparable h x n c Hxn Hxc) as [Hb|Hb]; revert Hb; apply Hd; set_solver. }
  apply NoDup_cons. rewrite fmap_app, elem_of_app, !(preorder_below h _ _ _ _ Hl) by done.
  split; [intros [(c & Hc & Hb)|(c & Hc & Hb)]|apply NoDup_app; split_and!].
  - apply (links_up h Hl) in Hc. apply (rooted_acyclic h n Hrn).
    eapply tc_rtc_l; [exact Hb|]. by apply tc_once.
  - apply (Hdisj n c Hc); [apply rtc_refl|done].
  - apply IH1. by apply apart_children.
  - intros x. rewrite !(preorder_below h _ _ _ _ Hl) by done.
    intros (c & Hc & Hb) (c' & Hc' & Hb'). apply (Hdisj x c' Hc'); [|done].
    eapply rtc_r; [exact Hb|]. by apply (links_up h Hl).
  - by apply IH2.
Qed.

(** [anc] are strict ancestors of every node of [ns]. *)
Definition beneath (h : gmap ptr Node) (ns anc : list ptr) : Prop :=
  NoDup anc /\ (forall a, a ∈ anc -> a ∈ dom h) /\
  forall n a, n ∈ ns -> a ∈ anc -> tc (up h) n a.

Lemma walk_spec {S} h (fn : ptr -> Z -> S -> S * bool) :
  links h ->
  forall fuel n d anc,
    rooted h n -> n ∈ dom h -> beneath h [n] anc -> (size h <= fuel + length anc)%nat ->
    exists l, preorder h [n] d l /\ forall s, walk h fn fuel n d s = Some (visit fn l s).
Proof.
  intros Hl fuel. induction fuel as [|fuel IH]; intros n d anc Hr Hd (Hnd & Had & Hup) Hf.
  { exfalso. assert (length (n :: anc) <= size h)%nat; [|simpl in *; lia].
    apply length_le_size.
    - constructor; [|done]. intros Hin. apply (rooted_acyclic h n Hr). apply Hup; [by left|done].
    - set_solver. }
  assert (exists l1, preorder h (Children (deref h n)) (d + 1) l1 /\ forall s,
      (fix each (cs : list ptr) (s : S) : option (S * bool) :=
         match cs with
         | [] => Some (s, true)
         | c :: cs' =>
             '(s, ok) ← walk h fn fuel c (d + 1) s;
             if negb ok then Some (s, false) else each cs' s
         end) (Children (deref h n)) s = Some (visit fn l1 s)) as (l1 & Hl1 & Heq1).
  { assert (forall c, c ∈ Children (deref h n) -> up h c n) as Hcs by (intros c; apply (links_up h Hl)).
    induction (Children (deref h n)) as [|c cs IHcs].
    - exists []. split; [constructor|done].
    - destruct IHcs as (l2 & Hl2 & Heq2); [intros; apply Hcs; by right|].
      assert (up h c n) as Hc by (apply Hcs; by left).
      destruct (IH c (d + 1) (n :: anc)) as (lc & Hlc & Heqc).
      + eapply rooted_below; [done|]. by apply rtc_once.
      + by eapply up_dom.
      + split_and!.
        * constructor; [|done]. intros Hin. apply (rooted_acyclic h n Hr). apply Hup; [by left|done].
        * set_solver.
        * intros x a ->%list_elem_of_singleton [->|Ha]%elem_of_cons; [by apply tc_once|].
          eapply tc_l; [done|]. apply Hup; [by left|done].
      + simpl. lia.
      + inversion Hlc as [|? ? ? la lb Hla Hlb]; subst. inversion Hlb; subst.
        rewrite app_nil_r in Heqc.
        exists ((c, d + 1) :: la ++ l2). split; [by constructor|]. intros s.
        rewrite Heqc. cbn [mbind option_bind].
        change ((c, d + 1) :: la ++ l2) with (((c, d + 1) :: la) ++ l2).
        rewrite visit_app. destruct (visit fn ((c, d + 1) :: la) s) as [s' []]; simpl; [apply Heq2|done]. }
  exists ((n, d) :: l1 ++ []). split; [by repeat constructor|]. intros s. cbn [walk visit].
  destruct (fn n d s) as [s' []]; cbn [negb]; [|done]. rewrite Heq1, app_nil_r. done.
Qed.

Lemma walk_roots_spec {S} h (fn : ptr -> Z -> S -> S * bool) roots :
  links h -> (forall r, r ∈ roots -> r ∈ dom h /\ rooted h r) ->
  exists l, preorder h roots 0 l /\
            forall s, walk_roots h fn (size h) roots s = Some (visit fn l s).1.
Proof.
  intros Hl. induction roots as [|r roots IH]; intros Hr.
  - exists []. split; [constructor|done].
  - destruct IH as (l2 & Hl2 & Heq2); [intros; apply Hr; by right|].
    destruct (Hr r) as [Hd Hrr]; [by left|].
    destruct (walk_spec h fn Hl (size h) r 0 []) as (lr & Hlr & Heqr); [done..| |simpl; lia|].
    { split_and!; [constructor|set_solver|set_solver]. }
    inversion Hlr as [|? ? ? la lb Hla Hlb]; subst. inversion Hlb; subst. rewrite app_nil_r in Heqr.
    exists ((r, 0) :: la ++ l2). split; [by constructor|]. intros s.
    cbn [walk_roots]. rewrite Heqr. cbn [mbind option_bind].
    change ((r, 0) :: la ++ l2) with (((r, 0) :: la) ++ l2).
    rewrite visit_app. destruct (visit fn ((r, 0) :: la) s) as [s' []]; simpl; [apply Heq2|done].
Qed.

Lemma preorder_fun h ns d l l' : preorder h ns d l -> preorder h ns d l' -> l = l'.
Proof.
  intros Hl. revert l'. induction Hl as [d|n ns d l1 l2 H1 IH1 H2 IH2]; intros l' Hl';
    inversion Hl'; subst; [done|].
  f_equal. f_equal; auto.
Qed.
