(* ===== verification/AssemblySpec.v ===== *)
(** * What [Build] promises

    The tree of a set of spans, described without loops or iteration orders:
    [names] is the link each span asks for, [cut_point] the spans whose link
    is cut, [tree_spec] the tree.  [Build] returns the tree the specification
    describes, and there is only one. *)

From S2P Require Import Prelude GoTime Ident Value Span Assembly Forest.

Lemma tc_mono {A} (R S : relation A) x y :
  (forall a b, R a b -> S a b) -> tc R x y -> tc S x y.
Proof.
  intros HR. induction 1 as [x y Hxy|x z y Hxz Hzy IH]; [by apply tc_once, HR|].
  eapply tc_l; [by apply HR|done].
Qed.

(** ** The specification *)

(** The spans that survive: the last occurrence of each identifier. *)
Definition span_map (spans : list Span) : gmap SpanID Span :=
  foldl (fun m s => <[SpanID_ s := s]> m) ∅ spans.

(** [o] is an order in which Go may iterate over [t.nodes]. *)
Definition map_order (m : gmap SpanID Span) (o : list ptr) : Prop :=
  NoDup o /\ forall p, p ∈ o <-> exists id, p = Real id /\ is_Some (m !! id).

Section tree_specification.
Context (m : gmap SpanID Span) (tid : TraceID) (absent : Presence).

(** The node a received span's parent link asks for. *)
Definition names (p : ptr) : option ptr :=
  match p with
  | Real id =>
      match m !! id with
      | Some s =>
          if IsRoot s then None
          else Some (match m !! ParentSpanID s with
                     | Some _ => Real (ParentSpanID s)
                     | None => Hold (ParentSpanID s)
                     end)
      | None => None
      end
  | Hold _ => None
  end.

Definition named (c p : ptr) : Prop := names c = Some p.

#[export] Instance named_dec c p : Decision (named c p).
Proof. unfold named. apply _. Defined.

Definition in_tree (p : ptr) : Prop :=
  match p with
  | Real id => is_Some (m !! id)
  | Hold _ => exists c, named c p
  end.

Definition span_at (p : ptr) : Span :=
  match p with Real id => default zeroSpan (m !! id) | Hold _ => zeroSpan end.

(** The earliest span of a cycle of parent links. *)
Definition cut_point (c : ptr) : Prop :=
  tc named c c /\
  forall x, rtc named c x -> rtc named x c -> span_order (span_at c) (span_at x) <> Gt.

(** The smallest interval that covers the spans [l]. *)
Definition is_envelope (b : Time * Time) (l : list Span) : Prop :=
  (exists s, s ∈ l /\ Start s = b.1) /\ (exists s, s ∈ l /\ End_ s = b.2) /\
  forall s, s ∈ l -> b.1 <= Start s /\ End_ s <= b.2.

(** [l] lists the nodes satisfying [P], once each, in [byStart] order. *)
Definition listing (h : gmap ptr Node) (l : list ptr) (P : ptr -> Prop) : Prop :=
  NoDup l /\ StronglySorted (cmp_le (byStart h)) l /\ forall p, p ∈ l <-> P p.

Record tree_spec (t : Tree) : Prop := {
  ts_id : tTraceID t = tid;
  ts_nodes : forall id, nodes t !! id = (fun _ => Real id) <$> m !! id;
  ts_dom : forall p, p ∈ dom (heap t) <-> in_tree p;
  ts_real : forall id s, m !! id = Some s ->
    nSpan (node t (Real id)) = s /\ nPresence (node t (Real id)) = Received;
  ts_hold : forall id, in_tree (Hold id) ->
    nPresence (node t (Hold id)) = absent /\
    exists b, nSpan (node t (Hold id)) = set_times b.1 b.2 (nSpan (placeholder tid absent id)) /\
              is_envelope b (span_at <$> Children (node t (Hold id)));
  ts_links : forall c, in_tree c ->
    (cut_point c /\ Parent (node t c) = None /\ CycleBroken (node t c) = true) \/
    (~ cut_point c /\ Parent (node t c) = names c /\ CycleBroken (node t c) = false);
  ts_children : forall p, listing (heap t) (Children (node t p)) (fun c => up (heap t) c p);
  ts_roots : listing (heap t) (Roots t) (fun p => in_tree p /\ Parent (node t p) = None);
  ts_missing : listing (heap t) (missing t) (fun p => exists id, p = Hold id /\ in_tree p);
  ts_cycles : listing (heap t) (cycles t) cut_point;
}.

(** ** Facts about the links that are asked for *)

Hypothesis Hkeys : forall id s, m !! id = Some s -> SpanID_ s = id.

Lemma names_some c p : named c p ->
  exists id s, c = Real id /\ m !! id = Some s /\ IsRoot s = false /\
    ((is_Some (m !! ParentSpanID s) /\ p = Real (ParentSpanID s)) \/
     (m !! ParentSpanID s = None /\ p = Hold (ParentSpanID s))).
Proof.
  unfold named, names. destruct c as [id|id]; [|done].
  destruct (m !! id) as [s|] eqn:Hs; [|done]. destruct (IsRoot s) eqn:Hr; [done|].
  intros [= <-]. exists id, s. split_and!; [done..|].
  destruct (m !! ParentSpanID s) eqn:Hp; [left|right]; by split.
Qed.

Lemma named_hold_absent c id : named c (Hold id) -> m !! id = None.
Proof. intros (? & s & -> & _ & _ & [[_ ?]|[? [= ->]]])%names_some; done. Qed.

Lemma named_in_tree c p : named c p -> in_tree c /\ in_tree p.
Proof.
  intros Hn. pose proof Hn as (id & s & -> & Hs & _ & Hp)%names_some. split; [by exists s|].
  destruct Hp as [[Hp ->]|[_ ->]]; [done|by exists (Real id)].
Qed.

Lemma on_cycle_real c : tc named c c -> exists id s, c = Real id /\ m !! id = Some s.
Proof.
  intros Ht. assert (exists p, named c p) as [p Hp] by (inversion Ht; eauto).
  apply names_some in Hp as (id & s & ? & ? & _). by exists id, s.
Qed.

Lemma tc_step_named c x : tc named c x -> exists z, named c z /\ rtc named z x.
Proof.
  intros H. inversion H as [|? z ? Hz Hzx]; subst.
  - exists x. split; [done|apply rtc_refl].
  - exists z. split; [done|by apply tc_rtc].
Qed.

Lemma named_fun c p q : named c p -> named c q -> p = q.
Proof. unfold named. congruence. Qed.

Lemma span_at_id id s : m !! id = Some s -> SpanID_ (span_at (Real id)) = id.
Proof. intros Hs. unfold span_at. rewrite Hs. by apply Hkeys. Qed.

(** A cycle has one cut point. *)
Lemma cut_point_unique c x :
  cut_point c -> cut_point x -> rtc named c x -> rtc named x c -> c = x.
Proof.
  intros [Hc Hcmin] [Hx Hxmin] Hcx Hxc.
  specialize (Hcmin x Hcx Hxc). specialize (Hxmin c Hxc Hcx).
  rewrite (cmp_flip span_order) in Hxmin.
  destruct (span_order (span_at c) (span_at x)) eqn:E; [|done..].
  apply span_order_eq in E as [_ E].
  destruct (on_cycle_real c Hc) as (i & s & -> & Hs), (on_cycle_real x Hx) as (j & s' & -> & Hs').
  erewrite (span_at_id i), (span_at_id j) in E by done. by subst.
Qed.

(** What is on a cycle of [R] and can be reached from it by more links is
    still reached by [R]. *)
Lemma cycle_forward (h : gmap ptr Node) c x :
  (forall a b, up h a b -> named a b) ->
  tc (up h) c c -> rtc named c x -> below h c x /\ tc (up h) x x /\ below h x c.
Proof.
  intros Hsub Hc. revert x. apply rtc_ind_r; [|intros y z Hcy Hyz (IH1 & IH2 & IH3)].
  { split_and!; [apply rtc_refl|done|apply rtc_refl]. }
  destruct (tc_step h y y IH2) as (z' & Hz & Hzy).
  assert (z' = z) as -> by (eapply named_fun; [by apply Hsub|done]).
  split_and!.
  - by eapply rtc_r.
  - eapply tc_rtc_l; [exact Hzy|]. by apply tc_once.
  - by transitivity y.
Qed.
End tree_specification.

Arguments names : simpl never.

(** ** The first loop *)

Lemma span_map_snoc l s : span_map (l ++ [s]) = <[SpanID_ s := s]> (span_map l).
Proof. unfold span_map. by rewrite foldl_app. Qed.

Lemma span_map_keys l id s : span_map l !! id = Some s -> SpanID_ s = id /\ s ∈ l.
Proof.
  induction l as [|x l IH] using rev_ind; [done|]. rewrite span_map_snoc.
  intros [[<- <-]|[_ H]]%lookup_insert_Some; [set_solver|]. apply IH in H. set_solver.
Qed.

Lemma span_map_dom l id : is_Some (span_map l !! id) <-> id ∈ SpanID_ <$> l.
Proof.
  induction l as [|x l IH] using rev_ind.
  - unfold span_map. simpl. rewrite lookup_empty. split; [by intros []|set_solver].
  - rewrite span_map_snoc, lookup_insert_is_Some, IH, fmap_app, elem_of_app.
    cbn [fmap list_fmap]. rewrite list_elem_of_singleton.
    destruct (decide (SpanID_ x = id)); naive_solver.
Qed.

Lemma received_order spans : map_order (span_map spans) (received spans).
Proof.
  unfold received. split.
  - apply NoDup_fmap_2; [by intros ?? [=]|apply NoDup_remove_dups].
  - intros p. rewrite list_elem_of_fmap. setoid_rewrite elem_of_remove_dups.
    setoid_rewrite span_map_dom. done.
Qed.

Definition fresh (s : Span) : Node := MkNode s Received None [] false.

Definition collected (m : gmap SpanID Span) (t : Tree) : Prop :=
  (forall id, nodes t !! id = (fun _ => Real id) <$> m !! id) /\
  (forall id, heap t !! Real id = fresh <$> m !! id) /\
  (forall id, heap t !! Hold id = None) /\
  Roots t = [] /\ missing t = [] /\ cycles t = [].

Lemma collect_spec spans done_ t :
  collected (span_map done_) t ->
  (exists s, s ∈ spans /\ TraceID_ s <> tTraceID t) /\ collect spans t = Err ErrMixedTraces \/
  (forall s, s ∈ spans -> TraceID_ s = tTraceID t) /\
  exists t', collect spans t = Ok t' /\ tTraceID t' = tTraceID t /\
             collected (span_map (done_ ++ spans)) t'.
Proof.
  revert done_ t. induction spans as [|s spans IH]; intros done_ t Hc; cbn [collect].
  - right. split; [set_solver|]. exists t. by rewrite app_nil_r.
  - case_bool_decide as Ht; cbn [negb]; [|left; set_solver].
    set (t1 := MkTree _ _ _ _ _ _).
    destruct (IH (done_ ++ [s]) t1) as [[(x & Hx & Hne) E]|(Hall & t' & E & Hid & Hc')].
    + destruct Hc as (Hn & Hr & Hh & ? & ? & ?). rewrite span_map_snoc.
      split_and!; [intros id..|done|done|done]; simpl.
      * destruct (decide (SpanID_ s = id)) as [<-|Hne]; [by rewrite !lookup_insert_eq|].
        by rewrite !lookup_insert_ne.
      * destruct (decide (SpanID_ s = id)) as [<-|Hne]; [by rewrite !lookup_insert_eq|].
        rewrite !lookup_insert_ne by congruence. done.
      * by rewrite lookup_insert_ne.
    + left. split; [|done]. exists x. split; [by right|done].
    + right. split; [set_solver|]. exists t'. rewrite <-app_assoc in Hc'. done.
Qed.

(** ** The linking loop *)

Lemma lookup_alter_if (h : gmap ptr Node) f i j :
  alter f i h !! j = if decide (i = j) then f <$> h !! j else h !! j.
Proof. rewrite lookup_alter. case_decide; by subst. Qed.

Section linking.
Context (m : gmap SpanID Span) (tid : TraceID) (absent : Presence).

(** The nodes of [done_] that name [p], in the order they were linked. *)
Definition naming (done_ : list ptr) (p : ptr) : list ptr := filter (fun c => named m c p) done_.

(** The heap once the nodes [done_] are linked. *)
Definition linked_node (done_ : list ptr) (p : ptr) : option Node :=
  match p with
  | Real id =>
      (fun s => MkNode s Received (if decide (p ∈ done_) then names m p else None)
                  (naming done_ p) false) <$> m !! id
  | Hold id =>
      match naming done_ p with
      | [] => None
      | cs => Some (MkNode (nSpan (placeholder tid absent id)) absent None cs false)
      end
  end.

Record linked (done_ : list ptr) (st : Tree * gmap SpanID ptr) : Prop := {
  lk_id : tTraceID st.1 = tid;
  lk_nodes : forall id, nodes st.1 !! id = (fun _ => Real id) <$> m !! id;
  lk_cycles : cycles st.1 = [];
  lk_done : forall p, p ∈ done_ -> exists id s, p = Real id /\ m !! id = Some s;
  lk_heap : forall p, heap st.1 !! p = linked_node done_ p;
  lk_place : forall id, st.2 !! id =
    match naming done_ (Hold id) with [] => None | _ => Some (Hold id) end;
  lk_missing : NoDup (missing st.1) /\
    forall p, p ∈ missing st.1 <-> exists id, p = Hold id /\ naming done_ p <> [];
  lk_roots : NoDup (Roots st.1) /\
    forall p, p ∈ Roots st.1 <-> p ∈ missing st.1 \/ (p ∈ done_ /\ names m p = None);
}.

Lemma naming_snoc done_ n p :
  naming (done_ ++ [n]) p = naming done_ p ++ (if decide (named m n p) then [n] else []).
Proof. unfold naming. rewrite filter_app, filter_cons, filter_nil. done. Qed.

Lemma elem_of_naming done_ p c : c ∈ naming done_ p <-> named m c p /\ c ∈ done_.
Proof. unfold naming. by rewrite list_elem_of_filter. Qed.

Lemma names_real id s : m !! id = Some s ->
  names m (Real id) = if IsRoot s then None
    else Some (match m !! ParentSpanID s with Some _ => Real (ParentSpanID s)
               | None => Hold (ParentSpanID s) end).
Proof. unfold names. by intros ->. Qed.

Lemma linked_node_root done_ id p :
  Real id ∉ done_ -> names m (Real id) = None ->
  linked_node (done_ ++ [Real id]) p = linked_node done_ p.
Proof.
  intros Hn Hnone. unfold linked_node. rewrite naming_snoc.
  rewrite (decide_False (P:=named m _ _)) by (unfold named; congruence). rewrite app_nil_r.
  destruct p as [i|i]; [|done]. destruct (m !! i); [|done]. simpl. do 2 f_equal.
  destruct (decide (Real i ∈ done_ ++ [Real id])) as [Hi|Hi], (decide (Real i ∈ done_)) as [Hi'|Hi']; try done.
  - assert (i = id) as -> by set_solver. done.
  - set_solver.
Qed.

(** Linking [n] to a node [q] that is already there. *)
Lemma linked_node_child (h : gmap ptr Node) done_ id q p :
  h !! p = linked_node done_ p ->
  Real id ∉ done_ -> named m (Real id) q ->
  (forall i, q = Hold i -> p = q -> naming done_ q <> []) ->
  linked_node (done_ ++ [Real id]) p =
  (alter (set_children (fun cs => cs ++ [Real id])) q
    (alter (set_parent (Some q)) (Real id) h)) !! p.
Proof.
  intros Hh Hn Hq Hhold. rewrite !lookup_alter_if, Hh.
  unfold linked_node. rewrite naming_snoc.
  destruct p as [i|i].
  - destruct (m !! i) as [s|] eqn:Hs; simpl.
    2:{ by repeat case_decide. }
    assert (Real i ∈ done_ ++ [Real id] <-> Real i ∈ done_ \/ i = id) as Hin by set_solver.
    destruct (decide (Real id = Real i)) as [[= ->]|Hne];
      destruct (decide (q = Real i)) as [->|Hqi]; simpl.
    + rewrite (decide_True (P:=named m _ _)) by done.
      rewrite decide_True by tauto. by rewrite (Hq : names m (Real _) = Some _).
    + rewrite (decide_False (P:=named m _ _)) by (intros H; apply Hqi; by eapply named_fun).
      rewrite decide_True by tauto. by rewrite (Hq : names m (Real _) = Some _), app_nil_r.
    + rewrite (decide_True (P:=named m _ _)) by done. do 2 f_equal. unfold set_children; simpl. f_equal.
      apply decide_ext. naive_solver.
    + rewrite (decide_False (P:=named m _ _)) by (intros H; apply Hqi; by eapply named_fun).
      rewrite app_nil_r. do 2 f_equal. apply decide_ext. naive_solver.
  - rewrite (decide_False (P:=Real id = Hold i)) by done.
    destruct (decide (q = Hold i)) as [->|Hqi]; simpl.
    + rewrite (decide_True (P:=named m _ _)) by done. specialize (Hhold i eq_refl eq_refl).
      by destruct (naming done_ (Hold i)).
    + rewrite (decide_False (P:=named m _ _)) by (intros H; apply Hqi; by eapply named_fun).
      rewrite app_nil_r. done.
Qed.
Lemma linked_deref done_ st id s :
  linked done_ st -> m !! id = Some s -> nSpan (node st.1 (Real id)) = s.
Proof. intros Hk Hs. unfold deref. rewrite (lk_heap done_ st Hk). simpl. by rewrite Hs. Qed.

Lemma naming_ne_snoc done_ n p :
  naming (done_ ++ [n]) p <> [] <-> naming done_ p <> [] \/ named m n p.
Proof.
  rewrite naming_snoc. destruct (decide (named m n p)) as [Hd|Hd].
  - split; [by right|]. intros _. by destruct (naming done_ p).
  - rewrite app_nil_r. tauto.
Qed.

Lemma naming_match {A} done_ p (a b : A) :
  naming done_ p <> [] -> match naming done_ p with [] => a | _ => b end = b.
Proof. by destruct (naming done_ p). Qed.

Lemma naming_snoc_other {A} done_ n p (a b : A) :
  ~ named m n p ->
  match naming (done_ ++ [n]) p with [] => a | _ => b end =
  match naming done_ p with [] => a | _ => b end.
Proof. intros H. by rewrite naming_snoc, decide_False, app_nil_r by done. Qed.

(** A span without a parent becomes a root. *)
Lemma link_root done_ t ph id s :
  linked done_ (t, ph) -> Real id ∉ done_ -> m !! id = Some s -> IsRoot s = true ->
  linked (done_ ++ [Real id]) (link_node absent (Real id) (t, ph)).
Proof.
  intros Hk Hn Hs Hr. pose proof (linked_deref _ _ _ _ Hk Hs) as Hd. simpl in Hd.
  unfold link_node. rewrite Hd, Hr.
  assert (names m (Real id) = None) as Hnone by (by rewrite (names_real id s Hs), Hr).
  assert (forall p, ~ named m (Real id) p) as Hno by (intros p; unfold named; congruence).
  destruct Hk as [K1 K2 K3 K0 K4 K5 [K6 K6'] [K7 K7']]; simpl in *. split; simpl; try done.
  - intros p [?| ->%list_elem_of_singleton]%elem_of_app; [by apply K0|].
    by exists id, s.
  - intros p. by rewrite linked_node_root, K4.
  - intros i. by rewrite naming_snoc_other.
  - split; [done|]. intros p. setoid_rewrite naming_ne_snoc. rewrite K6'. naive_solver.
  - split.
    + apply NoDup_snoc. split; [done|]. rewrite K7', K6'. naive_solver.
    + intros p. rewrite !elem_of_app, !list_elem_of_singleton, K7'. naive_solver.
Qed.

(** A span whose parent has a node already hangs under it. *)
Lemma link_child done_ t ph id q :
  linked done_ (t, ph) -> Real id ∉ done_ -> named m (Real id) q ->
  (forall i, q = Hold i -> naming done_ q <> []) ->
  linked (done_ ++ [Real id])
    (modify q (set_children (fun cs => cs ++ [Real id]))
       (modify (Real id) (set_parent (Some q)) t), ph).
Proof.
  intros Hk Hn Hq Hhold.
  assert (forall i, naming (done_ ++ [Real id]) (Hold i) <> [] <-> naming done_ (Hold i) <> []) as Hne.
  { intros i. rewrite naming_ne_snoc. split; [|by left]. intros [?|Hi]; [done|].
    rewrite (named_fun m _ _ _ Hi Hq). apply (Hhold i). by eapply named_fun. }
  destruct Hk as [K1 K2 K3 K0 K4 K5 [K6 K6'] [K7 K7']]; simpl in *. split; simpl; try done.
  - intros p [?| ->%list_elem_of_singleton]%elem_of_app; [by apply K0|].
    apply names_some in Hq as (i & s & [= ->] & ? & _). by exists i, s.
  - intros p. symmetry. apply linked_node_child; eauto.
  - intros i. rewrite K5. specialize (Hne i).
    destruct (naming done_ (Hold i)), (naming (done_ ++ [Real id]) (Hold i)); naive_solver.
  - split; [done|]. intros p. rewrite K6'. naive_solver.
  - split; [done|]. intros p. rewrite K7', elem_of_app, list_elem_of_singleton.
    unfold named in Hq. naive_solver congruence.
Qed.

Lemma parent_lookup done_ t ph id s :
  linked done_ (t, ph) -> m !! id = Some s -> IsRoot s = false ->
  match (match nodes t !! ParentSpanID s with Some p => Some p | None => ph !! ParentSpanID s end) with
  | Some q => named m (Real id) q /\ forall i, q = Hold i -> naming done_ q <> []
  | None => named m (Real id) (Hold (ParentSpanID s)) /\ naming done_ (Hold (ParentSpanID s)) = []
  end.
Proof.
  intros Hk Hs Hr. pose proof (lk_nodes done_ _ Hk (ParentSpanID s)) as H1.
  pose proof (lk_place done_ _ Hk (ParentSpanID s)) as H2. simpl in H1, H2. rewrite H1, H2.
  unfold named. rewrite (names_real id s Hs), Hr.
  destruct (m !! ParentSpanID s); simpl; [done|].
  destruct (naming done_ (Hold (ParentSpanID s))) eqn:E; [done|].
  split; [done|]. intros i [= <-]. by rewrite E.
Qed.
(** A span whose parent is missing hangs under a new placeholder. *)
Lemma link_hold done_ t ph id i :
  linked done_ (t, ph) -> Real id ∉ done_ -> named m (Real id) (Hold i) ->
  naming done_ (Hold i) = [] ->
  linked (done_ ++ [Real id])
    (modify (Hold i) (set_children (fun cs => cs ++ [Real id]))
       (modify (Real id) (set_parent (Some (Hold i)))
          (MkTree (tTraceID t) (Roots t ++ [Hold i]) (nodes t) (missing t ++ [Hold i]) (cycles t)
             (<[Hold i := placeholder (tTraceID t) absent i]> (heap t)))),
     <[i := Hold i]> ph).
Proof.
  intros Hk Hn Hq Hnil.
  assert (forall j, naming (done_ ++ [Real id]) (Hold j) <> [] <-> naming done_ (Hold j) <> [] \/ j = i) as Hne.
  { intros j. rewrite naming_ne_snoc. split; (intros [?|Hj]; [by left|right]).
    - pose proof (named_fun m _ _ _ Hj Hq). congruence.
    - by subst. }
  destruct Hk as [K1 K2 K3 K0 K4 K5 [K6 K6'] [K7 K7']]; simpl in *.
  assert (Hold i ∉ missing t) as Hnm by (rewrite K6'; naive_solver).
  split; simpl; try done.
  - intros p [?| ->%list_elem_of_singleton]%elem_of_app; [by apply K0|].
    apply names_some in Hq as (j & s & [= ->] & ? & _). by exists j, s.
  - intros p. destruct (decide (p = Hold i)) as [->|Hne'].
    + rewrite !lookup_alter_if, lookup_insert_eq, K1. simpl. rewrite naming_snoc, Hnil.
      rewrite decide_True by done. rewrite (decide_True (P:=named m _ _)) by done. done.
    + symmetry. apply linked_node_child; [|done..]. by rewrite lookup_insert_ne.
  - intros j. specialize (Hne j). destruct (decide (i = j)) as [<-|Hij].
    + rewrite lookup_insert_eq. rewrite naming_match; naive_solver.
    + rewrite lookup_insert_ne, K5 by done.
      destruct (naming done_ (Hold j)), (naming (done_ ++ [Real id]) (Hold j)); naive_solver.
  - split; [by apply NoDup_snoc|]. intros p. rewrite elem_of_app, list_elem_of_singleton, K6'. naive_solver.
  - split.
    + apply NoDup_snoc. split; [done|]. rewrite K7'. intros [?|[Hd _]]; [done|].
      by destruct (K0 _ Hd) as (? & ? & ? & _).
    + intros p. rewrite !elem_of_app, !list_elem_of_singleton, K7'.
      unfold named in Hq. naive_solver congruence.
Qed.
Lemma link_node_linked done_ st n id s :
  linked done_ st -> n = Real id -> n ∉ done_ -> m !! id = Some s ->
  linked (done_ ++ [n]) (link_node absent n st).
Proof.
  intros Hk -> Hn Hs. destruct st as [t ph]. destruct (IsRoot s) eqn:Hr; [by eapply link_root|].
  pose proof (linked_deref _ _ _ _ Hk Hs) as Hd. pose proof (parent_lookup _ _ _ _ _ Hk Hs Hr) as Hp.
  simpl in Hd. unfold link_node. rewrite Hd, Hr.
  destruct (match nodes t !! ParentSpanID s with Some p => Some p | None => ph !! ParentSpanID s end)
    as [q|]; destruct Hp as [Hq Hp]; [by apply link_child|by apply link_hold].
Qed.

Lemma link_linked o t :
  map_order m o -> tTraceID t = tid -> collected m t ->
  exists ph, linked o (link absent o t, ph).
Proof.
  intros [Hnd Ho] Hid (Hn & Hr & Hh & Hroots & Hmiss & Hcyc). unfold link.
  assert (linked [] (t, ∅)) as H0.
  { split; simpl; try done.
    - set_solver.
    - intros [i|i]; simpl; [|done]. rewrite Hr. by destruct (m !! i).
    - rewrite Hmiss. split; [constructor|]. set_solver.
    - rewrite Hroots, Hmiss. split; [constructor|]. set_solver. }
  assert (forall l1 l2 st, o = l1 ++ l2 -> linked l1 st ->
            linked (l1 ++ l2) (foldl (fun st n => link_node absent n st) st l2)) as Hgo.
  { intros l1 l2. revert l1. induction l2 as [|n l2 IH]; intros l1 st Hl1 Hst; simpl.
    { by rewrite app_nil_r. }
    assert (n ∈ o) as (id & Hnid & s & Hs)%Ho by (rewrite Hl1; set_solver).
    rewrite (cons_middle n l1 l2), app_assoc. apply IH; [by rewrite <-app_assoc|].
    eapply link_node_linked; [done..| |done].
    rewrite Hl1 in Hnd. apply NoDup_app in Hnd as (_ & Hd & _). intros Hin. apply (Hd n Hin). by left. }
  specialize (Hgo [] o (t, ∅) eq_refl H0). simpl in Hgo.
  destruct (foldl _ _ o) as [t' ph]. by exists ph.
Qed.
End linking.

(** ** breakCycles *)

Section breaking.
Context (m : gmap SpanID Span) (tid : TraceID) (absent : Presence).
Hypothesis Hkeys : forall id s, m !! id = Some s -> SpanID_ s = id.

(** What holds of the tree from the end of the linking loop until the
    envelopes are set. *)
Record repairing (t : Tree) : Prop := {
  rp_id : tTraceID t = tid;
  rp_nodes : forall id, nodes t !! id = (fun _ => Real id) <$> m !! id;
  rp_dom : forall p, p ∈ dom (heap t) <-> in_tree m p;
  rp_real : forall id s, m !! id = Some s ->
    nSpan (node t (Real id)) = s /\ nPresence (node t (Real id)) = Received;
  rp_hold : forall id, in_tree m (Hold id) ->
    nSpan (node t (Hold id)) = nSpan (placeholder tid absent id) /\
    nPresence (node t (Hold id)) = absent;
  rp_links : links (heap t);
  rp_roots : roots_of (heap t) (Roots t);
  rp_parent : forall c, Parent (node t c) = if decide (c ∈ cycles t) then None else names m c;
  rp_broken : forall c, CycleBroken (node t c) = bool_decide (c ∈ cycles t);
  rp_cut : forall c, c ∈ cycles t -> cut_point m c;
  rp_nodup : NoDup (cycles t);
  rp_missing : NoDup (missing t) /\
    forall p, p ∈ missing t <-> exists id, p = Hold id /\ in_tree m p;
}.

Section linked_nodes.
Context (o : list ptr) (t : Tree) (ph : gmap SpanID ptr).
Context (Ho : map_order m o) (K : linked m tid absent o (t, ph)).

Lemma naming_named p : naming m o p <> [] <-> exists c, named m c p.
Proof.
  destruct Ho as [Hnd Hin].
  split.
  - destruct (naming m o p) as [|c l] eqn:E; [done|]. intros _. exists c.
    assert (c ∈ naming m o p) as Hc by (rewrite E; by left). by apply elem_of_naming in Hc as [? _].
  - intros [c Hc] Hnil. assert (c ∈ naming m o p) as Hx; [|by rewrite Hnil in Hx; apply elem_of_nil in Hx].
    apply elem_of_naming. split; [done|]. apply Hin.
    apply names_some in Hc as (id & s & -> & Hs & _). exists id. by rewrite Hs.
Qed.

Lemma linked_dom p : p ∈ dom (heap t) <-> in_tree m p.
Proof.
  rewrite elem_of_dom, (lk_heap _ _ _ _ _ K). destruct p as [id|id]; simpl.
  - apply fmap_is_Some.
  - rewrite <-naming_named. destruct (naming m o (Hold id)); [|by split].
    split; [by intros []|done].
Qed.

Lemma linked_parent c : Parent (node t c) = names m c.
Proof.
  unfold deref. rewrite (lk_heap _ _ _ _ _ K). destruct c as [id|id]; simpl.
  - destruct (m !! id) as [s|] eqn:Hs; simpl.
    + rewrite decide_True; [done|]. apply Ho. by exists id.
    + unfold names. by rewrite Hs.
  - by destruct (naming m o (Hold id)).
Qed.

Lemma linked_children p : Children (node t p) = naming m o p.
Proof.
  unfold deref. rewrite (lk_heap _ _ _ _ _ K). destruct p as [id|id]; simpl.
  - destruct (m !! id) as [s|] eqn:Hs; [done|]. simpl.
    destruct (naming m o (Real id)) as [|c l] eqn:E; [done|exfalso].
    assert (naming m o (Real id) <> []) as [c' Hc']%naming_named by (by rewrite E).
    apply named_in_tree in Hc' as [_ [? Hx]]. congruence.
  - by destruct (naming m o (Hold id)).
Qed.

Lemma linked_links : links (heap t).
Proof.
  split.
  - intros c p. unfold up. rewrite linked_parent, linked_children, elem_of_naming. split; [|by intros [? _]].
    intros Hc. split; [done|]. apply Ho.
    apply names_some in Hc as (id & s & -> & Hs & _). exists id. by rewrite Hs.
  - intros p. rewrite linked_children. apply NoDup_filter, Ho.
  - intros c p Hc. unfold up in Hc. rewrite linked_parent in Hc. apply linked_dom. by apply named_in_tree in Hc as [_ ?].
Qed.
End linked_nodes.

Lemma linked_repairing o t ph :
  map_order m o -> linked m tid absent o (t, ph) -> repairing t.
Proof.
  intros Hord K. pose proof (linked_dom o t ph Hord K) as Hdom. pose proof (linked_parent o t ph Hord K) as Hpar.
  pose proof (linked_links o t ph Hord K) as Hlinks. pose proof (naming_named o Hord) as Hne.
  destruct Hord as [Hnd Ho]. destruct K as [K1 K2 K3 K0 K4 K5 [K6 K6'] [K7 K7']]; simpl in *.
  split; try done.
  - intros id s Hs. unfold deref. rewrite K4. simpl. by rewrite Hs.
  - intros id Hid. simpl in Hid. apply Hne in Hid. unfold deref. rewrite K4. simpl.
    by destruct (naming m o (Hold id)).
  - split; [done|]. intros p. rewrite K7', K6', Hdom, Hpar. setoid_rewrite Hne. split.
    + intros [(id & -> & c & Hc)|[(id & -> & s)%Ho Hp]]; [split; [by exists c|done]|done].
    + intros [Hin Hp]. destruct p as [id|id]; [right|left; by exists id].
      split; [|done]. apply Ho. by exists id.
  - intros c. rewrite K3, Hpar. by rewrite decide_False by set_solver.
  - intros c. rewrite K3. rewrite bool_decide_eq_false_2 by set_solver.
    unfold deref. rewrite K4. destruct c as [id|id]; simpl; [by destruct (m !! id)|].
    by destruct (naming m o (Hold id)).
  - intros c. rewrite K3. set_solver.
  - rewrite K3. constructor.
  - split; [done|]. intros p. rewrite K6'. split.
    + intros (id & -> & Hn). exists id. split; [done|]. by apply Hne in Hn.
    + intros (id & -> & Hn). exists id. split; [done|]. by apply Hne.
Qed.

Lemma up_named t a b : repairing t -> up (heap t) a b -> named m a b.
Proof.
  intros Hr Hab. unfold up in Hab. rewrite (rp_parent t Hr) in Hab. by case_decide.
Qed.

Lemma cut_point_tree c : cut_point m c -> in_tree m c.
Proof. intros [Hc _]. apply on_cycle_real in Hc as (id & s & -> & Hs). by exists s. Qed.

Lemma byStart_span_at t a b :
  repairing t -> (exists s, named m a s) -> (exists s, named m b s) ->
  byStart (heap t) a b = span_order (span_at m a) (span_at m b).
Proof.
  intros Hr [? (i & s & -> & Hs & _)%names_some] [? (j & s' & -> & Hs' & _)%names_some].
  unfold byStart, span_at. rewrite Hs, Hs'. simpl.
  destruct (rp_real t Hr i s Hs) as [-> _], (rp_real t Hr j s' Hs') as [-> _]. done.
Qed.

Lemma tc_named_next c x : tc (named m) c x -> exists s, named m c s.
Proof. intros H. inversion H; eauto. Qed.

Lemma cut_point_of_cycle t c :
  repairing t -> earliest_on_cycle (heap t) c -> cut_point m c.
Proof.
  intros Hr [Hc Hmin]. assert (forall a b, up (heap t) a b -> named m a b) as Hsub by (intros; by eapply up_named).
  assert (tc (named m) c c) as Hnc by (by apply (tc_mono (up (heap t)) (named m))). split; [done|].
  intros x Hcx Hxc. destruct (cycle_forward m (heap t) c x Hsub Hc Hcx) as (Hb & Hx & Hb').
  rewrite <-(byStart_span_at t); [by apply Hmin|done|by eapply tc_named_next|].
  eapply tc_named_next. by apply (tc_mono (up (heap t)) (named m)).
Qed.
(** The tree after one cycle is cut. *)
Definition cut_tree (t : Tree) (parent cut : ptr) : Tree :=
  MkTree (tTraceID t) (Roots t ++ [cut]) (nodes t) (missing t) (cycles t ++ [cut])
    (cut_heap (heap t) parent cut).

Lemma repairing_cut t parent cut :
  repairing t -> cut_point m cut -> up (heap t) cut parent -> repairing (cut_tree t parent cut).
Proof.
  intros Hr Hc Hup. pose proof (deref_cut (heap t) parent cut (rp_links t Hr) Hup) as Hd.
  assert (cut ∉ cycles t) as Hnc.
  { intros Hin. unfold up in Hup. rewrite (rp_parent t Hr), decide_True in Hup; done. }
  split; simpl.
  - apply (rp_id t Hr).
  - apply (rp_nodes t Hr).
  - intros p. rewrite dom_cut_heap. apply (rp_dom t Hr).
  - intros id s Hs. destruct (Hd (Real id)) as (-> & -> & _). by apply (rp_real t Hr).
  - intros id Hid. destruct (Hd (Hold id)) as (-> & -> & _). by apply (rp_hold t Hr).
  - apply links_cut; [apply (rp_links t Hr)|done].
  - apply roots_cut; [apply (rp_links t Hr)|done|apply (rp_roots t Hr)].
  - intros c. destruct (Hd c) as (_ & _ & -> & _). rewrite (rp_parent t Hr).
    destruct (decide (c = cut)) as [->|Hne]; [by rewrite decide_True by set_solver|].
    apply decide_ext. set_solver.
  - intros c. destruct (Hd c) as (_ & _ & _ & _ & ->). rewrite (rp_broken t Hr).
    destruct (decide (c = cut)) as [->|Hne]; [by rewrite bool_decide_eq_true_2 by set_solver|].
    apply bool_decide_ext. set_solver.
  - intros c [?| ->%list_elem_of_singleton]%elem_of_app; [by apply (rp_cut t Hr)|done].
  - apply NoDup_snoc. split; [apply (rp_nodup t Hr)|done].
  - apply (rp_missing t Hr).
Qed.

Lemma roots_rooted t x : repairing t ->
  rooted (heap t) x <-> exists r, r ∈ Roots t /\ below (heap t) x r.
Proof.
  intros Hr. destruct (rp_roots t Hr) as [_ Hroots]. unfold rooted.
  setoid_rewrite Hroots. naive_solver.
Qed.

(** One iteration of the loop over the stranded nodes. *)
Lemma break_one_spec t R n :
  repairing t -> (forall x, x ∈ R <-> rooted (heap t) x) -> in_tree m n ->
  exists t' R', break_one n t R = Some (t', R') /\ repairing t' /\
    (forall x, x ∈ R' <-> rooted (heap t') x) /\ n ∈ R' /\ R ⊆ R'.
Proof.
  intros Hr HR Hn. unfold break_one. case_bool_decide as Hin; [by exists t, R|].
  pose proof (rp_links t Hr) as Hl. apply (rp_dom t Hr) in Hn.
  set (U := dom (heap t) ∖ R).
  assert (forall x, x ∈ U -> exists p, up (heap t) x p /\ p ∈ U) as HU.
  { intros x [Hxd Hxr]%elem_of_difference. destruct (Parent (node t x)) as [p|] eqn:Hp.
    - exists p. split; [done|]. apply elem_of_difference. split; [by eapply links_dom|].
      rewrite HR. intros Hrp. apply Hxr, HR. eapply rooted_below; [done|]. by apply rtc_once.
    - exfalso. apply Hxr, HR. exists x. split_and!; [done..|apply rtc_refl]. }
  assert (n ∈ U) as HnU by (apply elem_of_difference; done).
  destruct (find_cycle_spec (heap t) U HU (S (S (size (heap t)))) n ∅) as (n' & -> & Hn'U & Hb & Hc).
  { done. } { set_solver. } { set_solver. }
  { assert (size U <= size (heap t))%nat; [|rewrite size_empty; lia].
    rewrite <-size_dom. apply subseteq_size. set_solver. }
  cbn [mbind option_bind]. destruct (HU n' Hn'U) as (p' & Hp' & _).
  rewrite (Hp' : Parent (node t n') = Some p'). cbn [mbind option_bind].
  destruct (earliest_round (heap t) n' p' Hc Hp') as (cut & -> & Hb1 & Hb2 & Hcut). cbn [mbind option_bind].
  destruct (tc_step (heap t) cut cut (proj1 Hcut)) as (parent & Hpar & _).
  rewrite (Hpar : Parent (node t cut) = Some parent). cbn [mbind option_bind].
  change (modify cut set_broken _) with
    (MkTree (tTraceID t) (Roots t) (nodes t) (missing t) (cycles t) (cut_heap (heap t) parent cut)).
  unfold with_roots, with_cycles; cbn [tTraceID Roots nodes missing cycles heap].
  fold (cut_tree t parent cut).
  assert (repairing (cut_tree t parent cut)) as Hr'.
  { apply repairing_cut; [done| |done]. by eapply cut_point_of_cycle. }
  destruct (mark_spec (cut_heap (heap t) parent cut) cut R) as (R' & -> & HR').
  - apply (rp_links _ Hr').
  - rewrite dom_cut_heap. by eapply up_dom.
  - destruct (deref_cut (heap t) parent cut Hl Hpar cut) as (_ & _ & -> & _). by rewrite decide_True.
  - cbn [mbind option_bind]. exists (cut_tree t parent cut), R'. split_and!; [done..| | |].
    + intros x. rewrite HR', HR. symmetry. by apply rooted_cut.
    + apply HR'. right. apply below_to_cut; [done..|]. by transitivity n'.
    + intros x Hx. apply HR'. by left.
Qed.

Lemma break_all_spec stranded : forall t R,
  repairing t -> (forall x, x ∈ R <-> rooted (heap t) x) ->
  (forall n, n ∈ stranded -> in_tree m n) ->
  exists t' R', break_all stranded t R = Some (t', R') /\ repairing t' /\
    (forall x, x ∈ R' <-> rooted (heap t') x) /\ (forall n, n ∈ stranded -> n ∈ R') /\ R ⊆ R'.
Proof.
  induction stranded as [|n l IH]; intros t R Hr HR Hin; cbn [break_all].
  - exists t, R. split_and!; [done..|set_solver|done].
  - destruct (break_one_spec t R n Hr HR) as (t1 & R1 & -> & Hr1 & HR1 & Hn1 & Hs1); [apply Hin; by left|].
    cbn [mbind option_bind].
    destruct (IH t1 R1 Hr1 HR1) as (t2 & R2 & -> & Hr2 & HR2 & Hn2 & Hs2); [intros; apply Hin; by right|].
    exists t2, R2. split_and!; [done..|set_solver|set_solver].
Qed.

(** Once every node is rooted, every cycle has been cut. *)
Lemma cut_points_cut t c :
  repairing t -> (forall x, in_tree m x -> rooted (heap t) x) -> cut_point m c -> c ∈ cycles t.
Proof.
  intros Hr Hall Hc. destruct (decide (c ∈ cycles t)) as [|Hn]; [done|exfalso].
  destruct (tc_step_named m c c (proj1 Hc)) as (z & Hcz & Hzc).
  assert (forall y, rtc (named m) z y -> below (heap t) z y \/
            exists x, x ∈ cycles t /\ rtc (named m) z x /\ rtc (named m) x y) as Hsplit.
  { apply rtc_ind_r; [left; apply rtc_refl|]. intros y w Hcy Hyz [Hb|(x & Hx & Hcx & Hxy)].
    - destruct (decide (y ∈ cycles t)) as [Hy|Hy].
      + right. exists y. split_and!; [done..|by apply rtc_once].
      + left. eapply rtc_r; [exact Hb|]. unfold up. by rewrite (rp_parent t Hr), decide_False.
    - right. exists x. split_and!; [done..|]. by eapply rtc_r. }
  destruct (Hsplit c Hzc) as [Hb|(x & Hx & Hcx & Hxc)].
  - apply (rooted_acyclic (heap t) c); [by apply Hall, cut_point_tree|].
    eapply tc_rtc_r; [apply tc_once|exact Hb]. unfold up. by rewrite (rp_parent t Hr), decide_False.
  - assert (c = x) as ->; [|done]. assert (rtc (named m) c x) as Hcx' by (by eapply rtc_l).
    by apply (cut_point_unique m Hkeys); [|apply (rp_cut t Hr)|..].
Qed.
Lemma size_heap t : repairing t -> size (heap t) = (size (nodes t) + length (missing t))%nat.
Proof.
  intros Hr. destruct (rp_missing t Hr) as [Hnd Hmiss].
  rewrite <-size_dom, <-(size_dom (D:=gset SpanID) (nodes t)).
  set (l := (Real <$> elements (dom (nodes t))) ++ missing t).
  assert (dom (heap t) = list_to_set l) as ->.
  { apply set_eq. intros p. unfold l.
    rewrite (rp_dom t Hr), elem_of_list_to_set, elem_of_app, Hmiss, list_elem_of_fmap.
    setoid_rewrite elem_of_elements. setoid_rewrite elem_of_dom. setoid_rewrite (rp_nodes t Hr).
    setoid_rewrite fmap_is_Some. destruct p as [id|id]; naive_solver. }
  rewrite size_list_to_set.
  - unfold l. by rewrite length_app, length_fmap.
  - apply NoDup_app. split_and!; [|intros p|done].
    + apply NoDup_fmap_2; [by intros ?? [=]|apply NoDup_elements].
    + rewrite list_elem_of_fmap, Hmiss. naive_solver.
Qed.

Lemma repairing_sort_cycles t :
  repairing t -> repairing (with_cycles t (sort_func (byStart (heap t)) (cycles t))).
Proof.
  intros [H1 H2 H3 H4 H5 H6 H7 H8 H9 H10 H11 H12]. split; simpl; try done.
  - intros c. rewrite H8. apply decide_ext. by rewrite elem_of_sort_func.
  - intros c. rewrite H9. apply bool_decide_ext. by rewrite elem_of_sort_func.
  - intros c. rewrite elem_of_sort_func. apply H10.
  - by rewrite sort_func_perm.
Qed.

Lemma breakCycles_spec o t :
  map_order m o -> repairing t -> cycles t = [] ->
  exists t', breakCycles o t = Some t' /\ repairing t' /\
    (forall x, in_tree m x -> rooted (heap t') x) /\
    StronglySorted (cmp_le (byStart (heap t'))) (cycles t').
Proof.
  intros [_ Ho] Hr Hcyc. unfold breakCycles.
  destruct (mark_all_spec (heap t) (Roots t) ∅ (rp_links t Hr)) as (R & -> & HR).
  { intros r Hroot. by apply (rp_roots t Hr). }
  cbn [mbind option_bind].
  assert (forall x, x ∈ R <-> rooted (heap t) x) as HR'.
  { intros x. rewrite HR, roots_rooted by done. set_solver. }
  assert (forall x, rooted (heap t) x -> x ∈ dom (heap t)) as Hrd.
  { intros x (r & Hd & _ & Hb). inversion Hb; subst; [done|by eapply up_dom]. }
  case_bool_decide as Hsize.
  - exists t. split_and!; [done..| |rewrite Hcyc; constructor].
    intros x Hx. apply HR'. rewrite <-size_heap, <-size_dom in Hsize by done.
    assert (R = dom (heap t)) as ->; [|by apply (rp_dom t Hr)].
    apply set_subseteq_size_eq; [|lia].
    intros y Hy%HR'. by apply Hrd.
  - set (stranded := sort_func _ _).
    destruct (break_all_spec stranded t R Hr HR') as (t' & R' & -> & Hr' & HRr & Hn & Hsub).
    { intros n. unfold stranded. rewrite elem_of_sort_func, list_elem_of_filter.
      intros [_ (id & -> & Hid)%Ho]. done. }
    cbn [mbind option_bind]. eexists. split; [done|].
    split_and!; [by apply repairing_sort_cycles| |apply sort_func_sorted, _].
    intros x Hx. simpl. destruct x as [id|id].
    + apply HRr. destruct (decide (Real id ∈ R)) as [|Hnr]; [by apply Hsub|]. apply Hn.
      unfold stranded. rewrite elem_of_sort_func, list_elem_of_filter. split; [done|].
      apply Ho. by exists id.
    + exists (Hold id). split_and!; [by apply (rp_dom t' Hr')| |apply rtc_refl].
      rewrite (rp_parent t' Hr'). by case_decide.
Qed.
End breaking.

(** ** Envelopes and sorting *)

Lemma widen_fold h cs b :
  let b' := foldl (fun b c => widen h c b) b cs in
  (b'.1 = b.1 \/ exists c, c ∈ cs /\ Start (nSpan (deref h c)) = b'.1) /\
  (b'.2 = b.2 \/ exists c, c ∈ cs /\ End_ (nSpan (deref h c)) = b'.2) /\
  b'.1 <= b.1 /\ b.2 <= b'.2 /\
  forall c, c ∈ cs -> b'.1 <= Start (nSpan (deref h c)) /\ End_ (nSpan (deref h c)) <= b'.2.
Proof.
  revert b. induction cs as [|c cs IH]; intros b; simpl.
  { split_and!; [by left|by left|lia|lia|set_solver]. }
  specialize (IH (widen h c b)). destruct b as [s e]. simpl in *.
  set (b' := foldl (fun b c => widen h c b) _ cs) in *.
  set (b1 := if Time.Before (Start (nSpan (deref h c))) s then Start (nSpan (deref h c)) else s) in *.
  set (b2 := if Time.After (End_ (nSpan (deref h c))) e then End_ (nSpan (deref h c)) else e) in *.
  assert ((b1 = s \/ b1 = Start (nSpan (deref h c))) /\ b1 <= s /\ b1 <= Start (nSpan (deref h c))) as (A1 & A2 & A3).
  { unfold b1. destruct (Before_spec (Start (nSpan (deref h c))) s); split_and!; eauto; lia. }
  assert ((b2 = e \/ b2 = End_ (nSpan (deref h c))) /\ e <= b2 /\ End_ (nSpan (deref h c)) <= b2) as (B1 & B2 & B3).
  { unfold b2. destruct (After_spec (End_ (nSpan (deref h c))) e); split_and!; eauto; lia. }
  destruct IH as (I1 & I2 & I3 & I4 & I5). split_and!; [| |lia|lia|].
  - destruct I1 as [I1|(x & Hx & E)]; [|right; exists x; split; [by right|done]].
    destruct A1 as [A1|A1]; [left; congruence|right; exists c; split; [by left|congruence]].
  - destruct I2 as [I2|(x & Hx & E)]; [|right; exists x; split; [by right|done]].
    destruct B1 as [B1|B1]; [left; congruence|right; exists c; split; [by left|congruence]].
  - intros x [->|Hx]%elem_of_cons; [lia|by apply I5].
Qed.

Lemma envelope_spec h p :
  Children (deref h p) <> [] ->
  exists b, envelope h p = Some b /\
            is_envelope b ((fun c => nSpan (deref h c)) <$> Children (deref h p)).
Proof.
  unfold envelope. destruct (Children (deref h p)) as [|c cs]; [done|]. intros _. eexists. split; [done|].
  pose proof (widen_fold h cs (Start (nSpan (deref h c)), End_ (nSpan (deref h c)))) as W. simpl in W.
  set (b := foldl _ _ cs) in *. destruct W as (W1 & W2 & W3 & W4 & W5). unfold is_envelope. split_and!.
  - destruct W1 as [W1|(x & Hx & E)]; [exists (nSpan (deref h c)); split; [by left|done]|].
    exists (nSpan (deref h x)). split; [|done]. apply list_elem_of_fmap. exists x. split; [done|by right].
  - destruct W2 as [W2|(x & Hx & E)]; [exists (nSpan (deref h c)); split; [by left|done]|].
    exists (nSpan (deref h x)). split; [|done]. apply list_elem_of_fmap. exists x. split; [done|by right].
  - intros s [x [-> [->|Hx]%elem_of_cons]]%list_elem_of_fmap; [lia|by apply W5].
Qed.

Lemma envelope_ext h h' p :
  Children (deref h' p) = Children (deref h p) ->
  (forall c, c ∈ Children (deref h p) -> nSpan (deref h' c) = nSpan (deref h c)) ->
  envelope h' p = envelope h p.
Proof.
  unfold envelope. intros -> Hc. destruct (Children (deref h p)) as [|c cs]; [done|].
  rewrite (Hc c) by (by left). f_equal.
  generalize (Start (nSpan (deref h c)), End_ (nSpan (deref h c))) as b.
  assert (forall x, x ∈ cs -> nSpan (deref h' x) = nSpan (deref h x)) as Hcs by (intros; apply Hc; by right).
  clear Hc. induction cs as [|x cs IH]; intros b; simpl; [done|].
  unfold widen at 2 4. rewrite (Hcs x) by (by left). apply IH. intros; apply Hcs; by right.
Qed.

Definition enveloped (h : gmap ptr Node) (p : ptr) : Node :=
  match envelope h p with
  | Some b => set_envelope b (deref h p)
  | None => deref h p
  end.

Lemma set_envelopes_spec ps : forall t,
  NoDup ps ->
  (forall p, p ∈ ps -> p ∈ dom (heap t) /\ Children (node t p) <> [] /\
                       forall c, c ∈ Children (node t p) -> c ∉ ps) ->
  exists h', set_envelopes ps t = Some (with_heap t h') /\ dom h' = dom (heap t) /\
    forall p, deref h' p = if decide (p ∈ ps) then enveloped (heap t) p else deref (heap t) p.
Proof.
  induction ps as [|p ps IH]; intros t Hnd Hps; cbn [set_envelopes].
  { exists (heap t). split_and!; [by destruct t|done|]. intros p. by rewrite decide_False by set_solver. }
  apply NoDup_cons in Hnd as [Hp Hnd].
  destruct (Hps p) as (Hpd & Hne & Hcs); [by left|].
  destruct (envelope_spec (heap t) p Hne) as (b & Hb & _). rewrite Hb. cbn [mbind option_bind].
  set (t1 := modify p (set_envelope b) t).
  assert (forall x, node t1 x = if decide (x = p) then set_envelope b (node t x) else node t x) as Ht1.
  { intros x. by apply deref_alter. }
  assert (forall x, Children (node t1 x) = Children (node t x)) as Hch.
  { intros x. rewrite Ht1. by case_decide. }
  destruct (IH t1 Hnd) as (h' & -> & Hd & Hh').
  { intros q Hq. rewrite Hch. destruct (Hps q) as (Hqd & ? & ?); [by right|].
    split_and!; [by unfold t1; simpl; rewrite dom_alter_L|done|set_solver]. }
  exists h'. split_and!; [done|by rewrite Hd; unfold t1; simpl; rewrite dom_alter_L|].
  assert (forall q, q ∈ ps -> enveloped (heap t1) q = enveloped (heap t) q) as Hext.
  { intros q Hq. unfold enveloped. rewrite (envelope_ext (heap t)); [|done|].
    - rewrite Ht1. rewrite decide_False by (by intros ->). done.
    - intros c Hc. rewrite Ht1. rewrite decide_False; [done|].
      intros ->. destruct (Hps q) as (_ & _ & Hqc); [by right|]. by apply (Hqc p Hc); left. }
  intros x. rewrite Hh'. destruct (decide (x ∈ ps)) as [Hx|Hx].
  - rewrite decide_True by (by right). by apply Hext.
  - rewrite Ht1. destruct (decide (x = p)) as [->|Hxp].
    + rewrite decide_True by (by left). unfold enveloped. by rewrite Hb.
    + by rewrite decide_False by set_solver.
Qed.

Lemma sort_children_spec ps : forall t,
  NoDup ps -> (forall p, p ∈ ps -> p ∈ dom (heap t)) ->
  exists h', sort_children ps t = with_heap t h' /\ dom h' = dom (heap t) /\
    forall p, deref h' p = if decide (p ∈ ps)
                           then set_children (sort_func (byStart (heap t))) (deref (heap t) p)
                           else deref (heap t) p.
Proof.
  induction ps as [|p ps IH]; intros t Hnd Hps; cbn [sort_children foldl].
  { exists (heap t). split_and!; [by destruct t|done|]. intros p. by rewrite decide_False by set_solver. }
  apply NoDup_cons in Hnd as [Hp Hnd].
  set (t1 := modify p _ t).
  assert (forall x, node t1 x = if decide (x = p) then set_children (sort_func (byStart (heap t))) (node t x)
                                else node t x) as Ht1.
  { intros x. apply deref_alter, Hps. by left. }
  assert (forall a b, byStart (heap t1) a b = byStart (heap t) a b) as Hby.
  { intros a b. unfold byStart. rewrite !Ht1. by repeat case_decide. }
  destruct (IH t1 Hnd) as (h' & Hs & Hd & Hh').
  { intros q Hq. unfold t1. simpl. rewrite dom_alter_L. apply Hps. by right. }
  unfold sort_children in Hs. rewrite Hs. exists h'.
  split_and!; [done|by rewrite Hd; unfold t1; simpl; rewrite dom_alter_L|].
  intros x. rewrite Hh', Ht1. destruct (decide (x = p)) as [->|Hxp].
  - rewrite decide_False by done. by rewrite decide_True by (by left).
  - destruct (decide (x ∈ ps)).
    + rewrite decide_True by (by right). unfold set_children. f_equal. by apply sort_func_ext.
    + by rewrite decide_False by set_solver.
Qed.

Lemma sorted_ext {A} (c d : A -> A -> comparison) l :
  (forall a b, a ∈ l -> b ∈ l -> c a b = d a b) ->
  StronglySorted (cmp_le c) l -> StronglySorted (cmp_le d) l.
Proof.
  intros Hcd. induction 1 as [|x l Hl IH Hx]; constructor.
  - apply IH. intros; apply Hcd; by right.
  - rewrite Forall_forall in *. intros y Hy. unfold cmp_le in *.
    rewrite <-Hcd; [by apply Hx|by left|by right].
Qed.

Lemma is_envelope_ext b l l' : (forall s, s ∈ l <-> s ∈ l') -> is_envelope b l -> is_envelope b l'.
Proof. unfold is_envelope. intros H. setoid_rewrite <-H. done. Qed.

(** ** The whole of Build *)

Section finishing.
Context (m : gmap SpanID Span) (tid : TraceID) (absent : Presence).
Hypothesis Hkeys : forall id s, m !! id = Some s -> SpanID_ s = id.

(** What follows breakCycles. *)
Definition finish (o3 : list ptr) (t : Tree) : option Tree :=
  t ← set_envelopes (missing t) t;
  let t := with_roots t (sort_func (byStart (heap t)) (Roots t)) in
  let t := with_missing t (sort_func (byStart (heap t)) (missing t)) in
  let t := sort_children o3 t in
  Some (sort_children (missing t) t).

(** A heap that differs from [h] as [finish] makes it differ. *)
Record finished (t : Tree) (h : gmap ptr Node) : Prop := {
  fin_dom : dom h = dom (heap t);
  fin_presence : forall p, nPresence (deref h p) = nPresence (node t p);
  fin_parent : forall p, Parent (deref h p) = Parent (node t p);
  fin_broken : forall p, CycleBroken (deref h p) = CycleBroken (node t p);
  fin_perm : forall p, Children (deref h p) ≡ₚ Children (node t p);
  fin_sorted : forall p, StronglySorted (cmp_le (byStart h)) (Children (deref h p));
  fin_real : forall id, nSpan (deref h (Real id)) = nSpan (node t (Real id));
  fin_hold : forall id, Hold id ∈ missing t -> exists b,
    nSpan (deref h (Hold id)) = set_times b.1 b.2 (nSpan (node t (Hold id))) /\
    is_envelope b ((fun c => nSpan (node t c)) <$> Children (node t (Hold id)));
}.

Lemma child_real t c p : repairing m tid absent t -> c ∈ Children (node t p) ->
  exists id s, c = Real id /\ m !! id = Some s.
Proof.
  intros Hr Hc. apply (links_up _ (rp_links _ _ _ t Hr)) in Hc.
  apply (up_named m tid absent) in Hc; [|done]. apply names_some in Hc as (id & s & -> & Hs & _).
  by exists id, s.
Qed.

Lemma placeholder_child t p :
  repairing m tid absent t -> p ∈ missing t -> Children (node t p) <> [].
Proof.
  intros Hr Hp. apply (rp_missing _ _ _ t Hr) in Hp as (id & -> & c & Hc).
  assert (c ∉ cycles t) as Hnc.
  { intros [Hcyc _]%(rp_cut _ _ _ t Hr). apply tc_step_named in Hcyc as (z & Hcz & Hzc).
    rewrite (named_fun m _ _ _ Hcz Hc) in Hzc.
    apply names_some in Hc as (i & s & -> & _). by inversion Hzc. }
  assert (up (heap t) c (Hold id)) as Hup.
  { unfold up. by rewrite (rp_parent _ _ _ t Hr), decide_False. }
  apply (links_up _ (rp_links _ _ _ t Hr)) in Hup. intros E. rewrite E in Hup. by apply elem_of_nil in Hup.
Qed.

Lemma finish_spec o t :
  map_order m o -> repairing m tid absent t ->
  exists h r ms, finish o t = Some (MkTree (tTraceID t) r (nodes t) ms (cycles t) h) /\
    finished t h /\
    r ≡ₚ Roots t /\ StronglySorted (cmp_le (byStart h)) r /\
    ms ≡ₚ missing t /\ StronglySorted (cmp_le (byStart h)) ms.
Proof.
  intros [Hond Ho] Hr. unfold finish. destruct (rp_missing _ _ _ t Hr) as [Hmnd Hmiss].
  destruct (set_envelopes_spec (missing t) t Hmnd) as (hE & -> & HdE & HE).
  { intros p Hp. split_and!.
    - apply (rp_dom _ _ _ t Hr). by apply Hmiss in Hp as (? & _ & ?).
    - by apply placeholder_child.
    - intros c (id & s & -> & _)%child_real; [|done]. intros (? & ? & _)%Hmiss. done. }
  cbn [mbind option_bind].
  set (r := sort_func (byStart hE) (Roots t)). set (ms := sort_func (byStart hE) (missing t)).
  set (t2 := MkTree (tTraceID t) r (nodes t) ms (cycles t) hE).
  change (with_missing _ _) with t2.
  assert (sort_children (missing (sort_children o t2)) (sort_children o t2) = sort_children (o ++ ms) t2) as ->.
  { unfold sort_children at 1 4. rewrite foldl_app. fold (sort_children o t2). f_equal.
    destruct (sort_children_spec o t2 Hond) as (? & -> & _); [|done].
    intros p (id & -> & Hid)%Ho. simpl. rewrite HdE. by apply (rp_dom _ _ _ t Hr). }
  assert (forall p, p ∈ o ++ ms <-> p ∈ dom (heap t)) as Hall.
  { intros p. rewrite elem_of_app, Ho. unfold ms. rewrite elem_of_sort_func, Hmiss, (rp_dom _ _ _ t Hr).
    destruct p; naive_solver. }
  destruct (sort_children_spec (o ++ ms) t2) as (hF & -> & HdF & HF).
  { apply NoDup_app. split_and!; [done| |unfold ms; by rewrite sort_func_perm].
    intros p (id & -> & _)%Ho. unfold ms. rewrite elem_of_sort_func. intros (? & ? & _)%Hmiss. done. }
  { intros p Hp%Hall. simpl. by rewrite HdE. }
  simpl in HdF, HF.
  assert (forall p, deref hF p = set_children (sort_func (byStart hE)) (deref hE p)) as HF'.
  { intros p. rewrite HF. case_decide as Hp; [done|]. rewrite Hall, <-HdE in Hp. by rewrite deref_not_in. }
  assert (forall a b, byStart hF a b = byStart hE a b) as Hby.
  { intros a b. unfold byStart. by rewrite !HF'. }
  assert (forall l, StronglySorted (cmp_le (byStart hF)) (sort_func (byStart hE) l)) as Hsort.
  { intros l. apply (sorted_ext (byStart hE)); [by intros; rewrite Hby|apply sort_func_sorted, _]. }
  exists hF, r, ms. split; [done|]. split_and!;
    [|apply sort_func_perm|apply Hsort|apply sort_func_perm|apply Hsort].
  assert (forall p, nPresence (deref hE p) = nPresence (node t p) /\ Parent (deref hE p) = Parent (node t p) /\
     CycleBroken (deref hE p) = CycleBroken (node t p) /\ Children (deref hE p) = Children (node t p)) as HE'.
  { intros p. rewrite HE. unfold enveloped. case_decide; [|done]. by destruct (envelope (heap t) p). }
  split.
  - by rewrite HdF, HdE.
  - intros p. rewrite HF'. apply HE'.
  - intros p. rewrite HF'. apply HE'.
  - intros p. rewrite HF'. apply HE'.
  - intros p. rewrite HF'. simpl. rewrite sort_func_perm. by destruct (HE' p) as (_ & _ & _ & ->).
  - intros p. rewrite HF'. apply Hsort.
  - intros id. rewrite HF'. simpl. rewrite HE, decide_False; [done|]. by intros (? & ? & _)%Hmiss.
  - intros id Hid. rewrite HF'. simpl. rewrite HE, decide_True by done. unfold enveloped.
    destruct (envelope_spec (heap t) (Hold id)) as (b & -> & Hb); [by apply placeholder_child|].
    by exists b.
Qed.
Lemma finished_tree_spec t h r ms :
  repairing m tid absent t -> (forall x, in_tree m x -> rooted (heap t) x) ->
  StronglySorted (cmp_le (byStart (heap t))) (cycles t) ->
  finished t h -> r ≡ₚ Roots t -> StronglySorted (cmp_le (byStart h)) r ->
  ms ≡ₚ missing t -> StronglySorted (cmp_le (byStart h)) ms ->
  tree_spec m tid absent (MkTree (tTraceID t) r (nodes t) ms (cycles t) h).
Proof.
  intros Hr Hall Hcyc [F1 F2 F3 F4 F5 F6 F7 F8] Hrp Hrs Hmp Hms.
  destruct (rp_missing _ _ _ t Hr) as [Hmnd Hmiss]. destruct (rp_roots _ _ _ t Hr) as [Hrnd Hroots].
  assert (forall c, c ∈ cycles t <-> cut_point m c) as Hcut.
  { intros c. split; [apply (rp_cut _ _ _ t Hr)|]. by apply (cut_points_cut m tid absent Hkeys). }
  assert (forall p c, c ∈ Children (node t p) -> nSpan (node t c) = span_at m c) as Hspan.
  { intros p c (id & s & -> & Hs)%child_real; [|done]. simpl. rewrite Hs.
    by destruct (rp_real _ _ _ t Hr id s Hs). }
  split; simpl.
  - apply (rp_id _ _ _ t Hr).
  - apply (rp_nodes _ _ _ t Hr).
  - intros p. rewrite F1. apply (rp_dom _ _ _ t Hr).
  - intros id s Hs. rewrite F7, F2. by apply (rp_real _ _ _ t Hr).
  - intros id Hid. rewrite F2. destruct (rp_hold _ _ _ t Hr id Hid) as [Hs ->]. split; [done|].
    destruct (F8 id) as (b & Hb & He); [apply Hmiss; by exists id|].
    exists b. split; [by rewrite Hb, Hs|]. eapply is_envelope_ext; [|exact He].
    intros s. rewrite !list_elem_of_fmap. split; intros (c & -> & Hc).
    + exists c. split; [by eapply Hspan|by rewrite F5].
    + rewrite F5 in Hc. exists c. split; [symmetry; by eapply Hspan|done].
  - intros c Hc. rewrite F3, F4, (rp_parent _ _ _ t Hr), (rp_broken _ _ _ t Hr), <-Hcut.
    destruct (decide (c ∈ cycles t)) as [Hd|Hd]; [left|right]; split_and!; try done.
    + by apply bool_decide_eq_true_2.
    + by apply bool_decide_eq_false_2.
  - intros p. split_and!; [rewrite F5; apply (links_nodup _ (rp_links _ _ _ t Hr))|apply F6|].
    intros c. rewrite F5. unfold up. rewrite F3. symmetry. apply (links_up _ (rp_links _ _ _ t Hr)).
  - split_and!; [by rewrite Hrp|done|]. intros p. by rewrite Hrp, Hroots, (rp_dom _ _ _ t Hr), F3.
  - split_and!; [by rewrite Hmp|done|]. intros p. by rewrite Hmp, Hmiss.
  - split_and!; [apply (rp_nodup _ _ _ t Hr)| |done].
    apply (sorted_ext (byStart (heap t))); [|done].
    intros a b Ha%Hcut Hb%Hcut. destruct Ha as [Ha _], Hb as [Hb _].
    apply on_cycle_real in Ha as (i & s & -> & _). apply on_cycle_real in Hb as (j & s' & -> & _).
    unfold byStart. by rewrite !F7.
Qed.
End finishing.

Lemma build_refines o1 o2 o3 s0 spans phase :
  let m := span_map (s0 :: spans) in
  map_order m o1 -> map_order m o2 -> map_order m o3 ->
  (forall s, s ∈ spans -> TraceID_ s = TraceID_ s0) ->
  exists t, Build_iter o1 o2 o3 (s0 :: spans) phase = Ok t /\
            tree_spec m (TraceID_ s0) (absent_of phase) t /\
            links (heap t) /\ (forall x, in_tree m x -> rooted (heap t) x).
Proof.
  intros m H1 H2 H3 Hall. unfold Build_iter.
  assert (forall id s, m !! id = Some s -> SpanID_ s = id) as Hkeys by (intros id s Hs; by apply span_map_keys in Hs as [? _]).
  destruct (collect_spec (s0 :: spans) [] (MkTree (TraceID_ s0) [] ∅ [] [] ∅)) as [[(s & Hs & Hne) _]|(_ & t0 & -> & Hid & Hc)].
  { split_and!; try done; intros id; simpl; rewrite ?lookup_empty; done. }
  { simpl in Hne. apply elem_of_cons in Hs as [->|Hs]; [done|]. by apply Hall in Hs. }
  simpl in Hid, Hc. fold m in Hc.
  destruct (link_linked m (TraceID_ s0) (absent_of phase) o1 t0 H1 Hid Hc) as (ph & Hl).
  set (t1 := link (absent_of phase) o1 t0) in *.
  pose proof (linked_repairing m _ _ Hkeys o1 t1 ph H1 Hl) as Hr1.
  destruct (breakCycles_spec m _ _ Hkeys o2 t1 H2 Hr1 (lk_cycles _ _ _ _ _ Hl)) as (t2 & Hb & Hr2 & Hrooted & Hsorted).
  destruct (finish_spec m _ _ o3 t2 H3 Hr2) as (h & r & ms & Hf & Hfin & Hr & Hrs & Hms & Hmss).
  exists (MkTree (tTraceID t2) r (nodes t2) ms (cycles t2) h).
  unfold finish in Hf. rewrite Hb. cbn [mbind option_bind] in *.
  destruct (set_envelopes (missing t2) t2) as [t3|]; [|done]. cbn [mbind option_bind] in Hf.
  injection Hf as Hf. split_and!; [exact (f_equal Ok Hf)| | |].
  - by apply finished_tree_spec.
  - destruct Hfin as [F1 F2 F3 F4 F5 F6 F7 F8]. split.
    + intros c p. unfold up. rewrite F3, F5. apply (links_up _ (rp_links _ _ _ t2 Hr2)).
    + intros p. simpl. rewrite F5. apply (links_nodup _ (rp_links _ _ _ t2 Hr2)).
    + intros c p. unfold up. simpl. rewrite F3, F1. apply (links_dom _ (rp_links _ _ _ t2 Hr2)).
  - intros x Hx. destruct (Hrooted x Hx) as (root & Hd & Hn & Hbel).
    destruct Hfin as [F1 F2 F3 F4 F5 F6 F7 F8]. exists root. simpl. split_and!; [by rewrite F1|by rewrite F3|].
    apply (rtc_subrel (up (heap t2))); [|done]. intros a b. unfold up. by rewrite F3.
Qed.

(** The specification leaves no choice. *)
Section uniqueness.
Context (m : gmap SpanID Span) (tid : TraceID) (absent : Presence).
Hypothesis Hkeys : forall id s, m !! id = Some s -> SpanID_ s = id.

Definition id_of (p : ptr) : SpanID := match p with Real id | Hold id => id end.

Lemma in_tree_separated p q : in_tree m p -> in_tree m q -> id_of p = id_of q -> p = q.
Proof.
  destruct p as [i|i], q as [j|j]; simpl; intros Hp Hq ->; [done| | |done].
  - destruct Hq as [c Hc%named_hold_absent]. rewrite Hc in Hp. by destruct Hp.
  - destruct Hp as [c Hc%named_hold_absent]. rewrite Hc in Hq. by destruct Hq.
Qed.

Lemma tree_spec_id t p : tree_spec m tid absent t -> in_tree m p -> SpanID_ (nSpan (node t p)) = id_of p.
Proof.
  intros Ht Hp. destruct p as [id|id].
  - destruct Hp as [s Hs]. destruct (ts_real _ _ _ t Ht id s Hs) as [-> _]. by apply Hkeys.
  - destruct (ts_hold _ _ _ t Ht id Hp) as (_ & b & -> & _). done.
Qed.

Lemma listing_unique t (l1 l2 : list ptr) (P : ptr -> Prop) :
  tree_spec m tid absent t -> (forall p, P p -> in_tree m p) ->
  listing (heap t) l1 P -> listing (heap t) l2 P -> l1 = l2.
Proof.
  intros Ht HP (N1 & S1 & E1) (N2 & S2 & E2). apply (sorted_perm_unique (byStart (heap t))); [|done..|].
  - intros x y Hx%E1%HP Hy%E1%HP Heq. unfold byStart in Heq. apply span_order_eq in Heq as [_ Heq].
    rewrite !tree_spec_id in Heq by done. by apply in_tree_separated.
  - apply NoDup_Permutation; [done..|]. intros x. by rewrite E1, E2.
Qed.

Lemma listing_heap h h' l (P Q : ptr -> Prop) :
  (forall p, nSpan (deref h p) = nSpan (deref h' p)) -> (forall p, P p <-> Q p) ->
  listing h l P -> listing h' l Q.
Proof.
  intros Hh HPQ (N & Sd & E). split_and!; [done| |intros p; by rewrite E].
  apply (sorted_ext (byStart h)); [|done]. intros a b _ _. unfold byStart. by rewrite !Hh.
Qed.

Lemma is_envelope_unique b b' l l' :
  (forall s, s ∈ l <-> s ∈ l') -> is_envelope b l -> is_envelope b' l' -> b = b'.
Proof.
  intros Hl ((s1 & H1 & E1) & (s2 & H2 & E2) & B) ((s3 & H3 & E3) & (s4 & H4 & E4) & B').
  pose proof (B s3 (proj2 (Hl s3) H3)). pose proof (B s4 (proj2 (Hl s4) H4)).
  pose proof (B' s1 (proj1 (Hl s1) H1)). pose proof (B' s2 (proj1 (Hl s2) H2)).
  destruct b, b'. simpl in *. f_equal; lia.
Qed.

Section unique.
Context (t1 t2 : Tree) (T1 : tree_spec m tid absent t1) (T2 : tree_spec m tid absent t2).

Lemma tree_links_unique p :
  Parent (node t1 p) = Parent (node t2 p) /\ CycleBroken (node t1 p) = CycleBroken (node t2 p).
Proof.
  destruct (decide (p ∈ dom (heap t1))) as [Hp|Hp].
  - apply (ts_dom _ _ _ t1 T1) in Hp.
    destruct (ts_links _ _ _ t1 T1 p Hp) as [(? & -> & ->)|(? & -> & ->)],
      (ts_links _ _ _ t2 T2 p Hp) as [(? & -> & ->)|(? & -> & ->)]; done.
  - assert (p ∉ dom (heap t2)) by (by rewrite (ts_dom _ _ _ t2 T2), <-(ts_dom _ _ _ t1 T1)).
    by rewrite !deref_not_in.
Qed.

Lemma tree_children_same p c : c ∈ Children (node t1 p) <-> c ∈ Children (node t2 p).
Proof.
  destruct (ts_children _ _ _ t1 T1 p) as (_ & _ & ->).
  destruct (ts_children _ _ _ t2 T2 p) as (_ & _ & ->). unfold up. by rewrite (proj1 (tree_links_unique c)).
Qed.

Lemma tree_spans_unique p : nSpan (node t1 p) = nSpan (node t2 p) /\ nPresence (node t1 p) = nPresence (node t2 p).
Proof.
  destruct (decide (p ∈ dom (heap t1))) as [Hp|Hp].
  - apply (ts_dom _ _ _ t1 T1) in Hp. destruct p as [id|id].
    + destruct Hp as [s Hs]. destruct (ts_real _ _ _ t1 T1 id s Hs) as [-> ->].
      by destruct (ts_real _ _ _ t2 T2 id s Hs) as [-> ->].
    + destruct (ts_hold _ _ _ t1 T1 id Hp) as (-> & b & -> & Hb).
      destruct (ts_hold _ _ _ t2 T2 id Hp) as (-> & b' & -> & Hb'). split; [|done].
      assert (b = b') as ->; [|done]. eapply is_envelope_unique; [|exact Hb|exact Hb'].
      intros s. rewrite !list_elem_of_fmap. by setoid_rewrite tree_children_same.
  - assert (p ∉ dom (heap t2)) by (by rewrite (ts_dom _ _ _ t2 T2), <-(ts_dom _ _ _ t1 T1)).
    by rewrite !deref_not_in.
Qed.

Lemma tree_nodes_unique p : node t1 p = node t2 p.
Proof.
  assert (forall p, nSpan (node t2 p) = nSpan (node t1 p)) as Hs21 by (intros q; by rewrite (proj1 (tree_spans_unique q))).
  assert (Children (node t1 p) = Children (node t2 p)) as A5.
  { apply (listing_unique t1 _ _ (fun c => up (heap t1) c p) T1).
    - intros c Hc%up_dom. by apply (ts_dom _ _ _ t1 T1).
    - apply (ts_children _ _ _ t1 T1).
    - eapply listing_heap; [exact Hs21| |apply (ts_children _ _ _ t2 T2)].
      intros c. unfold up. by rewrite (proj1 (tree_links_unique c)). }
  destruct (tree_links_unique p) as [A1 A2], (tree_spans_unique p) as [A3 A4].
  destruct (node t1 p), (node t2 p). simpl in *. congruence.
Qed.
End unique.

Lemma tree_spec_unique t1 t2 :
  tree_spec m tid absent t1 -> tree_spec m tid absent t2 -> t1 = t2.
Proof.
  intros T1 T2.
  assert (heap t1 = heap t2) as Hheap.
  { apply map_eq. intros p. pose proof (tree_nodes_unique t1 t2 T1 T2 p) as Hnode. unfold deref in Hnode.
    assert (is_Some (heap t1 !! p) <-> is_Some (heap t2 !! p)) as Hiff.
    { by rewrite <-!elem_of_dom, (ts_dom _ _ _ t1 T1), (ts_dom _ _ _ t2 T2). }
    destruct (heap t1 !! p), (heap t2 !! p); simpl in Hnode; [congruence| | |done];
      (assert (is_Some (@None Node)) as [? ?] by (by apply Hiff); done). }
  pose proof (ts_roots _ _ _ t1 T1) as R1. pose proof (ts_roots _ _ _ t2 T2) as R2.
  pose proof (ts_missing _ _ _ t1 T1) as M1. pose proof (ts_missing _ _ _ t2 T2) as M2.
  pose proof (ts_cycles _ _ _ t1 T1) as C1. pose proof (ts_cycles _ _ _ t2 T2) as C2.
  rewrite <-Hheap in R2, M2, C2.
  assert (nodes t1 = nodes t2) as Hn.
  { apply map_eq. intros id. by rewrite (ts_nodes _ _ _ t1 T1), (ts_nodes _ _ _ t2 T2). }
  assert (Roots t1 = Roots t2) by (eapply (listing_unique t1 _ _ _ T1); [|exact R1|exact R2]; by intros p [? _]).
  assert (missing t1 = missing t2) by (eapply (listing_unique t1 _ _ _ T1); [|exact M1|exact M2]; by intros p (? & _ & ?)).
  assert (cycles t1 = cycles t2) by (eapply (listing_unique t1 _ _ _ T1); [|exact C1|exact C2]; apply cut_point_tree).
  pose proof (ts_id _ _ _ t1 T1). pose proof (ts_id _ _ _ t2 T2).
  destruct t1, t2. simpl in *. congruence.
Qed.
End uniqueness.
