(* ===== verification/BuildProps.v ===== *)
(** * The properties of trace assembly

    [Build] returns the tree of its specification and nothing else, whatever
    order the spans arrive in and Go's map iterations take; [Walk] visits it
    exactly once; [Complete] says what its comment promises. *)

From S2P Require Import Prelude GoTime Ident Value Span Assembly Forest AssemblySpec.

Definition example_node (id parent : byte) (start end_ : Z) : Span :=
  MkSpan (vreplicate 16 x01) (vreplicate 8 id) (vreplicate 8 parent) "op" SpanServer "svc" start end_
    (MkStatus StatusUnset "") [] [].

(** A root with a child, two orphans of one parent, a loop of two spans. *)
Definition example_spans : list Span :=
  [ example_node x02 x01 20 40; example_node x01 x00 10 90;
    example_node x03 x09 30 60; example_node x04 x09 25 50;
    example_node x05 x06 70 80; example_node x06 x05 65 85 ].

(** A well-formed trace. *)
Definition complete_spans : list Span :=
  [ example_node x02 x01 20 40; example_node x01 x00 10 90; example_node x03 x02 30 60 ].

Lemma received_orders spans o1 o2 o3 :
  o1 = received spans -> o2 = received spans -> o3 = received spans ->
  map_order (span_map spans) o1 /\ map_order (span_map spans) o2 /\ map_order (span_map spans) o3.
Proof. intros -> -> ->. split_and!; apply received_order. Qed.

Lemma ok_same_trace o1 o2 o3 s0 spans phase t :
  Build_iter o1 o2 o3 (s0 :: spans) phase = Ok t ->
  forall s, s ∈ spans -> TraceID_ s = TraceID_ s0.
Proof.
  intros E s Hs. unfold Build_iter in E.
  destruct (collect_spec (s0 :: spans) [] (MkTree (TraceID_ s0) [] ∅ [] [] ∅)) as [[_ E']|[Hall _]].
  - split_and!; try done; intros id; simpl; rewrite ?lookup_empty; done.
  - by rewrite E' in E.
  - apply Hall. by right.
Qed.

Lemma mixed_traces o1 o2 o3 s0 spans phase s :
  s ∈ spans -> TraceID_ s <> TraceID_ s0 ->
  Build_iter o1 o2 o3 (s0 :: spans) phase = Err ErrMixedTraces.
Proof.
  intros Hs Hne. unfold Build_iter.
  destruct (collect_spec (s0 :: spans) [] (MkTree (TraceID_ s0) [] ∅ [] [] ∅)) as [[_ ->]|[Hall _]].
  - split_and!; try done; intros id; simpl; rewrite ?lookup_empty; done.
  - done.
  - exfalso. apply Hne, Hall. by right.
Qed.

Lemma same_trace_dec (spans : list Span) (tid : TraceID) :
  (forall s, s ∈ spans -> TraceID_ s = tid) \/ exists s, s ∈ spans /\ TraceID_ s <> tid.
Proof.
  destruct (decide (Forall (fun s => TraceID_ s = tid) spans)) as [H|H].
  - left. by apply Forall_forall.
  - right. apply not_Forall_Exists in H; [|apply _]. by apply Exists_exists in H.
Qed.

(** C1: [Build] fails only on no spans and on spans of different traces, and
    otherwise returns the tree the specification describes: received spans
    under the parents they name, one placeholder per missing parent with its
    children's envelope, every cycle cut at its earliest span, and children,
    roots, placeholders and cut spans each in start order.  No input makes it
    dereference nil or loop. *)
Theorem build_spec (o1 o2 o3 : list ptr) (spans : list Span) (phase : Phase) :
  map_order (span_map spans) o1 -> map_order (span_map spans) o2 -> map_order (span_map spans) o3 ->
  match spans with
  | [] => Build_iter o1 o2 o3 spans phase = Err ErrNoSpans
  | s0 :: _ =>
      (exists s, s ∈ spans /\ TraceID_ s <> TraceID_ s0) /\
        Build_iter o1 o2 o3 spans phase = Err ErrMixedTraces \/
      (forall s, s ∈ spans -> TraceID_ s = TraceID_ s0) /\
        exists t, Build_iter o1 o2 o3 spans phase = Ok t /\
                  tree_spec (span_map spans) (TraceID_ s0) (absent_of phase) t
  end.
Proof.
  intros H1 H2 H3. destruct spans as [|s0 spans]; [done|].
  destruct (same_trace_dec spans (TraceID_ s0)) as [Hall|(s & Hs & Hne)]; [right|left].
  - split; [by intros s [->|Hs]%elem_of_cons; [|apply Hall]|].
    destruct (build_refines o1 o2 o3 s0 spans phase H1 H2 H3 Hall) as (t & -> & Ht & _). by exists t.
  - split; [exists s; split; [by right|done]|]. by eapply mixed_traces.
Qed.

Example build_spec_witness :
  exists t, Build example_spans Sealed = Ok t /\
            tree_spec (span_map example_spans) (vreplicate 16 x01) Lost t.
Proof.
  destruct (received_orders example_spans _ _ _ eq_refl eq_refl eq_refl) as (H1 & H2 & H3).
  destruct (build_spec _ _ _ example_spans Sealed H1 H2 H3) as [[(s & Hs & Hne) _]|[_ H]]; [|exact H].
  assert (Forall (fun s => TraceID_ s = vreplicate 16 x01) example_spans) as F
    by vm_decide.
  rewrite Forall_forall in F. exfalso. by apply Hne, F.
Defined.

(** C2: the result of [Build] does not depend on the order its spans arrive
    in, as long as the same copy of every duplicate comes last, nor on the
    order of Go's map iterations. *)
Theorem build_deterministic (o1 o2 o3 o1' o2' o3' : list ptr) (spans spans' : list Span) (phase : Phase) :
  map_order (span_map spans) o1 -> map_order (span_map spans) o2 -> map_order (span_map spans) o3 ->
  map_order (span_map spans') o1' -> map_order (span_map spans') o2' -> map_order (span_map spans') o3' ->
  spans ≡ₚ spans' -> span_map spans = span_map spans' ->
  Build_iter o1 o2 o3 spans phase = Build_iter o1' o2' o3' spans' phase.
Proof.
  intros H1 H2 H3 H1' H2' H3' Hp Hm. destruct spans as [|s0 l].
  { apply Permutation_nil_l in Hp as <-. done. }
  destruct spans' as [|s0' l']; [by apply Permutation_nil_r in Hp|].
  assert (forall s, s ∈ s0 :: l <-> s ∈ s0' :: l') as Hin by (intros s; by rewrite Hp).
  destruct (same_trace_dec l (TraceID_ s0)) as [Hall|(s & Hs & Hne)].
  - assert (TraceID_ s0' = TraceID_ s0) as Ht.
    { assert (s0' ∈ s0 :: l) as Hx by (apply Hin; by left).
      apply elem_of_cons in Hx as [->|?]; auto. }
    assert (forall s, s ∈ l' -> TraceID_ s = TraceID_ s0') as Hall'.
    { intros s Hs. rewrite Ht.
      assert (s ∈ s0 :: l) as Hx by (apply Hin; by right).
      apply elem_of_cons in Hx as [->|?]; auto. }
    destruct (build_refines o1 o2 o3 s0 l phase H1 H2 H3 Hall) as (t & -> & T & _).
    destruct (build_refines o1' o2' o3' s0' l' phase H1' H2' H3' Hall') as (t' & -> & T' & _).
    f_equal. rewrite Ht, <-Hm in T'. eapply tree_spec_unique; [|exact T|exact T'].
    intros id x Hx. by apply span_map_keys in Hx as [? _].
  - rewrite (mixed_traces o1 o2 o3 s0 l phase s Hs Hne).
    destruct (same_trace_dec l' (TraceID_ s0')) as [Hall'|(s' & Hs' & Hne')];
      [|by rewrite (mixed_traces _ _ _ _ _ _ _ Hs' Hne')].
    exfalso. apply Hne. assert (forall x, x ∈ s0 :: l -> TraceID_ x = TraceID_ s0') as Hx.
    { intros x [->|Hx]%Hin%elem_of_cons; [done|by apply Hall']. }
    rewrite (Hx s), (Hx s0); [done|by left|by right].
Qed.

Example build_deterministic_witness :
  Build (reverse example_spans) Open_ = Build example_spans Open_.
Proof.
  destruct (received_orders example_spans _ _ _ eq_refl eq_refl eq_refl) as (H1 & H2 & H3).
  destruct (received_orders (reverse example_spans) _ _ _ eq_refl eq_refl eq_refl) as (H1' & H2' & H3').
  apply (build_deterministic _ _ _ _ _ _ (reverse example_spans) example_spans Open_); try done.
  apply reverse_Permutation.
Defined.

(** C36: [Walk] visits every node of the tree exactly once, parents before
    children and siblings in start order, and stops where its callback says;
    it always ends. *)
Theorem walk_visits_once (o1 o2 o3 : list ptr) (spans : list Span) (phase : Phase) (t : Tree) :
  map_order (span_map spans) o1 -> map_order (span_map spans) o2 -> map_order (span_map spans) o3 ->
  Build_iter o1 o2 o3 spans phase = Ok t ->
  exists l, preorder (heap t) (Roots t) 0 l /\ NoDup (l.*1) /\
            (forall p, p ∈ l.*1 <-> in_tree (span_map spans) p) /\
            forall S (fn : ptr -> Z -> S -> S * bool) s, Walk t fn s = Some (visit fn l s).1.
Proof.
  intros H1 H2 H3 E. destruct spans as [|s0 spans]; [done|].
  destruct (build_refines o1 o2 o3 s0 spans phase H1 H2 H3) as (t' & E' & T & Hl & Hrooted);
    [by eapply ok_same_trace|].
  rewrite E in E'. injection E' as <-.
  assert (roots_of (heap t) (Roots t)) as Hroots.
  { destruct (ts_roots _ _ _ t T) as (N & _ & R). split; [done|].
    intros p. by rewrite R, (ts_dom _ _ _ t T). }
  assert (forall r, r ∈ Roots t -> r ∈ dom (heap t) /\ rooted (heap t) r) as Hr.
  { intros r Hr%Hroots. split; [apply Hr|]. exists r. split_and!; [apply Hr..|apply rtc_refl]. }
  destruct (walk_roots_spec (heap t) (fun _ _ (s : unit) => (s, true)) (Roots t) Hl Hr) as (l & Hpre & _).
  exists l. split_and!; [done| | |].
  - eapply preorder_NoDup; [done..|]. by apply apart_roots.
  - intros p. rewrite (preorder_below (heap t) _ _ _ _ Hl Hpre), <-(ts_dom _ _ _ t T). split.
    + intros (r & Hr' & Hb). inversion Hb; subst; [by apply Hr|by eapply up_dom].
    + intros Hp. apply (ts_dom _ _ _ t T), Hrooted in Hp as (r & Hd & Hn & Hb).
      exists r. split; [by apply Hroots|done].
  - intros S fn s. destruct (walk_roots_spec (heap t) fn (Roots t) Hl Hr) as (l' & Hpre' & Hw).
    rewrite (preorder_fun (heap t) _ _ _ _ Hpre Hpre'). apply Hw.
Qed.

Example walk_visits_once_witness :
  let o := received example_spans in
  exists t l, Build_iter o o o example_spans Open_ = Ok t /\
              preorder (heap t) (Roots t) 0 l /\ NoDup (l.*1).
Proof.
  intros o. pose proof (received_order example_spans : map_order _ o) as Ho.
  assert (is_ok (Build_iter o o o example_spans Open_) = true) as Hok by (vm_compute; reflexivity).
  apply is_ok_inv in Hok as [t E]. exists t.
  destruct (walk_visits_once o o o example_spans Open_ t Ho Ho Ho E) as (l & Hl & Hn & _).
  exists l. split_and!; [exact E|exact Hl|exact Hn].
Defined.

(** The two directions, for a tree that meets the specification. *)
Section complete.
Context (m : gmap SpanID Span) (tid : TraceID) (absent : Presence) (t : Tree).
Context (T : tree_spec m tid absent t) (Hrooted : forall x, in_tree m x -> rooted (heap t) x).

Definition reaches_root : Prop :=
  exists id s, m !! id = Some s /\ IsRoot s = true /\ forall p, in_tree m p -> rtc (named m) p (Real id).

Lemma uncut_parent : cycles t = [] -> forall c, in_tree m c -> Parent (node t c) = names m c.
Proof.
  intros Hc c Hct. destruct (ts_cycles _ _ _ t T) as (_ & _ & Cy).
  destruct (ts_links _ _ _ t T c Hct) as [(Hcut & _)|(_ & ? & _)]; [|done].
  apply Cy in Hcut. rewrite Hc in Hcut. by apply elem_of_nil in Hcut.
Qed.

Lemma complete_reaches r : missing t = [] -> cycles t = [] -> Roots t = [r] -> reaches_root.
Proof.
  intros Hm Hc Er. destruct (ts_roots _ _ _ t T) as (_ & _ & R). destruct (ts_missing _ _ _ t T) as (_ & _ & M).
  assert (r ∈ Roots t) as [Hin Hpar]%R by (rewrite Er; by left). destruct r as [id|id].
  2:{ exfalso. assert (Hold id ∈ missing t) as Hx by (apply M; by exists id).
      rewrite Hm in Hx. by apply elem_of_nil in Hx. }
  pose proof Hin as [s Hs]. exists id, s. split_and!; [done| |].
  - rewrite uncut_parent in Hpar by done. unfold names in Hpar. rewrite Hs in Hpar. by destruct (IsRoot s).
  - intros p (r & Hd & Hn & Hb)%Hrooted.
    assert (r = Real id) as ->.
    { apply list_elem_of_singleton. rewrite <-Er. apply R. by rewrite <-(ts_dom _ _ _ t T). }
    apply (rtc_subrel (up (heap t))); [|done]. intros x y Hxy. unfold named.
    rewrite <-uncut_parent; [done|done|]. apply (ts_dom _ _ _ t T). by eapply up_dom.
Qed.

Lemma reaches_complete : reaches_root -> missing t = [] /\ cycles t = [] /\ exists r, Roots t = [r].
Proof.
  intros (id & s & Hs & Hroot & Hall). destruct (ts_roots _ _ _ t T) as (Rn & _ & R).
  destruct (ts_missing _ _ _ t T) as (_ & _ & M). destruct (ts_cycles _ _ _ t T) as (_ & _ & Cy).
  assert (names m (Real id) = None) as Hnone by (unfold names; by rewrite Hs, Hroot).
  assert (forall c, ~ cut_point m c) as Hcut.
  { intros c Hc. pose proof (cut_point_tree m c Hc) as Hct. revert Hc. intros [Hc _]. revert Hc.
    apply (functional_acyclic (named m) c (Real id)); [apply named_fun| |by apply Hall].
    intros b Hb. unfold named in Hb. congruence. }
  split_and!.
  - destruct (missing t) as [|p l]; [done|]. assert (p ∈ p :: l) as (i & -> & Hi)%M by (by left).
    apply Hall in Hi. inversion Hi as [|? y ? Hy]; subst. by apply names_some in Hy as (? & ? & ? & _).
  - destruct (cycles t) as [|p l]; [done|]. exfalso. apply (Hcut p), Cy. by left.
  - exists (Real id). apply Permutation_singleton_r, NoDup_Permutation; [done|apply NoDup_singleton|].
    intros r. rewrite R, list_elem_of_singleton. split.
    + intros [Hin Hpar]. destruct (ts_links _ _ _ t T r Hin) as [(Hx & _)|(_ & Hp & _)]; [by apply Hcut in Hx|].
      specialize (Hall r Hin). inversion Hall as [|? y ? Hy]; subst; [done|].
      unfold named in Hy. congruence.
    + intros ->. split; [by exists s|].
      destruct (ts_links _ _ _ t T (Real id)) as [(Hx & _)|(_ & -> & _)]; [by exists s|by apply Hcut in Hx|done].
Qed.
End complete.

(** C38: a tree is complete exactly when one received span has no parent and
    every span leads to it by following the parents that are named: nothing
    is missing, nothing loops and there is one root. *)
Theorem complete_spec (o1 o2 o3 : list ptr) (spans : list Span) (phase : Phase) (t : Tree) :
  map_order (span_map spans) o1 -> map_order (span_map spans) o2 -> map_order (span_map spans) o3 ->
  Build_iter o1 o2 o3 spans phase = Ok t ->
  Complete_ t = true <->
  exists id s, span_map spans !! id = Some s /\ IsRoot s = true /\
               forall p, in_tree (span_map spans) p -> rtc (named (span_map spans)) p (Real id).
Proof.
  intros H1 H2 H3 E. destruct spans as [|s0 spans]; [done|].
  destruct (build_refines o1 o2 o3 s0 spans phase H1 H2 H3) as (t' & E' & T & Hl & Hrooted);
    [by eapply ok_same_trace|].
  rewrite E in E'. injection E' as <-. set (m := span_map (s0 :: spans)) in *.
  unfold Complete_. rewrite !andb_true_iff, !bool_decide_eq_true, !length_zero_iff_nil. split.
  - intros [[Hm Hc] Hr]. destruct (Roots t) as [|r [|]] eqn:Er; simpl in Hr; [lia| |lia].
    by apply (complete_reaches m _ _ t T Hrooted r).
  - intros (Hm & Hc & r & Er)%(reaches_complete m _ _ t T). by rewrite Er.
Qed.

Example complete_spec_witness :
  exists t, Build complete_spans Open_ = Ok t /\ Complete_ t = true /\
  exists id s, span_map complete_spans !! id = Some s /\ IsRoot s = true /\
               forall p, in_tree (span_map complete_spans) p -> rtc (named (span_map complete_spans)) p (Real id).
Proof.
  destruct (received_orders complete_spans _ _ _ eq_refl eq_refl eq_refl) as (H1 & H2 & H3).
  assert (match Build complete_spans Open_ with Ok t => Complete_ t | Err _ => false end = true) as Hok
    by (vm_compute; reflexivity).
  destruct (Build complete_spans Open_) as [t|e] eqn:E; [|done].
  unfold Build in E. exists t. split_and!; [reflexivity|exact Hok|].
  apply (complete_spec _ _ _ complete_spans Open_ t H1 H2 H3 E). exact Hok.
Defined.
