(* ===== verification/Timing.v ===== *)
(** * Where the time went: [internal/assembly/timing.go]

    [SelfTime] is the time of a span no child was running for;
    [CriticalPath] cuts a span's time into the stretches that decided how long
    it took.  Both are proved against what their comments promise: the measure
    of the uncovered instants, and a gap-free cover of the span. *)

From S2P Require Import Prelude GoTime Ident Value Span Assembly Forest AssemblySpec BuildProps.

(** ** Operations *)

Definition later (a b : Time) : Time := if Time.After a b then a else b.
Definition earlier (a b : Time) : Time := if Time.Before a b then a else b.

(** The body of [SelfTime]'s loop; [busy += ...] is 64-bit arithmetic. *)
Definition busy_step (h : gmap ptr Node) (end_ : Time) (st : Duration * Time) (c : ptr)
    : Duration * Time :=
  let '(busy, cursor) := st in
  let s := nSpan (deref h c) in
  let from := later (Start s) cursor in
  let to := earlier (End_ s) end_ in
  if Time.After to from then (int64 (busy + Time.Sub to from), to) else (busy, cursor).

(** [func (n *Node) SelfTime() time.Duration]. *)
Definition SelfTime (h : gmap ptr Node) (n : ptr) : Duration :=
  if Node_Missing (deref h n) then 0
  else
    let start := Start (nSpan (deref h n)) in
    let end_ := End_ (nSpan (deref h n)) in
    let '(busy, _) := foldl (busy_step h end_) (0, start) (Children (deref h n)) in
    int64 (Time.Sub end_ start - busy).

(** [type Segment struct]. *)
Record Segment : Type := MkSegment { sNode : ptr; sgStart : Time; sgEnd : Time }.

Definition Segment_Duration (s : Segment) : Duration := Time.Sub (sgEnd s) (sgStart s).

(** [func appendSegment]: the path is in the order it is appended to. *)
Definition appendSegment (path : list Segment) (n : ptr) (start end_ : Time) : list Segment :=
  if negb (Time.After end_ start) then path
  else
    match last path with
    | Some l =>
        if bool_decide (sNode l = n) && Time.Equal (sgStart l) end_
        then take (length path - 1) path ++ [MkSegment (sNode l) start (sgEnd l)]
        else path ++ [MkSegment n start end_]
    | None => path ++ [MkSegment n start end_]
    end.

(** The order in which [criticalPath] looks at the children: last to finish
    first, ties to the one that started later. *)
Definition by_finish (h : gmap ptr Node) (a b : ptr) : comparison :=
  cmp_then (Time.Compare (End_ (nSpan (deref h b))) (End_ (nSpan (deref h a)))) (byStart h b a).

(** [func criticalPath]; [None] is out of fuel. *)
Fixpoint criticalPath (fuel : nat) (h : gmap ptr Node) (n : ptr) (floor ceiling : Time)
    (path : list Segment) : option (list Segment) :=
  match fuel with
  | O => None
  | S fuel =>
      let floor := later floor (Start (nSpan (deref h n))) in
      let cursor := earlier ceiling (End_ (nSpan (deref h n))) in
      (fix each (cs : list ptr) (cursor : Time) (path : list Segment) : option (list Segment) :=
         match cs with
         | [] => Some (appendSegment path n floor cursor)
         | c :: cs' =>
             let end_ := earlier (End_ (nSpan (deref h c))) cursor in
             if negb (Time.After end_ floor) then Some (appendSegment path n floor cursor)
             else if negb (Time.Before (Start (nSpan (deref h c))) cursor) then each cs' cursor path
             else
               path ← criticalPath fuel h c floor end_ (appendSegment path n end_ cursor);
               each cs' (later (Start (nSpan (deref h c))) floor) path
         end) (sort_func (by_finish h) (Children (deref h n))) cursor path
  end.

(** [func (n *Node) CriticalPath() []Segment]: the recursion is as deep as the
    tree, which has no more levels than nodes. *)
Definition CriticalPath (h : gmap ptr Node) (n : ptr) : option (list Segment) :=
  path ← criticalPath (size h) h n (Start (nSpan (deref h n))) (End_ (nSpan (deref h n))) [];
  Some (reverse path).

(** ** Counting instants *)

Definition count (P : Z -> bool) (l : list Z) : Z := Z.of_nat (length (filter (fun t => P t = true) l)).

Lemma count_cons P x l : count P (x :: l) = (if P x then 1 else 0) + count P l.
Proof. unfold count. rewrite filter_cons. destruct (P x); case_decide; simpl length; try done; lia. Qed.

Lemma count_split P Q l : count (fun t => P t || Q t) l = count P l + count (fun t => Q t && negb (P t)) l.
Proof.
  induction l as [|x l IH]; [done|]. rewrite !count_cons, IH. destruct (P x), (Q x); simpl; lia.
Qed.

Lemma count_negb P l : count (fun t => negb (P t)) l = Z.of_nat (length l) - count P l.
Proof.
  induction l as [|x l IH]; [done|]. rewrite !count_cons, IH. cbn [length].
  destruct (P x); simpl negb; lia.
Qed.

Lemma count_ext P Q l : (forall t, t ∈ l -> P t = Q t) -> count P l = count Q l.
Proof.
  induction l as [|x l IH]; intros H; [done|].
  rewrite !count_cons, (H x), IH; [done| |by left]. intros; apply H; by right.
Qed.

Lemma count_bounds P l : 0 <= count P l <= Z.of_nat (length l).
Proof. induction l as [|x l IH]; [done|]. rewrite count_cons. cbn [length]. destruct (P x); lia. Qed.

Lemma count_interval s n a b :
  s <= a -> a <= b -> b <= s + n ->
  count (fun t => (a <=? t) && (t <? b)) (seqZ s n) = b - a.
Proof.
  intros. unfold count.
  assert (filter (fun t => (a <=? t) && (t <? b) = true) (seqZ s n) ≡ₚ seqZ a (b - a)) as ->.
  { apply NoDup_Permutation.
    - apply NoDup_filter, NoDup_seqZ.
    - apply NoDup_seqZ.
    - intros t. rewrite list_elem_of_filter, !elem_of_seqZ, andb_true_iff, Z.leb_le, Z.ltb_lt. lia. }
  rewrite length_seqZ. lia.
Qed.

Lemma later_max a b : later a b = Z.max a b.
Proof. unfold later. destruct (After_spec a b); lia. Qed.

Lemma earlier_min a b : earlier a b = Z.min a b.
Proof. unfold earlier. destruct (Before_spec a b); lia. Qed.

(** ** SelfTime *)

(** Some node of [cs] runs at the instant [t]. *)
Definition running (h : gmap ptr Node) (cs : list ptr) (t : Z) : bool :=
  existsb (fun c => (Start (nSpan (deref h c)) <=? t) && (t <? End_ (nSpan (deref h c)))) cs.

(** The instants of [n]'s span at which no child runs. *)
Definition idle_instants (h : gmap ptr Node) (n : ptr) : Z :=
  let s := nSpan (deref h n) in
  count (fun t => negb (running h (Children (deref h n)) t)) (seqZ (Start s) (End_ s - Start s)).

Lemma running_snoc h cs c t :
  running h (cs ++ [c]) t =
  running h cs t || (Start (nSpan (deref h c)) <=? t) && (t <? End_ (nSpan (deref h c))).
Proof. unfold running. rewrite existsb_app. simpl. by rewrite orb_false_r. Qed.

(** Merging the intervals in start order counts every covered instant once. *)
Lemma busy_fold h s e cs : forall done_ cursor,
  s <= e -> in_int64 (e - s) ->
  StronglySorted (fun a b => Start (nSpan (deref h a)) <= Start (nSpan (deref h b))) cs ->
  s <= cursor <= e ->
  (forall t, s <= t < e -> running h done_ t = true -> t < cursor) ->
  (forall t c, s <= t < cursor -> c ∈ cs -> Start (nSpan (deref h c)) <= t -> running h done_ t = true) ->
  (foldl (busy_step h e) (count (running h done_) (seqZ s (e - s)), cursor) cs).1 =
  count (running h (done_ ++ cs)) (seqZ s (e - s)).
Proof.
  induction cs as [|c cs IH]; intros done_ cursor Hse Hint Hs Hcur Hlt Hcov; cbn [foldl].
  { by rewrite app_nil_r. }
  apply StronglySorted_inv in Hs as [Hs Hc]. rewrite Forall_forall in Hc.
  rewrite (cons_middle c done_ cs), app_assoc. unfold busy_step at 2. rewrite later_max, earlier_min.
  set (a := Start (nSpan (deref h c))) in *. set (b := End_ (nSpan (deref h c))) in *.
  assert (count (running h (done_ ++ [c])) (seqZ s (e - s)) =
          count (running h done_) (seqZ s (e - s)) +
          count (fun t => (Z.max a cursor <=? t) && (t <? Z.min b e)) (seqZ s (e - s))) as Hcount.
  { rewrite (count_ext _ (fun t => running h done_ t || (a <=? t) && (t <? b))) by (intros; apply running_snoc).
    rewrite count_split. f_equal. apply count_ext. intros t [H1 H2]%elem_of_seqZ.
    destruct (running h done_ t) eqn:Er; simpl; rewrite ?andb_false_r, ?andb_true_r.
    - assert (t < cursor) by (apply Hlt; [lia|done]). destruct (Z.leb_spec (Z.max a cursor) t); [lia|done].
    - destruct (Z.leb_spec a t), (Z.ltb_spec t b), (Z.leb_spec (Z.max a cursor) t), (Z.ltb_spec t (Z.min b e));
        simpl; try done; try lia.
      exfalso. rewrite (Hcov t c) in Er; [done|lia|by left|done]. }
  destruct (After_spec (Z.min b e) (Z.max a cursor)) as [Hlong|Hshort].
  - rewrite count_interval in Hcount by lia. rewrite sub_exact by (unfold_int; lia).
    pose proof (count_bounds (running h (done_ ++ [c])) (seqZ s (e - s))) as Hb. rewrite length_seqZ in Hb.
    pose proof (count_bounds (running h done_) (seqZ s (e - s))).
    rewrite int64_id by (unfold_int; lia). rewrite <-Hcount.
    apply IH; [done..|lia| |].
    + intros t Ht Hr. rewrite running_snoc in Hr. apply orb_true_iff in Hr as [Hr|Hr].
      * specialize (Hlt t Ht Hr). lia.
      * apply andb_true_iff in Hr as [_ Hb'%Z.ltb_lt]. fold b in Hb'. lia.
    + intros t c' Ht Hc' Hle. rewrite running_snoc. apply orb_true_iff.
      destruct (decide (t < cursor)); [left; apply (Hcov t c'); [lia|by right|done]|right].
      specialize (Hc c' Hc'). fold a b. apply andb_true_iff. rewrite Z.leb_le, Z.ltb_lt. fold a in Hc. lia.
  - assert (count (fun t => (Z.max a cursor <=? t) && (t <? Z.min b e)) (seqZ s (e - s)) = 0) as Hz.
    { rewrite (count_ext _ (fun _ => false)).
      - generalize (seqZ s (e - s)). induction l as [|x l IHl]; [done|]. by rewrite count_cons, IHl.
      - intros t _. destruct (Z.leb_spec (Z.max a cursor) t), (Z.ltb_spec t (Z.min b e)); try done. lia. }
    rewrite Hz, Z.add_0_r in Hcount. rewrite <-Hcount.
    apply IH; [done..| |].
    + intros t Ht Hr. rewrite running_snoc in Hr. apply orb_true_iff in Hr as [Hr|Hr]; [by apply Hlt|].
      apply andb_true_iff in Hr as [Ha'%Z.leb_le Hb'%Z.ltb_lt]. fold a in Ha'. fold b in Hb'. lia.
    + intros t c' Ht Hc' Hle. rewrite running_snoc. apply orb_true_iff. left.
      apply (Hcov t c'); [done|by right|done].
Qed.

(** ** CriticalPath *)

(** [segs] covers [lo, hi] in order, without gaps, overlaps or empty
    segments. *)
Fixpoint covers (lo hi : Time) (segs : list Segment) : Prop :=
  match segs with
  | [] => lo = hi
  | g :: segs' => sgStart g = lo /\ lo < sgEnd g /\ covers (sgEnd g) hi segs'
  end.

(** No two consecutive segments are of one node: they were merged. *)
Fixpoint merged (segs : list Segment) : Prop :=
  match segs with
  | [] => True
  | g :: segs' => match segs' with [] => True | g' :: _ => sNode g <> sNode g' end /\ merged segs'
  end.

(** The segment lies in its node's span, and its node below [root]. *)
Definition inside (h : gmap ptr Node) (root : ptr) (g : Segment) : Prop :=
  below h (sNode g) root /\
  Start (nSpan (deref h (sNode g))) <= sgStart g /\ sgEnd g <= End_ (nSpan (deref h (sNode g))).

Record good_path (h : gmap ptr Node) (root : ptr) (lo hi : Time) (segs : list Segment) : Prop := {
  gp_covers : covers lo hi segs;
  gp_merged : merged segs;
  gp_inside : Forall (inside h root) segs;
}.

Lemma covers_le segs : forall lo hi, covers lo hi segs -> lo <= hi.
Proof.
  induction segs as [|g segs IH]; simpl; intros lo hi; [lia|]. intros (_ & ? & H%IH). lia.
Qed.

(** The durations of the segments add up to the whole. *)
Lemma covers_sum segs : forall lo hi,
  covers lo hi segs -> foldr (fun g acc => (sgEnd g - sgStart g) + acc) 0 segs = hi - lo.
Proof.
  induction segs as [|g segs IH]; simpl; intros lo hi; [lia|]. intros (<- & _ & H%IH). lia.
Qed.

(** [appendSegment] seen from the end of the path. *)
Definition push (segs : list Segment) (n : ptr) (start end_ : Time) : list Segment :=
  if negb (Time.After end_ start) then segs
  else
    match segs with
    | g :: segs' =>
        if bool_decide (sNode g = n) && Time.Equal (sgStart g) end_
        then MkSegment (sNode g) start (sgEnd g) :: segs'
        else MkSegment n start end_ :: segs
    | [] => [MkSegment n start end_]
    end.

Lemma reverse_appendSegment path n start end_ :
  reverse (appendSegment path n start end_) = push (reverse path) n start end_.
Proof.
  unfold appendSegment, push. destruct (negb (Time.After end_ start)); [done|].
  destruct path as [|g path _] using rev_ind; [done|].
  rewrite last_snoc, reverse_snoc. destruct (_ && _); rewrite reverse_snoc.
  - by rewrite length_app, Nat.add_sub, take_app_length.
  - by rewrite reverse_snoc.
Qed.

Lemma push_good h root n lo mid hi segs :
  good_path h root mid hi segs -> lo <= mid -> below h n root ->
  Start (nSpan (deref h n)) <= lo -> mid <= End_ (nSpan (deref h n)) ->
  good_path h root lo hi (push segs n lo mid).
Proof.
  intros [Hc Hm Hi] Hle Hb H1 H2. unfold push.
  destruct (After_spec mid lo) as [Hlt|Hge]; cbn [negb].
  2:{ assert (lo = mid) as -> by lia. done. }
  destruct segs as [|g segs]; simpl in Hc.
  { split; simpl; [by split_and!|done|]. apply Forall_singleton. by unfold inside. }
  destruct Hc as (Hst & Hpos & Hc). apply Forall_cons in Hi as [Hg Hi].
  unfold Time.Equal. rewrite Hst, Z.eqb_refl, andb_true_r.
  destruct Hg as (Hg1 & Hg2 & Hg3). case_bool_decide as Hn.
  - subst n. split; simpl.
    + split_and!; [done|lia|done].
    + done.
    + apply Forall_cons. split; [|done]. unfold inside; simpl. split_and!; [done|lia|lia].
  - split; simpl.
    + by split_and!.
    + split; [congruence|done].
    + apply Forall_cons. split; [by unfold inside|]. apply Forall_cons. by split.
Qed.

Section critical.
Context (h : gmap ptr Node) (root : ptr).
Hypothesis Hl : links h.
Hypothesis Hvalid : forall p, p ∈ dom h -> Start (nSpan (deref h p)) <= End_ (nSpan (deref h p)).

Lemma criticalPath_spec : forall fuel n anc floor ceiling path hi,
  rooted h n -> n ∈ dom h -> below h n root ->
  beneath h [n] anc -> (size h <= fuel + length anc)%nat ->
  let lo := later floor (Start (nSpan (deref h n))) in
  let cursor := earlier ceiling (End_ (nSpan (deref h n))) in
  lo <= cursor -> good_path h root cursor hi (reverse path) ->
  exists path', criticalPath fuel h n floor ceiling path = Some path' /\
                good_path h root lo hi (reverse path').
Proof.
  intros fuel. induction fuel as [|fuel IH];
    intros n anc floor ceiling path hi Hr Hd Hbel (Hnd & Had & Hup) Hf lo cursor Hlc Hgood.
  { exfalso. assert (length (n :: anc) <= size h)%nat; [|simpl in *; lia].
    apply length_le_size.
    - constructor; [|done]. intros Hin. apply (rooted_acyclic h n Hr). apply Hup; [by left|done].
    - set_solver. }
  cbn [criticalPath]. fold lo cursor.
  assert (forall c, c ∈ sort_func (by_finish h) (Children (deref h n)) -> up h c n) as Hcs.
  { intros c. rewrite elem_of_sort_func. apply (links_up h Hl). }
  assert (Start (nSpan (deref h n)) <= lo) as Hlo by (unfold lo; rewrite later_max; lia).
  assert (cursor <= End_ (nSpan (deref h n))) as Hcur by (unfold cursor; rewrite earlier_min; lia).
  clearbody lo cursor. revert cursor path Hlc Hgood Hcur Hcs.
  induction (sort_func (by_finish h) (Children (deref h n))) as [|c cs IHcs];
    intros cursor path Hlc Hgood Hcur Hcs.
  { eexists. split; [done|]. rewrite reverse_appendSegment. by eapply push_good. }
  rewrite earlier_min. set (stop := Z.min (End_ (nSpan (deref h c))) cursor).
  destruct (After_spec stop lo) as [Hstop|Hstop]; cbn [negb].
  2:{ eexists. split; [done|]. rewrite reverse_appendSegment. by eapply push_good. }
  assert (up h c n) as Hc by (apply Hcs; by left).
  destruct (Before_spec (Start (nSpan (deref h c))) cursor) as [Hbefore|Hbefore]; cbn [negb].
  2:{ apply IHcs; [done..|]. intros; apply Hcs; by right. }
  pose proof (Hvalid c (up_dom h c n Hc)) as Hvc.
  destruct (IH c (n :: anc) lo stop (appendSegment path n stop cursor) hi) as (path' & -> & Hgood').
  - eapply rooted_below; [done|]. by apply rtc_once.
  - by eapply up_dom.
  - by eapply rtc_l.
  - split_and!.
    + constructor; [|done]. intros Hin. apply (rooted_acyclic h n Hr). apply Hup; [by left|done].
    + set_solver.
    + intros x a ->%list_elem_of_singleton [->|Ha]%elem_of_cons; [by apply tc_once|].
      eapply tc_l; [done|]. apply Hup; [by left|done].
  - simpl. lia.
  - rewrite later_max, earlier_min. lia.
  - rewrite reverse_appendSegment, earlier_min.
    assert (Z.min stop (End_ (nSpan (deref h c))) = stop) as -> by lia.
    eapply push_good; [done|lia|done|lia|done].
  - cbn [mbind option_bind]. rewrite later_max in *.
    assert (Z.max (Start (nSpan (deref h c))) lo = Z.max lo (Start (nSpan (deref h c)))) as -> by lia.
    apply IHcs; [lia|done| |intros; apply Hcs; by right]. lia.
Qed.

Lemma CriticalPath_good n :
  rooted h n -> n ∈ dom h -> n = root ->
  exists path, CriticalPath h n = Some path /\
    good_path h root (Start (nSpan (deref h n))) (End_ (nSpan (deref h n))) path.
Proof.
  intros Hr Hd ->. unfold CriticalPath. pose proof (Hvalid root Hd).
  destruct (criticalPath_spec (size h) root [] (Start (nSpan (deref h root))) (End_ (nSpan (deref h root))) []
              (End_ (nSpan (deref h root)))) as (path & -> & Hg).
  - done.
  - done.
  - apply rtc_refl.
  - split_and!; [constructor|set_solver|set_solver].
  - simpl. lia.
  - rewrite later_max, earlier_min. lia.
  - rewrite earlier_min. split; simpl; [lia|done|constructor].
  - exists (reverse path). split; [done|]. by rewrite later_max, Z.max_id in Hg.
Qed.
End critical.

(** ** The properties *)

Definition ordered (s : Span) : Prop := Start s <= End_ s.

#[export] Instance ordered_dec s : Decision (ordered s).
Proof. unfold ordered. apply _. Defined.

Lemma node_ordered m tid absent t p :
  tree_spec m tid absent t -> (forall id s, m !! id = Some s -> ordered s) ->
  p ∈ dom (heap t) -> ordered (nSpan (node t p)).
Proof.
  intros T Hm Hp. apply (ts_dom _ _ _ t T) in Hp. destruct p as [id|id].
  - destruct Hp as [s Hs]. destruct (ts_real _ _ _ t T id s Hs) as [-> _]. by eapply Hm.
  - destruct (ts_hold _ _ _ t T id Hp) as (_ & b & -> & (s & Hs & E) & _ & Hall).
    unfold ordered; simpl. pose proof (Hall s Hs) as [_ H2].
    apply list_elem_of_fmap in Hs as (c & -> & Hc).
    apply (ts_children _ _ _ t T) in Hc.
    assert (in_tree m c) as Hct by (apply (ts_dom _ _ _ t T); by apply up_dom in Hc).
    destruct (ts_links _ _ _ t T c Hct) as [(_ & Hpar & _)|(_ & Hpar & _)]; unfold up in Hc; rewrite Hpar in Hc; [done|].
    apply names_some in Hc as (i & x & -> & Hx & _). simpl in *. rewrite Hx in *. simpl in *.
    pose proof (Hm i x Hx) as Hox. unfold ordered in Hox. lia.
Qed.

Lemma spans_ordered spans : Forall ordered spans ->
  forall id s, span_map spans !! id = Some s -> ordered s.
Proof. rewrite Forall_forall. intros Ho id s Hs. apply Ho. by apply span_map_keys in Hs as [_ ?]. Qed.

Section properties.
Context (o1 o2 o3 : list ptr) (spans : list Span) (phase : Phase) (t : Tree).
Hypothesis H1 : map_order (span_map spans) o1.
Hypothesis H2 : map_order (span_map spans) o2.
Hypothesis H3 : map_order (span_map spans) o3.
Hypothesis Hbuild : Build_iter o1 o2 o3 spans phase = Ok t.
Hypothesis Hordered : Forall ordered spans.

Lemma build_facts :
  exists tid, tree_spec (span_map spans) tid (absent_of phase) t /\ links (heap t) /\
    (forall p, p ∈ dom (heap t) -> rooted (heap t) p /\ ordered (nSpan (node t p))).
Proof.
  destruct spans as [|s0 l]; [done|].
  destruct (build_refines o1 o2 o3 s0 l phase H1 H2 H3) as (t' & E' & T & Hl & Hr);
    [by eapply ok_same_trace|].
  rewrite Hbuild in E'. injection E' as <-. exists (TraceID_ s0). split_and!; [done..|].
  intros p Hp. split; [by apply Hr, (ts_dom _ _ _ t T)|].
  eapply node_ordered; [done| |done]. by apply spans_ordered.
Qed.

Lemma children_by_start p :
  StronglySorted (fun a b => Start (nSpan (node t a)) <= Start (nSpan (node t b))) (Children (node t p)).
Proof.
  destruct build_facts as (tid & T & _). destruct (ts_children _ _ _ t T p) as (_ & Hs & _).
  induction Hs as [|x l Hl IH Hx]; constructor; [done|].
  eapply Forall_impl; [exact Hx|]. intros y Hxy. unfold cmp_le, byStart, span_order, Time.Compare in Hxy.
  destruct (Z.compare_spec (Start (nSpan (node t x))) (Start (nSpan (node t y)))); simpl in Hxy; [lia|lia|done].
Qed.
End properties.

(** C30: in a built tree, [SelfTime] is the number of nanoseconds of the span's
    own interval during which none of its children ran, whatever the children
    overlap or overrun; it is zero for a placeholder, never negative and never
    more than the span's duration. *)
Theorem self_time_measures_idle (o1 o2 o3 : list ptr) (spans : list Span) (phase : Phase) (t : Tree) (p : ptr) :
  map_order (span_map spans) o1 -> map_order (span_map spans) o2 -> map_order (span_map spans) o3 ->
  Build_iter o1 o2 o3 spans phase = Ok t -> Forall ordered spans ->
  in_tree (span_map spans) p -> in_int64 (End_ (nSpan (node t p)) - Start (nSpan (node t p))) ->
  SelfTime (heap t) p = (if Node_Missing (node t p) then 0 else idle_instants (heap t) p) /\
  0 <= SelfTime (heap t) p <= Span_Duration (nSpan (node t p)).
Proof.
  intros H1 H2 H3 Hb Ho Hp Hint.
  destruct (build_facts o1 o2 o3 spans phase t H1 H2 H3 Hb Ho) as (tid & T & _ & Hd).
  apply (ts_dom _ _ _ t T) in Hp. destruct (Hd p Hp) as [_ Hop].
  pose proof (children_by_start o1 o2 o3 spans phase t H1 H2 H3 Hb Ho p) as Hs.
  unfold SelfTime, Span_Duration, ordered in *. rewrite (sub_exact _ _ Hint).
  destruct (Node_Missing (node t p)); [split; [done|lia]|].
  unfold idle_instants. set (s := Start (nSpan (node t p))) in *. set (e := End_ (nSpan (node t p))) in *.
  set (cs := Children (node t p)) in *.
  pose proof (busy_fold (heap t) s e cs [] s Hop Hint Hs) as Hbusy.
  assert (count (running (heap t) []) (seqZ s (e - s)) = 0) as Hz.
  { generalize (seqZ s (e - s)). induction l as [|x l IHl]; [done|]. by rewrite count_cons, IHl. }
  rewrite Hz in Hbusy. simpl in Hbusy.
  destruct (foldl (busy_step (heap t) e) (0, s) cs) as [busy cursor]. simpl in Hbusy.
  rewrite Hbusy; [|lia|done|intros; lia]. rewrite count_negb, length_seqZ.
  pose proof (count_bounds (running (heap t) cs) (seqZ s (e - s))) as Hcb. rewrite length_seqZ in Hcb.
  rewrite int64_id by (unfold_int; lia). lia.
Qed.

Example self_time_measures_idle_witness :
  let o := received example_spans in
  exists t, Build_iter o o o example_spans Sealed = Ok t /\
    SelfTime (heap t) (Real (vreplicate 8 x01)) = idle_instants (heap t) (Real (vreplicate 8 x01)) /\
    SelfTime (heap t) (Real (vreplicate 8 x01)) = 60.
Proof.
  intros o. pose proof (received_order example_spans : map_order _ o) as Ho.
  assert (is_ok (Build_iter o o o example_spans Sealed) = true) as Hok by (vm_compute; reflexivity).
  assert (match Build_iter o o o example_spans Sealed with
          | Ok t => (SelfTime (heap t) (Real (vreplicate 8 x01)),
                     Node_Missing (node t (Real (vreplicate 8 x01))),
                     End_ (nSpan (node t (Real (vreplicate 8 x01)))) - Start (nSpan (node t (Real (vreplicate 8 x01)))))
          | Err _ => (0, false, 0)
          end = (60, false, 80)) as Hv by (vm_compute; reflexivity).
  apply is_ok_inv in Hok as [t E]. exists t. rewrite E in Hv.
  apply pair_equal_spec in Hv as [Hv Hv3]. apply pair_equal_spec in Hv as [Hv1 Hv2].
  destruct (self_time_measures_idle o o o example_spans Sealed t (Real (vreplicate 8 x01)) Ho Ho Ho E) as [H _].
  - vm_decide.
  - vm_decide.
  - rewrite Hv3. unfold_int. lia.
  - rewrite Hv2 in H. split_and!; [exact E|exact H|exact Hv1].
Defined.

(** C29: [CriticalPath] of any node of a built tree ends, and returns segments
    that cover the node's interval from its start to its end without gaps or
    overlaps; each lies within the span of its own node, which is in the
    subtree, and neighbouring segments belong to different nodes. *)
Theorem critical_path_covers (o1 o2 o3 : list ptr) (spans : list Span) (phase : Phase) (t : Tree) (p : ptr) :
  map_order (span_map spans) o1 -> map_order (span_map spans) o2 -> map_order (span_map spans) o3 ->
  Build_iter o1 o2 o3 spans phase = Ok t -> Forall ordered spans -> in_tree (span_map spans) p ->
  exists path, CriticalPath (heap t) p = Some path /\
    good_path (heap t) p (Start (nSpan (node t p))) (End_ (nSpan (node t p))) path.
Proof.
  intros H1 H2 H3 Hb Ho Hp.
  destruct (build_facts o1 o2 o3 spans phase t H1 H2 H3 Hb Ho) as (tid & T & Hl & Hd).
  apply (ts_dom _ _ _ t T) in Hp. apply CriticalPath_good; [done| |by apply Hd|done|done].
  intros q Hq. by apply Hd.
Qed.

Example critical_path_covers_witness :
  let o := received example_spans in
  exists t path, Build_iter o o o example_spans Sealed = Ok t /\
    CriticalPath (heap t) (Real (vreplicate 8 x01)) = Some path /\ covers 10 90 path.
Proof.
  intros o. pose proof (received_order example_spans : map_order _ o) as Ho.
  assert (is_ok (Build_iter o o o example_spans Sealed) = true) as Hok by (vm_compute; reflexivity).
  assert (match Build_iter o o o example_spans Sealed with
          | Ok t => (Start (nSpan (node t (Real (vreplicate 8 x01)))), End_ (nSpan (node t (Real (vreplicate 8 x01)))))
          | Err _ => (0, 0)
          end = (10, 90)) as Hv by (vm_compute; reflexivity).
  apply is_ok_inv in Hok as [t E]. exists t. rewrite E in Hv.
  apply pair_equal_spec in Hv as [Hv1 Hv2].
  destruct (critical_path_covers o o o example_spans Sealed t (Real (vreplicate 8 x01)) Ho Ho Ho E) as (path & Hp & Hg).
  - vm_decide.
  - vm_decide.
  - exists path. rewrite Hv1, Hv2 in Hg. split_and!; [exact E|exact Hp|exact (gp_covers _ _ _ _ _ Hg)].
Defined.
