(* ===== verification/GoFloat.v ===== *)
(** * Go's float64 arithmetic

    The IEEE 754 double operations the sampler uses, through the Standard
    Library's executable specification, with [math.Round], the [min] builtin
    and the conversion from [time.Duration]. *)

From S2P Require Import Prelude GoTime.
From Stdlib Require Export SpecFloat.

Abbreviation float := spec_float.
Definition prec64 : Z := 53.
Definition emax64 : Z := 1024.

Definition fadd (x y : float) : float := SFadd prec64 emax64 x y.
Definition fsub (x y : float) : float := SFsub prec64 emax64 x y.
Definition fmul (x y : float) : float := SFmul prec64 emax64 x y.
Definition fdiv (x y : float) : float := SFdiv prec64 emax64 x y.
Definition flt (x y : float) : bool := SFltb x y.
Definition fle (x y : float) : bool := SFleb x y.

(** [float64(n)] of an integer. *)
Definition of_Z (n : Z) : float := binary_normalize prec64 emax64 n 0 false.

Definition fzero : float := S754_zero false.
Definition fone : float := of_Z 1.

(** The builtin [min]: NaN if either is, and negative zero below zero. *)
Definition fmin (x y : float) : float :=
  match SFcompare x y with
  | None => S754_nan
  | Some Lt => x
  | Some Gt => y
  | Some Eq => match x with S754_zero true => x | _ => y end
  end.

(** [uint64(math.Round(x))]: the nearest integer, halves away from zero.  The
    conversion is only defined for values that fit. *)
Definition round_pos (m : positive) (e : Z) : Z :=
  if 0 <=? e then Z.pos m * 2 ^ e else (Z.pos m + 2 ^ (- e - 1)) / 2 ^ (- e).

Definition round_uint64 (x : float) : Z :=
  match x with
  | S754_finite false m e => round_pos m e
  | S754_finite true m e => uint64 (- round_pos m e)
  | _ => 0
  end.

(** [d.Seconds()]. *)
Definition Seconds (d : Duration) : float :=
  fadd (of_Z (Z.quot d Second)) (fdiv (of_Z (Z.rem d Second)) (of_Z Second)).

(** A float64 is one of the patterns the format has. *)
Definition valid_float (x : float) : Prop := valid_binary prec64 emax64 x = true.

(** ** Lemmas *)

Lemma iter_pos_nat {A} (f : A -> A) p x : iter_pos f p x = Nat.iter (Pos.to_nat p) f x.
Proof.
  revert x. induction p as [p IH|p IH|]; intros x; cbn [iter_pos]; [| |done].
  - rewrite !IH, Pos2Nat.inj_xI, Nat.iter_succ_r, <-Nat.iter_add. f_equal. lia.
  - rewrite !IH, Pos2Nat.inj_xO, <-Nat.iter_add. f_equal. lia.
Qed.

Lemma shr_1_double z : shr_1 (Build_shr_record (2 * z) false false) = Build_shr_record z false false.
Proof. destruct z as [|p|p]; done. Qed.

Lemma shr_iter_exact n z :
  Nat.iter n shr_1 (Build_shr_record (z * 2 ^ Z.of_nat n) false false) = Build_shr_record z false false.
Proof.
  induction n as [|n IH]; [by rewrite Z.mul_1_r|].
  rewrite Nat.iter_succ_r. rewrite Nat2Z.inj_succ, Z.pow_succ_r by lia.
  assert (z * (2 * 2 ^ Z.of_nat n) = 2 * (z * 2 ^ Z.of_nat n)) as -> by lia.
  by rewrite shr_1_double.
Qed.

(** Shifting out zeros is exact. *)
Lemma shr_exact z n e :
  0 <= n -> shr (Build_shr_record (z * 2 ^ n) false false) e n = (Build_shr_record z false false, e + n).
Proof.
  intros Hn. destruct n as [|p|p]; [by rewrite Z.mul_1_r, Z.add_0_r| |lia].
  cbn [shr]. rewrite iter_pos_nat. f_equal.
  rewrite <-(shr_iter_exact (Pos.to_nat p) z). by rewrite positive_nat_Z.
Qed.

Lemma digits_double z : 0 < z -> Zdigits2 (2 * z) = Zdigits2 z + 1.
Proof.
  destruct z as [|p|p]; [lia| |lia]. intros _.
  change (Z.pos (Pos.succ (digits2_pos p)) = Z.pos (digits2_pos p) + 1). lia.
Qed.

Lemma digits_shift z n : 0 < z -> 0 <= n -> Zdigits2 (z * 2 ^ n) = Zdigits2 z + n.
Proof.
  intros Hz. revert n. apply natlike_ind; [by rewrite Z.mul_1_r, Z.add_0_r|].
  intros n Hn IH. rewrite Z.pow_succ_r by done.
  assert (z * (2 * 2 ^ n) = 2 * (z * 2 ^ n)) as -> by lia.
  rewrite digits_double, IH by nia. lia.
Qed.

Lemma digits_bound p : 2 ^ (Z.pos (digits2_pos p) - 1) <= Z.pos p < 2 ^ Z.pos (digits2_pos p).
Proof.
  assert (forall d : positive, 2 ^ Z.pos (Pos.succ d) = 2 * 2 ^ Z.pos d) as Hs.
  { intros d. rewrite Pos2Z.inj_succ. apply Z.pow_succ_r. lia. }
  assert (forall d : positive, 2 ^ Z.pos d = 2 * 2 ^ (Z.pos d - 1)) as Hp.
  { intros d. rewrite <-Z.pow_succ_r by lia. f_equal. lia. }
  assert (forall d : positive, Z.pos (Pos.succ d) - 1 = Z.pos d) as Hd by lia.
  induction p as [p IH|p IH|]; cbn [digits2_pos]; [..|done];
    rewrite Hd, Hs; specialize (Hp (digits2_pos p)); lia.
Qed.

Definition two56 : float := of_Z (2 ^ 56).

(** Multiplying a float of at most one by [1 << 56] is exact. *)
Lemma fmul_two56 m e :
  valid_float (S754_finite false m e) -> e <= -52 ->
  let d := Z.pos (digits2_pos m) in
  exists m', fmul (S754_finite false m e) two56 = S754_finite false m' (e + d + 3) /\
             Z.pos m' = Z.pos m * 2 ^ (53 - d) /\ 1 <= d <= 53 /\ -1074 <= e.
Proof.
  intros Hv He d. unfold valid_float, valid_binary, bounded, canonical_mantissa in Hv.
  apply andb_true_iff in Hv as [Hc _]. apply Z.eqb_eq in Hc. fold d in Hc.
  unfold fexp, emin, prec64, emax64 in Hc.
  assert (1 <= d <= 53 /\ -1074 <= e) as [Hd Hemin] by (unfold d in *; lia).
  assert (two56 = S754_finite false (2 ^ 52)%positive 4) as -> by (vm_compute; reflexivity).
  exists (m * Z.to_pos (2 ^ (53 - d)))%positive.
  assert (Z.pos (m * Z.to_pos (2 ^ (53 - d))) = Z.pos m * 2 ^ (53 - d)) as Hm'.
  { rewrite Pos2Z.inj_mul, Z2Pos.id; [done|]. apply Z.pow_pos_nonneg; lia. }
  split_and!; [|done|lia..].
  unfold fmul, SFmul. cbn [xorb]. unfold binary_round_aux.
  assert (Z.pos (m * 2 ^ 52) = Z.pos m * 2 ^ (53 - d) * 2 ^ (d - 1)) as Hprod.
  { rewrite Pos2Z.inj_mul, <-Z.mul_assoc, <-Z.pow_add_r by lia. f_equal.
    assert (53 - d + (d - 1) = 52) as -> by lia. done. }
  rewrite Hprod. unfold shr_fexp at 1. cbn [shr_record_of_loc].
  rewrite !digits_shift by (try apply Z.mul_pos_pos; try apply Z.pow_pos_nonneg; lia).
  cbn [Zdigits2]. fold d.
  assert (fexp prec64 emax64 (d + (53 - d) + (d - 1) + (e + 4)) - (e + 4) = d - 1) as ->
    by (unfold fexp, emin, prec64, emax64; lia).
  rewrite shr_exact by lia. cbn [loc_of_shr_record round_nearest_even shr_m].
  unfold shr_fexp. cbn [shr_record_of_loc].
  rewrite digits_shift by lia. cbn [Zdigits2]. fold d.
  assert (fexp prec64 emax64 (d + (53 - d) + (e + 4 + (d - 1))) - (e + 4 + (d - 1)) = 0) as ->
    by (unfold fexp, emin, prec64, emax64; lia).
  cbn [shr shr_m]. rewrite <-Hm'.
  destruct (Z.leb_spec (e + 4 + (d - 1)) (emax64 - prec64)) as [_|Hbad]; [|unfold emax64, prec64 in Hbad; lia].
  f_equal. lia.
Qed.
