(* ===== verification/Policy.v ===== *)
(** * Sampling policies: [internal/sampler/policy.go]

    The chain of policies and the three that exist.  A policy is a Go
    interface: [Policy] is its record of operations, and [SafePolicy] the
    promise the sampler needs of an implementation, that it does not panic on
    a tree [Build] made. *)

From S2P Require Import Prelude GoTime GoBytes GoFloat Ident Value Span.
From S2P Require Import Assembly Forest AssemblySpec BuildProps.

(** ** Operations *)

(** [type Verdict struct]. *)
Record Verdict : Type := MkVerdict { Keep : bool; Reason : string }.

(** [type Policy interface]; [None] is a panic. *)
Record Policy : Type := MkPolicy { Evaluate : Tree -> option (Verdict * bool) }.

(** [func Decide(t, policies) Verdict]. *)
Definition unclaimed : Verdict := MkVerdict false "unclaimed".

Fixpoint Decide (t : Tree) (policies : list Policy) : option Verdict :=
  match policies with
  | [] => Some unclaimed
  | p :: policies' =>
      '(v, ok) ← Evaluate p t;
      if (ok : bool) then Some v else Decide t policies'
  end.

Definition abstain : Verdict * bool := (MkVerdict false "", false).

(** [type KeepErrors struct{}]: the callback assigns to [failed]. *)
Definition failed_node (t : Tree) (n : ptr) : bool :=
  negb (Node_Missing (node t n)) && Failed (nSpan (node t n)).

Definition KeepErrors : Policy := MkPolicy (fun t =>
  failed ← Walk t (fun n _ _ => (failed_node t n, negb (failed_node t n))) false;
  Some (if (failed : bool) then (MkVerdict true "error", true) else abstain)).

(** [func Duration(t) time.Duration]; [t.Roots[0]] panics when there is none. *)
Definition Duration_of (t : Tree) : option Duration :=
  match Roots t with
  | [] => None
  | r :: rs =>
      let s := nSpan (node t r) in
      let '(start, end_) := foldl (fun b r => widen (heap t) r b) (Start s, End_ s) rs in
      Some (Time.Sub end_ start)
  end.

(** [type KeepSlow struct]. *)
Definition KeepSlow (threshold : Duration) : Policy := MkPolicy (fun t =>
  d ← Duration_of t;
  Some (if threshold <? d then (MkVerdict true "slow", true) else abstain)).

(** [type KeepFraction struct] with its threshold. *)
Definition KeepFraction_Evaluate (threshold : Z) (t : Tree) : Verdict * bool :=
  let random := Z.land (be_value (drop 8 (vec_to_list (tTraceID t)))) (Z.shiftl 1 56 - 1) in
  if random <? threshold then (MkVerdict true "sampled", true)
  else (MkVerdict false "sampled out", true).

Definition KeepFraction (threshold : Z) : Policy :=
  MkPolicy (fun t => Some (KeepFraction_Evaluate threshold t)).

Inductive share_error := ErrShare (share : float).

(** [func NewKeepFraction(share float64) (KeepFraction, error)], returning the
    threshold. *)
Definition NewKeepFraction (share : float) : result share_error Z :=
  if negb (fle fzero share && fle share fone) then Err (ErrShare share)
  else Ok (round_uint64 (fmul share two56)).

(** ** The interface *)

(** A tree that [Build] made. *)
Definition built (spans : list Span) (t : Tree) : Prop :=
  exists o1 o2 o3 phase,
    map_order (span_map spans) o1 /\ map_order (span_map spans) o2 /\ map_order (span_map spans) o3 /\
    Build_iter o1 o2 o3 spans phase = Ok t.

(** What an implementation of [Policy] promises the sampler. *)
Class SafePolicy (p : Policy) : Prop :=
  safe_policy : forall spans t, built spans t -> is_Some (Evaluate p t).

Lemma Decide_safe spans t ps :
  Forall SafePolicy ps -> built spans t -> exists v, Decide t ps = Some v.
Proof.
  intros Hs Hb. induction Hs as [|p ps Hp _ IH]; simpl; [by eexists|].
  destruct (Hp spans t Hb) as [[v []] ->]; simpl; [by exists v|done].
Qed.

(** ** What a built tree looks like to a policy *)

Lemma built_refines spans t :
  built spans t -> exists s0 phase, s0 ∈ spans /\
    tree_spec (span_map spans) (TraceID_ s0) (absent_of phase) t /\ links (heap t) /\
    (forall x, in_tree (span_map spans) x -> rooted (heap t) x) /\
    (forall s, s ∈ spans -> TraceID_ s = TraceID_ s0).
Proof.
  intros (o1 & o2 & o3 & phase & H1 & H2 & H3 & E). destruct spans as [|s0 l]; [done|].
  pose proof (ok_same_trace o1 o2 o3 s0 l phase t E) as Hsame.
  destruct (build_refines o1 o2 o3 s0 l phase H1 H2 H3 Hsame) as (t' & E' & T & Hl & Hr).
  rewrite E in E'. injection E' as <-. exists s0, phase. split_and!; [by left|done..|].
  intros s [->|Hs]%elem_of_cons; [done|by apply Hsame].
Qed.

Lemma tree_roots_of m tid absent t : tree_spec m tid absent t -> roots_of (heap t) (Roots t).
Proof.
  intros T. destruct (ts_roots _ _ _ t T) as (N & _ & R). split; [done|].
  intros p. by rewrite R, (ts_dom _ _ _ t T).
Qed.

Lemma built_walk {S} spans t (fn : ptr -> Z -> S -> S * bool) :
  built spans t ->
  exists l, (forall p, p ∈ l.*1 <-> in_tree (span_map spans) p) /\
            forall s, Walk t fn s = Some (visit fn l s).1.
Proof.
  intros (s0 & phase & _ & T & Hl & Hr & _)%built_refines.
  pose proof (tree_roots_of _ _ _ _ T) as Hroots.
  assert (forall r, r ∈ Roots t -> r ∈ dom (heap t) /\ rooted (heap t) r) as Hroot.
  { intros r Hin%Hroots. split; [apply Hin|]. exists r. split_and!; [apply Hin..|apply rtc_refl]. }
  destruct (walk_roots_spec (heap t) fn (Roots t) Hl Hroot) as (l & Hpre & Hw).
  exists l. split; [|exact Hw]. intros p.
  rewrite (preorder_below (heap t) _ _ _ _ Hl Hpre), <-(ts_dom _ _ _ t T). split.
  - intros (r & Hin & Hb). inversion Hb; subst; [by apply Hroot|by eapply up_dom].
  - intros Hp. apply (ts_dom _ _ _ t T), Hr in Hp as (r & Hd & Hn & Hb).
    exists r. split; [by apply Hroots|done].
Qed.

Lemma visit_until (f : ptr -> bool) l :
  (visit (fun n _ (_ : bool) => (f n, negb (f n))) l false).1 = existsb f (l.*1).
Proof.
  induction l as [|[n d] l IH]; [done|]. cbn [visit fmap list_fmap existsb fst].
  destruct (f n); simpl; [done|]. exact IH.
Qed.

Lemma built_roots spans t : built spans t -> Roots t <> [].
Proof.
  intros (s0 & phase & Hs & T & Hl & Hr & _)%built_refines Hnil.
  assert (in_tree (span_map spans) (Real (SpanID_ s0))) as Hin.
  { simpl. apply span_map_dom. by apply list_elem_of_fmap_2. }
  apply Hr in Hin as (r & Hd & Hn & _).
  assert (r ∈ Roots t) as Hx by (apply (tree_roots_of _ _ _ _ T); done).
  rewrite Hnil in Hx. by apply elem_of_nil in Hx.
Qed.

#[export] Instance KeepErrors_safe : SafePolicy KeepErrors.
Proof.
  intros spans t Hb. unfold KeepErrors; simpl.
  destruct (built_walk spans t (fun n _ (_ : bool) => (failed_node t n, negb (failed_node t n))) Hb) as (l & _ & ->).
  simpl. by eexists.
Qed.

#[export] Instance KeepSlow_safe d : SafePolicy (KeepSlow d).
Proof.
  intros spans t Hb%built_roots. unfold KeepSlow, Duration_of; simpl.
  destruct (Roots t) as [|r rs]; [done|]. destruct (foldl _ _ rs). simpl. by eexists.
Qed.

#[export] Instance KeepFraction_safe th : SafePolicy (KeepFraction th).
Proof. intros spans t _. by eexists. Qed.

(** ** The share a [KeepFraction] keeps *)

(** The value of a float64, in units of [2^-1074], its smallest step. *)
Definition scaled_value (x : float) : option Z :=
  match x with
  | S754_zero _ => Some 0
  | S754_finite s m e => Some ((if s then -1 else 1) * (Z.pos m * 2 ^ (e + 1074)))
  | _ => None
  end.

Definition unit64 : Z := 2 ^ 1074.

(** The rightmost 56 bits of a trace identifier. *)
Definition random56 (id : TraceID) : Z := be_value (drop 9 (vec_to_list id)).

Lemma pow_split a b : 0 <= a -> 0 <= b -> 2 ^ (a + b) = 2 ^ a * 2 ^ b.
Proof. intros. by apply Z.pow_add_r. Qed.

Lemma valid_exponent s m e :
  valid_float (S754_finite s m e) ->
  let d := Z.pos (digits2_pos m) in
  -1074 <= e /\ 1 <= d <= 53 /\ (-1074 < e -> d = 53) /\ 2 ^ (d - 1) <= Z.pos m < 2 ^ d.
Proof.
  intros Hv d. unfold valid_float, valid_binary, bounded, canonical_mantissa in Hv.
  apply andb_true_iff in Hv as [Hc _]. apply Z.eqb_eq in Hc.
  pose proof (digits_bound m) as Hb. fold d in Hc, Hb. unfold fexp, emin, prec64, emax64 in Hc. split_and!; try lia.
Qed.

(** Comparing a positive float with one compares values. *)
Lemma fle_one m e :
  valid_float (S754_finite false m e) ->
  fle (S754_finite false m e) fone = true <-> e <= -52 /\ Z.pos m * 2 ^ (e + 1074) <= unit64.
Proof.
  intros Hv. destruct (valid_exponent false m e Hv) as (He & Hd & Hn & Hm).
  set (d := Z.pos (digits2_pos m)) in *.
  assert (exists P, fone = S754_finite false P (-52) /\ Z.pos P = 2 ^ 52) as (P & -> & HP)
    by (exists (2 ^ 52)%positive; split; vm_compute; reflexivity).
  assert (unit64 = 2 ^ 52 * 2 ^ 1022) as E by (unfold unit64; rewrite <-pow_split by lia; f_equal).
  assert (0 < 2 ^ 1022) as Hpos by (apply Z.pow_pos_nonneg; lia).
  assert (forall z, z * 2 ^ 1022 <= unit64 <-> z <= 2 ^ 52) as Hscale.
  { intros z. rewrite E. symmetry. by apply Z.mul_le_mono_pos_r. }
  unfold fle, SFleb, SFcompare. destruct (Z.compare_spec e (-52)) as [->|Hlt|Hgt].
  - assert (-52 + 1074 = 1022) as -> by lia. rewrite Hscale, <-HP.
    pose proof (Pos.compare_spec m P) as Hc. unfold Pos.compare in Hc. destruct Hc as [->|Hp|Hp].
    + split; [|done]. intros _. split; lia.
    + split; [|done]. intros _. split; lia.
    + split; [done|]. intros [_ ?]. lia.
  - split; [|done]. intros _. split; [lia|]. unfold unit64.
    assert (2 ^ 1074 = 2 ^ (1021 - (e + 1074)) * 2 ^ 53 * 2 ^ (e + 1074)) as ->.
    { rewrite <-!pow_split by lia. f_equal. lia. }
    apply Z.mul_le_mono_nonneg_r; [apply Z.pow_nonneg; lia|].
    assert (2 ^ d <= 2 ^ 53) by (apply Z.pow_le_mono_r; lia).
    assert (0 < 2 ^ (1021 - (e + 1074))) by (apply Z.pow_pos_nonneg; lia). nia.
  - split; [done|]. intros [? _]. lia.
Qed.

Lemma round_pos_nearest m e :
  e < 0 -> 2 * Z.pos m - 2 ^ (- e) <= 2 * (round_pos m e * 2 ^ (- e)) <= 2 * Z.pos m + 2 ^ (- e).
Proof.
  intros He. unfold round_pos. destruct (Z.leb_spec 0 e) as [?|_]; [lia|].
  assert (2 ^ (- e) = 2 * 2 ^ (- e - 1)) as E.
  { rewrite <-Z.pow_succ_r by lia. f_equal. lia. }
  assert (0 < 2 ^ (- e - 1)) by (apply Z.pow_pos_nonneg; lia).
  pose proof (Z.div_mod (Z.pos m + 2 ^ (- e - 1)) (2 ^ (- e))) as Hdm.
  pose proof (Z.mod_pos_bound (Z.pos m + 2 ^ (- e - 1)) (2 ^ (- e))) as Hmod.
  set (q := (Z.pos m + 2 ^ (- e - 1)) / 2 ^ (- e)) in *. nia.
Qed.

(** The threshold is the nearest integer to the share of [2^56]. *)
Lemma threshold_nearest m e :
  valid_float (S754_finite false m e) -> e <= -52 ->
  let th := round_uint64 (fmul (S754_finite false m e) two56) in
  let v := Z.pos m * 2 ^ (e + 1074) in
  2 * (v * 2 ^ 56) - unit64 <= 2 * (th * unit64) <= 2 * (v * 2 ^ 56) + unit64.
Proof.
  intros Hv He th v.
  destruct (fmul_two56 m e Hv He) as (m' & Hmul & Hm' & Hd & Hmin).
  set (d := Z.pos (digits2_pos m)) in *. unfold th. rewrite Hmul. cbn [round_uint64].
  assert (forall k, k = e + d + 3 -> v * 2 ^ 56 = Z.pos m' * 2 ^ (1074 + k)) as Hval.
  { intros k ->. unfold v. rewrite Hm', <-!Z.mul_assoc, <-!pow_split by lia. f_equal. f_equal. lia. }
  set (k := e + d + 3) in *. specialize (Hval k eq_refl). rewrite Hval. unfold unit64.
  destruct (Z.leb_spec 0 k) as [Hk|Hk].
  - unfold round_pos. rewrite (proj2 (Z.leb_le 0 k)) by done.
    rewrite pow_split by lia. assert (0 < 2 ^ 1074) by (by apply Z.pow_pos_nonneg). nia.
  - pose proof (round_pos_nearest m' k Hk) as Hr.
    assert (2 ^ 1074 = 2 ^ (- k) * 2 ^ (1074 + k)) as E.
    { rewrite <-pow_split by lia. f_equal. lia. }
    rewrite E. assert (0 < 2 ^ (1074 + k)) by (apply Z.pow_pos_nonneg; lia).
    set (A := 2 ^ (- k)) in *. set (B := 2 ^ (1074 + k)) in *. set (r := round_pos m' k) in *. nia.
Qed.

Lemma be_value_from_acc bs : forall acc, 0 <= acc ->
  be_value_from acc bs = acc * 2 ^ (8 * Z.of_nat (length bs)) + be_value bs.
Proof.
  unfold be_value. induction bs as [|b bs IH]; intros acc Hacc; cbn [be_value_from length].
  { simpl. lia. }
  pose proof (byteZ_range b) as Hb.
  assert (forall a, Z.lor (Z.shiftl a 8) (byteZ b) = a * 256 + byteZ b) as Hlor.
  { intros a. rewrite Z.lor_comm. rewrite (lor_disjoint _ _ 8) by lia. lia. }
  rewrite !Hlor. rewrite IH by lia. rewrite (IH (0 * 256 + byteZ b)) by lia.
  rewrite Nat2Z.inj_succ. assert (8 * Z.succ (Z.of_nat (length bs)) = 8 * Z.of_nat (length bs) + 8) as -> by lia.
  rewrite pow_split by lia. lia.
Qed.

Lemma be_value_cons b bs : be_value (b :: bs) = byteZ b * 2 ^ (8 * Z.of_nat (length bs)) + be_value bs.
Proof.
  unfold be_value at 1. cbn [be_value_from]. rewrite Z.shiftl_0_l, Z.lor_0_l.
  apply be_value_from_acc, byteZ_range.
Qed.

Lemma be_value_range bs : 0 <= be_value bs < 2 ^ (8 * Z.of_nat (length bs)).
Proof.
  induction bs as [|b bs IH]; [done|]. rewrite be_value_cons. cbn [length].
  pose proof (byteZ_range b). rewrite Nat2Z.inj_succ.
  assert (8 * Z.succ (Z.of_nat (length bs)) = 8 * Z.of_nat (length bs) + 8) as -> by lia.
  rewrite pow_split by lia. nia.
Qed.

(** What [KeepFraction] reads is the rightmost 56 bits. *)
Lemma random_bits (id : TraceID) :
  Z.land (be_value (drop 8 (vec_to_list id))) (Z.shiftl 1 56 - 1) = random56 id /\
  0 <= random56 id < 2 ^ 56.
Proof.
  unfold random56. pose proof (length_vec_to_list id) as Hlen.
  assert (Z.shiftl 1 56 - 1 = Z.ones 56) as -> by done. rewrite Z.land_ones by lia.
  assert (drop 9 (vec_to_list id) = drop 1 (drop 8 (vec_to_list id))) as -> by (by rewrite drop_drop).
  assert (length (drop 8 (vec_to_list id)) = 8%nat) as Hl by (by rewrite length_drop, Hlen).
  destruct (drop 8 (vec_to_list id)) as [|b bs]; [done|]. cbn [drop].
  rewrite be_value_cons. injection Hl as Hl. rewrite Hl.
  pose proof (be_value_range bs) as Hr. rewrite Hl in Hr. change (8 * Z.of_nat 7) with 56 in *.
  split; [|done]. rewrite Z.add_comm, Z.mod_add by done. by apply Z.mod_small.
Qed.

(** ** The properties *)

(** On a built tree a chain of safe policies always reaches a verdict: the
    first one decided, or, when all abstain, to drop the trace unclaimed. *)
Theorem decide_first_decision (spans : list Span) (t : Tree) (ps : list Policy) :
  Forall SafePolicy ps -> built spans t ->
  exists v, Decide t ps = Some v /\
    ((v = unclaimed /\ Forall (fun p => exists v', Evaluate p t = Some (v', false)) ps) \/
     exists ps1 p ps2, ps = ps1 ++ p :: ps2 /\ Evaluate p t = Some (v, true) /\
       Forall (fun p => exists v', Evaluate p t = Some (v', false)) ps1).
Proof.
  intros Hs Hb. induction Hs as [|p ps Hp _ (v & Hv & IH)]; simpl.
  { exists unclaimed. split; [done|]. left. by split. }
  destruct (Hp spans t Hb) as [[v0 []] E]; rewrite E; simpl.
  - exists v0. split; [done|]. right. by exists [], p, ps.
  - exists v. split; [done|]. destruct IH as [[-> IH]|(ps1 & q & ps2 & -> & Eq & IH)]; [left|right].
    + split; [done|]. constructor; [by exists v0|done].
    + exists (p :: ps1), q, ps2. split_and!; [done..|]. constructor; [by exists v0|done].
Qed.

Definition example_tree : Tree :=
  match Build example_spans Sealed with Ok t => t | Err _ => MkTree zeroID [] ∅ [] [] ∅ end.

Lemma example_built : built example_spans example_tree.
Proof.
  pose proof (received_order example_spans) as Ho.
  exists (received example_spans), (received example_spans), (received example_spans), Sealed.
  split_and!; [exact Ho..|]. vm_compute. reflexivity.
Qed.

Example decide_first_decision_witness :
  exists v, Decide example_tree [KeepErrors; KeepSlow 50; KeepFraction 0] = Some v /\ v <> unclaimed.
Proof.
  destruct (decide_first_decision example_spans example_tree [KeepErrors; KeepSlow 50; KeepFraction 0])
    as (v & Hv & _).
  - repeat constructor; apply _.
  - apply example_built.
  - exists v. split; [exact Hv|].
    assert (Decide example_tree [KeepErrors; KeepSlow 50; KeepFraction 0] = Some (MkVerdict true "slow")) as E
      by (vm_compute; reflexivity).
    rewrite E in Hv. by injection Hv as <-.
Defined.

Lemma keep_errors_eval (spans : list Span) (t : Tree) :
  built spans t ->
  (exists id s, span_map spans !! id = Some s /\ Failed s = true) /\
    Evaluate KeepErrors t = Some (MkVerdict true "error", true) \/
  (forall id s, span_map spans !! id = Some s -> Failed s = false) /\
    Evaluate KeepErrors t = Some abstain.
Proof.
  intros Hb. unfold KeepErrors; simpl.
  destruct (built_walk spans t (fun n _ (_ : bool) => (failed_node t n, negb (failed_node t n))) Hb) as (l & Hl & ->).
  rewrite visit_until. cbn [mbind option_bind].
  destruct (built_refines spans t Hb) as (s0 & phase & _ & T & _).
  assert (forall id s, span_map spans !! id = Some s -> failed_node t (Real id) = Failed s) as Hreal.
  { intros id s Hs. unfold failed_node, Node_Missing. by destruct (ts_real _ _ _ t T id s Hs) as [-> ->]. }
  destruct (existsb (failed_node t) (l.*1)) eqn:E; [left|right]; (split; [|done]).
  - apply existsb_exists in E as (p & Hp & Hf). apply list_elem_of_In, Hl in Hp.
    destruct p as [id|id].
    + destruct Hp as [s Hs]. exists id, s. split; [done|]. by rewrite <-(Hreal id s).
    + destruct (ts_hold _ _ _ t T id Hp) as (Hpr & _). unfold failed_node, Node_Missing in Hf.
      rewrite Hpr in Hf. apply andb_true_iff in Hf as [_ Hf].
      destruct (ts_hold _ _ _ t T id Hp) as (_ & b & Hsp & _). rewrite Hsp in Hf. done.
  - intros id s Hs. rewrite <-(Hreal id s Hs). apply not_true_iff_false. intros Hf.
    apply not_true_iff_false in E. apply E. apply existsb_exists. exists (Real id). split; [|done].
    apply list_elem_of_In, Hl. by exists s.
Qed.

(** [KeepErrors] keeps a trace exactly when a span that counts (the last
    copy of its identifier) reported an error; placeholders never do. *)
Theorem keep_errors_spec (spans : list Span) (t : Tree) :
  built spans t ->
  (exists id s, span_map spans !! id = Some s /\ Failed s = true) /\
    Evaluate KeepErrors t = Some (MkVerdict true "error", true) \/
  (forall id s, span_map spans !! id = Some s -> Failed s = false) /\
    Evaluate KeepErrors t = Some abstain.
Proof. apply keep_errors_eval. Qed.

Example keep_errors_spec_witness : Evaluate KeepErrors example_tree = Some abstain.
Proof.
  destruct (keep_errors_spec example_spans example_tree example_built) as [[_ H]|[_ H]]; [|exact H].
  assert (Evaluate KeepErrors example_tree = Some abstain) as E by (vm_compute; reflexivity).
  rewrite E in H. discriminate H.
Defined.

(** The duration [KeepSlow] judges runs from the earliest start to the
    latest end among the roots, placeholders included, and is the root's own
    when there is one root; the policy keeps the trace when it exceeds the
    threshold and abstains otherwise. *)
Theorem keep_slow_spec (spans : list Span) (t : Tree) (threshold : Duration) :
  built spans t ->
  exists b, is_envelope b ((fun r => nSpan (node t r)) <$> Roots t) /\
    Duration_of t = Some (Time.Sub b.2 b.1) /\
    (forall r, Roots t = [r] -> Duration_of t = Some (Span_Duration (nSpan (node t r)))) /\
    Evaluate (KeepSlow threshold) t =
      Some (if threshold <? Time.Sub b.2 b.1 then (MkVerdict true "slow", true) else abstain).
Proof.
  intros Hb. pose proof (built_roots spans t Hb) as Hne. unfold KeepSlow, Duration_of; simpl.
  destruct (Roots t) as [|r rs]; [done|].
  pose proof (widen_fold (heap t) rs (Start (nSpan (node t r)), End_ (nSpan (node t r)))) as W. simpl in W.
  set (b := foldl _ _ rs) in *. exists b. destruct W as (W1 & W2 & W3 & W4 & W5).
  assert (is_envelope b ((fun r => nSpan (node t r)) <$> r :: rs)) as He.
  { unfold is_envelope. split_and!.
    - destruct W1 as [W1|(x & Hx & Ex)]; [exists (nSpan (node t r)); split; [by left|done]|].
      exists (nSpan (node t x)). split; [|done]. apply list_elem_of_fmap. exists x. split; [done|by right].
    - destruct W2 as [W2|(x & Hx & Ex)]; [exists (nSpan (node t r)); split; [by left|done]|].
      exists (nSpan (node t x)). split; [|done]. apply list_elem_of_fmap. exists x. split; [done|by right].
    - intros s [x [-> [->|Hx]%elem_of_cons]]%list_elem_of_fmap; [lia|by apply W5]. }
  destruct b as [start end_] eqn:Eb. split_and!; [done|done| |done].
  intros r' [= -> ->]. by injection Eb as <- <-.
Qed.

Example keep_slow_spec_witness :
  Evaluate (KeepSlow 50) example_tree = Some (MkVerdict true "slow", true).
Proof.
  destruct (keep_slow_spec example_spans example_tree 50 example_built) as (b & _ & Hd & _ & ->).
  assert (Duration_of example_tree = Some 80) as E by (vm_compute; reflexivity).
  rewrite E in Hd. injection Hd as <-. reflexivity.
Defined.

(** The verdict of a share depends on the identifier alone. *)
Lemma keep_fraction_eval th t :
  0 <= random56 (tTraceID t) < 2 ^ 56 /\
  Evaluate (KeepFraction th) t =
    Some (if random56 (tTraceID t) <? th then (MkVerdict true "sampled", true)
          else (MkVerdict false "sampled out", true)).
Proof.
  destruct (random_bits (tTraceID t)) as [E Hr]. split; [done|].
  simpl. unfold KeepFraction_Evaluate. by rewrite E.
Qed.

(** C40: a share is accepted exactly when its value lies between 0 and 1; the
    threshold is then the integer nearest to that share of [2^56], and a trace
    is kept exactly when the rightmost 56 bits of its identifier, read as a
    number, are below the threshold.  The verdict depends on the identifier
    alone, and a larger threshold keeps every trace a smaller one does. *)
Theorem keep_fraction_spec (share : float) :
  valid_float share ->
  match NewKeepFraction share with
  | Err _ => forall v, scaled_value share = Some v -> v < 0 \/ unit64 < v
  | Ok th =>
      (exists v, scaled_value share = Some v /\ 0 <= v <= unit64 /\
         2 * (v * 2 ^ 56) - unit64 <= 2 * (th * unit64) <= 2 * (v * 2 ^ 56) + unit64) /\
      forall t, 0 <= random56 (tTraceID t) < 2 ^ 56 /\
        Evaluate (KeepFraction th) t =
          Some (if random56 (tTraceID t) <? th then (MkVerdict true "sampled", true)
                else (MkVerdict false "sampled out", true))
  end.
Proof.
  intros Hv.
  pose proof keep_fraction_eval as Heval.
  assert (0 < unit64) as Hu by (unfold unit64; apply Z.pow_pos_nonneg; lia).
  unfold NewKeepFraction. destruct share as [s|s| |s m e].
  - assert (fle fzero (S754_zero s) && fle (S754_zero s) fone = true) as -> by (destruct s; vm_compute; reflexivity).
    cbn [negb]. split; [|exact (Heval _)]. exists 0. split_and!; [done|lia|lia| |];
      (assert (round_uint64 (fmul (S754_zero s) two56) = 0) as -> by (destruct s; vm_compute; reflexivity); lia).
  - assert (fle fzero (S754_infinity s) && fle (S754_infinity s) fone = false) as -> by (destruct s; vm_compute; reflexivity).
    done.
  - done.
  - destruct s.
    + assert (fle fzero (S754_finite true m e) = false) as -> by done. cbn [negb andb].
      intros v [= <-]. left. destruct (valid_exponent _ _ _ Hv) as (He & _).
      assert (0 < 2 ^ (e + 1074)) by (apply Z.pow_pos_nonneg; lia). nia.
    + assert (fle fzero (S754_finite false m e) = true) as -> by done. cbn [andb].
      pose proof (fle_one m e Hv) as Hone. destruct (valid_exponent _ _ _ Hv) as (He & _).
      assert (0 < 2 ^ (e + 1074)) by (apply Z.pow_pos_nonneg; lia).
      destruct (fle (S754_finite false m e) fone) eqn:El; cbn [negb].
      * destruct (proj1 Hone eq_refl) as [Hle Hval]. split; [|exact (Heval _)].
        exists (Z.pos m * 2 ^ (e + 1074)). split; [simpl; f_equal; lia|]. split; [nia|].
        exact (threshold_nearest m e Hv Hle).
      * intros v [= <-]. right. rewrite Z.mul_1_l. apply Z.lt_nge. intros Hle.
        destruct (valid_exponent _ _ _ Hv) as (_ & Hd & Hn & Hm).
        enough (false = true) by done. apply Hone. split; [|done].
        apply Z.le_ngt. intros Hgt. revert Hle. apply Z.lt_nge. rewrite Hn in Hm by lia.
        assert (unit64 < 2 ^ 52 * 2 ^ (e + 1074)) as Hbig.
        { unfold unit64. rewrite <-pow_split by lia. apply Z.pow_lt_mono_r; lia. }
        eapply Z.lt_le_trans; [exact Hbig|]. apply Z.mul_le_mono_nonneg_r; [lia|]. apply Hm.
Qed.

(** A share of one half. *)
Example keep_fraction_spec_witness :
  exists th, NewKeepFraction (S754_finite false (2 ^ 52) (-53)) = Ok th /\
    (exists v, 2 * (v * 2 ^ 56) - unit64 <= 2 * (th * unit64)) /\ th = 2 ^ 55.
Proof.
  pose proof (keep_fraction_spec (S754_finite false (2 ^ 52) (-53)) eq_refl) as H.
  assert (NewKeepFraction (S754_finite false (2 ^ 52) (-53)) = Ok (2 ^ 55)) as E by (vm_compute; reflexivity).
  rewrite E in H. destruct H as [(v & _ & _ & Hv & _) _].
  exists (2 ^ 55). split; [exact E|]. split; [exists v; exact Hv|reflexivity].
Defined.
