(* ===== verification/Os.v ===== *)
(** * Go's [os] package, as far as the disk store uses it

    One directory of files, and handles with an offset.  Every call may fail:
    the state carries the outcomes of the calls to come, and a call takes the
    next.  [Broken n] is a failure that got [n] bytes or steps in; when the
    list is exhausted calls succeed. *)

From S2P Require Import Prelude.

(** A file name within the directory. *)
Abbreviation name := (list byte).

(** ** Files *)

Inductive dirent := Dir | File (content : list byte).

Inductive fault := Fine | Broken (n : nat).

Record os : Type := MkOs { files : gmap name dirent; faults : list fault }.

(** The outcome of the next call. *)
Definition pop (o : os) : fault * os :=
  match faults o with
  | [] => (Fine, o)
  | x :: l => (x, MkOs (files o) l)
  end.

Definition set_files (fs : gmap name dirent) (o : os) : os := MkOs fs (faults o).

(** An open file: the file it was opened on, its offset, and whether it was
    closed. *)
Record file : Type := MkFile { fname : name; foff : nat; fclosed : bool }.

Definition content (o : os) (n : name) : list byte :=
  match files o !! n with Some (File c) => c | _ => [] end.

(** Writing through a handle of a file that is not in the directory any more
    changes nothing there. *)
Definition put_content (n : name) (c : list byte) (o : os) : os :=
  set_files (alter (fun _ => File c) n (files o)) o.

Definition failed (x : fault) : bool := match x with Fine => false | Broken _ => true end.

(** The content with [b] written at [off], and cut or extended to [n]. *)
Definition splice (c : list byte) (off : nat) (b : list byte) : list byte :=
  take off c ++ replicate (off - length c) x00 ++ b ++ drop (off + length b) c.
Definition resize_to (n : nat) (c : list byte) : list byte := take n c ++ replicate (n - length c) x00.

(** [f.Write(b)]: a failing write may leave any first part of [b]. *)
Definition File_Write (f : file) (b : list byte) (o : os) : file * bool * os :=
  if fclosed f then (f, true, o)
  else
    let '(x, o) := pop o in
    let b := match x with Fine => b | Broken n => take n b end in
    (MkFile (fname f) (foff f + length b) false, failed x,
     put_content (fname f) (splice (content o (fname f)) (foff f) b) o).

(** [f.Sync()]. *)
Definition File_Sync (f : file) (o : os) : bool * os :=
  if fclosed f then (true, o) else let '(x, o) := pop o in (failed x, o).

(** [f.Truncate(size)]. *)
Definition File_Truncate (f : file) (size : nat) (o : os) : bool * os :=
  if fclosed f then (true, o)
  else
    let '(x, o) := pop o in
    if failed x then (true, o)
    else (false, put_content (fname f) (resize_to size (content o (fname f))) o).

(** [f.Seek(off, io.SeekStart)] and [f.Seek(0, io.SeekEnd)]. *)
Definition File_SeekStart (f : file) (off : nat) (o : os) : file * bool * os :=
  if fclosed f then (f, true, o)
  else
    let '(x, o) := pop o in
    if failed x then (f, true, o) else (MkFile (fname f) off false, false, o).

Definition File_SeekEnd (f : file) (o : os) : file * nat * bool * os :=
  if fclosed f then (f, 0%nat, true, o)
  else
    let '(x, o) := pop o in
    let size := length (content o (fname f)) in
    if failed x then (f, 0%nat, true, o) else (MkFile (fname f) size false, size, false, o).

(** [f.Close()]: closing a closed file fails, and a failed close closes. *)
Definition File_Close (f : file) (o : os) : file * bool * os :=
  if fclosed f then (f, true, o)
  else let '(x, o) := pop o in (MkFile (fname f) (foff f) true, failed x, o).

(** [os.OpenFile(path, os.O_CREATE|os.O_RDWR, 0o644)]. *)
Definition create (n : name) (o : os) : os :=
  match files o !! n with
  | None => set_files (<[n := File []]> (files o)) o
  | Some _ => o
  end.

Definition OpenFile (n : name) (o : os) : option file * os :=
  let '(x, o) := pop o in
  match x with
  | Broken O => (None, o)
  | Broken (S _) => (None, create n o)
  | Fine => match files o !! n with
            | Some Dir => (None, o)
            | _ => (Some (MkFile n 0 false), create n o)
            end
  end.

(** [os.Truncate(path, size)]. *)
Inductive truncated := TruncateOk | TruncateNotExist | TruncateFailed.

Definition Truncate (n : name) (size : nat) (o : os) : truncated * os :=
  let '(x, o) := pop o in
  if failed x then (TruncateFailed, o)
  else match files o !! n with
       | None => (TruncateNotExist, o)
       | Some Dir => (TruncateFailed, o)
       | Some (File c) => (TruncateOk, put_content n (resize_to size c) o)
       end.

(** [os.Remove(path)]; a directory is taken not to be empty. *)
Definition Remove (n : name) (o : os) : os :=
  let '(x, o) := pop o in
  if failed x then o
  else match files o !! n with
       | Some (File _) => set_files (delete n (files o)) o
       | _ => o
       end.

(** [os.ReadDir], [os.ReadFile] and [os.MkdirAll] of the directory. *)
Definition ReadDir (o : os) : option (list (name * dirent)) * os :=
  let '(x, o) := pop o in
  if failed x then (None, o) else (Some (map_to_list (files o)), o).

Definition ReadFile (n : name) (o : os) : option (list byte) * os :=
  let '(x, o) := pop o in
  if failed x then (None, o)
  else match files o !! n with Some (File c) => (Some c, o) | _ => (None, o) end.

Definition MkdirAll (o : os) : bool * os := let '(x, o) := pop o in (failed x, o).

(** ** Lemmas *)

Lemma pop_files o : files (pop o).2 = files o.
Proof. unfold pop. by destruct (faults o). Qed.

Lemma pop_fine o : faults o = [] -> pop o = (Fine, o).
Proof. unfold pop. by intros ->. Qed.

Lemma content_files o o' n : files o' = files o -> content o' n = content o n.
Proof. unfold content. by intros ->. Qed.

Lemma splice_end c b : splice c (length c) b = c ++ b.
Proof. unfold splice. rewrite firstn_all, Nat.sub_diag, drop_ge by lia. simpl. by rewrite app_nil_r. Qed.

Lemma resize_shrink n c : (n <= length c)%nat -> resize_to n c = take n c.
Proof. unfold resize_to. intros Hn. replace (n - length c)%nat with 0%nat by lia. apply app_nil_r. Qed.

(** ** What each call does to the directory *)

Lemma pop_inv o x o' : pop o = (x, o') -> files o' = files o.
Proof. intros E. by rewrite <-(pop_files o), E. Qed.

Lemma content_put n c o : is_Some (files o !! n) -> content (put_content n c o) n = c.
Proof. intros [e He]. unfold content, put_content; simpl. by rewrite lookup_alter_eq, He. Qed.

Ltac os_call :=
  repeat match goal with
  | |- context [pop ?o] =>
      let x := fresh "x" in let o' := fresh "o" in let E := fresh "E" in let F := fresh "F" in
      destruct (pop o) as [x o'] eqn:E; pose proof (pop_inv _ _ _ E) as F; clear E
  end.

Lemma File_Write_spec f b o f' bad o' : File_Write f b o = (f', bad, o') ->
  (fclosed f = true /\ bad = true /\ f' = f /\ o' = o) \/
  (fclosed f = false /\ exists k, (bad = false -> take k b = b) /\ f' = MkFile (fname f) (foff f + length (take k b)) false /\
     files o' = alter (fun _ => File (splice (content o (fname f)) (foff f) (take k b))) (fname f) (files o)).
Proof.
  unfold File_Write. destruct (fclosed f); [intros [= <- <- <-]; by left|]. os_call.
  intros [= <- <- <-]. right. split; [done|]. unfold put_content; simpl. rewrite (content_files _ _ _ F), F.
  destruct x as [|n]; [exists (length b); by rewrite firstn_all|exists n; done].
Qed.

Lemma File_Sync_spec f o bad o' : File_Sync f o = (bad, o') -> files o' = files o.
Proof. unfold File_Sync. destruct (fclosed f); [by intros [= <- <-]|]. os_call. by intros [= <- <-]. Qed.

Lemma File_Truncate_spec f size o bad o' : File_Truncate f size o = (bad, o') ->
  (bad = true /\ files o' = files o) \/
  (bad = false /\ fclosed f = false /\
   files o' = alter (fun _ => File (resize_to size (content o (fname f)))) (fname f) (files o)).
Proof.
  unfold File_Truncate. destruct (fclosed f); [intros [= <- <-]; by left|]. os_call.
  destruct (failed x); intros [= <- <-]; [by left|right]. unfold put_content; simpl.
  by rewrite (content_files _ _ _ F), F.
Qed.

Lemma File_SeekStart_spec f off o f' bad o' : File_SeekStart f off o = (f', bad, o') ->
  files o' = files o /\ (bad = false -> f' = MkFile (fname f) off false).
Proof.
  unfold File_SeekStart. destruct (fclosed f); [by intros [= <- <- <-]|]. os_call.
  by destruct (failed x); intros [= <- <- <-].
Qed.

Lemma File_SeekEnd_spec f o f' size bad o' : File_SeekEnd f o = (f', size, bad, o') ->
  files o' = files o /\
  (bad = false -> size = length (content o (fname f)) /\ f' = MkFile (fname f) size false).
Proof.
  unfold File_SeekEnd. destruct (fclosed f); [by intros [= <- <- <- <-]|]. os_call.
  rewrite (content_files _ _ _ F). by destruct (failed x); intros [= <- <- <- <-].
Qed.

Lemma File_Close_spec f o f' bad o' : File_Close f o = (f', bad, o') ->
  files o' = files o /\ fname f' = fname f /\ fclosed f' = true.
Proof.
  unfold File_Close. destruct (fclosed f) eqn:E; [by intros [= <- <- <-]|]. os_call. by intros [= <- <- <-].
Qed.

Lemma create_files n o :
  files (create n o) = match files o !! n with None => <[n := File []]> (files o) | Some _ => files o end.
Proof. unfold create. by destruct (files o !! n). Qed.

Lemma OpenFile_spec n o f o' : OpenFile n o = (f, o') ->
  (files o' = files o \/ files o' = files (create n o)) /\
  (forall g, f = Some g -> g = MkFile n 0 false /\ files o' = files (create n o) /\ files o !! n <> Some Dir).
Proof.
  unfold OpenFile. os_call. assert (files (create n o0) = files (create n o)) as Ec by (by rewrite !create_files, F).
  destruct x as [|[|k]].
  - rewrite F. destruct (files o !! n) as [[|c]|] eqn:E; intros [= <- <-].
    + split; [by left|done].
    + split; [by right|]. intros g [= <-]. by rewrite Ec.
    + split; [by right|]. intros g [= <-]. by rewrite Ec.
  - intros [= <- <-]. split; [by left|done].
  - intros [= <- <-]. split; [by right|done].
Qed.

Lemma Truncate_spec n size o t o' : Truncate n size o = (t, o') ->
  match t with
  | TruncateOk => exists c, files o !! n = Some (File c) /\
                            files o' = alter (fun _ => File (resize_to size c)) n (files o)
  | TruncateNotExist => files o !! n = None /\ files o' = files o
  | TruncateFailed => files o' = files o
  end.
Proof.
  unfold Truncate. os_call. destruct (failed x); [by intros [= <- <-]|]. rewrite F.
  destruct (files o !! n) as [[|c]|] eqn:E; intros [= <- <-]; [done| |done].
  exists c. split; [done|]. unfold put_content; simpl. by rewrite F.
Qed.

Lemma Remove_spec n o : files (Remove n o) = files o \/ files (Remove n o) = delete n (files o).
Proof.
  unfold Remove. os_call. destruct (failed x); [by left|]. rewrite F.
  destruct (files o !! n) as [[]|]; simpl; rewrite ?F; auto.
Qed.
