(* ===== verification/Disk.v ===== *)
(** * The durable store: [internal/storage/disk.go]

    [Disk] is the state of the store and [os] that of its directory; every
    operation takes both, and any call to the operating system may fail.  A
    method holds the store's lock throughout, so it is one step. *)

From S2P Require Import Prelude GoTime GoBytes Ident Value Span Codec Frame Query.
From S2P Require Memory.
From S2P Require Import GoStrings Os.

(** ** State *)

Inductive disk_error :=
| DInvalid (i : nat) (e : span_error)
| DClosed
| DCloseSegment
| DRepair (hour : Z)
| DOpen (hour : Z)
| DSeek (hour : Z)
| DTooLarge (i : nat) (size : Z)
| DAppend
| DSync
| DRollback (cause : disk_error)
| DStore (e : Memory.write_error)
| DCreate
| DList
| DRead (hour : Z)
| DTruncateTail (hour : Z)
| ErrCorruptSegment (hour : Z) (offset : nat) (e : record_error)
| ErrCorruptSegmentSpans (hour : Z) (e : Memory.write_error).

(** [type Disk struct].  The directory is [os]; [buf] is scratch space. *)
Record Disk : Type := MkDisk {
  mem : Memory.Memory;
  dretention : Duration;
  dclosed : bool;
  seg : option file;
  segHour : Z;
  segSize : nat;
  dirty : bool;
  dirtyHour : Z;
  dirtySize : nat;
}.

Definition set_mem (m : Memory.Memory) (d : Disk) : Disk :=
  MkDisk m (dretention d) (dclosed d) (seg d) (segHour d) (segSize d) (dirty d) (dirtyHour d) (dirtySize d).
Definition set_seg (f : option file) (d : Disk) : Disk :=
  MkDisk (mem d) (dretention d) (dclosed d) f (segHour d) (segSize d) (dirty d) (dirtyHour d) (dirtySize d).
Definition set_segSize (n : nat) (d : Disk) : Disk :=
  MkDisk (mem d) (dretention d) (dclosed d) (seg d) (segHour d) n (dirty d) (dirtyHour d) (dirtySize d).
Definition set_clean (d : Disk) : Disk :=
  MkDisk (mem d) (dretention d) (dclosed d) (seg d) (segHour d) (segSize d) false (dirtyHour d) (dirtySize d).
Definition set_open (f : file) (hour : Z) (size : nat) (d : Disk) : Disk :=
  MkDisk (mem d) (dretention d) (dclosed d) (Some f) hour size (dirty d) (dirtyHour d) (dirtySize d).

(** ** Segments *)

Definition segmentPrefix : name := list_byte_of_string "spans-".
Definition segmentSuffix : name := list_byte_of_string ".seg".

(** [d.now().Unix() / 3600]. *)
Definition hour_of (now : Time) : Z := go_div (Time.Unix now) 3600.

(** [func (d *Disk) path(hour int64) string], within the directory. *)
Definition path (hour : Z) : name := segmentPrefix ++ FormatInt hour ++ segmentSuffix.

(** The body of the loop of [segments]: the hour in a directory entry. *)
Definition segment_hour (e : name * dirent) : option Z :=
  match e with
  | (_, Dir) => None
  | (n, File _) =>
      if HasPrefix n segmentPrefix && HasSuffix n segmentSuffix
      then ParseInt (TrimSuffix (TrimPrefix n segmentPrefix) segmentSuffix)
      else None
  end.

(** [func (d *Disk) segments() ([]int64, error)]. *)
Definition segments (o : os) : option (list Z) * os :=
  let '(entries, o) := ReadDir o in
  (sort_func Z.compare ∘ omap segment_hour <$> entries, o).

(** ** Opening *)

(** The end of [replay]: the spans read go to memory. *)
Definition load (m : Memory.Memory) (hour : Z) (spans : list Span) (o : os)
    : Memory.Memory * os * option disk_error :=
  match spans with
  | [] => (m, o, None)
  | _ => let '(m, e) := Memory.Write m spans in (m, o, ErrCorruptSegmentSpans hour <$> e)
  end.

(** [func (d *Disk) replay(hour int64, last bool) error].  [intactPrefix]
    always returns. *)
Definition replay (m : Memory.Memory) (o : os) (hour : Z) (last : bool)
    : Memory.Memory * os * option disk_error :=
  let '(data, o) := ReadFile (path hour) o in
  match data with
  | None => (m, o, Some (DRead hour))
  | Some data =>
      let '(spans, good, err) := default ([], 0%nat, None) (intactPrefix data) in
      match err with
      | None => load m hour spans o
      | Some e =>
          if last then
            match Truncate (path hour) good o with
            | (TruncateOk, o) => load m hour spans o
            | (_, o) => (m, o, Some (DTruncateTail hour))
            end
          else (m, o, Some (ErrCorruptSegment hour good e))
      end
  end.

(** The loop of [OpenDisk] over the segments. *)
Fixpoint replay_all (m : Memory.Memory) (o : os) (hours : list Z)
    : Memory.Memory * os * option disk_error :=
  match hours with
  | [] => (m, o, None)
  | hour :: hours' =>
      let '(m, o, e) := replay m o hour (bool_decide (hours' = [])) in
      match e with
      | Some e => (m, o, Some e)
      | None => replay_all m o hours'
      end
  end.

(** The deletions of [EvictExpired], for the cutoff hour [cutoff]. *)
Definition remove_segment (d : Disk) (cutoff : Z) (o : os) (hour : Z) : os :=
  if (cutoff <? hour + 1) || (bool_decide (is_Some (seg d)) && (hour =? segHour d)) then o
  else Remove (path hour) o.

Definition evict_segments (d : Disk) (cutoff : Z) (o : os) : os :=
  match segments o with
  | (None, o) => o
  | (Some hours, o) => foldl (remove_segment d cutoff) o hours
  end.

(** The two halves of [EvictExpired]: the expired traces go from memory under
    the lock of the in-memory store alone; then the clock is read again, [mu]
    taken, and the old segments deleted.  Other calls may come in between; one
    that comes between the append of a [Write] and its insertion into memory
    is as good as one before it. *)
Definition evict_memory (d : Disk) (now : Time) : Disk * Z :=
  let '(m, evicted) := Memory.EvictExpired (mem d) now in (set_mem m d, evicted).

Definition evict_disk (d : Disk) (now' : Time) (o : os) : os :=
  if dretention d <=? 0 then o else evict_segments d (hour_of (Time.Add now' (- dretention d))) o.

(** [func (d *Disk) EvictExpired() int], with nothing in between. *)
Definition EvictExpired (d : Disk) (now now' : Time) (o : os) : Disk * os * Z :=
  let '(d, evicted) := evict_memory d now in (d, evict_disk d now' o, evicted).

(** [func OpenDisk(dir, retention, now) ( *Disk, error)]. *)
Definition OpenDisk (retention : Duration) (now now' : Time) (o : os) : result disk_error Disk * os :=
  let '(bad, o) := MkdirAll o in
  if bad then (Err DCreate, o)
  else
    match segments o with
    | (None, o) => (Err DList, o)
    | (Some hours, o) =>
        match replay_all (Memory.NewMemory retention) o hours with
        | (_, o, Some e) => (Err e, o)
        | (m, o, None) =>
            let '(d, o, _) := EvictExpired (MkDisk m retention false None (-1) 0 false 0 0) now now' o in
            (Ok d, o)
        end
    end.

(** ** Appending *)

(** [func (d *Disk) repair() error]. *)
Definition repair (d : Disk) (o : os) : Disk * os * option disk_error :=
  match Truncate (path (dirtyHour d)) (dirtySize d) o with
  | (TruncateFailed, o) => (d, o, Some (DRepair (dirtyHour d)))
  | (_, o) => (set_clean d, o, None)
  end.

(** [roll] once no segment is open. *)
Definition roll_open (d : Disk) (o : os) (hour : Z) : Disk * os * option disk_error :=
  let '(d, o, e) := if dirty d then repair d o else (d, o, None) in
  match e with
  | Some e => (d, o, Some e)
  | None =>
      match OpenFile (path hour) o with
      | (None, o) => (d, o, Some (DOpen hour))
      | (Some f, o) =>
          let '(f, size, bad, o) := File_SeekEnd f o in
          if bad then
            let '(_, _, o) := File_Close f o in
            (d, o, Some (DSeek hour))
          else (set_open f hour size d, o, None)
      end
  end.

(** [func (d *Disk) roll() error]. *)
Definition roll (d : Disk) (now : Time) (o : os) : Disk * os * option disk_error :=
  let hour := hour_of now in
  match seg d with
  | Some f =>
      if hour =? segHour d then (d, o, None)
      else
        let '(f, bad, o) := File_Close f o in
        if bad then (set_seg (Some f) d, o, Some DCloseSegment)
        else roll_open (set_seg None d) o hour
  | None => roll_open d o hour
  end.

(** [func (d *Disk) rollback(cause error) error], on the open segment [f]. *)
Definition rollback (d : Disk) (f : file) (cause : disk_error) (o : os) : Disk * os * option disk_error :=
  let '(bad, o) := File_Truncate f (segSize d) o in
  let '(f, bad, o) := if bad then (f, true, o) else File_SeekStart f (segSize d) o in
  if bad then
    let '(_, _, o) := File_Close f o in
    (MkDisk (mem d) (dretention d) (dclosed d) None (-1) (segSize d) true (segHour d) (segSize d), o,
     Some (DRollback cause))
  else (set_seg (Some f) d, o, Some cause).

(** [func (d *Disk) append(b []byte) error], on the open segment [f]. *)
Definition append (d : Disk) (f : file) (b : list byte) (o : os) : Disk * os * option disk_error :=
  let '(f, bad, o) := File_Write f b o in
  if bad then rollback d f DAppend o
  else
    let '(bad, o) := File_Sync f o in
    if bad then rollback d f DSync o
    else (set_segSize (segSize d + length b) (set_seg (Some f) d), o, None).

(** [func (d *Disk) Write(ctx, spans) error]; [None] is the nil dereference
    of a segment that is not open. *)
Definition Write (d : Disk) (now : Time) (batch : list Span) (o : os)
    : option (Disk * os * option disk_error) :=
  match Memory.first_invalid 0 batch with
  | Some (i, e) => Some (d, o, Some (DInvalid i e))
  | None =>
      if dclosed d then Some (d, o, Some DClosed)
      else
        match roll d now o with
        | (d, o, Some e) => Some (d, o, Some e)
        | (d, o, None) =>
            match frame_all 0 [] batch with
            | Err (i, size) => Some (d, o, Some (DTooLarge i size))
            | Ok b =>
                f ← seg d;
                match append d f b o with
                | (d, o, Some e) => Some (d, o, Some e)
                | (d, o, None) =>
                    let '(m, e) := Memory.Write (mem d) batch in
                    Some (set_mem m d, o, DStore <$> e)
                end
            end
        end
  end.

(** [func (d *Disk) Trace], [Find] and [Len]. *)
Definition Trace (d : Disk) (id : TraceID) : result storage_error (list Span) := Memory.Trace (mem d) id.
Definition Find (d : Disk) (q : Query) : result storage_error (list Summary) := Memory.Find (mem d) q.
Definition Len (d : Disk) : Z := Memory.Len (mem d).

(** [func (d *Disk) Close() error]; the boolean is whether it failed. *)
Definition Close (d : Disk) (o : os) : Disk * os * bool :=
  if dclosed d then (d, o, false)
  else
    let '(bad, o) :=
      match seg d with
      | None => (false, o)
      | Some f => let '(bad1, o) := File_Sync f o in
                  let '(_, bad2, o) := File_Close f o in
                  (bad1 || bad2, o)
      end in
    (MkDisk (Memory.Close (mem d)) (dretention d) true None (segHour d) (segSize d)
       (dirty d) (dirtyHour d) (dirtySize d), o, bad).
