(* ===== verification/DiskSpec.v ===== *)
(** * What a disk store's directory holds

    [shape] says what the segments of a directory contain: the records of the
    spans acknowledged for each hour, and after them only what an unfinished
    append may have left.  [dinv] ties a store to its directory; every
    operation keeps it, whichever calls to the operating system fail. *)

From S2P Require Import Prelude GoTime GoBytes Ident Value Span Codec Frame Query.
From S2P Require Memory MemorySpec.
From S2P Require Import GoStrings Os Disk.

(** ** Names of segments *)

Lemma segment_hour_path h c : in_int64 h -> segment_hour (path h, File c) = Some h.
Proof.
  intros Hh. unfold segment_hour, path. destruct (trim_prefix segmentPrefix (FormatInt h ++ segmentSuffix)) as [-> ->].
  destruct (trim_suffix segmentSuffix (segmentPrefix ++ FormatInt h)) as [E _]. rewrite app_assoc, E. clear E.
  destruct (trim_suffix segmentSuffix (FormatInt h)) as [_ ->]. by apply ParseInt_FormatInt.
Qed.

Lemma path_inj h h' : in_int64 h -> in_int64 h' -> path h = path h' -> h = h'.
Proof.
  intros Hh Hh' E. pose proof (segment_hour_path h [] Hh) as E1. rewrite E, segment_hour_path in E1 by done.
  by injection E1.
Qed.

Lemma ParseInt_range s h : ParseInt s = Some h -> in_int64 h.
Proof.
  assert (forall (u : option Decimal.uint) f, (u ← u; let i := Z.of_int (f u) in
            if bool_decide (in_int64 i) then Some i else None) = Some h -> in_int64 h) as H.
  { intros [u|] f; simpl; [|done]. case_bool_decide; [by intros [= <-]|done]. }
  unfold ParseInt. destruct s as [|b s]; [done|]. destruct b; apply H.
Qed.

Lemma segment_hour_range e h : segment_hour e = Some h -> in_int64 h.
Proof. destruct e as [n [|c]]; simpl; [done|]. destruct (_ && _); [apply ParseInt_range|done]. Qed.

(** The hours that [segments] lists. *)
Definition hours (o : os) : list Z := sort_func Z.compare (omap segment_hour (map_to_list (files o))).

Lemma hours_files o o' : files o' = files o -> hours o' = hours o.
Proof. unfold hours. by intros ->. Qed.

Lemma elem_of_hours_raw o h :
  h ∈ hours o <-> exists n e, files o !! n = Some e /\ segment_hour (n, e) = Some h.
Proof.
  unfold hours. rewrite elem_of_sort_func, list_elem_of_omap. split.
  - intros ([n e] & Hin%elem_of_map_to_list & Hs). by exists n, e.
  - intros (n & e & Hn & Hs). exists (n, e). by rewrite elem_of_map_to_list.
Qed.

(** ** The shape of a directory *)

(** What an unfinished append may leave: whole records, then something that
    does not read. *)
Definition torn (t : list byte) : Prop :=
  exists l rest, t = records l ++ rest /\ Forall good_span l /\ (rest = [] \/ unreadable rest).

Record shape (o : os) (A : Z -> list Span) (tail : Z -> list byte) : Prop := {
  sh_names : forall n e h, files o !! n = Some e -> segment_hour (n, e) = Some h -> n = path h;
  sh_content : forall h c, in_int64 h -> files o !! path h = Some (File c) -> c = records (A h) ++ tail h;
  sh_exists : forall h, A h <> [] -> in_int64 h /\ exists c, files o !! path h = Some (File c);
  sh_good : forall h, Forall good_span (A h);
}.

Lemma shape_files o o' A tail : files o' = files o -> shape o A tail -> shape o' A tail.
Proof. intros E []. split; rewrite ?E; done. Qed.

Lemma elem_of_hours o A tail h : shape o A tail ->
  h ∈ hours o <-> in_int64 h /\ exists c, files o !! path h = Some (File c).
Proof.
  intros S. rewrite elem_of_hours_raw. split.
  - intros (n & e & Hn & Hs). pose proof (segment_hour_range _ _ Hs) as Hr.
    rewrite <-(sh_names _ _ _ S n e h Hn Hs). split; [done|]. destruct e as [|c]; [done|by exists c].
  - intros (Hr & c & Hc). exists (path h), (File c). split; [done|]. by apply segment_hour_path.
Qed.

Lemma hours_NoDup o A tail : shape o A tail -> NoDup (hours o).
Proof.
  intros S. unfold hours. rewrite sort_func_perm.
  assert (forall l : list (name * dirent), NoDup l.*1 ->
    (forall x h, x ∈ l -> segment_hour x = Some h -> x.1 = path h) -> NoDup (omap segment_hour l)) as H.
  { induction l as [|x l IH]; intros Hnd Hn; cbn [omap list_omap fmap list_fmap] in *; [constructor|].
    apply NoDup_cons in Hnd as [Hx Hnd]. specialize (IH Hnd (fun y h Hy => Hn y h (list_elem_of_further _ _ _ Hy))).
    destruct (segment_hour x) as [h|] eqn:E; [|done]. constructor; [|done].
    intros (y & Hy & Ey)%list_elem_of_omap. apply Hx. apply list_elem_of_fmap. exists y. split; [|done].
    rewrite (Hn x h), (Hn y h); [done|by right|done|by left|done]. }
  apply H; [apply NoDup_fst_map_to_list|]. intros [n e] h Hin%elem_of_map_to_list. by apply (sh_names _ _ _ S).
Qed.

(** Rewriting one segment. *)
Lemma shape_put o A tail h c A' tail' :
  shape o A tail -> in_int64 h -> is_Some (files o !! path h) -> (files o !! path h <> Some Dir) ->
  c = records (A' h) ++ tail' h -> Forall good_span (A' h) ->
  (forall h', h' <> h -> A' h' = A h' /\ tail' h' = tail h') ->
  forall o', files o' = alter (fun _ => File c) (path h) (files o) -> shape o' A' tail'.
Proof.
  intros [S1 S2 S3 S4] Hh [e He] Hdir Hc Hg Hother o' Ho'. destruct e as [|c0]; [done|]. split; rewrite ?Ho'.
  - intros n e h' Hn Hs. destruct (decide (n = path h)) as [->|Hne].
    + rewrite lookup_alter_eq, He in Hn. injection Hn as <-. rewrite segment_hour_path in Hs by done.
      by injection Hs as <-.
    + rewrite lookup_alter_ne in Hn by done. by eapply S1.
  - intros h' c' Hh'. destruct (decide (h' = h)) as [->|Hne].
    + rewrite lookup_alter_eq, He. by intros [= <-].
    + destruct (Hother h' Hne) as [-> ->]. rewrite lookup_alter_ne; [by apply S2|].
      intros E. by apply Hne, path_inj.
  - intros h' Hh'. destruct (decide (h' = h)) as [->|Hne].
    + split; [done|]. rewrite lookup_alter_eq, He. by eexists.
    + destruct (Hother h' Hne) as [E _]. rewrite E in Hh'. destruct (S3 h' Hh') as [Hr Hex]. split; [done|].
      rewrite lookup_alter_ne; [done|]. intros E'. by apply Hne, path_inj.
  - intros h'. destruct (decide (h' = h)) as [->|Hne]; [done|]. by destruct (Hother h' Hne) as [-> _].
Qed.

Lemma shape_create o A tail h :
  shape o A tail -> in_int64 h -> (files o !! path h = None -> tail h = []) -> shape (create (path h) o) A tail.
Proof.
  intros [S1 S2 S3 S4] Hh Ht. destruct (files o !! path h) as [e|] eqn:E.
  { apply (shape_files o); [by rewrite create_files, E|by split]. }
  assert (A h = []) as HA.
  { destruct (A h) eqn:EA; [done|]. destruct (S3 h) as (_ & c & Hc); [by rewrite EA|congruence]. }
  split; rewrite ?create_files, ?E; [| | |done].
  - intros n e h' [[<- <-]|[_ Hn]]%lookup_insert_Some Hs; [|by eapply S1].
    rewrite segment_hour_path in Hs by done. by injection Hs as <-.
  - intros h' c Hh' [[Ep [= <-]]|[_ Hn]]%lookup_insert_Some; [|by apply S2].
    apply path_inj in Ep as <-; [|done..]. by rewrite HA, Ht by done.
  - intros h' Hh'. destruct (S3 h' Hh') as (Hr & c & Hc). split; [done|]. exists c.
    rewrite lookup_insert_ne; [done|]. intros Ep. congruence.
Qed.

(** Removing segments forgets what they held. *)
Definition surviving (o : os) (A : Z -> list Span) (h : Z) : list Span :=
  match files o !! path h with Some (File _) => A h | _ => [] end.

Lemma surviving_ext o o' A : files o' = files o -> surviving o' A = surviving o A.
Proof. unfold surviving. by intros ->. Qed.

Lemma shape_remove o o' A tail :
  shape o A tail -> files o' ⊆ files o -> shape o' (surviving o' A) tail.
Proof.
  intros [S1 S2 S3 S4] Hsub. split.
  - intros n e h Hn. by eapply S1, lookup_weaken.
  - intros h c Hh Hc. unfold surviving. rewrite Hc. eapply S2; [done|]. by eapply lookup_weaken.
  - intros h. unfold surviving. destruct (files o' !! path h) as [[|c]|] eqn:E; [done| |done].
    intros HA. split; [by apply S3|by eexists].
  - intros h. unfold surviving. destruct (files o' !! path h) as [[|c]|]; [constructor|done|constructor].
Qed.

(** ** The invariant *)

Definition isfile (o : os) (h : Z) : Prop := in_int64 h /\ exists c, files o !! path h = Some (File c).

Lemma isfile_files o o' h : files o' = files o -> isfile o' h <-> isfile o h.
Proof. unfold isfile. by intros ->. Qed.

Lemma isfile_alter o o' c n h : files o !! n <> Some Dir ->
  files o' = alter (fun _ => File c) n (files o) -> isfile o' h <-> isfile o h.
Proof.
  intros Hn E. unfold isfile. rewrite E. destruct (decide (n = path h)) as [->|Hne].
  - rewrite lookup_alter_eq. destruct (files o !! path h) as [[|c0]|]; [done| |naive_solver].
    split; intros [Hh _]; (split; [done|by eexists]).
  - by rewrite lookup_alter_ne.
Qed.

(** [l] is acknowledged in the segment of [h]. *)
Definition ack (A : Z -> list Span) (h : Z) (l : list Span) (h' : Z) : list Span :=
  if h' =? h then A h' ++ l else A h'.

(** Only the dirty segment has a tail. *)
Definition tail_of (d : Disk) (junk : list byte) (h : Z) : list byte :=
  if dirty d && (h =? dirtyHour d) then junk else [].

Record dinv (d : Disk) (o : os) (A : Z -> list Span) : Prop := {
  di_shape : exists junk, torn junk /\ shape o A (tail_of d junk);
  di_seg : forall f, seg d = Some f ->
    dirty d = false /\ in_int64 (segHour d) /\ fname f = path (segHour d) /\ isfile o (segHour d) /\
    segSize d = length (records (A (segHour d))) /\ (fclosed f = false -> foff f = segSize d);
  di_dirty : dirty d = true -> in_int64 (dirtyHour d) /\
    (isfile o (dirtyHour d) -> dirtySize d = length (records (A (dirtyHour d))));
  di_closed : Memory.closed (mem d) = dclosed d;
}.

Lemma torn_nil : torn [].
Proof. exists [], []. split_and!; [done|constructor|by left]. Qed.

Lemma torn_records l : Forall good_span l -> torn (records l).
Proof. intros Hl. exists l, []. rewrite app_nil_r. split_and!; [done..|by left]. Qed.

Lemma torn_take k l : Forall good_span l -> torn (take k (records l)).
Proof.
  intros Hl. destruct (take_records l Hl k) as (j & rest & -> & Hr & _). exists (take j l), rest.
  split_and!; [done|by apply Forall_take|done].
Qed.

Lemma shape_tail_ext o A t t' : (forall h, in_int64 h -> t' h = t h) -> shape o A t -> shape o A t'.
Proof. intros E []. split; auto. intros h c Hh. rewrite E by done. auto. Qed.

Lemma dinv_files d o o' A : files o' = files o -> dinv d o A -> dinv d o' A.
Proof.
  intros E [(junk & Ht & S) I2 I3 I4]. split; [| | |done].
  - exists junk. split; [done|]. by apply (shape_files o).
  - intros f Hf. rewrite (isfile_files o) by done. by apply I2.
  - intros Hd. rewrite (isfile_files o) by done. by apply I3.
Qed.

(** A store that is not dirty. *)
Lemma dinv_clean d o A :
  dirty d = false -> shape o A (fun _ => []) ->
  (forall f, seg d = Some f -> in_int64 (segHour d) /\ fname f = path (segHour d) /\ isfile o (segHour d) /\
    segSize d = length (records (A (segHour d))) /\ (fclosed f = false -> foff f = segSize d)) ->
  Memory.closed (mem d) = dclosed d -> dinv d o A.
Proof.
  intros Hd S Hseg Hc. split; [|intros f Hf; split; [done|by apply Hseg]|by rewrite Hd|done].
  exists []. split; [apply torn_nil|]. eapply shape_tail_ext; [|done]. intros h _. unfold tail_of. by rewrite Hd.
Qed.

Lemma dinv_shape_clean d o A : dirty d = false -> dinv d o A -> shape o A (fun _ => []).
Proof.
  intros Hd [(junk & _ & S) _ _ _]. eapply shape_tail_ext; [|done]. intros h _. unfold tail_of. by rewrite Hd.
Qed.

(** What an operation leaves alone. *)
Definition same_store (d d' : Disk) : Prop :=
  mem d' = mem d /\ dretention d' = dretention d /\ dclosed d' = dclosed d.

(** ** Rolling back and appending *)

Lemma rollback_spec d f cause o A t d' o' e :
  dirty d = false -> Memory.closed (mem d) = dclosed d -> in_int64 (segHour d) ->
  fname f = path (segHour d) -> isfile o (segHour d) -> segSize d = length (records (A (segHour d))) ->
  torn t -> shape o A (fun h => if h =? segHour d then t else []) ->
  rollback d f cause o = (d', o', e) ->
  e <> None /\ dinv d' o' A /\ same_store d d' /\ (forall h, isfile o' h <-> isfile o h) /\
  (dirty d' = true -> dirtyHour d' = segHour d) /\ (seg d' <> None -> segHour d' = segHour d).
Proof.
  intros Hd Hc Hh Hf (_ & c0 & Hfile) Hsize Ht S. unfold rollback.
  assert (content o (fname f) = records (A (segHour d)) ++ t) as Hcont.
  { unfold content. rewrite Hf, Hfile. apply (sh_content _ _ _ S) in Hfile; [|done]. by rewrite Z.eqb_refl in Hfile. }
  assert (forall o1 t1, torn t1 -> shape o1 A (fun h => if h =? segHour d then t1 else []) -> 
            dinv (MkDisk (mem d) (dretention d) (dclosed d) None (-1) (segSize d) true (segHour d) (segSize d)) o1 A)
    as Hdirty.
  { intros o1 t1 Ht1 S1. split; simpl; [|done|done|done]. exists t1. split; [done|].
    eapply shape_tail_ext; [|exact S1]. intros h _. done. }
  destruct (File_Truncate f (segSize d) o) as [bad o1] eqn:E1.
  apply File_Truncate_spec in E1 as [[-> Fo1]|(-> & _ & Fo1)].
  - destruct (File_Close f o1) as [[f2 bad2] o2] eqn:E2. apply File_Close_spec in E2 as (Fo2 & _).
    intros [= <- <- <-]. split_and!; [done| |done| |done|done].
    + apply (dinv_files _ o); [congruence|]. by apply (Hdirty o t).
    + intros h. apply isfile_files. congruence.
  - rewrite Hcont, Hsize, resize_shrink, take_app_length in Fo1 by (rewrite length_app; lia). rewrite Hf in Fo1.
    assert (files o !! path (segHour d) <> Some Dir) as Hnd by congruence.
    assert (shape o1 A (fun _ => [])) as S1.
    { eapply (shape_put o A _ (segHour d) _ A); [done..|by eexists|done|by rewrite app_nil_r|apply (sh_good _ _ _ S)| |done].
      intros h' Hne%Z.eqb_neq. cbv beta. by rewrite Hne. }
    assert (forall h, isfile o1 h <-> isfile o h) as Hi by (intros; by eapply isfile_alter).
    destruct (File_SeekStart f (segSize d) o1) as [[f2 bad2] o2] eqn:E2.
    apply File_SeekStart_spec in E2 as (Fo2 & Hf2). destruct bad2.
    + destruct (File_Close f2 o2) as [[f3 bad3] o3] eqn:E3. apply File_Close_spec in E3 as (Fo3 & _).
      intros [= <- <- <-]. split_and!; [done| |done| |done|done].
      * apply (dinv_files _ o1); [congruence|]. apply (Hdirty o1 []); [apply torn_nil|].
        eapply shape_tail_ext; [|exact S1]. intros h _. by destruct (h =? segHour d).
      * intros h. rewrite <-Hi. apply isfile_files. congruence.
    + intros [= <- <- <-]. rewrite Hf2 by done. split_and!; [done| |done| |simpl; congruence|done].
      * apply (dinv_files _ o1); [done|]. apply dinv_clean; [done..| |done]. intros g [= <-]; simpl.
        split_and!; [done..| |done|done]. apply Hi. by split; [|eexists].
      * intros h. rewrite <-Hi. by apply isfile_files.
Qed.

Lemma append_spec d f o A batch d' o' e :
  dinv d o A -> seg d = Some f -> Forall good_span batch -> append d f (records batch) o = (d', o', e) ->
  match e with
  | None => dinv d' o' (ack A (segHour d) batch) /\ dirty d' = false
  | Some _ => dinv d' o' A
  end /\ same_store d d' /\ (forall h, isfile o' h <-> isfile o h) /\
  (dirty d' = true -> dirtyHour d' = segHour d) /\ (seg d' <> None -> segHour d' = segHour d).
Proof.
  intros I Hf Hg. destruct (di_seg _ _ _ I f Hf) as (Hd & Hh & Hname & Hfile & Hsize & Hoff).
  pose proof (dinv_shape_clean _ _ _ Hd I) as S. pose proof (di_closed _ _ _ I) as Hc.
  assert (forall t, torn t -> forall f1 o1 cause, fname f1 = path (segHour d) -> shape o1 A (fun h => if h =? segHour d then t else []) ->
            (forall h, isfile o1 h <-> isfile o h) -> rollback d f1 cause o1 = (d', o', e) ->
            match e with None => dinv d' o' (ack A (segHour d) batch) /\ dirty d' = false | Some _ => dinv d' o' A end /\ same_store d d' /\
            (forall h, isfile o' h <-> isfile o h) /\
            (dirty d' = true -> dirtyHour d' = segHour d) /\ (seg d' <> None -> segHour d' = segHour d)) as Hroll.
  { intros t Ht f1 o1 cause Hn1 S1 Hi1 E. pose proof (proj2 (Hi1 _) Hfile) as Hfile1.
    destruct (rollback_spec d f1 cause o1 A t d' o' e Hd Hc Hh Hn1 Hfile1 Hsize Ht S1 E)
      as (Hne & I' & Hs & Hi & R). split; [by destruct e|]. split; [done|]. split; [|done]. intros h. by rewrite Hi. }
  unfold append. destruct (File_Write f (records batch) o) as [[f1 bad] o1] eqn:E1.
  apply File_Write_spec in E1 as [(_ & -> & -> & ->)|(Hcl & k & Hk & -> & Fo1)].
  { apply (Hroll []); [apply torn_nil|done| |done]. eapply shape_tail_ext; [|exact S].
    intros h _. by destruct (h =? segHour d). }
  assert (content o (fname f) = records (A (segHour d))) as Hcont.
  { destruct Hfile as (_ & c & E). unfold content. rewrite Hname, E. apply (sh_content _ _ _ S) in E; [|done].
    by rewrite app_nil_r in E. }
  assert (files o !! path (segHour d) <> Some Dir /\ is_Some (files o !! path (segHour d))) as [Hnd Hsome]
    by (destruct Hfile as (_ & c & ->); split; [done|by eexists]).
  rewrite (Hoff Hcl), Hsize, Hcont, splice_end, Hname in Fo1.
  set (t := take k (records batch)) in *. assert (torn t) as Ht by by apply torn_take.
  assert (forall h, isfile o1 h <-> isfile o h) as Hi by (intros; by eapply isfile_alter).
  assert (forall A' t', records (A' (segHour d)) ++ t' = records (A (segHour d)) ++ t -> Forall good_span (A' (segHour d)) ->
            (forall h, h <> segHour d -> A' h = A h) -> shape o1 A' (fun h => if h =? segHour d then t' else [])) as S1.
  { intros A' t' E HgA HA. eapply (shape_put o A _ (segHour d)); [done..| |done| |done].
    - cbv beta. by rewrite Z.eqb_refl.
    - intros h Hne. split; [by apply HA|]. cbv beta. apply Z.eqb_neq in Hne. by rewrite Hne. }
  destruct bad.
  { apply (Hroll t); [done|done| |done]. apply S1; [done|apply (sh_good _ _ _ S)|done]. }
  destruct (File_Sync _ o1) as [bad o2] eqn:E2. apply File_Sync_spec in E2.
  assert (forall h, isfile o2 h <-> isfile o h) as Hi2 by (intros h; rewrite <-Hi; by apply isfile_files).
  destruct bad.
  { apply (Hroll t); [done|done| |done]. apply (shape_files o1); [done|]. apply S1; [done|apply (sh_good _ _ _ S)|done]. }
  intros [= <- <- <-]. split; [|split_and!; [done..|exact Hi2|simpl; congruence|done]].
  split; [|done]. apply (dinv_files _ o1); [done|]. apply dinv_clean; [done| | |done].
  - eapply shape_tail_ext; [|apply (S1 (ack A (segHour d) batch) [])].
    + intros h _. cbv beta. change (segHour _) with (segHour d). by destruct (h =? segHour d).
    + unfold ack. cbv beta. rewrite Z.eqb_refl, records_app, app_nil_r. by rewrite Hk.
    + unfold ack. rewrite Z.eqb_refl. apply Forall_app. split; [apply (sh_good _ _ _ S)|done].
    + intros h Hne%Z.eqb_neq. unfold ack. by rewrite Hne.
  - intros g [= <-]; simpl. unfold ack. rewrite Z.eqb_refl, records_app, length_app. split_and!; [done|done|by apply Hi|lia|].
    intros _. rewrite Hoff, Hk by done. lia.
Qed.

(** ** Rolling *)

Lemma dirty_no_seg d o A : dinv d o A -> dirty d = true -> seg d = None.
Proof.
  intros I Hd. destruct (seg d) as [f|] eqn:E; [|done]. destruct (di_seg _ _ _ I f E) as [? _]. congruence.
Qed.

Lemma repair_spec d o A d' o' e :
  dinv d o A -> dirty d = true -> repair d o = (d', o', e) ->
  dinv d' o' A /\ (forall h, isfile o' h <-> isfile o h) /\
  (e = None /\ d' = set_clean d \/ e <> None /\ d' = d).
Proof.
  intros I Hd. pose proof (dirty_no_seg _ _ _ I Hd) as Hseg.
  destruct (di_dirty _ _ _ I Hd) as [Hh Hsize]. destruct (di_shape _ _ _ I) as (junk & Ht & S).
  unfold repair. destruct (Truncate (path (dirtyHour d)) (dirtySize d) o) as [t o1] eqn:E.
  apply Truncate_spec in E. destruct t.
  - destruct E as (c & Hc & Fo). intros [= <- <- <-].
    assert (forall h, isfile o1 h <-> isfile o h) as Hi by (intros; eapply isfile_alter; [|done]; congruence).
    split; [|split; [done|by left]]. apply dinv_clean; [done| |simpl; by rewrite Hseg|apply (di_closed _ _ _ I)].
    pose proof (sh_content _ _ _ S _ _ Hh Hc) as Ec. rewrite Hsize in Fo by (split; [done|by eexists]).
    rewrite Ec, resize_shrink, take_app_length in Fo by (rewrite length_app; lia).
    eapply (shape_put o A _ (dirtyHour d) _ A); [done|done|by eexists|congruence| |apply (sh_good _ _ _ S)| |done].
    + by rewrite app_nil_r.
    + intros h Hne%Z.eqb_neq. unfold tail_of. by rewrite Hne, andb_false_r.
  - destruct E as (Hc & Fo). intros [= <- <- <-].
    split; [|split; [intros; by apply isfile_files|by left]].
    apply (dinv_files _ o); [done|]. apply dinv_clean; [done| |simpl; by rewrite Hseg|apply (di_closed _ _ _ I)].
    destruct S as [S1 S2 S3 S4]. split; [done| |done|done]. intros h c Hhr Hf.
    rewrite (S2 h c Hhr Hf). unfold tail_of. rewrite Hd. simpl. destruct (Z.eqb_spec h (dirtyHour d)); [congruence|done].
  - intros [= <- <- <-]. split; [by apply (dinv_files _ o)|]. split; [intros; by apply isfile_files|by right].
Qed.

(** What [roll] does to the store's notion of the current segment. *)
Record rolled (d : Disk) (o : os) (hour : Z) (d' : Disk) (o' : os) : Prop := {
  ro_store : same_store d d';
  ro_keeps : forall h, isfile o h -> isfile o' h;
  ro_adds : forall h, isfile o' h -> isfile o h \/ h = hour;
  ro_seg : seg d' <> None -> segHour d' = hour \/
    (seg d <> None /\ segHour d' = segHour d /\ forall h, isfile o' h -> isfile o h);
  ro_dirty : dirty d' = true -> dirty d = true /\ dirtyHour d' = dirtyHour d /\
    forall h, isfile o' h -> isfile o h;
}.

Lemma isfile_create o h h' : in_int64 h -> isfile (create (path h) o) h' -> isfile o h' \/ h' = h.
Proof.
  unfold isfile. rewrite create_files. destruct (files o !! path h) as [e|] eqn:E; [by left|].
  intros Hh (Hh' & c & [[Ep _]|[_ Hc]]%lookup_insert_Some); [right; symmetry; by apply path_inj|left].
  split; [done|by exists c].
Qed.

Lemma isfile_create_old o h h' : isfile o h' -> isfile (create (path h) o) h'.
Proof.
  unfold isfile. rewrite create_files. destruct (files o !! path h) as [e|] eqn:E; [done|].
  intros (Hh' & c & Hc). split; [done|]. exists c. rewrite lookup_insert_ne by congruence. done.
Qed.

Lemma isfile_create_new o h : in_int64 h -> files o !! path h <> Some Dir -> isfile (create (path h) o) h.
Proof.
  unfold isfile. rewrite create_files. intros Hh Hd. split; [done|].
  destruct (files o !! path h) as [[|c]|] eqn:E; [done|by exists c|]. rewrite lookup_insert_eq. by eexists.
Qed.

Lemma dinv_create d o A h : dinv d o A -> dirty d = false -> in_int64 h -> dinv d (create (path h) o) A.
Proof.
  intros I Hd Hh. apply dinv_clean; [done| | |apply (di_closed _ _ _ I)].
  - by apply shape_create; [apply (dinv_shape_clean d)| |].
  - intros f Hf. destruct (di_seg _ _ _ I f Hf) as (_ & ? & ? & ? & ?).
    split_and!; [done..|by apply isfile_create_old|naive_solver|naive_solver].
Qed.

(** Opening the segment of the hour, once the store is clean. *)
Lemma open_spec d o A hour d' o' e :
  dinv d o A -> seg d = None -> dirty d = false -> in_int64 hour ->
  (match OpenFile (path hour) o with
   | (None, o) => (d, o, Some (DOpen hour))
   | (Some f, o) =>
       let '(f, size, bad, o) := File_SeekEnd f o in
       if bad then let '(_, _, o) := File_Close f o in (d, o, Some (DSeek hour))
       else (set_open f hour size d, o, None)
   end) = (d', o', e) ->
  dinv d' o' A /\ rolled d o hour d' o' /\
  (e = None -> segHour d' = hour /\ is_Some (seg d') /\ dirty d' = false).
Proof.
  intros I Hseg Hd Hh.
  assert (forall o1, files o1 = files o \/ files o1 = files (create (path hour) o) ->
            dinv d o1 A /\ rolled d o hour d o1) as Hfail.
  { intros o1 Ho1. assert (forall h, (isfile o h -> isfile o1 h) /\ (isfile o1 h -> isfile o h \/ h = hour)) as Hi.
    { intros h. destruct Ho1 as [E|E]; rewrite (isfile_files _ _ _ E); [auto|].
      split; [apply isfile_create_old|by apply isfile_create]. }
    split; [|split; [done|apply Hi..|by rewrite Hseg|by rewrite Hd]].
    destruct Ho1 as [E|E]; apply (dinv_files _ _ _ _ E); [done|by apply dinv_create]. }
  destruct (OpenFile (path hour) o) as [[f|] o1] eqn:E; apply OpenFile_spec in E as [Ho1 Hf].
  2:{ intros [= <- <- <-]. destruct (Hfail o1 Ho1). split_and!; done. }
  destruct (Hf f eq_refl) as (-> & Fo1 & Hnd).
  destruct (File_SeekEnd _ o1) as [[[f2 size] bad] o2] eqn:E2. apply File_SeekEnd_spec in E2 as [Fo2 Hs].
  destruct bad.
  { destruct (File_Close f2 o2) as [[f3 bad3] o3] eqn:E3. apply File_Close_spec in E3 as (Fo3 & _).
    intros [= <- <- <-]. destruct (Hfail o3) as [? ?]; [right; congruence|]. split_and!; done. }
  destruct (Hs eq_refl) as [-> ->]. intros [= <- <- <-]. destruct (Hfail o2) as [I2 R2]; [right; congruence|].
  assert (isfile o2 hour) as Hfile.
  { apply (isfile_files (create (path hour) o)); [congruence|]. by apply isfile_create_new. }
  split; [|split; [|intros _; simpl; split_and!; [done|by eexists|done]]].
  - pose proof (dinv_shape_clean _ _ _ Hd I2) as S. apply dinv_clean; [done|done| |apply (di_closed _ _ _ I)].
    intros g [= <-]; simpl. split_and!; [done..| |done].
    destruct Hfile as (_ & c & Hc). rewrite (content_files o2 o1) by done.
    unfold content. rewrite Hc. rewrite (sh_content _ _ _ S _ _ Hh Hc). by rewrite app_nil_r.
  - destruct R2 as [_ R2 R3 _ _]. split; simpl; [done..|by left|by rewrite Hd].
Qed.

Lemma roll_open_spec d o A hour d' o' e :
  dinv d o A -> seg d = None -> in_int64 hour -> roll_open d o hour = (d', o', e) ->
  dinv d' o' A /\ rolled d o hour d' o' /\
  (e = None -> segHour d' = hour /\ is_Some (seg d') /\ dirty d' = false).
Proof.
  intros I Hseg Hh. unfold roll_open. destruct (dirty d) eqn:Hd; [|by apply open_spec].
  destruct (repair d o) as [[d1 o1] e1] eqn:E. destruct (repair_spec _ _ _ _ _ _ I Hd E) as (I1 & Hi & [[-> ->]|[Hne ->]]).
  - intros E2. destruct (open_spec _ _ _ _ _ _ _ I1 Hseg eq_refl Hh E2) as (I2 & [R1 R2 R3 R4 R5] & R6).
    split; [done|]. split; [|done]. split.
    + done.
    + intros h Hf. by apply R2, Hi.
    + intros h Hf. rewrite <-Hi. by apply R3.
    + intros Hs. destruct (R4 Hs) as [?|[? _]]; [by left|done].
    + intros Hs. by destruct (R5 Hs) as [? _].
  - destruct e1 as [e1|]; [|done]. intros [= <- <- <-]. split_and!; [done| |done].
    split; [done|apply Hi|intros h Hf; left; by apply Hi|by rewrite Hseg|].
    intros _. split_and!; [done..|apply Hi].
Qed.

Lemma roll_spec d o A now d' o' e :
  dinv d o A -> in_int64 (hour_of now) -> roll d now o = (d', o', e) ->
  dinv d' o' A /\ rolled d o (hour_of now) d' o' /\
  (e = None -> segHour d' = hour_of now /\ is_Some (seg d') /\ dirty d' = false).
Proof.
  intros I Hh. unfold roll. destruct (seg d) as [f|] eqn:Hseg; [|by apply roll_open_spec].
  destruct (di_seg _ _ _ I f Hseg) as (Hd & Hh' & Hname & Hfile & Hsize & Hoff).
  destruct (Z.eqb_spec (hour_of now) (segHour d)) as [E|Hne].
  { intros [= <- <- <-]. split_and!; [done| |by rewrite Hseg]. split; [done|done|by left| |].
    - intros _. by left.
    - by rewrite Hd. }
  destruct (File_Close f o) as [[f2 bad] o1] eqn:E1. apply File_Close_spec in E1 as (Fo1 & Hn2 & Hc2).
  assert (forall h, isfile o1 h <-> isfile o h) as Hi by (intros; by apply isfile_files).
  destruct bad.
  - intros [= <- <- <-]. split_and!; [|split; simpl|done].
    + apply (dinv_files _ o); [done|]. apply dinv_clean; [done|by apply (dinv_shape_clean d)| |apply (di_closed _ _ _ I)].
      intros g [= <-]; simpl. split_and!; [done|congruence|done..|congruence].
    + done.
    + apply Hi.
    + intros h Hf. left. by apply Hi.
    + intros _. right. split_and!; [congruence|done|apply Hi].
    + by rewrite Hd.
  - intros E2.
    assert (dinv (set_seg None d) o1 A) as I1.
    { apply (dinv_files _ o); [done|]. apply dinv_clean; [done|by apply (dinv_shape_clean d)|done|apply (di_closed _ _ _ I)]. }
    destruct (roll_open_spec _ _ _ _ _ _ _ I1 eq_refl Hh E2) as (I2 & [R1 R2 R3 R4 R5] & R6).
    split_and!; [done| |done]. split.
    + done.
    + intros h Hf. by apply R2, Hi.
    + intros h Hf. rewrite <-Hi. by apply R3.
    + intros Hs. destruct (R4 Hs) as [?|[? _]]; [by left|done].
    + intros Hs. destruct (R5 Hs) as [? _]. simpl in *. congruence.
Qed.

(** ** Writing *)

(** How an operation at [hour] moves the current segment. *)
Record moved (d : Disk) (o : os) (hour : Z) (d' : Disk) (o' : os) : Prop := {
  mv_keeps : forall h, isfile o h -> isfile o' h;
  mv_adds : forall h, isfile o' h -> isfile o h \/ h = hour;
  mv_seg : seg d' <> None -> segHour d' = hour \/
    (seg d <> None /\ segHour d' = segHour d /\ forall h, isfile o' h -> isfile o h);
  mv_dirty : dirty d' = true -> dirtyHour d' = hour \/
    (dirty d = true /\ dirtyHour d' = dirtyHour d /\ forall h, isfile o' h -> isfile o h);
}.

Lemma moved_refl d o hour : moved d o hour d o.
Proof. split; [done|by left|intros; right; by split_and!|intros; right; by split_and!]. Qed.

Lemma rolled_moved d o hour d' o' : rolled d o hour d' o' -> moved d o hour d' o'.
Proof. intros [R1 R2 R3 R4 R5]. split; [done..|]. intros H. right. auto. Qed.

Lemma rolled_appended d o hour d1 o1 d' o' :
  rolled d o hour d1 o1 -> segHour d1 = hour -> dirty d1 = false ->
  (forall h, isfile o' h <-> isfile o1 h) ->
  (dirty d' = true -> dirtyHour d' = segHour d1) -> (seg d' <> None -> segHour d' = segHour d1) ->
  moved d o hour d' o'.
Proof.
  intros [R1 R2 R3 R4 R5] Hh Hd Hi Hdirty Hseg. split.
  - intros h Hf. by apply Hi, R2.
  - intros h Hf. by apply R3, Hi.
  - intros Hs. left. by rewrite Hseg.
  - intros Hs. left. by rewrite Hdirty.
Qed.

(** [Write] always returns: it stores and shows the whole batch, or leaves
    what was acknowledged and what is served as they were. *)
Lemma Write_spec d o A now batch :
  dinv d o A -> in_int64 (hour_of now) -> Forall encodable batch ->
  exists d' o' e, Write d now batch o = Some (d', o', e) /\
    moved d o (hour_of now) d' o' /\ dretention d' = dretention d /\ dclosed d' = dclosed d /\
    match e with
    | None => Forall good_span batch /\ dinv d' o' (ack A (hour_of now) batch) /\ dclosed d = false /\
              mem d' = foldl Memory.insert_span (mem d) batch /\ isfile o' (hour_of now) /\ dirty d' = false
    | Some _ => dinv d' o' A /\ mem d' = mem d
    end.
Proof.
  intros I Hh He. unfold Write. destruct (Memory.first_invalid 0 batch) as [[i err]|] eqn:Hv.
  { do 3 eexists. split; [done|]. split_and!; [apply moved_refl|done..]. }
  destruct (dclosed d) eqn:Hc. { do 3 eexists. split; [done|]. split_and!; [apply moved_refl|done..]. }
  destruct (roll d now o) as [[d1 o1] e1] eqn:Er. destruct (roll_spec _ _ _ _ _ _ _ I Hh Er) as (I1 & R & Hopen).
  pose proof (ro_store _ _ _ _ _ R) as (M1 & M2 & M3). destruct e1 as [e1|].
  { do 3 eexists. split; [done|]. split_and!; [by apply rolled_moved|done|congruence|done..]. }
  destruct (Hopen eq_refl) as (Hsh & [f Hf] & Hd1). clear Hopen.
  destruct (frame_all_spec batch 0 []) as [[Hfits ->]|(j & s & _ & _ & _ & ->)].
  2:{ do 3 eexists. split; [done|]. split_and!; [by apply rolled_moved|done|congruence|done..]. }
  rewrite Hf. cbn [mbind option_bind app].
  assert (Forall good_span batch) as Hg.
  { apply Memory.first_invalid_none in Hv. rewrite Forall_forall in *. intros s Hs. constructor; auto. }
  destruct (append d1 f (records batch) o1) as [[d2 o2] e2] eqn:Ea.
  destruct (append_spec _ _ _ _ _ _ _ _ I1 Hf Hg Ea) as (I2 & (N1 & N2 & N3) & Hi & Hdi & Hse).
  assert (moved d o (hour_of now) d2 o2) as Mv by by eapply rolled_appended.
  destruct e2 as [e2|].
  { do 3 eexists. split; [done|]. split_and!; [done|congruence..|done|congruence]. }
  destruct I2 as [I2 Hd2]. rewrite Hsh in I2.
  assert (Memory.closed (mem d2) = false) as Hmc by (rewrite (di_closed _ _ _ I2); congruence).
  rewrite MemorySpec.Write_ok by done. do 3 eexists. split; [done|].
  split_and!; [destruct Mv; by split|simpl; congruence..|]. cbn [fmap option_fmap option_map].
  split_and!; [done| |done|simpl; congruence| |done].
  - destruct I2 as [J1 J2 J3 J4]. split; [exact J1|exact J2|exact J3|simpl]. by rewrite MemorySpec.insert_all_closed.
  - apply Hi. destruct (di_seg _ _ _ I1 f Hf) as (_ & _ & _ & Hfile & _). by rewrite Hsh in Hfile.
Qed.

(** ** Evicting and closing *)

Lemma remove_segment_sub d cutoff o h : files (remove_segment d cutoff o h) ⊆ files o.
Proof.
  unfold remove_segment. destruct (_ || _); [done|].
  destruct (Remove_spec (path h) o) as [->| ->]; [done|apply delete_subseteq].
Qed.

Lemma remove_segment_open d cutoff o h : seg d <> None -> in_int64 h -> isfile o (segHour d) ->
  isfile (remove_segment d cutoff o h) (segHour d).
Proof.
  intros Hs Hr (Hh & c & Hc). unfold remove_segment. split; [done|]. exists c.
  destruct (decide (h = segHour d)) as [->|Hne].
  { rewrite Z.eqb_refl, bool_decide_true, orb_true_r by (by apply not_eq_None_Some). done. }
  destruct (_ || _); [done|]. destruct (Remove_spec (path h) o) as [->| ->]; [done|].
  rewrite lookup_delete_ne; [done|]. intros E. by apply Hne, path_inj.
Qed.

Lemma segments_spec o hs o' : segments o = (hs, o') ->
  files o' = files o /\ (forall l, hs = Some l -> l = hours o).
Proof.
  unfold segments, ReadDir. os_call. unfold hours. destruct (failed x); intros [= <- <-]; split; try done.
  rewrite <-F. by intros l [= <-].
Qed.

Lemma evict_segments_spec d cutoff o :
  files (evict_segments d cutoff o) ⊆ files o /\
  (seg d <> None -> isfile o (segHour d) -> isfile (evict_segments d cutoff o) (segHour d)).
Proof.
  unfold evict_segments. destruct (segments o) as [[hs|] o1] eqn:E; apply segments_spec in E as [Fo Hhs].
  2:{ rewrite Fo. split; [done|]. intros _. by apply isfile_files. }
  assert (Forall in_int64 hs) as Hr.
  { rewrite (Hhs hs eq_refl). apply Forall_forall. intros h (n & e & _ & Hs)%elem_of_hours_raw.
    by eapply segment_hour_range. }
  assert (files o1 ⊆ files o) as Hsub by (by rewrite Fo).
  assert (seg d <> None -> isfile o (segHour d) -> isfile o1 (segHour d)) as Hkeep
    by (intros _; by apply isfile_files).
  clear Fo Hhs. revert o1 Hsub Hkeep. induction Hr as [|h hs Hh _ IH]; intros o1 Hsub Hkeep; [done|].
  apply IH.
  - etrans; [apply remove_segment_sub|done].
  - intros Hs Hf. apply remove_segment_open; auto.
Qed.

Lemma isfile_sub o o' h : files o' ⊆ files o -> isfile o' h -> isfile o h.
Proof. intros Hsub (Hh & c & Hc). split; [done|]. exists c. by eapply lookup_weaken. Qed.

Lemma surviving_file o A h : isfile o h -> surviving o A h = A h.
Proof. intros (_ & c & Hc). unfold surviving. by rewrite Hc. Qed.

Lemma dinv_remove d o o' A :
  dinv d o A -> files o' ⊆ files o -> (seg d <> None -> isfile o (segHour d) -> isfile o' (segHour d)) ->
  dinv d o' (surviving o' A).
Proof.
  intros [(junk & Ht & S) I2 I3 I4] Hsub Hkeep. split; [|intros f Hf|intros Hd|done].
  - exists junk. split; [done|]. by apply (shape_remove o).
  - destruct (I2 f Hf) as (Hd & Hh & Hn & Hfile & Hrest).
    assert (isfile o' (segHour d)) as Hf' by (apply Hkeep; [congruence|done]).
    rewrite surviving_file by done. split_and!; try done; by destruct Hrest.
  - destruct (I3 Hd) as [Hh Hs]. split; [done|]. intros Hf. rewrite surviving_file by done.
    apply Hs. by eapply isfile_sub.
Qed.

Lemma dinv_mem d o A m : dinv d o A -> Memory.closed m = dclosed d -> dinv (set_mem m d) o A.
Proof. intros [I1 I2 I3 I4] Hm. split; done. Qed.

Lemma EvictExpired_closed m now : Memory.closed (Memory.EvictExpired m now).1 = Memory.closed m.
Proof.
  unfold Memory.EvictExpired, Memory.EvictExpired_iter. destruct (_ <=? 0); [done|]. apply Memory.remove_all_closed.
Qed.

Lemma evict_memory_spec d o A now : dinv d o A ->
  (evict_memory d now).1 = set_mem (Memory.EvictExpired (mem d) now).1 d /\ dinv (evict_memory d now).1 o A.
Proof.
  intros I. unfold evict_memory. pose proof (EvictExpired_closed (mem d) now) as Hc.
  destruct (Memory.EvictExpired (mem d) now) as [m n]. simpl in *. split; [done|].
  apply dinv_mem; [done|]. rewrite Hc. apply (di_closed _ _ _ I).
Qed.

Lemma evict_disk_spec d o A now' : dinv d o A ->
  let o' := evict_disk d now' o in
  files o' ⊆ files o /\ (seg d <> None -> isfile o' (segHour d)) /\
  (dretention d <= 0 -> files o' = files o) /\ dinv d o' (surviving o' A).
Proof.
  intros I. cbv zeta. unfold evict_disk.
  assert (seg d <> None -> isfile o (segHour d)) as Hseg.
  { intros Hs. destruct (seg d) as [f|] eqn:E; [|done]. by destruct (di_seg _ _ _ I f E) as (_ & _ & _ & ? & _). }
  destruct (Z.leb_spec (dretention d) 0).
  - split_and!; try done. by apply (dinv_remove _ o).
  - set (cut := hour_of _). destruct (evict_segments_spec d cut o) as [H1 H2].
    split_and!; try done; [auto|lia|]. by apply (dinv_remove _ o).
Qed.

Lemma EvictExpired_spec d o A now now' :
  dinv d o A ->
  let '(d', o', _) := EvictExpired d now now' o in
  d' = set_mem (Memory.EvictExpired (mem d) now).1 d /\ files o' ⊆ files o /\
  (seg d <> None -> isfile o' (segHour d)) /\
  (dretention d <= 0 -> files o' = files o) /\ dinv d' o' (surviving o' A).
Proof.
  intros [Ed I]%(evict_memory_spec _ _ _ now). unfold EvictExpired. destruct (evict_memory d now) as [d' n]. simpl in *.
  destruct (evict_disk_spec d' o A now' I) as (H1 & H2 & H3 & H4). subst d'. by split_and!.
Qed.

Lemma Close_spec d o A : dinv d o A ->
  let '(d', o', _) := Close d o in
  dinv d' o' A /\ files o' = files o /\ dclosed d' = true /\ (dclosed d = false -> seg d' = None) /\
  dirty d' = dirty d /\ dirtyHour d' = dirtyHour d.
Proof.
  intros I. unfold Close. destruct (dclosed d) eqn:Hc; [done|].
  assert (forall o', files o' = files o ->
    dinv (MkDisk (Memory.Close (mem d)) (dretention d) true None (segHour d) (segSize d)
            (dirty d) (dirtyHour d) (dirtySize d)) o' A) as H.
  { intros o' E. apply (dinv_files _ o); [done|]. destruct I. by split. }
  destruct (seg d) as [f|]; [|split_and!; try done; by apply H].
  destruct (File_Sync f o) as [b1 o1] eqn:E1. apply File_Sync_spec in E1.
  destruct (File_Close f o1) as [[f2 b2] o2] eqn:E2. apply File_Close_spec in E2 as [E2 _].
  split_and!; try done; [apply H|]; congruence.
Qed.

(** ** Replaying *)

(** What follows the records of a segment: nothing, or a torn record. *)
Definition tail_ok (t : list byte) : Prop := t = [] \/ unreadable t.

Lemma segment_contents o A t h : shape o A t -> isfile o h -> tail_ok (t h) ->
  exists c e, files o !! path h = Some (File c) /\
    intactPrefix c = Some (A h, length (records (A h)), e) /\ (e = None <-> t h = []) /\
    c = records (A h) ++ t h.
Proof.
  intros S (Hh & c & Hc) Ht. pose proof (sh_content _ _ _ S _ _ Hh Hc) as Ec.
  destruct (intact_records (A h) (t h) (sh_good _ _ _ S h) Ht) as (e & E & He).
  exists c, e. rewrite Ec at 2. done.
Qed.

Lemma load_spec m h (A : list Span) o : Memory.closed m = false -> Forall good_span A ->
  load m h A o = (foldl Memory.insert_span m A, o, None).
Proof.
  intros Hc Hg. unfold load. rewrite MemorySpec.Write_ok; [by destruct A| |done].
  apply Memory.first_invalid_none, (Forall_impl _ _ _ Hg). by intros s [].
Qed.

(** Replaying a segment that holds the records of [A h] loads them; a tail is
    cut off the last segment, and refused elsewhere. *)
Lemma replay_spec m o A t h last m' o' e :
  Memory.closed m = false -> shape o A t -> isfile o h -> tail_ok (t h) ->
  replay m o h last = (m', o', e) ->
  (e = None -> m' = foldl Memory.insert_span m (A h) /\ (forall h', isfile o' h' <-> isfile o h') /\
     shape o' A (fun h' => if h' =? h then [] else t h')) /\
  (faults o = [] -> t h = [] \/ last = true -> e = None /\ faults o' = []) /\
  (faults o = [] -> t h <> [] -> last = false -> exists n err, e = Some (ErrCorruptSegment h n err)).
Proof.
  intros Hc S Hfile Ht. destruct (segment_contents o A t h S Hfile Ht) as (c & err & Hf & Hi & Herr & Ec).
  unfold replay, ReadFile. destruct (pop o) as [x o1] eqn:Ep. pose proof (pop_inv _ _ _ Ep) as F1.
  destruct (failed x) eqn:Ex.
  { intros [= <- <- <-]. split_and!; [done|..]; intros Hfa; rewrite pop_fine in Ep by done; injection Ep as <- _; done. }
  rewrite F1, Hf, Hi. cbn [default from_option id]. pose proof (fun o => load_spec m h (A h) o Hc (sh_good _ _ _ S h)) as Hload.
  assert (faults o = [] -> faults o1 = []) as Hfa1 by (intros Hfa; rewrite pop_fine in Ep by done; by injection Ep as _ <-).
  destruct err as [err|].
  - assert (t h <> []) as Hne by (intros E; by apply Herr in E). destruct last.
    + destruct (Truncate (path h) (length (records (A h))) o1) as [tr o2] eqn:E2.
      pose proof (Truncate_spec _ _ _ _ _ E2) as Hs. rewrite F1, Hf in Hs.
      assert (faults o = [] -> tr = TruncateOk /\ faults o2 = []) as Hfa2.
      { intros Hfa. unfold Truncate in E2. rewrite pop_fine in E2 by auto. simpl in E2. rewrite F1, Hf in E2.
        injection E2 as <- <-. auto. }
      destruct tr; cbv beta iota; rewrite ?Hload; intros [= <- <- <-]; (split_and!; [|by intros Hfa _; destruct (Hfa2 Hfa)|done]); try done.
      intros _. destruct Hs as (c' & [= <-] & Fo2). rewrite Ec, resize_shrink, take_app_length in Fo2 by (rewrite length_app; lia).
      split_and!; [done| |].
      * intros h'. eapply isfile_alter; [|done]. congruence.
      * eapply (shape_put o A t h _ A); [done|apply Hfile|by eexists|congruence| |apply (sh_good _ _ _ S)| |done].
        -- cbv beta. by rewrite Z.eqb_refl, app_nil_r.
        -- intros h' Hne'%Z.eqb_neq. cbv beta. by rewrite Hne'.
    + intros [= <- <- <-]. split_and!; [done| |by eauto]. intros _ [?|?]; done.
  - assert (t h = []) as Hnil by by apply Herr. rewrite Hload. intros [= <- <- <-]. split_and!; [|by auto|done].
    intros _. split_and!; [done|intros; by apply isfile_files|]. apply (shape_files o); [done|].
    eapply shape_tail_ext; [|done]. intros h' _. cbv beta. by destruct (Z.eqb_spec h' h) as [->|].
Qed.

Lemma insert_all_app m l1 l2 :
  foldl Memory.insert_span m (l1 ++ l2) = foldl Memory.insert_span (foldl Memory.insert_span m l1) l2.
Proof. apply foldl_app. Qed.

Lemma replay_all_spec A hs : forall m o t m' o' e,
  Memory.closed m = false -> shape o A t -> (forall h, tail_ok (t h)) ->
  NoDup hs -> Forall (isfile o) hs -> replay_all m o hs = (m', o', e) ->
  (e = None -> m' = foldl Memory.insert_span m (concat (A <$> hs)) /\ (forall h, isfile o' h <-> isfile o h) /\
     shape o' A (fun h => if bool_decide (h ∈ hs) then [] else t h)) /\
  (faults o = [] -> (forall h, h ∈ hs -> t h <> [] -> last hs = Some h) -> e = None /\ faults o' = []).
Proof.
  induction hs as [|h hs IH]; intros m o t m' o' e Hc S Ht Hnd Hf; cbn [replay_all].
  { intros [= <- <- <-]. split; [|done]. intros _. split_and!; [done..|]. eapply shape_tail_ext; [|done].
    intros h _. cbv beta. by rewrite bool_decide_false by apply not_elem_of_nil. }
  destruct (replay m o h (bool_decide (hs = []))) as [[m1 o1] e1] eqn:E1.
  apply NoDup_cons in Hnd as [Hh Hnd]. apply Forall_cons in Hf as [Hfile Hf].
  destruct (replay_spec _ _ _ _ _ _ _ _ _ Hc S Hfile (Ht h) E1) as (Hok & Hfa & _).
  assert (faults o = [] -> (forall h', h' ∈ h :: hs -> t h' <> [] -> last (h :: hs) = Some h') -> e1 = None /\ faults o1 = []) as Hfa'.
  { intros Hfs Hl. apply Hfa; [done|]. destruct (decide (t h = [])) as [|Hne]; [by left|right].
    specialize (Hl h (list_elem_of_here _ _) Hne). destruct hs as [|h2 hs]; [done|]. exfalso. apply Hh.
    rewrite last_cons_cons in Hl. by apply last_Some_elem_of in Hl. }
  destruct e1 as [e1|].
  { intros [= <- <- <-]. split; [done|]. intros Hfs Hl. by destruct (Hfa' Hfs Hl). }
  destruct (Hok eq_refl) as (-> & Hi & S1). intros E2.
  assert (forall h', tail_ok (if h' =? h then [] else t h')) as Ht1 by (intros h'; destruct (h' =? h); [by left|done]).
  assert (Forall (isfile o1) hs) as Hf1 by (apply (Forall_impl _ _ _ Hf); intros h'; apply Hi).
  assert (Memory.closed (foldl Memory.insert_span m (A h)) = false) as Hc1 by (by rewrite MemorySpec.insert_all_closed).
  destruct (IH _ _ _ _ _ _ Hc1 S1 Ht1 Hnd Hf1 E2) as [Hok2 Hfa2]. split.
  - intros He. destruct (Hok2 He) as (-> & Hi2 & S2). split_and!.
    + rewrite fmap_cons. cbn [concat]. by rewrite insert_all_app.
    + intros h'. by rewrite Hi2.
    + eapply shape_tail_ext; [|exact S2]. intros h' _. cbv beta.
      destruct (Z.eqb_spec h' h) as [->|Hne].
      * rewrite (bool_decide_true (h ∈ h :: hs)) by by left. by destruct (bool_decide (h ∈ hs)).
      * rewrite (bool_decide_ext (h' ∈ h :: hs) (h' ∈ hs)) by (rewrite elem_of_cons; naive_solver). done.
  - intros Hfs Hl. destruct (Hfa' Hfs Hl) as [_ Hfs1]. apply Hfa2; [done|]. intros h' Hin. cbv beta.
    destruct (Z.eqb_spec h' h) as [->|Hne]; [done|]. intros Ht'. specialize (Hl h' (list_elem_of_further _ _ _ Hin) Ht').
    destruct hs as [|h2 hs]; [by apply elem_of_nil in Hin|]. by rewrite last_cons_cons in Hl.
Qed.

(** Every span the segments of [o] hold, oldest hour first. *)
Definition live (o : os) (A : Z -> list Span) : list Span := concat (A <$> hours o).

(** What reading the segment of an hour gives, and reading them all. *)
Definition segment_spans (o : os) (h : Z) : list Span :=
  match files o !! path h with
  | Some (File c) => match intactPrefix c with Some (l, _, _) => l | None => [] end
  | _ => []
  end.
Definition replayed (o : os) : list Span := concat (segment_spans o <$> hours o).

Lemma segment_spans_shape o A t h : shape o A t -> (forall h, tail_ok (t h)) -> in_int64 h -> segment_spans o h = A h.
Proof.
  intros S Ht Hh. unfold segment_spans. destruct (files o !! path h) as [[|c]|] eqn:E.
  2:{ destruct (segment_contents o A t h S) as (c' & e & Hc & Hi & _); [split; [done|by eexists]|done|].
      rewrite E in Hc. injection Hc as <-. by rewrite Hi. }
  all: destruct (A h) as [|x l] eqn:EA; [done|]; destruct (sh_exists _ _ _ S h) as (_ & c & Hc); [by rewrite EA|congruence].
Qed.

Lemma replayed_shape o A t : shape o A t -> (forall h, tail_ok (t h)) -> replayed o = live o A.
Proof.
  intros S Ht. unfold replayed, live. f_equal. apply list_fmap_ext. intros i h Hh%list_elem_of_lookup_2.
  apply (elem_of_hours _ _ _ _ S) in Hh as [Hh _]. by apply (segment_spans_shape _ _ t).
Qed.

(** Opening a directory serves what its segments hold. *)
Lemma OpenDisk_spec r now now' o A t d o' :
  shape o A t -> (forall h, tail_ok (t h)) -> OpenDisk r now now' o = (Ok d, o') ->
  mem d = (Memory.EvictExpired (foldl Memory.insert_span (Memory.NewMemory r) (live o A)) now).1 /\
  dinv d o' (surviving o' A) /\ seg d = None /\ dirty d = false /\ dclosed d = false /\ dretention d = r /\
  (forall h, isfile o' h -> isfile o h) /\ (r <= 0 -> forall h, isfile o' h <-> isfile o h).
Proof.
  intros S Ht. unfold OpenDisk, MkdirAll. destruct (pop o) as [x o1] eqn:Ep. pose proof (pop_inv _ _ _ Ep) as F1.
  destruct (failed x); [done|]. destruct (segments o1) as [[hs|] o2] eqn:E2; [|done].
  apply segments_spec in E2 as [F2 Hhs]. specialize (Hhs hs eq_refl). rewrite (hours_files o o1 F1) in Hhs. subst hs.
  assert (shape o2 A t) as S2 by (apply (shape_files o); [congruence|done]).
  assert (forall h, isfile o2 h <-> isfile o h) as Hi2 by (intros; apply isfile_files; congruence).
  destruct (replay_all (Memory.NewMemory r) o2 (hours o)) as [[m o3] [e|]] eqn:E3; [done|].
  destruct (replay_all_spec A (hours o) (Memory.NewMemory r) o2 t m o3 None eq_refl S2 Ht) as [Hok _].
  { by eapply hours_NoDup. }
  { apply Forall_forall. intros h Hh%(elem_of_hours _ _ _ _ S). by apply Hi2. }
  { done. }
  destruct (Hok eq_refl) as (Hm & Hi3 & S3).
  assert (dinv (MkDisk m r false None (-1) 0 false 0 0) o3 A) as I.
  { apply dinv_clean; [done| |done|].
    - destruct S3 as [T1 T2 T3 T4]. split; [done| |done|done]. intros h c Hh Hc. rewrite (T2 h c Hh Hc). f_equal.
      rewrite bool_decide_true; [done|]. apply (elem_of_hours _ _ _ _ S), Hi2, Hi3. split; [done|by eexists].
    - simpl. by rewrite Hm, MemorySpec.insert_all_closed. }
  pose proof (EvictExpired_spec _ _ _ now now' I) as Hev.
  destruct (EvictExpired (MkDisk m r false None (-1) 0 false 0 0) now now' o3) as [[d1 o4] n].
  destruct Hev as (-> & Hsub & _ & Hkeep & I'). intros [= <- <-]. simpl. rewrite Hm. split_and!; try done.
  - by rewrite Hm in I'.
  - intros h Hf. apply Hi2, Hi3. by eapply isfile_sub.
  - intros Hr h. rewrite <-Hi2, <-Hi3. by apply isfile_files, Hkeep.
Qed.

(** With no failing call, a directory whose only tail is that of the newest
    segment opens. *)
Lemma OpenDisk_total r now now' o A t :
  shape o A t -> (forall h, tail_ok (t h)) -> faults o = [] ->
  (forall h, h ∈ hours o -> t h <> [] -> last (hours o) = Some h) ->
  exists d o', OpenDisk r now now' o = (Ok d, o').
Proof.
  intros S Ht Hf Hl. unfold OpenDisk, MkdirAll. rewrite pop_fine by done. simpl.
  unfold segments, ReadDir. rewrite pop_fine by done. simpl. change (sort_func _ _) with (hours o).
  destruct (replay_all (Memory.NewMemory r) o (hours o)) as [[m o3] e] eqn:E3.
  destruct (replay_all_spec A (hours o) (Memory.NewMemory r) o t m o3 e eq_refl S Ht) as [_ Hok].
  { by eapply hours_NoDup. }
  { apply Forall_forall. intros h Hh. by apply (elem_of_hours _ _ _ _ S). }
  { done. }
  destruct (Hok Hf Hl) as [-> _]. destruct (EvictExpired _ _ _ _) as [[d o4] n]. by do 2 eexists.
Qed.
