(* ===== verification/DiskProps.v ===== *)
(** * The properties of the durable store

    [dstep] runs a store through writes, evictions, crashes and restarts.
    Whichever calls fail, the segments hold what was acknowledged; as long as
    the clock does not run backwards, a restart after a crash serves what was
    served before it. *)

From S2P Require Import Prelude GoTime GoBytes Ident Value Span Codec Frame Query.
From S2P Require Memory MemorySpec.
From S2P Require Import GoStrings Os Disk DiskSpec.

(** ** The runs of a store *)

(** A store, its directory, the spans acknowledged in each segment, and the
    latest clock reading of a write. *)
Record dworld : Type := MkWorld { dsk : Disk; dir : os; acked : Z -> list Span; clock : Time }.

(** What a crash may leave: segments as they were acknowledged, except that
    the segment being written, or the dirty one, may have lost any part of
    what was not acknowledged.  What has been created, cut back or removed
    stays so, synced or not: so it is when the process is killed, and for a
    loss of power it is assumed.  [l] are the spans of the unfinished write
    whose records survived whole, [rest] what follows them. *)
Record crash_leaves (w : dworld) (now : Time) (o : os) (h0 : Z) (l : list Span) (rest : list byte) : Prop := {
  cr_now : in_int64 (hour_of now);
  cr_which : h0 = hour_of now \/ (dirty (dsk w) = true /\ h0 = dirtyHour (dsk w));
  cr_tail : tail_ok rest;
  cr_shape : shape o (ack (acked w) h0 l) (fun h => if h =? h0 then rest else []);
  cr_keeps : forall h, isfile (dir w) h -> isfile o h;
  cr_adds : forall h, isfile o h -> isfile (dir w) h \/ h = h0;
}.

Inductive dstep (r : Duration) : dworld -> dworld -> Prop :=
| d_write d o A t now batch d' o' e :
    in_int64 (hour_of now) -> Forall encodable batch -> Write d now batch o = Some (d', o', e) ->
    dstep r (MkWorld d o A t)
      (MkWorld d' o' (match e with None => ack A (hour_of now) batch | Some _ => A end) now)
| d_evict_memory d o A t now :
    dstep r (MkWorld d o A t) (MkWorld (evict_memory d now).1 o A t)
| d_evict_disk d o A t now' :
    dstep r (MkWorld d o A t) (MkWorld d (evict_disk d now' o) (surviving (evict_disk d now' o) A) t)
| d_close d o A t d' o' bad :
    Close d o = (d', o', bad) -> dstep r (MkWorld d o A t) (MkWorld d' o' A t)
| d_restart w now o h0 l rest now1 now2 d' o' :
    crash_leaves w now o h0 l rest -> OpenDisk r now1 now2 o = (Ok d', o') ->
    dstep r w (MkWorld d' o' (surviving o' (ack (acked w) h0 l)) now).

(** A store opened on a directory without segments. *)
Inductive dinitial (r : Duration) : dworld -> Prop :=
| d_init o now now' d o' :
    (forall n e, files o !! n = Some e -> segment_hour (n, e) = None) ->
    OpenDisk r now now' o = (Ok d, o') -> dinitial r (MkWorld d o' (fun _ => []) now).

Definition dreachable (r : Duration) (w : dworld) : Prop := exists w0, dinitial r w0 /\ rtc (dstep r) w0 w.

(** The same with a clock that does not run backwards. *)
Definition tick (r : Duration) (w w' : dworld) : Prop := dstep r w w' /\ clock w <= clock w'.
Definition forward (r : Duration) (w : dworld) : Prop := exists w0, dinitial r w0 /\ rtc (tick r) w0 w.

Definition good (r : Duration) (w : dworld) : Prop := dinv (dsk w) (dir w) (acked w) /\ dretention (dsk w) = r.

Lemma tail_ok_if (b : bool) rest : tail_ok rest -> tail_ok (if b then rest else []).
Proof. intros H. destruct b; [done|by left]. Qed.

Lemma shape_empty o : (forall n e, files o !! n = Some e -> segment_hour (n, e) = None) ->
  shape o (fun _ => []) (fun _ => []).
Proof.
  intros H. split; [|intros h c Hh Hc|done|constructor].
  - intros n e h Hn Hs. by rewrite (H n e Hn) in Hs.
  - apply H in Hc. by rewrite segment_hour_path in Hc.
Qed.

Lemma dinv_ext d o A A' : (forall h, A' h = A h) -> dinv d o A -> dinv d o A'.
Proof.
  intros E [(junk & Ht & [S1 S2 S3 S4]) I2 I3 I4]. split; [|intros f Hf; rewrite E; auto|rewrite E; auto|done].
  exists junk. split; [done|]. split; [done| | |]; intros h; rewrite E; auto.
Qed.

Lemma surviving_nil o h : surviving o (fun _ => []) h = [].
Proof. unfold surviving. by destruct (files o !! path h) as [[]|]. Qed.

Lemma good_initial r w : dinitial r w -> good r w.
Proof.
  intros [o now now' d o' Ho E]. destruct (OpenDisk_spec _ _ _ _ _ _ _ _ (shape_empty o Ho) (fun _ => or_introl eq_refl) E)
    as (_ & I & _ & _ & _ & Hr & _).
  split; [|done]. simpl. eapply dinv_ext; [|exact I]. intros h. by rewrite surviving_nil.
Qed.

Lemma good_step r w w' : good r w -> dstep r w w' -> good r w'.
Proof.
  intros [I Hr] Hst. destruct Hst as [d o A t now batch d' o' e Hh He E|d o A t now|d o A t now'|d o A t d' o' bad E|
    w now o h0 l rest now1 now2 d' o' C E]; simpl in *.
  - destruct (Write_spec d o A now batch I Hh He) as (d2 & o2 & e2 & E2 & _ & Hr2 & _ & H).
    rewrite E in E2. injection E2 as <- <- <-. split; [|simpl; congruence]. destruct e; [apply H|by destruct H as (_ & H & _)].
  - destruct (evict_memory_spec d o A now I) as [Ed I']. split; [done|]. simpl. by rewrite Ed.
  - destruct (evict_disk_spec d o A now' I) as (_ & _ & _ & I'). by split.
  - pose proof (Close_spec d o A I) as H. rewrite E in H. split; [apply H|]. simpl. unfold Close in E.
    destruct (dclosed d); [by injection E as <- _ _|]. destruct (match seg d with Some f => _ | None => _ end).
    by injection E as <- _ _.
  - destruct (OpenDisk_spec _ _ _ _ _ _ _ _ (cr_shape _ _ _ _ _ _ C) (fun h => tail_ok_if _ _ (cr_tail _ _ _ _ _ _ C)) E)
      as (_ & I' & _ & _ & _ & Hr' & _). by split.
Qed.

Lemma good_reachable r w : dreachable r w -> good r w.
Proof.
  intros (w0 & H0 & Hs). apply good_initial in H0. induction Hs as [|w0 w1 w2 Hst _ IH]; [done|].
  by apply IH, (good_step _ w0).
Qed.

(** ** The hours of a directory *)

Lemma hours_sorted o : StronglySorted (cmp_le Z.compare) (hours o).
Proof. apply sort_func_sorted, _. Qed.

Lemma hours_increasing o : (exists A t, shape o A t) -> StronglySorted Z.lt (hours o).
Proof.
  intros (A & t & S). pose proof (hours_NoDup _ _ _ S) as Hnd. pose proof (hours_sorted o) as Hs.
  induction Hs as [|h l _ IH Hh]; [constructor|]. apply NoDup_cons in Hnd as [Hnin Hnd]. constructor; [by apply IH|].
  rewrite Forall_forall in *. intros h' Hh'. specialize (Hh h' Hh'). unfold cmp_le in Hh.
  assert (h <> h') by congruence. destruct (Z.compare_spec h h'); [done|done|]. done.
Qed.

Lemma Close_retention d o : dretention (Close d o).1.1 = dretention d.
Proof. unfold Close. destruct (dclosed d); [done|]. by destruct (match seg d with Some f => _ | None => _ end). Qed.

Lemma hours_perm o A t l : shape o A t -> NoDup l -> (forall h, h ∈ l <-> isfile o h) ->
  StronglySorted (cmp_le Z.compare) l -> hours o = l.
Proof.
  intros S Hnd Hl Hsort. apply (sorted_perm_unique Z.compare); [|apply hours_sorted|done|].
  - intros x y _ _ E. by apply Z.compare_eq.
  - apply NoDup_Permutation; [by eapply hours_NoDup|done|]. intros h. rewrite Hl. by eapply elem_of_hours.
Qed.

Lemma hours_same o o' A t t' A' : shape o A t -> shape o' A' t' -> (forall h, isfile o' h <-> isfile o h) ->
  hours o' = hours o.
Proof.
  intros S S' Hi. eapply hours_perm; [done|by eapply hours_NoDup| |apply hours_sorted].
  intros h. rewrite Hi. by eapply elem_of_hours.
Qed.

Lemma sorted_prefix l1 l2 : StronglySorted (cmp_le Z.compare) (l1 ++ l2) -> StronglySorted (cmp_le Z.compare) l1.
Proof.
  induction l1 as [|x l1 IH]; simpl; [constructor|]. intros Hs. apply StronglySorted_inv in Hs as [Hs Hx].
  apply Forall_app in Hx as [Hx _]. constructor; auto.
Qed.

Lemma sorted_before l1 x l2 y : StronglySorted (cmp_le Z.compare) (l1 ++ x :: l2) -> y ∈ l1 -> y <= x.
Proof.
  induction l1 as [|z l1 IH]; simpl; intros Hs Hin; [by apply elem_of_nil in Hin|].
  apply StronglySorted_inv in Hs as [H1 H2]. apply elem_of_cons in Hin as [->|Hin]; [|auto].
  apply Forall_app in H2 as [_ H2]. apply Forall_cons in H2 as [H2 _]. unfold cmp_le in H2. by apply Z.compare_le_iff.
Qed.

(** The newest segment is listed last. *)
Lemma hours_max o A t h0 : shape o A t -> isfile o h0 -> (forall h, isfile o h -> h <= h0) ->
  exists l, hours o = l ++ [h0] /\ (h0 ∉ l) /\ StronglySorted (cmp_le Z.compare) l.
Proof.
  intros S Hf Hmax. pose proof (hours_NoDup _ _ _ S) as Hnd. pose proof (hours_sorted o) as Hs.
  assert (h0 ∈ hours o) as (l1 & l2 & E)%list_elem_of_split by by apply (elem_of_hours _ _ _ _ S).
  pose proof (fun h => proj1 (elem_of_hours _ _ _ h S)) as Hin. rewrite E in *.
  assert (l2 = []) as ->.
  { destruct l2 as [|x l2]; [done|]. exfalso. apply NoDup_app in Hnd as (_ & _ & Hnd).
    apply NoDup_cons in Hnd as [Hx _]. apply Hx.
    assert (h0 = x) as ->; [|by left]. assert (x <= h0) by (apply Hmax, Hin; set_solver).
    rewrite (cons_middle h0 l1), app_assoc in Hs.
    assert (h0 <= x) by (eapply sorted_before; [exact Hs|set_solver]). lia. }
  exists l1. apply NoDup_app in Hnd as (_ & Hd & _). split_and!; [done| |by eapply sorted_prefix].
  intros Hh. apply (Hd h0 Hh). by left.
Qed.

Lemma live_ext o A A' : (forall h, h ∈ hours o -> A' h = A h) -> live o A' = live o A.
Proof.
  unfold live. generalize (hours o). induction l as [|h l IH]; intros H; [done|].
  rewrite !fmap_cons. cbn [concat]. rewrite H by by left. rewrite IH; [done|]. intros h' Hh'. apply H. by right.
Qed.

(** Acknowledging spans in the newest segment. *)
Lemma live_ack o A t h0 l B : shape o A t -> (forall h, isfile o h -> h <= h0) ->
  (l <> [] -> isfile o h0) -> live o (ack B h0 l) = live o B ++ l.
Proof.
  intros S Hmax Hf. destruct (decide (l = [])) as [->|Hne].
  { rewrite app_nil_r. apply live_ext. intros h _. unfold ack. destruct (h =? h0); [apply app_nil_r|done]. }
  destruct (hours_max o A t h0 S (Hf Hne) Hmax) as (hs & E & Hh & _). unfold live. rewrite E, !fmap_app, !concat_app.
  cbn [fmap list_fmap concat]. rewrite !app_nil_r. unfold ack at 2. rewrite Z.eqb_refl, app_assoc. do 2 f_equal.
  clear E. induction hs as [|h hs IH]; [done|]. rewrite !fmap_cons. cbn [concat].
  apply not_elem_of_cons in Hh as [Hne' Hh]. rewrite IH by done. f_equal. unfold ack.
  by destruct (Z.eqb_spec h h0) as [->|].
Qed.

(** A new empty segment, newer than the others, holds nothing. *)
Lemma live_grow o o' A A' t t' h0 : shape o A t -> shape o' A' t' ->
  (forall h, isfile o h -> isfile o' h) -> (forall h, isfile o' h -> isfile o h \/ h = h0) ->
  (forall h, isfile o' h -> h <= h0) -> live o' A = live o A.
Proof.
  intros S S' Hk Ha Hmax. destruct (decide (h0 ∈ hours o')) as [Hin|Hin].
  2:{ unfold live. rewrite (hours_same o o' A t t' A' S S'); [done|]. intros h. split; [|apply Hk].
      intros Hf. destruct (Ha h Hf) as [?| ->]; [done|]. destruct Hin. by apply (elem_of_hours _ _ _ _ S'). }
  destruct (decide (h0 ∈ hours o)) as [Hin0|Hin0].
  { unfold live. rewrite (hours_same o o' A t t' A' S S'); [done|]. intros h. split; [|apply Hk].
    intros Hf. destruct (Ha h Hf) as [?| ->]; [done|]. by apply (elem_of_hours _ _ _ _ S). }
  destruct (hours_max o' A' t' h0 S' (proj1 (elem_of_hours _ _ _ _ S') Hin) Hmax) as (hs & E & Hh & Hsort).
  assert (hours o = hs) as <-.
  { pose proof (hours_NoDup _ _ _ S') as Hnd. rewrite E in Hnd. apply NoDup_app in Hnd as (Hnd & _).
    eapply hours_perm; [done|done| |done]. intros h. split.
    - intros Hhs. destruct (Ha h) as [?| ->]; [|done|done]. apply (elem_of_hours _ _ _ _ S'). rewrite E. set_solver.
    - intros Hf. assert (h ∈ hours o') as Hh' by by apply (elem_of_hours _ _ _ _ S'), Hk.
      rewrite E in Hh'. apply elem_of_app in Hh' as [?|Hh'%list_elem_of_singleton]; [done|]. subst h.
      destruct Hin0. by apply (elem_of_hours _ _ _ _ S). }
  unfold live. rewrite E, fmap_app, concat_app. cbn [fmap list_fmap concat].
  assert (A h0 = []) as ->; [|by rewrite !app_nil_r].
  destruct (A h0) as [|x l] eqn:EA; [done|]. destruct Hin0. apply (elem_of_hours _ _ _ _ S), (sh_exists _ _ _ S).
  by rewrite EA.
Qed.

(** ** A clock that does not run backwards *)

Lemma hour_mono t u : t <= u -> hour_of t <= hour_of u.
Proof. intros H. apply go_div_mono; [done|]. by apply unix_mono. Qed.

(** The segment being written, or the dirty one, is the newest; memory is what
    the segments hold. *)
Record ordered (r : Duration) (w : dworld) : Prop := {
  or_good : good r w;
  or_clock : forall h, isfile (dir w) h -> h <= hour_of (clock w);
  or_seg : seg (dsk w) <> None -> forall h, isfile (dir w) h -> h <= segHour (dsk w);
  or_dirty : dirty (dsk w) = true ->
    dirtyHour (dsk w) <= hour_of (clock w) /\ forall h, isfile (dir w) h -> h <= dirtyHour (dsk w);
  or_mem : r <= 0 -> dclosed (dsk w) = false ->
    mem (dsk w) = foldl Memory.insert_span (Memory.NewMemory r) (live (dir w) (acked w));
}.

Lemma insert_all_retention m l : Memory.retention (foldl Memory.insert_span m l) = Memory.retention m.
Proof. revert m. induction l as [|s l IH]; intros m; [done|]. cbn [foldl]. by rewrite IH. Qed.

Lemma evict_nothing m now : Memory.retention m <= 0 -> (Memory.EvictExpired m now).1 = m.
Proof.
  intros H. unfold Memory.EvictExpired, Memory.EvictExpired_iter. destruct (Z.leb_spec (Memory.retention m) 0); [done|lia].
Qed.

Lemma dinv_some_shape d o A : dinv d o A -> exists t, shape o A t.
Proof. intros [(junk & _ & S) _ _ _]. by eexists. Qed.

(** The newest hour after an operation at [hour]. *)
Lemma moved_ordered d o hour d' o' c :
  moved d o hour d' o' -> c <= hour -> (forall h, isfile o h -> h <= c) ->
  (seg d <> None -> forall h, isfile o h -> h <= segHour d) ->
  (dirty d = true -> dirtyHour d <= c /\ forall h, isfile o h -> h <= dirtyHour d) ->
  (forall h, isfile o' h -> h <= hour) /\
  (seg d' <> None -> forall h, isfile o' h -> h <= segHour d') /\
  (dirty d' = true -> dirtyHour d' <= hour /\ forall h, isfile o' h -> h <= dirtyHour d').
Proof.
  intros [M1 M2 M3 M4] Hc Hmax Hseg Hdirty.
  assert (forall h, isfile o' h -> h <= hour) as Hle.
  { intros h Hf. destruct (M2 h Hf) as [Ho| ->]; [|lia]. specialize (Hmax h Ho). lia. }
  split_and!; [done| |].
  - intros Hs h Hf. destruct (M3 Hs) as [->|(Hs0 & -> & Hsub)]; [by apply Hle|]. apply Hseg; auto.
  - intros Hs. destruct (M4 Hs) as [->|(Hd & -> & Hsub)]; [split; [lia|done]|].
    destruct (Hdirty Hd) as [Hd1 Hd2]. split; [lia|auto].
Qed.

Lemma live_surviving o A t : shape o A t -> live o (surviving o A) = live o A.
Proof. intros S. apply live_ext. intros h Hf%(elem_of_hours _ _ _ _ S). by apply surviving_file. Qed.

Lemma live_files o o' A : files o' = files o -> live o' A = live o A.
Proof. intros E. unfold live. by rewrite (hours_files o o' E). Qed.

Lemma ordered_write r d o A t now batch d' o' e :
  ordered r (MkWorld d o A t) -> t <= now -> in_int64 (hour_of now) -> Forall encodable batch ->
  Write d now batch o = Some (d', o', e) ->
  ordered r (MkWorld d' o' (match e with None => ack A (hour_of now) batch | Some _ => A end) now).
Proof.
  intros [G O1 O2 O3 O4] Ht Hh He E. pose proof (good_step _ _ _ G (d_write r _ _ _ t _ _ _ _ _ Hh He E)) as G'.
  destruct G as [I Hr]; simpl in *.
  destruct (Write_spec d o A now batch I Hh He) as (d2 & o2 & e2 & E2 & M & Hr2 & Hc2 & H).
  rewrite E in E2. injection E2 as <- <- <-.
  destruct (moved_ordered _ _ _ _ _ _ M (hour_mono _ _ Ht) O1 O2 O3) as (P1 & P2 & P3).
  split; [done|done|done|done|]. simpl. intros Hr0 Hc. rewrite Hc2 in Hc. specialize (O4 Hr0 Hc).
  destruct (dinv_some_shape _ _ _ I) as [u S].
  assert (forall B u', shape o' B u' -> live o' A = live o A) as Hgrow.
  { intros B u' S'. eapply live_grow; [done|done|apply M|apply M|done]. }
  destruct e as [e|].
  - destruct H as [I' ->]. destruct (dinv_some_shape _ _ _ I') as [u' S']. by rewrite (Hgrow _ _ S').
  - destruct H as (Hg & I' & _ & -> & Hf & _). destruct (dinv_some_shape _ _ _ I') as [u' S'].
    rewrite O4, <-insert_all_app, <-(Hgrow _ _ S'). f_equal. by erewrite live_ack.
Qed.

Lemma ordered_evict_memory r d o A t now :
  ordered r (MkWorld d o A t) -> ordered r (MkWorld (evict_memory d now).1 o A t).
Proof.
  intros [G O1 O2 O3 O4]. pose proof (good_step _ _ _ G (d_evict_memory r _ _ _ t now)) as G'.
  destruct G as [I Hr]; simpl in *. destruct (evict_memory_spec d o A now I) as [E _]. rewrite E in *.
  split; simpl; [done..|].
  intros Hr0 Hc. specialize (O4 Hr0 Hc). by rewrite evict_nothing by (rewrite O4, insert_all_retention; simpl; lia).
Qed.

Lemma ordered_evict_disk r d o A t now' :
  ordered r (MkWorld d o A t) -> ordered r (MkWorld d (evict_disk d now' o) (surviving (evict_disk d now' o) A) t).
Proof.
  intros [G O1 O2 O3 O4]. pose proof (good_step _ _ _ G (d_evict_disk r _ _ _ t now')) as G'.
  destruct G as [I Hr]; simpl in *. destruct (evict_disk_spec d o A now' I) as (Hsub & _ & Hkeep & I').
  set (o' := evict_disk d now' o) in *. assert (forall h, isfile o' h -> isfile o h) as Hi by (intros h; by apply isfile_sub).
  split; simpl; [done|auto|auto|naive_solver|]. intros Hr0 Hc. specialize (O4 Hr0 Hc).
  destruct (dinv_some_shape _ _ _ I') as [u S']. destruct (dinv_some_shape _ _ _ I) as [u0 S].
  assert (files o' = files o) as Ho by (apply Hkeep; lia). rewrite O4. f_equal.
  rewrite (live_surviving o' A u0) by (by apply (shape_files o)). symmetry. by apply live_files.
Qed.

Lemma ordered_close r d o A t d' o' bad :
  ordered r (MkWorld d o A t) -> Close d o = (d', o', bad) -> ordered r (MkWorld d' o' A t).
Proof.
  intros [G O1 O2 O3 O4] E. pose proof (good_step _ _ _ G (d_close r _ _ _ t _ _ _ E)) as G'.
  destruct G as [I Hr]; simpl in *. pose proof (Close_spec d o A I) as H. rewrite E in H.
  destruct H as (_ & Hfo & Hc & Hs & Hd & Hdh).
  assert (forall h, isfile o' h <-> isfile o h) as Hi by (intros; by apply isfile_files).
  split; simpl; [done| | | |congruence].
  - intros h Hf. by apply O1, Hi.
  - intros Hse h Hf%Hi. destruct (dclosed d) eqn:Hcd; [|by rewrite (Hs eq_refl) in Hse].
    unfold Close in E. rewrite Hcd in E. injection E as <- _ _. auto.
  - rewrite Hd, Hdh. intros Hdi. destruct (O3 Hdi) as [? H]. split; [done|]. intros h Hf. by apply H, Hi.
Qed.

Lemma ordered_crash r w now o h0 l rest :
  ordered r w -> clock w <= now -> crash_leaves w now o h0 l rest ->
  h0 <= hour_of now /\ (forall h, isfile o h -> h <= h0) /\ live o (ack (acked w) h0 l) = live (dir w) (acked w) ++ l.
Proof.
  intros [G O1 O2 O3 O4] Ht [C1 C2 C3 C4 C5 C6]. destruct G as [I Hr]. pose proof (hour_mono _ _ Ht) as Hm.
  assert (h0 <= hour_of now /\ forall h, isfile o h -> h <= h0) as [Hh0 Hmax].
  { destruct C2 as [->|[Hd ->]].
    - split; [done|]. intros h Hf. destruct (C6 h Hf) as [Ho| ->]; [|done]. specialize (O1 h Ho). lia.
    - destruct (O3 Hd) as [H1 H2]. split; [lia|]. intros h Hf. destruct (C6 h Hf) as [Ho| ->]; [auto|done]. }
  split_and!; [done..|]. destruct (dinv_some_shape _ _ _ I) as [u S].
  rewrite (live_ack o _ _ h0 l (acked w) C4 Hmax).
  - f_equal. by eapply live_grow.
  - intros Hne. apply (sh_exists _ _ _ C4). unfold ack. rewrite Z.eqb_refl. by destruct (acked w h0).
Qed.

Lemma ordered_restart r w now o h0 l rest now1 now2 d' o' :
  ordered r w -> clock w <= now -> crash_leaves w now o h0 l rest -> OpenDisk r now1 now2 o = (Ok d', o') ->
  ordered r (MkWorld d' o' (surviving o' (ack (acked w) h0 l)) now).
Proof.
  intros O Ht C E. pose proof (good_step _ _ _ (or_good _ _ O) (d_restart r w now o h0 l rest now1 now2 d' o' C E)) as G'.
  destruct (ordered_crash _ _ _ _ _ _ _ O Ht C) as (Hh0 & Hmax & Hlive).
  destruct (OpenDisk_spec _ _ _ _ _ _ _ _ (cr_shape _ _ _ _ _ _ C) (fun h => tail_ok_if _ _ (cr_tail _ _ _ _ _ _ C)) E)
    as (Hm & I' & Hs & Hd & Hc & Hr' & Hsub & Hkeep).
  split; simpl; [done| |by rewrite Hs|by rewrite Hd|].
  - intros h Hf. specialize (Hmax h (Hsub h Hf)). lia.
  - intros Hr0 _. rewrite Hm, evict_nothing by (by rewrite insert_all_retention). f_equal.
    destruct (dinv_some_shape _ _ _ I') as [u S'].
    assert (hours o' = hours o) as Eh.
    { apply (hours_same _ _ _ _ _ _ (cr_shape _ _ _ _ _ _ C) S'). by apply Hkeep. }
    unfold live at 1. rewrite <-Eh. symmetry. apply live_ext. intros h Hf%(elem_of_hours _ _ _ _ S').
    by apply surviving_file.
Qed.

Lemma ordered_step r w w' : ordered r w -> tick r w w' -> ordered r w'.
Proof.
  intros O [Hst Ht]. destruct Hst; simpl in Ht.
  - by eapply ordered_write.
  - by eapply ordered_evict_memory.
  - by eapply ordered_evict_disk.
  - by eapply ordered_close.
  - by eapply ordered_restart.
Qed.

Lemma ordered_initial r w : dinitial r w -> ordered r w.
Proof.
  intros H0. pose proof (good_initial r w H0) as G. destruct H0 as [o now now' d o' Ho E].
  destruct (OpenDisk_spec _ _ _ _ _ _ _ _ (shape_empty o Ho) (fun _ => or_introl eq_refl) E)
    as (Hm & I & Hs & Hd & _ & Hr & Hsub & _).
  assert (forall h, ~ isfile o' h) as Hno.
  { intros h Hf. apply Hsub in Hf as (Hh & c & Hc). apply Ho in Hc. by rewrite segment_hour_path in Hc. }
  split; simpl; [done| |by rewrite Hs|by rewrite Hd|].
  - intros h Hf. by destruct (Hno h).
  - intros Hr0 _. rewrite Hm.
    assert (forall (o : os), live o (fun _ => []) = []) as Hnil.
    { intros o2. unfold live. induction (hours o2) as [|h hs IH]; [done|]. rewrite fmap_cons. by cbn [concat]. }
    by rewrite !Hnil, evict_nothing by (by rewrite insert_all_retention).
Qed.

Lemma ordered_forward r w : forward r w -> ordered r w.
Proof.
  intros (w0 & H0 & Hs). apply ordered_initial in H0. induction Hs as [|w0 w1 w2 Hst _ IH]; [done|].
  by apply IH, (ordered_step _ w0).
Qed.

(** ** Retention *)

(** The segments [EvictExpired] does not delete, for the cutoff hour. *)
Definition keeps_segment (d : Disk) (cutoff h : Z) : bool :=
  (cutoff <? h + 1) || (bool_decide (is_Some (seg d)) && (h =? segHour d)).

Lemma remove_segment_keeps d cutoff o h h' : in_int64 h ->
  isfile o h' -> keeps_segment d cutoff h' = true -> isfile (remove_segment d cutoff o h) h'.
Proof.
  intros Hh (Hh' & c & Hc) Hk. unfold remove_segment. change (_ || _) with (keeps_segment d cutoff h).
  split; [done|]. exists c. destruct (keeps_segment d cutoff h) eqn:E; [done|].
  destruct (Remove_spec (path h) o) as [->| ->]; [done|]. rewrite lookup_delete_ne; [done|].
  intros Ep. apply path_inj in Ep; [congruence|done..].
Qed.

Lemma remove_segment_fine d cutoff o h : faults o = [] -> isfile o h -> keeps_segment d cutoff h = false ->
  faults (remove_segment d cutoff o h) = [] /\ ~ isfile (remove_segment d cutoff o h) h.
Proof.
  intros Hf (Hh & c & Hc) Hk. unfold remove_segment. change (_ || _) with (keeps_segment d cutoff h). rewrite Hk.
  unfold Remove. rewrite pop_fine by done. simpl. rewrite Hc. split; [done|].
  intros (_ & c' & Hc'). simpl in Hc'. by rewrite lookup_delete_eq in Hc'.
Qed.

Lemma remove_segment_faults d cutoff o h : faults o = [] -> faults (remove_segment d cutoff o h) = [].
Proof.
  intros Hf. unfold remove_segment. destruct (_ || _); [done|]. unfold Remove. rewrite pop_fine by done. simpl.
  by destruct (files o !! path h) as [[]|].
Qed.

Lemma remove_segments_spec d cutoff hs : forall o, Forall in_int64 hs ->
  (forall h, isfile o h -> keeps_segment d cutoff h = true -> isfile (foldl (remove_segment d cutoff) o hs) h) /\
  (faults o = [] -> forall h, h ∈ hs -> isfile (foldl (remove_segment d cutoff) o hs) h -> keeps_segment d cutoff h = true).
Proof.
  induction hs as [|h0 hs IH]; intros o Hr; cbn [foldl].
  { split; [done|]. intros _ h Hin. by apply elem_of_nil in Hin. }
  apply Forall_cons in Hr as [Hh0 Hr]. destruct (IH (remove_segment d cutoff o h0) Hr) as [IH1 IH2]. split.
  - intros h Hf Hk. apply IH1; [by apply remove_segment_keeps|done].
  - intros Hfa h Hin Hf. pose proof (remove_segment_faults d cutoff o h0 Hfa) as Hfa'.
    apply elem_of_cons in Hin as [->|Hin]; [|by apply IH2].
    destruct (keeps_segment d cutoff h0) eqn:Hk; [done|]. exfalso.
    assert (forall l o1, files (foldl (remove_segment d cutoff) o1 l) ⊆ files o1) as Hsub.
    { induction l as [|x l IHl]; intros o1; [done|]. cbn [foldl]. etrans; [apply IHl|apply remove_segment_sub]. }
    pose proof (isfile_sub _ _ _ (Hsub hs _) Hf) as Hf1.
    assert (isfile o h0) as Hf0 by (by eapply isfile_sub, Hf1; apply remove_segment_sub).
    by apply (remove_segment_fine d cutoff o h0 Hfa Hf0 Hk).
Qed.

(** ** Stores to evaluate *)

Definition empty_dir : os := MkOs ∅ [].

Definition fresh : Disk := MkDisk (Memory.NewMemory 0) 0 false None (-1) 0 false 0 0.

Lemma fresh_initial : dinitial 0 (MkWorld fresh empty_dir (fun _ => []) 0).
Proof.
  apply (d_init 0 empty_dir 0 0); [done|]. vm_compute. reflexivity.
Qed.

(** A write that is expected to succeed. *)
Definition written (d : Disk) (now : Time) (batch : list Span) (o : os) : Disk * os :=
  match Write d now batch o with Some (d, o, None) => (d, o) | _ => (d, o) end.

Definition wrote (d : Disk) (now : Time) (batch : list Span) (o : os) : bool :=
  match Write d now batch o with Some (_, _, None) => true | _ => false end.

Lemma written_step r d o A t now batch :
  wrote d now batch o = true -> in_int64 (hour_of now) -> Forall encodable batch ->
  dstep r (MkWorld d o A t)
    (MkWorld (written d now batch o).1 (written d now batch o).2 (ack A (hour_of now) batch) now).
Proof.
  unfold wrote, written. intros Hw Hh He. destruct (Write d now batch o) as [[[d' o'] [e|]]|] eqn:E; try done.
  exact (d_write r d o A t now batch d' o' None Hh He E).
Qed.

(** One span written in hour 1. *)
Definition hour1 : Time := 3600 * Second.
Definition stored : Disk * os := written fresh hour1 [sample_span] empty_dir.
Definition stored_world : dworld := MkWorld stored.1 stored.2 (ack (fun _ => []) (hour_of hour1) [sample_span]) hour1.

Lemma sample_batch : Forall encodable [sample_span].
Proof. repeat constructor; apply sample_encodable. Qed.

Lemma stored_step : dstep 0 (MkWorld fresh empty_dir (fun _ => []) 0) stored_world.
Proof.
  apply written_step; [vm_compute; reflexivity|vm_decide|apply sample_batch].
Qed.

Lemma stored_forward : forward 0 stored_world.
Proof.
  eexists. split; [apply fresh_initial|]. apply rtc_once. split; [apply stored_step|]. simpl. by unfold hour1, Second.
Qed.

Lemma stored_reachable : dreachable 0 stored_world.
Proof. eexists. split; [apply fresh_initial|]. apply rtc_once, stored_step. Qed.

(** The next write to [d] fails part way and cannot be undone; the one after it
    repairs the segment first. *)
Example failed_append_repaired :
  match Write stored.1 hour1 [sample_span] (MkOs (files stored.2) [Broken 5; Broken 0]) with
  | Some (d, o, Some e) =>
      (e, dirty d, length (content o (path 1)),
       match Write d hour1 [sample_span] o with
       | Some (d, o, None) => bool_decide (content o (path 1) = records [sample_span; sample_span])
       | _ => false
       end)
  | _ => (DClosed, false, 0%nat, false)
  end = (DRollback DAppend, true, (length (record sample_span) + 5)%nat, true).
Proof. vm_compute. reflexivity. Qed.

(** A torn record at the end of the segment of the hour. *)
Definition torn_dir (w : dworld) (h : Z) : os :=
  MkOs (alter (fun _ => File (records (acked w h) ++ [x00])) (path h) (files (dir w))) [].

Lemma crash_torn r w now : good r w -> dirty (dsk w) = false -> isfile (dir w) (hour_of now) ->
  crash_leaves w now (torn_dir w (hour_of now)) (hour_of now) [] [x00].
Proof.
  intros [I _] Hd Hf. pose proof (dinv_shape_clean _ _ _ Hd I) as S. set (h := hour_of now) in *.
  destruct Hf as (Hh & c & Hc).
  assert (forall h', isfile (torn_dir w h) h' <-> isfile (dir w) h') as Hi.
  { intros h'. eapply isfile_alter; [|done]. congruence. }
  assert (forall h', ack (acked w) h [] h' = acked w h') as Ha.
  { intros h'. unfold ack. destruct (h' =? h); [apply app_nil_r|done]. }
  split; [done|by left|right; by eexists| |apply Hi|].
  - eapply (shape_put _ _ _ h _ (ack (acked w) h [])); [exact S|done|by eexists|congruence| | |..|done].
    + rewrite Ha. cbv beta. by rewrite Z.eqb_refl.
    + rewrite Ha. apply (sh_good _ _ _ S).
    + intros h' Hne%Z.eqb_neq. rewrite Ha. cbv beta. by rewrite Hne.
  - intros h' Hf. left. by apply Hi.
Qed.

(** ** The properties *)

(** C17: whichever calls to the operating system fail, and through any writes,
    evictions, crashes and restarts, every segment holds the records of
    exactly the spans acknowledged in its hour, in order; only the segment of
    a failed append that could not be undone may hold more, after the size the
    store remembers, and no segment that holds acknowledged spans is missing. *)
Theorem segments_hold_acknowledged (r : Duration) (w : dworld) :
  dreachable r w ->
  (forall h c, in_int64 h -> files (dir w) !! path h = Some (File c) ->
     exists junk, c = records (acked w h) ++ junk /\
       (junk <> [] -> dirty (dsk w) = true /\ h = dirtyHour (dsk w) /\
                      dirtySize (dsk w) = length (records (acked w h)))) /\
  (forall h, acked w h <> [] -> exists c, files (dir w) !! path h = Some (File c)) /\
  (forall f, seg (dsk w) = Some f -> segSize (dsk w) = length (content (dir w) (path (segHour (dsk w))))).
Proof.
  intros [I _]%good_reachable. destruct (di_shape _ _ _ I) as (junk & _ & S). split_and!.
  - intros h c Hh Hc. exists (tail_of (dsk w) junk h). split; [by apply (sh_content _ _ _ S)|].
    unfold tail_of. destruct (dirty (dsk w)) eqn:Hd; [|done]. destruct (Z.eqb_spec h (dirtyHour (dsk w))) as [->|]; [|done].
    intros _. split_and!; [done..|]. apply (di_dirty _ _ _ I Hd). split; [done|by eexists].
  - intros h Hh. by destruct (sh_exists _ _ _ S h Hh).
  - intros f Hf. destruct (di_seg _ _ _ I f Hf) as (Hd & Hh & _ & (_ & c & Hc) & -> & _).
    unfold content. rewrite Hc. pose proof (sh_content _ _ _ S _ _ Hh Hc) as ->. unfold tail_of. rewrite Hd.
    by rewrite app_nil_r.
Qed.

Example segments_hold_acknowledged_witness :
  exists c junk, files stored.2 !! path 1 = Some (File c) /\ c = records [sample_span] ++ junk.
Proof.
  destruct (segments_hold_acknowledged 0 _ stored_reachable) as (H1 & H2 & _).
  destruct (H2 1) as [c Hc]; [discriminate|].
  destruct (H1 1 c) as (junk & E & _); [vm_decide|exact Hc|].
  exists c, junk. split; [exact Hc|exact E].
Defined.

(** C31: [Write] always returns.  A write that succeeds added the records of
    the whole batch to the segment of the hour and shows exactly the batch to
    searches; one that fails, at whatever call, leaves memory and what is
    acknowledged as they were. *)
Theorem disk_write_spec (r : Duration) (w : dworld) (now : Time) (batch : list Span) :
  dreachable r w -> in_int64 (hour_of now) -> Forall encodable batch ->
  exists d' o' e, Write (dsk w) now batch (dir w) = Some (d', o', e) /\
    match e with
    | Some _ => mem d' = mem (dsk w) /\
        forall h c, in_int64 h -> files o' !! path h = Some (File c) ->
          exists junk, c = records (acked w h) ++ junk /\ (junk <> [] -> dirty d' = true /\ h = dirtyHour d')
    | None => mem d' = foldl Memory.insert_span (mem (dsk w)) batch /\
        files o' !! path (hour_of now) = Some (File (records (acked w (hour_of now) ++ batch)))
    end.
Proof.
  intros [I _]%good_reachable Hh He. destruct (Write_spec _ _ _ _ _ I Hh He) as (d' & o' & e & E & M & _ & _ & H).
  exists d', o', e. split; [done|]. destruct e as [e|].
  - destruct H as [[(junk & _ & S) _ _ _] Hm]. split; [done|]. intros h c Hh' Hc. exists (tail_of d' junk h).
    split; [by apply (sh_content _ _ _ S)|]. unfold tail_of.
    destruct (dirty d'); [|done]. by destruct (Z.eqb_spec h (dirtyHour d')) as [->|].
  - destruct H as (_ & I' & _ & Hm & (_ & c & Hc) & Hd). split; [done|]. rewrite Hc.
    pose proof (dinv_shape_clean _ _ _ Hd I') as S. rewrite (sh_content _ _ _ S _ _ Hh Hc).
    unfold ack. by rewrite Z.eqb_refl, app_nil_r.
Qed.

Example disk_write_spec_witness :
  exists d' o' e, Write stored.1 hour1 [sample_span] stored.2 = Some (d', o', e).
Proof.
  destruct (disk_write_spec 0 _ hour1 [sample_span] stored_reachable) as (d' & o' & e & E & _);
    [vm_decide|exact sample_batch|].
  exists d', o', e. exact E.
Defined.

(** ** A store whose calls succeed *)

(** It is open, the calls to come succeed, its segment was not left closed by
    a close that failed, and no directory stands where a segment belongs. *)
Record sound (d : Disk) (o : os) : Prop := {
  so_open : dclosed d = false;
  so_calls : faults o = [];
  so_seg f : seg d = Some f -> fclosed f = false;
  so_plain h : files o !! path h <> Some Dir;
}.

Lemma plain_alter o n c : (forall h, files o !! path h <> Some Dir) ->
  forall h, files (put_content n c o) !! path h <> Some Dir.
Proof.
  intros H h. unfold put_content; cbn [set_files files]. destruct (decide (n = path h)) as [->|]; [|by rewrite lookup_alter_ne].
  rewrite lookup_alter_eq. by destruct (files o !! path h).
Qed.

Lemma plain_create o n : (forall h, files o !! path h <> Some Dir) -> forall h, files (create n o) !! path h <> Some Dir.
Proof.
  intros H h. rewrite create_files. destruct (files o !! n) eqn:E; [done|]. by intros [[_ ?]|[_ ?%H]]%lookup_insert_Some.
Qed.

Lemma create_faults n o : faults (create n o) = faults o.
Proof. unfold create. by destruct (files o !! n). Qed.

Lemma repair_sound d o : sound d o -> exists o', repair d o = (set_clean d, o', None) /\ sound (set_clean d) o'.
Proof.
  intros [S1 S2 S3 S4]. unfold repair, Truncate. rewrite pop_fine by done. cbn [failed].
  pose proof (S4 (dirtyHour d)) as Hd. destruct (files o !! path (dirtyHour d)) as [[|c]|] eqn:E; [done| |].
  - eexists. split; [done|]. split; [done|done|done|]. by apply plain_alter.
  - exists o. by split; [|split].
Qed.

Lemma roll_open_sound d o hour : sound d o -> exists d' o' f, roll_open d o hour = (d', o', None) /\ sound d' o' /\
  seg d' = Some f.
Proof.
  intros Hs. unfold roll_open. assert (exists d1 o1, (if dirty d then repair d o else (d, o, None)) = (d1, o1, None) /\ sound d1 o1)
    as (d1 & o1 & -> & [S1 S2 S3 S4]).
  { destruct (dirty d); [destruct (repair_sound d o Hs) as (o' & -> & ?)|]; by do 2 eexists. }
  unfold OpenFile. rewrite pop_fine by done. pose proof (S4 hour) as Hd.
  assert (match files o1 !! path hour with Some Dir => (None, o1) | _ => (Some (MkFile (path hour) 0 false), create (path hour) o1) end =
    (Some (MkFile (path hour) 0 false), create (path hour) o1)) as -> by (by destruct (files o1 !! path hour) as [[]|]).
  unfold File_SeekEnd. cbn [fclosed]. rewrite pop_fine by (by rewrite create_faults). cbn [failed].
  do 3 eexists. split; [done|]. split; [|done]. split; simpl; [done|by rewrite create_faults|by intros f [= <-]|by apply plain_create].
Qed.

Lemma roll_sound d o now : sound d o -> exists d' o' f, roll d now o = (d', o', None) /\ sound d' o' /\ seg d' = Some f.
Proof.
  intros Hs. unfold roll. destruct (seg d) as [f|] eqn:Ef; [|by apply roll_open_sound].
  destruct (_ =? _); [by exists d, o, f|]. destruct Hs as [S1 S2 S3 S4]. unfold File_Close. rewrite (S3 f Ef), pop_fine by done.
  cbn [failed]. by apply roll_open_sound.
Qed.

Lemma append_sound d o f b : sound d o -> seg d = Some f -> exists d' o', append d f b o = (d', o', None) /\ sound d' o'.
Proof.
  intros [S1 S2 S3 S4] Ef. unfold append, File_Write, File_Sync. rewrite (S3 f Ef), pop_fine by done. cbn [fclosed failed].
  rewrite pop_fine by done. cbn [failed]. do 2 eexists. split; [done|]. split; simpl; [done|done|by intros g [= <-]|by apply plain_alter].
Qed.

(** C39: when calls no longer fail, the store works again, whatever failed
    before: a write of valid spans that fit their records succeeds, what a
    failed write had left is gone, every segment reads as exactly what is
    acknowledged, the batch last in that of the hour, and the next write finds
    the store in such a state again.  The exception is a store whose segment
    was left closed by a close that failed. *)
Theorem disk_heals (r : Duration) (w : dworld) (now : Time) (batch : list Span) :
  dreachable r w -> sound (dsk w) (dir w) -> in_int64 (hour_of now) -> Forall good_span batch ->
  exists d' o', Write (dsk w) now batch (dir w) = Some (d', o', None) /\ sound d' o' /\ dirty d' = false /\
    mem d' = foldl Memory.insert_span (mem (dsk w)) batch /\
    forall h, in_int64 h ->
      segment_spans o' h = acked w h ++ (if h =? hour_of now then batch else []) /\
      forall c, files o' !! path h = Some (File c) -> c = records (segment_spans o' h).
Proof.
  intros [I _]%good_reachable Hs Hh Hg.
  assert (Forall valid_span batch /\ Forall encodable batch /\ Forall (fun s => fits s = true) batch) as (Hv & He & Hfits)
    by (split_and!; (eapply Forall_impl; [exact Hg|by intros s []])).
  assert (exists d' o', Write (dsk w) now batch (dir w) = Some (d', o', None) /\ sound d' o') as (d' & o' & E & Hs').
  { unfold Write. rewrite (proj2 (Memory.first_invalid_none 0 batch) Hv), (so_open _ _ Hs).
    destruct (roll_sound _ _ now Hs) as (d1 & o1 & f & Er & Hs1 & Ef). rewrite Er.
    destruct (frame_all_spec batch 0 []) as [[_ ->]|(j & s & Hj & Hx & _)].
    2:{ rewrite Forall_forall in Hfits. rewrite (Hfits s) in Hx by by eapply list_elem_of_lookup_2. done. }
    rewrite Ef. cbn [mbind option_bind]. destruct (append_sound d1 o1 f ([] ++ records batch) Hs1 Ef) as (d2 & o2 & Ea & Hs2). rewrite Ea.
    destruct (roll_spec _ _ _ _ _ _ _ I Hh Er) as (I1 & _ & _).
    destruct (append_spec _ _ _ _ _ _ _ _ I1 Ef Hg Ea) as ([I2 _] & _).
    rewrite MemorySpec.Write_ok; [|by apply Memory.first_invalid_none|rewrite (di_closed _ _ _ I2); apply Hs2].
    do 2 eexists. split; [done|]. destruct Hs2. by split. }
  exists d', o'. destruct (Write_spec _ _ _ _ _ I Hh He) as (d2 & o2 & e & E2 & _ & _ & _ & H).
  rewrite E in E2. injection E2 as <- <- <-. destruct H as (_ & I' & _ & Hm & _ & Hd). split_and!; [done..|].
  intros h Hin. pose proof (dinv_shape_clean _ _ _ Hd I') as S.
  rewrite (segment_spans_shape _ _ _ _ S (fun _ => or_introl eq_refl) Hin). split.
  - unfold ack. destruct (h =? hour_of now); [done|by rewrite app_nil_r].
  - intros c Hc. rewrite (sh_content _ _ _ S _ _ Hin Hc). apply app_nil_r.
Qed.

Lemma no_directories o : forallb (fun e => match e.2 with Dir => false | File _ => true end) (map_to_list (files o)) = true ->
  forall h, files o !! path h <> Some Dir.
Proof.
  rewrite forallb_forall. intros Hn h Hd. discriminate (Hn (path h, Dir)). by apply list_elem_of_In, elem_of_map_to_list.
Qed.

(** The first write failed part way and could not be undone. *)
Definition faulty_open : Disk * os :=
  match OpenDisk 0 0 0 (MkOs ∅ [Fine; Fine; Fine; Fine; Broken 5; Broken 0]) with (Ok d, o) => (d, o) | (_, o) => (fresh, o) end.
Definition broken : Disk * os :=
  match Write faulty_open.1 hour1 [sample_span] faulty_open.2 with Some (d, o, Some _) => (d, o) | _ => faulty_open end.
Definition broken_world : dworld := MkWorld broken.1 broken.2 (fun _ => []) hour1.

Lemma broken_reachable : dreachable 0 broken_world.
Proof.
  assert (exists e, Write faulty_open.1 hour1 [sample_span] faulty_open.2 = Some (broken.1, broken.2, Some e)) as [e E]
    by (eexists; vm_compute; reflexivity).
  exists (MkWorld faulty_open.1 faulty_open.2 (fun _ => []) 0). split.
  - apply (d_init 0 (MkOs ∅ [Fine; Fine; Fine; Fine; Broken 5; Broken 0]) 0 0); [done|]. vm_compute. reflexivity.
  - apply rtc_once. exact (d_write 0 _ _ _ _ hour1 _ _ _ _ ltac:(vm_decide) sample_batch E).
Qed.

Example disk_heals_witness :
  dirty broken.1 = true /\ content broken.2 (path 1) = take 5 (record sample_span) /\
  exists d' o', Write broken.1 hour1 [sample_span; sample_span] broken.2 = Some (d', o', None) /\
    segment_spans o' 1 = [sample_span; sample_span].
Proof.
  split; [vm_compute; reflexivity|]. split; [vm_compute; reflexivity|].
  destruct (disk_heals 0 broken_world hour1 [sample_span; sample_span] broken_reachable) as (d' & o' & E & _ & _ & _ & Hs).
  - split; [reflexivity|reflexivity| |].
    + intros f Hf. assert (seg broken.1 = None) as Hn by (vm_compute; reflexivity). cbn [broken_world dsk] in Hf. congruence.
    + apply no_directories. vm_compute. reflexivity.
  - vm_decide.
  - repeat constructor; apply sample_good.
  - exists d', o'. split; [exact E|]. destruct (Hs 1) as [E1 _]; [vm_decide|exact E1].
Defined.

(** C16: with a clock that does not run backwards, after a crash at any moment,
    even in the middle of a write or with the directory dirty, a restart in
    which no call fails succeeds; the store then serves what replaying the
    segments gives, and if it keeps everything this is exactly what it served
    before the crash followed by spans of the unfinished write. *)
Theorem crash_recovery (r : Duration) (w : dworld) (now : Time) (o : os) (h0 : Z) (l : list Span)
    (rest : list byte) (now1 now2 : Time) :
  forward r w -> clock w <= now -> crash_leaves w now o h0 l rest -> faults o = [] ->
  exists d' o', OpenDisk r now1 now2 o = (Ok d', o') /\
    mem d' = (Memory.EvictExpired
                (foldl Memory.insert_span (Memory.NewMemory r) (live (dir w) (acked w) ++ l)) now1).1 /\
    (r <= 0 -> dclosed (dsk w) = false -> mem d' = foldl Memory.insert_span (mem (dsk w)) l).
Proof.
  intros O%ordered_forward Ht C Hf. destruct (ordered_crash _ _ _ _ _ _ _ O Ht C) as (Hh0 & Hmax & Hlive).
  pose proof (cr_shape _ _ _ _ _ _ C) as S. pose proof (fun h => tail_ok_if (h =? h0) _ (cr_tail _ _ _ _ _ _ C)) as Htail.
  destruct (OpenDisk_total r now1 now2 o _ _ S Htail Hf) as (d' & o' & E).
  { intros h Hin. destruct (Z.eqb_spec h h0) as [->|]; [|done]. intros _.
    destruct (hours_max o _ _ h0 S (proj1 (elem_of_hours _ _ _ _ S) Hin) Hmax) as (hs & -> & _). apply last_snoc. }
  exists d', o'. destruct (OpenDisk_spec _ _ _ _ _ _ _ _ S Htail E) as (Hm & _).
  rewrite Hlive in Hm. split_and!; [done..|]. intros Hr Hc.
  rewrite Hm, evict_nothing, insert_all_app by (by rewrite insert_all_retention). by rewrite (or_mem _ _ O Hr Hc).
Qed.

Example crash_recovery_witness :
  exists d' o', OpenDisk 0 hour1 hour1 (torn_dir stored_world (hour_of hour1)) = (Ok d', o') /\ mem d' = mem stored.1.
Proof.
  assert (isfile (dir stored_world) (hour_of hour1)) as Hf.
  { split; [vm_decide|]. eexists. vm_compute. reflexivity. }
  destruct (crash_recovery 0 stored_world hour1 (torn_dir stored_world (hour_of hour1)) (hour_of hour1) [] [x00] hour1 hour1
              stored_forward) as (d' & o' & E & _ & Hm).
  - reflexivity.
  - apply (crash_torn 0); [apply (good_reachable _ _ stored_reachable)|vm_compute; reflexivity|exact Hf].
  - reflexivity.
  - exists d', o'. split; [exact E|]. apply Hm; [reflexivity|vm_compute; reflexivity].
Defined.

(** C34: with a retention, [EvictExpired] never deletes the segment being
    written nor one that may have taken a write within the retention, whichever
    calls fail, and touches no other file's content; when no call fails every
    segment whose whole hour is older is gone. *)
Theorem retention_keeps_recent (r : Duration) (w : dworld) (now now' : Time) (d' : Disk) (o' : os) (n : Z) :
  dreachable r w -> 0 < r -> EvictExpired (dsk w) now now' (dir w) = (d', o', n) ->
  files o' ⊆ files (dir w) /\
  (forall h, isfile (dir w) h ->
     (exists t, now' - r <= t /\ hour_of t = h) \/ (seg (dsk w) <> None /\ h = segHour (dsk w)) -> isfile o' h) /\
  (faults (dir w) = [] -> forall h, isfile o' h ->
     hour_of (now' - r) < h + 1 \/ (seg (dsk w) <> None /\ h = segHour (dsk w))).
Proof.
  intros [I Hr]%good_reachable Hpos E. destruct (dinv_some_shape _ _ _ I) as [u S].
  pose proof (EvictExpired_spec _ _ _ now now' I) as H. rewrite E in H. destruct H as (_ & Hsub & _).
  split; [done|]. unfold EvictExpired, evict_memory, evict_disk in E. destruct (Memory.EvictExpired _ _) as [m k]. simpl in E. rewrite Hr in E.
  destruct (Z.leb_spec r 0); [lia|]. injection E as _ <- _. set (d := set_mem m (dsk w)) in *.
  change (Time.Add now' (- r)) with (now' - r) in *. set (cut := hour_of (now' - r)) in *.
  assert (forall h, keeps_segment d cut h = true <-> cut < h + 1 \/ (seg (dsk w) <> None /\ h = segHour (dsk w))) as Hk.
  { intros h. unfold keeps_segment. rewrite orb_true_iff, andb_true_iff, Z.ltb_lt, Z.eqb_eq, bool_decide_eq_true.
    by rewrite <-not_eq_None_Some. }
  unfold evict_segments in *. destruct (segments (dir w)) as [[hs|] o1] eqn:Es; pose proof (segments_spec _ _ _ Es) as [Fo Hhs].
  2:{ split.
      - intros h Hf _. by apply (isfile_files (dir w)).
      - intros Hfa. exfalso. unfold segments, ReadDir in Es. by rewrite pop_fine in Es. }
  specialize (Hhs hs eq_refl). subst hs.
  assert (Forall in_int64 (hours (dir w))) as Hint.
  { apply Forall_forall. intros h Hin. by apply (elem_of_hours _ _ _ _ S). }
  destruct (remove_segments_spec d cut (hours (dir w)) o1 Hint) as [R1 R2]. split.
  - intros h Hf Hor. apply R1; [by apply (isfile_files (dir w))|]. apply Hk.
    destruct Hor as [(t & Ht & <-)|?]; [left|by right]. pose proof (hour_mono _ _ Ht). unfold cut. lia.
  - intros Hfa h Hf. apply Hk. apply R2; [|by apply (elem_of_hours _ _ _ _ S), (isfile_sub _ _ _ Hsub)|done].
    unfold segments, ReadDir in Es. rewrite pop_fine in Es by done. by injection Es as <-.
Qed.

(** A store that keeps two hours, after writes in hours 1 and 2. *)
Definition fresh2 : Disk := MkDisk (Memory.NewMemory (2 * hour1)) (2 * hour1) false None (-1) 0 false 0 0.
Definition kept1 : Disk * os := written fresh2 hour1 [sample_span] empty_dir.
Definition kept2 : Disk * os := written kept1.1 (2 * hour1) [sample_span] kept1.2.

Lemma kept2_reachable : exists A, dreachable (2 * hour1) (MkWorld kept2.1 kept2.2 A (2 * hour1)).
Proof.
  eexists. exists (MkWorld fresh2 empty_dir (fun _ => []) 0). split.
  - apply (d_init _ empty_dir 0 0); [done|]. vm_compute. reflexivity.
  - eapply rtc_l; [|apply rtc_once].
    + apply (written_step _ fresh2 empty_dir _ 0 hour1 [sample_span]); [vm_compute; reflexivity|vm_decide|apply sample_batch].
    + apply (written_step _ kept1.1 kept1.2 _ _ (2 * hour1) [sample_span]);
        [vm_compute; reflexivity|vm_decide|apply sample_batch].
Qed.

Example retention_keeps_recent_witness :
  exists d' o' n, EvictExpired kept2.1 (4 * hour1) (4 * hour1) kept2.2 = (d', o', n) /\ isfile o' 2 /\ ~ isfile o' 1.
Proof.
  destruct kept2_reachable as [A HA].
  destruct (EvictExpired kept2.1 (4 * hour1) (4 * hour1) kept2.2) as [[d' o'] n] eqn:E.
  destruct (retention_keeps_recent _ _ _ _ _ _ _ HA eq_refl E) as (_ & H1 & H2).
  exists d', o', n. split; [reflexivity|]. split.
  - apply H1; [|left; exists (2 * hour1); split; [vm_compute; discriminate|reflexivity]].
    split; [vm_decide|]. eexists. vm_compute. reflexivity.
  - intros Hf. destruct (H2 ltac:(vm_compute; reflexivity) 1 Hf) as [Hlt|[_ Hh]].
    + vm_compute in Hlt. discriminate.
    + vm_compute in Hh. discriminate.
Defined.

(** ** Where the store falls short *)

(** When closing the segment of an earlier hour fails, the write fails,
    and so does every later write of any hour but that one, however well the
    calls go: the closed file stays the open segment, and closing it again
    fails. *)
Theorem failed_close_sticks (d : Disk) (f : file) (o : os) (now : Time) (batch : list Span) :
  seg d = Some f -> dclosed d = false -> Forall valid_span batch -> hour_of now <> segHour d ->
  (File_Close f o).1.2 = true ->
  exists d' o', Write d now batch o = Some (d', o', Some DCloseSegment) /\
    forall now' batch' o2, Forall valid_span batch' -> hour_of now' <> segHour d ->
      Write d' now' batch' o2 = Some (d', o2, Some DCloseSegment).
Proof.
  intros Hf Hc Hv Hne%Z.eqb_neq Hbad. unfold Write at 1. rewrite (proj2 (Memory.first_invalid_none 0 batch) Hv), Hc.
  unfold roll. rewrite Hf, Hne. destruct (File_Close f o) as [[f1 bad] o1] eqn:E. simpl in Hbad. subst bad.
  apply File_Close_spec in E as (_ & _ & Hcl). exists (set_seg (Some f1) d), o1. split; [done|].
  intros now' batch' o2 Hv' Hne'%Z.eqb_neq. unfold Write.
  rewrite (proj2 (Memory.first_invalid_none 0 batch') Hv'). simpl. rewrite Hc. unfold roll. simpl.
  rewrite Hne'. unfold File_Close. by rewrite Hcl.
Qed.

(** The first write of the second hour, when the close fails. *)
Example failed_close_sticks_witness :
  exists d' o', Write stored.1 (2 * hour1) [sample_span] (MkOs (files stored.2) [Broken 0]) = Some (d', o', Some DCloseSegment) /\
    Write d' (3 * hour1) [sample_span] o' = Some (d', o', Some DCloseSegment).
Proof.
  assert (Forall valid_span [sample_span]) as Hv by (repeat constructor; apply sample_good).
  destruct (failed_close_sticks stored.1 (MkFile (path 1) (length (record sample_span)) false)
              (MkOs (files stored.2) [Broken 0]) (2 * hour1) [sample_span]) as (d' & o' & E & H).
  - vm_compute. reflexivity.
  - vm_compute. reflexivity.
  - exact Hv.
  - vm_compute. discriminate.
  - reflexivity.
  - exists d', o'. split; [exact E|]. apply H; [exact Hv|]. vm_compute. discriminate.
Defined.

(** Every segment before [h0] is clean, so replay stops there. *)
Lemma replay_all_refuses A h0 h1 hs2 : forall hs1 m o t m' o' e,
  Memory.closed m = false -> shape o A t -> (forall h, t h = [] \/ h = h0) -> t h0 <> [] -> unreadable (t h0) ->
  Forall (isfile o) (hs1 ++ h0 :: h1 :: hs2) -> h0 ∉ hs1 -> faults o = [] ->
  replay_all m o (hs1 ++ h0 :: h1 :: hs2) = (m', o', e) -> exists n err, e = Some (ErrCorruptSegment h0 n err).
Proof.
  induction hs1 as [|h hs1 IH]; intros m o t m' o' e Hc S Ht Hne Hu Hf Hh Hfa; cbn [app replay_all].
  - rewrite bool_decide_false by done. destruct (replay m o h0 false) as [[m1 o1] e1] eqn:E1.
    apply Forall_cons in Hf as [Hf _].
    destruct (replay_spec _ _ _ _ _ _ _ _ _ Hc S Hf (or_intror Hu) E1) as (_ & _ & Hbad).
    destruct (Hbad Hfa Hne eq_refl) as (n & err & ->). intros [= _ _ <-]. by do 2 eexists.
  - apply not_elem_of_cons in Hh as [Hne0 Hh]. cbn [app] in Hf. apply Forall_cons in Hf as [Hfh Hf].
    assert (t h = []) as Hth by (destruct (Ht h); [done|congruence]).
    destruct (replay m o h _) as [[m1 o1] e1] eqn:E1.
    destruct (replay_spec _ _ _ _ _ _ _ _ _ Hc S Hfh (or_introl Hth) E1) as (Hok & Hfine & _).
    destruct (Hfine Hfa (or_introl Hth)) as [-> Hfa1]. destruct (Hok eq_refl) as (-> & Hi & S1).
    apply (IH _ _ (fun h' => if h' =? h then [] else t h')).
    + by rewrite MemorySpec.insert_all_closed.
    + done.
    + intros h'. destruct (h' =? h); [by left|apply Ht].
    + apply not_eq_sym, Z.eqb_neq in Hne0 as E. by rewrite Z.eqb_sym, E.
    + apply not_eq_sym, Z.eqb_neq in Hne0 as E. by rewrite Z.eqb_sym, E.
    + apply (Forall_impl _ _ _ Hf). intros h'. apply Hi.
    + done.
    + done.
Qed.

(** A torn record in a segment that is not the newest can be the result of
    a crash after all: when the clock steps back to the hour of an earlier
    segment while a newer one exists, a crash in the middle of a write leaves
    a directory that no restart opens. *)
Theorem clock_step_refuses (r : Duration) (w : dworld) (now : Time) (h1 : Z) :
  dreachable r w -> dirty (dsk w) = false -> isfile (dir w) (hour_of now) ->
  isfile (dir w) h1 -> hour_of now < h1 ->
  exists o, crash_leaves w now o (hour_of now) [] [x00] /\ faults o = [] /\
    forall now1 now2, exists n e, (OpenDisk r now1 now2 o).1 = Err (ErrCorruptSegment (hour_of now) n e).
Proof.
  intros G%good_reachable Hd Hf Hf1 Hlt. pose proof (crash_torn r w now G Hd Hf) as C.
  set (o := torn_dir w (hour_of now)) in *. set (h0 := hour_of now) in *. exists o. split_and!; [done|done|].
  intros now1 now2. pose proof (cr_shape _ _ _ _ _ _ C) as S.
  assert (h0 ∈ hours o) as (l1 & l2 & E)%list_elem_of_split by by apply (elem_of_hours _ _ _ _ S), (cr_keeps _ _ _ _ _ _ C).
  assert (h1 ∈ hours o) as Hin1 by by apply (elem_of_hours _ _ _ _ S), (cr_keeps _ _ _ _ _ _ C).
  pose proof (hours_NoDup _ _ _ S) as Hnd. pose proof (hours_sorted o) as Hs.
  assert (Forall (isfile o) (hours o)) as Hall by (apply Forall_forall; intros h; by apply (elem_of_hours _ _ _ _ S)).
  unfold OpenDisk, MkdirAll. rewrite pop_fine by done. simpl failed. cbv iota.
  unfold segments, ReadDir. rewrite pop_fine by done. simpl failed. cbv iota. cbn [fmap option_fmap option_map].
  change (_ (map_to_list (files o))) with (hours o). rewrite E in *.
  apply NoDup_app in Hnd as (_ & Hnd1 & Hnd2). destruct l2 as [|h2 l2].
  { exfalso. apply elem_of_app in Hin1 as [Hin|Hin%list_elem_of_singleton]; [|lia].
    pose proof (sorted_before _ _ _ _ Hs Hin). lia. }
  destruct (replay_all (Memory.NewMemory r) o (l1 ++ h0 :: h2 :: l2)) as [[m o3] e] eqn:Er.
  assert (forall h, (if h =? h0 then [x00] else []) = [] \/ h = h0) as Ht
    by (intros h; destruct (Z.eqb_spec h h0); auto).
  assert (readRecord [x00] = Err UnexpectedEOF) as Hu by done.
  assert (exists n err, e = Some (ErrCorruptSegment h0 n err)) as (n & err & ->).
  { eapply (replay_all_refuses _ h0 h2 l2 l1); [| exact S|exact Ht|..|exact Er]; try done.
    - cbv beta. by rewrite Z.eqb_refl.
    - cbv beta. rewrite Z.eqb_refl. by eexists.
    - intros Hin. apply (Hnd1 h0 Hin). by left. }
  by do 2 eexists.
Qed.

(** A write of hour 1 after a write of hour 2. *)
Definition two_hours : Disk * os := written fresh (2 * hour1) [sample_span] empty_dir.
Definition stepped_back : Disk * os := written two_hours.1 hour1 [sample_span] two_hours.2.

Lemma stepped_back_reachable : exists A, dreachable 0 (MkWorld stepped_back.1 stepped_back.2 A hour1).
Proof.
  eexists. exists (MkWorld fresh empty_dir (fun _ => []) 0). split; [apply fresh_initial|].
  eapply rtc_l; [|apply rtc_once].
  - apply (written_step 0 fresh empty_dir _ 0 (2 * hour1) [sample_span]); [vm_compute; reflexivity|vm_decide|apply sample_batch].
  - apply (written_step 0 two_hours.1 two_hours.2 _ _ hour1 [sample_span]);
      [vm_compute; reflexivity|vm_decide|apply sample_batch].
Qed.

Example clock_step_refuses_witness :
  exists A o, crash_leaves (MkWorld stepped_back.1 stepped_back.2 A hour1) hour1 o 1 [] [x00] /\
    forall now1 now2, exists n e, (OpenDisk 0 now1 now2 o).1 = Err (ErrCorruptSegment 1 n e).
Proof.
  destruct stepped_back_reachable as [A HA].
  destruct (clock_step_refuses 0 _ hour1 2 HA) as (o & H1 & _ & H2).
  - vm_compute. reflexivity.
  - split; [vm_decide|]. eexists. vm_compute. reflexivity.
  - split; [vm_decide|]. eexists. vm_compute. reflexivity.
  - reflexivity.
  - exists A, o. split; [exact H1|exact H2].
Defined.

(** A file whose name parses as an hour but is not how that hour is written is
    listed, and then its segment is not found: the directory does not open. *)
Example odd_name_refuses :
  (OpenDisk 0 0 0 (MkOs {[segmentPrefix ++ list_byte_of_string "012" ++ segmentSuffix := File []]} [])).1 = Err (DRead 12).
Proof. vm_compute. reflexivity. Qed.
