(* ===== verification/DiskCrash.v ===== *)
(** * A killed process and its directory

    [DiskProps] says what a crash may leave in terms of the spans that were
    acknowledged.  Here it is said of the files alone: what a killed process
    leaves is each segment up to its last acknowledged byte, and after that, in
    the segment it was writing or had left to repair, some whole records and
    perhaps the beginning of another. *)

From S2P Require Import Prelude GoTime GoBytes Ident Value Span Codec Frame Query.
From S2P Require Memory MemorySpec.
From S2P Require Import GoStrings Os Disk DiskSpec DiskProps.

(** What [Sync] has returned for: all of a segment, or, if a failed append is
    still to be undone, its beginning. *)
Definition durable (d : Disk) (o : os) (h : Z) : list byte :=
  let c := content o (path h) in
  if dirty d && (h =? dirtyHour d) then take (dirtySize d) c else c.

(** The directory [o1] of a process killed at the time [now], its store being
    [d] and its directory [o] when the write it was in, if any, began. *)
Record killed (d : Disk) (now : Time) (o o1 : os) (h0 : Z) (l : list Span) (rest : list byte) : Prop := {
  ki_now : in_int64 (hour_of now);
  ki_which : h0 = hour_of now \/ (dirty d = true /\ h0 = dirtyHour d);
  ki_spans : Forall good_span l;
  ki_tail : tail_ok rest;
  ki_others : forall n e, files o1 !! n = Some e -> files o !! n = Some e \/ exists h, in_int64 h /\ n = path h;
  ki_old : forall h c, in_int64 h -> files o !! path h = Some (File c) ->
    files o1 !! path h = Some (File (durable d o h ++ if h =? h0 then records l ++ rest else []));
  ki_new : forall h c, in_int64 h -> ~ isfile o h -> files o1 !! path h = Some (File c) -> h = h0 /\ c = records l ++ rest;
  ki_whole : l <> [] -> isfile o1 h0;
}.

Lemma durable_records d o A h : dinv d o A -> isfile o h -> durable d o h = records (A h).
Proof.
  intros [(junk & _ & S) _ Hd _] Hf. pose proof Hf as (Hh & c & Hc). unfold durable, content. rewrite Hc.
  rewrite (sh_content _ _ _ S h c Hh Hc). unfold tail_of. destruct (dirty d) eqn:Ed; simpl; [|by rewrite app_nil_r].
  destruct (Z.eqb_spec h (dirtyHour d)) as [->|]; [|by rewrite app_nil_r].
  destruct (Hd eq_refl) as [_ Hsize]. rewrite (Hsize Hf). apply take_app_length.
Qed.

Lemma which_range d o A now o1 h0 l rest : dinv d o A -> killed d now o o1 h0 l rest -> in_int64 h0.
Proof. intros [_ _ Hd _] K. destruct (ki_which _ _ _ _ _ _ _ K) as [->|[Ed ->]]; [apply K|by apply Hd]. Qed.

Lemma isfile_or_not o h : isfile o h \/ ~ isfile o h.
Proof.
  unfold isfile. destruct (decide (in_int64 h)) as [Hh|]; [|right; by intros []].
  destruct (files o !! path h) as [[|c]|] eqn:E; [right; by intros (_ & c & ?)|left; split; [done|by exists c]|right; by intros (_ & c & ?)].
Qed.

Lemma killed_shape d o A now o1 h0 l rest : dinv d o A -> killed d now o o1 h0 l rest ->
  shape o1 (ack A h0 l) (fun h => if h =? h0 then rest else []).
Proof.
  intros I K. pose proof (which_range _ _ _ _ _ _ _ _ I K) as Hh0. pose proof (fun h => durable_records d o A h I) as Hdur.
  destruct (dinv_some_shape _ _ _ I) as [u [S1 S2 S3 S4]]. destruct K as [K1 K2 K3 K4 K5 K6 K7 K8]. split.
  - intros n e h Hn Hs. destruct (K5 n e Hn) as [Ho|(h' & Hh' & ->)]; [by eapply S1|].
    destruct e as [|c]; [done|]. rewrite segment_hour_path in Hs by done. by injection Hs as ->.
  - intros h c Hh Hc. assert (isfile o h \/ ~ isfile o h) as [(_ & c0 & Eo)|Hno] by apply isfile_or_not.
    2:{ destruct (K7 h c Hh Hno Hc) as [-> ->]. unfold ack. rewrite Z.eqb_refl.
        destruct (decide (A h0 = [])) as [->|E]; [done|]. by destruct Hno, (S3 h0 E). }
    rewrite (K6 h c0 Hh Eo) in Hc. injection Hc as <-. rewrite Hdur by (split; [done|by exists c0]).
    unfold ack. destruct (h =? h0); [by rewrite records_app, app_assoc|done].
  - intros h Hne. destruct (decide (A h = [])) as [E|E].
    + unfold ack in Hne. rewrite E in Hne. destruct (Z.eqb_spec h h0) as [Eh|]; [|done]. rewrite Eh. by apply K8.
    + destruct (S3 h E) as (Hh & x & Hx). split; [done|]. eexists. by eapply K6.
  - intros h. unfold ack. destruct (h =? h0); [by apply Forall_app|done].
Qed.

(** It is a crash in the sense of [DiskProps]. *)
Lemma killed_crash_leaves d o A t now o1 h0 l rest : dinv d o A -> killed d now o o1 h0 l rest ->
  crash_leaves (DiskProps.MkWorld d o A t) now o1 h0 l rest.
Proof.
  intros I K. pose proof (killed_shape _ _ _ _ _ _ _ _ I K) as S. destruct K as [K1 K2 K3 K4 K5 K6 K7 K8]. split; simpl; try done.
  - intros h [Hh [c Hc]]. split; [done|]. eexists. by eapply K6.
  - intros h [Hh [c Hc]]. destruct (isfile_or_not o h) as [Hf|Hno]; [by left|right]. by destruct (K7 h c Hh Hno Hc).
Qed.

(** When no segment is newer than the one that was being written, it opens. *)
Lemma killed_opens r d o A now o1 h0 l rest now1 now2 : dinv d o A -> killed d now o o1 h0 l rest ->
  (forall h, isfile o h -> h <= h0) -> faults o1 = [] -> exists d' o', OpenDisk r now1 now2 o1 = (Ok d', o').
Proof.
  intros I K Hnew Hf. pose proof (killed_shape _ _ _ _ _ _ _ _ I K) as S.
  pose proof (killed_crash_leaves _ _ _ now _ _ _ _ _ I K) as C.
  assert (forall h, isfile o1 h -> h <= h0) as Hmax.
  { intros h Hh. destruct (cr_adds _ _ _ _ _ _ C h Hh) as [Ho| ->]; [by apply Hnew|done]. }
  apply (OpenDisk_total r now1 now2 o1 _ _ S); [intros h; by apply tail_ok_if, K|done|].
  intros h Hin. destruct (Z.eqb_spec h h0) as [->|]; [|done]. intros _.
  destruct (hours_max o1 _ _ h0 S (proj1 (elem_of_hours _ _ _ _ S) Hin) Hmax) as (hs & -> & _). apply last_snoc.
Qed.

(** A directory to evaluate: the segment [h] torn in the middle of a record. *)
Definition torn_at (h : Z) (o : os) : os :=
  MkOs (alter (fun e => match e with File c => File (c ++ [x00]) | Dir => Dir end) (path h) (files o)) [].

Lemma torn_at_killed d o now : dirty d = false -> isfile o (hour_of now) ->
  killed d now o (torn_at (hour_of now) o) (hour_of now) [] [x00].
Proof.
  intros Hd (Hh & c0 & Hc0). set (h0 := hour_of now) in *.
  split; cbn [torn_at files]; try done; [by left|right; by eexists|..].
  - intros n e. destruct (decide (n = path h0)) as [->|Hne]; [intros _; right; by exists h0|].
    rewrite lookup_alter_ne by done. by left.
  - intros h c Hh' Hc. unfold durable, content. rewrite Hd, Hc. cbn [andb]. destruct (Z.eqb_spec h h0) as [->|Hne].
    + by rewrite lookup_alter_eq, Hc.
    + rewrite lookup_alter_ne, app_nil_r by (intros E; by apply Hne, path_inj). done.
  - intros h c Hh' Hno. destruct (decide (h = h0)) as [->|Hne]; [destruct Hno; split; [done|by exists c0]|].
    rewrite lookup_alter_ne by (intros E; by apply Hne, path_inj). intros Hc. destruct Hno. split; [done|by exists c].
Qed.

(** A process killed between two writes leaves its directory as it is. *)
Lemma idle_killed d o now : in_int64 (hour_of now) -> dirty d = false -> killed d now o (MkOs (files o) []) (hour_of now) [] [].
Proof.
  intros Hn Hd. split; cbn [files]; try done; [by left|by left|intros n e; by left|..].
  - intros h c Hh Hc. unfold durable, content. rewrite Hd, Hc. cbn [andb]. destruct (h =? hour_of now); by rewrite app_nil_r.
  - intros h c Hh Hno Hc. destruct Hno. split; [done|by exists c].
Qed.
