(* ===== verification/Store.v ===== *)
(** * The store interface: [storage.Store] in [internal/storage/storage.go]

    What a store promises, whatever it is made of: [StoreLaws] says it of an
    implementation through the [contents] it shows, a map of traces without
    indexes, files or failures.  The in-memory store and the disk store are
    instances; [served_Trace] is what a client sees of what it wrote, and
    [store_refinement] what it sees of each of the two stores. *)

From S2P Require Import Prelude GoTime Ident Value Span Codec Query Os.
From S2P Require Memory MemorySpec Disk DiskSpec DiskProps.

(** ** The interface *)

(** [type Store interface], with the [EvictExpired] the daemon adds; the clock
    readings a method takes are arguments.  [Write] says whether it failed, and
    [None] is a panic.  [EvictExpired] comes in the two pieces other calls may
    come between. *)
Class Store (St : Type) : Type := {
  Write : St -> Time -> list Span -> option (St * bool);
  Trace : St -> TraceID -> result storage_error (list Span);
  Find : St -> Query -> result storage_error (list Summary);
  EvictTraces : St -> Time -> St;
  EvictSegments : St -> Time -> St;
  Close : St -> St * bool;
}.

Definition EvictExpired `{Store St} (s : St) (now now' : Time) : St := EvictSegments (EvictTraces s now) now'.

#[export] Instance memory_store : Store Memory.Memory := {|
  Write m now batch := let '(m, e) := Memory.Write m batch in Some (m, bool_decide (is_Some e));
  Trace := Memory.Trace;
  Find := Memory.Find;
  EvictTraces m now := (Memory.EvictExpired m now).1;
  EvictSegments m _ := m;
  Close m := (Memory.Close m, false);
|}.

(** A disk store comes with its directory. *)
#[export] Instance disk_store : Store (Disk.Disk * os) := {|
  Write s now batch := '(d, o, e) ← Disk.Write s.1 now batch s.2; Some ((d, o), bool_decide (is_Some e));
  Trace s := Disk.Trace s.1;
  Find s := Disk.Find s.1;
  EvictTraces s now := ((Disk.evict_memory s.1 now).1, s.2);
  EvictSegments s now' := (s.1, Disk.evict_disk s.1 now' s.2);
  Close s := Disk.Close s.1 s.2;
|}.

(** Without anything in between it is [Disk.EvictExpired]. *)
Lemma disk_EvictExpired d o now now' : EvictExpired (d, o) now now' = (Disk.EvictExpired d now now' o).1.
Proof. unfold EvictExpired, Disk.EvictExpired. simpl. by destruct (Disk.evict_memory d now). Qed.

(** ** The abstract store *)

(** A stored trace: its spans in order of arrival, and the interval they have
    covered. *)
Record atrace : Type := MkATrace { aspans : list Span; astart : Time; aend : Time }.
Abbreviation astore := (gmap TraceID atrace).

(** A span replaces the copy with its identifier, or comes last. *)
Definition place (c : astore) (s : Span) : astore :=
  <[TraceID_ s := match c !! TraceID_ s with
                  | None => MkATrace [s] (Start s) (End_ s)
                  | Some t => MkATrace (Memory.upsert (aspans t) s) (Z.min (Start s) (astart t)) (Z.max (End_ s) (aend t))
                  end]> c.

Definition awrite (c : astore) (batch : list Span) : astore := foldl place c batch.

(** What ended more than [r] ago goes, unless [r] is not positive. *)
Definition outdated (r : Duration) (now : Time) (t : atrace) : Prop := 0 < r /\ aend t < now - r.
#[export] Instance outdated_dec r now t : Decision (outdated r now t) := ltac:(unfold outdated; apply _).
Definition aevict (r : Duration) (now : Time) (c : astore) : astore := filter (fun p => ~ outdated r now p.2) c.

Definition atrace_answer (c : astore) (id : TraceID) : result storage_error (list Span) :=
  match c !! id with
  | None => Err ErrNotFound
  | Some t => Ok (sort_func Memory.by_start (aspans t))
  end.

(** Searching: every trace is looked at. *)
Definition asummary (q : Query) (p : TraceID * atrace) : option Summary :=
  let t := p.2 in
  if overlaps q (astart t) (aend t) && (negb (hasSpanPredicate q) || existsb (matchesSpan q) (aspans t))
  then let '(head, complete) := foldl Memory.pick_head (None, false) (aspans t) in
       let head := default zeroSpan head in
       Some (MkSummary p.1 (Service head) (Name head) complete (astart t) (Time.Sub (aend t) (astart t))
               (Z.of_nat (length (aspans t))) (existsb Failed (aspans t)))
  else None.

Definition afind (c : astore) (q : Query) : list Summary :=
  take (Z.to_nat (limit q)) (sort_func Memory.newest_first (omap (asummary q) (map_to_list c))).

(** The condition of the minute index. *)
Definition acovers (c : astore) (q : Query) : Prop :=
  MemorySpec.uses_minute_index q = true ->
  forall id t, c !! id = Some t -> overlaps q (astart t) (aend t) = true ->
  Memory.minute_of (Query.qStart q) - Memory.minuteIndexLimit <= Memory.minute_of (astart t).

(** ** What a store promises *)

(** Spans the ingest side hands over. *)
Definition storable (s : Span) : Prop := valid_span s /\ encodable s.

Class StoreLaws (St : Type) `{Store St} : Type := {
  contents : St -> astore;
  store_ok : Duration -> St -> Prop;
  law_write r s now batch :
    store_ok r s -> Forall storable batch -> in_int64 (Disk.hour_of now) ->
    exists s' failed, Write s now batch = Some (s', failed) /\ store_ok r s' /\
      contents s' = if (failed : bool) then contents s else awrite (contents s) batch;
  law_invalid r s now batch :
    store_ok r s -> ~ Forall valid_span batch -> Write s now batch = Some (s, true);
  law_trace r s id : store_ok r s -> Trace s id = atrace_answer (contents s) id;
  law_find r s q :
    store_ok r s -> Query_Validate q = None -> acovers (contents s) q -> Find s q = Ok (afind (contents s) q);
  law_find_refused s q e : Query_Validate q = Some e -> Find s q = Err e;
  law_evict r s now :
    store_ok r s -> store_ok r (EvictTraces s now) /\ contents (EvictTraces s now) = aevict r now (contents s);
  law_segments r s now :
    store_ok r s -> store_ok r (EvictSegments s now) /\ contents (EvictSegments s now) = contents s;
  law_unique r s id t : store_ok r s -> contents s !! id = Some t -> NoDup (SpanID_ <$> aspans t);
  law_close r s id : store_ok r s -> Trace (Close s).1 id = Err ErrClosed;
}.

(** ** The in-memory store keeps its promise *)

Definition strip (e : Memory.entry) : atrace := MkATrace (Memory.spans e) (Memory.start e) (Memory.end_ e).
Definition mem_contents (m : Memory.Memory) : astore := strip <$> Memory.traces m.

Definition mem_ok (r : Duration) (m : Memory.Memory) : Prop :=
  Memory.mem_inv m /\ Memory.closed m = false /\ Memory.retention m = r.

Lemma contents_insert m s : Memory.mem_inv m -> mem_contents (Memory.insert_span m s) = place (mem_contents m) s.
Proof.
  intros Hm. unfold mem_contents, Memory.insert_span, place. simpl. rewrite fmap_insert. f_equal.
  rewrite lookup_fmap. pose proof (Memory.mem_inv_oentry m (TraceID_ s) Hm) as Hwf. unfold strip.
  rewrite (Memory.insert_entry_spans (TraceID_ s)), Memory.insert_entry_start, Memory.insert_entry_end by done.
  by destruct (Memory.traces m !! TraceID_ s).
Qed.

Lemma contents_insert_all m batch : Memory.mem_inv m -> Forall valid_span batch ->
  mem_contents (foldl Memory.insert_span m batch) = awrite (mem_contents m) batch.
Proof.
  intros Hm Hb. revert m Hm. induction Hb as [|s batch Hs _ IH]; intros m Hm; [done|]. cbn [foldl awrite].
  rewrite IH by by apply Memory.insert_span_inv. by rewrite contents_insert.
Qed.

Lemma mem_ok_insert r m batch : mem_ok r m -> Forall valid_span batch -> mem_ok r (foldl Memory.insert_span m batch).
Proof.
  intros (Hm & Hc & Hr) Hb. split_and!; [by apply Memory.insert_all_inv|by rewrite MemorySpec.insert_all_closed|
    by rewrite DiskProps.insert_all_retention].
Qed.

Lemma asummary_id q p sm : asummary q p = Some sm -> sTraceID sm = p.1.
Proof.
  unfold asummary. destruct (_ && _); [|done]. destruct (foldl Memory.pick_head _ _). by intros [= <-].
Qed.

Lemma asummaries_separated q c a b :
  a ∈ omap (asummary q) (map_to_list c) -> b ∈ omap (asummary q) (map_to_list c) ->
  Memory.newest_first a b = Eq -> a = b.
Proof.
  intros ([i t] & Ht & Ha)%list_elem_of_omap ([j u] & Hu & Hb)%list_elem_of_omap.
  unfold Memory.newest_first, cmp_then. destruct (Time.Compare _ _); [|done..].
  intros E%compare_id_eq. rewrite (asummary_id _ _ _ Ha), (asummary_id _ _ _ Hb) in E. simpl in E. subst j.
  apply elem_of_map_to_list in Ht, Hu. rewrite Ht in Hu. injection Hu as <-. congruence.
Qed.

Lemma scan_stripped q (l : list (TraceID * Memory.entry)) :
  omap (MemorySpec.scan_one q) l = omap (asummary q) (prod_map id strip <$> l).
Proof.
  induction l as [|[i e] l IH]; [done|]. rewrite fmap_cons. cbn [omap list_omap]. rewrite <-IH.
  unfold MemorySpec.scan_one, asummary, Memory.matches, Memory.summarise, prod_map, strip. simpl.
  destruct (_ && _); [|done]. by destruct (foldl Memory.pick_head _ _).
Qed.

Lemma full_scan_contents m q : MemorySpec.full_scan m q = afind (mem_contents m) q.
Proof.
  unfold MemorySpec.full_scan, afind, mem_contents. f_equal. rewrite scan_stripped. symmetry.
  apply sort_func_unique; [apply MemorySpec.newest_first_laws|apply asummaries_separated|]. by rewrite map_to_list_fmap.
Qed.

Lemma mem_find r m q : mem_ok r m -> Query_Validate q = None -> acovers (mem_contents m) q ->
  Memory.Find m q = Ok (afind (mem_contents m) q).
Proof.
  intros (Hm & Hc & _) Hq Hw. unfold Memory.Find.
  rewrite MemorySpec.Find_iter_scan, full_scan_contents; [done..| |done].
  intros Hi id e He Ho. apply (Hw Hi id (strip e)); [|done]. unfold mem_contents. by rewrite lookup_fmap, He.
Qed.

Lemma mem_trace r m id : mem_ok r m -> Memory.Trace m id = atrace_answer (mem_contents m) id.
Proof.
  intros (_ & Hc & _). unfold Memory.Trace, atrace_answer, mem_contents. rewrite Hc, lookup_fmap.
  by destruct (Memory.traces m !! id).
Qed.

Lemma evict_inv m now : Memory.mem_inv m -> let m' := (Memory.EvictExpired m now).1 in
  Memory.mem_inv m' /\ Memory.closed m' = Memory.closed m /\ Memory.retention m' = Memory.retention m.
Proof.
  intros Hm. unfold Memory.EvictExpired, Memory.EvictExpired_iter. destruct (_ <=? 0); [done|]. simpl.
  split; [by apply Memory.remove_all_inv|apply Memory.remove_all_closed].
Qed.

Lemma mem_evict r m now : mem_ok r m ->
  mem_ok r (Memory.EvictExpired m now).1 /\ mem_contents (Memory.EvictExpired m now).1 = aevict r now (mem_contents m).
Proof.
  intros (Hm & Hc & Hr). destruct (decide (r <= 0)) as [Hz|Hz].
  { rewrite DiskProps.evict_nothing by lia. split; [done|]. symmetry. apply map_filter_id.
    intros id t _ [? _]. lia. }
  pose proof (MemorySpec.Evict_spec m (elements (dom (Memory.traces m))) now (Permutation_refl _) ltac:(lia)) as H.
  destruct (evict_inv m now Hm) as (Hi & Ec & Er).
  unfold Memory.EvictExpired in *. destruct (Memory.EvictExpired_iter _ m now) as [m' n]. simpl in *. destruct H as [H _].
  split; [split_and!; congruence|]. apply map_eq. intros id. unfold mem_contents, aevict. rewrite lookup_fmap, H, map_lookup_filter, lookup_fmap.
  unfold Memory.expired, Time.Before, Time.Add. destruct (Memory.traces m !! id) as [e|]; [|done]. cbn [fmap option_fmap option_map mbind option_bind].
  unfold outdated. simpl. destruct (Z.ltb_spec (Memory.end_ e) (now + - Memory.retention m)).
  - rewrite option_guard_False; [done|]. intros Hn. apply Hn. lia.
  - rewrite option_guard_True; [done|]. lia.
Qed.

Lemma mem_closed r m id : mem_ok r m -> Memory.Trace (Memory.Close m) id = Err ErrClosed.
Proof. done. Qed.

Lemma mem_write_ok r m batch : mem_ok r m -> Forall valid_span batch ->
  Memory.Write m batch = (foldl Memory.insert_span m batch, None).
Proof. intros (_ & Hc & _) Hv. apply MemorySpec.Write_ok; [by apply Memory.first_invalid_none|done]. Qed.

Lemma invalid_batch batch : ~ Forall valid_span batch -> exists x, Memory.first_invalid 0 batch = Some x.
Proof.
  intros Hn. destruct (Memory.first_invalid 0 batch) as [x|] eqn:E; [by exists x|].
  by apply Memory.first_invalid_none in E.
Qed.

Lemma valid_or_not batch : Forall valid_span batch \/ ~ Forall valid_span batch.
Proof. rewrite <-(Memory.first_invalid_none 0). destruct (Memory.first_invalid 0 batch); by auto. Qed.

Lemma storable_valid batch : Forall storable batch -> Forall valid_span batch.
Proof. intros H. eapply Forall_impl; [exact H|by intros s []]. Qed.
Lemma storable_encodable batch : Forall storable batch -> Forall encodable batch.
Proof. intros H. eapply Forall_impl; [exact H|by intros s []]. Qed.

Lemma mem_unique r m id t : mem_ok r m -> mem_contents m !! id = Some t -> NoDup (SpanID_ <$> aspans t).
Proof.
  intros (Hm & _). unfold mem_contents. rewrite lookup_fmap.
  destruct (Memory.traces m !! id) as [e|] eqn:E; simpl; [|done]. intros [= <-]. simpl.
  by eapply Memory.bySpan_NoDup, (Memory.mi_entries _ Hm).
Qed.

#[export] Instance memory_laws : StoreLaws Memory.Memory.
Proof.
  refine {| contents := mem_contents; store_ok := mem_ok |}.
  - intros r m now batch Hm Hb%storable_valid _. do 2 eexists. cbn [Write memory_store].
    rewrite (mem_write_ok r) by done. split; [done|]. split; [by apply mem_ok_insert|].
    apply contents_insert_all; [apply Hm|done].
  - intros r m now batch _ [[i e] E]%invalid_batch. cbn [Write memory_store]. unfold Memory.Write. by rewrite E.
  - intros r m id. apply mem_trace.
  - intros r m q. apply mem_find.
  - intros m q e E. cbn [Find memory_store]. unfold Memory.Find, Memory.Find_iter. by rewrite E.
  - intros r m now. apply mem_evict.
  - done.
  - intros r m id t. apply mem_unique.
  - intros r m id. apply (mem_closed r).
Defined.

(** ** The disk store keeps its promise *)

Definition disk_ok (r : Duration) (s : Disk.Disk * os) : Prop :=
  mem_ok r (Disk.mem s.1) /\ Disk.dretention s.1 = r /\ exists A, DiskSpec.dinv s.1 s.2 A.

Lemma disk_not_closed r d o : disk_ok r (d, o) -> Disk.dclosed d = false.
Proof. intros ((_ & Hc & _) & _ & A & I). pose proof (DiskSpec.di_closed _ _ _ I). simpl in *. congruence. Qed.

#[export] Instance disk_laws : StoreLaws (Disk.Disk * os).
Proof.
  refine {| contents s := mem_contents (Disk.mem s.1); store_ok := disk_ok |}.
  - intros r [d o] now batch (Hm & Hr & A & I) Hb Hn. cbn [Write disk_store fst snd] in *.
    destruct (DiskSpec.Write_spec d o A now batch I Hn (storable_encodable _ Hb)) as (d' & o' & e & -> & _ & Hr' & _ & H).
    cbn [mbind option_bind]. do 2 eexists. split; [done|]. destruct e as [e|].
    + destruct H as [I' Em]. unfold disk_ok. cbn [fst snd]. rewrite Em. split_and!; [done|congruence|by exists A|done].
    + destruct H as (_ & I' & _ & Em & _). unfold disk_ok. cbn [fst snd]. rewrite Em. apply storable_valid in Hb. split_and!.
      * by apply mem_ok_insert.
      * congruence.
      * by eexists.
      * apply contents_insert_all; [apply Hm|done].
  - intros r [d o] now batch _ [[i e] E]%invalid_batch. cbn [Write disk_store fst snd]. unfold Disk.Write. by rewrite E.
  - intros r [d o] id (Hm & _). by apply (mem_trace r).
  - intros r [d o] q (Hm & _). by apply (mem_find r).
  - intros [d o] q e E. cbn [Find disk_store]. unfold Disk.Find, Memory.Find, Memory.Find_iter. by rewrite E.
  - intros r [d o] now (Hm & Hr & A & I). cbn [EvictTraces disk_store fst snd] in *.
    destruct (DiskSpec.evict_memory_spec d o A now I) as [E I']. rewrite E in *.
    destruct (mem_evict r (Disk.mem d) now Hm) as [Hm' Ec]. split; [|exact Ec]. split_and!; [done..|by eexists].
  - intros r [d o] now (Hm & Hr & A & I). cbn [EvictSegments disk_store fst snd] in *.
    destruct (DiskSpec.evict_disk_spec d o A now I) as (_ & _ & _ & I'). split; [|done]. split_and!; [done..|by eexists].
  - intros r [d o] id t (Hm & _). by apply (mem_unique r).
  - intros r [d o] id Hok. pose proof (disk_not_closed _ _ _ Hok) as Hc. cbn [Close Trace disk_store fst snd].
    unfold Disk.Close, Disk.Trace. rewrite Hc. by destruct (match Disk.seg d with Some f => _ | None => _ end).
Defined.

(** ** What is served

    What a client sees of a span it wrote, said on the abstract store. *)

(** [y] is the last copy of [sp] in [l]: nothing after it has its identifiers. *)
Definition last_copy (l : list Span) (sp y : Span) : Prop :=
  exists l1 l2, l = l1 ++ y :: l2 /\ MemorySpec.span_key y = MemorySpec.span_key sp /\
    Forall (fun z => MemorySpec.span_key z <> MemorySpec.span_key sp) l2.

Lemma last_copy_here l s sp : MemorySpec.span_key s = MemorySpec.span_key sp -> last_copy (l ++ [s]) sp s.
Proof. intros E. exists l, []. by split_and!. Qed.

Lemma last_copy_further l s sp y :
  MemorySpec.span_key s <> MemorySpec.span_key sp -> last_copy l sp y -> last_copy (l ++ [s]) sp y.
Proof.
  intros Hs (l1 & l2 & -> & Ek & Hl). exists l1, (l2 ++ [s]). split_and!; [by rewrite <-app_assoc|done|].
  apply Forall_app. split; [done|by apply Forall_singleton].
Qed.

(** The last copy is in any part at the end that has a copy. *)
Lemma last_copy_suffix l1 l2 sp y : last_copy (l1 ++ l2) sp y -> sp ∈ l2 -> last_copy l2 sp y.
Proof.
  intros (k1 & k2 & E & Ek & Hk) Hin. apply app_eq_inv in E as [(k & -> & E)|(k & -> & ->)]; [|by exists k, k2].
  destruct k as [|x k].
  - simpl in E. subst l2. by exists [], k2.
  - exfalso. injection E as <- ->. apply Forall_app in Hk as [_ Hk]. rewrite Forall_forall in Hk. by apply (Hk sp).
Qed.

(** A list has one last copy, and it is among its elements. *)
Lemma last_copy_unique l sp y z : last_copy l sp y -> last_copy l sp z -> y = z.
Proof.
  intros (l1 & l2 & -> & Ey & Hy) (k1 & k2 & E & Ez & Hz).
  rewrite Forall_forall in Hy, Hz. apply app_eq_inv in E as [(k & -> & E)|(k & -> & E)].
  - destruct k as [|x k]; [by injection E|]. injection E as <- ->. exfalso. apply (Hz y); [set_solver|done].
  - destruct k as [|x k]; [by injection E|]. injection E as <- ->. exfalso. apply (Hy z); [set_solver|done].
Qed.

(** [sp], one of the spans [l], is there in its last copy, in a trace that ends
    no earlier. *)
Definition served (c : astore) (l : list Span) (sp : Span) : Prop :=
  exists t y, c !! TraceID_ sp = Some t /\ y ∈ aspans t /\ last_copy l sp y /\ End_ sp <= aend t.

(** The answer to a client that asks for the trace of [sp]. *)
Definition answers_last (a : result storage_error (list Span)) (l : list Span) (sp : Span) : Prop :=
  exists spans y, a = Ok spans /\ NoDup (SpanID_ <$> spans) /\ y ∈ spans /\ last_copy l sp y.

Lemma place_serves c l s : served (place c s) (l ++ [s]) s.
Proof.
  unfold served, place. rewrite lookup_insert_eq. eexists _, s. split_and!; [done| |by apply last_copy_here|].
  - destruct (c !! TraceID_ s); simpl; [apply MemorySpec.elem_of_upsert_l|by left].
  - destruct (c !! TraceID_ s); simpl; lia.
Qed.

Lemma place_served c l s sp : served c l sp -> served (place c s) (l ++ [s]) sp.
Proof.
  intros (t & y & Ht & Hy & Hl & He). assert (MemorySpec.span_key y = MemorySpec.span_key sp) as Ek by by destruct Hl as (? & ? & _ & ? & _).
  unfold served, place. rewrite lookup_insert. case_decide as Hid.
  2:{ exists t, y. split_and!; [done..| |done]. apply last_copy_further; [|done]. intros [= ? _]. done. }
  rewrite Hid, Ht. eexists. destruct (decide (SpanID_ y = SpanID_ s)) as [E|E].
  - exists s. split_and!; [done|apply MemorySpec.elem_of_upsert_l| |simpl; lia].
    apply last_copy_here. unfold MemorySpec.span_key in *. congruence.
  - exists y. split_and!; [done|by apply MemorySpec.elem_of_upsert_other| |simpl; lia].
    apply last_copy_further; [|done]. unfold MemorySpec.span_key in *. congruence.
Qed.

Lemma awrite_served c l batch sp : served c l sp -> served (awrite c batch) (l ++ batch) sp.
Proof.
  revert c l. induction batch as [|s batch IH]; intros c l H; [by rewrite app_nil_r|].
  change (l ++ s :: batch) with (l ++ [s] ++ batch). rewrite app_assoc. by apply IH, place_served.
Qed.

Lemma awrite_serves c l batch sp : sp ∈ batch -> served (awrite c batch) (l ++ batch) sp.
Proof.
  intros Hin. revert c l. induction batch as [|s batch IH]; intros c l; [by apply elem_of_nil in Hin|].
  change (l ++ s :: batch) with (l ++ [s] ++ batch). rewrite app_assoc.
  apply elem_of_cons in Hin as [->|Hin]; [|by apply IH]. apply (awrite_served (place c s)), place_serves.
Qed.

(** Eviction spares what ended within the retention. *)
Lemma aevict_served r now c l sp : r <= 0 \/ now - r <= End_ sp -> served c l sp -> served (aevict r now c) l sp.
Proof.
  intros Hr (t & y & Ht & Hy & Hl & He). exists t, y. split_and!; [|done..].
  apply map_lookup_filter_Some_2; [done|]. intros [? ?]. simpl in *. lia.
Qed.

Lemma served_Trace `{StoreLaws St} r (s : St) l sp : store_ok r s -> served (contents s) l sp ->
  answers_last (Trace s (TraceID_ sp)) l sp.
Proof.
  intros Hs (t & y & Ht & Hy & Hl & _). rewrite (law_trace r) by done. unfold atrace_answer. rewrite Ht.
  do 2 eexists. split_and!; [done| |by rewrite elem_of_sort_func|done].
  rewrite sort_func_perm. by eapply (law_unique r).
Qed.

(** ** Opening a directory *)

(** A directory without segments, or one a store left behind: its segments
    hold whole records, and at most a torn one each. *)
Definition left_behind (o : os) : Prop := exists A t, DiskSpec.shape o A t /\ forall h, DiskSpec.tail_ok (t h).

Lemma live_valid o A t : DiskSpec.shape o A t -> Forall valid_span (DiskSpec.live o A).
Proof.
  intros S. unfold DiskSpec.live. apply Forall_concat, Forall_fmap, Forall_forall. intros h _. simpl.
  eapply Forall_impl; [apply (DiskSpec.sh_good _ _ _ S h)|]. by intros s [].
Qed.

Lemma mem_ok_new r : mem_ok r (Memory.NewMemory r).
Proof. split; [apply Memory.NewMemory_inv|done]. Qed.

(** The store has what the segments hold, the old traces apart. *)
Lemma OpenDisk_ok r now now' o A t d o' :
  DiskSpec.shape o A t -> (forall h, DiskSpec.tail_ok (t h)) -> Disk.OpenDisk r now now' o = (Ok d, o') ->
  store_ok r (d, o') /\ DiskSpec.dinv d o' (DiskSpec.surviving o' A) /\
  contents (d, o') = aevict r now (awrite ∅ (DiskSpec.replayed o)).
Proof.
  intros S Ht E. destruct (DiskSpec.OpenDisk_spec _ _ _ _ _ _ _ _ S Ht E) as (Hm & I & _ & _ & _ & Hr & _).
  pose proof (mem_ok_insert r _ _ (mem_ok_new r) (live_valid _ _ _ S)) as Hok.
  destruct (mem_evict r _ now Hok) as [Hok' Hc]. rewrite <-Hm in Hok', Hc. split_and!; [by split_and!; [..|by eexists]|done|].
  cbn [contents disk_laws fst]. rewrite Hc, (DiskSpec.replayed_shape _ _ _ S Ht), contents_insert_all;
    [done|apply Memory.NewMemory_inv|by eapply live_valid].
Qed.

(** Without retention it serves every span in its last copy. *)
Lemma opened_serves r now now' o A t d o' sp :
  DiskSpec.shape o A t -> (forall h, DiskSpec.tail_ok (t h)) -> r <= 0 -> Disk.OpenDisk r now now' o = (Ok d, o') ->
  sp ∈ DiskSpec.replayed o -> answers_last (Disk.Trace d (TraceID_ sp)) (DiskSpec.replayed o) sp.
Proof.
  intros S Ht Hr E Hsp. destruct (OpenDisk_ok _ _ _ _ _ _ _ _ S Ht E) as (Hok & _ & Hc).
  refine (served_Trace r (d, o') _ sp Hok _). rewrite Hc. apply aevict_served; [by left|].
  by apply (awrite_serves ∅ []).
Qed.

(** ** Clients *)

Inductive store_op := OpWrite (now : Time) (batch : list Span) | OpEvictTraces (now : Time) | OpEvictSegments (now : Time).

Definition op_ok (op : store_op) : Prop :=
  match op with OpWrite now batch => Forall encodable batch /\ in_int64 (Disk.hour_of now) | _ => True end.

(** The writes that have to be refused. *)
Definition invalid_writes (ops : list store_op) : list bool :=
  omap (fun op => match op with OpWrite _ batch => Some (existsb (fun s => bool_decide (is_Some (Validate s))) batch)
                  | _ => None end) ops.

Lemma existsb_invalid batch : existsb (fun s => bool_decide (is_Some (Validate s))) batch = false <-> Forall valid_span batch.
Proof.
  induction batch as [|s batch IH]; simpl; [by split|].
  rewrite orb_false_iff, IH, Forall_cons, bool_decide_eq_false, <-eq_None_not_Some, Validate_none. done.
Qed.

(** The run on the abstract store, told which writes failed. *)
Fixpoint run_abstract (r : Duration) (ops : list store_op) (failures : list bool) (c : astore) : astore :=
  match ops, failures with
  | OpWrite _ batch :: ops, failed :: failures => run_abstract r ops failures (if failed : bool then c else awrite c batch)
  | OpEvictTraces now :: ops, _ => run_abstract r ops failures (aevict r now c)
  | OpEvictSegments _ :: ops, _ => run_abstract r ops failures c
  | _, _ => c
  end.

Section client.
Context `{StoreLaws St}.

(** A run of operations, with the outcomes of its writes. *)
Fixpoint run_store (ops : list store_op) (s : St) : option (St * list bool) :=
  match ops with
  | [] => Some (s, [])
  | OpWrite now batch :: ops => '(s, failed) ← Write s now batch; '(s, l) ← run_store ops s; Some (s, failed :: l)
  | OpEvictTraces now :: ops => run_store ops (EvictTraces s now)
  | OpEvictSegments now :: ops => run_store ops (EvictSegments s now)
  end.

(** The store answers as the abstract store does. *)
Definition answers_as (s : St) (c : astore) : Prop :=
  (forall id, Trace s id = atrace_answer c id) /\
  (forall q e, Query_Validate q = Some e -> Find s q = Err e) /\
  forall q, Query_Validate q = None -> acovers c q -> Find s q = Ok (afind c q).

Lemma ok_answers r s : store_ok r s -> answers_as s (contents s).
Proof. intros Hs. split_and!; [by intros; apply (law_trace r)|intros q; by apply law_find_refused|intros; by apply (law_find r)]. Qed.

Lemma write_any r s now batch : store_ok r s -> op_ok (OpWrite now batch) ->
  exists s1 failed, Write s now batch = Some (s1, failed) /\ store_ok r s1 /\
    (contents s1 = if (failed : bool) then contents s else awrite (contents s) batch) /\
    (existsb (fun s => bool_decide (is_Some (Validate s))) batch = true -> failed = true).
Proof.
  intros Hs [He Hn]. destruct (existsb _ batch) eqn:Ev.
  - exists s, true. split_and!; [|done..]. apply (law_invalid r); [done|]. rewrite <-existsb_invalid. congruence.
  - apply existsb_invalid in Ev. destruct (law_write r s now batch) as (s1 & failed & ? & ? & ?); [done| |done|by exists s1, failed].
    rewrite Forall_forall in *. intros x Hx. split; auto.
Qed.

Lemma run_store_refines r ops : forall s, store_ok r s -> Forall op_ok ops ->
  exists s' l, run_store ops s = Some (s', l) /\ store_ok r s' /\ contents s' = run_abstract r ops l (contents s) /\
    Forall2 (fun invalid failed => invalid = true -> failed = true) (invalid_writes ops) l.
Proof.
  induction ops as [|op ops IH]; intros s Hs Hops; [by exists s, []|].
  apply Forall_cons in Hops as [Hop Hops]. destruct op as [now batch|now|now]; cbn [run_store].
  - destruct (write_any r s now batch Hs Hop) as (s1 & failed & -> & Hs1 & Hc1 & Hf1).
    cbn [mbind option_bind]. destruct (IH s1 Hs1 Hops) as (s2 & l & -> & Hs2 & Hc2 & Hf2). cbn [mbind option_bind].
    exists s2, (failed :: l). split_and!; [done..| |by constructor]. cbn [run_abstract]. by rewrite Hc2, Hc1.
  - destruct (law_evict r s now Hs) as [Hs1 Hc1]. destruct (IH _ Hs1 Hops) as (s2 & l & E & Hs2 & Hc2 & Hf2).
    exists s2, l. split_and!; [done..| |done]. cbn [run_abstract]. by rewrite Hc2, Hc1.
  - destruct (law_segments r s now Hs) as [Hs1 Hc1]. destruct (IH _ Hs1 Hops) as (s2 & l & E & Hs2 & Hc2 & Hf2).
    exists s2, l. split_and!; [done..| |done]. cbn [run_abstract]. by rewrite Hc2, Hc1.
Qed.
End client.

(** In memory only what is invalid is refused. *)
Lemma memory_failures r ops : forall m m' l, mem_ok r m -> Forall op_ok ops -> run_store ops m = Some (m', l) -> l = invalid_writes ops.
Proof.
  induction ops as [|op ops IH]; intros m m' l Hm Hops; [by intros [= _ <-]|].
  apply Forall_cons in Hops as [Hop Hops]. destruct op as [now batch|now|now]; cbn [run_store].
  - cbn [Write memory_store]. destruct (existsb (fun s => bool_decide (is_Some (Validate s))) batch) eqn:Ev.
    + destruct (invalid_batch batch) as [[i e] E]; [rewrite <-existsb_invalid; congruence|].
      unfold Memory.Write. rewrite E. rewrite bool_decide_true by by eexists. cbn [mbind option_bind].
      destruct (run_store ops m) as [[m2 l2]|] eqn:E2; [|done]. intros [= <- <-]. unfold invalid_writes. cbn [omap list_omap].
      rewrite Ev. f_equal. by eapply IH.
    + rewrite (mem_write_ok r) by (done || by apply existsb_invalid). cbn [mbind option_bind].
      destruct (run_store ops _) as [[m2 l2]|] eqn:E2; [|done]. intros [= <- <-]. unfold invalid_writes. cbn [omap list_omap].
      rewrite Ev. f_equal. eapply IH; [|done..].
      by apply mem_ok_insert; [|apply existsb_invalid].
  - apply IH; [by apply mem_evict|done].
  - by apply IH.
Qed.

(** C12: both stores are the abstract store.  A new in-memory store starts
    empty and refuses exactly the writes of invalid spans; a store opened on a
    directory that a store left behind, in which any call may fail, starts with
    what replaying the segments gives, less the traces out of retention, and
    refuses at least those.  From there on, whatever is written and evicted, no
    operation panics, a write takes effect whole or not at all, and [Trace] and
    [Find] answer what the abstract store does. *)
Theorem store_refinement (r : Duration) (ops : list store_op) :
  Forall op_ok ops ->
  (exists m, run_store ops (Memory.NewMemory r) = Some (m, invalid_writes ops) /\
     answers_as m (run_abstract r ops (invalid_writes ops) ∅)) /\
  forall now now' o d o', left_behind o -> Disk.OpenDisk r now now' o = (Ok d, o') ->
    exists s l, run_store ops (d, o') = Some (s, l) /\
      Forall2 (fun invalid failed => invalid = true -> failed = true) (invalid_writes ops) l /\
      answers_as s (run_abstract r ops l (aevict r now (awrite ∅ (DiskSpec.replayed o)))).
Proof.
  intros Hops. split.
  - destruct (run_store_refines (H0 := memory_laws) r ops (Memory.NewMemory r) (mem_ok_new r) Hops) as (m & l & E & Hok & Hc & _).
    pose proof (memory_failures r ops _ _ _ (mem_ok_new r) Hops E) as ->. exists m. split; [exact E|].
    assert (contents (Memory.NewMemory r) = ∅) as Ec by exact (fmap_empty strip).
    rewrite <-Ec, <-Hc. by eapply ok_answers.
  - intros now now' o d o' (A & t & S & Ht) Eo. destruct (OpenDisk_ok _ _ _ _ _ _ _ _ S Ht Eo) as (Hok0 & _ & Ec).
    destruct (run_store_refines r ops (d, o') Hok0 Hops) as (s & l & E & Hok & Hc & Hf). exists s, l. split_and!; [done..|].
    rewrite <-Ec, <-Hc. by eapply ok_answers.
Qed.

(** A span written to a new disk store; an hour and two hours pass. *)
Example store_refinement_witness :
  let ops := [OpWrite 0 [sample_span]; OpEvictTraces (3600 * Second); OpEvictSegments (3600 * Second)] in
  exists d o', Disk.OpenDisk (7200 * Second) 0 0 (MkOs ∅ []) = (Ok d, o') /\
    exists s l, run_store ops (d, o') = Some (s, l) /\ l = [false] /\ Trace s (TraceID_ sample_span) = Ok [sample_span] /\
      exists s' l', run_store (ops ++ [OpEvictTraces (9999 * Second)]) (d, o') = Some (s', l') /\
        Trace s' (TraceID_ sample_span) = Err ErrNotFound.
Proof.
  intros ops. assert (Forall op_ok ops) as Hops.
  { apply Forall_cons; split; [split; [apply Forall_singleton, sample_encodable|vm_decide]|by repeat constructor]. }
  assert (Forall op_ok (ops ++ [OpEvictTraces (9999 * Second)])) as Hops' by (apply Forall_app; split; [exact Hops|by apply Forall_singleton]).
  assert (left_behind (MkOs ∅ [])) as Ho.
  { exists (fun _ => []), (fun _ => []). split; [by apply DiskProps.shape_empty|intros h; by left]. }
  assert (match Disk.OpenDisk (7200 * Second) 0 0 (MkOs ∅ []) with
          | (Ok d, o') => (snd <$> run_store ops (d, o'), snd <$> run_store (ops ++ [OpEvictTraces (9999 * Second)]) (d, o'))
          | _ => (None, None) end = (Some [false], Some [false])) as E by (vm_compute; reflexivity).
  destruct (Disk.OpenDisk (7200 * Second) 0 0 (MkOs ∅ [])) as [[d|] o'] eqn:Eo; [|discriminate E].
  apply pair_equal_spec in E as [E E']. exists d, o'. split; [reflexivity|].
  destruct (proj2 (store_refinement (7200 * Second) ops Hops) 0 0 _ d o' Ho Eo) as (s & l & Er & _ & Ht & _).
  destruct (proj2 (store_refinement (7200 * Second) _ Hops') 0 0 _ d o' Ho Eo) as (s' & l' & Er' & _ & Ht' & _).
  rewrite Er in E. rewrite Er' in E'. injection E as El. injection E' as El'. cbn [snd] in El, El'. subst l l'.
  exists s, [false]. split; [exact Er|]. split; [reflexivity|]. split.
  - rewrite Ht. vm_compute. reflexivity.
  - exists s', [false]. split; [exact Er'|]. rewrite Ht'. vm_compute. reflexivity.
Defined.
