(* ===== verification/Sampler.v ===== *)
(** * The tail sampler: [internal/sampler/sampler.go]

    The sampler's state, the pieces of its methods that run with the lock
    held, and the methods that compose them.  The clock and the writer belong
    to an environment the methods thread.  [SamplerSpec] interleaves the
    locked pieces of a sweep with [Accept]. *)

From S2P Require Import Prelude GoTime GoFloat Ident Value Span Assembly Policy.

(** ** State *)

(** [type Config struct]; the clock and the logger are the environment's. *)
Record Config : Type := MkConfig {
  Quiet : Duration;
  MaxAge : Duration;
  MaxSpans : Z;
  Policies : list Policy;
  Remember : Duration;
  MaxDecisions : Z;
  ServiceRate : float;
  ServiceBurst : Z;
}.

(** [type Stats struct]; [Traces] and [Decisions] are only filled in the
    snapshot [Stats_] returns.  The counters are unbounded: 64 bits would take
    2^63 spans to wrap. *)
Record Stats : Type := MkStats {
  Accepted : Z;
  Refused : Z;
  Buffered : Z;
  Traces : Z;
  Kept : Z;
  Dropped : Z;
  KeptSpans : Z;
  DroppedSpans : Z;
  Reasons : gmap string Z;
  SealedByAge : Z;
  Lost_ : Z;
  LateKept : Z;
  LateDropped : Z;
  Decisions : Z;
}.

Record pending : Type := MkPending {
  pid : TraceID;
  pspans : list Span;
  first : Time;
  last_ : Time;
}.

Record decision : Type := MkDecision { keep : bool; at_ : Time }.
Record remembered : Type := MkRemembered { rid : TraceID; rat : Time }.
Record bucket : Type := MkBucket { tokens : float; bat : Time }.

(** [type Sampler struct]. *)
Record Sampler : Type := MkSampler {
  cfg : Config;
  pendings : gmap TraceID pending;
  stats : Stats;
  judging : gmap TraceID (list Span);
  decided : gmap TraceID decision;
  order : list remembered;
  late : gmap TraceID (list Span);
  buckets : gmap string bucket;
}.

Definition zeroStats : Stats := MkStats 0 0 0 0 0 0 0 0 ∅ 0 0 0 0 0.

(** Field assignments. *)
Definition set_stats (f : Stats -> Stats) (s : Sampler) : Sampler :=
  MkSampler (cfg s) (pendings s) (f (stats s)) (judging s) (decided s) (order s) (late s) (buckets s).
Definition set_pending (m : gmap TraceID pending) (s : Sampler) : Sampler :=
  MkSampler (cfg s) m (stats s) (judging s) (decided s) (order s) (late s) (buckets s).
Definition set_judging (m : gmap TraceID (list Span)) (s : Sampler) : Sampler :=
  MkSampler (cfg s) (pendings s) (stats s) m (decided s) (order s) (late s) (buckets s).
Definition set_decided (d : gmap TraceID decision) (o : list remembered) (s : Sampler) : Sampler :=
  MkSampler (cfg s) (pendings s) (stats s) (judging s) d o (late s) (buckets s).
Definition set_late (m : gmap TraceID (list Span)) (s : Sampler) : Sampler :=
  MkSampler (cfg s) (pendings s) (stats s) (judging s) (decided s) (order s) m (buckets s).
Definition set_buckets (m : gmap string bucket) (s : Sampler) : Sampler :=
  MkSampler (cfg s) (pendings s) (stats s) (judging s) (decided s) (order s) (late s) m.

(** Counter updates. *)
Definition addAccepted (n : Z) (t : Stats) : Stats :=
  MkStats (Accepted t + n) (Refused t) (Buffered t) (Traces t) (Kept t) (Dropped t) (KeptSpans t)
    (DroppedSpans t) (Reasons t) (SealedByAge t) (Lost_ t) (LateKept t) (LateDropped t) (Decisions t).
Definition addRefused (n : Z) (t : Stats) : Stats :=
  MkStats (Accepted t) (Refused t + n) (Buffered t) (Traces t) (Kept t) (Dropped t) (KeptSpans t)
    (DroppedSpans t) (Reasons t) (SealedByAge t) (Lost_ t) (LateKept t) (LateDropped t) (Decisions t).
Definition addBuffered (n : Z) (t : Stats) : Stats :=
  MkStats (Accepted t) (Refused t) (Buffered t + n) (Traces t) (Kept t) (Dropped t) (KeptSpans t)
    (DroppedSpans t) (Reasons t) (SealedByAge t) (Lost_ t) (LateKept t) (LateDropped t) (Decisions t).
Definition addKept (n : Z) (t : Stats) : Stats :=
  MkStats (Accepted t) (Refused t) (Buffered t) (Traces t) (Kept t + 1) (Dropped t) (KeptSpans t + n)
    (DroppedSpans t) (Reasons t) (SealedByAge t) (Lost_ t) (LateKept t) (LateDropped t) (Decisions t).
Definition addDropped (n : Z) (t : Stats) : Stats :=
  MkStats (Accepted t) (Refused t) (Buffered t) (Traces t) (Kept t) (Dropped t + 1) (KeptSpans t)
    (DroppedSpans t + n) (Reasons t) (SealedByAge t) (Lost_ t) (LateKept t) (LateDropped t) (Decisions t).
Definition addReason (r : string) (t : Stats) : Stats :=
  MkStats (Accepted t) (Refused t) (Buffered t) (Traces t) (Kept t) (Dropped t) (KeptSpans t)
    (DroppedSpans t) (<[r := default 0 (Reasons t !! r) + 1]> (Reasons t)) (SealedByAge t) (Lost_ t)
    (LateKept t) (LateDropped t) (Decisions t).
Definition addSealedByAge (n : Z) (t : Stats) : Stats :=
  MkStats (Accepted t) (Refused t) (Buffered t) (Traces t) (Kept t) (Dropped t) (KeptSpans t)
    (DroppedSpans t) (Reasons t) (SealedByAge t + n) (Lost_ t) (LateKept t) (LateDropped t) (Decisions t).
Definition addLost (n : Z) (t : Stats) : Stats :=
  MkStats (Accepted t) (Refused t) (Buffered t) (Traces t) (Kept t) (Dropped t) (KeptSpans t)
    (DroppedSpans t) (Reasons t) (SealedByAge t) (Lost_ t + n) (LateKept t) (LateDropped t) (Decisions t).
Definition addLateKept (n : Z) (t : Stats) : Stats :=
  MkStats (Accepted t) (Refused t) (Buffered t) (Traces t) (Kept t) (Dropped t) (KeptSpans t)
    (DroppedSpans t) (Reasons t) (SealedByAge t) (Lost_ t) (LateKept t + n) (LateDropped t) (Decisions t).
Definition addLateDropped (n : Z) (t : Stats) : Stats :=
  MkStats (Accepted t) (Refused t) (Buffered t) (Traces t) (Kept t) (Dropped t) (KeptSpans t)
    (DroppedSpans t) (Reasons t) (SealedByAge t) (Lost_ t) (LateKept t) (LateDropped t + n) (Decisions t).

(** ** New *)

Inductive config_error :=
| ErrNoWriter | ErrQuiet | ErrMaxAge | ErrMaxSpans | ErrRemember | ErrMaxDecisions
| ErrServiceRate | ErrServiceBurst.

(** [func New(cfg Config, out Writer)]; [no_writer] is [out == nil]. *)
Definition New (c : Config) (no_writer : bool) : result config_error Sampler :=
  if no_writer then Err ErrNoWriter
  else if Quiet c <=? 0 then Err ErrQuiet
  else if MaxAge c <? Quiet c then Err ErrMaxAge
  else if MaxSpans c <=? 0 then Err ErrMaxSpans
  else if Remember c <? 0 then Err ErrRemember
  else if (0 <? Remember c) && (MaxDecisions c <=? 0) then Err ErrMaxDecisions
  else if negb (fle fzero (ServiceRate c)) then Err ErrServiceRate
  else if flt fzero (ServiceRate c) && (ServiceBurst c <? 1) then Err ErrServiceBurst
  else Ok (MkSampler c ∅ zeroStats ∅ ∅ [] ∅ ∅).

(** ** Accept *)

(** [func (s *Sampler) verdict(id, now) (keep, decided bool)]. *)
Definition verdict (s : Sampler) (id : TraceID) (now : Time) : bool * bool :=
  match judging s !! id with
  | Some _ => (false, false)
  | None =>
      match decided s !! id with
      | None => (false, false)
      | Some d => if Remember (cfg s) <=? Time.Sub now (at_ d) then (false, false)
                  else (keep d, true)
      end
  end.

(** The spans of a batch that would take room. *)
Definition held (s : Sampler) (now : Time) (spans : list Span) : Z :=
  foldl (fun n sp => let '(keep, decided) := verdict s (TraceID_ sp) now in
                     if negb decided || keep then n + 1 else n) 0 spans.

(** The body of [Accept]'s second loop. *)
Definition accept_one (now : Time) (s : Sampler) (sp : Span) : Sampler :=
  match judging s !! TraceID_ sp with
  | Some waiting => set_judging (<[TraceID_ sp := waiting ++ [sp]]> (judging s)) s
  | None =>
      let '(keep, decided) := verdict s (TraceID_ sp) now in
      if (decided : bool) then
        if (keep : bool) then
          set_stats (addLateKept 1)
            (set_late (<[TraceID_ sp := default [] (late s !! TraceID_ sp) ++ [sp]]> (late s)) s)
        else set_stats (addLateDropped 1) s
      else
        let p := match pendings s !! TraceID_ sp with
                 | Some p => p
                 | None => MkPending (TraceID_ sp) [] now Time.zero
                 end in
        set_pending (<[TraceID_ sp := MkPending (pid p) (pspans p ++ [sp]) (first p) now]> (pendings s)) s
  end.

Inductive accept_error := ErrBatchTooLarge | ErrSinkFull.

(** [func (s *Sampler) Accept(_, spans) error]; [now] is read before the lock
    is taken. *)
Definition Accept (s : Sampler) (now : Time) (spans : list Span) : Sampler * option accept_error :=
  if MaxSpans (cfg s) <? zlen spans then (s, Some ErrBatchTooLarge)
  else
    let n := held s now spans in
    if MaxSpans (cfg s) <? Buffered (stats s) + n then
      (set_stats (addRefused (zlen spans)) s, Some ErrSinkFull)
    else
      let s := foldl (accept_one now) s spans in
      let s := set_stats (addAccepted (zlen spans)) s in
      (set_stats (addBuffered n) s, None).

(** ** judge *)

(** [due] of [Sweep] and of [Flush]: whether to judge the trace, and the effect
    on the counters. *)
Definition due_sweep (c : Config) (now : Time) (p : pending) (t : Stats) : bool * Stats :=
  if Quiet c <=? Time.Sub now (last_ p) then (true, t)
  else if MaxAge c <=? Time.Sub now (first p) then (true, addSealedByAge 1 t)
  else (false, t).
Definition due_flush (p : pending) (t : Stats) : bool * Stats := (true, t).

(** The body of the loop that takes the ready traces. *)
Definition take_one (due : pending -> Stats -> bool * Stats) (st : Sampler * list pending) (id : TraceID)
    : Sampler * list pending :=
  let '(s, ready) := st in
  match pendings s !! id with
  | None => (s, ready)
  | Some p =>
      let '(d, t) := due p (stats s) in
      let s := set_stats (fun _ => t) s in
      if (d : bool) then
        (set_stats (addBuffered (- zlen (pspans p)))
           (set_judging (<[id := []]> (judging s)) (set_pending (delete id (pendings s)) s)),
         ready ++ [p])
      else (s, ready)
  end.

Definition oldest_first (a b : pending) : comparison :=
  cmp_then (Time.Compare (first a) (first b)) (ID.compare (pid a) (pid b)).

(** The locked part of [judge], visiting [pending] in the order [ord], and the
    sort that follows it. *)
Definition take_ready (due : pending -> Stats -> bool * Stats) (ord : list TraceID) (s : Sampler)
    : Sampler * list pending :=
  let '(s, ready) := foldl (take_one due) (s, []) ord in
  (s, sort_func oldest_first ready).

(** ** The rate limit *)

(** [func (b *bucket) refill(now, rate, burst)]. *)
Definition refill (b : bucket) (now : Time) (rate : float) (burst : Z) : bucket :=
  let elapsed := Time.Sub now (bat b) in
  if 0 <? elapsed
  then MkBucket (fmin (of_Z burst) (fadd (tokens b) (fmul rate (Seconds elapsed)))) now
  else b.

(** [func (s *Sampler) allow(service string) bool]. *)
Definition allow (s : Sampler) (now : Time) (service : string) : Sampler * bool :=
  let b := match buckets s !! service with
           | Some b => b
           | None => MkBucket (of_Z (ServiceBurst (cfg s))) now
           end in
  let b := refill b now (ServiceRate (cfg s)) (ServiceBurst (cfg s)) in
  if flt (tokens b) fone then (set_buckets (<[service := b]> (buckets s)) s, false)
  else (set_buckets (<[service := MkBucket (fsub (tokens b) fone) (bat b)]> (buckets s)) s, true).

(** [func rootService(t) string]. *)
Definition rootService (t : Tree) : option string :=
  Walk t (fun n _ service =>
            if Node_Missing (node t n) then (service, true) else (Service (nSpan (node t n)), false)) ""%string.

(** ** decide *)

(** The part of [decide] before the write.  [None] is a panic: the error of
    [Build] is ignored, and its tree would be nil. *)
Definition rate_limited : Verdict := MkVerdict false "rate limited".

Definition decide_verdict (s : Sampler) (now : Time) (p : pending) : option (Sampler * Verdict) :=
  match Build (pspans p) Sealed with
  | Err _ => None
  | Ok tree =>
      v ← Decide tree (Policies (cfg s));
      if Keep v && flt fzero (ServiceRate (cfg s)) then
        service ← rootService tree;
        let '(s, ok) := allow s now service in
        Some (s, if (ok : bool) then v else rate_limited)
      else Some (s, v)
  end.

(** [func (s *Sampler) forgetOldest()] on the verdicts, once the oldest entry
    [o] is off the order. *)
Definition forgetOldest (o : remembered) (d : gmap TraceID decision) : gmap TraceID decision :=
  match d !! rid o with
  | Some v => if Time.Equal (at_ v) (rat o) then delete (rid o) d else d
  | None => d
  end.

(** [for len(s.decided) > s.cfg.MaxDecisions { s.forgetOldest() }]; taking from
    an empty order would panic. *)
Fixpoint trim (max : Z) (d : gmap TraceID decision) (o : list remembered)
    : option (gmap TraceID decision * list remembered) :=
  if Z.of_nat (size d) <=? max then Some (d, o)
  else match o with
       | [] => None
       | e :: o' => trim max (forgetOldest e d) o'
       end.

(** [for len(s.order) > 0 && now.Sub(s.order[0].at) >= s.cfg.Remember]. *)
Fixpoint expire (now : Time) (remember : Duration) (d : gmap TraceID decision) (o : list remembered)
    : gmap TraceID decision * list remembered :=
  match o with
  | [] => (d, [])
  | e :: o' => if remember <=? Time.Sub now (rat e) then expire now remember (forgetOldest e d) o'
               else (d, o)
  end.

(** [func (s *Sampler) settle(id, keep)]. *)
Definition settle (s : Sampler) (now : Time) (id : TraceID) (keep : bool) : option Sampler :=
  let waiting := default [] (judging s !! id) in
  let s := set_judging (delete id (judging s)) s in
  let s :=
    if bool_decide (length waiting = 0%nat) then s
    else if keep then
      set_stats (addLateKept (zlen waiting))
        (set_late (<[id := default [] (late s !! id) ++ waiting]> (late s)) s)
    else set_stats (addLateDropped (zlen waiting)) (set_stats (addBuffered (- zlen waiting)) s) in
  if Remember (cfg s) <=? 0 then Some s
  else
    '(d, o) ← trim (MaxDecisions (cfg s)) (<[id := MkDecision keep now]> (decided s))
                   (order s ++ [MkRemembered id now]);
    Some (set_decided d o s).

(** The part of [decide] after the write. *)
Definition finish_decide (s : Sampler) (now : Time) (p : pending) (v : Verdict) (failed : bool)
    : option Sampler :=
  s ← settle s now (pid p) (Keep v);
  let s := set_stats (addReason (Reason v)) s in
  let n := zlen (pspans p) in
  Some (set_stats (if negb (Keep v) then addDropped n else if failed then addLost n else addKept n) s).

(** ** forget and writeLate *)

(** [func (s *Sampler) forget(now time.Time)].  Deleting from the map that is
    iterated treats every bucket on its own. *)
Definition forget (s : Sampler) (now : Time) : Sampler :=
  let '(d, o) := expire now (Remember (cfg s)) (decided s) (order s) in
  let s := set_decided d o s in
  set_buckets
    (omap (fun b => let b := refill b now (ServiceRate (cfg s)) (ServiceBurst (cfg s)) in
                    if fle (of_Z (ServiceBurst (cfg s))) (tokens b) then None else Some b)
       (buckets s)) s.

(** The number of spans in a map of span lists. *)
Definition msum {A} (f : A -> Z) (m : gmap TraceID A) : Z := map_fold (fun _ x n => f x + n) 0 m.
Definition msize (m : gmap TraceID (list Span)) : Z := msum zlen m.

(** The first locked part of [writeLate]. *)
Definition take_late (s : Sampler) : Sampler * gmap TraceID (list Span) :=
  (set_stats (addBuffered (- msize (late s))) (set_late ∅ s), late s).

(** [slices.SortedFunc(maps.Keys(late), ...)]. *)
Definition late_ids (m : gmap TraceID (list Span)) : list TraceID :=
  sort_func ID.compare (elements (dom m)).

(** [func (s *Sampler) Stats() Stats]. *)
Definition Stats_ (s : Sampler) : Stats :=
  let t := stats s in
  MkStats (Accepted t) (Refused t) (Buffered t) (Z.of_nat (size (pendings s))) (Kept t) (Dropped t)
    (KeptSpans t) (DroppedSpans t) (Reasons t) (SealedByAge t) (Lost_ t) (LateKept t) (LateDropped t)
    (Z.of_nat (size (decided s))).

(** ** The methods, run without interruption *)

(** An environment [E] gives the time ([Now]) and takes writes ([Write], which
    tells whether it failed). *)
Section methods.
Context {E : Type} (Now : E -> Time * E) (Write : E -> list Span -> bool * E).

(** [func (s *Sampler) decide(ctx, p) error]. *)
Definition decide_ (s : Sampler) (e : E) (p : pending) : option (Sampler * E * bool) :=
  let '(now, e) := Now e in
  '(s, v) ← decide_verdict s now p;
  let '(failed, e) := if Keep v then Write e (pspans p) else (false, e) in
  let '(now, e) := Now e in
  s ← finish_decide s now p v failed;
  Some (s, e, failed).

Fixpoint decide_all (s : Sampler) (e : E) (ready : list pending) : option (Sampler * E * bool) :=
  match ready with
  | [] => Some (s, e, false)
  | p :: ready' =>
      '(s, e, failed) ← decide_ s e p;
      '(s, e, failed') ← decide_all s e ready';
      Some (s, e, failed || failed')
  end.

(** [func (s *Sampler) judge(ctx, due) error]. *)
Definition judge (due : pending -> Stats -> bool * Stats) (ord : list TraceID) (s : Sampler) (e : E)
    : option (Sampler * E * bool) :=
  let '(s, ready) := take_ready due ord s in
  decide_all s e ready.

Fixpoint write_all (m : gmap TraceID (list Span)) (ids : list TraceID) (s : Sampler) (e : E) : Sampler * E * bool :=
  match ids with
  | [] => (s, e, false)
  | id :: ids' =>
      let spans := default [] (m !! id) in
      let '(failed, e) := Write e spans in
      let s := if (failed : bool) then set_stats (addLost (zlen spans)) s else s in
      let '(s, e, failed') := write_all m ids' s e in
      (s, e, failed || failed')
  end.

(** [func (s *Sampler) writeLate(ctx) error]. *)
Definition writeLate (s : Sampler) (e : E) : Sampler * E * bool :=
  let '(s, m) := take_late s in
  write_all m (late_ids m) s e.

(** [func (s *Sampler) Sweep(ctx) error] and [Flush]; [ord] is the order of
    [range s.pending]. *)
Definition Sweep (ord : list TraceID) (s : Sampler) (e : E) : option (Sampler * E * bool) :=
  let '(now, e) := Now e in
  '(s, e, failed) ← judge (due_sweep (cfg s) now) ord s e;
  let s := forget s now in
  let '(s, e, failed') := writeLate s e in
  Some (s, e, failed || failed').

Definition Flush (ord : list TraceID) (s : Sampler) (e : E) : option (Sampler * E * bool) :=
  '(s, e, failed) ← judge due_flush ord s e;
  let '(s, e, failed') := writeLate s e in
  Some (s, e, failed || failed').

(** [func (s *Sampler) Run(ctx, interval) error] on a schedule of ticks that
    ends when the context is done; a failed sweep is only logged. *)
Inductive run_event := Tick (ord : list TraceID) | Done (ord : list TraceID).

Fixpoint Run (events : list run_event) (s : Sampler) (e : E) : option (Sampler * E * option bool) :=
  match events with
  | [] => Some (s, e, None)
  | Tick ord :: events' => '(s, e, _) ← Sweep ord s e; Run events' s e
  | Done ord :: _ => '(s, e, failed) ← Flush ord s e; Some (s, e, Some failed)
  end.
End methods.
