(* ===== verification/SamplerSpec.v ===== *)
(** * The sampler under concurrency

    A sweep or flush is a sequence of locked pieces; between any two of them
    [Accept] may run.  [step] is that interleaving, [inv] its invariant: what
    the maps hold, that the buffer count is exact and bounded, and where every
    accepted span is. *)

From S2P Require Import Prelude GoTime GoFloat Ident Value Span.
From S2P Require Import Assembly Forest AssemblySpec BuildProps Policy Sampler.

(** ** The interleaving *)

(** A call of the writer: late spans or a judged trace, and its outcome. *)
Record write : Type := MkWrite { wlate : bool; wspans : list Span; wfailed : bool }.

Inductive kind := Sweeping (now : Time) | Flushing.

(** Where the one goroutine that sweeps is. *)
Inductive PC :=
| Idle
| Judging (k : kind) (ready : list pending)
| Writing (k : kind) (p : pending) (v : Verdict) (ready : list pending)
| Settling (k : kind) (p : pending) (v : Verdict) (failed : bool) (ready : list pending)
| Forgetting (now : Time)
| LateTaking
| LateWriting (m : gmap TraceID (list Span)) (ids : list TraceID)
| LateLosing (m : gmap TraceID (list Span)) (id : TraceID) (ids : list TraceID).

Record world : Type := MkWorld { smp : Sampler; pc : PC; log : list write }.

Definition map_keys {A} (m : gmap TraceID A) (ord : list TraceID) : Prop := ord ≡ₚ elements (dom m).

Definition late_at (m : gmap TraceID (list Span)) (id : TraceID) : list Span := default [] (m !! id).

(** One locked piece, one write, or one [Accept].  Every clock reading and
    every outcome of a write is arbitrary. *)
Inductive sweep_step : world -> world -> Prop :=
| step_sweep s lg now ord s' ready :
    map_keys (pendings s) ord ->
    take_ready (due_sweep (cfg s) now) ord s = (s', ready) ->
    sweep_step (MkWorld s Idle lg) (MkWorld s' (Judging (Sweeping now) ready) lg)
| step_flush s lg ord s' ready :
    map_keys (pendings s) ord ->
    take_ready due_flush ord s = (s', ready) ->
    sweep_step (MkWorld s Idle lg) (MkWorld s' (Judging Flushing ready) lg)
| step_decide s lg k p ready now s' v :
    decide_verdict s now p = Some (s', v) ->
    sweep_step (MkWorld s (Judging k (p :: ready)) lg) (MkWorld s' (Writing k p v ready) lg)
| step_write s lg k p v ready failed :
    Keep v = true ->
    sweep_step (MkWorld s (Writing k p v ready) lg)
      (MkWorld s (Settling k p v failed ready) (lg ++ [MkWrite false (pspans p) failed]))
| step_no_write s lg k p v ready :
    Keep v = false ->
    sweep_step (MkWorld s (Writing k p v ready) lg) (MkWorld s (Settling k p v false ready) lg)
| step_settle s lg k p v failed ready now s' :
    finish_decide s now p v failed = Some s' ->
    sweep_step (MkWorld s (Settling k p v failed ready) lg) (MkWorld s' (Judging k ready) lg)
| step_judged s lg now :
    sweep_step (MkWorld s (Judging (Sweeping now) []) lg) (MkWorld s (Forgetting now) lg)
| step_flushed s lg :
    sweep_step (MkWorld s (Judging Flushing []) lg) (MkWorld s LateTaking lg)
| step_forget s lg now :
    sweep_step (MkWorld s (Forgetting now) lg) (MkWorld (forget s now) LateTaking lg)
| step_take_late s lg s' m :
    take_late s = (s', m) ->
    sweep_step (MkWorld s LateTaking lg) (MkWorld s' (LateWriting m (late_ids m)) lg)
| step_late_ok s lg m id ids :
    sweep_step (MkWorld s (LateWriting m (id :: ids)) lg)
      (MkWorld s (LateWriting m ids) (lg ++ [MkWrite true (late_at m id) false]))
| step_late_failed s lg m id ids :
    sweep_step (MkWorld s (LateWriting m (id :: ids)) lg)
      (MkWorld s (LateLosing m id ids) (lg ++ [MkWrite true (late_at m id) true]))
| step_lose s lg m id ids :
    sweep_step (MkWorld s (LateLosing m id ids) lg)
      (MkWorld (set_stats (addLost (zlen (late_at m id))) s) (LateWriting m ids) lg)
| step_swept s lg m :
    sweep_step (MkWorld s (LateWriting m []) lg) (MkWorld s Idle lg).

(** One case for each piece, with the names of its rule. *)
Ltac sweep_cases H :=
  destruct H as [s lg now ord s' ready Hord E|s lg ord s' ready Hord E|s lg k p ready now s' v E
    |s lg k p v ready failed Hk|s lg k p v ready Hk|s lg k p v failed ready now s' E
    |s lg now|s lg|s lg now|s lg s' m E|s lg m id ids|s lg m id ids|s lg m id ids|s lg m].

Inductive step : world -> world -> Prop :=
| step_accept s pc lg now spans :
    step (MkWorld s pc lg) (MkWorld (Accept s now spans).1 pc lg)
| step_sweeper w w' : sweep_step w w' -> step w w'.

Inductive initial (c : Config) : world -> Prop :=
| initial_new s : New c false = Ok s -> initial c (MkWorld s Idle []).

Definition reachable (c : Config) (w : world) : Prop := exists w0, initial c w0 /\ rtc step w0 w.

(** ** Sums over maps *)

Section sums.
Context {A : Type} (f : A -> Z).

Lemma msum_empty : msum f ∅ = 0.
Proof. done. Qed.

Lemma msum_insert m i x : m !! i = None -> msum f (<[i := x]> m) = f x + msum f m.
Proof.
  intros H. unfold msum. rewrite (map_fold_insert_L (fun _ x n => f x + n)); [done| |done].
  intros; lia.
Qed.

Lemma msum_delete m i x : m !! i = Some x -> msum f m = f x + msum f (delete i m).
Proof.
  intros H. rewrite <-(insert_delete_id m i x) at 1 by done. apply msum_insert, lookup_delete_eq.
Qed.

Lemma msum_update m i x y : m !! i = Some x -> msum f (<[i := y]> m) = f y - f x + msum f m.
Proof.
  intros H. rewrite (msum_delete m i x H), <-insert_delete_eq, msum_insert by apply lookup_delete_eq. lia.
Qed.

Lemma msum_nonneg m : (forall x, 0 <= f x) -> 0 <= msum f m.
Proof.
  intros Hf. induction m as [|i x m Hi IH] using map_ind; [done|].
  rewrite msum_insert by done. specialize (Hf x). lia.
Qed.
End sums.

Definition psize (m : gmap TraceID pending) : Z := msum (fun p => zlen (pspans p)) m.

(** The spans in a list of traces. *)
Definition fsize (l : list pending) : Z := foldr (fun p n => zlen (pspans p) + n) 0 l.

Lemma fsize_app l1 l2 : fsize (l1 ++ l2) = fsize l1 + fsize l2.
Proof. induction l1 as [|p l1 IH]; simpl; lia. Qed.

Lemma fsize_perm l1 l2 : l1 ≡ₚ l2 -> fsize l1 = fsize l2.
Proof. induction 1; simpl; lia. Qed.

(** Appending to the list at a key, made if absent. *)
Lemma msum_append (f : list Span -> Z) m id l :
  f [] = 0 -> (forall l1 l2, f (l1 ++ l2) = f l1 + f l2) -> msum f (<[id := default [] (m !! id) ++ l]> m) = f l + msum f m.
Proof.
  intros H0 Happ. destruct (m !! id) as [x|] eqn:E; simpl.
  - rewrite (msum_update f m id x _ E), Happ. lia.
  - by rewrite msum_insert.
Qed.

Lemma msize_append m id (l : list Span) :
  msize (<[id := default [] (m !! id) ++ l]> m) = zlen l + msize m.
Proof. apply msum_append; [done|]. intros. apply zlen_app. Qed.

(** ** The invariants *)

Definition good_pending (p : pending) : Prop :=
  pspans p <> [] /\ Forall (fun s => TraceID_ s = pid p) (pspans p).

Definition good_config (c : Config) : Prop :=
  0 < Quiet c /\ Quiet c <= MaxAge c /\ 0 < MaxSpans c /\ 0 <= Remember c /\
  (0 < Remember c -> 0 < MaxDecisions c).

Lemma New_good c s : New c false = Ok s ->
  good_config c /\ s = MkSampler c ∅ zeroStats ∅ ∅ [] ∅ ∅.
Proof.
  unfold New, good_config.
  destruct (Z.leb_spec (Quiet c) 0); [done|]. destruct (Z.ltb_spec (MaxAge c) (Quiet c)); [done|].
  destruct (Z.leb_spec (MaxSpans c) 0); [done|]. destruct (Z.ltb_spec (Remember c) 0); [done|].
  destruct (Z.ltb_spec 0 (Remember c)), (Z.leb_spec (MaxDecisions c) 0); simpl; try done;
    (destruct (negb _); [done|]; destruct (_ && _); [done|]); intros [= <-]; split; auto; lia.
Qed.

(** The traces taken from [pending] and not settled yet. *)
Definition flight (pc : PC) : list pending :=
  match pc with
  | Judging _ l => l
  | Writing _ p _ l | Settling _ p _ _ l => p :: l
  | _ => []
  end.

(** The late spans taken and not handed to the writer yet. *)
Definition late_flight (pc : PC) : Z :=
  match pc with
  | LateWriting m ids | LateLosing m _ ids => foldr (fun id n => zlen (late_at m id) + n) 0 ids
  | _ => 0
  end.

(** What the maps of the sampler hold while [fl] is in flight. *)
Record wf (c : Config) (s : Sampler) (fl : list pending) : Prop := {
  wf_cfg : cfg s = c;
  wf_pending : forall id p, pendings s !! id = Some p -> good_pending p /\ pid p = id;
  wf_flight : Forall good_pending fl;
  wf_nodup : NoDup (pid <$> fl);
  wf_judging : forall id, is_Some (judging s !! id) <-> id ∈ pid <$> fl;
  wf_disjoint : forall id, is_Some (pendings s !! id) -> judging s !! id = None;
  wf_waiting : forall id l, judging s !! id = Some l -> Forall (fun x => TraceID_ x = id) l;
  wf_late : forall id l, late s !! id = Some l -> l <> [] /\ Forall (fun x => TraceID_ x = id) l;
  wf_decided : forall id d, decided s !! id = Some d -> MkRemembered id (at_ d) ∈ order s;
  wf_decisions : Z.of_nat (size (decided s)) <= Z.max 0 (MaxDecisions c);
  wf_remember : Remember c <= 0 -> decided s = ∅;
}.

(** The spans of the writes in [lg] that satisfy [P]. *)
Definition logged (P : write -> bool) (lg : list write) : Z :=
  foldr (fun w n => (if P w then zlen (wspans w) else 0) + n) 0 lg.

Lemma logged_snoc P lg w : logged P (lg ++ [w]) = logged P lg + (if P w then zlen (wspans w) else 0).
Proof. induction lg as [|x lg IH]; simpl; lia. Qed.

Definition lost_verdict (w : write) : bool := negb (wlate w) && wfailed w.
Definition kept_verdict (w : write) : bool := negb (wlate w) && negb (wfailed w).

(** A write whose outcome the counters do not show yet. *)
Definition uncounted_lost (pc : PC) : Z :=
  match pc with Settling _ p v true _ => zlen (pspans p) | _ => 0 end.
Definition uncounted_kept (pc : PC) : Z :=
  match pc with Settling _ p v false _ => if Keep v then zlen (pspans p) else 0 | _ => 0 end.
Definition uncounted_late (pc : PC) : Z :=
  match pc with LateLosing m id _ => zlen (late_at m id) | _ => 0 end.

(** A write only fails for a kept trace. *)
Definition good_pc (pc : PC) : Prop :=
  match pc with Settling _ _ v true _ => Keep v = true | _ => True end.

(** Where every span is. *)
Record counts (w : world) : Prop := {
  ct_buffered : Buffered (stats (smp w)) =
    psize (pendings (smp w)) + msize (judging (smp w)) + msize (late (smp w));
  ct_bounded : Buffered (stats (smp w)) <= MaxSpans (cfg (smp w));
  ct_accepted : Accepted (stats (smp w)) =
    psize (pendings (smp w)) + msize (judging (smp w)) + fsize (flight (pc w)) +
    KeptSpans (stats (smp w)) + DroppedSpans (stats (smp w)) +
    LateKept (stats (smp w)) + LateDropped (stats (smp w)) +
    (logged lost_verdict (log w) - uncounted_lost (pc w));
  ct_kept : KeptSpans (stats (smp w)) = logged kept_verdict (log w) - uncounted_kept (pc w);
  ct_lost : Lost_ (stats (smp w)) = logged wfailed (log w) - uncounted_lost (pc w) - uncounted_late (pc w);
  ct_late : LateKept (stats (smp w)) = msize (late (smp w)) + late_flight (pc w) + logged wlate (log w);
}.

Definition inv (c : Config) (w : world) : Prop :=
  good_config c /\ wf c (smp w) (flight (pc w)) /\ counts w /\ good_pc (pc w).

(** ** Accept preserves them *)

(** The span takes room: it is not the late span of a dropped trace. *)
Definition takes_room (s : Sampler) (now : Time) (sp : Span) : bool :=
  let '(keep, decided) := verdict s (TraceID_ sp) now in negb decided || keep.

Definition room (s : Sampler) (now : Time) (sp : Span) : Z := if takes_room s now sp then 1 else 0.

Lemma held_cons s now sp spans : held s now (sp :: spans) = room s now sp + held s now spans.
Proof.
  unfold held. assert (forall l n, foldl (fun n sp => let '(keep, decided) := verdict s (TraceID_ sp) now in
                     if negb decided || keep then n + 1 else n) n l =
    n + foldl (fun n sp => let '(keep, decided) := verdict s (TraceID_ sp) now in
                     if negb decided || keep then n + 1 else n) 0 l) as H.
  { induction l as [|x l IH]; intros n; cbn [foldl]; [lia|].
    rewrite IH, (IH (let '(_, _) := _ in _)). destruct (verdict s (TraceID_ x) now) as [k d].
    destruct (negb d || k); lia. }
  cbn [foldl]. rewrite H. unfold room, takes_room. destruct (verdict s (TraceID_ sp) now) as [k d].
  destruct (negb d || k); lia.
Qed.

(** One accepted span leaves later verdicts alone. *)
Lemma accept_one_verdict now s sp id now' : verdict (accept_one now s sp) id now' = verdict s id now'.
Proof.
  unfold accept_one. destruct (judging s !! TraceID_ sp) as [w|] eqn:Ej.
  - unfold verdict; simpl. destruct (decide (TraceID_ sp = id)) as [<-|Hne].
    + by rewrite lookup_insert_eq, Ej.
    + by rewrite lookup_insert_ne.
  - by destruct (verdict s (TraceID_ sp) now) as [[] []].
Qed.

Lemma held_ext s s' now spans :
  (forall id, verdict s' id now = verdict s id now) -> held s' now spans = held s now spans.
Proof.
  intros Hv. induction spans as [|sp l IH]; [done|]. rewrite !held_cons, IH. f_equal.
  unfold room, takes_room. by rewrite Hv.
Qed.

(** What one accepted span changes. *)
Lemma accept_one_counts now s sp :
  let s' := accept_one now s sp in
  let t := stats s in
  let t' := stats s' in
  psize (pendings s') + msize (judging s') + msize (late s') =
    psize (pendings s) + msize (judging s) + msize (late s) + room s now sp /\
  psize (pendings s') + msize (judging s') + LateKept t' + LateDropped t' =
    psize (pendings s) + msize (judging s) + LateKept t + LateDropped t + 1 /\
  LateKept t' - msize (late s') = LateKept t - msize (late s) /\
  Accepted t' = Accepted t /\ Buffered t' = Buffered t /\ KeptSpans t' = KeptSpans t /\
  DroppedSpans t' = DroppedSpans t /\ Lost_ t' = Lost_ t /\ Refused t' = Refused t /\
  cfg s' = cfg s /\ decided s' = decided s /\ order s' = order s /\ buckets s' = buckets s.
Proof.
  unfold accept_one, room, takes_room. destruct (judging s !! TraceID_ sp) as [w|] eqn:Ej.
  - unfold verdict. rewrite Ej. simpl. unfold msize. rewrite (msum_update zlen _ _ _ _ Ej).
    rewrite zlen_app, zlen_one. split_and!; try done; lia.
  - destruct (verdict s (TraceID_ sp) now) as [k d] eqn:Ev. destruct d.
    + destruct k; simpl.
      * rewrite msize_append, zlen_one. split_and!; try done; lia.
      * split_and!; try done; lia.
    + assert ((negb false || k) = true) as -> by done. simpl. unfold psize.
      destruct (pendings s !! TraceID_ sp) as [p|] eqn:Ep; simpl.
      * rewrite (msum_update _ _ _ _ _ Ep). simpl. rewrite zlen_app, zlen_one.
        split_and!; try done; lia.
      * rewrite msum_insert by done. simpl. rewrite zlen_one. split_and!; try done; lia.
Qed.

Lemma accept_one_wf c now s sp fl : wf c s fl -> wf c (accept_one now s sp) fl.
Proof.
  intros [W1 W2 W3 W4 W5 W6 W7 W8 W9 W10 W11]. unfold accept_one.
  destruct (judging s !! TraceID_ sp) as [w|] eqn:Ej.
  - split; simpl; try done.
    + intros id. rewrite <-W5, lookup_insert_is_Some. destruct (decide (TraceID_ sp = id)) as [<-|]; [|naive_solver].
      rewrite Ej. naive_solver.
    + intros id Hp. rewrite lookup_insert_ne; [by apply W6|]. intros <-. apply W6 in Hp. congruence.
    + intros id l [[<- <-]|[_ H]]%lookup_insert_Some; [|by apply W7].
      apply Forall_app. split; [by apply W7|]. by apply Forall_singleton.
  - destruct (verdict s (TraceID_ sp) now) as [k d]. destruct d; [destruct k|].
    + split; simpl; try done.
      intros id l [[<- <-]|[_ H]]%lookup_insert_Some; [|by apply W8]. split; [by destruct (default _ _)|].
      apply Forall_app. split; [|by apply Forall_singleton].
      destruct (late s !! TraceID_ sp) as [x|] eqn:El; simpl; [by apply (W8 _ _ El)|constructor].
    + split; simpl; done.
    + split; simpl; try done.
      * intros id p [[<- <-]|[_ H]]%lookup_insert_Some; [|by apply W2].
        destruct (pendings s !! TraceID_ sp) as [p|] eqn:Ep.
        -- destruct (W2 _ _ Ep) as [[Hne Hall] Hid]. split; [|done]. split; simpl; [by destruct (pspans p)|].
           apply Forall_app. split; [done|]. apply Forall_singleton. by rewrite Hid.
        -- split; [|done]. split; simpl; [done|]. by apply Forall_singleton.
      * intros id. rewrite lookup_insert_is_Some.
        destruct (decide (TraceID_ sp = id)) as [<-|]; [done|]. intros [?|[_ Hp]]; [done|by apply W6].
Qed.

(** What a whole accepted batch changes. *)
Lemma accept_fold now spans : forall s,
  let s' := foldl (accept_one now) s spans in
  let t := stats s in
  let t' := stats s' in
  psize (pendings s') + msize (judging s') + msize (late s') =
    psize (pendings s) + msize (judging s) + msize (late s) + held s now spans /\
  psize (pendings s') + msize (judging s') + LateKept t' + LateDropped t' =
    psize (pendings s) + msize (judging s) + LateKept t + LateDropped t + zlen spans /\
  LateKept t' - msize (late s') = LateKept t - msize (late s) /\
  Accepted t' = Accepted t /\ Buffered t' = Buffered t /\ KeptSpans t' = KeptSpans t /\
  DroppedSpans t' = DroppedSpans t /\ Lost_ t' = Lost_ t /\ Refused t' = Refused t /\
  cfg s' = cfg s /\ decided s' = decided s /\ order s' = order s /\ buckets s' = buckets s.
Proof.
  induction spans as [|sp spans IH]; intros s; cbn [foldl].
  { unfold held, zlen; simpl. split_and!; try done; lia. }
  pose proof (accept_one_counts now s sp) as H. specialize (IH (accept_one now s sp)).
  rewrite held_cons. rewrite (held_ext s (accept_one now s sp)) in IH by (intros; apply accept_one_verdict).
  assert (zlen (sp :: spans) = zlen spans + 1) as -> by (unfold zlen; simpl; lia).
  cbv zeta in H, IH |- *. destruct H as (A1 & A2 & A3 & A4 & A5 & A6 & A7 & A8 & A9 & A10 & A11 & A12 & A13).
  destruct IH as (B1 & B2 & B3 & B4 & B5 & B6 & B7 & B8 & B9 & B10 & B11 & B12 & B13).
  split_and!; try congruence; lia.
Qed.

Lemma accept_fold_wf c now fl spans : forall s, wf c s fl -> wf c (foldl (accept_one now) s spans) fl.
Proof. induction spans as [|sp l IH]; intros s H; [done|]. by apply IH, accept_one_wf. Qed.

Lemma wf_stats c s fl f : wf c s fl -> wf c (set_stats f s) fl.
Proof. intros []. by split. Qed.

Lemma inv_accept c s pc lg now spans :
  inv c (MkWorld s pc lg) -> inv c (MkWorld (Accept s now spans).1 pc lg).
Proof.
  intros (Hc & W & [C1 C2 C3 C4 C5 C6] & Hpc). simpl in *. unfold Accept.
  destruct (Z.ltb_spec (MaxSpans (cfg s)) (zlen spans)); [done|].
  destruct (Z.ltb_spec (MaxSpans (cfg s)) (Buffered (stats s) + held s now spans)) as [|Hfit].
  { split_and!; [done|by apply wf_stats| |done]. split; simpl; done. }
  split_and!; [done|by apply wf_stats, wf_stats, accept_fold_wf| |done].
  pose proof (accept_fold now spans s) as H1. cbv zeta in H1.
  set (s' := foldl (accept_one now) s spans) in *.
  destruct H1 as (B1 & B2 & B3 & B4 & B5 & B6 & B7 & B8 & B9 & B10 & B11 & B12 & B13).
  split; simpl; rewrite ?B10; lia.
Qed.

(** ** Taking the ready traces *)

Record taking (due : pending -> Stats -> bool * Stats) (s0 : Sampler) (fl : list pending)
    (seen : list TraceID) (st : Sampler * list pending) : Prop := {
  tk_cfg : cfg st.1 = cfg s0;
  tk_wf : wf (cfg s0) st.1 (st.2 ++ fl);
  tk_pending : forall id, id ∉ seen -> pendings st.1 !! id = pendings s0 !! id;
  tk_sum : psize (pendings st.1) + fsize st.2 = psize (pendings s0);
  tk_judging : msize (judging st.1) = msize (judging s0);
  tk_late : late st.1 = late s0;
  tk_buffered : Buffered (stats st.1) = Buffered (stats s0) - fsize st.2;
  tk_same : Accepted (stats st.1) = Accepted (stats s0) /\ KeptSpans (stats st.1) = KeptSpans (stats s0) /\
    DroppedSpans (stats st.1) = DroppedSpans (stats s0) /\ Lost_ (stats st.1) = Lost_ (stats s0) /\
    LateKept (stats st.1) = LateKept (stats s0) /\ LateDropped (stats st.1) = LateDropped (stats s0);
  tk_due : forall p, p ∈ st.2 -> pendings s0 !! pid p = Some p /\ pid p ∈ seen /\ exists t, (due p t).1 = true;
  tk_left : forall id p, id ∈ seen -> pendings st.1 !! id = Some p ->
    pendings s0 !! id = Some p /\ exists t, (due p t).1 = false;
  tk_all : forall id p, pendings s0 !! id = Some p -> pendings st.1 !! id = Some p \/ p ∈ st.2;
}.

(** [due] only touches the count of traces sealed by age. *)
Definition good_due (due : pending -> Stats -> bool * Stats) : Prop :=
  forall p t, exists n, (due p t).2 = addSealedByAge n t.

Lemma addSealedByAge_0 t : addSealedByAge 0 t = t.
Proof. destruct t. unfold addSealedByAge; simpl. by rewrite Z.add_0_r. Qed.

Lemma due_sweep_good c now : good_due (due_sweep c now).
Proof.
  intros p t. unfold due_sweep. destruct (_ <=? _); [|destruct (_ <=? _)].
  - exists 0. by rewrite addSealedByAge_0.
  - by exists 1.
  - exists 0. by rewrite addSealedByAge_0.
Qed.

Lemma due_flush_good : good_due due_flush.
Proof. intros p t. exists 0. by rewrite addSealedByAge_0. Qed.

Lemma wf_take c s fl id p :
  wf c s fl -> pendings s !! id = Some p ->
  wf c (set_judging (<[id := []]> (judging s)) (set_pending (delete id (pendings s)) s)) (p :: fl).
Proof.
  intros [W1 W2 W3 W4 W5 W6 W7 W8 W9 W10 W11] Hp. destruct (W2 _ _ Hp) as [Hg Hid].
  assert (judging s !! id = None) as Hj by (apply W6; by eexists).
  split; simpl; try done.
  - intros i q [_ Hq]%lookup_delete_Some. by apply W2.
  - by constructor.
  - constructor; [|done]. rewrite <-W5, Hid, Hj. by intros [].
  - intros i. rewrite lookup_insert_is_Some, W5, elem_of_cons, Hid.
    destruct (decide (id = i)); naive_solver.
  - intros i [q [Hne Hq]%lookup_delete_Some]. rewrite lookup_insert_ne by done. apply W6. by eexists.
  - intros i l [[<- <-]|[_ H]]%lookup_insert_Some; [constructor|by apply W7].
Qed.

Lemma wf_flight_perm c s fl fl' : fl ≡ₚ fl' -> wf c s fl -> wf c s fl'.
Proof.
  intros Hp [W1 W2 W3 W4 W5 W6 W7 W8 W9 W10 W11]. split; try done.
  - by rewrite <-Hp.
  - by rewrite <-Hp.
  - intros id. by rewrite W5, Hp.
Qed.

Lemma take_one_taking due s0 fl seen st id :
  good_due due -> taking due s0 fl seen st -> id ∉ seen -> taking due s0 fl (seen ++ [id]) (take_one due st id).
Proof.
  intros Hdue [T1 T2 T3 T4 T5 T6 T7 T8 T9 T10 T11] Hid. destruct st as [s ready]; simpl in *. unfold take_one.
  destruct (pendings s !! id) as [p|] eqn:Ep.
  2:{ split; simpl; try done.
      - intros i Hi. apply T3. set_solver.
      - intros q Hq. destruct (T9 q Hq) as (? & ? & ?). split_and!; [done|set_solver|done].
      - intros i q [Hi| ->%list_elem_of_singleton]%elem_of_app Hq; [by apply T10|congruence]. }
  destruct (Hdue p (stats s)) as [n Hn]. destruct (due p (stats s)) as [d t] eqn:Ed. simpl in Hn. subst t.
  assert (pendings s0 !! id = Some p) as Ep0 by (by rewrite <-T3).
  destruct d.
  - destruct (wf_pending _ _ _ T2 id p Ep) as [Hg Hpid].
    split; simpl; try done.
    + apply (wf_stats _ _ _ (fun _ => _)). apply (wf_flight_perm _ _ (p :: ready ++ fl)).
      { rewrite <-(Permutation_cons_append ready p). done. }
      apply (wf_take _ (set_stats (fun _ => addSealedByAge n (stats s)) s)); [by apply wf_stats|done].
    + intros i Hi. rewrite lookup_delete_ne by set_solver. apply T3. set_solver.
    + rewrite fsize_app. simpl. unfold psize in *. rewrite (msum_delete _ _ _ _ Ep) in T4. lia.
    + unfold msize in *. rewrite msum_insert; [done|]. apply (wf_disjoint _ _ _ T2). by eexists.
    + rewrite fsize_app. simpl. lia.
    + intros q [Hq| ->%list_elem_of_singleton]%elem_of_app.
      * destruct (T9 q Hq) as (? & ? & ?). split_and!; [done|set_solver|done].
      * rewrite Hpid. split_and!; [done|set_solver|]. exists (stats s). by rewrite Ed.
    + intros i q Hi [Hne Hq]%lookup_delete_Some. apply T10; [set_solver|done].
    + intros i q Hq. destruct (T11 i q Hq) as [H|H]; [|right; set_solver].
      destruct (decide (i = id)) as [->|Hne]; [right; assert (q = p) as -> by congruence; set_solver|].
      left. by rewrite lookup_delete_ne.
  - split; simpl; try done.
    + by apply wf_stats.
    + intros i Hi. apply T3. set_solver.
    + intros q Hq. destruct (T9 q Hq) as (? & ? & ?). split_and!; [done|set_solver|done].
    + intros i q [Hi| ->%list_elem_of_singleton]%elem_of_app Hq; [by apply T10|].
      assert (q = p) as -> by congruence. split; [done|]. exists (stats s). by rewrite Ed.
Qed.

Lemma take_fold due s0 fl ids : good_due due ->
  forall seen st, NoDup (seen ++ ids) -> taking due s0 fl seen st ->
  taking due s0 fl (seen ++ ids) (foldl (take_one due) st ids).
Proof.
  intros Hdue. induction ids as [|id ids IH]; intros seen st Hnd Ht; simpl; [by rewrite app_nil_r|].
  rewrite (cons_middle id seen ids), app_assoc in *. apply IH; [done|].
  apply take_one_taking; [done..|]. apply NoDup_app in Hnd as (Hnd & _ & _). by apply NoDup_snoc in Hnd as [_ ?].
Qed.

Lemma oldest_first_laws : CmpLaws oldest_first.
Proof. exact (cmp_then_laws (cmp_on first Time.Compare) (cmp_on pid ID.compare) _ _). Qed.

Lemma taking_start due s fl : wf (cfg s) s fl -> taking due s fl [] (s, []).
Proof. intros W. split; simpl; try done; try lia; set_solver. Qed.

(** Taking the ready traces moves exactly the due ones, oldest first. *)
Lemma take_ready_spec due s ord fl s' ready :
  good_due due -> wf (cfg s) s fl -> map_keys (pendings s) ord ->
  take_ready due ord s = (s', ready) ->
  exists l, ready = sort_func oldest_first l /\ taking due s fl ord (s', l).
Proof.
  intros Hdue W Hord. unfold take_ready.
  assert (NoDup ord) as Hnd by (rewrite Hord; apply NoDup_elements).
  pose proof (take_fold due s fl ord Hdue [] (s, []) Hnd (taking_start due s fl W)) as H. simpl in H.
  destruct (foldl (take_one due) (s, []) ord) as [s1 l]. intros [= <- <-]. by exists l.
Qed.

Lemma inv_take c s lg ord due k s' ready :
  good_due due -> inv c (MkWorld s Idle lg) -> map_keys (pendings s) ord ->
  take_ready due ord s = (s', ready) -> inv c (MkWorld s' (Judging k ready) lg).
Proof.
  intros Hdue (Hc & W & [C1 C2 C3 C4 C5 C6] & _) Hord E. simpl in *.
  assert (cfg s = c) as Hcfg by apply (wf_cfg _ _ _ W). rewrite <-Hcfg in W.
  destruct (take_ready_spec due s ord [] s' ready Hdue W Hord E) as (l & -> & [T1 T2 T3 T4 T5 T6 T7 T8 T9 T10 T11]).
  simpl in *. destruct T8 as (E1 & E2 & E3 & E4 & E5 & E6).
  assert (fsize (sort_func oldest_first l) = fsize l) as Hf by apply fsize_perm, sort_func_perm.
  pose proof (msum_nonneg (fun p => zlen (pspans p)) (pendings s')) as Hnn.
  split_and!; [done| |split; simpl|done].
  - rewrite Hcfg in T2. rewrite app_nil_r in T2. simpl.
    eapply wf_flight_perm; [|exact T2]. symmetry. apply sort_func_perm.
  - rewrite T6. lia.
  - rewrite T1, T7. assert (0 <= fsize l); [|lia]. clear. induction l as [|p l IH]; simpl; [lia|].
    pose proof (zlen_nonneg (pspans p)). lia.
  - rewrite Hf, T5. lia.
  - lia.
  - lia.
  - rewrite T6. lia.
Qed.

(** ** Deciding *)

Lemma pending_built p : good_pending p -> exists t, Build (pspans p) Sealed = Ok t /\ built (pspans p) t.
Proof.
  intros [Hne Hall]. rewrite Forall_forall in Hall. unfold Build.
  destruct (pspans p) as [|s0 l] eqn:E; [done|]. pose proof (received_order (s0 :: l)) as Ho.
  destruct (build_refines _ _ _ s0 l Sealed Ho Ho Ho) as (t & Ht & _).
  { intros s Hs. rewrite (Hall s), (Hall s0); [done|by left|by right]. }
  exists t. split; [done|]. exists (received (s0 :: l)), (received (s0 :: l)), (received (s0 :: l)), Sealed.
  split_and!; done.
Qed.

(** Judging a trace always gives a verdict and only touches the buckets. *)
Lemma decide_verdict_total s now p :
  Forall SafePolicy (Policies (cfg s)) -> good_pending p ->
  exists b v, decide_verdict s now p = Some (set_buckets b s, v).
Proof.
  intros Hs Hp. destruct (pending_built p Hp) as (t & Ht & Hb). unfold decide_verdict. rewrite Ht.
  destruct (Decide_safe (pspans p) t (Policies (cfg s)) Hs Hb) as [v ->]. cbn [mbind option_bind].
  destruct (Keep v && _).
  - unfold rootService. destruct (built_walk (pspans p) t (fun n _ service =>
            if Node_Missing (node t n) then (service, true) else (Service (nSpan (node t n)), false)) Hb)
      as (l & _ & ->). cbn [mbind option_bind]. unfold allow.
    destruct (flt _ _); do 2 eexists; reflexivity.
  - exists (buckets s), v. by destruct s.
Qed.

Lemma decide_verdict_buckets s now p s' v :
  decide_verdict s now p = Some (s', v) -> exists b, s' = set_buckets b s.
Proof.
  unfold decide_verdict. destruct (Build (pspans p) Sealed) as [t|]; [|done].
  destruct (Decide t (Policies (cfg s))) as [v'|]; [|done]. cbn [mbind option_bind].
  destruct (Keep v' && _).
  - destruct (rootService t) as [service|]; [|done]. cbn [mbind option_bind]. unfold allow.
    destruct (flt _ _); intros [= <- _]; by eexists.
  - intros [= <- _]. exists (buckets s). by destruct s.
Qed.

Lemma wf_buckets c s fl b : wf c s fl -> wf c (set_buckets b s) fl.
Proof. intros []. by split. Qed.

(** ** Remembering verdicts *)

(** Every verdict is listed in the order with its time. *)
Definition listed (d : gmap TraceID decision) (o : list remembered) : Prop :=
  forall id v, d !! id = Some v -> MkRemembered id (at_ v) ∈ o.

Lemma forgetOldest_listed e d o : listed d (e :: o) -> listed (forgetOldest e d) o.
Proof.
  intros Hl id v. unfold forgetOldest.
  destruct (d !! rid e) as [w|] eqn:Ee; [destruct (Time.Equal (at_ w) (rat e)) eqn:Et|].
  - intros [Hne Hv]%lookup_delete_Some. pose proof (Hl id v Hv) as Hin.
    apply elem_of_cons in Hin as [<-|?]; done.
  - intros Hv. pose proof (Hl id v Hv) as Hin. apply elem_of_cons in Hin as [<-|?]; [|done].
    simpl in *. rewrite Hv in Ee. injection Ee as <-. unfold Time.Equal in Et. by rewrite Z.eqb_refl in Et.
  - intros Hv. pose proof (Hl id v Hv) as Hin. apply elem_of_cons in Hin as [<-|?]; [|done].
    simpl in *. congruence.
Qed.

Lemma forgetOldest_sub e d : forgetOldest e d ⊆ d.
Proof.
  unfold forgetOldest. destruct (d !! rid e) as [w|]; [|done].
  destruct (Time.Equal _ _); [apply delete_subseteq|done].
Qed.

Lemma trim_spec max o : forall d,
  0 <= max -> listed d o ->
  exists d' o', trim max d o = Some (d', o') /\ Z.of_nat (size d') <= max /\ listed d' o' /\ d' ⊆ d.
Proof.
  induction o as [|e o IH]; intros d Hmax Hl; cbn [trim].
  - assert (d = ∅) as ->.
    { apply map_empty. intros id. destruct (d !! id) as [v|] eqn:E; [|done].
      apply Hl in E. by apply elem_of_nil in E. }
    rewrite map_size_empty. destruct (Z.leb_spec (Z.of_nat 0) max); [|lia].
    exists ∅, []. split_and!; done.
  - destruct (Z.leb_spec (Z.of_nat (size d)) max); [by exists d, (e :: o)|].
    destruct (IH (forgetOldest e d) Hmax) as (d' & o' & -> & Hs & Hl' & Hsub).
    { by apply forgetOldest_listed. }
    exists d', o'. split_and!; [done..|]. etrans; [exact Hsub|apply forgetOldest_sub].
Qed.

Lemma expire_spec now remember o : forall d,
  listed d o -> let '(d', o') := expire now remember d o in listed d' o' /\ d' ⊆ d.
Proof.
  induction o as [|e o IH]; intros d Hl; cbn [expire]; [by split|].
  destruct (_ <=? _); [|by split]. specialize (IH (forgetOldest e d) (forgetOldest_listed e d o Hl)).
  destruct (expire now remember (forgetOldest e d) o) as [d' o']. destruct IH as [H1 H2].
  split; [done|]. etrans; [exact H2|apply forgetOldest_sub].
Qed.

(** ** Settling *)

(** The sampler with the spans that waited for the verdict moved. *)
Definition settle_waiting (s : Sampler) (id : TraceID) (keep : bool) : Sampler :=
  let waiting := default [] (judging s !! id) in
  let s := set_judging (delete id (judging s)) s in
  if bool_decide (length waiting = 0%nat) then s
  else if keep then
    set_stats (addLateKept (zlen waiting))
      (set_late (<[id := default [] (late s !! id) ++ waiting]> (late s)) s)
  else set_stats (addLateDropped (zlen waiting)) (set_stats (addBuffered (- zlen waiting)) s).

Lemma settle_waiting_wf c s p fl keep :
  wf c s (p :: fl) -> wf c (settle_waiting s (pid p) keep) fl.
Proof.
  intros [W1 W2 W3 W4 W5 W6 W7 W8 W9 W10 W11]. simpl in *.
  apply Forall_cons in W3 as [Hp W3]. apply NoDup_cons in W4 as [Hn W4].
  assert (wf c (set_judging (delete (pid p) (judging s)) s) fl) as W.
  { split; simpl; try done.
    - intros id. rewrite lookup_delete_is_Some, W5, elem_of_cons. naive_solver.
    - intros id Hq. destruct (decide (id = pid p)) as [->|]; [apply lookup_delete_eq|].
      rewrite lookup_delete_ne by done. by apply W6.
    - intros id l [_ Hl]%lookup_delete_Some. by apply W7. }
  unfold settle_waiting. case_bool_decide as Hw; [done|]. destruct keep.
  - apply wf_stats. destruct W as [V1 V2 V3 V4 V5 V6 V7 V8 V9 V10 V11]. split; simpl in *; try done.
    intros id l [[<- <-]|[_ H]]%lookup_insert_Some; [|by apply V8].
    destruct (judging s !! pid p) as [w|] eqn:Ej; simpl in *; [|done]. split.
    + by destruct (default _ _), w.
    + apply Forall_app. split; [|by apply W7].
      destruct (late s !! pid p) as [x|] eqn:El; simpl; [by apply (W8 _ _ El)|constructor].
  - by apply wf_stats, wf_stats.
Qed.

Lemma settle_waiting_counts s p keep w :
  judging s !! pid p = Some w ->
  let s' := settle_waiting s (pid p) keep in
  pendings s' = pendings s /\ msize (judging s) = zlen w + msize (judging s') /\
  (if keep then
     msize (late s') = zlen w + msize (late s) /\ LateKept (stats s') = LateKept (stats s) + zlen w /\
     LateDropped (stats s') = LateDropped (stats s) /\ Buffered (stats s') = Buffered (stats s)
   else
     late s' = late s /\ LateKept (stats s') = LateKept (stats s) /\
     LateDropped (stats s') = LateDropped (stats s) + zlen w /\
     Buffered (stats s') = Buffered (stats s) - zlen w) /\
  Accepted (stats s') = Accepted (stats s) /\ KeptSpans (stats s') = KeptSpans (stats s) /\
  DroppedSpans (stats s') = DroppedSpans (stats s) /\ Lost_ (stats s') = Lost_ (stats s) /\ cfg s' = cfg s.
Proof.
  intros Hj. cbv zeta. unfold settle_waiting. rewrite Hj. change (default [] (Some w)) with w.
  pose proof (msum_delete zlen (judging s) (pid p) w Hj) as Hm.
  case_bool_decide as Hw.
  - assert (zlen w = 0) as Hz by (unfold zlen; lia). unfold msize in *. simpl.
    destruct keep; split_and!; try done; lia.
  - unfold msize in *. destruct keep; simpl; split_and!; try done; try lia.
    apply (msize_append (late s) (pid p) w).
Qed.

Lemma settle_unfold s now id keep :
  settle s now id keep =
  let s := settle_waiting s id keep in
  if Remember (cfg s) <=? 0 then Some s
  else
    '(d, o) ← trim (MaxDecisions (cfg s)) (<[id := MkDecision keep now]> (decided s))
                   (order s ++ [MkRemembered id now]);
    Some (set_decided d o s).
Proof. done. Qed.

(** Settling never takes from an empty order. *)
Lemma settle_total c s now p fl keep :
  good_config c -> wf c s (p :: fl) ->
  exists d o, settle s now (pid p) keep = Some (set_decided d o (settle_waiting s (pid p) keep)) /\
              wf c (set_decided d o (settle_waiting s (pid p) keep)) fl.
Proof.
  intros (_ & _ & _ & _ & Hc) W0. pose proof (settle_waiting_wf c s p fl keep W0) as W.
  rewrite settle_unfold. cbv zeta. set (s1 := settle_waiting s (pid p) keep) in *.
  rewrite (wf_cfg _ _ _ W). destruct (Z.leb_spec (Remember c) 0) as [Hr|Hr].
  { exists (decided s1), (order s1). split; [by destruct s1|]. by destruct W. }
  destruct (trim_spec (MaxDecisions c) (order s1 ++ [MkRemembered (pid p) now])
              (<[pid p := MkDecision keep now]> (decided s1))) as (d & o & -> & Hs & Hl & _).
  - specialize (Hc Hr). lia.
  - intros id v [[<- <-]|[_ Hv]]%lookup_insert_Some; [set_solver|].
    apply (wf_decided _ _ _ W) in Hv. set_solver.
  - exists d, o. split; [done|]. destruct W as [V1 V2 V3 V4 V5 V6 V7 V8 V9 V10 V11].
    split; simpl; try done; lia.
Qed.

Lemma fsize_nonneg l : 0 <= fsize l.
Proof. induction l as [|p l IH]; simpl; [lia|]. pose proof (zlen_nonneg (pspans p)). lia. Qed.

Lemma inv_settle c s lg k p v failed ready now s' :
  inv c (MkWorld s (Settling k p v failed ready) lg) -> finish_decide s now p v failed = Some s' ->
  inv c (MkWorld s' (Judging k ready) lg).
Proof.
  intros (Hc & W & [C1 C2 C3 C4 C5 C6] & Hpc) E. simpl in *.
  destruct (settle_total c s now p ready (Keep v) Hc W) as (d & o & Hs & W').
  assert (exists w, judging s !! pid p = Some w) as [w Hw].
  { apply (wf_judging _ _ _ W). by left. }
  pose proof (settle_waiting_counts s p (Keep v) w Hw) as K. cbv zeta in K.
  unfold finish_decide in E. rewrite Hs in E. cbn [mbind option_bind] in E. injection E as <-.
  set (s1 := settle_waiting s (pid p) (Keep v)) in *.
  destruct K as (K1 & K2 & K3 & K4 & K5 & K6 & K7 & K8). pose proof (zlen_nonneg w).
  split_and!; [done| | |done].
  - by apply wf_stats, wf_stats.
  - destruct (Keep v); [destruct failed|destruct failed; [done|]]; destruct K3 as (K31 & K32 & K33 & K34);
      split; simpl; rewrite ?K1, ?K8, ?K31; lia.
Qed.

(** ** Forgetting and writing late spans *)

Lemma wf_forget c s fl now : wf c s fl -> wf c (forget s now) fl.
Proof.
  intros [W1 W2 W3 W4 W5 W6 W7 W8 W9 W10 W11]. unfold forget.
  pose proof (expire_spec now (Remember (cfg s)) (order s) (decided s) W9) as He.
  destruct (expire now (Remember (cfg s)) (decided s) (order s)) as [d o]. destruct He as [Hl Hsub].
  apply wf_buckets. split; simpl; try done.
  - apply map_subseteq_size in Hsub. lia.
  - intros Hr. apply W11 in Hr. rewrite Hr in Hsub. apply map_empty. intros id.
    destruct (d !! id) as [v|] eqn:E; [|done]. by apply (lookup_weaken _ ∅ _ _ E) in Hsub.
Qed.

Lemma forget_counts s now :
  stats (forget s now) = stats s /\ pendings (forget s now) = pendings s /\
  judging (forget s now) = judging s /\ late (forget s now) = late s /\ cfg (forget s now) = cfg s.
Proof. unfold forget. destruct (expire _ _ _ _) as [d o]. done. Qed.

Lemma inv_forget c s lg now :
  inv c (MkWorld s (Forgetting now) lg) -> inv c (MkWorld (forget s now) LateTaking lg).
Proof.
  intros (Hc & W & [C1 C2 C3 C4 C5 C6] & _). simpl in *.
  destruct (forget_counts s now) as (E1 & E2 & E3 & E4 & E5).
  split_and!; [done|by apply wf_forget| |done]. split; simpl; rewrite ?E1, ?E2, ?E3, ?E4, ?E5; done.
Qed.

Lemma late_ids_spec m : NoDup (late_ids m) /\ forall id, id ∈ late_ids m <-> is_Some (m !! id).
Proof.
  unfold late_ids. split.
  - rewrite sort_func_perm. apply NoDup_elements.
  - intros id. by rewrite elem_of_sort_func, elem_of_elements, elem_of_dom.
Qed.

(** Summing over the keys is summing over the map. *)
Lemma msum_keys (f : list Span -> Z) m : forall ids,
  NoDup ids -> (forall id, id ∈ ids <-> is_Some (m !! id)) ->
  foldr (fun id n => f (late_at m id) + n) 0 ids = msum f m.
Proof.
  induction m as [|i x m Hi IH] using map_ind; intros ids Hnd Hids.
  - destruct ids as [|id ids]; [done|].
    assert (is_Some ((∅ : gmap TraceID (list Span)) !! id)) as [? H] by (apply Hids; by left).
    by rewrite lookup_empty in H.
  - rewrite msum_insert by done.
    assert (i ∈ ids) as Hin by (apply Hids; by rewrite lookup_insert_eq; eexists).
    apply list_elem_of_split in Hin as (l1 & l2 & ->).
    assert (foldr (fun id n => f (late_at (<[i:=x]> m) id) + n) 0 (l1 ++ i :: l2) =
              f x + foldr (fun id n => f (late_at (<[i:=x]> m) id) + n) 0 (l1 ++ l2)) as ->.
    { clear. induction l1 as [|a l1 IHl]; simpl; [|lia].
      unfold late_at at 1. by rewrite lookup_insert_eq. }
    rewrite <-(Permutation_middle l1 l2 i) in Hnd. apply NoDup_cons in Hnd as [Hni Hnd].
    rewrite <-(IH (l1 ++ l2) Hnd).
    + f_equal. clear -Hni. induction (l1 ++ l2) as [|a l IHl]; [done|]. simpl.
      rewrite IHl by set_solver. f_equal. unfold late_at. by rewrite lookup_insert_ne by set_solver.
    + intros id. specialize (Hids id). rewrite elem_of_app, elem_of_cons, lookup_insert_is_Some in Hids.
      rewrite elem_of_app. destruct (decide (id = i)) as [->|]; [|naive_solver].
      rewrite Hi. split; [intros; exfalso; apply Hni; set_solver|by intros []].
Qed.

Lemma msize_keys m ids : NoDup ids -> (forall id, id ∈ ids <-> is_Some (m !! id)) ->
  foldr (fun id n => zlen (late_at m id) + n) 0 ids = msize m.
Proof. apply msum_keys. Qed.

Lemma inv_take_late c s lg s' m :
  inv c (MkWorld s LateTaking lg) -> take_late s = (s', m) ->
  inv c (MkWorld s' (LateWriting m (late_ids m)) lg).
Proof.
  intros (Hc & W & [C1 C2 C3 C4 C5 C6] & _) [= <- <-]. simpl in *.
  destruct (late_ids_spec (late s)) as [Hnd Hids].
  pose proof (msum_nonneg zlen (late s) zlen_nonneg) as Hnn.
  split_and!; [done| | |done].
  - apply wf_stats. destruct W. split; simpl; try done.
  - split; simpl; rewrite ?(msize_keys (late s) _ Hnd Hids); unfold msize in *; rewrite ?msum_empty; lia.
Qed.

(** ** The invariant holds everywhere *)

Lemma inv_sweep_step c w w' : inv c w -> sweep_step w w' -> inv c w'.
Proof.
  intros Hi Hs. sweep_cases Hs.
  - eapply inv_take; [apply due_sweep_good|done..].
  - eapply inv_take; [apply due_flush_good|done..].
  - destruct (decide_verdict_buckets s now p s' v E) as [b ->]. destruct Hi as (Hc & W & [] & Hp).
    split_and!; [done|by apply wf_buckets| |done]. by split.
  - destruct Hi as (Hc & W & [C1 C2 C3 C4 C5 C6] & _). simpl in *. split_and!; [done|done| |by destruct failed].
    split; simpl; rewrite ?logged_snoc; unfold lost_verdict, kept_verdict in *; simpl;
      destruct failed; rewrite ?Hk; simpl; lia.
  - destruct Hi as (Hc & W & [C1 C2 C3 C4 C5 C6] & _). simpl in *. split_and!; [done|done| |done].
    split; simpl; rewrite ?Hk; lia.
  - by eapply inv_settle.
  - destruct Hi as (Hc & W & [] & _). split_and!; [done|done|by split|done].
  - destruct Hi as (Hc & W & [] & _). split_and!; [done|done|by split|done].
  - by apply inv_forget.
  - by eapply inv_take_late.
  - destruct Hi as (Hc & W & [C1 C2 C3 C4 C5 C6] & _). simpl in *. split_and!; [done|done| |done].
    split; simpl; rewrite ?logged_snoc; unfold lost_verdict, kept_verdict in *; simpl; lia.
  - destruct Hi as (Hc & W & [C1 C2 C3 C4 C5 C6] & _). simpl in *. split_and!; [done|done| |done].
    split; simpl; rewrite ?logged_snoc; unfold lost_verdict, kept_verdict in *; simpl; lia.
  - destruct Hi as (Hc & W & [C1 C2 C3 C4 C5 C6] & _). simpl in *. split_and!; [done|by apply wf_stats| |done].
    split; simpl; lia.
  - destruct Hi as (Hc & W & [C1 C2 C3 C4 C5 C6] & _). simpl in *. split_and!; [done|done| |done].
    split; simpl; lia.
Qed.

Lemma inv_initial c w : initial c w -> inv c w.
Proof.
  intros [s H]. destruct (New_good c s H) as [Hc ->]. split_and!; [done| | |done].
  - assert (0 <= Z.max 0 (MaxDecisions c)) by lia.
    split; simpl; try done; try (by intros ? [? ?]); try constructor.
    + intros [? H1]. by rewrite lookup_empty in H1.
    + by intros ?%elem_of_nil.
  - destruct Hc as (_ & _ & ? & _). split; simpl; try done. lia.
Qed.

Lemma inv_step c w w' : inv c w -> step w w' -> inv c w'.
Proof.
  intros Hi Hs. destruct Hs as [s pc lg now spans|w1 w2 Hs]; [by apply inv_accept|by eapply inv_sweep_step].
Qed.

Lemma inv_steps c w w' : inv c w -> rtc step w w' -> inv c w'.
Proof. intros Hi Hs. induction Hs as [|w w1 w2 H1 _ IH]; [done|]. apply IH. by eapply inv_step. Qed.

Lemma reachable_inv c w : reachable c w -> inv c w.
Proof. intros (w0 & H0 & Hs). eapply inv_steps; [|exact Hs]. by apply inv_initial. Qed.
