(* ===== verification/SamplerProps.v ===== *)
(** * The properties of the sampler

    Memory is bounded and every span accounted for in every interleaving; a
    sweep always finishes; [Accept], the choice of the ready traces and the
    settling of a verdict do what they promise. *)

From S2P Require Import Prelude GoTime GoFloat Ident Value Span.
From S2P Require Import Assembly Forest AssemblySpec BuildProps Policy Sampler SamplerSpec.

(** ** A sampler to evaluate *)

Definition example_config : Config :=
  MkConfig (10 * Second) (60 * Second) 4 [KeepErrors] (30 * Second) 2 fzero 0.

Definition example_sampler : Sampler := MkSampler example_config ∅ zeroStats ∅ ∅ [] ∅ ∅.

Definition traced (t id parent : byte) (code : StatusCode) : Span :=
  MkSpan (vreplicate 16 t) (vreplicate 8 id) (vreplicate 8 parent) "op" SpanServer "svc" 10 20
    (MkStatus code "") [] [].

(** Two traces, the second of which failed. *)
Definition example_in : list Span :=
  [ traced x01 x01 x00 StatusUnset; traced x02 x02 x00 StatusError; traced x01 x03 x01 StatusUnset ].

Definition example_accepted : Sampler := (Accept example_sampler 0 example_in).1.

Lemma example_reachable : reachable example_config (MkWorld example_accepted Idle []).
Proof.
  exists (MkWorld example_sampler Idle []). split; [by constructor|].
  apply rtc_once, step_accept.
Qed.

Lemma example_safe : Forall SafePolicy (Policies example_config).
Proof. repeat constructor; apply _. Qed.

(** ** Bounds and accounting *)

(** C11: in every interleaving of sweeps with [Accept], whatever the clock says
    and whichever writes fail, the buffer count is exactly the number of spans
    waiting for judgement, waiting for a verdict and waiting to be written,
    and never exceeds the configured maximum; no more verdicts are remembered
    than configured. *)
Theorem buffer_bounded (c : Config) (w : world) :
  reachable c w ->
  let s := smp w in
  Buffered (stats s) = psize (pendings s) + msize (judging s) + msize (late s) /\
  0 <= Buffered (stats s) <= MaxSpans c /\
  Z.of_nat (size (decided s)) <= Z.max 0 (MaxDecisions c).
Proof.
  intros (_ & W & [C1 C2 _ _ _ _] & _)%reachable_inv. rewrite (wf_cfg _ _ _ W) in C2.
  pose proof (msum_nonneg (fun p => zlen (pspans p)) (pendings (smp w)) (fun p => zlen_nonneg _)) as H1.
  pose proof (msum_nonneg zlen (judging (smp w)) zlen_nonneg) as H2.
  pose proof (msum_nonneg zlen (late (smp w)) zlen_nonneg) as H3.
  unfold psize, msize in *. split_and!; [done|lia|done|]. apply (wf_decisions _ _ _ W).
Qed.

Example buffer_bounded_witness : Buffered (stats example_accepted) = 3 /\ 0 <= 3 <= 4.
Proof.
  destruct (buffer_bounded _ _ example_reachable) as (_ & H & _).
  assert (Buffered (stats (smp (MkWorld example_accepted Idle []))) = 3) as E by (vm_compute; reflexivity).
  rewrite E in H. split; [exact E|exact H].
Defined.

Lemma judging_idle c s : wf c s [] -> judging s = ∅.
Proof.
  intros W. apply map_empty. intros id. destruct (judging s !! id) as [l|] eqn:E; [|done].
  assert (is_Some (judging s !! id)) as H by (by eexists). apply (wf_judging _ _ _ W) in H.
  by apply elem_of_nil in H.
Qed.

(** C10: between sweeps no accepted span is unaccounted for: each is waiting to
    be judged, in a trace that was kept, dropped or lost to a failed write, or
    was a late span that was kept or dropped; kept spans were all written, the
    spans counted as lost are those of the writes that failed, and late spans
    of kept traces are queued or were handed to the writer. *)
Theorem spans_accounted (c : Config) (s : Sampler) (lg : list write) :
  reachable c (MkWorld s Idle lg) ->
  Accepted (stats s) =
    psize (pendings s) + KeptSpans (stats s) + DroppedSpans (stats s) +
    LateKept (stats s) + LateDropped (stats s) + logged lost_verdict lg /\
  KeptSpans (stats s) = logged kept_verdict lg /\
  Lost_ (stats s) = logged wfailed lg /\
  LateKept (stats s) = msize (late s) + logged wlate lg /\
  judging s = ∅.
Proof.
  intros (_ & W & [C1 C2 C3 C4 C5 C6] & _)%reachable_inv. simpl in *.
  pose proof (judging_idle c s W) as Hj.
  rewrite Hj in *. unfold msize in *. rewrite ?msum_empty in *. split_and!; [lia..|done].
Qed.

Example spans_accounted_witness : Accepted (stats example_accepted) = psize (pendings example_accepted).
Proof.
  destruct (spans_accounted _ _ _ example_reachable) as (H & _).
  assert (KeptSpans (stats example_accepted) + DroppedSpans (stats example_accepted) +
          LateKept (stats example_accepted) + LateDropped (stats example_accepted) +
          logged lost_verdict [] = 0) as E by (vm_compute; reflexivity).
  rewrite H. lia.
Defined.

(** ** Progress *)

(** How far a sweep is from its end: the phase, and what is left of it. *)
Definition rank (p : PC) : nat * nat :=
  match p with
  | Judging _ l => (4, 3 * length l)%nat
  | Writing _ _ _ l => (4, 3 * length l + 2)%nat
  | Settling _ _ _ _ l => (4, 3 * length l + 1)%nat
  | Forgetting _ => (3, 0)%nat
  | LateTaking => (2, 0)%nat
  | LateWriting _ ids => (1, 2 * length ids)%nat
  | LateLosing _ _ ids => (1, 2 * length ids + 1)%nat
  | Idle => (0, 0)%nat
  end.

Definition nearer (a b : nat * nat) : Prop := (a.1 < b.1 \/ a.1 = b.1 /\ a.2 < b.2)%nat.

Lemma nearer_wf : well_founded nearer.
Proof.
  intros [a b]. revert b. induction (lt_wf a) as [a _ IHa]. intros b.
  induction (lt_wf b) as [b _ IHb]. constructor. intros [a' b'] Hn. unfold nearer in Hn. simpl in Hn.
  destruct Hn as [H|[-> H]]; auto.
Qed.

Lemma sweep_can_step c w : Forall SafePolicy (Policies c) -> inv c w -> pc w <> Idle -> exists w', sweep_step w w'.
Proof.
  intros Hs (Hc & W & _ & _) Hpc. destruct w as [s p lg]. simpl in *.
  destruct p as [|k [|p l]|k p v l|k p v f l|now| |m [|id ids]|m id ids].
  - done.
  - destruct k; eexists; constructor.
  - destruct (decide_verdict_total s 0 p) as (b & v & E).
    { by rewrite (wf_cfg _ _ _ W). }
    { pose proof (wf_flight _ _ _ W) as H. by apply Forall_cons in H as [? _]. }
    eexists. by eapply step_decide.
  - destruct (Keep v) eqn:Ek; eexists; [by apply (step_write _ _ _ _ _ _ false)|by apply step_no_write].
  - destruct (settle_total c s 0 p l (Keep v) Hc W) as (d & o & E & _).
    eexists. eapply (step_settle _ _ _ _ _ _ _ 0). unfold finish_decide. rewrite E. reflexivity.
  - eexists. constructor.
  - eexists. by apply step_take_late.
  - eexists. constructor.
  - eexists. apply step_late_ok.
  - eexists. constructor.
Qed.

Lemma sweep_nearer w w' : pc w <> Idle -> sweep_step w w' -> nearer (rank (pc w')) (rank (pc w)).
Proof. intros Hpc Hst. unfold nearer. destruct Hst; simpl in *; first [done|lia]. Qed.

(** C14: a sweep or flush in progress can always take its next step, so no
    input, clock or writer makes it panic or wait for [Accept]; and every step
    it takes brings it nearer its end in a well-founded order [Accept] cannot
    affect, so it finishes whatever is accepted in the meantime. *)
Theorem sweep_progress (c : Config) (w : world) :
  Forall SafePolicy (Policies c) -> reachable c w -> pc w <> Idle ->
  (exists w', sweep_step w w') /\
  (forall w', sweep_step w w' -> nearer (rank (pc w')) (rank (pc w))) /\
  well_founded nearer /\
  (forall s now spans lg, rank (pc (MkWorld (Accept s now spans).1 (pc w) lg)) = rank (pc w)).
Proof.
  intros Hs Hi%reachable_inv Hpc. split; [by eapply sweep_can_step|].
  split; [intros w'; by apply sweep_nearer|]. split; [apply nearer_wf|done].
Qed.

(** The outcome of a write is up to the writer. *)
Lemma sweep_step_outcome w w' : sweep_step w w' ->
  log w' = log w \/ exists late spans, forall failed, exists w2, sweep_step w w2 /\ log w2 = log w ++ [MkWrite late spans failed].
Proof.
  intros Hst. destruct Hst; try (left; reflexivity); right; simpl.
  - do 2 eexists. intros f. eexists. split; [by apply (step_write _ _ _ _ _ _ f)|reflexivity].
  - do 2 eexists. intros []; eexists; [split; [apply step_late_failed|reflexivity]|split; [apply step_late_ok|reflexivity]].
  - do 2 eexists. intros []; eexists; [split; [apply step_late_failed|reflexivity]|split; [apply step_late_ok|reflexivity]].
Qed.

(** The traces waiting change only where a sweep or a flush begins. *)
Lemma sweep_step_pendings w w' : sweep_step w w' -> pc w <> Idle -> pendings (smp w') = pendings (smp w).
Proof.
  intros Hst Hpc. destruct Hst as [| |s lg k p ready now s' v E| | |s lg k p v failed ready now s' E| | |s lg now|s lg s' m E| | | |];
    simpl in *; try done.
  - by apply decide_verdict_buckets in E as [b ->].
  - unfold finish_decide in E. destruct (settle s now (pid p) (Keep v)) as [s1|] eqn:Es; [|done]. injection E as <-.
    simpl. rewrite settle_unfold in Es. cbv zeta in Es. destruct (_ <=? 0); [injection Es as <-|].
    + unfold settle_waiting. case_bool_decide; [done|]. by destruct (Keep v).
    + destruct (trim _ _ _) as [[d o]|]; [|done]. injection Es as <-. simpl.
      unfold settle_waiting. case_bool_decide; [done|]. by destruct (Keep v).
  - by destruct (forget_counts s now) as (_ & -> & _).
  - unfold take_late in E. by injection E as <- _.
Qed.

Example sweep_progress_witness :
  exists w', sweep_step (MkWorld example_accepted LateTaking []) w' /\ pc w' <> LateTaking.
Proof.
  destruct (sweep_progress example_config (MkWorld example_accepted LateTaking []) example_safe) as [[w' H] _].
  - exists (MkWorld example_sampler Idle []). split; [by constructor|].
    apply (rtc_l _ _ (MkWorld example_sampler (Judging Flushing []) [])).
    { assert (map_keys (pendings example_sampler) []) as Hk
        by (unfold map_keys; simpl; by rewrite dom_empty_L, elements_empty).
      exact (step_sweeper _ _ (step_flush _ _ _ _ _ Hk (eq_refl : take_ready _ [] example_sampler = (_, _)))). }
    apply (rtc_l _ _ (MkWorld example_sampler LateTaking [])); [apply step_sweeper, step_flushed|].
    apply rtc_once, step_accept.
  - discriminate.
  - exists w'. split; [exact H|]. inversion H; subst; discriminate.
Defined.

(** ** Accept *)

Definition mine (id : TraceID) (spans : list Span) : list Span := filter (fun x => TraceID_ x = id) spans.

Definition pending_at (s : Sampler) (id : TraceID) : list Span :=
  default [] (pspans <$> pendings s !! id).

(** The spans [l] of a trace, if they go to the late queue; if they are
    buffered. *)
Definition to_late (s : Sampler) (now : Time) (id : TraceID) (l : list Span) : list Span :=
  match verdict s id now with (true, true) => l | _ => [] end.
Definition to_pending (s : Sampler) (now : Time) (id : TraceID) (l : list Span) : list Span :=
  match judging s !! id, verdict s id now with None, (_, false) => l | _, _ => [] end.

Lemma judging_undecided s id now : is_Some (judging s !! id) -> verdict s id now = (false, false).
Proof. intros [w Hw]. unfold verdict. by rewrite Hw. Qed.

Lemma verdict_cases s id now :
  verdict s id now = (true, true) \/ verdict s id now = (false, true) \/ verdict s id now = (false, false).
Proof.
  unfold verdict. destruct (judging s !! id); [auto|]. destruct (decided s !! id) as [d|]; [|auto].
  destruct (_ <=? _); [auto|]. destruct (keep d); auto.
Qed.

(** Where one accepted span goes. *)
Lemma accept_one_places now s sp id :
  let s' := accept_one now s sp in
  let l := if decide (TraceID_ sp = id) then [sp] else [] in
  judging s' !! id = (fun w => w ++ l) <$> judging s !! id /\
  late_at (late s') id = late_at (late s) id ++ to_late s now id l /\
  pending_at s' id = pending_at s id ++ to_pending s now id l.
Proof.
  cbv zeta. unfold accept_one, to_late, to_pending, pending_at, late_at.
  destruct (decide (TraceID_ sp = id)) as [<-|Hne].
  - destruct (judging s !! TraceID_ sp) as [w|] eqn:Ej.
    + assert (verdict s (TraceID_ sp) now = (false, false)) as ->
        by (apply judging_undecided; rewrite Ej; by eexists).
      simpl. rewrite lookup_insert_eq. by rewrite !app_nil_r.
    + destruct (verdict_cases s (TraceID_ sp) now) as [E|[E|E]]; rewrite E; simpl.
      * rewrite Ej, lookup_insert_eq. simpl. by rewrite app_nil_r.
      * rewrite Ej. by rewrite !app_nil_r.
      * rewrite Ej, lookup_insert_eq. simpl. rewrite app_nil_r. by destruct (pendings s !! TraceID_ sp).
  - assert (match verdict s id now with (true, true) => @nil Span | _ => [] end = []) as ->
      by (by destruct (verdict s id now) as [[] []]).
    assert (match judging s !! id, verdict s id now with None, (_, false) => @nil Span | _, _ => [] end = []) as ->
      by (destruct (judging s !! id); [done|]; by destruct (verdict s id now) as [[] []]).
    rewrite !app_nil_r.
    destruct (judging s !! TraceID_ sp) as [w|] eqn:Ej; [|destruct (verdict s (TraceID_ sp) now) as [[] []]];
      simpl; rewrite ?lookup_insert_ne by done; split_and!; try done;
      (destruct (judging s !! id); simpl; by rewrite ?app_nil_r).
Qed.

Lemma accept_fold_places now spans id : forall s,
  let s' := foldl (accept_one now) s spans in
  judging s' !! id = (fun w => w ++ mine id spans) <$> judging s !! id /\
  late_at (late s') id = late_at (late s) id ++ to_late s now id (mine id spans) /\
  pending_at s' id = pending_at s id ++ to_pending s now id (mine id spans).
Proof.
  induction spans as [|sp spans IH]; intros s; cbn [foldl].
  - unfold to_late, to_pending. unfold mine; simpl. split_and!.
    + destruct (judging s !! id); simpl; by rewrite ?app_nil_r.
    + by destruct (verdict s id now) as [[] []]; rewrite app_nil_r.
    + by destruct (judging s !! id), (verdict s id now) as [[] []]; rewrite app_nil_r.
  - specialize (IH (accept_one now s sp)). destruct (accept_one_places now s sp id) as (A1 & A2 & A3).
    assert (mine id (sp :: spans) = (if decide (TraceID_ sp = id) then [sp] else []) ++ mine id spans) as ->.
    { unfold mine. rewrite filter_cons. by case_decide. }
    set (l := if decide (TraceID_ sp = id) then [sp] else []) in *. cbv zeta in IH.
    destruct IH as (B1 & B2 & B3). rewrite B1, B2, B3, A1, A2, A3. unfold to_late, to_pending.
    rewrite accept_one_verdict, A1. split_and!.
    + destruct (judging s !! id); simpl; [by rewrite app_assoc|done].
    + rewrite <-app_assoc. by destruct (verdict s id now) as [[] []].
    + rewrite <-app_assoc. by destruct (judging s !! id), (verdict s id now) as [[] []].
Qed.

(** C37: [Accept] refuses a batch larger than the buffer for good, and a batch
    that does not fit for now, without taking any of it; otherwise it takes
    all of it: the spans of a trace being judged wait for its verdict, the
    late spans of a kept trace are queued, those of a dropped trace are
    counted and dropped, and the rest are buffered under their trace, in
    order. *)
Theorem accept_spec (s : Sampler) (now : Time) (spans : list Span) :
  let '(s', err) := Accept s now spans in
  (MaxSpans (cfg s) < zlen spans /\ err = Some ErrBatchTooLarge /\ s' = s) \/
  (MaxSpans (cfg s) < Buffered (stats s) + held s now spans /\ err = Some ErrSinkFull /\
   s' = set_stats (addRefused (zlen spans)) s) \/
  (zlen spans <= MaxSpans (cfg s) /\ Buffered (stats s) + held s now spans <= MaxSpans (cfg s) /\
   err = None /\ Buffered (stats s') = Buffered (stats s) + held s now spans /\
   Accepted (stats s') = Accepted (stats s) + zlen spans /\
   decided s' = decided s /\
   forall id,
     judging s' !! id = (fun w => w ++ mine id spans) <$> judging s !! id /\
     late_at (late s') id = late_at (late s) id ++ to_late s now id (mine id spans) /\
     pending_at s' id = pending_at s id ++ to_pending s now id (mine id spans)).
Proof.
  unfold Accept. destruct (Z.ltb_spec (MaxSpans (cfg s)) (zlen spans)); [by left|].
  destruct (Z.ltb_spec (MaxSpans (cfg s)) (Buffered (stats s) + held s now spans)); [right; by left|].
  right. right. pose proof (accept_fold now spans s) as Hf. cbv zeta in Hf.
  destruct Hf as (_ & _ & _ & E1 & E2 & _ & _ & _ & _ & _ & E3 & _).
  simpl. rewrite E1, E2. split_and!; try done. intros id. apply accept_fold_places.
Qed.

(** ** Which traces a sweep takes *)

Definition is_due (c : Config) (now : Time) (p : pending) : bool :=
  (Quiet c <=? Time.Sub now (last_ p)) || (MaxAge c <=? Time.Sub now (first p)).

Lemma due_sweep_is_due c now p t : (due_sweep c now p t).1 = is_due c now p.
Proof.
  unfold due_sweep, is_due. destruct (Quiet c <=? _); [done|]. by destruct (MaxAge c <=? _).
Qed.

(** The sweep that reads the clock at [now] takes exactly the traces that
    have been quiet for the configured time or buffered for the maximum age,
    the one that started first ahead, and leaves the others as they are. *)
Theorem sweep_takes_due (c : Config) (s s' : Sampler) (lg : list write) (now : Time)
    (ord : list TraceID) (ready : list pending) :
  reachable c (MkWorld s Idle lg) -> map_keys (pendings s) ord ->
  take_ready (due_sweep c now) ord s = (s', ready) ->
  (forall p, p ∈ ready <-> exists id, pendings s !! id = Some p /\ is_due c now p = true) /\
  StronglySorted (cmp_le oldest_first) ready /\
  forall id, pendings s' !! id =
    match pendings s !! id with
    | Some p => if is_due c now p then None else Some p
    | None => None
    end.
Proof.
  intros (_ & W & _ & _)%reachable_inv Hord E. simpl in W.
  pose proof (wf_cfg _ _ _ W) as Hcfg. rewrite <-Hcfg in W.
  destruct (take_ready_spec _ s ord [] s' ready (due_sweep_good c now) W Hord E) as (l & -> & T).
  destruct T as [T1 T2 T3 T4 T5 T6 T7 T8 T9 T10 T11]. simpl in *.
  assert (forall p, p ∈ l -> pendings s !! pid p = Some p /\ is_due c now p = true) as Hl.
  { intros p Hp. destruct (T9 p Hp) as (H1 & _ & t & H2). split; [done|]. by rewrite <-(due_sweep_is_due c now p t). }
  assert (forall id p, pendings s' !! id = Some p -> pendings s !! id = Some p /\ is_due c now p = false) as Hs'.
  { intros id p Hp. destruct (decide (id ∈ ord)) as [Hin|Hin].
    - destruct (T10 id p Hin Hp) as (H1 & t & H2). split; [done|]. by rewrite <-(due_sweep_is_due c now p t).
    - exfalso. apply Hin. rewrite (Hord : ord ≡ₚ _). apply elem_of_elements, elem_of_dom.
      rewrite <-(T3 id Hin). by eexists. }
  split_and!.
  - intros p. rewrite elem_of_sort_func. split.
    + intros Hp. exists (pid p). by apply Hl.
    + intros (id & Hp & Hd). destruct (T11 id p Hp) as [H|H]; [|done]. apply Hs' in H as [_ H]. congruence.
  - apply sort_func_sorted, oldest_first_laws.
  - intros id. destruct (pendings s' !! id) as [p|] eqn:Ep.
    + destruct (Hs' id p Ep) as [-> ->]. done.
    + destruct (pendings s !! id) as [p|] eqn:Ep0; [|done].
      destruct (T11 id p Ep0) as [H|H]; [congruence|]. destruct (Hl p H) as [_ ->]. done.
Qed.

Definition example_order : list TraceID := [vreplicate 16 x01; vreplicate 16 x02].

Lemma example_keys : map_keys (pendings example_accepted) example_order.
Proof.
  unfold map_keys. vm_decide.
Qed.

Example sweep_takes_due_witness :
  exists s' ready, take_ready (due_sweep example_config (10 * Second)) example_order example_accepted = (s', ready) /\
    pendings s' !! vreplicate 16 x01 = None /\ StronglySorted (cmp_le oldest_first) ready.
Proof.
  destruct (take_ready (due_sweep example_config (10 * Second)) example_order example_accepted)
    as [s' ready] eqn:E.
  destruct (sweep_takes_due _ _ _ _ _ _ _ example_reachable example_keys E) as (_ & Hsorted & Hleft).
  exists s', ready. split; [reflexivity|]. split; [|exact Hsorted].
  rewrite Hleft.
  assert (match pendings example_accepted !! vreplicate 16 x01 with
          | Some p => if is_due example_config (10 * Second) p then None else Some p
          | None => None end = None) as H by (vm_compute; reflexivity).
  exact H.
Defined.

(** ** Settling a verdict *)

(** Once a trace's verdict is settled, nothing waits for it any more: the
    spans that arrived meanwhile are queued if it was kept and dropped if not,
    as is every later span for as long as the verdict is remembered; the trace
    and its spans are counted as dropped, lost or kept, under the verdict's
    reason. *)
Theorem settle_spec (c : Config) (s : Sampler) (k : kind) (p : pending) (v : Verdict) (failed : bool)
    (ready : list pending) (lg : list write) (now : Time) :
  reachable c (MkWorld s (Settling k p v failed ready) lg) ->
  exists s', finish_decide s now p v failed = Some s' /\
    pendings s' = pendings s /\
    judging s' = delete (pid p) (judging s) /\
    (exists w, judging s !! pid p = Some w /\
       late_at (late s') (pid p) = late_at (late s) (pid p) ++ (if Keep v then w else []) /\
       LateDropped (stats s') = LateDropped (stats s) + (if Keep v then 0 else zlen w)) /\
    default 0 (Reasons (stats s') !! Reason v) = default 0 (Reasons (stats s) !! Reason v) + 1 /\
    KeptSpans (stats s') = KeptSpans (stats s) + (if Keep v && negb failed then zlen (pspans p) else 0) /\
    DroppedSpans (stats s') = DroppedSpans (stats s) + (if Keep v then 0 else zlen (pspans p)) /\
    Lost_ (stats s') = Lost_ (stats s) + (if Keep v && failed then zlen (pspans p) else 0) /\
    (0 < Remember c -> Z.of_nat (size (<[pid p := MkDecision (Keep v) now]> (decided s))) <= MaxDecisions c ->
     forall t, Time.Sub t now < Remember c -> verdict s' (pid p) t = (Keep v, true)).
Proof.
  intros (Hc & W & _ & Hpc)%reachable_inv. simpl in W, Hpc.
  destruct (settle_total c s now p ready (Keep v) Hc W) as (d & o & E & W').
  assert (exists w, judging s !! pid p = Some w) as [w Hw] by (apply (wf_judging _ _ _ W); by left).
  pose proof (settle_waiting_counts s p (Keep v) w Hw) as K. cbv zeta in K.
  unfold finish_decide. rewrite E. cbn [mbind option_bind]. eexists. split; [reflexivity|].
  assert (judging (settle_waiting s (pid p) (Keep v)) = delete (pid p) (judging s) /\
          late_at (late (settle_waiting s (pid p) (Keep v))) (pid p) =
            late_at (late s) (pid p) ++ (if Keep v then w else []) /\
          decided (settle_waiting s (pid p) (Keep v)) = decided s /\
          order (settle_waiting s (pid p) (Keep v)) = order s /\
          Reasons (stats (settle_waiting s (pid p) (Keep v))) = Reasons (stats s)) as (J1 & J2 & J3 & J4 & J5).
  { unfold settle_waiting. rewrite Hw. change (default [] (Some w)) with w. case_bool_decide as Hz.
    - destruct w; [|done]. simpl. by destruct (Keep v); rewrite app_nil_r.
    - destruct (Keep v); simpl; [|by rewrite app_nil_r].
      unfold late_at. by rewrite lookup_insert_eq. }
  rewrite settle_unfold in E. cbv zeta in E.
  set (s1 := settle_waiting s (pid p) (Keep v)) in *. destruct K as (K1 & _ & K3 & K4 & K5 & K6 & K7 & K8).
  assert (LateDropped (stats s1) = LateDropped (stats s) + (if Keep v then 0 else zlen w)) as Hld
    by (destruct (Keep v); destruct K3 as (_ & _ & ? & _); lia).
  simpl. split_and!; try done.
  - exists w. split_and!; [done|by rewrite J2|]. destruct (negb (Keep v)), failed; simpl; lia.
  - destruct (negb (Keep v)), failed; simpl; rewrite J5, lookup_insert_eq; done.
  - destruct (Keep v), failed; simpl; lia.
  - destruct (Keep v), failed; simpl; lia.
  - destruct (Keep v), failed; simpl; try lia; done.
  - intros Hrem Hsize t Ht. unfold verdict; simpl. rewrite J1, lookup_delete_eq.
    assert (cfg s1 = c) as Hcfg by (by rewrite K8, (wf_cfg _ _ _ W)). rewrite Hcfg in *.
    destruct (Z.leb_spec (Remember c) 0); [lia|]. rewrite J3, J4 in E.
    destruct (order s ++ [MkRemembered (pid p) now]) as [|e l]; cbn [trim] in E;
      rewrite (proj2 (Z.leb_le _ _) Hsize) in E; cbn [mbind option_bind] in E;
      injection E as <- _; rewrite lookup_insert_eq; simpl;
      destruct (Z.leb_spec (Remember c) (Time.Sub t now)); [lia|done|lia|done].
Qed.

(** The same sampler while its first trace is being settled. *)
Definition settling : option (Sampler * pending * Verdict * list pending) :=
  let '(s, ready) := take_ready (due_sweep example_config (10 * Second)) example_order example_accepted in
  match ready with
  | [] => None
  | p :: l => '(s, v) ← decide_verdict s 0 p; Some (s, p, v, l)
  end.

Lemma settling_reachable s p v l :
  settling = Some (s, p, v, l) -> Keep v = false ->
  reachable example_config (MkWorld s (Settling (Sweeping (10 * Second)) p v false l) []).
Proof.
  intros E Hk. destruct example_reachable as (w0 & H0 & Hs). exists w0. split; [exact H0|].
  etrans; [exact Hs|]. unfold settling in E.
  destruct (take_ready (due_sweep example_config (10 * Second)) example_order example_accepted)
    as [s1 ready] eqn:Et.
  destruct ready as [|p1 l1]; [discriminate E|].
  destruct (decide_verdict s1 0 p1) as [[s2 v2]|] eqn:Ev; [|discriminate E].
  injection E as -> -> -> ->.
  eapply rtc_l; [apply step_sweeper; eapply (step_sweep _ _ (10 * Second)); [exact example_keys|exact Et]|].
  eapply rtc_l; [apply step_sweeper; by eapply step_decide|].
  apply rtc_once, step_sweeper. by apply step_no_write.
Qed.

Example settle_spec_witness :
  exists s p l s', settling = Some (s, p, unclaimed, l) /\
    finish_decide s (10 * Second) p unclaimed false = Some s' /\ DroppedSpans (stats s') = 2.
Proof.
  assert (match settling with
          | Some (s, p, v, _) => (v, DroppedSpans (stats s), zlen (pspans p))
          | None => (unclaimed, 0, 0)
          end = (unclaimed, 0, 2)) as E by (vm_compute; reflexivity).
  destruct settling as [[[[s p] v] l]|] eqn:Es; [|discriminate E].
  apply pair_equal_spec in E as [E Hlen]. apply pair_equal_spec in E as [Hv Hz]. subst v.
  destruct (settle_spec _ _ _ _ _ _ _ _ (10 * Second) (settling_reachable _ _ _ _ Es eq_refl))
    as (s' & Ef & _ & _ & _ & _ & _ & Hd & _).
  exists s, p, l, s'. split; [reflexivity|]. split; [exact Ef|].
  rewrite Hd, Hz. exact Hlen.
Defined.
