(* ===== verification/SamplerFlow.v ===== *)
(** * What flows through the sampler

    Every span the sampler holds or hands to its writer was accepted before,
    under its own trace.  So whatever holds of the accepted spans, that they
    are valid and encodable for one, holds of the written ones. *)

From S2P Require Import Prelude GoTime GoFloat Ident Value Span.
From S2P Require Import Assembly Forest AssemblySpec BuildProps Policy Sampler SamplerSpec SamplerProps.

(** ** Only what satisfies [P] *)

Section only.
Context (P : TraceID -> Span -> Prop).

Definition only_map (m : gmap TraceID (list Span)) : Prop := map_Forall (fun id l => Forall (P id) l) m.
Definition only_pending (p : pending) : Prop := Forall (P (pid p)) (pspans p).

Record only_state (s : Sampler) : Prop := {
  on_pending : map_Forall (fun id p => pid p = id /\ only_pending p) (pendings s);
  on_judging : only_map (judging s);
  on_late : only_map (late s);
}.

Definition only_pc (pc : PC) : Prop :=
  Forall only_pending (flight pc) /\
  match pc with LateWriting m _ | LateLosing m _ _ => only_map m | _ => True end.

Record only (w : world) : Prop := {
  on_state : only_state (smp w);
  on_pc : only_pc (pc w);
  on_log : Forall (fun x => exists id, Forall (P id) (wspans x)) (log w);
}.

Lemma only_map_append m id l : only_map m -> Forall (P id) l -> only_map (<[id := default [] (m !! id) ++ l]> m).
Proof.
  intros Hm Hl. apply map_Forall_insert_2; [|done]. apply Forall_app. split; [|done].
  destruct (m !! id) eqn:E; [by apply (Hm id)|constructor].
Qed.

Lemma only_late_at m id : only_map m -> Forall (P id) (late_at m id).
Proof. intros Hm. unfold late_at. destruct (m !! id) eqn:E; [by apply (Hm id)|constructor]. Qed.

Lemma only_stats s f : only_state s -> only_state (set_stats f s).
Proof. by intros []. Qed.

Lemma accept_one_only now s sp : only_state s -> P (TraceID_ sp) sp -> only_state (accept_one now s sp).
Proof.
  intros [H1 H2 H3] Hsp. assert (Forall (P (TraceID_ sp)) [sp]) as Hl by by apply Forall_singleton.
  unfold accept_one. destruct (judging s !! TraceID_ sp) as [w|] eqn:Ej.
  - split; simpl; [done| |done]. pose proof (only_map_append _ _ _ H2 Hl) as H. by rewrite Ej in H.
  - destruct (verdict s (TraceID_ sp) now) as [[] []].
    + split; simpl; [done..|]. by apply only_map_append.
    + split; simpl; [|done..]. apply map_Forall_insert_2; [|done].
      destruct (pendings s !! TraceID_ sp) as [p|] eqn:Ep; [|by split].
      destruct (H1 _ _ Ep) as [Hid Hp]. split; [done|]. apply Forall_app. split; [done|]. simpl. by rewrite Hid.
    + by apply only_stats.
    + split; simpl; [|done..]. apply map_Forall_insert_2; [|done].
      destruct (pendings s !! TraceID_ sp) as [p|] eqn:Ep; [|by split].
      destruct (H1 _ _ Ep) as [Hid Hp]. split; [done|]. apply Forall_app. split; [done|]. simpl. by rewrite Hid.
Qed.

Lemma Accept_only s now spans :
  only_state s -> Forall (fun sp => P (TraceID_ sp) sp) spans -> only_state (Accept s now spans).1.
Proof.
  intros Hs Hl. unfold Accept. destruct (_ <? _); [done|]. destruct (_ <? _); simpl; [by apply only_stats|].
  apply only_stats, only_stats. clear - Hs Hl. revert s Hs. induction Hl as [|sp l Hsp _ IH]; intros s Hs; [done|].
  cbn [foldl]. by apply IH, accept_one_only.
Qed.

Lemma take_one_only due st id :
  only_state st.1 -> Forall only_pending st.2 ->
  only_state (take_one due st id).1 /\ Forall only_pending (take_one due st id).2.
Proof.
  destruct st as [s l]; simpl. intros Hs Hl. unfold take_one. destruct (pendings s !! id) as [p|] eqn:Ep; [|done].
  destruct (due p (stats s)) as [[] t]; simpl.
  - destruct Hs as [H1 H2 H3]. destruct (H1 _ _ Ep) as [_ Hp]. split.
    + apply (only_stats _ (fun _ => _)). split; simpl; [by apply map_Forall_delete| |done].
      apply map_Forall_insert_2; [constructor|done].
    + apply Forall_app. split; [done|by apply Forall_singleton].
  - split; [by apply only_stats|done].
Qed.

Lemma take_ready_only due ord s s' ready :
  only_state s -> take_ready due ord s = (s', ready) -> only_state s' /\ Forall only_pending ready.
Proof.
  intros Hs. unfold take_ready.
  assert (forall ord st, only_state st.1 -> Forall only_pending st.2 ->
    only_state (foldl (take_one due) st ord).1 /\ Forall only_pending (foldl (take_one due) st ord).2) as Hf.
  { clear. induction ord as [|id ord IH]; intros st H1 H2; [done|]. cbn [foldl]. by apply IH; apply take_one_only. }
  destruct (Hf ord (s, []) Hs ltac:(constructor)) as [H1 H2].
  destruct (foldl (take_one due) (s, []) ord) as [s1 l]. intros [= <- <-]. split; [done|].
  simpl in H2. by rewrite sort_func_perm.
Qed.

Lemma settle_only s now id keep s' : only_state s -> settle s now id keep = Some s' -> only_state s'.
Proof.
  intros [H1 H2 H3]. assert (only_state (settle_waiting s id keep)) as Hw.
  { assert (only_map (delete id (judging s))) as Hd by by apply map_Forall_delete.
    unfold settle_waiting. case_bool_decide; [by split|]. destruct keep; [|by split].
    split; simpl; [done..|]. apply only_map_append; [done|].
    destruct (judging s !! id) eqn:E; [by apply (H2 id)|constructor]. }
  rewrite settle_unfold. cbv zeta. destruct (_ <=? 0); [by intros [= <-]|].
  destruct (trim _ _ _) as [[d o]|]; [|done]. intros [= <-]. by destruct Hw.
Qed.

Lemma finish_only s now p v failed s' : only_state s -> finish_decide s now p v failed = Some s' -> only_state s'.
Proof.
  intros Hs. unfold finish_decide. destruct (settle s now (pid p) (Keep v)) as [s1|] eqn:E; [|done]. intros [= <-].
  by apply only_stats, only_stats, (settle_only _ _ _ _ _ Hs E).
Qed.

Lemma only_log_snoc lg late l failed id :
  Forall (fun x => exists id, Forall (P id) (wspans x)) lg -> Forall (P id) l ->
  Forall (fun x => exists id, Forall (P id) (wspans x)) (lg ++ [MkWrite late l failed]).
Proof. intros Hlg Hl. apply Forall_app. split; [done|]. apply Forall_singleton. by exists id. Qed.

Lemma sweep_step_only w w' : only w -> sweep_step w w' -> only w'.
Proof.
  intros [Hs [Hf Hpc] Hl] Hst. sweep_cases Hst; simpl in *.
  - destruct (take_ready_only _ _ _ _ _ Hs E). by split.
  - destruct (take_ready_only _ _ _ _ _ Hs E). by split.
  - apply decide_verdict_buckets in E as [b ->]. split; [by destruct Hs|by split|done].
  - split; [done|by split|]. apply Forall_cons in Hf as [Hp _]. by eapply only_log_snoc.
  - by split.
  - apply Forall_cons in Hf as [_ Hf]. split; [by eapply finish_only|by split|done].
  - by split.
  - by split.
  - destruct (forget_counts s now) as (_ & E1 & E2 & E3 & _). destruct Hs as [H1 H2 H3].
    split; [split; simpl; rewrite ?E1, ?E2, ?E3; done|by split|done].
  - unfold take_late in E. injection E as <- <-. destruct Hs as [H1 H2 H3].
    split; [apply (only_stats (set_late _ s)); split; simpl; [done|done|apply map_Forall_empty]|by split|done].
  - split; [done|by split|]. eapply only_log_snoc; [done|]. by apply only_late_at.
  - split; [done|by split|]. eapply only_log_snoc; [done|]. by apply only_late_at.
  - split; [by apply only_stats|by split|done].
  - by split.
Qed.

Lemma initial_only c w : initial c w -> only w.
Proof.
  intros [s H]. destruct (New_good c s H) as [_ ->]. split; [|by split|constructor].
  split; simpl; apply map_Forall_empty.
Qed.
End only.

Lemma only_weaken (P Q : TraceID -> Span -> Prop) w : (forall id sp, P id sp -> Q id sp) -> only P w -> only Q w.
Proof.
  intros HPQ. assert (forall id l, Forall (P id) l -> Forall (Q id) l) as Hl.
  { intros id l H. apply (Forall_impl _ _ _ H). apply HPQ. }
  intros [[H1 H2 H3] [H4 H5] H6]. split; [split| |].
  - intros id p Hp. destruct (H1 id p Hp). split; [done|by apply Hl].
  - intros id l Hj. by apply Hl, H2.
  - intros id l Hj. by apply Hl, H3.
  - split; [apply (Forall_impl _ _ _ H4); intros p; apply Hl|].
    destruct (pc w); try done; intros id' l Hj; by apply Hl, H5.
  - apply (Forall_impl _ _ _ H6). intros x [id Hx]. exists id. by apply Hl.
Qed.

(** ** Histories *)

(** The worlds a sampler reaches, with every span of a batch it took, in
    order. *)
Inductive history (c : Config) : list Span -> world -> Prop :=
| hist_initial w : initial c w -> history c [] w
| hist_accept h s pc lg now spans :
    history c h (MkWorld s pc lg) ->
    history c (h ++ match (Accept s now spans).2 with None => spans | Some _ => [] end)
      (MkWorld (Accept s now spans).1 pc lg)
| hist_sweep h w w' : history c h w -> sweep_step w w' -> history c h w'.

Definition accepted_in (h : list Span) (id : TraceID) (sp : Span) : Prop := sp ∈ h /\ TraceID_ sp = id.

Lemma refused_only P s now spans :
  only_state P s -> (Accept s now spans).2 <> None -> only_state P (Accept s now spans).1.
Proof.
  intros Hs. unfold Accept. destruct (_ <? _); [done|]. destruct (_ <? _); simpl; [|done].
  intros _. by apply only_stats.
Qed.

Lemma history_only c h w : history c h w -> only (accepted_in h) w.
Proof.
  induction 1 as [w H0|h s pc lg now spans _ IH|h w w' _ IH Hst].
  - by eapply initial_only.
  - destruct ((Accept s now spans).2) as [e|] eqn:E.
    + rewrite app_nil_r. destruct IH as [Hs Hpc Hl]. split; [|done|done]. apply refused_only; [done|]. by rewrite E.
    + apply (only_weaken _ (accepted_in (h ++ spans))) in IH as [Hs Hpc Hl].
      * split; [|done|done]. apply Accept_only; [done|]. apply Forall_forall. intros sp Hsp. split; [set_solver|done].
      * intros id sp [? ?]. split; [set_solver|done].
  - by eapply sweep_step_only.
Qed.

(** C15: everything the sampler hands to its writer is spans of one trace that
    it accepted before: it invents, mixes up and alters nothing. *)
Theorem writes_only_accepted (c : Config) (h : list Span) (w : world) (x : write) :
  history c h w -> x ∈ log w ->
  exists id, Forall (fun sp => sp ∈ h /\ TraceID_ sp = id) (wspans x).
Proof. intros [_ _ Hl]%history_only Hx. rewrite Forall_forall in Hl. by apply Hl. Qed.

(** One failed trace, flushed and written. *)
Definition failing_in : list Span := [traced x02 x02 x00 StatusError].
Definition failing_accepted : Sampler := (Accept example_sampler 0 failing_in).1.

Definition failing_written : option (Sampler * pending * Verdict * list pending) :=
  let '(s, ready) := take_ready due_flush [vreplicate 16 x02] failing_accepted in
  match ready with
  | [] => None
  | p :: l => '(s, v) ← decide_verdict s 0 p; Some (s, p, v, l)
  end.

Lemma failing_history s p v l : failing_written = Some (s, p, v, l) -> Keep v = true ->
  history example_config failing_in (MkWorld s (Settling Flushing p v false l) [MkWrite false (pspans p) false]).
Proof.
  intros E Hk. unfold failing_written in E.
  assert (map_keys (pendings failing_accepted) [vreplicate 16 x02]) as Hkeys.
  { unfold map_keys. vm_decide. }
  destruct (take_ready due_flush [vreplicate 16 x02] failing_accepted) as [s1 [|p1 l1]] eqn:Et; [discriminate E|].
  destruct (decide_verdict s1 0 p1) as [[s2 v2]|] eqn:Ev; [|discriminate E]. injection E as -> -> -> ->.
  assert (history example_config failing_in (MkWorld failing_accepted Idle [])) as H0.
  { assert (match (Accept example_sampler 0 failing_in).2 with None => failing_in | Some _ => [] end = failing_in) as Ea
      by (vm_compute; reflexivity).
    rewrite <-Ea. apply (hist_accept example_config [] example_sampler Idle [] 0 failing_in).
    apply hist_initial. by constructor. }
  eapply hist_sweep; [eapply hist_sweep; [eapply hist_sweep; [exact H0|]|]|].
  - by eapply step_flush.
  - by eapply step_decide.
  - by apply (step_write _ [] _ _ _ _ false).
Qed.

Example writes_only_accepted_witness :
  exists p id, pspans p = failing_in /\ Forall (fun sp => sp ∈ failing_in /\ TraceID_ sp = id) (pspans p).
Proof.
  assert (match failing_written with Some (_, p, v, _) => (Keep v, pspans p) | None => (false, []) end = (true, failing_in)) as E
    by (vm_compute; reflexivity).
  destruct failing_written as [[[[s p] v] l]|] eqn:Es; [|discriminate E].
  apply pair_equal_spec in E as [Hk Hp].
  destruct (writes_only_accepted _ _ _ (MkWrite false (pspans p) false) (failing_history s p v l Es Hk)) as [id H]; [left|].
  exists p, id. split; [exact Hp|exact H].
Defined.
