(* ===== verification/SamplerLedger.v ===== *)
(** * The ledger of the sampler's spans

    The counters of the sampler say how many spans it accepted, kept, dropped
    and lost; here the spans themselves are followed.  At every moment the
    accepted spans are, as a multiset, those that wait, those in the hands of
    the sweep, those of the writes so far and those that were dropped by a
    verdict. *)

From S2P Require Import Prelude GoTime GoFloat Ident Value Span.
From S2P Require Import Assembly Forest AssemblySpec BuildProps Policy Sampler SamplerSpec SamplerProps SamplerFlow.

(** ** The ledger *)

(** The lists of a map's entries, one after the other. *)
Definition spread {A} (g : A -> list Span) (m : gmap TraceID A) : list Span :=
  map_to_list m ≫= (fun x => g x.2).

(** What the sampler holds. *)
Definition holding (s : Sampler) : list Span :=
  spread pspans (pendings s) ++ spread (fun l => l) (judging s) ++ spread (fun l => l) (late s).

(** What the sweep has taken, and neither written nor dropped. *)
Definition in_hand (pc : PC) : list Span :=
  match pc with
  | Judging _ l | Settling _ _ _ _ l => l ≫= pspans
  | Writing _ p _ l => pspans p ++ (l ≫= pspans)
  | LateWriting m ids | LateLosing m _ ids => ids ≫= late_at m
  | _ => []
  end.

Definition ledger (w : world) : list Span := holding (smp w) ++ in_hand (pc w) ++ (log w ≫= wspans).

(** The spans of an accepted batch that come after their trace was dropped. *)
Definition dropped_late (s : Sampler) (now : Time) (spans : list Span) : list Span :=
  filter (fun sp => verdict s (TraceID_ sp) now = (false, true)) spans.

(** The spans the next piece of the sweep drops: a trace whose verdict is to
    drop it, and what came for it while it was being judged. *)
Definition drops (w : world) : list Span :=
  match pc w with
  | Writing _ p v _ => if Keep v then [] else pspans p
  | Settling _ p v _ _ => if Keep v then [] else late_at (judging (smp w)) (pid p)
  | _ => []
  end.

(** The worlds a sampler reaches, with the spans it accepted and those it
    dropped. *)
Inductive flow (c : Config) : list Span -> list Span -> world -> Prop :=
| flow_initial w : initial c w -> flow c [] [] w
| flow_refused h d s pc lg now spans :
    flow c h d (MkWorld s pc lg) -> (Accept s now spans).2 <> None ->
    flow c h d (MkWorld (Accept s now spans).1 pc lg)
| flow_accepted h d s pc lg now spans :
    flow c h d (MkWorld s pc lg) -> (Accept s now spans).2 = None ->
    flow c (h ++ spans) (d ++ dropped_late s now spans) (MkWorld (Accept s now spans).1 pc lg)
| flow_sweep h d w w' : flow c h d w -> sweep_step w w' -> flow c h (d ++ drops w) w'.

Lemma flow_history c h d w : flow c h d w -> history c h w.
Proof.
  induction 1 as [w H0|h d s pc lg now spans _ IH He|h d s pc lg now spans _ IH He|h d w w' _ IH Hst].
  - by constructor.
  - apply (hist_accept _ _ _ _ _ now spans) in IH. destruct ((Accept s now spans).2); [|done]. by rewrite app_nil_r in IH.
  - apply (hist_accept _ _ _ _ _ now spans) in IH. by rewrite He in IH.
  - by eapply hist_sweep.
Qed.

Lemma flow_inv c h d w : flow c h d w -> inv c w.
Proof.
  induction 1 as [w H0|h d s pc lg now spans _ IH He|h d s pc lg now spans _ IH He|h d w w' _ IH Hst].
  - by apply inv_initial.
  - by apply inv_accept.
  - by apply inv_accept.
  - by eapply inv_sweep_step.
Qed.

(** ** Weighing spans *)

Section weigh.
Context (f : Span -> Z).

Definition weigh (l : list Span) : Z := foldr (fun sp n => f sp + n) 0 l.

Lemma weigh_app l1 l2 : weigh (l1 ++ l2) = weigh l1 + weigh l2.
Proof. induction l1 as [|sp l1 IH]; simpl; lia. Qed.

Lemma weigh_perm l1 l2 : l1 ≡ₚ l2 -> weigh l1 = weigh l2.
Proof. induction 1; simpl; lia. Qed.

Lemma weigh_bind {A} (g : A -> list Span) l : weigh (l ≫= g) = foldr (fun x n => weigh (g x) + n) 0 l.
Proof. induction l as [|x l IH]; [done|]. cbn [mbind list_bind foldr]. by rewrite weigh_app, <-IH. Qed.

Lemma weigh_spread {A} (g : A -> list Span) m : weigh (spread g m) = msum (fun x => weigh (g x)) m.
Proof.
  unfold spread, msum. rewrite weigh_bind, map_fold_foldr. induction (map_to_list m) as [|[i x] l IH]; simpl; [done|]. by rewrite IH.
Qed.

Definition weight (s : Sampler) : Z :=
  msum (fun p => weigh (pspans p)) (pendings s) + msum weigh (judging s) + msum weigh (late s).

Lemma weigh_holding s : weigh (holding s) = weight s.
Proof. unfold holding, weight. rewrite !weigh_app, !weigh_spread. apply Z.add_assoc. Qed.

Lemma weight_stats g s : weight (set_stats g s) = weight s.
Proof. done. Qed.

(** *** Accept *)

Lemma accept_one_weighs now s sp :
  weight (accept_one now s sp) + weigh (dropped_late s now [sp]) = weight s + f sp.
Proof.
  unfold accept_one, dropped_late, weight. rewrite filter_cons, filter_nil.
  destruct (judging s !! TraceID_ sp) as [w|] eqn:Ej.
  - rewrite decide_False by (rewrite (judging_undecided s _ now); [done|by eexists]).
    simpl. rewrite (msum_update weigh _ _ _ _ Ej), weigh_app. simpl. lia.
  - destruct (verdict_cases s (TraceID_ sp) now) as [E|[E|E]]; rewrite E.
    + rewrite decide_False by done. simpl. rewrite (msum_append weigh _ _ _ eq_refl weigh_app). simpl. lia.
    + rewrite decide_True by done. simpl. lia.
    + rewrite decide_False by done. simpl. destruct (pendings s !! TraceID_ sp) as [p|] eqn:Ep; simpl.
      * rewrite (msum_update _ _ _ _ _ Ep). simpl. rewrite weigh_app. simpl. lia.
      * rewrite msum_insert by done. simpl. lia.
Qed.

Lemma dropped_late_ext s s' now spans :
  (forall id, verdict s' id now = verdict s id now) -> dropped_late s' now spans = dropped_late s now spans.
Proof. intros Hv. apply list_filter_iff. intros sp. by rewrite Hv. Qed.

Lemma accept_fold_weighs now spans : forall s,
  weight (foldl (accept_one now) s spans) + weigh (dropped_late s now spans) = weight s + weigh spans.
Proof.
  induction spans as [|sp spans IH]; intros s; [simpl; lia|]. cbn [foldl].
  pose proof (accept_one_weighs now s sp) as H1. specialize (IH (accept_one now s sp)).
  rewrite (dropped_late_ext s (accept_one now s sp)) in IH by (intros; apply accept_one_verdict).
  assert (dropped_late s now (sp :: spans) = dropped_late s now [sp] ++ dropped_late s now spans) as ->.
  { unfold dropped_late. rewrite <-filter_app. done. }
  rewrite weigh_app. simpl. lia.
Qed.

Lemma Accept_weighs s now spans : (Accept s now spans).2 = None ->
  weight (Accept s now spans).1 + weigh (dropped_late s now spans) = weight s + weigh spans.
Proof.
  unfold Accept. destruct (_ <? _); [done|]. destruct (_ <? _); [done|]. intros _. simpl. apply accept_fold_weighs.
Qed.

Lemma refused_weighs s now spans : (Accept s now spans).2 <> None -> weight (Accept s now spans).1 = weight s.
Proof. unfold Accept. destruct (_ <? _); [done|]. by destruct (_ <? _). Qed.

(** *** Taking, settling, and the late spans *)

Lemma take_one_weighs due s0 fl seen st id :
  taking due s0 fl seen st ->
  weight (take_one due st id).1 + weigh ((take_one due st id).2 ≫= pspans) = weight st.1 + weigh (st.2 ≫= pspans).
Proof.
  intros T. pose proof (wf_disjoint _ _ _ (tk_wf _ _ _ _ _ T)) as Hd. destruct st as [s ready]; simpl in *.
  unfold take_one. destruct (pendings s !! id) as [p|] eqn:Ep; [|done]. destruct (due p (stats s)) as [[] t]; simpl.
  - rewrite bind_app, weigh_app. simpl. rewrite app_nil_r. unfold weight; simpl.
    rewrite (msum_delete _ _ _ _ Ep), msum_insert by (apply Hd; by eexists). simpl. lia.
  - by rewrite weight_stats.
Qed.

Lemma take_fold_weighs due s0 fl ids : good_due due -> forall seen st,
  NoDup (seen ++ ids) -> taking due s0 fl seen st ->
  weight (foldl (take_one due) st ids).1 + weigh ((foldl (take_one due) st ids).2 ≫= pspans) =
    weight st.1 + weigh (st.2 ≫= pspans).
Proof.
  intros Hdue. induction ids as [|id ids IH]; intros seen st Hnd T; [done|]. cbn [foldl].
  rewrite (cons_middle id seen ids), app_assoc in Hnd. rewrite (IH (seen ++ [id])); [by eapply take_one_weighs|done|].
  apply take_one_taking; [done..|]. apply NoDup_app in Hnd as (Hnd & _ & _). by apply NoDup_snoc in Hnd as [_ ?].
Qed.

Lemma take_ready_weighs due s ord fl s' ready :
  good_due due -> wf (cfg s) s fl -> map_keys (pendings s) ord -> take_ready due ord s = (s', ready) ->
  weight s' + weigh (ready ≫= pspans) = weight s.
Proof.
  intros Hdue W Hord. unfold take_ready.
  assert (NoDup ord) as Hnd by (rewrite Hord; apply NoDup_elements).
  pose proof (take_fold_weighs due s fl ord Hdue [] (s, []) Hnd (taking_start due s fl W)) as H.
  destruct (foldl (take_one due) (s, []) ord) as [s1 l]. intros [= <- <-]. simpl in H.
  rewrite (weigh_perm _ (l ≫= pspans)) by (by rewrite sort_func_perm). lia.
Qed.

Lemma settle_waiting_weighs s id keep : is_Some (judging s !! id) ->
  weight (settle_waiting s id keep) + weigh (if keep then [] else late_at (judging s) id) = weight s.
Proof.
  intros [w Hw]. unfold settle_waiting, weight, late_at. rewrite Hw. cbn [default].
  rewrite (msum_delete weigh _ _ _ Hw). case_bool_decide as Hz.
  - destruct w; [|done]. simpl. by destruct keep; simpl; lia.
  - destruct keep; simpl; [|lia]. rewrite (msum_append weigh _ _ _ eq_refl weigh_app). lia.
Qed.

Lemma finish_weighs c s now p v failed ready s' :
  good_config c -> wf c s (p :: ready) -> finish_decide s now p v failed = Some s' ->
  weight s' + weigh (if Keep v then [] else late_at (judging s) (pid p)) = weight s.
Proof.
  intros Hc W. destruct (settle_total c s now p ready (Keep v) Hc W) as (d & o & E & _).
  unfold finish_decide. rewrite E. cbn [mbind option_bind]. intros [= <-]. rewrite !weight_stats.
  apply (settle_waiting_weighs s (pid p) (Keep v)). apply (wf_judging _ _ _ W). by left.
Qed.

(** ** Nothing appears, nothing disappears *)

Lemma sweep_step_weighs c w w' : inv c w -> sweep_step w w' -> weigh (ledger w') + weigh (drops w) = weigh (ledger w).
Proof.
  intros (Hc & W & _ & _) Hst. unfold ledger, drops. rewrite !weigh_app, !weigh_holding. pose proof (wf_cfg _ _ _ W) as Hcfg.
  sweep_cases Hst; cbn [smp pc log in_hand flight] in *;
    rewrite ?Hk, ?bind_app, ?weigh_app; cbn [mbind list_bind wspans]; rewrite ?app_nil_r, ?weigh_app; change (weigh []) with 0.
  - rewrite <-Hcfg in W. pose proof (take_ready_weighs _ s ord [] s' ready (due_sweep_good _ _) W Hord E). lia.
  - rewrite <-Hcfg in W. pose proof (take_ready_weighs _ s ord [] s' ready due_flush_good W Hord E). lia.
  - apply decide_verdict_buckets in E as [b ->]. change (weight (set_buckets b s)) with (weight s). lia.
  - lia.
  - lia.
  - pose proof (finish_weighs c s now p v failed ready s' Hc W E). lia.
  - lia.
  - lia.
  - destruct (forget_counts s now) as (_ & E1 & E2 & E3 & _). unfold weight. rewrite E1, E2, E3. lia.
  - unfold take_late in E. injection E as <- <-. destruct (late_ids_spec (late s)) as [Hnd Hids].
    rewrite weigh_bind, (msum_keys weigh (late s) _ Hnd Hids). unfold weight; simpl. rewrite msum_empty. lia.
  - lia.
  - lia.
  - rewrite weight_stats. lia.
  - lia.
Qed.

Lemma flow_weighs c h d w : flow c h d w -> weigh h = weigh (ledger w ++ d).
Proof.
  induction 1 as [w H0|h d s pc lg now spans _ IH He|h d s pc lg now spans _ IH He|h d w w' Hfl IH Hst];
    rewrite ?weigh_app in *.
  - destruct H0 as [s E]. destruct (New_good c s E) as [_ ->]. done.
  - unfold ledger in *. rewrite !weigh_app, !weigh_holding in *. cbn [smp] in *. by rewrite (refused_weighs s now spans He).
  - unfold ledger in *. rewrite !weigh_app, !weigh_holding in *. cbn [smp SamplerSpec.pc log] in *.
    pose proof (Accept_weighs s now spans He). lia.
  - pose proof (sweep_step_weighs c w w' (flow_inv _ _ _ _ Hfl) Hst). lia.
Qed.
End weigh.

(** Lists that weigh the same whatever the weights are permutations. *)
Lemma weigh_ext l1 l2 : (forall f, weigh f l1 = weigh f l2) -> l1 ≡ₚ l2.
Proof.
  intros Hw. apply (proj2 (Permutation_count_occ span_eq_dec l1 l2)). intros sp.
  assert (forall l, weigh (fun x => if decide (x = sp) then 1 else 0) l = Z.of_nat (count_occ span_eq_dec l sp)) as Hc.
  { induction l as [|x l IH]; [done|]. simpl. rewrite IH. case_decide; destruct (span_eq_dec x sp); try done; lia. }
  specialize (Hw (fun x => if decide (x = sp) then 1 else 0)). rewrite !Hc in Hw. lia.
Qed.

(** C9: no span appears and none disappears: in every interleaving, whatever
    the clock says and whichever writes fail, the accepted spans are exactly
    those the sampler holds, those the sweep has in hand, those of the writes so
    far and those dropped with their trace, each as often as it was
    accepted. *)
Theorem spans_conserved (c : Config) (h d : list Span) (w : world) :
  flow c h d w -> h ≡ₚ ledger w ++ d.
Proof. intros Hf. apply weigh_ext. intros f. by eapply flow_weighs. Qed.

(** A sampler with nothing left to do has written or dropped all it accepted. *)
Lemma flow_at_rest c h d s lg :
  flow c h d (MkWorld s Idle lg) -> pendings s = ∅ -> late s = ∅ -> h ≡ₚ (lg ≫= wspans) ++ d.
Proof.
  intros Hf Hp Hl. pose proof (flow_inv _ _ _ _ Hf) as (_ & W & _ & _). apply judging_idle in W as Hj.
  assert (h ≡ₚ ledger (MkWorld s Idle lg) ++ d) as -> by (apply weigh_ext; intros f; by eapply flow_weighs).
  unfold ledger, holding; simpl in *. by rewrite Hp, Hj, Hl.
Qed.

(** Everything that is accepted later is added to what was accepted. *)
Lemma flow_step c h d w w' : flow c h d w -> step w w' -> exists h' d', flow c h' d' w' /\ h ⊆ h'.
Proof.
  intros Hf Hst. destruct Hst as [s pc lg now spans|w w' Hst].
  - destruct ((Accept s now spans).2) as [e|] eqn:E.
    + exists h, d. split; [|done]. apply flow_refused; [done|by rewrite E].
    + eexists _, _. split; [by apply flow_accepted|set_solver].
  - eexists _, _. split; [by eapply flow_sweep|done].
Qed.

(** ** Settings that keep everything *)

(** Whatever is judged is kept. *)
Definition keeps_all (c : Config) : Prop := forall s now p s' v,
  cfg s = c -> good_pending p -> decide_verdict s now p = Some (s', v) -> Keep v = true.

(** Every verdict reached was to keep. *)
Record keeping (w : world) : Prop := {
  kp_decided : forall id v, decided (smp w) !! id = Some v -> keep v = true;
  kp_pc : match pc w with Writing _ _ v _ | Settling _ _ v _ _ => Keep v = true | _ => True end;
}.

Lemma keeping_sub w w' : keeping w -> decided (smp w') ⊆ decided (smp w) ->
  match pc w' with Writing _ _ v _ | Settling _ _ v _ _ => Keep v = true | _ => True end -> keeping w'.
Proof. intros [H _] Hsub Hpc. split; [|done]. intros id v Hv. apply (H id). by eapply lookup_weaken. Qed.

Lemma take_ready_decided due ord s s' ready : take_ready due ord s = (s', ready) -> decided s' = decided s.
Proof.
  unfold take_ready. assert (forall st, decided (foldl (take_one due) st ord).1 = decided st.1) as Hf.
  { induction ord as [|id ord IH]; intros [s0 l]; [done|]. cbn [foldl]. rewrite IH. unfold take_one.
    destruct (pendings s0 !! id) as [p|]; [|done]. by destruct (due p (stats s0)) as [[] t]. }
  specialize (Hf (s, [])). destruct (foldl _ _ _) as [s1 l]. by intros [= <- <-].
Qed.

Lemma trim_sub max o : forall d d' o', trim max d o = Some (d', o') -> d' ⊆ d.
Proof.
  induction o as [|e o IH]; intros d d' o'; cbn [trim]; destruct (_ <=? _); try done; try by intros [= <- _].
  intros H%IH. etrans; [exact H|apply forgetOldest_sub].
Qed.

Lemma finish_decided s now p v failed s' : finish_decide s now p v failed = Some s' ->
  decided s' ⊆ <[pid p := MkDecision (Keep v) now]> (decided s) \/ decided s' = decided s.
Proof.
  unfold finish_decide. rewrite settle_unfold. cbv zeta.
  assert (decided (settle_waiting s (pid p) (Keep v)) = decided s) as Hd
    by (unfold settle_waiting; case_bool_decide; [done|by destruct (Keep v)]).
  destruct (_ <=? 0); cbn [mbind option_bind]; [intros [= <-]; by right|].
  destruct (trim _ _ _) as [[d o]|] eqn:E; [|done]. cbn [mbind option_bind]. intros [= <-].
  left. apply trim_sub in E. rewrite Hd in E. exact E.
Qed.

Lemma keeping_sweep_step c w w' : keeps_all c -> inv c w -> keeping w -> sweep_step w w' -> keeping w'.
Proof.
  intros Hall (Hc & W & _ & _) Hkp Hst. pose proof (wf_cfg _ _ _ W) as Hcfg.
  sweep_cases Hst; cbn [smp pc] in *;
    try (by apply (keeping_sub _ _ Hkp)).
  - apply (keeping_sub _ _ Hkp); [|done]. cbn [smp]. by rewrite (take_ready_decided _ _ _ _ _ E).
  - apply (keeping_sub _ _ Hkp); [|done]. cbn [smp]. by rewrite (take_ready_decided _ _ _ _ _ E).
  - assert (Keep v = true) as Hv.
    { eapply Hall; [exact Hcfg| |exact E]. pose proof (wf_flight _ _ _ W) as H. by apply Forall_cons in H as [? _]. }
    apply decide_verdict_buckets in E as [b ->]. by apply (keeping_sub _ _ Hkp).
  - destruct Hkp as [_ Hkp]. simpl in Hkp. congruence.
  - destruct Hkp as [Hd Hkv]. cbn [smp pc] in *. split; [|done]. intros id x Hx. cbn [smp] in Hx.
    destruct (finish_decided _ _ _ _ _ _ E) as [Hsub|Heq]; [|rewrite Heq in Hx; by apply (Hd id)].
    apply (lookup_weaken _ _ _ _ Hx) in Hsub. apply lookup_insert_Some in Hsub as [[_ <-]|[_ Hx']]; [done|by apply (Hd id)].
  - apply (keeping_sub _ _ Hkp); [|done]. cbn [smp]. unfold forget.
    pose proof (expire_spec now (Remember (cfg s)) (order s) (decided s) (wf_decided _ _ _ W)) as He.
    destruct (expire _ _ _ _) as [d o]. by destruct He.
  - unfold take_late in E. injection E as <- <-. by apply (keeping_sub _ _ Hkp).
Qed.

Lemma accept_decided s now spans : decided (Accept s now spans).1 = decided s.
Proof.
  unfold Accept. destruct (_ <? _); [done|]. destruct (_ <? _); [done|].
  pose proof (accept_fold now spans s) as Hf. cbv zeta in Hf. by destruct Hf as (_ & _ & _ & _ & _ & _ & _ & _ & _ & _ & E & _).
Qed.

Lemma keeping_drops_none w : keeping w -> drops w = [].
Proof. intros [_ Hpc]. unfold drops. destruct (pc w); try done; by rewrite Hpc. Qed.

Lemma keeping_late_none s pc lg now spans : keeping (MkWorld s pc lg) -> dropped_late s now spans = [].
Proof.
  intros [Hd _]. unfold dropped_late. induction spans as [|sp spans IH]; [done|]. rewrite filter_cons, decide_False; [done|].
  unfold verdict. simpl in Hd. destruct (judging s !! _); [done|]. destruct (decided s !! TraceID_ sp) as [x|] eqn:E; [|done].
  rewrite (Hd _ _ E). by destruct (_ <=? _).
Qed.

(** Settings that keep everything drop nothing. *)
Lemma flow_keeps_all c h d w : keeps_all c -> flow c h d w -> d = [] /\ keeping w.
Proof.
  intros Hall. induction 1 as [w H0|h d s pc lg now spans _ [-> Hk] He|h d s pc lg now spans _ [-> Hk] He|h d w w' Hf [-> Hk] Hst].
  - split; [done|]. destruct H0 as [s E]. destruct (New_good c s E) as [_ ->]. split; [|done].
    intros id v Hv. simpl in Hv. by rewrite lookup_empty in Hv.
  - split; [done|]. apply (keeping_sub _ _ Hk); [|apply Hk]. cbn [smp]. by rewrite accept_decided.
  - split; [by rewrite (keeping_late_none s pc lg)|]. apply (keeping_sub _ _ Hk); [|apply Hk]. cbn [smp]. by rewrite accept_decided.
  - split; [by rewrite keeping_drops_none|]. by eapply keeping_sweep_step; [|eapply flow_inv| |].
Qed.

(** ** A ledger to evaluate *)

Lemma settling_flow s p v l : settling = Some (s, p, v, l) -> Keep v = false ->
  flow example_config example_in (pspans p) (MkWorld s (Settling (Sweeping (10 * Second)) p v false l) []).
Proof.
  intros E Hk. unfold settling in E.
  destruct (take_ready (due_sweep example_config (10 * Second)) example_order example_accepted) as [s1 [|p1 l1]] eqn:Et;
    [discriminate E|].
  destruct (decide_verdict s1 0 p1) as [[s2 v2]|] eqn:Ev; [|discriminate E]. injection E as -> -> -> ->.
  assert (flow example_config example_in [] (MkWorld example_accepted Idle [])) as F0.
  { assert (dropped_late example_sampler 0 example_in = []) as Ed by (vm_compute; reflexivity).
    pose proof (flow_accepted example_config [] [] example_sampler Idle [] 0 example_in) as F. rewrite Ed in F.
    apply F; [|vm_compute; reflexivity]. apply flow_initial. by constructor. }
  pose proof (flow_sweep _ _ _ _ _ F0 (step_sweep _ _ _ _ _ _ example_keys Et)) as F1.
  pose proof (flow_sweep _ _ _ _ _ F1 (step_decide _ _ _ _ _ _ _ _ Ev)) as F2.
  pose proof (flow_sweep _ _ _ _ _ F2 (step_no_write _ _ _ _ _ _ Hk)) as F3.
  unfold drops in F3. cbn [pc app] in F3. by rewrite Hk in F3.
Qed.

(** Three spans were accepted; the two of the first trace are dropped, the
    third is in hand. *)
Example spans_conserved_witness :
  exists s p l, settling = Some (s, p, unclaimed, l) /\ example_in ≡ₚ (holding s ++ (l ≫= pspans) ++ []) ++ pspans p /\
    length (pspans p) = 2%nat.
Proof.
  assert (match settling with Some (_, p, v, _) => (v, length (pspans p)) | None => (unclaimed, 0%nat) end = (unclaimed, 2%nat)) as E
    by (vm_compute; reflexivity).
  destruct settling as [[[[s p] v] l]|] eqn:Es; [|discriminate E]. apply pair_equal_spec in E as [-> Hlen].
  exists s, p, l. split; [reflexivity|]. split; [|exact Hlen].
  exact (spans_conserved _ _ _ _ (settling_flow _ _ _ _ Es eq_refl)).
Defined.
