(* ===== verification/SamplerRun.v ===== *)
(** * The sampler's methods as runs of its interleaving

    [Sweep] and [Flush], run to their end, are paths of the interleaving of
    locked pieces, so what holds of the interleaving holds of them; a flush
    leaves nothing behind.  The lemmas follow the environment along: what the
    writer keeps, the methods keep. *)

From S2P Require Import Prelude GoTime GoFloat Ident Value Span.
From S2P Require Import Assembly Forest AssemblySpec BuildProps Policy Sampler SamplerSpec SamplerProps SamplerFlow.

(** ** [Sweep] and [Flush] are paths of the interleaving *)

Lemma inv_path c w w' : inv c w -> rtc sweep_step w w' -> inv c w'.
Proof. intros Hi Hp. induction Hp as [|w w1 w2 Hs _ IH]; [done|]. by apply IH, (inv_sweep_step _ _ _ Hi Hs). Qed.

(** A flush begins by taking every trace that waits. *)
Lemma flush_takes_all c s lg ord s1 ready :
  inv c (MkWorld s Idle lg) -> map_keys (pendings s) ord -> take_ready due_flush ord s = (s1, ready) -> pendings s1 = ∅.
Proof.
  intros (_ & W & _ & _) Hord Et. simpl in W. rewrite <-(wf_cfg _ _ _ W) in W.
  destruct (take_ready_spec _ s ord [] s1 ready due_flush_good W Hord Et) as (l & _ & T).
  destruct T as [_ _ T3 _ _ _ _ _ _ T10 _]. simpl in *.
  apply map_empty. intros id. destruct (pendings s1 !! id) as [p|] eqn:Ep; [|done]. exfalso.
  destruct (decide (id ∈ ord)) as [Hin|Hin].
  - destruct (T10 id p Hin Ep) as (_ & t & [=]).
  - apply Hin. rewrite (Hord : ord ≡ₚ _). apply elem_of_elements, elem_of_dom.
    rewrite <-(T3 id Hin). by eexists.
Qed.

(** The path keeps any relation [Rel] between the environment and the log of
    writes that the writer keeps on spans that satisfy [P]. *)
Section paths.
Context {E : Type} (Now : E -> Time * E) (Write : E -> list Span -> bool * E) (c : Config).
Context (Hsafe : Forall SafePolicy (Policies c)).
Context (P : TraceID -> Span -> Prop) (Rel : E -> list write -> Prop).
Context (Hnow : forall e lg, Rel e lg -> Rel (Now e).2 lg).
Context (Hwrite : forall e lg late id spans, Rel e lg -> Forall (P id) spans ->
  let '(failed, e') := Write e spans in Rel e' (lg ++ [MkWrite late spans failed])).

Lemma only_path w w' : only P w -> rtc sweep_step w w' -> only P w'.
Proof. intros Ho Hp. induction Hp as [|w w1 w2 Hs _ IH]; [done|]. by apply IH, (sweep_step_only _ _ _ Ho Hs). Qed.

Lemma decide_path s e k p ready lg :
  inv c (MkWorld s (Judging k (p :: ready)) lg) -> only P (MkWorld s (Judging k (p :: ready)) lg) -> Rel e lg ->
  exists s' e' f lg', decide_ Now Write s e p = Some (s', e', f) /\ pendings s' = pendings s /\ Rel e' lg' /\
    rtc sweep_step (MkWorld s (Judging k (p :: ready)) lg) (MkWorld s' (Judging k ready) lg').
Proof.
  intros Hi [_ [Ho _] _] Hrel. simpl in Ho. apply Forall_cons in Ho as [Hp _].
  pose proof Hi as (Hc & W & _ & _). simpl in W. pose proof (wf_cfg _ _ _ W) as Hcfg.
  unfold decide_. apply Hnow in Hrel. destruct (Now e) as [now e1]. simpl in Hrel.
  destruct (decide_verdict_total s now p) as (b & v & Ev).
  { by rewrite Hcfg. }
  { pose proof (wf_flight _ _ _ W) as H. by apply Forall_cons in H as [? _]. }
  rewrite Ev. cbn [mbind option_bind].
  pose proof (step_decide s lg k p ready now _ _ Ev) as S1.
  destruct (if Keep v then Write e1 (pspans p) else (false, e1)) as [f e2] eqn:Ew.
  assert (exists lg', sweep_step (MkWorld (set_buckets b s) (Writing k p v ready) lg)
                                 (MkWorld (set_buckets b s) (Settling k p v f ready) lg') /\ Rel e2 lg') 
      as (lg' & S2 & Hrel2).
  { pose proof (Hwrite e1 lg false (pid p) (pspans p) Hrel Hp) as Hw. destruct (Keep v) eqn:Ek.
    - rewrite Ew in Hw. eexists. split; [by constructor|exact Hw].
    - injection Ew as <- <-. eexists. split; [by constructor|done]. }
  apply Hnow in Hrel2. destruct (Now e2) as [now' e3]. simpl in Hrel2.
  destruct (settle_total c (set_buckets b s) now' p ready (Keep v) Hc (wf_buckets _ _ _ b W)) as (d & o & Es & _).
  destruct (finish_decide (set_buckets b s) now' p v f) as [s'|] eqn:Ef.
  2:{ unfold finish_decide in Ef. by rewrite Es in Ef. }
  exists s', e3, f, lg'. split_and!; [done| |done|].
  - unfold finish_decide in Ef. rewrite Es in Ef. cbn [mbind option_bind] in Ef. injection Ef as <-.
    simpl. unfold settle_waiting. case_bool_decide; [done|]. by destruct (Keep v).
  - eapply rtc_l; [exact S1|]. eapply rtc_l; [exact S2|]. apply rtc_once. by apply (step_settle _ _ _ _ _ _ _ now').
Qed.

Lemma decide_all_path k ready : forall s e lg,
  inv c (MkWorld s (Judging k ready) lg) -> only P (MkWorld s (Judging k ready) lg) -> Rel e lg ->
  exists s' e' f lg', decide_all Now Write s e ready = Some (s', e', f) /\ pendings s' = pendings s /\ Rel e' lg' /\
    rtc sweep_step (MkWorld s (Judging k ready) lg) (MkWorld s' (Judging k []) lg').
Proof.
  induction ready as [|p ready IH]; intros s e lg Hi Ho Hr; simpl; [by do 4 eexists|].
  destruct (decide_path s e k p ready lg Hi Ho Hr) as (s1 & e1 & f1 & lg1 & -> & Hp1 & Hr1 & P1). cbn [mbind option_bind].
  destruct (IH s1 e1 lg1 (inv_path _ _ _ Hi P1) (only_path _ _ Ho P1) Hr1) as (s2 & e2 & f2 & lg2 & -> & Hp2 & Hr2 & P2).
  cbn [mbind option_bind]. do 4 eexists. split_and!; [done|congruence|done|by etrans].
Qed.

Lemma judge_path k due ord s e lg s1 ready :
  inv c (MkWorld s1 (Judging k ready) lg) -> only P (MkWorld s1 (Judging k ready) lg) -> Rel e lg ->
  take_ready due ord s = (s1, ready) ->
  exists s' e' f lg', judge Now Write due ord s e = Some (s', e', f) /\ pendings s' = pendings s1 /\ Rel e' lg' /\
    rtc sweep_step (MkWorld s1 (Judging k ready) lg) (MkWorld s' (Judging k []) lg').
Proof. intros Hi Ho Hr Et. unfold judge. rewrite Et. by apply decide_all_path. Qed.

Lemma write_all_path m ids : only_map P m -> forall s e lg, Rel e lg ->
  let '(s', e', f) := write_all Write m ids s e in
  (exists g, s' = set_stats g s) /\
  exists lg', Rel e' lg' /\ rtc sweep_step (MkWorld s (LateWriting m ids) lg) (MkWorld s' (LateWriting m []) lg').
Proof.
  intros Hm. induction ids as [|id ids IH]; intros s e lg Hr; cbn [write_all].
  { split; [exists (fun t => t); by destruct s|by eexists]. }
  pose proof (Hwrite e lg true id (late_at m id) Hr (only_late_at _ _ _ Hm)) as Hw. unfold late_at in Hw.
  destruct (Write e (default [] (m !! id))) as [[] e1]; cbv beta iota.
  - specialize (IH (set_stats (addLost (zlen (late_at m id))) s) e1 (lg ++ [MkWrite true (late_at m id) true]) Hw).
    unfold late_at in *. destruct (write_all _ _ _ _ _) as [[s2 e2] f2]. destruct IH as [[g ->] (lg' & Hr' & Hp)].
    split; [by eexists (fun t => g _)|]. exists lg'. split; [done|].
    eapply rtc_l; [apply step_late_failed|]. eapply rtc_l; [apply step_lose|]. exact Hp.
  - specialize (IH s e1 (lg ++ [MkWrite true (late_at m id) false]) Hw).
    unfold late_at in *. destruct (write_all _ _ _ _ _) as [[s2 e2] f2]. destruct IH as [[g ->] (lg' & Hr' & Hp)].
    split; [by eexists|]. exists lg'. split; [done|]. eapply rtc_l; [apply step_late_ok|]. exact Hp.
Qed.

Lemma writeLate_path s e lg : only_map P (late s) -> Rel e lg ->
  let '(s', e', f) := writeLate Write s e in
  pendings s' = pendings s /\ late s' = ∅ /\
  exists lg', Rel e' lg' /\ rtc sweep_step (MkWorld s LateTaking lg) (MkWorld s' Idle lg').
Proof.
  intros Ho Hr. unfold writeLate. destruct (take_late s) as [s1 m] eqn:Et.
  pose proof (step_take_late s lg s1 m Et) as S1. unfold take_late in Et. injection Et as <- <-.
  pose proof (write_all_path (late s) (late_ids (late s)) Ho
                (set_stats (addBuffered (- msize (late s))) (set_late ∅ s)) e lg Hr) as H.
  destruct (write_all Write _ _ _ e) as [[s2 e2] f]. destruct H as [[g ->] (lg' & Hr' & Hp)].
  split_and!; [done..|]. exists lg'. split; [done|]. eapply rtc_l; [exact S1|]. eapply rtc_r; [exact Hp|]. apply step_swept.
Qed.

Lemma Sweep_path ord s e lg :
  inv c (MkWorld s Idle lg) -> only P (MkWorld s Idle lg) -> Rel e lg -> map_keys (pendings s) ord ->
  exists s' e' f lg', Sweep Now Write ord s e = Some (s', e', f) /\ Rel e' lg' /\
    rtc sweep_step (MkWorld s Idle lg) (MkWorld s' Idle lg').
Proof.
  intros Hi Ho Hr Hord. unfold Sweep. apply Hnow in Hr. destruct (Now e) as [now e1]. simpl in Hr.
  destruct (take_ready (due_sweep (cfg s) now) ord s) as [s1 ready] eqn:Et.
  pose proof (step_sweep s lg now ord s1 ready Hord Et) as S1. pose proof (inv_sweep_step _ _ _ Hi S1) as Hi1.
  pose proof (sweep_step_only _ _ _ Ho S1) as Ho1.
  destruct (judge_path (Sweeping now) _ ord s e1 lg s1 ready Hi1 Ho1 Hr Et) as (s2 & e2 & f2 & lg2 & -> & _ & Hr2 & P2).
  cbn [mbind option_bind]. destruct (only_path _ _ Ho1 P2) as [Ho2 _ _].
  assert (only_map P (late (forget s2 now))) as Hl
    by (destruct (forget_counts s2 now) as (_ & _ & _ & -> & _); apply Ho2).
  pose proof (writeLate_path (forget s2 now) e2 lg2 Hl Hr2) as H.
  destruct (writeLate Write (forget s2 now) e2) as [[s3 e3] f3]. destruct H as (_ & _ & lg3 & Hr3 & P3).
  do 4 eexists. split_and!; [done|done|]. eapply rtc_l; [exact S1|]. etrans; [exact P2|].
  eapply rtc_l; [apply step_judged|]. eapply rtc_l; [apply step_forget|]. exact P3.
Qed.

Lemma Flush_path ord s e lg :
  inv c (MkWorld s Idle lg) -> only P (MkWorld s Idle lg) -> Rel e lg -> map_keys (pendings s) ord ->
  exists s' e' f lg', Flush Now Write ord s e = Some (s', e', f) /\ pendings s' = ∅ /\ late s' = ∅ /\ Rel e' lg' /\
    rtc sweep_step (MkWorld s Idle lg) (MkWorld s' Idle lg').
Proof.
  intros Hi Ho Hr Hord. unfold Flush.
  destruct (take_ready due_flush ord s) as [s1 ready] eqn:Et.
  pose proof (step_flush s lg ord s1 ready Hord Et) as S1. pose proof (inv_sweep_step _ _ _ Hi S1) as Hi1.
  pose proof (sweep_step_only _ _ _ Ho S1) as Ho1.
  destruct (judge_path Flushing _ ord s e lg s1 ready Hi1 Ho1 Hr Et) as (s2 & e2 & f2 & lg2 & -> & Hp2 & Hr2 & P2).
  cbn [mbind option_bind]. destruct (only_path _ _ Ho1 P2) as [Ho2 _ _].
  pose proof (writeLate_path s2 e2 lg2 (on_late _ _ Ho2) Hr2) as H.
  destruct (writeLate Write s2 e2) as [[s3 e3] f3]. destruct H as (Hp3 & Hl3 & lg3 & Hr3 & P3).
  do 4 eexists. split_and!; [done| |done|done|].
  - rewrite Hp3, Hp2. by eapply flush_takes_all.
  - eapply rtc_l; [exact S1|]. etrans; [exact P2|]. eapply rtc_l; [apply step_flushed|]. exact P3.
Qed.
End paths.

(** Any world can be reached by spans of which nothing is known. *)
Lemma reachable_any c w : reachable c w -> only (fun _ _ => True) w.
Proof.
  intros (w0 & H0 & Hs). apply (initial_only (fun _ _ => True)) in H0.
  induction Hs as [|w0 w1 w2 Hst _ IH]; [done|]. apply IH. destruct Hst as [s pc lg now spans|w w' Hst].
  - destruct H0 as [H1 H2 H3]. split; [|done|done]. apply Accept_only; [done|]. by apply Forall_true.
  - by eapply sweep_step_only.
Qed.

(** C13: with policies that always give an answer, [Sweep] and [Flush] return
    whatever the clock, the writer and the order of the map do, by a path of
    the interleaving's locked pieces, so all that holds of the interleaving
    holds of them; and after an undisturbed [Flush] nothing is waiting: every
    span accepted so far was kept, dropped, or lost to a failed write. *)
Theorem flush_drains {E : Type} (Now : E -> Time * E) (Write : E -> list Span -> bool * E)
    (c : Config) (s : Sampler) (e : E) (lg : list write) (ord : list TraceID) :
  Forall SafePolicy (Policies c) -> reachable c (MkWorld s Idle lg) -> map_keys (pendings s) ord ->
  (exists s' e' f lg', Sweep Now Write ord s e = Some (s', e', f) /\
     rtc sweep_step (MkWorld s Idle lg) (MkWorld s' Idle lg')) /\
  exists s' e' f lg', Flush Now Write ord s e = Some (s', e', f) /\
    rtc sweep_step (MkWorld s Idle lg) (MkWorld s' Idle lg') /\
    pendings s' = ∅ /\ judging s' = ∅ /\ late s' = ∅ /\ Buffered (stats s') = 0 /\
    Accepted (stats s') = KeptSpans (stats s') + DroppedSpans (stats s') +
      LateKept (stats s') + LateDropped (stats s') + logged lost_verdict lg'.
Proof.
  intros Hs Hw Hord. pose proof (reachable_inv _ _ Hw) as Hi.
  pose proof (reachable_any _ _ Hw) as Ho.
  assert (forall e (lg : list write) (late : bool) (id : TraceID) spans, True -> Forall (fun _ => True) spans ->
            let '(_, _) := Write e spans in True) as Hwr by (intros ? ? ? ? spans _ _; by destruct (Write _ spans)).
  split.
  { destruct (Sweep_path Now Write c Hs (fun _ _ => True) (fun _ _ => True) (fun _ _ H => H) Hwr ord s e lg Hi Ho I Hord)
      as (s' & e' & f & lg' & E1 & _ & P). by exists s', e', f, lg'. }
  destruct (Flush_path Now Write c Hs (fun _ _ => True) (fun _ _ => True) (fun _ _ H => H) Hwr ord s e lg Hi Ho I Hord)
    as (s' & e' & f & lg' & Ef & Hp & Hl & _ & P).
  exists s', e', f, lg'. destruct (inv_path _ _ _ Hi P) as (_ & W & [C1 C2 C3 _ _ _] & _). simpl in *.
  pose proof (judging_idle c s' W) as Hj. rewrite Hp, Hj, Hl in C1. rewrite Hp, Hj in C3.
  unfold psize, msize in *. rewrite !msum_empty in *. split_and!; try done; lia.
Qed.

(** A clock that stands still and a writer that always fails. *)
Example flush_drains_witness :
  exists s' e' f, Flush (fun e : unit => (0, e)) (fun e _ => (true, e)) example_order example_accepted tt
    = Some (s', e', f) /\ Buffered (stats s') = 0.
Proof.
  destruct (flush_drains (fun e : unit => (0, e)) (fun e _ => (true, e)) _ _ tt _ _
              example_safe example_reachable example_keys) as (_ & s' & e' & f & lg' & H & _ & _ & _ & _ & Hb & _).
  exists s', e', f. split; [exact H|exact Hb].
Defined.
