(* ===== verification/Ingest.v ===== *)
(** * Accepting exports: [internal/ingest]

    [export] is the transport-neutral core over a [Sink]; the gRPC service and
    the HTTP handler map its results.  What the handlers call outside the
    repository and Go's core, the protobuf and JSON codecs, [compress/gzip]
    and [mime], is a [Wire]; the text of an error is a parameter. *)

From S2P Require Import Prelude GoTime GoBytes GoStrings Ident Value Span Codec Otlp.
From S2P Require Sampler SamplerSpec.

(** ** [sink.go] *)

(** [type Sink interface]: a state, what [Accept] makes of it, and whether an
    error is [ErrSinkFull]. *)
Class Sink (S E : Type) : Type := {
  Accept : S -> list Span -> S * option E;
  IsSinkFull : E -> bool;
}.

(** [type Recorder struct]; its [Accept] never fails. *)
Record Recorder : Type := MkRecorder { recorded : list Span }.

Definition Recorder_Accept (r : Recorder) (spans : list Span) : Recorder * option Empty_set :=
  (MkRecorder (recorded r ++ spans), None).

(** [func (r *Recorder) Spans() []trace.Span], a copy. *)
Definition Recorder_Spans (r : Recorder) : list Span := recorded r.

#[export] Instance recorder_sink : Sink Recorder Empty_set := {|
  Accept := Recorder_Accept;
  IsSinkFull e := match e with end;
|}.

(** The sampler is the daemon's sink; [now] is its clock. *)
Definition sampler_sink (now : Time) : Sink Sampler.Sampler Sampler.accept_error := {|
  Accept s spans := Sampler.Accept s now spans;
  IsSinkFull e := match e with Sampler.ErrSinkFull => true | Sampler.ErrBatchTooLarge => false end;
|}.

(** ** [grpc.go] *)

Definition maxReportedRejections : Z := 3.

Section export.
Context `{Proto} {S E : Type} `{!Sink S E} (error_text : otlp_error -> list byte).

#[local] Abbreviation bytes_of := list_byte_of_string.

(** The loop of [summarise], at index [i] of [n] rejections. *)
Fixpoint summarise_loop (i n : Z) (msg : list byte) (l : list Rejection) : list byte :=
  match l with
  | [] => msg
  | r :: l =>
      if i =? maxReportedRejections
      then msg ++ bytes_of "; and " ++ FormatInt (n - maxReportedRejections) ++ bytes_of " more"
      else
        let msg := if 0 <? i then msg ++ bytes_of "; " else msg in
        summarise_loop (i + 1) n
          (msg ++ bytes_of "span " ++ FormatInt (Index r) ++ bytes_of ": " ++ error_text (RErr r)) l
  end.

(** [func summarise(rejections []otlp.Rejection) string]. *)
Definition summarise (rejections : list Rejection) : list byte :=
  summarise_loop 0 (zlen rejections) [] rejections.

(** The response's partial success: how many spans were rejected, and why. *)
Record PartialSuccess : Type := MkPartialSuccess { RejectedSpans : Z; ErrorMessage : list byte }.

Definition ExportResponse : Type := option PartialSuccess.

(** [func export(ctx, sink, req)]. *)
Definition export (sink : S) (req : list PResourceSpans) : S * result E ExportResponse :=
  let '(spans, rejections) := Translate req in
  let '(sink, err) := match spans with [] => (sink, None) | _ => Accept sink spans end in
  match err with
  | Some e => (sink, Err e)
  | None =>
      (sink, Ok (match rejections with
                 | [] => None
                 | _ => Some (MkPartialSuccess (int64 (zlen rejections)) (summarise rejections))
                 end))
  end.

(** A gRPC status. *)
Inductive grpc_status := Unavailable (e : E) | Internal.

(** [func (s *TraceService) Export(ctx, req)]. *)
Definition Export (sink : S) (req : list PResourceSpans) : S * result grpc_status ExportResponse :=
  let '(sink, resp) := export sink req in
  (sink,
   match resp with
   | Err e => if IsSinkFull e then Err (Unavailable e) else Err Internal
   | Ok resp => Ok resp
   end).

(** ** [http.go] *)

(** A reader: the bytes it yields, and whether it then fails instead of
    ending. *)
Record reader : Type := MkReader { rdata : list byte; rfails : bool }.

Class Wire : Type := {
  ParseMediaType : list byte -> option (list byte);
  NewGzipReader : reader -> option reader;
  UnmarshalJSON : list byte -> option (list PResourceSpans);
  UnmarshalProto : list byte -> option (list PResourceSpans);
  MarshalJSON : ExportResponse -> option (list byte);
  MarshalProto : ExportResponse -> option (list byte);
}.

Definition TracesPath : list byte := bytes_of "/v1/traces".
Definition contentTypeProtobuf : list byte := bytes_of "application/x-protobuf".
Definition contentTypeJSON : list byte := bytes_of "application/json".
Definition maxBodyBytes : Z := 16 * 2 ^ 20.

(** The parts of an [http.Request] the handler reads. *)
Record Request : Type := MkRequest {
  Method : list byte; ContentType : list byte; ContentEncoding : list byte; Body : reader;
}.

Inductive body_error :=
| ErrBadGzip
| ErrUnsupportedEncoding (encoding : list byte)
| ErrReadingBody
| ErrBodyTooLarge.

(** What the handler writes: a status, [Allow] and [Retry-After] when set, and
    an error text or an encoded response with its content type. *)
Inductive http_body :=
| BadMethod | BadContentType | BadBody (e : body_error) | BadRequest
| SinkIsFull (e : E) | SinkRefused | BadEncoding
| Encoded (mediaType : list byte) (out : list byte).

Record Response : Type := MkResponse {
  StatusCode : Z; Allow : option (list byte); RetryAfter : option (list byte); Written : http_body;
}.

(** [io.ReadAll(io.LimitReader(r, n))]. *)
Definition ReadAllLimited (n : Z) (r : reader) : list byte * bool :=
  if n <=? zlen (rdata r) then (take (Z.to_nat n) (rdata r), false) else (rdata r, rfails r).

Section handler.
Context `{!Wire}.

(** [func readBody(r *http.Request) ([]byte, error)]. *)
Definition readBody (r : Request) : result body_error (list byte) :=
  let chosen :=
    if bool_decide (ContentEncoding r = []) || bool_decide (ContentEncoding r = bytes_of "identity") then Ok (Body r)
    else if bool_decide (ContentEncoding r = bytes_of "gzip") then
      match NewGzipReader (Body r) with None => Err ErrBadGzip | Some gz => Ok gz end
    else Err (ErrUnsupportedEncoding (ContentEncoding r)) in
  match chosen with
  | Err e => Err e
  | Ok reader =>
      let '(body, bad) := ReadAllLimited (maxBodyBytes + 1) reader in
      if bad then Err ErrReadingBody
      else if maxBodyBytes <? zlen body then Err ErrBodyTooLarge
      else Ok body
  end.

(** [func unmarshal] and [func marshal]. *)
Definition unmarshal (mediaType body : list byte) : option (list PResourceSpans) :=
  if bool_decide (mediaType = contentTypeJSON) then UnmarshalJSON body else UnmarshalProto body.
Definition marshal (mediaType : list byte) (m : ExportResponse) : option (list byte) :=
  if bool_decide (mediaType = contentTypeJSON) then MarshalJSON m else MarshalProto m.

Definition MethodPost : list byte := bytes_of "POST".
Definition retryAfterSeconds : list byte := bytes_of "2".

(** [http.Error]. *)
Definition reply (code : Z) (body : http_body) : Response := MkResponse code None None body.

(** [func (h *HTTPHandler) ServeHTTP(w, r)]. *)
Definition ServeHTTP (sink : S) (r : Request) : S * Response :=
  if negb (bool_decide (Method r = MethodPost)) then (sink, MkResponse 405 (Some MethodPost) None BadMethod)
  else
    match ParseMediaType (ContentType r) with
    | None => (sink, reply 415 BadContentType)
    | Some mediaType =>
        if negb (bool_decide (mediaType = contentTypeProtobuf)) && negb (bool_decide (mediaType = contentTypeJSON))
        then (sink, reply 415 BadContentType)
        else
          match readBody r with
          | Err e => (sink, reply (match e with ErrBodyTooLarge => 413 | _ => 400 end) (BadBody e))
          | Ok body =>
              match unmarshal mediaType body with
              | None => (sink, reply 400 BadRequest)
              | Some req =>
                  let '(sink, resp) := export sink req in
                  match resp with
                  | Err e =>
                      if IsSinkFull e
                      then (sink, MkResponse 503 None (Some retryAfterSeconds) (SinkIsFull e))
                      else (sink, reply 500 SinkRefused)
                  | Ok resp =>
                      match marshal mediaType resp with
                      | None => (sink, reply 500 BadEncoding)
                      | Some out => (sink, reply 200 (Encoded mediaType out))
                      end
                  end
              end
          end
    end.
End handler.
End export.

#[global] Arguments Wire {_}.

(** ** Properties *)

Section properties.
Context `{Proto} {S E : Type} `{!Sink S E} (error_text : otlp_error -> list byte).

(** [parts] joined by [sep]. *)
Fixpoint join (sep : list byte) (parts : list (list byte)) : list byte :=
  match parts with
  | [] => []
  | [p] => p
  | p :: parts => p ++ sep ++ join sep parts
  end.

Definition rejection_text (r : Rejection) : list byte :=
  list_byte_of_string "span " ++ FormatInt (Index r) ++ list_byte_of_string ": " ++ error_text (RErr r).

Lemma summarise_loop_short n l : forall i msg, 0 < i -> i + zlen l <= maxReportedRejections ->
  summarise_loop error_text i n msg l =
    msg ++ concat ((fun r => list_byte_of_string "; " ++ rejection_text r) <$> l).
Proof.
  unfold maxReportedRejections. induction l as [|r l IH]; intros i msg Hi Hl; cbn [summarise_loop].
  { simpl. by rewrite app_nil_r. }
  assert (zlen (r :: l) = 1 + zlen l) as Hz by (unfold zlen; simpl; lia). pose proof (zlen_nonneg l).
  destruct (Z.eqb_spec i maxReportedRejections); [unfold maxReportedRejections in *; lia|].
  destruct (Z.ltb_spec 0 i); [|lia]. rewrite IH by lia. rewrite fmap_cons. cbn [concat]. unfold rejection_text.
  by rewrite <-!app_assoc.
Qed.

Lemma join_cons sep p parts : join sep (p :: parts) = p ++ concat ((fun q => sep ++ q) <$> parts).
Proof.
  revert p. induction parts as [|q parts IH]; intros p; [simpl; by rewrite app_nil_r|].
  change (join sep (p :: q :: parts)) with (p ++ sep ++ join sep (q :: parts)). rewrite IH, fmap_cons. cbn [concat].
  by rewrite <-app_assoc.
Qed.

Lemma summarise_short l : zlen l <= maxReportedRejections ->
  summarise error_text l = join (list_byte_of_string "; ") (rejection_text <$> l).
Proof.
  intros Hl. unfold summarise. destruct l as [|r l]; [done|]. cbn [summarise_loop].
  change (0 =? maxReportedRejections) with false. change (0 <? 0) with false. cbv iota.
  assert (zlen (r :: l) = 1 + zlen l) as Hz by (unfold zlen; simpl; lia).
  rewrite summarise_loop_short by lia. rewrite fmap_cons, join_cons, <-list_fmap_compose. done.
Qed.

(** The partial-success message names the first three rejections in order,
    and counts the others. *)
Theorem summarise_spec (l : list Rejection) :
  summarise error_text l =
    join (list_byte_of_string "; ") (rejection_text <$> take 3 l) ++
    (if zlen l <=? 3 then [] else list_byte_of_string "; and " ++ FormatInt (zlen l - 3) ++ list_byte_of_string " more").
Proof.
  destruct (Z.leb_spec (zlen l) 3) as [Hl|Hl].
  - rewrite app_nil_r, take_ge by (unfold zlen in Hl; lia). by apply summarise_short.
  - destruct l as [|r1 [|r2 [|r3 [|r4 l]]]]; try (unfold zlen in Hl; simpl in Hl; lia).
    unfold summarise. cbn [take]. generalize (zlen (r1 :: r2 :: r3 :: r4 :: l)) as n. intros n.
    cbn [summarise_loop join fmap list_fmap].
    change (0 =? maxReportedRejections) with false. change (0 + 1 =? maxReportedRejections) with false.
    change (0 + 1 + 1 =? maxReportedRejections) with false. change (0 + 1 + 1 + 1 =? maxReportedRejections) with true.
    change (0 <? 0) with false. change (0 <? 0 + 1) with true. change (0 <? 0 + 1 + 1) with true. cbv iota.
    unfold rejection_text, maxReportedRejections. rewrite <-!app_assoc. done.
Qed.

Context `{!Wire}.

(** C24: an export over HTTP that decodes does to the sink exactly what the
    same export does over gRPC, and reports the same: a full sink as a
    retryable refusal, any other refusal as an internal error, and success
    with the same partial-success report, encoded as the request was. *)
Theorem transports_agree (sink : S) (r : Request) (mediaType body : list byte) (req : list PResourceSpans) :
  Method r = MethodPost -> ParseMediaType (ContentType r) = Some mediaType ->
  mediaType = contentTypeProtobuf \/ mediaType = contentTypeJSON ->
  readBody r = Ok body -> unmarshal mediaType body = Some req ->
  let '(sink1, answer) := Export error_text sink req in
  let '(sink2, resp) := ServeHTTP error_text sink r in
  sink1 = sink2 /\
  match answer with
  | Err (Unavailable e) => resp = MkResponse 503 None (Some retryAfterSeconds) (SinkIsFull e)
  | Err Internal => resp = reply 500 SinkRefused
  | Ok m => match marshal mediaType m with
            | Some out => resp = reply 200 (Encoded mediaType out)
            | None => resp = reply 500 BadEncoding
            end
  end.
Proof.
  intros Hm Hp Hmt Hb Hu. unfold Export, ServeHTTP. rewrite Hm, Hp, Hb, Hu.
  rewrite (bool_decide_true (MethodPost = MethodPost)) by done. cbn [negb].
  assert (negb (bool_decide (mediaType = contentTypeProtobuf)) && negb (bool_decide (mediaType = contentTypeJSON)) = false) as ->.
  { rewrite andb_false_iff, !negb_false_iff, !bool_decide_eq_true. done. }
  destruct (export error_text sink req) as [s [m|e]].
  - by destruct (marshal mediaType m).
  - by destruct (IsSinkFull e).
Qed.

(** What a request's body holds once decompressed: [None] if it is not gzip
    where it should be, or in another encoding. *)
Definition body_reader (r : Request) : option reader :=
  if bool_decide (ContentEncoding r ∈ [[]; list_byte_of_string "identity"]) then Some (Body r)
  else if bool_decide (ContentEncoding r = list_byte_of_string "gzip") then NewGzipReader (Body r)
  else None.

(** Some media type the handler speaks. *)
Definition spoken (r : Request) (mediaType : list byte) : Prop :=
  ParseMediaType (ContentType r) = Some mediaType /\ mediaType ∈ [contentTypeProtobuf; contentTypeJSON].

(** The answer to an export that was decoded. *)
Definition export_answer (mediaType : list byte) (a : result E ExportResponse) : Response :=
  match a with
  | Err e => if IsSinkFull e then MkResponse 503 None (Some (list_byte_of_string "2")) (SinkIsFull e)
             else MkResponse 500 None None SinkRefused
  | Ok m => match marshal mediaType m with
            | Some out => MkResponse 200 None None (Encoded mediaType out)
            | None => MkResponse 500 None None BadEncoding
            end
  end.

Lemma read_limited rd :
  (let '(body, bad) := ReadAllLimited (maxBodyBytes + 1) rd in
   if bad then Err ErrReadingBody
   else if maxBodyBytes <? zlen body then Err ErrBodyTooLarge else Ok body) =
  (if maxBodyBytes <? zlen (rdata rd) then Err ErrBodyTooLarge
   else if rfails rd then Err ErrReadingBody else Ok (rdata rd)).
Proof.
  unfold ReadAllLimited. destruct (Z.leb_spec (maxBodyBytes + 1) (zlen (rdata rd))) as [Hl|Hl].
  - destruct (Z.ltb_spec maxBodyBytes (zlen (rdata rd))); [|lia].
    destruct (Z.ltb_spec maxBodyBytes (zlen (take (Z.to_nat (maxBodyBytes + 1)) (rdata rd)))) as [|Ht]; [done|].
    unfold zlen in *. rewrite length_take in Ht. unfold maxBodyBytes in *. lia.
  - destruct (Z.ltb_spec maxBodyBytes (zlen (rdata rd))); [lia|]. by destruct (rfails rd).
Qed.

(** [readBody], exactly. *)
Lemma readBody_spec r :
  match body_reader r with
  | None => exists e, readBody r = Err e /\ e <> ErrBodyTooLarge
  | Some rd => readBody r = if maxBodyBytes <? zlen (rdata rd) then Err ErrBodyTooLarge
                            else if rfails rd then Err ErrReadingBody else Ok (rdata rd)
  end.
Proof.
  unfold readBody, body_reader. rewrite <-bool_decide_or.
  rewrite (bool_decide_ext (ContentEncoding r ∈ _) (ContentEncoding r = [] \/ ContentEncoding r = list_byte_of_string "identity"))
    by (rewrite !elem_of_cons, elem_of_nil; naive_solver).
  case_bool_decide; [apply read_limited|]. case_bool_decide; [|by eexists].
  destruct (NewGzipReader (Body r)); [apply read_limited|by eexists].
Qed.

Lemma spoken_guard r :
  (exists mt, spoken r mt /\ ParseMediaType (ContentType r) = Some mt /\
     negb (bool_decide (mt = contentTypeProtobuf)) && negb (bool_decide (mt = contentTypeJSON)) = false) \/
  (forall mt, ~ spoken r mt) /\
  forall mt, ParseMediaType (ContentType r) = Some mt ->
     negb (bool_decide (mt = contentTypeProtobuf)) && negb (bool_decide (mt = contentTypeJSON)) = true.
Proof.
  unfold spoken. destruct (ParseMediaType (ContentType r)) as [mt|]; [|right; split; [by intros mt [? _]|done]].
  destruct (decide (mt ∈ [contentTypeProtobuf; contentTypeJSON])) as [Hin|Hin].
  - left. exists mt. split_and!; [done..|]. rewrite andb_false_iff, !negb_false_iff, !bool_decide_eq_true. set_solver.
  - right. split; [by intros mt' [[= <-] ?]|]. intros mt' [= <-].
    rewrite andb_true_iff, !negb_true_iff, !bool_decide_eq_false. set_solver.
Qed.

(** C26: what the HTTP handler answers, and when: 405 to anything but POST, 415
    to a media type it does not speak, 400 to a body it cannot decompress or
    read, 413 to one longer than the limit once decompressed, 400 to one that
    does not decode, and in all of these the sink is untouched.  A request
    that decodes is exported: a full sink is answered with 503 and a time to
    retry, and only it, any other refusal with 500; success with 200 and the
    report, encoded as the request was, or 500 if that cannot be encoded. *)
Theorem http_refusals (sink : S) (r : Request) :
  let '(sink', resp) := ServeHTTP error_text sink r in
  (Method r <> MethodPost -> resp = MkResponse 405 (Some MethodPost) None BadMethod /\ sink' = sink) /\
  (Method r = MethodPost -> (forall mt, ~ spoken r mt) -> resp = reply 415 BadContentType /\ sink' = sink) /\
  forall mt, Method r = MethodPost -> spoken r mt ->
  match body_reader r with
  | None => (exists e, resp = reply 400 (BadBody e)) /\ sink' = sink
  | Some rd =>
      if maxBodyBytes <? zlen (rdata rd) then resp = reply 413 (BadBody ErrBodyTooLarge) /\ sink' = sink
      else if rfails rd then resp = reply 400 (BadBody ErrReadingBody) /\ sink' = sink
      else match unmarshal mt (rdata rd) with
           | None => resp = reply 400 BadRequest /\ sink' = sink
           | Some req => resp = export_answer mt (export error_text sink req).2 /\
                         sink' = (export error_text sink req).1
           end
  end.
Proof.
  unfold ServeHTTP. destruct (bool_decide_reflect (Method r = MethodPost)) as [Hm|Hm]; cbn [negb]; [|by split_and!].
  destruct (spoken_guard r) as [(mt & Hs & -> & ->)|[Hs Hguard]].
  - assert (forall mt', spoken r mt' -> mt' = mt) as Hmt by (unfold spoken in *; intros; destruct_and?; congruence).
    pose proof (readBody_spec r) as Hb. destruct (body_reader r) as [rd|].
    2:{ destruct Hb as (e & -> & He). split_and!; [done|naive_solver|]. intros _ _ _. split; [|done]. exists e. by destruct e. }
    rewrite Hb. destruct (maxBodyBytes <? zlen (rdata rd)); [split_and!; naive_solver|].
    destruct (rfails rd); [split_and!; naive_solver|].
    destruct (unmarshal mt (rdata rd)) as [req|] eqn:Eu.
    2:{ split_and!; [done|naive_solver|]. by intros mt' _ ->%Hmt; rewrite Eu. }
    assert (forall sink' resp, resp = export_answer mt (export error_text sink req).2 /\ sink' = (export error_text sink req).1 ->
      forall mt', Method r = MethodPost -> spoken r mt' ->
      match unmarshal mt' (rdata rd) with
      | None => resp = reply 400 BadRequest /\ sink' = sink
      | Some req => resp = export_answer mt' (export error_text sink req).2 /\ sink' = (export error_text sink req).1
      end) as Hfin by (intros sink' resp Ha mt' _ ->%Hmt; by rewrite Eu).
    unfold export_answer in Hfin. destruct (export error_text sink req) as [s [m|e]]; cbn [fst snd] in Hfin.
    + destruct (marshal mt m); (split_and!; [done|naive_solver|by apply Hfin]).
    + destruct (IsSinkFull e); (split_and!; [done|naive_solver|by apply Hfin]).
  - destruct (ParseMediaType (ContentType r)) as [mt|]; [rewrite (Hguard mt eq_refl)|]; split_and!; naive_solver.
Qed.
End properties.

(** A wire whose every body is the example request. *)
#[local] Instance example_wire : Wire (H := example_proto) := {|
  ParseMediaType s := Some s; NewGzipReader _ := None;
  UnmarshalJSON _ := Some example_request; UnmarshalProto _ := None;
  MarshalJSON _ := Some []; MarshalProto _ := None;
|}.

Example transports_agree_witness :
  let r := MkRequest MethodPost contentTypeJSON [] (MkReader [] false) in
  (Export (H := example_proto) (fun _ => []) (MkRecorder []) example_request).1 =
    (ServeHTTP (H := example_proto) (fun _ => []) (MkRecorder []) r).1.
Proof.
  intros r.
  pose proof (transports_agree (H := example_proto) (fun _ => []) (MkRecorder []) r contentTypeJSON []
                example_request eq_refl eq_refl (or_intror eq_refl) eq_refl eq_refl) as T.
  destruct (Export (fun _ => []) (MkRecorder []) example_request) as [s1 a].
  destruct (ServeHTTP (fun _ => []) (MkRecorder []) r) as [s2 resp]. exact (proj1 T).
Defined.

(** C25: exporting into the sampler: an accepted export adds exactly the spans
    that translate to those accepted and reports the number of the others; one
    that does not fit for now is counted, otherwise changes nothing, and is
    refused as retryable; one that can never fit changes nothing and is not. *)
Theorem export_to_sampler `{Proto} (error_text : otlp_error -> list byte) (s : Sampler.Sampler) (now : Time)
    (req : list PResourceSpans) :
  let '(spans, rejections) := Translate req in
  let '(s', answer) := Export (Sink0 := sampler_sink now) error_text s req in
  match answer with
  | Ok m =>
      Sampler.Accepted (Sampler.stats s') = Sampler.Accepted (Sampler.stats s) + zlen spans /\
      Sampler.Refused (Sampler.stats s') = Sampler.Refused (Sampler.stats s) /\
      RejectedSpans <$> m = (if bool_decide (rejections = []) then None else Some (int64 (zlen rejections)))
  | Err (Unavailable e) =>
      e = Sampler.ErrSinkFull /\ s' = Sampler.set_stats (Sampler.addRefused (zlen spans)) s
  | Err Internal => s' = s /\ Sampler.MaxSpans (Sampler.cfg s) < zlen spans
  end.
Proof.
  destruct (Translate req) as [spans rejections] eqn:Et. unfold Export, export. rewrite Et.
  set (report := match rejections with [] => None | _ => _ end).
  assert (RejectedSpans <$> report = (if bool_decide (rejections = []) then None else Some (int64 (zlen rejections)))) as Hm
    by (by destruct rejections).
  clearbody report. destruct spans as [|sp spans].
  { simpl. split_and!; [unfold zlen; simpl; lia|done|done]. }
  simpl. generalize (sp :: spans) as l. intros l. unfold Sampler.Accept.
  destruct (Z.ltb_spec (Sampler.MaxSpans (Sampler.cfg s)) (zlen l)); [done|].
  destruct (_ <? _); [done|]. simpl. pose proof (SamplerSpec.accept_fold now l s) as Hf. cbv zeta in Hf.
  destruct Hf as (_ & _ & _ & E1 & _ & _ & _ & _ & E2 & _). simpl. rewrite E1, E2. done.
Qed.
