(* ===== verification/Daemon.v ===== *)
(** * The daemon: [cmd/spandreld/main.go]

    The command line, the settings it gives the sampler and the store, the
    order in which [run] starts them, the store behind its interface, and the
    flush and close at the end.  Reading the arguments follows the standard
    library's flag package; the texts its value parsers accept are a parameter,
    as is what the operating system answers to [net.Listen]. *)

From S2P Require Import Prelude GoTime GoBytes GoStrings GoFloat Ident Value Span Otlp Query.
From S2P Require Memory.
From S2P Require Import Assembly Policy Os.
From S2P Require Disk.
From S2P Require Import Store Sampler Ingest.

#[local] Abbreviation bytes_of := list_byte_of_string.

(** ** Settings *)

(** [type config struct]. *)
Record config : Type := MkSettings {
  grpcAddr : list byte;
  httpAddr : list byte;
  logLevel : Z;
  drainTimeout : Duration;
  dataDir : list byte;
  retention : Duration;
  sampleQuiet : Duration;
  sampleMaxAge : Duration;
  sampleBuffer : Z;
  keepSlowerThan : Duration;
  keepShare : float;
  serviceRate : float;
  serviceBurst : Z;
  remember : Duration;
  maxDecisions : Z;
}.

(** The values the flags parse into: [cfg] without its level, and the text
    of [-log-level]. *)
Definition flags : Type := config * list byte.

(** A variable a flag sets, by the type of its value. *)
Inductive setter :=
| StringVar (f : list byte -> flags -> flags)
| DurationVar (f : Duration -> flags -> flags)
| IntVar (f : Z -> flags -> flags)
| Float64Var (f : float -> flags -> flags).

(** The value parsers of the standard library: [time.ParseDuration],
    [strconv.ParseInt] in base 0, [strconv.ParseFloat], and
    [slog.Level.UnmarshalText]. *)
Class ValueParsers : Type := {
  ParseDuration : list byte -> option Duration;
  ParseInt0 : list byte -> option Z;
  ParseFloat : list byte -> option float;
  ParseLevel : list byte -> option Z;
}.

Definition Minute : Duration := 60 * Second.
Definition Hour : Duration := 60 * Minute.

(** The defaults [parseFlags] declares; 0.1 is the float64 nearest to it. *)
Definition tenth : float := S754_finite false 7205759403792794 (-56).

Definition defaults : flags :=
  (MkSettings (bytes_of ":4317") (bytes_of ":4318") 0 (10 * Second) [] (72 * Hour)
     (5 * Second) Minute 200000 Second tenth (of_Z 50) 100 (5 * Minute) 100000, bytes_of "info").

(** The flags [parseFlags] declares. *)
Definition on (f : config -> config) (st : flags) : flags := (f st.1, st.2).

Definition formal : list (list byte * setter) := [
  (bytes_of "grpc-addr", StringVar (fun v => on (fun c => MkSettings v (httpAddr c) (logLevel c) (drainTimeout c) (dataDir c)
     (retention c) (sampleQuiet c) (sampleMaxAge c) (sampleBuffer c) (keepSlowerThan c) (keepShare c) (serviceRate c)
     (serviceBurst c) (remember c) (maxDecisions c))));
  (bytes_of "http-addr", StringVar (fun v => on (fun c => MkSettings (grpcAddr c) v (logLevel c) (drainTimeout c) (dataDir c)
     (retention c) (sampleQuiet c) (sampleMaxAge c) (sampleBuffer c) (keepSlowerThan c) (keepShare c) (serviceRate c)
     (serviceBurst c) (remember c) (maxDecisions c))));
  (bytes_of "drain-timeout", DurationVar (fun v => on (fun c => MkSettings (grpcAddr c) (httpAddr c) (logLevel c) v (dataDir c)
     (retention c) (sampleQuiet c) (sampleMaxAge c) (sampleBuffer c) (keepSlowerThan c) (keepShare c) (serviceRate c)
     (serviceBurst c) (remember c) (maxDecisions c))));
  (bytes_of "data-dir", StringVar (fun v => on (fun c => MkSettings (grpcAddr c) (httpAddr c) (logLevel c) (drainTimeout c) v
     (retention c) (sampleQuiet c) (sampleMaxAge c) (sampleBuffer c) (keepSlowerThan c) (keepShare c) (serviceRate c)
     (serviceBurst c) (remember c) (maxDecisions c))));
  (bytes_of "retention", DurationVar (fun v => on (fun c => MkSettings (grpcAddr c) (httpAddr c) (logLevel c) (drainTimeout c)
     (dataDir c) v (sampleQuiet c) (sampleMaxAge c) (sampleBuffer c) (keepSlowerThan c) (keepShare c) (serviceRate c)
     (serviceBurst c) (remember c) (maxDecisions c))));
  (bytes_of "log-level", StringVar (fun v st => (st.1, v)));
  (bytes_of "sample-quiet", DurationVar (fun v => on (fun c => MkSettings (grpcAddr c) (httpAddr c) (logLevel c) (drainTimeout c)
     (dataDir c) (retention c) v (sampleMaxAge c) (sampleBuffer c) (keepSlowerThan c) (keepShare c) (serviceRate c)
     (serviceBurst c) (remember c) (maxDecisions c))));
  (bytes_of "sample-max-age", DurationVar (fun v => on (fun c => MkSettings (grpcAddr c) (httpAddr c) (logLevel c)
     (drainTimeout c) (dataDir c) (retention c) (sampleQuiet c) v (sampleBuffer c) (keepSlowerThan c) (keepShare c)
     (serviceRate c) (serviceBurst c) (remember c) (maxDecisions c))));
  (bytes_of "sample-buffer", IntVar (fun v => on (fun c => MkSettings (grpcAddr c) (httpAddr c) (logLevel c) (drainTimeout c)
     (dataDir c) (retention c) (sampleQuiet c) (sampleMaxAge c) v (keepSlowerThan c) (keepShare c) (serviceRate c)
     (serviceBurst c) (remember c) (maxDecisions c))));
  (bytes_of "keep-slower-than", DurationVar (fun v => on (fun c => MkSettings (grpcAddr c) (httpAddr c) (logLevel c)
     (drainTimeout c) (dataDir c) (retention c) (sampleQuiet c) (sampleMaxAge c) (sampleBuffer c) v (keepShare c)
     (serviceRate c) (serviceBurst c) (remember c) (maxDecisions c))));
  (bytes_of "keep-share", Float64Var (fun v => on (fun c => MkSettings (grpcAddr c) (httpAddr c) (logLevel c) (drainTimeout c)
     (dataDir c) (retention c) (sampleQuiet c) (sampleMaxAge c) (sampleBuffer c) (keepSlowerThan c) v (serviceRate c)
     (serviceBurst c) (remember c) (maxDecisions c))));
  (bytes_of "service-rate", Float64Var (fun v => on (fun c => MkSettings (grpcAddr c) (httpAddr c) (logLevel c) (drainTimeout c)
     (dataDir c) (retention c) (sampleQuiet c) (sampleMaxAge c) (sampleBuffer c) (keepSlowerThan c) (keepShare c) v
     (serviceBurst c) (remember c) (maxDecisions c))));
  (bytes_of "service-burst", IntVar (fun v => on (fun c => MkSettings (grpcAddr c) (httpAddr c) (logLevel c) (drainTimeout c)
     (dataDir c) (retention c) (sampleQuiet c) (sampleMaxAge c) (sampleBuffer c) (keepSlowerThan c) (keepShare c)
     (serviceRate c) v (remember c) (maxDecisions c))));
  (bytes_of "remember", DurationVar (fun v => on (fun c => MkSettings (grpcAddr c) (httpAddr c) (logLevel c) (drainTimeout c)
     (dataDir c) (retention c) (sampleQuiet c) (sampleMaxAge c) (sampleBuffer c) (keepSlowerThan c) (keepShare c)
     (serviceRate c) (serviceBurst c) v (maxDecisions c))));
  (bytes_of "max-decisions", IntVar (fun v => on (fun c => MkSettings (grpcAddr c) (httpAddr c) (logLevel c) (drainTimeout c)
     (dataDir c) (retention c) (sampleQuiet c) (sampleMaxAge c) (sampleBuffer c) (keepSlowerThan c) (keepShare c)
     (serviceRate c) (serviceBurst c) (remember c) v)))
].

(** ** Reading the arguments: [flag.FlagSet.Parse] *)

Inductive flag_error :=
| FlagSyntax (s : list byte) | FlagUndefined (name : list byte) | FlagHelp
| FlagNeedsArgument (name : list byte) | FlagInvalid (name value : list byte).

(** The first [=] of [s] splits it, if there is one. *)
Fixpoint cut_equals (s : list byte) : list byte * option (list byte) :=
  match s with
  | [] => ([], None)
  | b :: s' => if decide (b = x3d) then ([], Some s') else let '(n, v) := cut_equals s' in (b :: n, v)
  end.

(** What an argument is: not a flag or [--], which end the flags; malformed;
    or a flag, perhaps with a value. *)
Inductive token := TEnd | TSyntax | TFlag (name : list byte) (value : option (list byte)).

Definition flag_token (s : list byte) : token :=
  match s with
  | x2d :: c :: r =>
      let name := if decide (c = x2d) then r else c :: r in
      match name with
      | [] => TEnd
      | b :: t => if decide (b = x2d \/ b = x3d) then TSyntax
                  else let '(n, v) := cut_equals t in TFlag (b :: n) v
      end
  | _ => TEnd
  end.

(** The setter [parseFlags] declared for a name. *)
Definition formal_of (n : list byte) : option setter :=
  snd <$> find (fun p => bool_decide (p.1 = n)) formal.

Section parsing.
Context `{ValueParsers}.

(** [flag.Value.Set]. *)
Definition Set_ (x : setter) (value : list byte) (st : flags) : option flags :=
  match x with
  | StringVar f => Some (f value st)
  | DurationVar f => v ← ParseDuration value; Some (f v st)
  | IntVar f => v ← ParseInt0 value; Some (f v st)
  | Float64Var f => v ← ParseFloat value; Some (f v st)
  end.

Definition set_flag (n value : list byte) (st : flags) : result flag_error flags :=
  match formal_of n with
  | None => Err (FlagUndefined n)
  | Some x => match Set_ x value st with Some st => Ok st | None => Err (FlagInvalid n value) end
  end.

Fixpoint Parse (args : list (list byte)) (st : flags) : result flag_error flags :=
  match args with
  | [] => Ok st
  | s :: args' =>
      match flag_token s with
      | TEnd => Ok st
      | TSyntax => Err (FlagSyntax s)
      | TFlag n value =>
          match formal_of n, value, args' with
          | None, _, _ => if decide (n = bytes_of "help" \/ n = bytes_of "h") then Err FlagHelp else Err (FlagUndefined n)
          | Some _, Some v, _ => let? st := set_flag n v st in Parse args' st
          | Some _, None, v :: args'' => let? st := set_flag n v st in Parse args'' st
          | Some _, None, [] => Err (FlagNeedsArgument n)
          end
      end
  end.

(** ** [parseFlags] *)

Inductive run_error :=
| RunFlags (e : flag_error) | RunLevel (level : list byte) | RunRetention (d : Duration)
| RunKeepSlowerThan (d : Duration) | RunKeepShare (e : share_error)
| RunStore (e : Disk.disk_error) | RunSampler (e : config_error) | RunListenGRPC | RunListenHTTP.

Definition set_level (l : Z) (c : config) : config :=
  MkSettings (grpcAddr c) (httpAddr c) l (drainTimeout c) (dataDir c) (retention c) (sampleQuiet c) (sampleMaxAge c)
    (sampleBuffer c) (keepSlowerThan c) (keepShare c) (serviceRate c) (serviceBurst c) (remember c) (maxDecisions c).

(** [func parseFlags(args []string) (config, error)]. *)
Definition parseFlags (args : list (list byte)) : result run_error config :=
  match Parse args defaults with
  | Err e => Err (RunFlags e)
  | Ok (c, level) =>
      match ParseLevel level with
      | None => Err (RunLevel level)
      | Some l =>
          let c := set_level l c in
          if retention c <? 0 then Err (RunRetention (retention c))
          else if keepSlowerThan c <? 0 then Err (RunKeepSlowerThan (keepSlowerThan c))
          else Ok c
      end
  end.
End parsing.

(** ** The sampler's settings *)

(** [func samplerConfig(cfg, logger) (sampler.Config, error)]. *)
Definition samplerConfig (c : config) : result run_error Sampler.Config :=
  match NewKeepFraction (keepShare c) with
  | Err e => Err (RunKeepShare e)
  | Ok share =>
      let policies := [KeepErrors] in
      let policies := if 0 <? keepSlowerThan c then policies ++ [KeepSlow (keepSlowerThan c)] else policies in
      Ok (MkConfig (sampleQuiet c) (sampleMaxAge c) (sampleBuffer c) (policies ++ [KeepFraction share])
            (remember c) (maxDecisions c) (serviceRate c) (serviceBurst c))
  end.

(** ** The store *)

(** [type store interface] with its two implementations; a disk store comes
    with its directory. *)
Inductive store := InMemory (m : Memory.Memory) | OnDisk (d : Disk.Disk) (o : os).

(** [func openStore(cfg config) (store, error)]. *)
Definition openStore (c : config) (now now' : Time) (o : os) : result run_error store :=
  match dataDir c with
  | [] => Ok (InMemory (Memory.NewMemory (retention c)))
  | _ => match Disk.OpenDisk (retention c) now now' o with
         | (Ok d, o) => Ok (OnDisk d o)
         | (Err e, _) => Err (RunStore e)
         end
  end.

(** The store behind the interface, whichever it is. *)
#[export] Instance daemon_store : Store store := {|
  Write st now batch :=
    match st with
    | InMemory m => '(m, failed) ← Write m now batch; Some (InMemory m, failed)
    | OnDisk d o => '(s, failed) ← Write (d, o) now batch; Some (OnDisk s.1 s.2, failed)
    end;
  Trace st := match st with InMemory m => Trace m | OnDisk d o => Trace (d, o) end;
  Find st := match st with InMemory m => Find m | OnDisk d o => Find (d, o) end;
  EvictTraces st now :=
    match st with
    | InMemory m => InMemory (EvictTraces m now)
    | OnDisk d o => let s := EvictTraces (d, o) now in OnDisk s.1 s.2
    end;
  EvictSegments st now :=
    match st with
    | InMemory m => InMemory (EvictSegments m now)
    | OnDisk d o => let s := EvictSegments (d, o) now in OnDisk s.1 s.2
    end;
  Close st :=
    match st with
    | InMemory m => let '(m, bad) := Close m in (InMemory m, bad)
    | OnDisk d o => let '(s, bad) := Close (d, o) in (OnDisk s.1 s.2, bad)
    end;
|}.

(** ** Starting: [run] up to serving *)

(** What [run] comes to before it serves; when it does not start, the deferred
    call has closed the store, if it was open. *)
Inductive started :=
| Started (c : config) (s : Sampler) (st : store)
| NotStarted (e : run_error) (st : option store).

(** [grpc_listens] and [http_listens] are the answers of [net.Listen]; a listener
    closed again leaves nothing behind. *)
Definition start `{ValueParsers} (args : list (list byte)) (now now' : Time) (o : os) (grpc_listens http_listens : bool)
    : started :=
  match parseFlags args with
  | Err e => NotStarted e None
  | Ok c =>
      match samplerConfig c with
      | Err e => NotStarted e None
      | Ok sampling =>
          match openStore c now now' o with
          | Err e => NotStarted e None
          | Ok st =>
              let close e := NotStarted e (Some (Close st).1) in
              match New sampling false with
              | Err e => close (RunSampler e)
              | Ok s =>
                  if negb grpc_listens then close RunListenGRPC
                  else if negb http_listens then close RunListenHTTP
                  else Started c s st
              end
          end
      end
  end.

(** ** Stopping: [serveSampled] once the servers have returned *)

(** The rest of the process as the sampler sees it: the clock, as readings to
    come, and the store. *)
Record env : Type := MkEnv { readings : nat -> Time; stored : store }.

Definition env_now (e : env) : Time * env := (readings e 0%nat, MkEnv (fun i => readings e (S i)) (stored e)).

(** [s.out.Write]; a panic of the store, which the theorems rule out, would end
    the process, and counts as a failure here. *)
Definition env_write (e : env) (batch : list Span) : bool * env :=
  let '(now, e) := env_now e in
  match Write (stored e) now batch with
  | Some (st, failed) => (failed, MkEnv (readings e) st)
  | None => (true, e)
  end.

(** The interval at which [serveSampled] sweeps. *)
Definition sweep_interval (c : config) : Duration := Z.max (Z.quot (sampleQuiet c) 4) (10 ^ 6).

(** From the end of the sweeping context: [Run] flushes and returns, and
    [run]'s deferred call closes the store. *)
Definition shutdown (ord : list TraceID) (s : Sampler) (e : env) : option (Sampler * store * bool * bool) :=
  '(s, e, flushed) ← Run env_now env_write [Done ord] s e;
  failed ← flushed;
  let '(st, bad) := Close (stored e) in
  Some (s, st, failed, bad).

(** ** The store keeps the promises of the interface *)

#[export] Instance daemon_laws : StoreLaws store.
Proof.
  refine {| contents st := match st with InMemory m => contents m | OnDisk d o => contents (d, o) end;
            store_ok r st := match st with InMemory m => store_ok r m | OnDisk d o => store_ok r (d, o) end |}.
  - intros r [m|d o] now batch Hs Hb Hn; cbn [Write daemon_store].
    + destruct (law_write r m now batch Hs Hb Hn) as (m' & failed & -> & H). by exists (InMemory m'), failed.
    + destruct (law_write r (d, o) now batch Hs Hb Hn) as ([d' o'] & failed & -> & H). by exists (OnDisk d' o'), failed.
  - intros r [m|d o] now batch Hs Hb; cbn [Write daemon_store]; by rewrite (law_invalid r).
  - intros r [m|d o] id Hs; cbn [Trace daemon_store]; by apply (law_trace r).
  - intros r [m|d o] q Hs Hq Hw; cbn [Find daemon_store]; by apply (law_find r).
  - intros [m|d o] q e E; cbn [Find daemon_store]; by apply law_find_refused.
  - intros r [m|d o] now Hs; cbn [EvictTraces daemon_store]; [by apply law_evict|].
    pose proof (law_evict r (d, o) now Hs) as H. by destruct (EvictTraces (d, o) now).
  - intros r [m|d o] now Hs; cbn [EvictSegments daemon_store]; [by apply law_segments|].
    pose proof (law_segments r (d, o) now Hs) as H. by destruct (EvictSegments (d, o) now).
  - intros r [m|d o] id t Hs; by apply (law_unique r).
  - intros r [m|d o] id Hs; cbn [Close daemon_store].
    + pose proof (law_close r m id Hs) as H. by destruct (Close m).
    + pose proof (law_close r (d, o) id Hs) as H. by destruct (Close (d, o)) as [[d' o'] b].
Defined.
