(* ===== verification/DaemonProps.v ===== *)
(** * The properties of the daemon

    What the command line accepts, when the daemon starts, and what its policy
    chain decides. *)

From S2P Require Import Prelude GoTime GoBytes GoStrings GoFloat Ident Value Span Codec Otlp Frame Query.
From S2P Require Memory MemorySpec.
From S2P Require Import Assembly Forest AssemblySpec BuildProps Policy Os.
From S2P Require Disk DiskSpec DiskProps.
From S2P Require Import Store Sampler SamplerSpec SamplerProps SamplerFlow SamplerLedger SamplerRun Ingest Daemon.

#[local] Abbreviation bytes_of := list_byte_of_string.

(** ** The command line *)

Section flags.
Context `{ValueParsers}.

(** A setting written as one argument or two, with one dash or two. *)
Definition spelled (x : bool * bool * (list byte * list byte)) : list (list byte) :=
  let '(two, joined, (n, v)) := x in
  let dashed := (if two : bool then [x2d; x2d] else [x2d]) ++ n in
  if joined : bool then [dashed ++ x3d :: v] else [dashed; v].

(** The settings applied in order, up to the first that is refused. *)
Fixpoint set_all (l : list (list byte * list byte)) (st : flags) : result flag_error flags :=
  match l with
  | [] => Ok st
  | (n, v) :: l' => let? st := set_flag n v st in set_all l' st
  end.

Lemma cut_equals_at t v : x3d ∉ t -> cut_equals (t ++ x3d :: v) = (t, Some v).
Proof.
  induction t as [|b t IH]; simpl; [done|]. intros [H1 H2]%not_elem_of_cons.
  rewrite decide_False by done. by rewrite IH.
Qed.

Lemma cut_equals_none t : x3d ∉ t -> cut_equals t = (t, None).
Proof.
  induction t as [|b t IH]; simpl; [done|]. intros [H1 H2]%not_elem_of_cons.
  rewrite decide_False by done. by rewrite IH.
Qed.

(** A name that can be written after a dash. *)
Definition flag_name (n : list byte) : Prop :=
  match n with [] => False | b :: t => b <> x2d /\ b <> x3d /\ x3d ∉ t end.

Lemma formal_names n : is_Some (formal_of n) -> flag_name n.
Proof.
  assert (Forall flag_name formal.*1) as Hf.
  { cbn [fmap list_fmap formal fst]. repeat constructor; vm_decide. }
  rewrite Forall_forall in Hf. unfold formal_of. intros [x Hx].
  destruct (find _ formal) as [p|] eqn:E; [|done]. apply find_some in E as [Hin Hp].
  apply bool_decide_eq_true in Hp as <-. apply Hf, list_elem_of_fmap_2. by apply list_elem_of_In.
Qed.

Lemma flag_token_spelled (two : bool) n r : flag_name n ->
  flag_token (((if two then [x2d; x2d] else [x2d]) ++ n) ++ r) =
    match n with [] => TEnd | b :: t => let '(m, v) := cut_equals (t ++ r) in TFlag (b :: m) v end.
Proof.
  destruct n as [|b t]; [done|]. intros (H1 & H2 & _).
  destruct two; simpl; rewrite ?(decide_False (P := b = x2d)) by done; by rewrite decide_False by naive_solver.
Qed.

Lemma Parse_spelled x rest st : is_Some (formal_of x.2.1) ->
  Parse (spelled x ++ rest) st = (let? st := set_flag x.2.1 x.2.2 st in Parse rest st).
Proof.
  destruct x as [[two joined] [n v]]. simpl. intros Hn. pose proof (formal_names n Hn) as Hname.
  pose proof (flag_token_spelled two n) as Ht. destruct n as [|b t]; [done|].
  destruct Hname as (H1 & H2 & H3). destruct joined; cbn [app Parse].
  - rewrite Ht by done. rewrite cut_equals_at by done. by destruct Hn as [f ->].
  - rewrite <-(app_nil_r (_ ++ b :: t)), Ht by done. rewrite app_nil_r, cut_equals_none by done.
    by destruct Hn as [f ->].
Qed.

Lemma Parse_all l rest : Forall (fun x => is_Some (formal_of x.2.1)) l -> forall st,
  Parse ((l ≫= spelled) ++ rest) st = (let? st := set_all l.*2 st in Parse rest st).
Proof.
  induction 1 as [|x l Hx _ IH]; intros st; [done|]. cbn [mbind list_bind]. rewrite <-app_assoc, Parse_spelled by done.
  destruct x as [y [n v]]. cbn [fmap list_fmap set_all snd fst]. destruct (set_flag n v st) as [st'|e]; [|done].
  apply IH.
Qed.

(** However the settings of the daemon's flags are spelled, with one dash or
    two, the value after an equals sign or as the next argument, reading them
    applies the settings in order, up to the first that is refused; what
    follows an argument that is no flag is ignored. *)
Theorem flags_roundtrip (l : list (bool * bool * (list byte * list byte))) (st : flags) :
  Forall (fun x => is_Some (formal_of x.2.1)) l ->
  Parse (l ≫= spelled) st = set_all l.*2 st /\
  forall s rest, flag_token s = TEnd -> Parse ((l ≫= spelled) ++ s :: rest) st = set_all l.*2 st.
Proof.
  intros Hl. split.
  - rewrite <-(app_nil_r (l ≫= spelled)), Parse_all by done. by destruct (set_all l.*2 st).
  - intros s rest Hs. rewrite Parse_all by done. destruct (set_all l.*2 st); [|done]. simpl. by rewrite Hs.
Qed.
End flags.

#[local] Instance example_parsers : ValueParsers := {|
  ParseDuration s := ParseInt s;
  ParseInt0 s := ParseInt s;
  ParseFloat s := of_Z <$> ParseInt s;
  ParseLevel s := if decide (s = bytes_of "info") then Some 0 else None;
|}.

Example flags_roundtrip_witness :
  sampleBuffer <$> (match Parse [bytes_of "--sample-buffer=7"; bytes_of "-data-dir"; bytes_of "/d"; bytes_of "x"] defaults with
                    | Ok st => Some st.1 | Err _ => None end) = Some 7.
Proof.
  destruct (flags_roundtrip [(true, true, (bytes_of "sample-buffer", bytes_of "7"));
                             (false, false, (bytes_of "data-dir", bytes_of "/d"))] defaults) as [_ H].
  { repeat constructor; vm_decide. }
  specialize (H (bytes_of "x") [] eq_refl).
  assert ([bytes_of "--sample-buffer=7"; bytes_of "-data-dir"; bytes_of "/d"; bytes_of "x"] =
    ([(true, true, (bytes_of "sample-buffer", bytes_of "7")); (false, false, (bytes_of "data-dir", bytes_of "/d"))]
       ≫= spelled) ++ [bytes_of "x"]) as -> by reflexivity.
  rewrite H. vm_compute. reflexivity.
Defined.

(** ** Starting *)

(** The settings the daemon starts with. *)
Record settings_ok (c : config) : Prop := {
  so_retention : 0 <= retention c;
  so_keepSlowerThan : 0 <= keepSlowerThan c;
  so_keepShare : fle fzero (keepShare c) = true /\ fle (keepShare c) fone = true;
  so_quiet : 0 < sampleQuiet c <= sampleMaxAge c;
  so_buffer : 0 < sampleBuffer c;
  so_remember : 0 <= remember c /\ (0 < remember c -> 0 < maxDecisions c);
  so_rate : fle fzero (serviceRate c) = true /\ (flt fzero (serviceRate c) = true -> 1 <= serviceBurst c);
}.

(** The sampler's settings, with the threshold of the share. *)
Definition chain (c : config) (th : Z) : list Policy :=
  KeepErrors :: (if 0 <? keepSlowerThan c then [KeepSlow (keepSlowerThan c)] else []) ++ [KeepFraction th].

Lemma samplerConfig_ok c sc : samplerConfig c = Ok sc <->
  exists th, NewKeepFraction (keepShare c) = Ok th /\
    sc = MkConfig (sampleQuiet c) (sampleMaxAge c) (sampleBuffer c) (chain c th) (remember c) (maxDecisions c)
           (serviceRate c) (serviceBurst c).
Proof.
  unfold samplerConfig, chain. destruct (NewKeepFraction (keepShare c)) as [th|e].
  - split; [intros [= <-]; exists th|intros (th' & [= <-] & ->)]; destruct (0 <? keepSlowerThan c); done.
  - split; [done|]. by intros (th & ? & _).
Qed.

Lemma chain_safe c th : Forall SafePolicy (chain c th).
Proof. unfold chain. destruct (0 <? keepSlowerThan c); simpl; repeat constructor; apply _. Qed.

(** [New] checks what [samplerConfig] does not. *)
Lemma New_accepts sc : (exists s, New sc false = Ok s) <->
  0 < Quiet sc <= MaxAge sc /\ 0 < MaxSpans sc /\ 0 <= Remember sc /\ (0 < Remember sc -> 0 < MaxDecisions sc) /\
  fle fzero (ServiceRate sc) = true /\ (flt fzero (ServiceRate sc) = true -> 1 <= ServiceBurst sc).
Proof.
  unfold New. split.
  - intros [s E]. repeat case_match; try done; rewrite ?andb_false_iff, ?negb_false_iff, ?Z.leb_gt, ?Z.ltb_ge in *.
    split_and!; try done; try lia. intros Hr.
    match goal with H : _ \/ 1 <= _ |- _ => destruct H; [congruence|done] end.
  - intros (H1 & H2 & H3 & H4 & H5 & H6).
    destruct (Z.leb_spec (Quiet sc) 0); [lia|]. destruct (Z.ltb_spec (MaxAge sc) (Quiet sc)); [lia|].
    destruct (Z.leb_spec (MaxSpans sc) 0); [lia|]. destruct (Z.ltb_spec (Remember sc) 0); [lia|].
    destruct (Z.ltb_spec 0 (Remember sc)), (Z.leb_spec (MaxDecisions sc) 0); simpl; try lia.
    all: rewrite H5; simpl; destruct (flt fzero (ServiceRate sc)); simpl; [|by eexists].
    all: destruct (Z.ltb_spec (ServiceBurst sc) 1); [specialize (H6 eq_refl); lia|by eexists].
Qed.

Lemma NewKeepFraction_accepts share :
  (exists th, NewKeepFraction share = Ok th) <-> fle fzero share = true /\ fle share fone = true.
Proof.
  unfold NewKeepFraction. rewrite <-andb_true_iff. destruct (_ && _); simpl; split; try done; [by eexists|by intros []].
Qed.

Lemma start_ok `{ValueParsers} args now now' o grpc http c s st :
  start args now now' o grpc http = Started c s st ->
  parseFlags args = Ok c /\ grpc = true /\ http = true /\ openStore c now now' o = Ok st /\ settings_ok c /\
  exists sc, samplerConfig c = Ok sc /\ initial sc (MkWorld s Idle []) /\ Forall SafePolicy (Policies sc).
Proof.
  unfold start. destruct (parseFlags args) as [c'|] eqn:E1; [|done].
  destruct (samplerConfig c') as [sc|] eqn:E2; [|done]. destruct (openStore c' now now' o) as [st'|] eqn:E3; [|done].
  destruct (New sc false) as [s'|] eqn:E4; [|done]. destruct grpc, http; try done. intros [= -> -> ->].
  assert (0 <= retention c /\ 0 <= keepSlowerThan c) as [Hr Hk].
  { revert E1. unfold parseFlags. destruct (Parse args defaults) as [[c0 l]|]; [|done].
    destruct (ParseLevel l); [|done]. destruct (Z.ltb_spec (retention (set_level z c0)) 0); [done|].
    destruct (Z.ltb_spec (keepSlowerThan (set_level z c0)) 0); [done|]. by intros [= <-]. }
  pose proof E2 as (th & Eth & ->)%samplerConfig_ok.
  pose proof (proj1 (NewKeepFraction_accepts (keepShare c)) (ex_intro _ th Eth)) as Hs.
  destruct (proj1 (New_accepts _) (ex_intro _ s E4)) as (N1 & N2 & N3 & N4 & N5 & N6). simpl in *.
  split_and!; try done. eexists. split_and!; [done|by constructor|apply chain_safe].
Qed.

Definition store_closed (st : store) : Prop :=
  match st with InMemory m => Memory.closed m = true | OnDisk d _ => Disk.dclosed d = true end.

Lemma Close_closes st : store_closed (Close st).1.
Proof.
  destruct st as [m|d o]; [done|]. cbn [Close daemon_store disk_store fst snd]. unfold Disk.Close.
  destruct (Disk.dclosed d) eqn:E; [done|]. by destruct (match Disk.seg d with Some f => _ | None => _ end).
Qed.

(** C28: the daemon starts exactly when its command line is well-formed and in
    range, the store opens and both addresses are free; it starts with an
    empty sampler whose policies always give an answer.  When it does not
    start, a store it had opened is closed again. *)
Theorem start_spec `{ValueParsers} (args : list (list byte)) (now now' : Time) (o : os) (grpc http : bool) :
  ((exists c s st, start args now now' o grpc http = Started c s st) <->
   exists c st, parseFlags args = Ok c /\ settings_ok c /\ openStore c now now' o = Ok st /\ grpc = true /\ http = true) /\
  (forall c s st, start args now now' o grpc http = Started c s st ->
    openStore c now now' o = Ok st /\ settings_ok c /\
    exists sc, samplerConfig c = Ok sc /\ initial sc (MkWorld s Idle []) /\ Forall SafePolicy (Policies sc)) /\
  forall e left, start args now now' o grpc http = NotStarted e left ->
    match left with
    | Some st' => store_closed st' /\ exists c st, parseFlags args = Ok c /\ openStore c now now' o = Ok st /\ st' = (Close st).1
    | None => forall c st sc, parseFlags args = Ok c -> samplerConfig c = Ok sc -> openStore c now now' o <> Ok st
    end.
Proof.
  split; [split|split].
  - intros (c & s & st & (H1 & H2 & H3 & H4 & H5 & _)%start_ok). by exists c, st.
  - intros (c & st & E1 & [S1 S2 S3 S4 S5 S6 S7] & E3 & -> & ->). unfold start. rewrite E1.
    destruct (proj2 (NewKeepFraction_accepts (keepShare c)) S3) as [th Eth].
    rewrite (proj2 (samplerConfig_ok c _) (ex_intro _ th (conj Eth eq_refl))), E3.
    set (sc := MkConfig _ _ _ _ _ _ _ _).
    assert (exists s, New sc false = Ok s) as [s ->]; [|by exists c, s, st].
    apply New_accepts. simpl. destruct S4, S6, S7. split_and!; assumption.
  - intros c s st E. apply start_ok in E. tauto.
  - intros e left. unfold start. destruct (parseFlags args) as [c|]; [|by intros [= _ <-]].
    destruct (samplerConfig c) as [sc|] eqn:E2; [|intros [= _ <-]; congruence].
    destruct (openStore c now now' o) as [st|] eqn:E3; [|intros [= _ <-]; congruence].
    destruct (New sc false), grpc, http; simpl; intros [= _ <-]; (split; [apply Close_closes|by exists c, st]).
Qed.

(** With no arguments the daemon starts. *)
Example defaults_start : exists c s st, start [] 0 0 (MkOs ∅ []) true true = Started c s st /\
  sampleBuffer c = 200000 /\ st = InMemory (Memory.NewMemory (72 * Hour)).
Proof. do 3 eexists. split; [reflexivity|split; reflexivity]. Qed.

(** ** The policy chain *)

Lemma Decide_chain c th spans t : built spans t ->
  exists d, Duration_of t = Some d /\
    Decide t (chain c th) = Some (
      if existsb (fun x => Failed x.2) (map_to_list (span_map spans)) then MkVerdict true "error"
      else if (0 <? keepSlowerThan c) && (keepSlowerThan c <? d) then MkVerdict true "slow"
      else if random56 (tTraceID t) <? th then MkVerdict true "sampled"
      else MkVerdict false "sampled out").
Proof.
  intros Hb.
  assert (exists d, Duration_of t = Some d) as [d Hd].
  { pose proof (built_roots _ _ Hb) as Hr. unfold Duration_of. destruct (Roots t); [done|].
    destruct (foldl _ _ _). by eexists. }
  exists d. split; [done|]. unfold chain. cbn [Decide].
  destruct (keep_errors_eval spans t Hb) as [[(id & s & Hs & Hf) ->]|[Hno ->]].
  { assert (existsb (fun x => Failed x.2) (map_to_list (span_map spans)) = true) as ->; [|done].
    apply existsb_exists. exists (id, s). split; [|done]. by apply list_elem_of_In, elem_of_map_to_list. }
  assert (existsb (fun x => Failed x.2) (map_to_list (span_map spans)) = false) as ->.
  { apply not_true_iff_false. intros ([id s] & Hin & Hf)%existsb_exists.
    apply list_elem_of_In, elem_of_map_to_list, Hno in Hin. simpl in Hf. congruence. }
  cbn [mbind option_bind abstain].
  assert (forall v, Decide t [KeepFraction th] = Some v <->
    v = (if random56 (tTraceID t) <? th then MkVerdict true "sampled" else MkVerdict false "sampled out")) as Hf.
  { intros v. cbn [Decide]. rewrite (proj2 (keep_fraction_eval th t)). cbn [mbind option_bind].
    destruct (_ <? _); split; intros H; try (by injection H as <-); by rewrite H. }
  destruct (0 <? keepSlowerThan c); cbn [app andb]; [|by apply Hf].
  change (Decide t (KeepSlow (keepSlowerThan c) :: [KeepFraction th])) with
    ('(v, ok) ← Evaluate (KeepSlow (keepSlowerThan c)) t; if (ok : bool) then Some v else Decide t [KeepFraction th]).
  cbn [KeepSlow Evaluate]. rewrite Hd. cbn [mbind option_bind].
  destruct (keepSlowerThan c <? d); [done|]. by apply Hf.
Qed.

(** C27: the chain the daemon installs keeps a trace in which a surviving span
    failed; of the others, one that took longer than [-keep-slower-than], when
    that is on; and of the rest those whose identifier falls in the share. *)
Theorem policy_chain_spec (c : config) (sc : Sampler.Config) (spans : list Span) (t : Tree) :
  samplerConfig c = Ok sc -> built spans t ->
  exists th d, NewKeepFraction (keepShare c) = Ok th /\ Duration_of t = Some d /\
    Decide t (Policies sc) = Some (
      if existsb (fun x => Failed x.2) (map_to_list (span_map spans)) then MkVerdict true "error"
      else if (0 <? keepSlowerThan c) && (keepSlowerThan c <? d) then MkVerdict true "slow"
      else if random56 (tTraceID t) <? th then MkVerdict true "sampled"
      else MkVerdict false "sampled out").
Proof.
  intros (th & Eth & ->)%samplerConfig_ok Hb. cbn [Policies].
  destruct (Decide_chain c th spans t Hb) as (d & Hd & Hv). by exists th, d.
Qed.

Example policy_chain_spec_witness :
  exists sc, samplerConfig defaults.1 = Ok sc /\
    Decide example_tree (Policies sc) = Some (MkVerdict true "sampled").
Proof.
  destruct (samplerConfig defaults.1) as [sc|e] eqn:E; [|discriminate E]. exists sc. split; [reflexivity|].
  destruct (policy_chain_spec _ sc example_spans example_tree E example_built) as (th & d & Hth & Hd & H).
  assert (NewKeepFraction (keepShare defaults.1) = Ok 7205759403792794) as Eth by (vm_compute; reflexivity).
  assert (Duration_of example_tree = Some 80) as Ed by (vm_compute; reflexivity).
  rewrite Eth in Hth. injection Hth as <-. rewrite Ed in Hd. injection Hd as <-. rewrite H. vm_compute. reflexivity.
Defined.

(** [-keep-share 1 -service-rate 0] keeps everything, whatever is judged and
    whatever the clock says. *)
Lemma keep_everything (c : config) (sc : Sampler.Config) :
  samplerConfig c = Ok sc -> keepShare c = fone -> serviceRate c = fzero -> keeps_all sc.
Proof.
  intros (th & Eth & Esc)%samplerConfig_ok Hshare Hrate s now p s' v Hcfg Hp E.
  assert (th = 2 ^ 56) as ->.
  { rewrite Hshare in Eth. assert (NewKeepFraction fone = Ok (2 ^ 56)) as E1 by (vm_compute; reflexivity).
    rewrite E1 in Eth. by injection Eth. }
  destruct (pending_built p Hp) as (t & Et & Hb). destruct (Decide_chain c (2 ^ 56) (pspans p) t Hb) as (d & _ & Ed).
  assert (exists v, Decide t (chain c (2 ^ 56)) = Some v /\ Keep v = true) as (v0 & Ev & Hk).
  { rewrite Ed. eexists. split; [done|]. destruct (existsb _ _); [done|]. destruct (_ && _); [done|].
    destruct (keep_fraction_eval (2 ^ 56) t) as [[_ Hr] _]. by destruct (Z.ltb_spec (random56 (tTraceID t)) (2 ^ 56)); [|lia]. }
  unfold decide_verdict in E. rewrite Et, Hcfg, Esc in E. cbn [Policies ServiceRate] in E. rewrite Ev in E.
  cbn [mbind option_bind] in E. rewrite Hrate, Hk in E. change (flt fzero fzero) with false in E. simpl in E. by injection E as _ <-.
Qed.
