(* ===== verification/DaemonRun.v ===== *)
(** * The life of the daemon

    The sampler and the store together, as a state machine of exports, pieces
    of sweeps, writes and evictions; what becomes of the traces it keeps: they
    are served while it runs, on disk when it has stopped, and served again
    when it is started on the same directory. *)

From S2P Require Import Prelude GoTime GoBytes GoStrings GoFloat Ident Value Span Codec Otlp Frame Query.
From S2P Require Memory MemorySpec.
From S2P Require Import Assembly Forest AssemblySpec BuildProps Policy Os.
From S2P Require Disk DiskSpec DiskProps.
From S2P Require Import Store Sampler SamplerSpec SamplerProps SamplerFlow SamplerLedger SamplerRun Ingest Daemon DaemonProps.

#[local] Abbreviation bytes_of := list_byte_of_string.

(** ** What has been written *)

(** The spans of the writes that did not fail, in order. *)
Definition wrote (x : write) : list Span := if wfailed x then [] else wspans x.
Definition written (lg : list write) : list Span := lg ≫= wrote.

(** Those of the writes made in hour [h], if [hours] has the hour of each
    write. *)
Definition filed (hours : list Z) (lg : list write) (h : Z) : list Span :=
  zip hours lg ≫= fun p => if p.1 =? h then wrote p.2 else [].

(** The segments hold what they held before, and then what was written. *)
Definition segments_hold (hours : list Z) (old : Z -> list Span) (lg : list write) (A : Z -> list Span) : Prop :=
  length hours = length lg /\ Forall in_int64 hours /\ forall h, A h = old h ++ filed hours lg h.

(** The same, said of what the segment files of a directory read as. *)
Definition segments_read (o : os) (hours : list Z) (old : Z -> list Span) (lg : list write) : Prop :=
  length hours = length lg /\ Forall in_int64 hours /\
  forall h, in_int64 h -> DiskSpec.segment_spans o h = old h ++ filed hours lg h.

(** The clock has not run back over an hour, nor behind what was there. *)
Definition in_order (hours : list Z) (old : Z -> list Span) : Prop :=
  StronglySorted Z.le hours /\ forall h h', h ∈ hours -> h < h' -> old h' = [].

Lemma elem_of_written lg sp : sp ∈ written lg <-> exists x, x ∈ lg /\ wfailed x = false /\ sp ∈ wspans x.
Proof.
  unfold written, wrote. rewrite list_elem_of_bind. split.
  - intros (x & Hsp & Hx). exists x. destruct (wfailed x); [by apply elem_of_nil in Hsp|done].
  - intros (x & Hx & Hf & Hsp). exists x. by rewrite Hf.
Qed.

Lemma written_snoc lg x : written (lg ++ [x]) = written lg ++ wrote x.
Proof. unfold written. rewrite bind_app. cbn [mbind list_bind]. by rewrite app_nil_r. Qed.

Lemma filed_snoc hours lg h0 x h : length hours = length lg ->
  filed (hours ++ [h0]) (lg ++ [x]) h = filed hours lg h ++ (if h0 =? h then wrote x else []).
Proof.
  intros Hl. unfold filed. rewrite zip_with_app, bind_app by done. cbn [zip_with mbind list_bind fst snd]. by rewrite app_nil_r.
Qed.

Lemma filed_elem hours lg h sp : sp ∈ filed hours lg h -> h ∈ hours.
Proof.
  unfold filed. intros ([h' x] & Hsp & Hin)%list_elem_of_bind. cbn [fst snd] in Hsp.
  destruct (Z.eqb_spec h' h) as [->|]; [|by apply elem_of_nil in Hsp]. by apply elem_of_zip_l in Hin.
Qed.

Lemma written_filed hours lg sp : length hours = length lg -> sp ∈ written lg -> exists h, sp ∈ filed hours lg h.
Proof.
  revert hours. induction lg as [|x lg IH] using rev_ind; intros hours Hl Hsp; [by apply elem_of_nil in Hsp|].
  rewrite length_app in Hl. simpl in Hl. destruct hours as [|h0 hours _] using rev_ind; [simpl in Hl; lia|].
  rewrite length_app in Hl. simpl in Hl. rewrite written_snoc in Hsp.
  apply elem_of_app in Hsp as [Hsp|Hsp]; [destruct (IH hours ltac:(lia) Hsp) as [h Hh]; exists h|exists h0];
    rewrite filed_snoc by lia; apply elem_of_app; [by left|right; by rewrite Z.eqb_refl].
Qed.

Lemma segments_hold_snoc hours old lg A h0 x : in_int64 h0 -> segments_hold hours old lg A ->
  segments_hold (hours ++ [h0]) old (lg ++ [x]) (DiskSpec.ack A h0 (wrote x)).
Proof.
  intros Hh (Hl & Hr & HA). split_and!; [rewrite !length_app; simpl; lia|apply Forall_app; split; [done|by apply Forall_singleton]|].
  intros h. rewrite filed_snoc by done.
  unfold DiskSpec.ack. rewrite HA. rewrite (Z.eqb_sym h0 h). destruct (h =? h0); [by rewrite app_assoc|by rewrite app_nil_r].
Qed.

Lemma in_order_prefix hours h0 old : in_order (hours ++ [h0]) old -> in_order hours old /\ Forall (fun h => h <= h0) hours.
Proof.
  intros [Hs Ho]. split; [split|].
  - clear Ho. induction hours as [|h hours IH]; [constructor|]. apply StronglySorted_inv in Hs as [Hs Hh].
    apply Forall_app in Hh as [Hh _]. constructor; auto.
  - intros h h' Hh. apply Ho. apply elem_of_app. by left.
  - clear Ho. induction hours as [|h hours IH]; [constructor|]. apply StronglySorted_inv in Hs as [Hs Hh].
    apply Forall_app in Hh as [_ Hh]. apply Forall_cons in Hh as [Hh _]. constructor; [exact Hh|by apply IH].
Qed.

(** Written in order, the segments one after the other are what was there and
    then what was written. *)
Lemma concat_filed hs old lg : StronglySorted Z.lt hs -> forall hours,
  length hours = length lg -> in_order hours old -> (forall h, filed hours lg h <> [] -> h ∈ hs) ->
  concat ((fun h => old h ++ filed hours lg h) <$> hs) = concat (old <$> hs) ++ written lg.
Proof.
  intros Hs. induction lg as [|x lg IH] using rev_ind; intros hours Hl Hin Hhs.
  { unfold written, filed. rewrite zip_with_nil_r, app_nil_r. cbn [mbind list_bind]. f_equal.
    apply list_fmap_ext. intros. by rewrite app_nil_r. }
  rewrite length_app in Hl. simpl in Hl. destruct hours as [|h0 hours _] using rev_ind; [simpl in Hl; lia|].
  rewrite length_app in Hl. simpl in Hl. assert (length hours = length lg) as Hl' by lia. clear Hl.
  destruct (in_order_prefix _ _ _ Hin) as [Hin' Hle]. destruct Hin as [_ Hold].
  assert (forall h, filed hours lg h <> [] -> h ∈ hs) as Hhs'.
  { intros h Hh. apply Hhs. rewrite filed_snoc by done. intros [E _]%app_nil. done. }
  specialize (IH hours Hl' Hin' Hhs'). rewrite written_snoc, app_assoc, <-IH. clear IH.
  destruct (wrote x) as [|sp l] eqn:Ex.
  { rewrite app_nil_r. f_equal. apply list_fmap_ext. intros i h _. rewrite filed_snoc by done. rewrite Ex.
    by destruct (h0 =? h); rewrite app_nil_r. }
  assert (h0 ∈ hs) as Hh0.
  { apply Hhs. rewrite filed_snoc by done. rewrite Z.eqb_refl, Ex. by destruct (filed hours lg h0). }
  apply list_elem_of_split in Hh0 as (hs1 & hs2 & ->).
  assert (Forall (fun h => h < h0) hs1 /\ Forall (fun h => h0 < h) hs2) as [H1 H2].
  { clear -Hs. induction hs1 as [|h hs1 IH]; [split; [constructor|]; by apply StronglySorted_inv in Hs as [_ ?]|].
    cbn [app] in Hs. apply StronglySorted_inv in Hs as [Hs Hh]. apply Forall_app in Hh as [_ Hh]. apply Forall_cons in Hh as [Hh _].
    destruct (IH Hs). split; [by constructor|done]. }
  assert (forall h, h <> h0 -> filed (hours ++ [h0]) (lg ++ [x]) h = filed hours lg h) as Hne.
  { intros h Hh. rewrite filed_snoc by done. destruct (Z.eqb_spec h0 h); [congruence|]. by rewrite app_nil_r. }
  assert (forall k : list Z, (forall h, h ∈ k -> h <> h0) ->
    (fun h => old h ++ filed (hours ++ [h0]) (lg ++ [x]) h) <$> k = (fun h => old h ++ filed hours lg h) <$> k) as Hmap.
  { intros k Hk. apply list_fmap_ext. intros i h Hh%list_elem_of_lookup_2. by rewrite Hne by auto. }
  assert (concat ((fun h => old h ++ filed hours lg h) <$> hs2) = []) as Hnil.
  { clear -H2 Hold Hle. induction H2 as [|h hs2 Hh _ IH]; [done|]. rewrite fmap_cons. cbn [concat]. rewrite IH, app_nil_r.
    rewrite (Hold h0 h) by (done || set_solver). destruct (filed hours lg h) as [|y l] eqn:E; [done|].
    assert (h ∈ hours) as Hin by (apply (filed_elem _ lg _ y); rewrite E; left). rewrite Forall_forall in Hle.
    specialize (Hle h Hin). lia. }
  rewrite !fmap_app, !concat_app, !fmap_cons. cbn [concat]. rewrite Forall_forall in H1, H2.
  rewrite !Hmap by (intros h Hh; (specialize (H1 h Hh) || specialize (H2 h Hh)); lia).
  rewrite Hnil, filed_snoc, Z.eqb_refl, Ex, !app_nil_r, <-!app_assoc by done. done.
Qed.

(** Replaying such segments. *)
Lemma replayed_in_order o A t hours old lg : DiskSpec.shape o A t -> segments_read o hours old lg -> in_order hours old ->
  DiskSpec.replayed o = concat (old <$> DiskSpec.hours o) ++ written lg.
Proof.
  intros S (Hl & Hr & Hread) Ho. unfold DiskSpec.replayed.
  rewrite <-(concat_filed _ _ _) with (hours := hours); [|apply DiskProps.hours_increasing; by eexists _, _|done..|].
  - f_equal. apply list_fmap_ext. intros i h Hh%list_elem_of_lookup_2. apply Hread. by apply (DiskSpec.elem_of_hours _ _ _ _ S) in Hh as [? _].
  - intros h Hh. assert (in_int64 h) as Hin.
    { destruct (filed hours lg h) as [|y l] eqn:E; [done|]. rewrite Forall_forall in Hr. apply Hr, (filed_elem _ lg _ y). rewrite E. left. }
    apply (DiskSpec.elem_of_hours _ _ _ _ S). split; [done|]. specialize (Hread h Hin). unfold DiskSpec.segment_spans in Hread.
    destruct (files o !! Disk.path h) as [[|x]|]; [|by eexists|]; by symmetry in Hread; apply app_nil in Hread as [_ ?].
Qed.

Lemma segments_hold_read o A t hours old lg : DiskSpec.shape o A t -> (forall h, DiskSpec.tail_ok (t h)) ->
  segments_hold hours old lg A -> segments_read o hours old lg.
Proof.
  intros S Ht (Hl & Hr & HA). split_and!; [done..|]. intros h Hh. by rewrite (DiskSpec.segment_spans_shape _ _ _ _ S Ht Hh).
Qed.

(** ** The store of a running daemon *)

Definition in_memory (st : store) : Prop := match st with InMemory _ => True | OnDisk _ _ => False end.

(** [A] are the spans acknowledged in each segment. *)
Definition disk_inv (r : Duration) (st : store) (A : Z -> list Span) : Prop :=
  match st with InMemory _ => True | OnDisk d o => DiskSpec.dinv d o A /\ Disk.dretention d = r end.

Definition store_inv (r : Duration) (st : store) (A : Z -> list Span) : Prop := store_ok r st /\ disk_inv r st A.

(** [Write] always returns: it shows and acknowledges the whole batch or
    changes nothing, and in memory it does not fail. *)
Lemma store_write r st A now batch :
  store_inv r st A -> Forall storable batch -> in_int64 (Disk.hour_of now) ->
  exists st' failed, Write st now batch = Some (st', failed) /\
    store_inv r st' (if (failed : bool) then A else DiskSpec.ack A (Disk.hour_of now) batch) /\
    contents st' = (if failed then contents st else awrite (contents st) batch) /\
    (in_memory st <-> in_memory st') /\ (in_memory st -> failed = false).
Proof.
  intros [Hok Hd] Hb Hn. destruct (law_write r st now batch Hok Hb Hn) as (st' & failed & E & Hok' & Hc).
  exists st', failed. split; [done|]. assert (disk_inv r st' (if failed then A else DiskSpec.ack A (Disk.hour_of now) batch) /\
    (in_memory st <-> in_memory st') /\ (in_memory st -> failed = false)) as (Hd' & Hm & Hf); [|by split_and!].
  clear Hc. destruct st as [m|d o]; cbn [Write daemon_store] in E.
  - cbn [Write memory_store] in E. rewrite (mem_write_ok r) in E by (done || by apply storable_valid). by injection E as <- <-.
  - cbn [Write disk_store fst snd] in E. destruct Hd as [I Hr].
    destruct (DiskSpec.Write_spec d o A now batch I Hn (storable_encodable _ Hb)) as (d' & o' & e & E' & _ & Hr' & _ & H).
    rewrite E' in E. cbn [mbind option_bind fst snd] in E. injection E as <- <-. split; [|done]. simpl. rewrite Hr', Hr.
    destruct e; split; try done; by destruct_and?.
Qed.

Lemma on_disk_surviving d o o' A : DiskSpec.dinv d o A -> files o' = files o -> forall h, DiskSpec.surviving o' A h = A h.
Proof.
  intros [(junk & _ & S) _ _ _] E h. unfold DiskSpec.surviving. rewrite E.
  destruct (A h) as [|x l] eqn:EA; [by destruct (files o !! Disk.path h) as [[]|]|].
  destruct (DiskSpec.sh_exists _ _ _ S h) as (_ & c & ->); [by rewrite EA|done].
Qed.

(** What the other operations do to the segments, of an open or a closed store:
    without retention nothing. *)
Lemma disk_evict_traces r st A now : disk_inv r st A -> disk_inv r (EvictTraces st now) A.
Proof.
  destruct st as [m|d o]; [done|]. intros [I Hr]. cbn [EvictTraces daemon_store disk_store fst snd].
  destruct (DiskSpec.evict_memory_spec d o A now I) as [E I']. split; [done|]. by rewrite E.
Qed.

Lemma disk_evict_segments r st A now : disk_inv r st A ->
  exists A', disk_inv r (EvictSegments st now) A' /\ (r <= 0 -> forall h, A' h = A h).
Proof.
  destruct st as [m|d o]; [by exists A|]. intros [I Hr]. cbn [EvictSegments daemon_store disk_store fst snd].
  destruct (DiskSpec.evict_disk_spec d o A now I) as (_ & _ & Hf & I'). eexists. split; [by split|].
  intros Hr0. apply (on_disk_surviving d o _ A I), Hf. lia.
Qed.

Lemma disk_close r st A : disk_inv r st A -> disk_inv r (Close st).1 A.
Proof.
  destruct st as [m|d o]; [done|]. intros [I Hr]. cbn [Close daemon_store disk_store fst snd].
  pose proof (DiskSpec.Close_spec d o A I) as H. pose proof (DiskProps.Close_retention d o) as Hr'.
  destruct (Disk.Close d o) as [[d' o'] b]. cbn [fst snd] in *. split; [by destruct H|congruence].
Qed.

Lemma Close_on_disk st : in_memory (Close st).1 <-> in_memory st.
Proof. destruct st as [m|d o]; cbn [Close daemon_store]; [done|]. by destruct (Close (d, o)) as [[d' o'] b]. Qed.

Lemma openStore_inv c now now' o st : left_behind o -> openStore c now now' o = Ok st ->
  exists A, store_inv (retention c) st A.
Proof.
  intros (A & t & S & Ht). unfold openStore. destruct (dataDir c).
  - intros [= <-]. exists (fun _ => []). split; [apply mem_ok_new|done].
  - destruct (Disk.OpenDisk (retention c) now now' o) as [[d|] o'] eqn:E; [|done]. intros [= <-].
    destruct (OpenDisk_ok _ _ _ _ _ _ _ _ S Ht E) as (Hok & I & _). eexists. split; [exact Hok|]. split; [exact I|]. apply Hok.
Qed.

(** The record of [sp] is in a segment file. *)
Definition in_segment (o : os) (sp : Span) : Prop :=
  exists h c l junk, files o !! Disk.path h = Some (File c) /\ c = records l ++ junk /\ Forall good_span l /\ sp ∈ l.

Lemma acked_in_segment d o A h sp : DiskSpec.dinv d o A -> sp ∈ A h -> in_segment o sp.
Proof.
  intros [(junk & _ & S) _ _ _] Hsp. destruct (DiskSpec.sh_exists _ _ _ S h) as (Hh & x & Hx).
  { intros E. rewrite E in Hsp. by apply elem_of_nil in Hsp. }
  exists h, x, (A h), (DiskSpec.tail_of d junk h). split_and!; [done|by apply (DiskSpec.sh_content _ _ _ S)| |done].
  apply (DiskSpec.sh_good _ _ _ S).
Qed.

(** All that has been written is in segments, whose spans are [A]. *)
Lemma held_acked hours old lg A sp : segments_hold hours old lg A -> sp ∈ written lg -> exists h, sp ∈ A h.
Proof.
  intros (Hl & _ & HA) Hsp. destruct (written_filed _ _ _ Hl Hsp) as [h Hh]. exists h. rewrite HA. apply elem_of_app. by right.
Qed.

(** ** The daemon as a state machine *)

Record daemon : Type := MkDaemon { dmn : world; dst : store }.

(** A piece of a sweep or a flush, its writes going to the store. *)
Inductive sweeper_step : daemon -> daemon -> Prop :=
| sw_piece w w' st :
    sweep_step w w' -> log w' = log w -> sweeper_step (MkDaemon w st) (MkDaemon w' st)
| sw_write w w' x st st' now :
    sweep_step w w' -> log w' = log w ++ [x] -> in_int64 (Disk.hour_of now) ->
    Write st now (wspans x) = Some (st', wfailed x) -> sweeper_step (MkDaemon w st) (MkDaemon w' st').

Section daemon.
Context `{ProtoTypes} `{ValueParsers} (error_text : otlp_error -> list byte).

(** The settings, and a time by which whatever has been evicted had ended. *)
Context (c : config) (T : Time).

(** What happens beside the sweeps: exports, and the two pieces of evictions. *)
Inductive aside_step : daemon -> daemon -> Prop :=
| as_export s pc lg st now req :
    aside_step (MkDaemon (MkWorld s pc lg) st)
      (MkDaemon (MkWorld (export (Sink0 := sampler_sink now) error_text s req).1 pc lg) st)
| as_evict_traces w st now :
    (0 < retention c -> now - retention c <= T) -> aside_step (MkDaemon w st) (MkDaemon w (EvictTraces st now))
| as_evict_segments w st now : aside_step (MkDaemon w st) (MkDaemon w (EvictSegments st now)).

(** Exports, the pieces of sweeps, and those of evictions, in any order. *)
Inductive daemon_step (d d' : daemon) : Prop :=
| dm_aside : aside_step d d' -> daemon_step d d'
| dm_sweeper : sweeper_step d d' -> daemon_step d d'.

(** A daemon started with settings [c]. *)
Inductive daemon_initial : daemon -> Prop :=
| dm_start args now now' o s st :
    left_behind o -> start args now now' o true true = Started c s st ->
    daemon_initial (MkDaemon (MkWorld s Idle []) st).

Definition daemon_reachable (d : daemon) : Prop := exists d0, daemon_initial d0 /\ rtc daemon_step d0 d.

(** A span no eviction has reached. *)
Definition retained (sp : Span) : Prop := retention c <= 0 \/ T <= End_ sp.

(** What holds even once the store is closed. *)
Record daemon_rest (d : daemon) : Prop := {
  dr_sampler : exists sc, samplerConfig c = Ok sc /\ reachable sc (dmn d) /\ Forall SafePolicy (Policies sc);
  dr_only : only (fun _ => storable) (dmn d);
  dr_disk : exists A, disk_inv (retention c) (dst d) A /\
    (retention c <= 0 -> exists hours old, segments_hold hours old (log (dmn d)) A);
}.

Record daemon_inv (d : daemon) : Prop := {
  dv_rest : daemon_rest d;
  dv_open : store_ok (retention c) (dst d);
  dv_served sp : sp ∈ written (log (dmn d)) -> retained sp -> served (contents (dst d)) (written (log (dmn d))) sp;
}.

Lemma daemon_inv_initial d : daemon_initial d -> daemon_inv d.
Proof.
  intros [args now now' o s st Ho Es]. destruct (start_ok _ _ _ _ _ _ _ _ _ Es) as (_ & _ & _ & Eo & _ & sc & Esc & Hi & Hp).
  destruct (openStore_inv _ _ _ _ _ Ho Eo) as [A [Hok HA]]. split; [split|done|]; simpl.
  - exists sc. split_and!; [done| |done]. eexists. split; [exact Hi|apply rtc_refl].
  - by eapply initial_only.
  - exists A. split; [done|]. intros _. exists [], A. split_and!; [done|constructor|]. intros h. by rewrite app_nil_r.
  - intros sp Hsp. by apply elem_of_nil in Hsp.
Qed.

Lemma Translate_handed req : Forall (fun sp => storable sp) (Translate req).1.
Proof. apply Forall_forall. exact (Translate_storable req). Qed.

Lemma export_accepts s now req : exists spans, Forall storable spans /\
  ((export (Sink0 := sampler_sink now) error_text s req).1 = s \/
   (export (Sink0 := sampler_sink now) error_text s req).1 = (Sampler.Accept s now spans).1).
Proof.
  unfold export. pose proof (Translate_handed req) as Ht. destruct (Translate req) as [spans rejections]. simpl in Ht.
  exists spans. split; [exact Ht|]. destruct spans as [|sp spans]; [by left|]. right.
  simpl. by destruct (Sampler.Accept s now (sp :: spans)) as [s' []].
Qed.

Lemma reachable_step sc w w' : reachable sc w -> step w w' -> reachable sc w'.
Proof. intros (w0 & Hz & Hs) Hst. exists w0. split; [done|]. by eapply rtc_r. Qed.

Lemma log_storable w x : only (fun _ => storable) w -> x ∈ log w -> Forall storable (wspans x).
Proof. intros [_ _ Hl] Hx. rewrite Forall_forall in Hl. by destruct (Hl x Hx) as [id Hid]. Qed.

Lemma daemon_rest_aside d d' : daemon_rest d -> aside_step d d' -> daemon_rest d'.
Proof.
  intros [(sc & Esc & Hw & Hp) Ho (A & HA & Hh)] Hst. destruct Hst as [s pc lg st now req|w st now Hnow|w st now]; cbn [dmn dst] in *.
  - destruct (export_accepts s now req) as (spans & Hsp & [->| ->]); [split; [by exists sc|done|by exists A]|].
    split; cbn [dmn dst]; [|destruct Ho; split; [by apply Accept_only|done..]|by exists A].
    exists sc. split_and!; [done| |done]. eapply reachable_step; [exact Hw|constructor].
  - split; cbn [dmn dst]; [by exists sc|done|]. exists A. split; [by apply disk_evict_traces|done].
  - split; cbn [dmn dst]; [by exists sc|done|]. destruct (disk_evict_segments _ st A now HA) as (A' & HA' & E).
    exists A'. split; [done|]. intros Hr. destruct (Hh Hr) as (hours & old & Hl & Hrange & Hold). exists hours, old.
    split_and!; [done..|]. intros h. by rewrite E.
Qed.

Lemma daemon_inv_aside d d' : daemon_inv d -> aside_step d d' -> daemon_inv d'.
Proof.
  intros [Hrest Hok Hsv] Hst. split; [by eapply daemon_rest_aside|..];
    destruct Hst as [s pc lg st now req|w st now Hnow|w st now]; cbn [dmn dst log] in *; try done.
  - by apply law_evict.
  - by apply law_segments.
  - intros sp Hsp Hr. destruct (law_evict _ _ now Hok) as [_ ->]. apply aevict_served; [|by apply Hsv].
    destruct (decide (retention c <= 0)); [by left|]. right. destruct Hr as [|Hr]; [done|]. specialize (Hnow ltac:(lia)). lia.
  - intros sp Hsp Hr. destruct (law_segments _ _ now Hok) as [_ ->]. by apply Hsv.
Qed.

Lemma daemon_rest_piece w w' st : daemon_rest (MkDaemon w st) -> sweep_step w w' -> log w' = log w -> daemon_rest (MkDaemon w' st).
Proof.
  intros [(sc & Esc & Hw & Hp) Ho Hd] Hs Hl. split; cbn [dmn dst] in *; [|by eapply sweep_step_only|by rewrite Hl].
  exists sc. split_and!; [done| |done]. eapply reachable_step; [exact Hw|by constructor].
Qed.

Lemma daemon_inv_sweeper d d' : daemon_inv d -> sweeper_step d d' -> daemon_inv d'.
Proof.
  intros [Hrest Hok Hsv] Hst. destruct Hst as [w w' st Hs Hl|w w' x st st' now Hs Hl Hn Ew].
  { split; [by eapply daemon_rest_piece|done|]. cbn [dmn dst] in *. by rewrite Hl. }
  destruct Hrest as [(sc & Esc & Hw & Hp) Ho (A & HA & Hh)]. cbn [dmn dst] in *.
  pose proof (sweep_step_only _ _ _ Ho Hs) as Ho'. pose proof (log_storable w' x Ho') as Hx. rewrite Hl in Hx.
  destruct (store_write (retention c) st A now (wspans x) (conj Hok HA)) as (st2 & failed & E & [Hok' HA'] & Hc & _);
    [apply Hx; set_solver|done|].
  rewrite Ew in E. injection E as <- <-. split; [split|done|]; cbn [dmn dst].
  - exists sc. split_and!; [done| |done]. eapply reachable_step; [exact Hw|by constructor].
  - done.
  - eexists. split; [exact HA'|]. intros Hr. destruct (Hh Hr) as (hours & old & Hhold).
    exists (hours ++ [Disk.hour_of now]), old. rewrite Hl. destruct (segments_hold_snoc _ _ _ _ (Disk.hour_of now) x Hn Hhold) as (L & Hrange & HAx).
    split_and!; [done..|]. intros h. rewrite <-HAx. unfold wrote, DiskSpec.ack.
    destruct (wfailed x); [|done]. by destruct (h =? _); rewrite ?app_nil_r.
  - rewrite Hl, written_snoc, Hc. unfold wrote. intros sp. destruct (wfailed x); [rewrite app_nil_r; by apply Hsv|].
    intros [Hsp|Hsp]%elem_of_app Hr; [by apply awrite_served, Hsv|by apply awrite_serves].
Qed.

Lemma daemon_inv_step d d' : daemon_inv d -> daemon_step d d' -> daemon_inv d'.
Proof. intros I []; [by eapply daemon_inv_aside|by eapply daemon_inv_sweeper]. Qed.

Lemma daemon_inv_rtc d d' : daemon_inv d -> rtc daemon_step d d' -> daemon_inv d'.
Proof. intros Hi Hs. induction Hs as [|d0 d1 d2 Hst _ IH]; [done|]. by apply IH, (daemon_inv_step d0). Qed.

Lemma daemon_inv_reachable d : daemon_reachable d -> daemon_inv d.
Proof. intros (d0 & Hz & Hs). eapply daemon_inv_rtc; [by apply daemon_inv_initial|exact Hs]. Qed.

(** ** What is kept *)

(** Without retention, what was written is in a segment file. *)
Lemma rest_in_segment d sp : daemon_rest d -> retention c <= 0 -> sp ∈ written (log (dmn d)) ->
  match dst d with InMemory _ => True | OnDisk _ o => in_segment o sp end.
Proof.
  intros [_ _ (A & HA & Hh)] Hr Hsp. destruct (Hh Hr) as (hours & old & Hhold). destruct (dst d) as [m|dk o]; [done|].
  destruct (held_acked _ _ _ _ _ Hhold Hsp) as [h Hin]. by eapply acked_in_segment; [apply HA|].
Qed.

(** C4: whatever exports arrive, however sweeps and evictions interleave and
    whichever calls of the operating system fail: every span the sampler
    decided to keep and whose write did not fail is served, until an eviction
    comes later than its end by more than the retention: the answer for its
    trace has each identifier once, and for this one the last copy written, as
    it was written; and with no retention its record is in a segment file. *)
Theorem kept_spans_served (d : daemon) (sp : Span) :
  daemon_reachable d -> sp ∈ written (log (dmn d)) ->
  (retention c <= 0 \/ T <= End_ sp -> answers_last (Trace (dst d) (TraceID_ sp)) (written (log (dmn d))) sp) /\
  (retention c <= 0 -> match dst d with InMemory _ => True | OnDisk _ o => in_segment o sp end).
Proof.
  intros [Hrest Hok Hsv]%daemon_inv_reachable Hsp. split; intros Hr; [|by apply rest_in_segment].
  eapply served_Trace; [exact Hok|]. by apply Hsv.
Qed.

(** ** A directory opened again *)

(** A directory whose segments hold what was there and then what was written,
    opened without retention: the store has each span in its last copy; and
    if the clock never ran back, in the last one written. *)
Lemma reopened_serves r o A t hours old lg now now' d o' :
  DiskSpec.shape o A t -> (forall h, DiskSpec.tail_ok (t h)) -> segments_hold hours old lg A -> r <= 0 ->
  Disk.OpenDisk r now now' o = (Ok d, o') -> forall sp, sp ∈ written lg ->
  answers_last (Disk.Trace d (TraceID_ sp)) (DiskSpec.replayed o) sp /\
  forall hours old, segments_read o hours old lg -> in_order hours old ->
    answers_last (Disk.Trace d (TraceID_ sp)) (written lg) sp.
Proof.
  intros S Ht Hhold Hr E sp Hsp. assert (sp ∈ DiskSpec.replayed o) as Hin.
  { destruct (held_acked _ _ _ _ _ Hhold Hsp) as [h Hh]. rewrite (DiskSpec.replayed_shape _ _ _ S Ht). unfold DiskSpec.live.
    apply list_elem_of_In, in_concat. exists (A h). split; apply list_elem_of_In; [|done]. apply list_elem_of_fmap_2.
    apply (DiskSpec.elem_of_hours _ _ _ _ S), (DiskSpec.sh_exists _ _ _ S). intros E0. rewrite E0 in Hh. by apply elem_of_nil in Hh. }
  pose proof (opened_serves r now now' o A t d o' sp S Ht Hr E Hin) as Ha. split; [done|]. intros hours' old' Hread Ho.
  destruct Ha as (spans & y & Et & Hnd & Hy & Hlast). exists spans, y. split_and!; [done..|].
  rewrite (replayed_in_order _ _ _ _ _ _ S Hread Ho) in Hlast. by eapply last_copy_suffix.
Qed.

(** ** Stopping *)

Definition on_disk (st : store) (A : Z -> list Span) (sp : Span) : Prop :=
  match st with InMemory _ => True | OnDisk _ _ => exists h, sp ∈ A h end.

(** The environment of the flush: its clock stays in range, the store keeps
    its invariant, what the writes after the first [n] stored is on disk, and in
    memory no write after the first [k] fails. *)
Record env_inv (n k : nat) (e : env) (lg : list write) : Prop := {
  ei_clock : forall i, in_int64 (Disk.hour_of (readings e i));
  ei_log : (n <= length lg)%nat /\ (k <= length lg)%nat;
  ei_store : exists A, store_inv (retention c) (stored e) A /\
    forall sp, sp ∈ written (drop n lg) -> on_disk (stored e) A sp;
  ei_memory : in_memory (stored e) -> Forall (fun x => wfailed x = false) (drop k lg);
}.

Lemma env_now_keeps n k e lg : env_inv n k e lg -> env_inv n k (env_now e).2 lg.
Proof. intros [Hc Hn HA Hm]. split; [|done|exact HA|exact Hm]. intros i. apply (Hc (S i)). Qed.

Lemma env_write_keeps n k e lg late id spans : env_inv n k e lg -> Forall ((fun (_ : TraceID) => storable) id) spans ->
  let '(failed, e') := env_write e spans in env_inv n k e' (lg ++ [MkWrite late spans failed]).
Proof.
  intros [Hc [Hn Hk] (A & HA & Hkept) Hmem] Hsp. unfold env_write, env_now. cbn [stored].
  destruct (store_write (retention c) (stored e) A (readings e 0%nat) spans HA Hsp (Hc _))
    as (st' & failed & -> & HA' & _ & Hin & Hf).
  split; cbn [readings stored]; [intros i; apply (Hc (S i))|rewrite length_app; lia| |].
  - eexists. split; [exact HA'|]. rewrite drop_app_le, written_snoc by done. unfold wrote, on_disk in *. cbn [wfailed wspans].
    intros sp [Hin'|Hin']%elem_of_app; destruct st', (stored e), failed; try done; try (by apply elem_of_nil in Hin');
      try (by destruct Hin as [[] _] || by destruct Hin as [_ []]).
    + by apply Hkept.
    + destruct (Hkept sp Hin') as [h Hh]. exists h. unfold DiskSpec.ack. destruct (_ =? _); [apply elem_of_app; by left|done].
    + exists (Disk.hour_of (readings e 0%nat)). unfold DiskSpec.ack. rewrite Z.eqb_refl. apply elem_of_app. by right.
  - intros Hm%Hin. rewrite drop_app_le by done. apply Forall_app. split; [by apply Hmem|].
    apply Forall_singleton. by apply Hf.
Qed.

(** The first write since when everything stored is still there. *)
Definition kept_from (lg : list write) : nat := if retention c <=? 0 then 0%nat else length lg.

Lemma kept_from_start d : daemon_inv d ->
  (kept_from (log (dmn d)) <= length (log (dmn d)))%nat /\
  exists A, store_inv (retention c) (dst d) A /\
    forall sp, sp ∈ written (drop (kept_from (log (dmn d))) (log (dmn d))) -> on_disk (dst d) A sp.
Proof.
  intros [[_ _ (A & HA & Hh)] Hok _]. unfold kept_from. destruct (Z.leb_spec (retention c) 0) as [Hr|Hr].
  - split; [lia|]. exists A. split; [done|]. intros sp Hsp. destruct (Hh Hr) as (hours & old & Hhold).
    unfold on_disk. destruct (dst d); [done|]. by eapply held_acked.
  - split; [lia|]. exists A. split; [done|]. rewrite drop_all. intros sp Hsp. by apply elem_of_nil in Hsp.
Qed.

Lemma shutdown_path s lg st ord clock :
  daemon_inv (MkDaemon (MkWorld s Idle lg) st) -> map_keys (pendings s) ord ->
  (forall i, in_int64 (Disk.hour_of (clock i))) ->
  exists s' e' st' failed bad lg', shutdown ord s (MkEnv clock st) = Some (s', st', failed, bad) /\
    Close (stored e') = (st', bad) /\ pendings s' = ∅ /\ late s' = ∅ /\
    env_inv (kept_from lg) (length lg) e' lg' /\ rtc sweep_step (MkWorld s Idle lg) (MkWorld s' Idle lg').
Proof.
  intros I Hord Hc. destruct (kept_from_start _ I) as [Hn HA]. destruct I as [[(sc & Esc & Hw & Hp) Ho _] _ _].
  cbn [dmn dst log] in *. pose proof (reachable_inv _ _ Hw) as Hi.
  destruct (Flush_path env_now env_write sc Hp (fun _ => storable) (env_inv (kept_from lg) (length lg)) (env_now_keeps _ _)
              (env_write_keeps _ _) ord s (MkEnv clock st) lg Hi Ho) as (s' & e' & f & lg' & E & Hp' & Hl' & He & P);
    [split; cbn [readings stored]; [done|lia|done|by rewrite drop_all]|done|].
  unfold shutdown. cbn [Run]. rewrite E. cbn [mbind option_bind].
  destruct (Close (stored e')) as [st' bad] eqn:Ec. by exists s', e', st', f, bad, lg'.
Qed.

(** When the servers have returned, the flush and the close return, and
    after them nothing waits in the sampler: every span accepted since the start
    was kept, dropped or lost to a failed write, as the counters say.  The store
    is closed last: in memory no write of the flush fails.  On disk,
    every span of a write of the flush that did not fail, and without retention
    of every write since the start, is in a segment file. *)
Theorem shutdown_durable (s : Sampler) (lg : list write) (st : store) (ord : list TraceID) (clock : nat -> Time) :
  daemon_reachable (MkDaemon (MkWorld s Idle lg) st) -> map_keys (pendings s) ord ->
  (forall i, in_int64 (Disk.hour_of (clock i))) ->
  exists s' st' failed bad lg', shutdown ord s (MkEnv clock st) = Some (s', st', failed, bad) /\
    rtc sweep_step (MkWorld s Idle lg) (MkWorld s' Idle lg') /\
    pendings s' = ∅ /\ judging s' = ∅ /\ late s' = ∅ /\
    Accepted (stats s') = KeptSpans (stats s') + DroppedSpans (stats s') +
      LateKept (stats s') + LateDropped (stats s') + logged lost_verdict lg' /\
    (in_memory st' -> Forall (fun x => wfailed x = false) (drop (length lg) lg')) /\
    forall sp d' o', sp ∈ written (drop (kept_from lg) lg') -> st' = OnDisk d' o' -> in_segment o' sp.
Proof.
  intros I%daemon_inv_reachable Hord Hc.
  destruct (shutdown_path s lg st ord clock I Hord Hc)
    as (s' & e' & st' & f & bad & lg' & E & Ec & Hp & Hl & [_ _ (A & [_ Hs] & Hk) Hmem] & P).
  destruct I as [[(sc & _ & Hw & _) _ _] _ _]. cbn [dmn] in Hw.
  destruct (inv_path _ _ _ (reachable_inv _ _ Hw) P) as (_ & W & [C1 C2 C3 _ _ _] & _). simpl in W, C1, C2, C3.
  pose proof (judging_idle sc s' W) as Hj. rewrite Hp, Hj, Hl in C1. rewrite Hp, Hj in C3.
  unfold psize, msize in *. rewrite !msum_empty in *. pose proof (f_equal fst Ec) as Ec'. cbn [fst] in Ec'.
  exists s', st', f, bad, lg'. split_and!; try done; [lia|rewrite <-Ec', Close_on_disk; exact Hmem|].
  intros sp d' o' Hsp ->. pose proof (disk_close _ _ _ Hs) as Hd. pose proof (Close_on_disk (stored e')) as Hmem'.
  specialize (Hk sp Hsp). rewrite Ec' in Hd, Hmem'. destruct Hd as [I' _].
  destruct (stored e'); [by destruct Hmem' as [_ []]|]. destruct Hk as [h Hh]. by eapply acked_in_segment.
Qed.
End daemon.

(** ** A daemon to evaluate

    Started on an empty directory, with no retention and set to keep every
    trace; it receives one. *)

#[local] Existing Instance example_parsers.

Definition ex_start : started :=
  start [bytes_of "-data-dir=/d"; bytes_of "-retention=0"; bytes_of "-keep-share=1"; bytes_of "-service-rate=0"] 0 0 (MkOs ∅ []) true true.
Definition ex_config : config := match ex_start with Started c _ _ => c | _ => defaults.1 end.
Definition ex_sampler : Sampler := match ex_start with Started _ s _ => s | _ => example_sampler end.
Definition ex_store : store := match ex_start with Started _ _ st => st | _ => InMemory (Memory.NewMemory 0) end.

#[local] Strategy -10 [ex_start].
#[local] Strategy 100 [start].

Lemma ex_started : ex_start = Started ex_config ex_sampler ex_store.
Proof.
  assert (match ex_start with Started _ _ _ => true | _ => false end = true) as E by (vm_compute; reflexivity).
  unfold ex_config, ex_sampler, ex_store. by destruct ex_start.
Qed.

Definition no_text (_ : otlp_error) : list byte := [].

(** After one export. *)
Definition ex_exported : Sampler :=
  (export (H := example_proto) (Sink0 := sampler_sink 0) no_text ex_sampler example_request).1.

Definition ex_trace : TraceID := vreplicate 16 x01.

Lemma ex_keys : map_keys (pendings ex_exported) [ex_trace].
Proof. unfold map_keys. vm_decide. Qed.

Abbreviation ex_reachable := (daemon_reachable (H := example_proto) no_text ex_config 0).

Definition ex_daemon : daemon := MkDaemon (MkWorld ex_sampler Idle []) ex_store.

Lemma ex_empty : left_behind (MkOs ∅ []).
Proof. exists (fun _ => []), (fun _ => []). split; [by apply DiskProps.shape_empty|intros h; by left]. Qed.

Lemma ex_daemon_initial : daemon_initial ex_config ex_daemon.
Proof.
  unfold ex_daemon. pose proof ex_started as E. unfold ex_start in E.
  generalize dependent ex_store. generalize dependent ex_sampler. generalize dependent ex_config. intros c s st E.
  exact (dm_start c _ 0 0 (MkOs ∅ []) s st ex_empty E).
Qed.

Lemma ex_exported_reachable : ex_reachable (MkDaemon (MkWorld ex_exported Idle []) ex_store).
Proof. exists ex_daemon. split; [exact ex_daemon_initial|]. apply rtc_once, dm_aside, as_export. Qed.

Lemma ex_retention : retention ex_config = 0.
Proof. vm_compute. reflexivity. Qed.

(** The trace judged and written. *)
Definition ex_written : option (Sampler * pending * Verdict * list pending * (store * bool)) :=
  let '(s, ready) := take_ready due_flush [ex_trace] ex_exported in
  match ready with
  | [] => None
  | p :: l => '(s, v) ← decide_verdict s 0 p; w ← Write ex_store 0 (pspans p); Some (s, p, v, l, w)
  end.

#[local] Strategy 100 [take_ready].

Lemma ex_written_reachable s p v l st failed :
  ex_written = Some (s, p, v, l, (st, failed)) -> Keep v = true ->
  ex_reachable (MkDaemon (MkWorld s (Settling Flushing p v failed l) [MkWrite false (pspans p) failed]) st).
Proof.
  intros E Hk. unfold ex_written in E.
  destruct (take_ready due_flush [ex_trace] ex_exported) as [s1 [|p1 l1]] eqn:Et; [discriminate E|].
  destruct (decide_verdict s1 0 p1) as [[s2 v2]|] eqn:Ev; [|discriminate E].
  destruct (Write ex_store 0 (pspans p1)) as [w|] eqn:Ew; [|discriminate E].
  injection E as -> -> -> -> ->. destruct ex_exported_reachable as (d0 & Hz & Hs). exists d0. split; [exact Hz|].
  eapply rtc_r; [eapply rtc_r; [eapply rtc_r; [exact Hs|]|]|].
  - apply dm_sweeper, sw_piece; [eapply step_flush; [exact ex_keys|exact Et]|done].
  - apply dm_sweeper, sw_piece; [by eapply step_decide|done].
  - apply dm_sweeper, (sw_write _ _ (MkWrite false (pspans p) failed) ex_store st 0); [by apply (step_write _ [])|done|vm_decide|exact Ew].
Qed.

Example kept_spans_served_witness :
  exists st sp, TraceID_ sp = ex_trace /\ answers_last (Trace st ex_trace) [sp] sp.
Proof.
  assert (match ex_written with
          | Some (_, p, v, _, (_, failed)) => (Keep v, failed, TraceID_ <$> pspans p)
          | None => (false, true, []) end = (true, false, [ex_trace])) as E by (vm_compute; reflexivity).
  destruct ex_written as [[[[[s p] v] l] [st failed]]|] eqn:Es; [|discriminate E].
  apply pair_equal_spec in E as [E Hp]. apply pair_equal_spec in E as [Hk Hf].
  destruct (pspans p) as [|sp [|]] eqn:Esp; [discriminate Hp| |discriminate Hp]. injection Hp as Hid.
  pose proof (ex_written_reachable _ _ _ _ _ _ Es Hk) as Hr. rewrite Esp, Hf in Hr.
  destruct (kept_spans_served (H := example_proto) (H0 := example_types) no_text ex_config 0 _ sp Hr) as [Hserved _].
  - cbn [dmn log]. apply elem_of_written. exists (MkWrite false [sp] false). split; [left|split; [reflexivity|left]].
  - exists st, sp. split; [exact Hid|]. rewrite <-Hid. apply Hserved. left. rewrite ex_retention. reflexivity.
Defined.

Definition ex_clock (_ : nat) : Time := 0.

Lemma ex_clock_range i : in_int64 (Disk.hour_of (ex_clock i)).
Proof. unfold ex_clock. vm_decide. Qed.

Definition ex_down : option (Sampler * store * bool * bool) := shutdown [ex_trace] ex_exported (MkEnv ex_clock ex_store).

Example shutdown_durable_witness : exists s' st' failed bad, ex_down = Some (s', st', failed, bad) /\ pendings s' = ∅.
Proof.
  destruct (shutdown_durable (H := example_proto) (H0 := example_types) no_text ex_config 0 ex_exported [] ex_store [ex_trace] ex_clock
              ex_exported_reachable ex_keys ex_clock_range) as (s' & st' & f & b & lg' & E & _ & Hp & _).
  exists s', st', f, b. split; [exact E|exact Hp].
Defined.

(** What the restarted daemon serves. *)
Example restarted :
  match ex_down with
  | Some (_, OnDisk _ o', false, false) =>
      match Disk.OpenDisk 0 0 0 o' with (Ok d, _) => is_ok (Disk.Trace d ex_trace) | _ => false end
  | _ => false
  end = true.
Proof. vm_compute. reflexivity. Qed.
