(* ===== verification/Serve.v ===== *)
(** * Serving and shutting down: [serve], [serveSampled], [run] and [main]

    The process around the daemon: two servers with the exports they are
    handling, the stages [serve] and its callers go through from the signal to
    the exit, and everything that runs beside them.  Of the libraries it keeps
    what their documentation says: a server whose listener fails goes on with
    the connections it has; [GracefulStop] and [Shutdown] stop taking
    exports and return once nothing is in flight, [Shutdown] also when its
    context ends, without interrupting what is running, and [Stop] does not
    wait.  Logging is left out. *)

From S2P Require Import Prelude GoTime GoBytes GoStrings GoFloat Ident Value Span Codec Otlp Frame Query.
From S2P Require Memory MemorySpec.
From S2P Require Import Assembly Forest AssemblySpec BuildProps Policy Os.
From S2P Require Disk DiskSpec DiskProps.
From S2P Require Import Store Sampler SamplerSpec SamplerProps SamplerFlow SamplerLedger SamplerRun Ingest Daemon DaemonProps DaemonRun.

#[local] Abbreviation bytes_of := list_byte_of_string.

(** ** The process *)

(** A server: whether exports may still come in, and those it is handling. *)
Record server (A : Type) : Type := MkServer { accepting : bool; inflight : list A }.
Arguments MkServer {A}. Arguments accepting {A}. Arguments inflight {A}.

Definition arrive {A} (x : A) (s : server A) : server A := MkServer (accepting s) (inflight s ++ [x]).
Definition refuse {A} (s : server A) : server A := MkServer false (inflight s).
Definition quiet {A} (s : server A) : Prop := accepting s = false /\ inflight s = [].

Inductive serve_error := GRPCStopped | HTTPStopped.

(** How far the calls have come: the select of [serve], the health server, the
    two waits, [serve]'s return, [Flush], [serveSampled]'s return, the store
    closed, and the exit; [e] is [serveErr], [n] the number of writes before the
    flush, [f] whether the flush failed. *)
Inductive stage :=
| Serving
| Stopping (e : option serve_error)
| Draining (e : option serve_error)
| DrainingGRPC (e : option serve_error)
| Returned (e : option serve_error)
| InFlush (e : option serve_error) (n : nat)
| Flushed (e : option serve_error) (f : bool)
| Closed (code : Z)
| Exited (code : Z).

(** What [main] makes of [errors.Join(serveErr, flushErr)]. *)
Definition exit_code (e : option serve_error) (f : bool) : Z :=
  match e, f with None, false => 0 | _, _ => 1 end.

Section serve.
Context `{ProtoTypes} `{ValueParsers} `{!Wire} (error_text : otlp_error -> list byte).

(** The handler of the HTTP server: [mux]. *)
Inductive http_reply := Handled (r : Response (E := Sampler.accept_error)) | Healthy | NoRoute.

Definition mux (now : Time) (s : Sampler) (path : list byte) (r : Request) : Sampler * http_reply :=
  if bool_decide (path = TracesPath) then
    let '(s, resp) := ServeHTTP (Sink0 := sampler_sink now) error_text s r in (s, Handled resp)
  else if bool_decide (path = bytes_of "/healthz") then (s, Healthy)
  else (s, NoRoute).

Inductive answer :=
| GRPCAnswer (a : result (grpc_status (E := Sampler.accept_error)) ExportResponse)
| HTTPAnswer (a : http_reply).

(** [timed_out] is whether the drain context has ended. *)
Record process : Type := MkProcess {
  dm : daemon; stg : stage; serving_health : bool; timed_out : bool;
  grpc : server (list PResourceSpans); http : server (list byte * Request); answers : list answer;
}.

Definition set_dm d p := MkProcess d (stg p) (serving_health p) (timed_out p) (grpc p) (http p) (answers p).
Definition set_stage s p := MkProcess (dm p) s (serving_health p) (timed_out p) (grpc p) (http p) (answers p).
Definition set_grpc g p := MkProcess (dm p) (stg p) (serving_health p) (timed_out p) g (http p) (answers p).
Definition set_http h p := MkProcess (dm p) (stg p) (serving_health p) (timed_out p) (grpc p) h (answers p).
Definition health_down p := MkProcess (dm p) (stg p) false (timed_out p) (grpc p) (http p) (answers p).
Definition time_out p := MkProcess (dm p) (stg p) (serving_health p) true (grpc p) (http p) (answers p).
Definition reply_with a p := MkProcess (dm p) (stg p) (serving_health p) (timed_out p) (grpc p) (http p) (answers p ++ [a]).

(** An export handled: the sampler it leaves, and the answer. *)
Definition with_sampler (s : Sampler) (d : daemon) : daemon := MkDaemon (MkWorld s (pc (dmn d)) (log (dmn d))) (dst d).

Definition handle_grpc (now : Time) (req : list PResourceSpans) (p : process) : process :=
  let '(s, a) := Export (Sink0 := sampler_sink now) error_text (smp (dmn (dm p))) req in
  reply_with (GRPCAnswer a) (set_dm (with_sampler s (dm p)) p).

Definition handle_http (now : Time) (x : list byte * Request) (p : process) : process :=
  let '(s, a) := mux now (smp (dmn (dm p))) x.1 x.2 in
  reply_with (HTTPAnswer a) (set_dm (with_sampler s (dm p)) p).

(** Before the flush [Run] sweeps; the flush is the last thing it does. *)
Definition begins_flush (d d' : daemon) : Prop :=
  pc (dmn d) = Idle /\ match pc (dmn d') with Judging Flushing _ => True | _ => False end.

Definition sweeping (s : stage) : Prop :=
  match s with Serving | Stopping _ | Draining _ | DrainingGRPC _ | Returned _ => True | _ => False end.
Definition opened (s : stage) : Prop := match s with Closed _ | Exited _ => False | _ => True end.
Definition running (s : stage) : Prop := match s with Exited _ => False | _ => True end.
Definition draining (s : stage) : Prop := match s with Draining _ | DrainingGRPC _ => True | _ => False end.

Context (c : config) (T : Time).

(** [serve]: the servers and their handlers, the select, and the two waits. *)
Inductive serve_step : process -> process -> Prop :=
| sv_grpc_call p req :
    running (stg p) -> accepting (grpc p) = true -> serve_step p (set_grpc (arrive req (grpc p)) p)
| sv_http_call p x :
    running (stg p) -> accepting (http p) = true -> serve_step p (set_http (arrive x (http p)) p)
| sv_grpc_answer p l1 req l2 now :
    running (stg p) -> inflight (grpc p) = l1 ++ req :: l2 ->
    serve_step p (handle_grpc now req (set_grpc (MkServer (accepting (grpc p)) (l1 ++ l2)) p))
| sv_http_answer p l1 x l2 now :
    running (stg p) -> inflight (http p) = l1 ++ x :: l2 ->
    serve_step p (handle_http now x (set_http (MkServer (accepting (http p)) (l1 ++ l2)) p))
| sv_signal p : stg p = Serving -> serve_step p (set_stage (Stopping None) p)
| sv_grpc_fails p :
    stg p = Serving -> serve_step p (set_stage (Stopping (Some GRPCStopped)) p)
| sv_http_fails p :
    stg p = Serving -> serve_step p (set_stage (Stopping (Some HTTPStopped)) p)
| sv_health p e : stg p = Stopping e -> serve_step p (health_down (set_stage (Draining e) p))
| sv_graceful_stop p : draining (stg p) -> serve_step p (set_grpc (refuse (grpc p)) p)
| sv_shutdown p e : stg p = Draining e -> serve_step p (set_http (refuse (http p)) p)
| sv_timeout p : draining (stg p) -> serve_step p (time_out p)
| sv_http_returns p e :
    stg p = Draining e -> accepting (http p) = false -> inflight (http p) = [] \/ timed_out p = true ->
    serve_step p (set_stage (DrainingGRPC e) p)
| sv_grpc_done p e :
    stg p = DrainingGRPC e -> accepting (grpc p) = false -> inflight (grpc p) = [] ->
    serve_step p (set_stage (Returned e) p)
| sv_grpc_stop p e :
    stg p = DrainingGRPC e -> timed_out p = true ->
    serve_step p (set_grpc (refuse (grpc p)) (set_stage (Returned e) p)).

(** [serveSampled]: the goroutine of [Run], which sweeps until [serve] has
    returned and then flushes, and the wait for it. *)
Inductive sampled_step : process -> process -> Prop :=
| sm_sweep p d :
    sweeping (stg p) -> sweeper_step (dm p) d -> ~ begins_flush (dm p) d -> sampled_step p (set_dm d p)
| sm_flush p d e :
    stg p = Returned e -> sweeper_step (dm p) d -> begins_flush (dm p) d ->
    sampled_step p (set_dm d (set_stage (InFlush e (length (log (dmn (dm p))))) p))
| sm_flush_piece p d e n :
    stg p = InFlush e n -> sweeper_step (dm p) d -> pc (dmn (dm p)) <> Idle -> sampled_step p (set_dm d p)
| sm_flushed p e n :
    stg p = InFlush e n -> pc (dmn (dm p)) = Idle ->
    sampled_step p (set_stage (Flushed e (existsb wfailed (drop n (log (dmn (dm p)))))) p).

(** The two pieces of a tick of [evictLoop]; nothing waits for it, so they may
    come at any time, even once the store is closed. *)
Inductive evict_tick : process -> process -> Prop :=
| ev_traces p now :
    running (stg p) -> (0 < retention c -> now - retention c <= T) ->
    evict_tick p (set_dm (MkDaemon (dmn (dm p)) (EvictTraces (dst (dm p)) now)) p)
| ev_segments p now :
    running (stg p) -> evict_tick p (set_dm (MkDaemon (dmn (dm p)) (EvictSegments (dst (dm p)) now)) p).

(** [run] returns, its deferred call closing the store; and [main] exits. *)
Inductive exit_step : process -> process -> Prop :=
| ex_close p e f :
    stg p = Flushed e f ->
    exit_step p (set_dm (MkDaemon (dmn (dm p)) (Close (dst (dm p))).1) (set_stage (Closed (exit_code e f)) p))
| ex_exit p code : stg p = Closed code -> exit_step p (set_stage (Exited code) p).

Inductive process_step (p p' : process) : Prop :=
| ps_serve : serve_step p p' -> process_step p p'
| ps_sampled : sampled_step p p' -> process_step p p'
| ps_evict : evict_tick p p' -> process_step p p'
| ps_exit : exit_step p p' -> process_step p p'.

(** [run] has started everything. *)
Inductive process_initial : process -> Prop :=
| ps_start d :
    daemon_initial c d -> process_initial (MkProcess d Serving true false (MkServer true []) (MkServer true []) []).

Definition process_reachable (p : process) : Prop := exists p0, process_initial p0 /\ rtc process_step p0 p.

(** ** The process runs the daemon *)

Lemma Export_sampler now s req :
  (Export (Sink0 := sampler_sink now) error_text s req).1 = (export (Sink0 := sampler_sink now) error_text s req).1.
Proof. unfold Export. by destruct (export _ s req). Qed.

Lemma mux_sampler now s path r :
  (mux now s path r).1 = s \/
  exists req, (mux now s path r).1 = (export (Sink0 := sampler_sink now) error_text s req).1.
Proof.
  unfold mux. case_bool_decide; [|case_bool_decide; by left]. unfold ServeHTTP. simpl.
  destruct (negb _); [by left|]. destruct (ParseMediaType _) as [m|]; [|by left].
  destruct (_ && _); [by left|]. destruct (readBody r) as [body|]; [|by left].
  destruct (unmarshal m body) as [req|]; [|by left]. right. exists req.
  destruct (export _ s req) as [s' [resp|e]]; simpl; [by destruct (marshal m resp)|]. by destruct e.
Qed.

(** What handling leaves alone. *)
Lemma handle_grpc_fields now req p : let p' := handle_grpc now req p in
  dm p' = with_sampler (export (Sink0 := sampler_sink now) error_text (smp (dmn (dm p))) req).1 (dm p) /\
  stg p' = stg p /\ serving_health p' = serving_health p /\ timed_out p' = timed_out p /\ grpc p' = grpc p /\ http p' = http p.
Proof. unfold handle_grpc. rewrite <-Export_sampler. by destruct (Export _ _ _). Qed.

Lemma handle_http_fields now x p : let p' := handle_http now x p in
  (dm p' = dm p \/ exists req, dm p' = with_sampler (export (Sink0 := sampler_sink now) error_text (smp (dmn (dm p))) req).1 (dm p)) /\
  stg p' = stg p /\ serving_health p' = serving_health p /\ timed_out p' = timed_out p /\ grpc p' = grpc p /\ http p' = http p.
Proof.
  unfold handle_http. pose proof (mux_sampler now (smp (dmn (dm p))) x.1 x.2) as Hm.
  destruct (mux _ _ _ _) as [s a]. split_and!; try done. simpl in *. destruct Hm as [->|[req ->]]; [left|right; by exists req].
  by destruct (dm p) as [[] ].
Qed.

Lemma export_step d now req :
  aside_step error_text c T d (with_sampler (export (Sink0 := sampler_sink now) error_text (smp (dmn d)) req).1 d).
Proof. destruct d as [[s pc lg] st]. apply as_export. Qed.

Lemma traces_step d now : (0 < retention c -> now - retention c <= T) ->
  aside_step error_text c T d (MkDaemon (dmn d) (EvictTraces (dst d) now)).
Proof. destruct d as [w st]. intros Hn. by apply as_evict_traces. Qed.

Lemma segments_step d now : aside_step error_text c T d (MkDaemon (dmn d) (EvictSegments (dst d) now)).
Proof. destruct d as [w st]. apply as_evict_segments. Qed.

(** One case for each rule, with its conditions. *)
Ltac process_cases Hst :=
  destruct Hst as [Hst|Hst|Hst|Hst];
  [ destruct Hst as [p req Hr Ha|p x Hr Ha|p l1 req l2 now Hr Ha|p l1 x l2 now Hr Ha|p E|p E|p E|p e E|p Hd|p e E
      |p Hd|p e E Ha Hi|p e E Ha Hi|p e E Ht]
  | destruct Hst as [p d Hs|p d e E Hd Hb|p d e n E Hd Hp|p e n E Hp]
  | destruct Hst as [p now Hr Hn|p now Hr]
  | destruct Hst as [p e f E|p code E] ].

(** Until the store is closed a step of the process is one of the daemon, or
    does not concern it; from then on it is none of a sweep. *)
Lemma process_refines p p' : process_step p p' ->
  running (stg p) /\
  ((opened (stg p') -> opened (stg p)) /\
   (dm p' = dm p \/ aside_step error_text c T (dm p) (dm p') \/ opened (stg p) /\ sweeper_step (dm p) (dm p')) \/
   exists e f, stg p = Flushed e f /\ stg p' = Closed (exit_code e f) /\
     dm p' = MkDaemon (dmn (dm p)) (Close (dst (dm p))).1).
Proof.
  intros Hst. process_cases Hst.
  3:{ split; [done|]. left. destruct (handle_grpc_fields now req (set_grpc (MkServer (accepting (grpc p)) (l1 ++ l2)) p)) as (-> & -> & _).
      split; [done|]. right. left. apply (export_step (dm p)). }
  3:{ split; [done|]. left. destruct (handle_http_fields now x (set_http (MkServer (accepting (http p)) (l1 ++ l2)) p)) as ([->|[req ->]] & -> & _);
      (split; [done|]); [by left|]. right. left. apply (export_step (dm p)). }
  all: simpl; repeat match goal with E : stg _ = _ |- _ => rewrite E end.
  all: try (split; [done|]; left; split; [done|];
            first [by left|right; right; by split|right; left; by apply traces_step|right; left; apply segments_step]).
  - split; [by destruct (stg p)|]. left. split; [done|by left].
  - split; [by destruct (stg p)|]. left. split; [done|by left].
  - split; [by destruct (stg p)|]. left. split; [done|]. right. right. split; [by destruct (stg p)|done].
  - split; [done|]. right. by exists e, f.
Qed.

(** ** The invariant *)

(** What a flush has done by now, if nothing is accepted meanwhile. *)
Definition in_flush (w : world) : Prop :=
  pendings (smp w) = ∅ /\
  match pc w with Idle | LateWriting _ _ | LateLosing _ _ _ => late (smp w) = ∅ | _ => True end.

(** Past the wait for each server. *)
Definition http_over (s : stage) : Prop := match s with Serving | Stopping _ | Draining _ => False | _ => True end.
Definition grpc_over (s : stage) : Prop :=
  match s with Serving | Stopping _ | Draining _ | DrainingGRPC _ => False | _ => True end.
Definition healthy_stage (s : stage) : bool := match s with Serving | Stopping _ => true | _ => false end.

Definition flush_inv (s : stage) (w : world) : Prop :=
  match s with
  | InFlush _ _ => in_flush w
  | Flushed _ _ | Closed _ | Exited _ => pc w = Idle /\ in_flush w
  | _ => True
  end.

Record process_inv (p : process) : Prop := {
  pi_rest : daemon_rest c (dm p);
  pi_open : opened (stg p) -> daemon_inv c T (dm p);
  pi_http : http_over (stg p) -> timed_out p = true \/ quiet (http p);
  pi_grpc : grpc_over (stg p) -> timed_out p = true \/ quiet (grpc p);
  pi_flush : timed_out p = true \/ flush_inv (stg p) (dmn (dm p));
  pi_health : serving_health p = healthy_stage (stg p);
}.

Lemma sweeper_sweep d d' : sweeper_step d d' -> sweep_step (dmn d) (dmn d').
Proof. by intros [w w' st Hs _|w w' x st st' now Hs _ _ _]. Qed.

Lemma flush_begins d d' sc : inv sc (dmn d) -> sweeper_step d d' -> begins_flush d d' -> in_flush (dmn d').
Proof.
  intros Hi Hst%sweeper_sweep [Hidle Hb]. unfold in_flush. destruct Hst; simpl in *; try done.
  split; [|done]. by eapply flush_takes_all.
Qed.

Lemma flush_continues d d' : sweeper_step d d' -> pc (dmn d) <> Idle -> in_flush (dmn d) -> in_flush (dmn d').
Proof.
  intros Hst%sweeper_sweep Hpc [Hp Hl]. split; [by rewrite (sweep_step_pendings _ _ Hst)|].
  destruct Hst; simpl in *; try done. unfold take_late in *. by simplify_eq.
Qed.

Lemma process_inv_initial p : process_initial p -> process_inv p.
Proof. intros [d Hd]. apply (daemon_inv_initial c T) in Hd. split; simpl; try done; [apply Hd|by right]. Qed.

(** Quiet servers stay quiet. *)
Lemma quiet_arrive {A} (s : server A) : accepting s = true -> ~ quiet s.
Proof. intros Ha [? _]. congruence. Qed.
Lemma quiet_inflight {A} (x : A) (s : server A) l1 l2 : inflight s = l1 ++ x :: l2 -> ~ quiet s.
Proof. intros E [_ Hi]. rewrite E in Hi. destruct l1; discriminate. Qed.
Lemma quiet_refuse {A} (s : server A) : quiet s -> quiet (refuse s).
Proof. by intros []. Qed.

Lemma rest_close d : daemon_rest c d -> daemon_rest c (MkDaemon (dmn d) (Close (dst d)).1).
Proof. intros [Hs Ho (A & HA & Hh)]. split; [done|done|]. exists A. split; [by apply disk_close|done]. Qed.

Lemma rest_kept p p' : process_inv p -> process_step p p' -> daemon_rest c (dm p').
Proof.
  intros [Hrest Hopen _ _ _ _] [Hrun [[_ [->|[Hst|[Ho Hst]]]]|(e & f & _ & _ & ->)]]%process_refines; [done| | |].
  - by eapply daemon_rest_aside.
  - specialize (Hopen Ho). by destruct (daemon_inv_sweeper _ _ _ _ Hopen Hst).
  - by apply rest_close.
Qed.

Lemma open_kept p p' : process_inv p -> process_step p p' -> opened (stg p') -> daemon_inv c T (dm p').
Proof.
  intros [Hrest Hopen _ _ _ _] [Hrun [[Ho Hst]|(e & f & _ & -> & _)]]%process_refines; [|done]. intros Hp%Ho%Hopen.
  destruct Hst as [->|[Hst|[_ Hst]]]; [done|by eapply daemon_inv_aside|by eapply daemon_inv_sweeper].
Qed.

(** The servers and the health of a step that does not touch the daemon. *)
Lemma servers_kept p p' : process_step p p' -> process_inv p ->
  (http_over (stg p') -> timed_out p' = true \/ quiet (http p')) /\
  (grpc_over (stg p') -> timed_out p' = true \/ quiet (grpc p')) /\
  serving_health p' = healthy_stage (stg p').
Proof.
  intros Hst [_ _ Hh Hg _ Hhealth]. process_cases Hst.
  3:{ destruct (handle_grpc_fields now req (set_grpc (MkServer (accepting (grpc p)) (l1 ++ l2)) p)) as (_ & -> & -> & -> & -> & ->). simpl.
      split_and!; [done| |done]. intros [|[]%(quiet_inflight _ _ _ _ Ha)]%Hg. by left. }
  3:{ destruct (handle_http_fields now x (set_http (MkServer (accepting (http p)) (l1 ++ l2)) p)) as (_ & -> & -> & -> & -> & ->). simpl.
      split_and!; [|done..]. intros [|[]%(quiet_inflight _ _ _ _ Ha)]%Hh. by left. }
  all: simpl; try rewrite E in *; simpl in *; try done.
  - split_and!; [done| |done]. intros [|[]%(quiet_arrive _ Ha)]%Hg. by left.
  - split_and!; [|done..]. intros [|[]%(quiet_arrive _ Ha)]%Hh. by left.
  - split_and!; [done| |done]. intros [|?]%Hg; [by left|right]. by apply quiet_refuse.
  - by split_and!; auto.
  - split_and!; [|done..]. intros _. destruct Hi; [by right|by left].
  - split_and!; [done| |done]. intros _. by right.
  - split_and!; [done| |done]. intros _. by left.
Qed.

Lemma flush_kept p p' : process_step p p' -> process_inv p -> timed_out p' = true \/ flush_inv (stg p') (dmn (dm p')).
Proof.
  intros Hst [Hrest _ Hh Hg Hf _].
  process_cases Hst.
  3:{ destruct (handle_grpc_fields now req (set_grpc (MkServer (accepting (grpc p)) (l1 ++ l2)) p)) as (_ & -> & _ & -> & _). simpl.
      destruct (stg p); simpl in *; try (by right); destruct Hg as [|[]%(quiet_inflight _ _ _ _ Ha)]; done || by left. }
  3:{ destruct (handle_http_fields now x (set_http (MkServer (accepting (http p)) (l1 ++ l2)) p)) as (_ & -> & _ & -> & _). simpl.
      destruct (stg p); simpl in *; try (by right); destruct Hh as [|[]%(quiet_inflight _ _ _ _ Ha)]; done || by left. }
  all: simpl; try rewrite E in *; simpl in *; try done; try (by right).
  - by left.
  - by destruct (stg p); simpl in *; try (by right).
  - right. destruct Hrest as [(sc & _ & Hr & _) _ _]. eapply (flush_begins _ _ sc); [|done..]. by apply reachable_inv.
  - destruct Hf as [|Hf]; [by left|right]. by eapply flush_continues.
  - destruct Hf as [|Hf]; [by left|by right].
Qed.

Lemma process_inv_step p p' : process_inv p -> process_step p p' -> process_inv p'.
Proof.
  intros Hi Hst. destruct (servers_kept _ _ Hst Hi) as (? & ? & ?).
  split; [by apply (rest_kept p)|by apply (open_kept p)|done|done|by apply (flush_kept p)|done].
Qed.

Lemma process_inv_reachable p : process_reachable p -> process_inv p.
Proof.
  intros (p0 & Hz%process_inv_initial & Hs). induction Hs as [|p0 p1 p2 Hst _ IH]; [done|]. by apply IH, (process_inv_step p0).
Qed.

(** ** The process can always finish *)

Lemma existsb_failed (l : list write) : existsb wfailed l = false -> Forall (fun x => wfailed x = false) l.
Proof. induction l as [|x l IH]; simpl; [done|]. intros [? ?]%orb_false_iff. constructor; auto. Qed.

(** A sweep in progress can go on whatever its writes do. *)
Lemma sweeper_can_step d : daemon_inv c T d -> pc (dmn d) <> Idle -> exists d', sweeper_step d d'.
Proof.
  intros [[(sc & _ & Hr & Hsafe) Ho (A & HA & _)] Hok _] Hpc. destruct d as [w st]. cbn [dmn dst] in *.
  destruct (sweep_can_step sc w Hsafe (reachable_inv _ _ Hr) Hpc) as [w' Hst].
  destruct (sweep_step_outcome _ _ Hst) as [Hl|(lt & spans & Hall)].
  - exists (MkDaemon w' st). by constructor.
  - destruct (Hall false) as (w1 & Hst1 & Hl1).
    assert (Forall storable spans) as Hsp.
    { apply (log_storable w1 (MkWrite lt spans false)); [by eapply sweep_step_only|]. rewrite Hl1. set_solver. }
    destruct (store_write _ st A 0 spans (conj Hok HA) Hsp) as (st' & failed & E & _); [vm_decide|].
    destruct (Hall failed) as (w2 & Hst2 & Hl2). exists (MkDaemon w2 st'). by eapply (sw_write w w2 _ st st' 0).
Qed.

Definition sweeping_step (d d' : daemon) : Prop := sweeper_step d d' /\ pc (dmn d) <> Idle.

Lemma sweeper_finishes d : daemon_inv c T d -> exists d', rtc sweeping_step d d' /\ pc (dmn d') = Idle.
Proof.
  assert (forall r, forall d, rank (pc (dmn d)) = r -> daemon_inv c T d ->
            exists d', rtc sweeping_step d d' /\ pc (dmn d') = Idle) as Hr; [|by eapply Hr].
  clear d. intros r. induction (nearer_wf r) as [r _ IH]. intros d <- Hd.
  assert (pc (dmn d) = Idle \/ pc (dmn d) <> Idle) as [E|E] by (destruct (pc (dmn d)); auto).
  - exists d. split; [apply rtc_refl|done].
  - destruct (sweeper_can_step d Hd E) as [d1 Hst].
    destruct (IH _ (sweep_nearer _ _ E (sweeper_sweep _ _ Hst)) d1 eq_refl) as (d' & Hs & E').
    { by eapply daemon_inv_sweeper. }
    exists d'. split; [by eapply rtc_l|done].
Qed.

Lemma sweeping_steps p d : sweeping (stg p) \/ (exists e n, stg p = InFlush e n) ->
  rtc sweeping_step (dm p) d -> rtc process_step p (set_dm d p).
Proof.
  intros Hstg Hs. remember (dm p) as d0 eqn:E. revert p E Hstg.
  induction Hs as [d0|d0 d1 d2 [Hst Hpc] _ IH]; intros p -> Hstg; [by destruct p|].
  eapply rtc_l; [|apply (IH (set_dm d1 p)); done].
  destruct Hstg as [Hstg|(e & n & Hstg)]; [apply ps_sampled, sm_sweep; [done..|by intros []]|by eapply ps_sampled, sm_flush_piece].
Qed.

(** What is in flight can be answered. *)
Lemma answer_all_grpc p : running (stg p) -> exists p', rtc process_step p p' /\ stg p' = stg p /\
  timed_out p' = timed_out p /\ accepting (grpc p') = accepting (grpc p) /\ inflight (grpc p') = [].
Proof.
  remember (inflight (grpc p)) as l eqn:E. revert p E. induction l as [|x l IH]; intros p E Hr; [by exists p|].
  pose proof (ps_serve _ _ (sv_grpc_answer p [] x l 0 Hr (eq_sym E))) as Hst. simpl in Hst.
  pose proof (handle_grpc_fields 0 x (set_grpc (MkServer (accepting (grpc p)) l) p)) as (_ & E1 & _ & E2 & E3 & _).
  destruct (IH _ (eq_sym (f_equal inflight E3)) ltac:(by rewrite E1)) as (p' & Hs & F1 & F2 & F3 & F4).
  exists p'. split_and!; [by eapply rtc_l| | | |done]; [by rewrite F1, E1|by rewrite F2, E2|by rewrite F3, E3].
Qed.

Lemma answer_all_http p : running (stg p) -> exists p', rtc process_step p p' /\ stg p' = stg p /\
  timed_out p' = timed_out p /\ accepting (http p') = accepting (http p) /\ inflight (http p') = [].
Proof.
  remember (inflight (http p)) as l eqn:E. revert p E. induction l as [|x l IH]; intros p E Hr; [by exists p|].
  pose proof (ps_serve _ _ (sv_http_answer p [] x l 0 Hr (eq_sym E))) as Hst. simpl in Hst.
  pose proof (handle_http_fields 0 x (set_http (MkServer (accepting (http p)) l) p)) as (_ & E1 & _ & E2 & _ & E3).
  destruct (IH _ (eq_sym (f_equal inflight E3)) ltac:(by rewrite E1)) as (p' & Hs & F1 & F2 & F3 & F4).
  exists p'. split_and!; [by eapply rtc_l| | | |done]; [by rewrite F1, E1|by rewrite F2, E2|by rewrite F3, E3].
Qed.

(** Some run of [p] exits, and not because it ran out of time to drain. *)
Definition completes (p : process) : Prop :=
  exists p' code, rtc process_step p p' /\ stg p' = Exited code /\ timed_out p' = timed_out p.

Lemma completes_rtc p p' : rtc process_step p p' -> timed_out p' = timed_out p -> completes p' -> completes p.
Proof. intros Hs E (p2 & code & Hs2 & E2 & F2). exists p2, code. split_and!; [by etrans|done|congruence]. Qed.

Lemma completes_step p p' : process_step p p' -> timed_out p' = timed_out p -> completes p' -> completes p.
Proof. intros Hs. apply completes_rtc. by apply rtc_once. Qed.

Lemma process_inv_rtc p p' : process_inv p -> rtc process_step p p' -> process_inv p'.
Proof. intros Hi Hs. induction Hs as [|p0 p1 p2 Hst _ IH]; [done|]. by apply IH, (process_inv_step p0). Qed.

Lemma closed_completes p code : stg p = Closed code -> completes p.
Proof.
  intros E. pose proof (ps_exit _ _ (ex_exit p code E)) as Hst. apply (completes_step _ _ Hst); [done|].
  eexists _, _. split_and!; [apply rtc_refl|done|done].
Qed.

Lemma flushed_completes p e f : stg p = Flushed e f -> completes p.
Proof.
  intros E. pose proof (ps_exit _ _ (ex_close p e f E)) as Hst. apply (completes_step _ _ Hst); [done|]. by eapply closed_completes.
Qed.

Lemma flush_completes p e n : process_inv p -> stg p = InFlush e n -> completes p.
Proof.
  intros Hi E. destruct (sweeper_finishes (dm p)) as (d & Hs & Hpc); [apply Hi; by rewrite E|].
  apply (completes_rtc _ (set_dm d p)); [apply sweeping_steps; [right; by exists e, n|done]|done|].
  eapply completes_step; [by apply ps_sampled, (sm_flushed _ e n)|done|]. by eapply flushed_completes.
Qed.

Lemma returned_completes p e : process_inv p -> stg p = Returned e -> completes p.
Proof.
  intros Hi E. destruct (sweeper_finishes (dm p)) as (d & Hs & Hpc); [apply Hi; by rewrite E|].
  assert (rtc process_step p (set_dm d p)) as P by (apply sweeping_steps; [left; by rewrite E|done]).
  apply (completes_rtc _ _ P); [done|]. pose proof (process_inv_rtc _ _ Hi P) as Hi'.
  destruct d as [[s pc lg] st]. simpl in Hpc. subst pc.
  destruct (take_ready due_flush (elements (dom (pendings s))) s) as [s' ready] eqn:Et.
  assert (process_step (set_dm (MkDaemon (MkWorld s Idle lg) st) p)
            (set_dm (MkDaemon (MkWorld s' (Judging Flushing ready) lg) st) (set_stage (InFlush e (length lg)) p))) as Hst.
  { apply ps_sampled, (sm_flush (set_dm (MkDaemon (MkWorld s Idle lg) st) p) (MkDaemon (MkWorld s' (Judging Flushing ready) lg) st) e);
      [done| |done]. apply sw_piece; [|done]. eapply step_flush; [|exact Et]. by unfold map_keys. }
  apply (completes_step _ _ Hst); [done|]. eapply flush_completes; [by eapply process_inv_step|done].
Qed.

Lemma drain_grpc_completes p e : process_inv p -> stg p = DrainingGRPC e -> completes p.
Proof.
  intros Hi E. pose proof (ps_serve _ _ (sv_graceful_stop p ltac:(by rewrite E))) as Hst. apply (completes_step _ _ Hst); [done|].
  destruct (answer_all_grpc (set_grpc (refuse (grpc p)) p)) as (p' & Hs & E1 & E2 & E3 & E4); [simpl; by rewrite E|].
  apply (completes_rtc _ _ Hs); [done|]. simpl in *. rewrite E in E1.
  pose proof (ps_serve _ _ (sv_grpc_done p' e E1 E3 E4)) as Hst'. apply (completes_step _ _ Hst'); [done|].
  eapply returned_completes; [|done]. eapply process_inv_step; [|done]. eapply process_inv_rtc; [|exact Hs]. by eapply process_inv_step.
Qed.

Lemma drain_completes p e : process_inv p -> stg p = Draining e -> completes p.
Proof.
  intros Hi E. pose proof (ps_serve _ _ (sv_shutdown p e E)) as Hst. apply (completes_step _ _ Hst); [done|].
  destruct (answer_all_http (set_http (refuse (http p)) p)) as (p' & Hs & E1 & E2 & E3 & E4); [simpl; by rewrite E|].
  apply (completes_rtc _ _ Hs); [done|]. simpl in *. rewrite E in E1.
  pose proof (ps_serve _ _ (sv_http_returns p' e E1 E3 (or_introl E4))) as Hst'. apply (completes_step _ _ Hst'); [done|].
  eapply drain_grpc_completes; [|done]. eapply process_inv_step; [|done]. eapply process_inv_rtc; [|exact Hs]. by eapply process_inv_step.
Qed.

Lemma process_completes p : process_inv p -> completes p.
Proof.
  assert (forall p e, process_inv p -> stg p = Stopping e -> completes p) as Hstop.
  { intros q e Hi E. pose proof (ps_serve _ _ (sv_health q e E)) as Hst. apply (completes_step _ _ Hst); [done|].
    eapply drain_completes; [by eapply process_inv_step|done]. }
  intros Hi. destruct (stg p) as [|e|e|e|e|e n|e f|code|code] eqn:E.
  - pose proof (ps_serve _ _ (sv_signal p E)) as Hst. apply (completes_step _ _ Hst); [done|]. eapply Hstop; [by eapply process_inv_step|done].
  - by eapply Hstop.
  - by eapply drain_completes.
  - by eapply drain_grpc_completes.
  - by eapply returned_completes.
  - by eapply flush_completes.
  - by eapply flushed_completes.
  - by eapply closed_completes.
  - exists p, code. split_and!; [apply rtc_refl|done|done].
Qed.

(** C7: from wherever the process is, whatever is in flight and in whatever piece of
    a sweep the sampler is, it can come to its exit: it cannot deadlock or
    panic on the way, and need not run out of time to drain. *)
Theorem shutdown_completes (p : process) :
  process_reachable p ->
  exists p' code, rtc process_step p p' /\ stg p' = Exited code /\ timed_out p' = timed_out p.
Proof. intros Hp%process_inv_reachable. by apply process_completes. Qed.

(** At the exit of a process whose exports drained in time nothing waits in
    the sampler. *)
Lemma exit_at_rest p code : process_reachable p -> stg p = Exited code -> timed_out p = false ->
  let w := dmn (dm p) in pc w = Idle /\ pendings (smp w) = ∅ /\ late (smp w) = ∅ /\ exists sc, reachable sc w.
Proof.
  intros [[(sc & _ & Hr & _) _ _] _ _ _ Hf _]%process_inv_reachable E Ht.
  rewrite E, Ht in *. destruct Hf as [|[Hpc [Hp Hl]]]; [done|]. rewrite Hpc in Hl.
  split_and!; [done..|]. by exists sc.
Qed.

(** On disk and without retention, what was written is in a segment file. *)
Lemma exit_in_segment p x sp d o : process_reachable p -> retention c <= 0 ->
  x ∈ log (dmn (dm p)) -> wfailed x = false -> sp ∈ wspans x -> dst (dm p) = OnDisk d o -> in_segment o sp.
Proof.
  intros [Hrest _ _ _ _ _]%process_inv_reachable Hret Hx Hfx Hsp Edst.
  pose proof (rest_in_segment c (dm p) sp Hrest Hret) as Hin. rewrite Edst in Hin. apply Hin, elem_of_written. by exists x.
Qed.

(** C6: at the exit of a process whose exports drained in time no export is in
    flight, and nothing waits in the sampler: every span accepted since
    the start was kept, dropped or lost to a failed write, as the counters
    say.  The store was closed last: on disk, without retention, every span of
    every write that did not fail is in a segment file. *)
Theorem exit_durable (p : process) (code : Z) :
  process_reachable p -> stg p = Exited code -> timed_out p = false ->
  inflight (grpc p) = [] /\ inflight (http p) = [] /\
  (let s := smp (dmn (dm p)) in
   pendings s = ∅ /\ judging s = ∅ /\ late s = ∅ /\
   Accepted (stats s) = KeptSpans (stats s) + DroppedSpans (stats s) +
     LateKept (stats s) + LateDropped (stats s) + logged lost_verdict (log (dmn (dm p)))) /\
  (retention c <= 0 -> forall x sp d o, x ∈ log (dmn (dm p)) -> wfailed x = false -> sp ∈ wspans x ->
     dst (dm p) = OnDisk d o -> in_segment o sp).
Proof.
  intros Hp E Ht. destruct (exit_at_rest p code Hp E Ht) as (Hpc & Hpend & Hlate & sc & Hr).
  destruct (process_inv_reachable p Hp) as [_ _ Hh Hg _ _]. rewrite E, Ht in Hh, Hg.
  destruct (Hg I) as [|[_ Hgi]]; [done|]. destruct (Hh I) as [|[_ Hhi]]; [done|]. split_and!; [done..| |].
  - destruct (dmn (dm p)) as [s pc lg]. simpl in *. subst pc.
    destruct (reachable_inv _ _ Hr) as (_ & W & [C1 C2 C3 _ _ _] & _). simpl in *.
    pose proof (judging_idle sc s W) as Hj. rewrite Hpend, Hj, Hlate in C1. rewrite Hpend, Hj in C3.
    unfold psize, msize in *. rewrite !msum_empty in *. split_and!; try done; lia.
  - intros Hret x sp d o. by apply exit_in_segment.
Qed.

(** C8: a process that has exited and is started again on the same directory
    serves what it kept: if the store had no failed write left to repair, and
    reading the directory works, the store opens.  With no retention each
    segment reads as older spans, and then, whole and in order, what was
    written in its hour; the answer for the trace of a span that was
    written has each identifier once, and for this one the last copy in the
    order of the segments, which is the last one written unless the clock ran
    back over an hour. *)
Theorem restart_after_exit (p : process) (code : Z) (d : Disk.Disk) (o o2 : os) (r : Duration) (now now' : Time) :
  process_reachable p -> stg p = Exited code -> dst (dm p) = OnDisk d o -> Disk.dirty d = false ->
  files o2 = files o -> faults o2 = [] -> retention c <= 0 -> r <= 0 ->
  exists d2 o3, Disk.OpenDisk r now now' o2 = (Ok d2, o3) /\
    (exists hours old, segments_read o2 hours old (log (dmn (dm p)))) /\
    forall sp, sp ∈ written (log (dmn (dm p))) ->
      answers_last (Disk.Trace d2 (TraceID_ sp)) (DiskSpec.replayed o2) sp /\
      forall hours old, segments_read o2 hours old (log (dmn (dm p))) -> in_order hours old ->
        answers_last (Disk.Trace d2 (TraceID_ sp)) (written (log (dmn (dm p)))) sp.
Proof.
  intros [[_ _ (A & HA & Hh)] _ _ _ _ _]%process_inv_reachable _ Edst Hclean Hfiles Hfaults Hret Hr.
  destruct (Hh Hret) as (hours & old & Hhold). rewrite Edst in HA. destruct HA as [I _].
  pose proof (DiskSpec.shape_files _ _ _ _ Hfiles (DiskSpec.dinv_shape_clean _ _ _ Hclean I)) as S.
  assert (forall h : Z, DiskSpec.tail_ok []) as Ht by (intros _; by left).
  destruct (DiskSpec.OpenDisk_total r now now' o2 A _ S Ht Hfaults) as (d2 & o3 & Eo); [done|].
  exists d2, o3. split_and!; [done| |by eapply reopened_serves]. exists hours, old. by eapply segments_hold_read.
Qed.
End serve.

(** ** Processes to evaluate *)

#[local] Existing Instance example_parsers.
#[local] Existing Instance example_proto.
#[local] Existing Instance example_types.
#[local] Existing Instance example_wire.

Definition ex_process : process := MkProcess ex_daemon Serving true false (MkServer true []) (MkServer true []) [].
Abbreviation ex_step := (process_step no_text ex_config 0).
Abbreviation ex_processes := (process_reachable no_text ex_config 0).

Lemma ex_process_reachable : ex_processes ex_process.
Proof. exists ex_process. split; [constructor; exact ex_daemon_initial|apply rtc_refl]. Qed.

Lemma ex_then p q : ex_processes p -> ex_step p q -> ex_processes q.
Proof. intros (p0 & Hz & Hs) Hst. exists p0. split; [exact Hz|]. by eapply rtc_r. Qed.

(** An export over HTTP. *)
Definition ex_call : list byte * Request := (TracesPath, MkRequest MethodPost contentTypeJSON [] (MkReader [] false)).

Definition ex_called : process := set_http (arrive ex_call (http ex_process)) ex_process.

Lemma ex_called_reachable : ex_processes ex_called.
Proof. eapply ex_then; [exact ex_process_reachable|]. by apply ps_serve, sv_http_call. Qed.

Example shutdown_completes_witness : exists p code, rtc ex_step ex_called p /\ stg p = Exited code /\ timed_out p = false.
Proof.
  destruct (shutdown_completes no_text ex_config 0 ex_called ex_called_reachable) as (p & code & H).
  exists p, code. exact H.
Defined.

(** The process once the export is in flight, the time to drain is over and
    the flush has found nothing: [Flush] has only emptied the late spans. *)
Definition ex_flushed : Sampler := (take_late ex_sampler).1.
Definition ex_stalled : process :=
  MkProcess (MkDaemon (MkWorld ex_flushed Idle []) ex_store) (Flushed None false) false true
    (MkServer false []) (MkServer false [ex_call]) [].

Lemma ex_no_keys : map_keys (pendings ex_sampler) [].
Proof. unfold map_keys. vm_decide. Qed.

Lemma ex_no_late : late_ids (late ex_sampler) = [].
Proof. vm_compute. reflexivity. Qed.

Lemma ex_stalled_reachable : ex_processes ex_stalled.
Proof.
  eapply ex_then; [|apply ps_sampled, (sm_flushed (MkProcess (MkDaemon (MkWorld ex_flushed Idle []) ex_store) (InFlush None 0) false true
    (MkServer false []) (MkServer false [ex_call]) []) None 0%nat); reflexivity].
  assert (forall w st, ex_processes (MkProcess (MkDaemon w ex_store) (InFlush None 0) false true (MkServer false []) (MkServer false [ex_call]) []) ->
            pc w <> Idle -> sweep_step w st -> log st = log w ->
            ex_processes (MkProcess (MkDaemon st ex_store) (InFlush None 0) false true (MkServer false []) (MkServer false [ex_call]) []))
    as Hpiece.
  { intros w w' Hp Hpc Hst Hl. eapply ex_then; [exact Hp|].
    apply ps_sampled, (sm_flush_piece (MkProcess (MkDaemon w ex_store) (InFlush None 0) false true (MkServer false []) (MkServer false [ex_call]) [])
             (MkDaemon w' ex_store) None 0%nat); [reflexivity|by constructor|exact Hpc]. }
  apply (Hpiece (MkWorld ex_flushed (LateWriting (late ex_sampler) []) [])); [|discriminate|apply step_swept|reflexivity].
  apply (Hpiece (MkWorld ex_sampler LateTaking [])); [|discriminate| |reflexivity].
  2:{ rewrite <-ex_no_late. by apply step_take_late. }
  apply (Hpiece (MkWorld ex_sampler (Judging Flushing []) [])); [|discriminate|apply step_flushed|reflexivity].
  eapply ex_then; [|apply ps_sampled, (sm_flush (MkProcess ex_daemon (Returned None) false true (MkServer false []) (MkServer false [ex_call]) [])
    (MkDaemon (MkWorld ex_sampler (Judging Flushing []) []) ex_store) None); [reflexivity| |done]].
  2:{ apply sw_piece; [|reflexivity]. apply (step_flush _ _ []); [exact ex_no_keys|reflexivity]. }
  eapply ex_then; [|by apply ps_serve, (sv_grpc_done _ (MkProcess ex_daemon (DrainingGRPC None) false true (MkServer false []) (MkServer false [ex_call]) []) None)].
  eapply ex_then; [|apply ps_serve, (sv_http_returns _ (MkProcess ex_daemon (Draining None) false true (MkServer false []) (MkServer false [ex_call]) []) None);
    [done|done|by right]].
  eapply ex_then; [|by apply ps_serve, (sv_timeout _ (MkProcess ex_daemon (Draining None) false false (MkServer false []) (MkServer false [ex_call]) []))].
  eapply ex_then; [|by apply ps_serve, (sv_shutdown _ (MkProcess ex_daemon (Draining None) false false (MkServer false []) (MkServer true [ex_call]) []) None)].
  eapply ex_then; [|by apply ps_serve, (sv_graceful_stop _ (MkProcess ex_daemon (Draining None) false false (MkServer true []) (MkServer true [ex_call]) []))].
  eapply ex_then; [|by apply ps_serve, (sv_health _ (MkProcess ex_daemon (Stopping None) true false (MkServer true []) (MkServer true [ex_call]) []) None)].
  eapply ex_then; [exact ex_called_reachable|]. by apply ps_serve, (sv_signal _ ex_called).
Qed.

(** An export that is still running when the time to drain is over can be
    taken by the sampler after its flush: the client is told it was accepted,
    the process exits with success, and the span was never written. *)
Theorem late_export_lost :
  exists p, ex_processes p /\ stg p = Exited 0 /\
    match answers p with [HTTPAnswer (Handled r)] => StatusCode r = 200 | _ => False end /\
    Accepted (stats (smp (dmn (dm p)))) = 1 /\ psize (pendings (smp (dmn (dm p)))) = 1 /\ log (dmn (dm p)) = [].
Proof.
  set (q := handle_http no_text 0 ex_call (set_http (MkServer false []) ex_stalled)).
  set (q' := set_dm (MkDaemon (dmn (dm q)) (Close (dst (dm q))).1) (set_stage (Closed (exit_code None false)) q)).
  exists (set_stage (Exited (exit_code None false)) q'). split_and!; [|reflexivity|vm_compute; reflexivity..].
  eapply ex_then; [|by apply ps_exit, (ex_exit q' (exit_code None false))].
  eapply ex_then; [|by apply ps_exit, (ex_close q None false)].
  eapply ex_then; [exact ex_stalled_reachable|]. by apply ps_serve, (sv_http_answer _ ex_stalled [] ex_call [] 0).
Qed.

(** ** A process that keeps a trace *)

Abbreviation ex_run := (rtc ex_step).

(** From a process with nothing in flight to the end of the drain. *)
Lemma drained p : stg p = Serving -> inflight (grpc p) = [] -> inflight (http p) = [] ->
  exists q, ex_run p q /\ stg q = Returned None /\ timed_out q = timed_out p /\ dm q = dm p.
Proof.
  intros E Hg Hh.
  set (p2 := health_down (set_stage (Draining None) (set_stage (Stopping None) p))).
  set (p4 := set_http (refuse (http (set_grpc (refuse (grpc p2)) p2))) (set_grpc (refuse (grpc p2)) p2)).
  assert (ex_run p (set_stage (Returned None) (set_stage (DrainingGRPC None) p4))) as Hrun; [|eexists; split; [exact Hrun|by split_and!]].
  eapply rtc_l; [apply ps_serve, (sv_signal _ p E)|].
  eapply rtc_l; [apply ps_serve, (sv_health _ (set_stage (Stopping None) p) None eq_refl)|]. fold p2.
  eapply rtc_l; [apply ps_serve, (sv_graceful_stop _ p2 I)|].
  eapply rtc_l; [apply ps_serve, (sv_shutdown _ (set_grpc (refuse (grpc p2)) p2) None eq_refl)|]. fold p4.
  eapply rtc_l; [apply ps_serve, (sv_http_returns _ p4 None eq_refl eq_refl (or_introl Hh))|].
  apply rtc_once, ps_serve, (sv_grpc_done _ (set_stage (DrainingGRPC None) p4) None eq_refl eq_refl Hg).
Qed.

(** A flush that keeps and writes one trace. *)
Lemma flushed_one p s lg st ord s1 x s2 v st1 s3 :
  stg p = Returned None -> dm p = MkDaemon (MkWorld s Idle lg) st -> map_keys (pendings s) ord ->
  take_ready due_flush ord s = (s1, [x]) -> decide_verdict s1 0 x = Some (s2, v) -> Keep v = true ->
  Write st 0 (pspans x) = Some (st1, false) -> finish_decide s2 0 x v false = Some s3 -> late_ids (late s3) = [] ->
  exists q, ex_run p q /\ stg q = Flushed None false /\ timed_out q = timed_out p /\
    dm q = MkDaemon (MkWorld (take_late s3).1 Idle (lg ++ [MkWrite false (pspans x) false])) st1.
Proof.
  intros E Ed Hord Et Ev Hk Ew Ef El.
  set (w1 := MkWorld s1 (Judging Flushing [x]) lg). set (lg' := lg ++ [MkWrite false (pspans x) false]).
  assert (sweeper_step (dm p) (MkDaemon w1 st)) as S1 by (rewrite Ed; apply sw_piece; [by eapply step_flush|done]).
  assert (begins_flush (dm p) (MkDaemon w1 st)) as B1 by (rewrite Ed; by split).
  pose proof (ps_sampled no_text ex_config 0 _ _ (sm_flush p _ None E S1 B1)) as H1.
  assert (length (log (dmn (dm p))) = length lg) as El0 by (by rewrite Ed).
  eassert (rtc sweeping_step (MkDaemon w1 st) (MkDaemon (MkWorld _ Idle lg') st1)) as Hrun.
  { eapply rtc_l; [split; [apply sw_piece; [by eapply step_decide|done]|done]|].
    eapply rtc_l; [split; [apply (sw_write _ (MkWorld s2 (Settling Flushing x v false []) lg') (MkWrite false (pspans x) false) st st1 0);
      [by apply step_write|done|vm_decide|exact Ew]|done]|].
    eapply rtc_l; [split; [apply sw_piece; [by eapply (step_settle _ _ _ _ _ _ _ 0)|done]|done]|].
    eapply rtc_l; [split; [apply sw_piece; [apply step_flushed|done]|done]|].
    eapply rtc_l; [split; [apply sw_piece; [by apply step_take_late|done]|done]|].
    rewrite El. apply rtc_once. split; [apply sw_piece; [apply step_swept|done]|done]. }
  set (p1 := set_dm _ _) in H1.
  assert (rtc ex_step p1 (set_dm (MkDaemon (MkWorld (take_late s3).1 Idle lg') st1) p1)) as H2
    by (apply sweeping_steps; [right; by eexists _, _|exact Hrun]).
  set (p2 := set_dm (MkDaemon (MkWorld (take_late s3).1 Idle lg') st1) p1) in H2.
  pose proof (ps_sampled no_text ex_config 0 _ _ (sm_flushed p2 None _ eq_refl eq_refl)) as H3.
  eexists. split; [eapply rtc_l; [exact H1|eapply rtc_r; [exact H2|exact H3]]|]. split; [|split; reflexivity]. cbn [set_stage stg p2 set_dm dm dmn log]. rewrite El0. unfold lg'.
  by rewrite drop_app_length.
Qed.

(** The process that has answered the export. *)
Definition ex_answered : process := handle_http no_text 0 ex_call (set_http (MkServer true []) ex_called).
Definition ex_kept : Sampler := smp (dmn (dm ex_answered)).

(** What a flush computes for the one trace that waits. *)
Definition flush_one (s : Sampler) (st : store) : option (pending * list pending * Verdict * Sampler * (store * bool)) :=
  let '(s1, ready) := take_ready due_flush [ex_trace] s in
  match ready with
  | [] => None
  | x :: l => '(s2, v) ← decide_verdict s1 0 x; w ← Write st 0 (pspans x); s3 ← finish_decide s2 0 x v false;
              Some (x, l, v, s3, w)
  end.

Lemma flush_one_inv s st x l v s3 w : flush_one s st = Some (x, l, v, s3, w) ->
  exists s1 s2, take_ready due_flush [ex_trace] s = (s1, x :: l) /\ decide_verdict s1 0 x = Some (s2, v) /\
    Write st 0 (pspans x) = Some w /\ finish_decide s2 0 x v false = Some s3.
Proof.
  unfold flush_one. destruct (take_ready due_flush [ex_trace] s) as [s1 [|y r]]; [done|].
  destruct (decide_verdict s1 0 y) as [[s2 v2]|] eqn:Ev; [|done]. cbn [mbind option_bind].
  destruct (Write st 0 (pspans y)) as [w2|] eqn:Ew; [|done]. cbn [mbind option_bind].
  destruct (finish_decide s2 0 y v2 false) as [s4|] eqn:Ef; [|done]. cbn [mbind option_bind]. intros [= <- <- <- <- <-].
  by exists s1, s2.
Qed.

Lemma ex_answered_fields : stg ex_answered = stg ex_called /\ timed_out ex_answered = timed_out ex_called /\
  grpc ex_answered = grpc ex_called /\ inflight (http ex_answered) = [].
Proof.
  unfold ex_answered. destruct (handle_http_fields no_text 0 ex_call (set_http (MkServer true []) ex_called)) as (_ & -> & _ & -> & -> & ->).
  by split_and!.
Qed.

Lemma ex_kept_keys : map_keys (pendings ex_kept) [ex_trace].
Proof. unfold map_keys. vm_decide. Qed.

Lemma ex_answered_reachable : ex_processes ex_answered.
Proof. eapply ex_then; [exact ex_called_reachable|]. by apply ps_serve, (sv_http_answer _ ex_called [] ex_call [] 0). Qed.

Lemma ex_answered_daemon : dm ex_answered = MkDaemon (MkWorld ex_kept Idle []) ex_store.
Proof.
  assert (exists s, dm ex_answered = with_sampler s ex_daemon) as [s Es].
  { unfold ex_answered, handle_http. destruct (mux _ _ _ _ _) as [s a]. by exists s. }
  unfold ex_kept. rewrite Es. reflexivity.
Qed.

(** The flush over, with one trace in the log and in the segment of the hour. *)
Lemma ex_kept_flushed : exists q d o x, ex_run ex_answered q /\ stg q = Flushed None false /\ timed_out q = false /\
  dst (dm q) = OnDisk d o /\ Disk.dirty d = false /\ DiskSpec.isfile o (Disk.hour_of 0) /\ DiskSpec.hours o = [Disk.hour_of 0] /\
  Disk.dirty (Disk.Close d o).1.1 = false /\ faults (Disk.Close d o).1.2 = [] /\
  log (dmn (dm q)) = [MkWrite false (pspans x) false] /\ TraceID_ <$> pspans x = [ex_trace].
Proof.
  destruct ex_answered_fields as (E1 & E2 & E3 & E4).
  assert (match flush_one ex_kept ex_store with
          | Some (x, l, v, s3, (OnDisk d o, failed)) =>
              let r := Disk.Close d o in
              (length l, Keep v, late_ids (late s3), TraceID_ <$> pspans x,
               (failed, Disk.dirty d, match files o !! Disk.path (Disk.hour_of 0) with Some (File _) => true | _ => false end,
                DiskSpec.hours o, Disk.dirty r.1.1, faults r.1.2))
          | _ => (1%nat, false, [], [], (true, true, false, [], true, [])) end =
            (0%nat, true, [], [ex_trace], (false, false, true, [Disk.hour_of 0], false, []))) as E
    by (vm_compute; reflexivity).
  destruct (drained ex_answered) as (q & Hq & Eq & Et & Edq); [by rewrite E1|by rewrite E3|exact E4|].
  rewrite E2 in Et. rewrite ex_answered_daemon in Edq.
  destruct (flush_one ex_kept ex_store) as [[[[[x l] v] s3] [st1 failed]]|] eqn:Eflush; [|discriminate E].
  destruct (flush_one_inv _ _ _ _ _ _ _ Eflush) as (s1 & s2 & Er & Ev & Ew & Ef).
  destruct st1 as [m|d o]; [discriminate E|]. apply pair_equal_spec in E as [E Er2]. apply pair_equal_spec in E as [E Hid].
  apply pair_equal_spec in E as [E Hlate]. apply pair_equal_spec in E as [Hl Hk].
  apply pair_equal_spec in Er2 as [Er2 Hfaults]. apply pair_equal_spec in Er2 as [Er2 Hclosed]. apply pair_equal_spec in Er2 as [Er2 Hhours].
  apply pair_equal_spec in Er2 as [Er2 Hfile].
  apply pair_equal_spec in Er2 as [-> Hdirty]. destruct l; [|discriminate Hl].
  destruct (flushed_one q ex_kept [] ex_store [ex_trace] s1 x s2 v (OnDisk d o) s3 Eq Edq ex_kept_keys Er Ev Hk Ew Ef Hlate)
    as (q2 & Hq2 & Eq2 & Et2 & Ed2).
  exists q2, d, o, x. split; [by etrans|]. split; [exact Eq2|]. split; [by rewrite Et2, Et|]. rewrite Ed2. cbn [dst dmn log app].
  assert (DiskSpec.isfile o (Disk.hour_of 0)) as Hf.
  { split; [vm_decide|]. destruct (files o !! Disk.path (Disk.hour_of 0)) as [[|cc]|]; [discriminate Hfile| |discriminate Hfile].
    by exists cc. }
  split; [reflexivity|]. split; [exact Hdirty|]. split; [exact Hf|]. split; [exact Hhours|]. split; [exact Hclosed|].
  split; [exact Hfaults|]. split; [reflexivity|exact Hid].
Qed.

(** Its exit. *)
Lemma ex_kept_exit : exists p d o x, ex_run ex_answered p /\ stg p = Exited 0 /\ timed_out p = false /\
  dst (dm p) = OnDisk d o /\ Disk.dirty d = false /\ faults o = [] /\
  log (dmn (dm p)) = [MkWrite false (pspans x) false] /\ TraceID_ <$> pspans x = [ex_trace].
Proof.
  destruct ex_kept_flushed as (q & d & o & x & Hq & Eq & Et & Ed & _ & _ & _ & Hdirty & Hfaults & Hlog & Hid).
  eexists _, (Disk.Close d o).1.1, (Disk.Close d o).1.2, x.
  split; [eapply rtc_r; [eapply rtc_r; [exact Hq|exact (ps_exit _ _ _ _ _ (ex_close q None false Eq))]|by apply ps_exit, ex_exit]|].
  cbn [set_dm set_stage stg timed_out dm dst dmn]. rewrite Ed, Et.
  split; [reflexivity|]. split; [reflexivity|]. split; [|split; [exact Hdirty|split; [exact Hfaults|split; [exact Hlog|exact Hid]]]].
  cbn [dst Close daemon_store disk_store fst snd]. by destruct (Disk.Close d o) as [[d1 o1] b].
Qed.

Lemma ex_after p : ex_run ex_answered p -> ex_processes p.
Proof. intros Hs. destruct ex_answered_reachable as (p0 & Hz & Hs0). exists p0. split; [exact Hz|by etrans]. Qed.

(** It is opened again, and the trace served. *)
Example restart_after_exit_witness :
  exists p d o sp d2 o2, ex_processes p /\ stg p = Exited 0 /\ dst (dm p) = OnDisk d o /\
    Disk.OpenDisk 0 0 0 o = (Ok d2, o2) /\ TraceID_ sp = ex_trace /\
    sp ∈ written (log (dmn (dm p))) /\ answers_last (Disk.Trace d2 (TraceID_ sp)) (DiskSpec.replayed o) sp.
Proof.
  destruct ex_kept_exit as (p & d & o & x & Hp%ex_after & E & _ & Ed & Hdirty & Hfaults & Hlog & Hid).
  destruct (restart_after_exit no_text ex_config 0 p 0 d o o 0 0 0 Hp E Ed Hdirty eq_refl Hfaults (Z.eq_le_incl _ _ ex_retention) (Z.le_refl 0))
    as (d2 & o2 & Eo & _ & Hserved).
  destruct (pspans x) as [|sp spans] eqn:Ex; [discriminate Hid|]. injection Hid as Hsp _.
  assert (sp ∈ written (log (dmn (dm p)))) as Hin.
  { rewrite Hlog. apply elem_of_written. exists (MkWrite false (sp :: spans) false). split; [left|split; [reflexivity|left]]. }
  exists p, d, o, sp, d2, o2. split_and!; [exact Hp|exact E|exact Ed|exact Eo|exact Hsp|exact Hin|apply (Hserved sp Hin)].
Defined.

(** What it kept is in a segment file. *)
Example exit_durable_witness :
  exists p d o sp, ex_processes p /\ stg p = Exited 0 /\ pendings (smp (dmn (dm p))) = ∅ /\
    dst (dm p) = OnDisk d o /\ TraceID_ sp = ex_trace /\ in_segment o sp.
Proof.
  destruct ex_kept_exit as (p & d & o & x & Hp%ex_after & E & Ht & Ed & _ & _ & Hlog & Hid).
  destruct (exit_durable no_text ex_config 0 p 0 Hp E Ht) as (_ & _ & (Hpend & _) & Hdisk).
  destruct (pspans x) as [|sp spans] eqn:Ex; [discriminate Hid|]. injection Hid as Hsp _.
  exists p, d, o, sp. split_and!; [exact Hp|exact E|exact Hpend|exact Ed|exact Hsp|].
  refine (Hdisk (Z.eq_le_incl _ _ ex_retention) (MkWrite false (sp :: spans) false) sp d o _ eq_refl _ Ed).
  - rewrite Hlog. left.
  - left.
Defined.
