(* ===== verification/Delivery.v ===== *)
(** * What an acknowledgement is worth

    A client is answered when the sampler has taken its spans, long before
    anything is written.  Here the spans of an acknowledged export are followed
    through the process, from the answer to its exit. *)

From S2P Require Import Prelude GoTime GoBytes GoStrings GoFloat Ident Value Span Codec Otlp Frame Query.
From S2P Require Memory MemorySpec.
From S2P Require Import Assembly Forest AssemblySpec BuildProps Policy Os.
From S2P Require Disk DiskSpec DiskProps DiskCrash.
From S2P Require Import Store Sampler SamplerSpec SamplerProps SamplerFlow SamplerLedger SamplerRun.
From S2P Require Import Ingest Daemon DaemonProps DaemonRun Serve.

Section delivery.
Context `{ProtoTypes} `{ValueParsers} `{!Wire} (error_text : otlp_error -> list byte) (c : config) (T : Time).

(** ** The spans the daemon has taken *)

Lemma daemon_flow_initial d : daemon_initial c d -> exists sc, samplerConfig c = Ok sc /\ flow sc [] [] (dmn d).
Proof.
  intros [args now now' o s st _ Es]. destruct (start_ok _ _ _ _ _ _ _ _ _ Es) as (_ & _ & _ & _ & _ & sc & Esc & Hi & _).
  exists sc. split; [done|]. by apply flow_initial.
Qed.

(** An export that is answered with success adds its spans. *)
Lemma export_flow sc h d s pc lg now req resp :
  flow sc h d (MkWorld s pc lg) -> (export (Sink0 := sampler_sink now) error_text s req).2 = Ok resp ->
  exists h' d', flow sc h' d' (MkWorld (export (Sink0 := sampler_sink now) error_text s req).1 pc lg) /\ (Translate req).1 ⊆ h'.
Proof.
  intros Hf. unfold export. destruct (Translate req) as [[|sp spans] rejections]; simpl.
  { intros _. exists h, d. split; [done|apply list_subseteq_nil]. }
  pose proof (flow_accepted sc h d s pc lg now (sp :: spans) Hf) as Hacc.
  destruct (Sampler.Accept s now (sp :: spans)) as [s' [e|]]; simpl; [done|]. intros _.
  eexists _, _. split; [by apply Hacc|set_solver].
Qed.

Lemma aside_flow_step sc h d d1 d2 : flow sc h d (dmn d1) -> aside_step error_text c T d1 d2 ->
  exists h' d', flow sc h' d' (dmn d2) /\ h ⊆ h'.
Proof.
  intros Hf Hst. destruct Hst as [s pc lg st now req|w st now _|w st now]; cbn [dmn] in *; [|by exists h, d..].
  destruct (export_accepts error_text s now req) as (spans & _ & [->| ->]); [by exists h, d|].
  eapply flow_step; [exact Hf|constructor].
Qed.

Lemma process_flow_step sc h d p p' : flow sc h d (dmn (dm p)) -> process_step error_text c T p p' ->
  exists h' d', flow sc h' d' (dmn (dm p')) /\ h ⊆ h'.
Proof.
  intros Hf [_ [[_ [->|[Hst|[_ Hst]]]]|(e & f & _ & _ & ->)]]%process_refines; [by exists h, d| | |by exists h, d].
  - by eapply aside_flow_step.
  - eapply flow_step; [exact Hf|]. constructor. by apply sweeper_sweep.
Qed.

Lemma process_flow_run sc p q : rtc (process_step error_text c T) p q -> forall h d, flow sc h d (dmn (dm p)) ->
  exists h' d', flow sc h' d' (dmn (dm q)) /\ h ⊆ h'.
Proof.
  induction 1 as [p|p p1 q Hst _ IH]; intros h d Hf; [by exists h, d|].
  destruct (process_flow_step _ _ _ _ _ Hf Hst) as (h1 & d1 & Hf1 & Hh). destruct (IH _ _ Hf1) as (h2 & d2 & Hf2 & Hh2).
  exists h2, d2. split; [done|]. by etrans.
Qed.

Lemma process_flow p : process_reachable error_text c T p ->
  exists sc h d, samplerConfig c = Ok sc /\ flow sc h d (dmn (dm p)).
Proof.
  intros (p0 & [d0 Hd0] & Hs). destruct (daemon_flow_initial d0 Hd0) as (sc & Esc & Hf).
  destruct (process_flow_run sc _ _ Hs [] [] Hf) as (h & d & Hf' & _). by exists sc, h, d.
Qed.

(** ** Acknowledgements *)

(** What the body of an HTTP export decodes to. *)
Definition requested (r : Request) : option (list PResourceSpans) :=
  match ParseMediaType (ContentType r), readBody r with
  | Some mediaType, Ok body => unmarshal mediaType body
  | _, _ => None
  end.

(** The step answers an export with success, over gRPC or over HTTP; [spans]
    are the spans the export was translated to. *)
Inductive acknowledges (p : process) (spans : list Span) : process -> Prop :=
| ack_grpc l1 req l2 now resp :
    running (stg p) -> inflight (grpc p) = l1 ++ req :: l2 -> spans = (Translate req).1 ->
    let p' := handle_grpc error_text now req (set_grpc (MkServer (accepting (grpc p)) (l1 ++ l2)) p) in
    answers p' = answers p ++ [GRPCAnswer (Ok resp)] -> acknowledges p spans p'
| ack_http l1 x l2 now r req :
    running (stg p) -> inflight (http p) = l1 ++ x :: l2 -> requested x.2 = Some req -> spans = (Translate req).1 ->
    let p' := handle_http error_text now x (set_http (MkServer (accepting (http p)) (l1 ++ l2)) p) in
    answers p' = answers p ++ [HTTPAnswer (Handled r)] -> StatusCode r = 200 -> acknowledges p spans p'.

Lemma acknowledges_step p spans p' : acknowledges p spans p' -> process_step error_text c T p p'.
Proof.
  intros [l1 req l2 now resp Hr Hi _ q _|l1 x l2 now r req Hr Hi _ _ q _ _]; apply ps_serve;
    [by apply sv_grpc_answer|by apply sv_http_answer].
Qed.

(** The only export in flight, answered first. *)
Lemma ack_first p x now r req q :
  running (stg p) -> inflight (http p) = [x] -> requested x.2 = Some req -> answers p = [] ->
  accepting (http p) = true -> q = handle_http error_text now x (set_http (MkServer true []) p) ->
  answers q = [HTTPAnswer (Handled r)] -> StatusCode r = 200 -> acknowledges p (Translate req).1 q.
Proof.
  intros Hr Hi Hq Hp Hac -> Ha Hok. rewrite <-Hac in *.
  refine (ack_http p _ [] x [] now r req Hr Hi Hq eq_refl _ Hok). rewrite Hp. exact Ha.
Qed.

(** Only an export the sampler took is answered with 200. *)
Lemma ServeHTTP_ok now s r req :
  requested r = Some req ->
  StatusCode (ServeHTTP (Sink0 := sampler_sink now) error_text s r).2 = 200 ->
  (ServeHTTP (Sink0 := sampler_sink now) error_text s r).1 = (export (Sink0 := sampler_sink now) error_text s req).1 /\
  exists resp, (export (Sink0 := sampler_sink now) error_text s req).2 = Ok resp.
Proof.
  unfold requested, ServeHTTP. destruct (ParseMediaType (ContentType r)) as [mt|]; [|done].
  destruct (readBody r) as [body|e]; [|done]. intros Eu. rewrite Eu. destruct (negb _); [done|]. destruct (_ && _); [done|].
  destruct (export (Sink0 := sampler_sink now) error_text s req) as [s' [resp|e]]; [|by destruct e].
  intros _. split; [by destruct (marshal mt resp)|by exists resp].
Qed.

(** What an acknowledged export carries has been taken. *)
Lemma acknowledges_flow p spans p' : process_reachable error_text c T p -> acknowledges p spans p' ->
  exists sc h d, samplerConfig c = Ok sc /\ flow sc h d (dmn (dm p')) /\ spans ⊆ h.
Proof.
  intros (sc & h & d & Esc & Hf)%process_flow Hack. exists sc.
  destruct Hack as [l1 req l2 now resp _ _ -> q Ha|l1 x l2 now r req _ _ Er -> q Ha Hok]; subst q.
  - unfold handle_grpc in *. cbn [set_grpc dm] in *. destruct (dm p) as [[s pc lg] st]. cbn [dmn smp] in *.
    unfold Export in *. pose proof (export_flow sc h d s pc lg now req) as Hexp.
    destruct (export (Sink0 := sampler_sink now) error_text s req) as [s' a]. cbn [fst snd reply_with set_dm answers dm with_sampler dmn] in *.
    apply app_inj_tail in Ha as [_ Ha]. destruct a as [resp'|e]; [|by destruct (IsSinkFull e)].
    destruct (Hexp resp' Hf eq_refl) as (h' & d' & ? & ?). by exists h', d'.
  - unfold handle_http in *. cbn [set_http dm] in *. destruct (dm p) as [[s pc lg] st]. cbn [dmn smp] in *.
    unfold mux in *. case_bool_decide; [|by case_bool_decide; apply app_inj_tail in Ha as [_ Ha]].
    pose proof (ServeHTTP_ok now s x.2 req Er) as Hs. pose proof (export_flow sc h d s pc lg now req) as Hexp.
    destruct (ServeHTTP (Sink0 := sampler_sink now) error_text s x.2) as [s' a]. cbn [fst snd reply_with set_dm answers dm with_sampler dmn] in *.
    apply app_inj_tail in Ha as [_ Ha]. injection Ha as ->. destruct (Hs Hok) as [-> [resp Eexp]].
    destruct (Hexp resp Hf Eexp) as (h' & d' & ? & ?). by exists h', d'.
Qed.

(** ** From the answer to the exit *)

(** Where an acknowledged span is when the process has exited. *)
Lemma acknowledged_at_exit p p' q spans code :
  process_reachable error_text c T p -> acknowledges p spans p' -> rtc (process_step error_text c T) p' q ->
  stg q = Exited code -> timed_out q = false ->
  exists sc h d, samplerConfig c = Ok sc /\ flow sc h d (dmn (dm q)) /\ spans ⊆ h /\
    h ≡ₚ (log (dmn (dm q)) ≫= wspans) ++ d.
Proof.
  intros Hp Hack Hrun E Ht. destruct (acknowledges_flow p spans p' Hp Hack) as (sc & h & d & Esc & Hf & Hsub).
  destruct (process_flow_run sc _ _ Hrun h d Hf) as (h' & d' & Hf' & Hsub').
  assert (process_reachable error_text c T q) as Hq.
  { destruct Hp as (p0 & Hz & Hs). exists p0. split; [done|]. etrans; [exact Hs|]. eapply rtc_l; [by eapply acknowledges_step|done]. }
  destruct (exit_at_rest error_text c T q code Hq E Ht) as (Hpc & Hpend & Hlate & _).
  exists sc, h', d'. split_and!; [done..|by etrans|].
  destruct (dmn (dm q)) as [s pc lg]. simpl in *. subst pc. by eapply flow_at_rest.
Qed.

Lemma logged_failed lg x : x ∈ lg -> wfailed x = true -> zlen (wspans x) <= logged wfailed lg.
Proof.
  intros Hx Hf. assert (forall l, 0 <= logged wfailed l) as Hn.
  { induction l as [|y l IH]; simpl; [done|]. pose proof (zlen_nonneg (wspans y)). destruct (wfailed y); lia. }
  induction lg as [|y lg IH]; [by apply elem_of_nil in Hx|]. simpl. apply elem_of_cons in Hx as [<-|Hx].
  - rewrite Hf. specialize (Hn lg). lia.
  - specialize (IH Hx). pose proof (zlen_nonneg (wspans y)). destruct (wfailed y); lia.
Qed.

(** C3: with [-keep-share=1 -service-rate=0] and no retention, no span whose
    export was answered with success is lost silently: when the process has
    exited, and its exports drained in time, the span was handed to the store;
    either that write did not fail, and on disk the span is in a segment file,
    or it did, and the counter of lost spans says so. *)
Theorem acknowledged_on_disk (p p' q : process) (spans : list Span) (code : Z) (sp : Span) :
  keepShare c = fone -> serviceRate c = fzero -> retention c <= 0 ->
  process_reachable error_text c T p -> acknowledges p spans p' -> sp ∈ spans ->
  rtc (process_step error_text c T) p' q -> stg q = Exited code -> timed_out q = false ->
  exists x, x ∈ log (dmn (dm q)) /\ sp ∈ wspans x /\
    if wfailed x then 0 < Lost_ (stats (smp (dmn (dm q))))
    else forall d o, dst (dm q) = OnDisk d o -> in_segment o sp.
Proof.
  intros Hshare Hrate Hret Hp Hack Hsp Hrun E Ht.
  destruct (acknowledged_at_exit p p' q spans code Hp Hack Hrun E Ht) as (sc & h & d & Esc & Hf & Hsub & Hperm).
  destruct (flow_keeps_all sc h d _ (keep_everything c sc Esc Hshare Hrate) Hf) as [-> _]. rewrite app_nil_r in Hperm.
  assert (process_reachable error_text c T q) as Hq.
  { destruct Hp as (p0 & Hz & Hs). exists p0. split; [done|]. etrans; [exact Hs|]. eapply rtc_l; [by eapply acknowledges_step|done]. }
  apply Hsub in Hsp. rewrite Hperm in Hsp. apply list_elem_of_bind in Hsp as (x & Hsp & Hx).
  exists x. split_and!; [done..|]. destruct (wfailed x) eqn:Efail.
  - destruct (exit_at_rest error_text c T q code Hq E Ht) as (Hpc & _ & _ & sc' & Hr).
    destruct (reachable_inv _ _ Hr) as (_ & _ & [_ _ _ _ C5 _] & _). rewrite C5, Hpc. cbn [uncounted_lost uncounted_late].
    pose proof (logged_failed _ _ Hx Efail) as Hn. apply list_elem_of_split in Hsp as (l1 & l2 & El). rewrite El in Hn.
    unfold zlen in Hn. rewrite length_app in Hn. simpl in Hn. lia.
  - intros dk o Edst. by apply (exit_in_segment error_text c T q x sp dk o).
Qed.

(** ** A process that is killed *)

(** C5: a process that is killed while it runs, even in the middle of a write
    or with a failed write still to undo, has lost nothing it had written.
    Without retention each segment reads as older spans, and then, whole and in
    order, what was written in its hour, as if the write in progress had been
    one of the spans [l] whose records were complete.  A store opened on
    the directory answers for the trace of each span written with every
    identifier once, and for this one with the last copy in the order of the
    segments, which is the last one written unless the clock ran back over an
    hour.  If no segment is newer than the one being written, which is so as
    long as the clock has not run back, and reading the directory works, the
    store does open. *)
Theorem killed_keeps_written (p : process) (d : Disk.Disk) (o o1 : os) (now now1 now2 : Time) (h0 : Z) (l : list Span)
    (rest : list byte) (r : Duration) :
  process_reachable error_text c T p -> running (stg p) -> dst (dm p) = OnDisk d o ->
  DiskCrash.killed d now o o1 h0 l rest -> retention c <= 0 -> r <= 0 ->
  ((forall h, DiskSpec.isfile o h -> h <= h0) -> faults o1 = [] ->
   exists d2 o2, Disk.OpenDisk r now1 now2 o1 = (Ok d2, o2)) /\
  (exists hours old, segments_read o1 (hours ++ [h0]) old (log (dmn (dm p)) ++ [MkWrite false l false])) /\
  forall d2 o2, Disk.OpenDisk r now1 now2 o1 = (Ok d2, o2) -> forall sp, sp ∈ written (log (dmn (dm p))) ->
    answers_last (Disk.Trace d2 (TraceID_ sp)) (DiskSpec.replayed o1) sp /\
    forall hours old, segments_read o1 (hours ++ [h0]) old (log (dmn (dm p)) ++ [MkWrite false l false]) ->
      in_order (hours ++ [h0]) old -> answers_last (Disk.Trace d2 (TraceID_ sp)) (written (log (dmn (dm p))) ++ l) sp.
Proof.
  intros Hp _ Ed K Hret Hr0. apply process_inv_reachable in Hp as [[_ _ (A & HA & Hh)] _ _ _ _ _].
  destruct (Hh Hret) as (hours & old & Hhold). rewrite Ed in HA. destruct HA as [I _]. split.
  { intros Hnew Hf. by eapply DiskCrash.killed_opens. }
  pose proof (DiskCrash.killed_shape _ _ _ _ _ _ _ _ I K) as S.
  assert (forall h, DiskSpec.tail_ok (if h =? h0 then rest else [])) as Ht by (intros h; apply DiskProps.tail_ok_if, K).
  pose proof (segments_hold_snoc _ _ _ _ h0 (MkWrite false l false) (DiskCrash.which_range _ _ _ _ _ _ _ _ I K) Hhold) as Hhold'.
  split; [exists hours, old; by eapply segments_hold_read|]. intros d2 o2 Eo sp Hsp.
  assert (sp ∈ written (log (dmn (dm p)) ++ [MkWrite false l false])) as Hin by (rewrite written_snoc; apply elem_of_app; by left).
  destruct (reopened_serves r o1 _ _ _ old _ now1 now2 d2 o2 S Ht Hhold' Hr0 Eo sp Hin) as [Ha Hlast]. split; [exact Ha|].
  intros hours' old' Hread Ho. specialize (Hlast _ _ Hread Ho). by rewrite written_snoc in Hlast.
Qed.
End delivery.

(** ** An export to follow *)

#[local] Existing Instance example_parsers.
#[local] Existing Instance example_proto.
#[local] Existing Instance example_types.
#[local] Existing Instance example_wire.

#[local] Strategy 100 [handle_http].

Definition ex_spans : list Span := match requested ex_call.2 with Some req => (Translate req).1 | None => [] end.

Lemma ex_acknowledges : acknowledges no_text ex_called ex_spans ex_answered.
Proof.
  assert (match answers ex_answered with [HTTPAnswer (Handled r)] => StatusCode r | _ => 0 end = 200) as Ea by (vm_compute; reflexivity).
  assert (match requested ex_call.2 with Some _ => true | None => false end = true) as Ed by (vm_compute; reflexivity).
  unfold ex_spans. destruct (requested ex_call.2) as [req|] eqn:Er; [|discriminate Ed].
  destruct (answers ex_answered) as [|[|[r| |]] [|]] eqn:Ea'; try discriminate Ea.
  exact (ack_first no_text ex_called ex_call 0 r req ex_answered I eq_refl Er eq_refl eq_refl eq_refl Ea' Ea).
Qed.

Example acknowledged_on_disk_witness :
  exists p d o sp, rtc ex_step ex_answered p /\ stg p = Exited 0 /\ dst (dm p) = OnDisk d o /\
    sp ∈ ex_spans /\ TraceID_ sp = ex_trace /\ in_segment o sp.
Proof.
  destruct ex_kept_exit as (p & d & o & w & Hrun & E & Ht & Ed & _ & _ & Hlog & _).
  assert (TraceID_ <$> ex_spans = [ex_trace]) as Hid by (vm_compute; reflexivity).
  assert (keepShare ex_config = fone) as Hshare by (vm_compute; reflexivity).
  assert (serviceRate ex_config = fzero) as Hrate by (vm_compute; reflexivity).
  pose proof ex_acknowledges as Hack.
  destruct ex_spans as [|sp [|]] eqn:Esp; [discriminate Hid| |discriminate Hid]. injection Hid as Hsp.
  assert (sp ∈ [sp]) as Hin by left.
  destruct (acknowledged_on_disk no_text ex_config 0 ex_called ex_answered p [sp] 0 sp Hshare Hrate (Z.eq_le_incl _ _ ex_retention)
              ex_called_reachable Hack Hin Hrun E Ht) as (x & Hx & _ & Hdisk).
  rewrite Hlog in Hx. apply list_elem_of_singleton in Hx as ->. cbn [wfailed] in Hdisk.
  exists p, d, o, sp. split_and!; [exact Hrun|exact E|exact Ed|exact Hin|exact Hsp|exact (Hdisk d o Ed)].
Defined.

(** The process is killed after its flush, while it begins another record. *)
Example killed_keeps_written_witness :
  exists p d o d2 o2 sp, ex_processes p /\ dst (dm p) = OnDisk d o /\
    Disk.OpenDisk 0 0 0 (DiskCrash.torn_at (Disk.hour_of 0) o) = (Ok d2, o2) /\ TraceID_ sp = ex_trace /\
    sp ∈ written (log (dmn (dm p))) /\
    answers_last (Disk.Trace d2 (TraceID_ sp)) (DiskSpec.replayed (DiskCrash.torn_at (Disk.hour_of 0) o)) sp.
Proof.
  destruct ex_kept_flushed as (p & d & o & x & Hp%ex_after & E & _ & Ed & Hd & Hf & Hhours & _ & _ & Hlog & Hid).
  assert (running (stg p)) as Hrun by (rewrite E; exact I).
  destruct (killed_keeps_written no_text ex_config 0 p d o _ 0 0 0 _ _ _ 0 Hp Hrun Ed (DiskCrash.torn_at_killed d o 0 Hd Hf)
              (Z.eq_le_incl _ _ ex_retention) (Z.le_refl 0)) as (Hopens & _ & Hserved).
  destruct Hopens as (d2 & o2 & Eo).
  { intros h [Hh [cc Hc]]. assert (h ∈ DiskSpec.hours o) as Hin.
    { apply DiskSpec.elem_of_hours_raw. eexists _, _. split; [exact Hc|by apply DiskSpec.segment_hour_path]. }
    rewrite Hhours in Hin. apply list_elem_of_singleton in Hin as ->. apply Z.le_refl. }
  { reflexivity. }
  destruct (pspans x) as [|sp spans] eqn:Ex; [discriminate Hid|]. injection Hid as Hsp _.
  assert (sp ∈ written (log (dmn (dm p)))) as Hin.
  { rewrite Hlog. apply elem_of_written. exists (MkWrite false (sp :: spans) false). split; [left|split; [reflexivity|left]]. }
  exists p, d, o, d2, o2, sp. split_and!; [exact Hp|exact Ed|exact Eo|exact Hsp|exact Hin|apply (Hserved d2 o2 Eo sp Hin)].
Defined.

(** An acknowledgement does not outlive a crash: a span whose export was
    answered with success, and which still waits in the sampler when the
    process is killed, is not served after the restart. *)
Theorem acknowledged_lost_in_crash :
  exists p p' spans d o d2 o2, ex_processes p /\ acknowledges no_text p spans p' /\ running (stg p') /\
    TraceID_ <$> spans = [ex_trace] /\ dst (dm p') = OnDisk d o /\
    DiskCrash.killed d 0 o (MkOs (files o) []) (Disk.hour_of 0) [] [] /\
    Disk.OpenDisk 0 0 0 (MkOs (files o) []) = (Ok d2, o2) /\ Disk.Trace d2 ex_trace = Err ErrNotFound.
Proof.
  assert (match ex_store with
          | OnDisk d o => match Disk.OpenDisk 0 0 0 (MkOs (files o) []) with
                          | (Ok d2, _) => (Disk.dirty d, Disk.Trace d2 ex_trace)
                          | _ => (true, Ok []) end
          | _ => (true, Ok []) end = (false, Err ErrNotFound)) as E by (vm_compute; reflexivity).
  destruct ex_store as [m|d o] eqn:Est; [discriminate E|].
  destruct (Disk.OpenDisk 0 0 0 (MkOs (files o) [])) as [[d2|e] o2] eqn:Eo; [|discriminate E].
  apply pair_equal_spec in E as [Hd Ht]. exists ex_called, ex_answered, ex_spans, d, o, d2, o2.
  split; [exact ex_called_reachable|]. split; [exact ex_acknowledges|].
  split; [rewrite (proj1 ex_answered_fields); exact I|]. split; [vm_compute; reflexivity|].
  split; [rewrite ex_answered_daemon; exact Est|]. split; [|split; [exact Eo|exact Ht]].
  apply DiskCrash.idle_killed; [vm_decide|exact Hd].
Qed.
